(* ===== verification/_CoqProject ===== *)
-Q . S2P
Prelude.v
Bytes.v
Buffer.v
Base.v
InetAddress.v
HttpRequest.v
HttpContext.v
HttpResponse.v
Regex.v
Application.v
ApplicationProps.v
Channel.v
EPollPoller.v
TinySockets.v
Acceptor.v
AcceptorProps.v
Socket.v
TimerQueue.v
Connector.v
ConnectorProps.v
LoopThreads.v
EventLoopThread.v
EventLoop.v
EventLoopThreadPool.v
TCPConnection.v
ConnLife.v
TCPServer.v
TCPServerProps.v
TCPConnectionInv.v
TCPConnectionProps.v
ConnLifeProps.v
HttpServer.v
HttpWellFormed.v
ConnectorSteps.v
TCPClient.v
TCPClientInv.v
TCPClientProps.v
CDN.v
HttpService.v
Startup.v
HttpConversation.v
Website.v
