(* ===== verification/Prelude.v ===== *)
(** * Lute: a verified model of a reactor network library and its HTTP server

    Lute is a C++ library in the style of muduo (src/polaris) with two programs on
    it: an HTTP server with accounts and pages (src/app/http) and a small recorder
    of bytes (src/app/CDN).  This development translates the library and the
    programs function by function into executable Gallina definitions and proves
    what makes them correct.  This file has the vocabulary that all others share.

    ** How the program works

    An [EventLoop] belongs to one thread.  It waits in an [EPollPoller] for events
    on [Channel]s, calls the handlers of the channels, then runs the functors that
    this and other threads have queued.  [TimerQueue], [Acceptor], [Connector] and
    [TCPConnection] each own a channel.  A [TCPServer] accepts in its base loop and
    gives every connection to a loop of an [EventLoopThreadPool], whose loops run
    in [EventLoopThread]s; a [TCPClient] keeps one connection that its [Connector]
    makes.  A connection reads into and writes from [Buffer]s and calls the user's
    callbacks.  [HttpServer] is such a user: [HttpContext] parses the input buffer
    into an [HttpRequest], a handler -- [Application::onRequest] in the program --
    fills in an [HttpResponse], which is printed into a buffer and sent.

    ** Files

    Data:
    - [Prelude.v]: faults, the state-and-fault monad with its rules, machine integers;
    - [Bytes.v]: characters, searches, byte order, decimal printing (libc, C++ library);
    - [Buffer.v]: polaris/Buffer.h and .cc, byte-order helpers of Sockets.h;
    - [Base.v]: the interface of [Timestamp] (submodule Base);
    - [InetAddress.v]: polaris/InetAddress.h and .cc, address functions of Sockets.cc.

    One loop:
    - [Channel.v]: Channel.h and .cc, and the interface [LoopOps]/[LoopSpec] that a
      loop offers to the objects that own channels;
    - [EPollPoller.v]: Poller.h and .cc, EPollPoller.h and .cc; it discharges
      [LoopSpec], so that what is proved of connections, acceptors and connectors
      against the interface holds on the poller;
    - [EventLoop.v]: EventLoop.h and .cc as the loop's own thread runs them, over the
      poller; another implementation of [LoopOps];
    - [TimerQueue.v]: Timer.h and .cc, TimerId.h, TimerQueue.h and .cc, and [runAt],
      [runAfter], [runEvery] of EventLoop.cc;
    - [TinySockets.v]: a concrete kernel for the witnesses.

    Several threads, as transition systems whose steps are single accesses to shared
    variables, mutex operations or system calls:
    - [LoopThreads.v]: [queueInLoop], [quit], [wakeup] against [loop] (EventLoop.cc);
    - [EventLoopThread.v]: EventLoopThread.h and .cc;
    - [EventLoopThreadPool.v]: EventLoopThreadPool.h and .cc, in the base loop.

    Connections:
    - [Acceptor.v], [AcceptorProps.v]: Acceptor.h and .cc, [Socket] and the wrappers of
      Sockets.cc;
    - [Socket.v]: the options, reports and lifetime of a [Socket], rest of Sockets.cc;
    - [Connector.v], [ConnectorProps.v], [ConnectorSteps.v]: Connector.h and .cc;
    - [TCPConnection.v], [TCPConnectionInv.v], [TCPConnectionProps.v]: TCPConnection.h
      and .cc;
    - [ConnLife.v], [ConnLifeProps.v]: a connection as its owner sees it, and that
      [TCPConnection.v] behaves like this;
    - [TCPServer.v], [TCPServerProps.v]: TCPServer.h and .cc, over [ConnLife.v] and the
      pool;
    - [TCPClient.v], [TCPClientInv.v], [TCPClientProps.v]: TCPClient.h and .cc, over
      [ConnLife.v] and the whole of [Connector.v].

    Programs:
    - [HttpRequest.v], [HttpContext.v], [HttpWellFormed.v], [HttpResponse.v]: http/ files
      of the same names, and what is true of every parsed request;
    - [HttpServer.v], [HttpService.v]: HttpServer.h and .cc, the callbacks on a
      connection and the object with its [TCPServer];
    - [Regex.v], [Application.v], [ApplicationProps.v]: app.h and app.cc without [main];
    - [Startup.v]: the command line in [main] of app.cc;
    - [CDN.v]: app/CDN/src/main.cc;
    - [HttpConversation.v]: a client that asks one request after the other, from the
      accepted connection to the bytes it gets, for any handler; nothing new of the
      code, but parser, server, response and connection composed;
    - [Website.v]: the same with [Application::onRequest] as the handler.

    ** State and operations

    A method is a function in the monad [M S] over a record [S] with the members of
    the class under their own names ([readerIndex_], [timers_], [connections_] ...);
    where objects live behind pointers the record is a world with a heap of them
    ([Channel.v], [TimerQueue.v]), and using a pointer to something destroyed is a
    fault.  [zoom] runs a method of a member inside its owner.  Functors that wait in
    a queue are data, and a [run_...] function says what each does.  The definitions
    keep the names of the functions; those with the suffix [_ctor] and [_dtor] are
    constructors and destructors.

    The faults are those of a build with assertions: a failed [assert], [LOG_FATAL] and
    [LOG_SYSFATAL], an access outside an object (or other undefined behaviour), and
    [std::length_error].  [wp m Q s] says that [m] returns from [s] without any fault
    and that [Q] holds of what it returns and leaves; [safe m Q s] is the same but
    allows [std::length_error], the failure of a buffer to grow, for which the program
    has no handler; [upto] allows one given fault.  So a theorem with [wp] is also a
    statement of termination and of the absence of failed assertions.

    Integers are [Z] with the wrap-around of their type written out ([wrap_u], [wrap_s]);
    bytes are [Byte.byte]; the byte order of the host is the class [HostEndian], and
    the theorems hold for both.

    The kernel, the C library's address functions, the submodules Base, MySQL and Redis,
    and the file system are classes with operations ([Epoll], [Timerfd],
    [SocketNet], [AcceptOps], [ConnectOps], [BaseTime], [Services] ...) and, apart from
    them, classes with the documented behaviour that a theorem needs ([EpollLaws],
    [SocketNetLaws] ...).  The other end of a connection is a class of its own ([Peer],
    [PeerLaws] in [HttpConversation.v]).  The witnesses instantiate them by concrete
    functions.  A handler of [HttpServer] may have an object of its own, the parameter
    [A]: for the program it is the [Application] with its services.

    ** What the theorems show

    - [Buffer]: the buffer is a byte queue (refinement for every sequence of calls), the
      integers it reads are those that were written, [readFd] appends what was read.
    - [HttpContext], [HttpWellFormed]: what is printed as a request is parsed back; a
      request that one call leaves incomplete is finished by the next as if all its
      bytes had come at once; the accepted request lines are a grammar; the loop ends except when a whole request is already there;
      a request that comes out is well formed.
    - [Channel], [EPollPoller], [EventLoop]: dispatch of events; the table, the channels
      and the kernel's interest list agree; one turn of the loop; [loop] ends after
      [quit].
    - [TimerQueue]: no timer is lost, leaked or used after it was freed, whatever the
      callbacks and calls of other threads between the steps of the loop do to the
      queue; exactly the due timers run, in order.  In another thread [addTimer] reads
      its timer once more when the loop may have freed it: [addTimer_reads_freed].
    - [LoopThreads], [EventLoopThread], [EventLoopThreadPool]: no wake-up is lost;
      [startLoop] returns a living loop, and the destructor of a loop that runs joins,
      by the steps of the two threads alone, without a time-out of poll or an
      unreasoned return of wait; a destructor that comes before the loop runs hangs,
      which is a theorem of its own; loops are handed out round robin.
    - [TCPConnectionProps]: over the sessions that [enabled] admits -- events, functors,
      timers, callbacks, calls of other threads -- no assertion fails; what is on the wire
      and in the output buffer are whole messages, in order, and all of them while the
      connection is connected and was not reset ([no_reset]); output that is left is
      waited for, and a closing connection has sent its FIN or has something ahead of it
      that will.  What fails outside is stated too ([restarted_then_destroyed],
      [parked_close_hangup], [destroyed_while_disconnecting]).
    - [ConnLifeProps]: the connection refines the description its owners work with.
    - [AcceptorProps], [ConnectorProps], [TCPServerProps], [TCPClientProps]: for the calls
      that [aenabled], [cenabled], [senabled] and [uenabled] admit, descriptors are
      neither lost nor closed twice, every connection is established and destroyed
      once in its own loop, and the map of the server has exactly the living ones; and
      for calls they leave out -- [connect] called again, [start] during a retry, a server
      destroyed too early -- what happens instead.  open(2) of the acceptor's reserve may
      fail at any time: the constructor's assertion then fails, or there is no reserve.
    - [InetAddress]: addresses print as they were read.
    - [HttpServer], [ApplicationProps]: a request is answered by the printed response of
      the handler, a response is read back by the parser, the handler equals a table
      of routes, after a registration that the databases accept a login succeeds with the registered password only, nothing that is
      posted reaches the database but three words; long image names overflow
      [realFile_].
    - [HttpConversation], [Website]: however the bytes of a client arrive and are read,
      for every request of a conversation over one connection exactly one answer is
      sent, in order, the printed response of the handler, which for the program is what
      the table of routes and the files say; what was given to the kernel and what is
      buffered are all the answers, unless a write finds the connection reset
      ([no_reset]); the connection is then shut down or kept as the response says.
    - [CDN], [Startup]: segmentation does not matter; the command line.
    - [Socket]: the text of [getTcpInfoString] fits its array and can be read back.

    ** Fuel

    [HttpContext.parse_loop] gets [parse_fuel], three more than the bytes in the buffer:
    every round but at most three consumes a line, and [parse_terminates] shows that
    it suffices.  [HttpRequest.rtrim_loop] takes the length of the string, one unit per
    character.  [Regex.all_matches] takes the length of the text, since every match
    consumes something.  [Bytes.dec_digits] takes 20, the digits of a 64-bit number.
    [EventLoop.loop] has no bound of its own: [loop_until_quit] gives, for the turn after
    which [quit_] is set, that any larger fuel gives the same end.

    ** What is not modelled

    Logging and the text of messages (and so [eventsToString], [operationToString],
    [printActiveChannels], [stateToString]); names of threads; the wrappers
    [connect], [read], [readv], [write] and [shutdownWrite] of Sockets.cc, which pass
    their arguments on and are parameters;
    the functions that create the eventfd, timerfd and epoll descriptors; the banner
    and usage text of [main].  Callbacks.h is type aliases; its [WeakCallback] occurs in
    [forceCloseWithDelay] of [TCPConnection.v].  The submodules are not in the
    repository.  Timers and connections have worlds of their own, and so have the
    threads: a single world in which all objects of a server run at once is not
    built; the interfaces [LoopOps], [ConnLife] and the result of [startLoop] are
    where the parts are joined.  The handler of the application is proved for one
    request at a time, and a conversation for one connection: in the program several
    threads run it on one object.  The requests of a conversation have no body: what a
    body in a segment of its own does to the code is the example [split_body_lost]. *)

From Stdlib Require Import ZArith Lia.
From stdpp Require Export base tactics option list.

#[global] Set Default Proof Using "Type".

(** ** Faults and results

    [fault] lists the ways in which a C++ function of the program can stop
    without returning: a failed [assert], a [LOG_FATAL]/[LOG_SYSFATAL] (which
    call [abort]), an access outside an object, a [std::length_error], and --
    for the loops that are modelled with fuel -- running out of fuel. *)
Inductive fault :=
  | AssertFailed
  | FatalLog
  | OutOfBounds
  | LengthError
  | OutOfFuel.

#[export] Instance fault_eq_dec : EqDecision fault.
Proof. solve_decision. Defined.

Inductive result (A : Type) :=
  | Ok (a : A)
  | Fault (f : fault).
Arguments Ok {A} a.
Arguments Fault {A} f.

#[export] Instance result_eq_dec {A} `{EqDecision A} : EqDecision (result A).
Proof. solve_decision. Defined.

(** ** The state-and-fault monad

    A method of a class that mutates the object is a function of the
    object's state; [M S A] is the type of a computation that reads and
    writes a state [S] and returns an [A] or faults. *)
Definition M (S A : Type) : Type := S -> result (A * S).

Section monad.
Context {S : Type}.

#[export] Instance M_ret : MRet (M S) := λ A a s, Ok (a, s).

#[export] Instance M_bind : MBind (M S) := λ A B k m s,
  match m s with
  | Ok (a, s') => k a s'
  | Fault f => Fault f
  end.

Definition getS : M S S := λ s, Ok (s, s).
Definition putS (s : S) : M S unit := λ _, Ok (tt, s).
Definition gets {A} (f : S -> A) : M S A := λ s, Ok (f s, s).
Definition modify (f : S -> S) : M S unit := λ s, Ok (tt, f s).
Definition failM {A} (f : fault) : M S A := λ _, Fault f.

(** [assert(b)] of <cassert>. *)
Definition assert_ (b : bool) : M S unit :=
  if b then mret tt else failM AssertFailed.

(** [assert(f(object))]: the tested expression reads the state. *)
Definition assertS (f : S -> bool) : M S unit := λ s,
  if f s then Ok (tt, s) else Fault AssertFailed.

Definition whenM (b : bool) (m : M S unit) : M S unit :=
  if b then m else mret tt.

(** Range-based [for] loop over a container that the body does not change. *)
Fixpoint for_each {A} (l : list A) (body : A -> M S unit) : M S unit :=
  match l with
  | [] => mret tt
  | x :: l' => _ ← body x; for_each l' body
  end.
End monad.

Arguments M_ret {S} A a s /.
Arguments M_bind {S} A B k m s /.

(** Sequencing without a result: [m ;; k] of the source's statements. *)
Notation "m ;;; k" := (mbind (λ _ : unit, k) m)
  (at level 100, right associativity, only parsing) : stdpp_scope.

(** A member object: how to read it out of its owner and write it back. *)
Record lens (S T : Type) := Lens { view : S -> T; upd : T -> S -> S }.
Arguments Lens {S T} view upd.
Arguments view {S T} l s.
Arguments upd {S T} l t s.

(** The laws of a member object. *)
Class LensLaws {S T} (l : lens S T) := {
  view_upd : ∀ t s, view l (upd l t s) = t;
  upd_view : ∀ s, upd l (view l s) s = s;
  upd_upd : ∀ t t' s, upd l t (upd l t' s) = upd l t s;
}.

(** Running a method of a member object inside its owner. *)
Definition zoom {S T A} (l : lens S T) (m : M T A) : M S A := λ s,
  match m (view l s) with
  | Ok (a, t) => Ok (a, upd l t s)
  | Fault f => Fault f
  end.

Lemma zoom_ok {S T A} (l : lens S T) (m : M T A) s a t :
  m (view l s) = Ok (a, t) -> zoom l m s = Ok (a, upd l t s).
Proof. unfold zoom. by intros ->. Qed.

(** Running a computation that only reads: a [const] method. *)
Definition liftR {S A} (f : S -> result A) : M S A := λ s,
  match f s with
  | Ok a => Ok (a, s)
  | Fault e => Fault e
  end.

(** ** Weakest preconditions

    [wp m Q s]: run from [s], [m] returns (it does not fault) and its result
    and final state satisfy [Q].  All functional theorems of the development
    are consequences of statements of this form. *)
Definition wp {S A} (m : M S A) (Q : A -> S -> Prop) (s : S) : Prop :=
  match m s with
  | Ok (a, s') => Q a s'
  | Fault _ => False
  end.

(** The value returned by a computation, without its final state. *)
Definition value {S A} (r : result (A * S)) : option A :=
  match r with Ok (a, _) => Some a | Fault _ => None end.

Section wp.
Context {S : Type}.

Lemma wp_ok {A} (m : M S A) Q s :
  wp m Q s ↔ ∃ a s', m s = Ok (a, s') ∧ Q a s'.
Proof.
  unfold wp. destruct (m s) as [[a s']|f]; split.
  - eauto.
  - intros (a1 & s1 & [= -> ->] & HQ). exact HQ.
  - done.
  - intros (a1 & s1 & [=] & _).
Qed.

Lemma wp_intro {A} (m : M S A) (Q : A -> S -> Prop) s a s' :
  m s = Ok (a, s') -> Q a s' -> wp m Q s.
Proof. unfold wp. by intros ->. Qed.

Lemma wp_elim {A} (m : M S A) (Q : A -> S -> Prop) s a s' :
  wp m Q s -> m s = Ok (a, s') -> Q a s'.
Proof. unfold wp. intros H Heq. by rewrite Heq in H. Qed.

Lemma wp_mono {A} (m : M S A) (Q Q' : A -> S -> Prop) s :
  wp m Q s -> (∀ a s', Q a s' -> Q' a s') -> wp m Q' s.
Proof. unfold wp. destruct (m s) as [[a s0]|]; naive_solver. Qed.

Lemma wp_conj {A} (m : M S A) (Q Q' : A -> S -> Prop) s :
  wp m Q s -> wp m Q' s -> wp m (λ a s', Q a s' ∧ Q' a s') s.
Proof. unfold wp. destruct (m s) as [[a s0]|]; naive_solver. Qed.

(** Facts proved one at a time. *)
Lemma wp_also {A I} (P : I -> Prop) (R : I -> S -> Prop) (m : M S A) (Q : A -> S -> Prop) s :
  (∀ i, P i -> wp m (λ _ s', R i s') s) ->
  wp m (λ a s', (∀ i, P i -> R i s') -> Q a s') s -> wp m Q s.
Proof. unfold wp. destruct (m s) as [[a s0]|]; auto. Qed.

Lemma wp_ret {A} (a : A) Q s : wp (mret a : M S A) Q s ↔ Q a s.
Proof. done. Qed.

Lemma wp_bind {A B} (m : M S A) (k : A -> M S B) Q s :
  wp (m ≫= k) Q s ↔ wp m (λ a s', wp (k a) Q s') s.
Proof. unfold wp, mbind, M_bind. by destruct (m s) as [[a s0]|]. Qed.

Lemma wp_getS Q (s : S) : wp getS Q s ↔ Q s s.
Proof. done. Qed.

Lemma wp_gets {A} (f : S -> A) Q s : wp (gets f) Q s ↔ Q (f s) s.
Proof. done. Qed.

Lemma wp_putS Q (s s0 : S) : wp (putS s0) Q s ↔ Q tt s0.
Proof. done. Qed.

Lemma wp_modify (f : S -> S) Q s : wp (modify f) Q s ↔ Q tt (f s).
Proof. done. Qed.

Lemma wp_assert (b : bool) Q (s : S) : wp (assert_ b) Q s ↔ b = true ∧ Q tt s.
Proof. destruct b; unfold wp; simpl; intuition congruence. Qed.

Lemma wp_assertS (f : S -> bool) Q (s : S) :
  wp (assertS f) Q s ↔ f s = true ∧ Q tt s.
Proof. unfold wp, assertS; simpl. destruct (f s); intuition congruence. Qed.

Lemma wp_when (b : bool) (m : M S unit) Q s :
  wp (whenM b m) Q s ↔ if b then wp m Q s else Q tt s.
Proof. by destruct b. Qed.

Lemma wp_if {A} (b : bool) (m1 m2 : M S A) Q s :
  wp (if b then m1 else m2) Q s ↔ if b then wp m1 Q s else wp m2 Q s.
Proof. by destruct b. Qed.

Lemma wp_liftR {A} (f : S -> result A) Q s :
  wp (liftR f) Q s ↔ match f s with Ok a => Q a s | Fault _ => False end.
Proof. unfold wp, liftR. by destruct (f s). Qed.

Lemma wp_zoom {T A} (l : lens S T) (m : M T A) Q s :
  wp (zoom l m) Q s ↔ wp m (λ a t, Q a (upd l t s)) (view l s).
Proof. unfold wp, zoom. by destruct (m (view l s)) as [[a t]|]. Qed.

(** Rule for loops: an invariant over the part of the list already done. *)
Lemma wp_for_each {A} (I : list A -> S -> Prop) (l : list A) body s :
  I [] s ->
  (∀ done x rest s, l = done ++ x :: rest -> I done s ->
     wp (body x) (λ _ s', I (done ++ [x]) s') s) ->
  wp (for_each l body) (λ _ s', I l s') s.
Proof.
  intros H0 Hstep.
  assert (Hgen : ∀ todo pre s, l = pre ++ todo -> I pre s ->
            wp (for_each todo body) (λ _ s', I l s') s).
  { induction todo as [|x todo IH]; intros pre s1 Hl HI; simpl.
    - rewrite app_nil_r in Hl. by subst.
    - rewrite wp_bind. eapply wp_mono; [eapply Hstep; eauto|].
      intros [] s2 HI2. apply (IH (pre ++ [x])); [|done].
      by rewrite <- app_assoc. }
  by apply (Hgen l [] s).
Qed.
End wp.

(** Rewriting rules that push [wp] through the code of a method. *)
Create Rewrite HintDb wp.
#[export] Hint Rewrite @wp_ret @wp_bind @wp_getS @wp_gets @wp_putS @wp_modify
  @wp_assert @wp_assertS @wp_when @wp_if @wp_liftR @wp_zoom : wp.

(** ** Safety up to exhaustion of memory

    [safe m Q s] is [wp m Q s], except that [m] may also stop with
    [LengthError]: a vector would have to grow beyond its [max_size()].  It is
    used where the amount of data is not bounded beforehand. *)
Definition safe {S A} (m : M S A) (Q : A -> S -> Prop) (s : S) : Prop :=
  match m s with
  | Ok (a, s') => Q a s'
  | Fault f => f = LengthError
  end.

Section safe.
Context {S : Type}.

Lemma wp_safe {A} (m : M S A) Q s : wp m Q s -> safe m Q s.
Proof. unfold wp, safe. by destruct (m s) as [[a s']|]. Qed.

Lemma safe_mono {A} (m : M S A) (Q Q' : A -> S -> Prop) s :
  safe m Q s -> (∀ a s', Q a s' -> Q' a s') -> safe m Q' s.
Proof. unfold safe. destruct (m s) as [[a s0]|]; naive_solver. Qed.

Lemma safe_conj {A} (m : M S A) (Q Q' : A -> S -> Prop) s :
  safe m Q s -> safe m Q' s -> safe m (λ a s', Q a s' ∧ Q' a s') s.
Proof. unfold safe. destruct (m s) as [[a s0]|]; naive_solver. Qed.

Lemma safe_ret {A} (a : A) Q s : safe (mret a : M S A) Q s ↔ Q a s.
Proof. done. Qed.

Lemma safe_bind {A B} (m : M S A) (k : A -> M S B) Q s :
  safe (m ≫= k) Q s ↔ safe m (λ a s', safe (k a) Q s') s.
Proof. unfold safe, mbind, M_bind. by destruct (m s) as [[a s0]|]. Qed.

Lemma safe_getS Q (s : S) : safe getS Q s ↔ Q s s.
Proof. done. Qed.

Lemma safe_gets {A} (f : S -> A) Q s : safe (gets f) Q s ↔ Q (f s) s.
Proof. done. Qed.

Lemma safe_modify (f : S -> S) Q s : safe (modify f) Q s ↔ Q tt (f s).
Proof. done. Qed.

Lemma safe_assert (b : bool) Q (s : S) : safe (assert_ b) Q s ↔ b = true ∧ Q tt s.
Proof. destruct b; unfold safe; simpl; intuition congruence. Qed.

Lemma safe_assertS (f : S -> bool) Q (s : S) :
  safe (assertS f) Q s ↔ f s = true ∧ Q tt s.
Proof. unfold safe, assertS; simpl. destruct (f s); intuition congruence. Qed.

Lemma safe_when (b : bool) (m : M S unit) Q s :
  safe (whenM b m) Q s ↔ if b then safe m Q s else Q tt s.
Proof. by destruct b. Qed.

Lemma safe_if {A} (b : bool) (m1 m2 : M S A) Q s :
  safe (if b then m1 else m2) Q s ↔ if b then safe m1 Q s else safe m2 Q s.
Proof. by destruct b. Qed.

Lemma safe_zoom {T A} (l : lens S T) (m : M T A) Q s :
  safe (zoom l m) Q s ↔ safe m (λ a t, Q a (upd l t s)) (view l s).
Proof. unfold safe, zoom. by destruct (m (view l s)) as [[a t]|]. Qed.

Lemma safe_for_each {A} (I : list A -> S -> Prop) (l : list A) body s :
  I [] s ->
  (∀ done x rest s, l = done ++ x :: rest -> I done s ->
     safe (body x) (λ _ s', I (done ++ [x]) s') s) ->
  safe (for_each l body) (λ _ s', I l s') s.
Proof.
  intros H0 Hstep.
  assert (Hgen : ∀ todo pre s, l = pre ++ todo -> I pre s ->
            safe (for_each todo body) (λ _ s', I l s') s).
  { induction todo as [|x todo IH]; intros pre s1 Hl HI; simpl.
    - rewrite app_nil_r in Hl. by subst.
    - rewrite safe_bind. eapply safe_mono; [eapply Hstep; eauto|].
      intros [] s2 HI2. apply (IH (pre ++ [x])); [|done].
      by rewrite <- app_assoc. }
  by apply (Hgen l [] s).
Qed.
End safe.

Create Rewrite HintDb safe.
#[export] Hint Rewrite @safe_ret @safe_bind @safe_getS @safe_gets @safe_modify
  @safe_assert @safe_assertS @safe_when @safe_if @safe_zoom : safe.

Ltac safe_simpl := autorewrite with safe; simpl.

(** [wp_simpl] symbolically executes the head of the goal's computation. *)
Ltac wp_simpl := autorewrite with wp; simpl.

(** Case analysis on the first [if] or [match] of the goal. *)
Ltac case_goal :=
  match goal with
  | |- context [if ?b then _ else _] => let E := fresh "E" in destruct b eqn:E
  | |- context [match ?x with _ => _ end] => let E := fresh "E" in destruct x eqn:E
  end.

(** The result of a composed computation, step by step. *)
Lemma bind_ok {S A B} (m : M S A) (k : A -> M S B) s a s' :
  m s = Ok (a, s') -> (m ≫= k) s = k a s'.
Proof. unfold mbind, M_bind. by intros ->. Qed.

Lemma bind_inv {S A B} (m : M S A) (k : A -> M S B) s b s2 :
  (m ≫= k) s = Ok (b, s2) -> ∃ a s1, m s = Ok (a, s1) ∧ k a s1 = Ok (b, s2).
Proof. unfold mbind, M_bind. destruct (m s) as [[a s1]|] eqn:E; [eauto|done]. Qed.

Lemma bind_assoc {S A B C} (m : M S A) (k : A -> M S B) (h : B -> M S C) s :
  ((m ≫= k) ≫= h) s = (m ≫= λ a, k a ≫= h) s.
Proof. unfold mbind, M_bind. by destruct (m s) as [[a s1]|]. Qed.

Lemma bind_head {S A B} (m m' : M S A) (k : A -> M S B) s :
  m s = m' s -> (m ≫= k) s = (m' ≫= k) s.
Proof. unfold mbind, M_bind. by intros ->. Qed.

Lemma bind_ext {S A B} (m : M S A) (k k' : A -> M S B) s :
  (∀ a s', m s = Ok (a, s') -> k a s' = k' a s') -> (m ≫= k) s = (m ≫= k') s.
Proof. unfold mbind, M_bind. destruct (m s) as [[a s1]|]; auto. Qed.

Lemma for_each_app {S A} (l1 l2 : list A) (body : A -> M S unit) s :
  for_each (l1 ++ l2) body s = (for_each l1 body ;;; for_each l2 body) s.
Proof.
  revert s. induction l1 as [|x l1 IH]; intros s; simpl; [done|].
  unfold mbind, M_bind in *. destruct (body x s) as [[[] s1]|]; [apply IH|done].
Qed.

Lemma for_each_app_bind {S A B} (l1 l2 : list A) body (k : M S B) s :
  (for_each (l1 ++ l2) body ;;; k) s = (for_each l1 body ;;; for_each l2 body ;;; k) s.
Proof.
  unfold mbind at 1, M_bind at 1. rewrite for_each_app. unfold mbind, M_bind.
  by destruct (for_each l1 body s) as [[[] s1]|].
Qed.

(** ** Relations between the states before and after

    [along R m]: whenever [m] returns, [R] relates the state it started in to
    the state it ends in.  For a preorder this goes through the code without
    looking at values. *)
Definition along {S A} (R : S -> S -> Prop) (m : M S A) : Prop :=
  ∀ s a s', m s = Ok (a, s') -> R s s'.

Section along.
Context {S : Type} (R : S -> S -> Prop) `{!PreOrder R}.

Lemma along_bind {A B} (m : M S A) (k : A -> M S B) :
  along R m -> (∀ a, along R (k a)) -> along R (m ≫= k).
Proof using Type*.
  intros Hm Hk s b s' (a & s1 & H1 & H2)%bind_inv. transitivity s1; [by eapply Hm|by eapply Hk].
Qed.

Lemma along_same {A} (m : M S A) : (∀ s a s', m s = Ok (a, s') -> s' = s) -> along R m.
Proof using Type*. intros Hm s a s' ->%Hm. reflexivity. Qed.

Lemma along_ret {A} (a : A) : along R (mret a).
Proof using Type*. apply along_same. by intros s b s' [= _ <-]. Qed.

Lemma along_gets {A} (f : S -> A) : along R (gets f).
Proof using Type*. apply along_same. by intros s b s' [= _ <-]. Qed.

Lemma along_liftR {A} (f : S -> result A) : along R (liftR f).
Proof using Type*. apply along_same. intros s b s'. unfold liftR. destruct (f s); [by intros [= _ <-]|done]. Qed.

Lemma along_assertS (f : S -> bool) : along R (assertS f).
Proof using Type*. apply along_same. intros s b s'. unfold assertS. destruct (f s); [by intros [= _ <-]|done]. Qed.

Lemma along_modify (f : S -> S) : (∀ s, R s (f s)) -> along R (modify f).
Proof. by intros Hf s a s' [= _ <-]. Qed.

Lemma along_if {A} (b : bool) (m1 m2 : M S A) : along R m1 -> along R m2 -> along R (if b then m1 else m2).
Proof. by destruct b. Qed.

Lemma along_when (b : bool) (m : M S unit) : along R m -> along R (whenM b m).
Proof using Type*. intros H. apply along_if; [done|apply along_ret]. Qed.

Lemma along_zoom {T A} (l : lens S T) (m : M T A) : (∀ t s, R s (upd l t s)) -> along R (zoom l m).
Proof. intros Hl s a s'. unfold zoom. destruct (m _) as [[]|]; [intros [= _ <-]; apply Hl|done]. Qed.
End along.

(** [upto f m Q s] is [wp m Q s], except that [m] may also stop with the fault [f]. *)
Definition upto {S A} (f : fault) (m : M S A) (Q : A -> S -> Prop) (s : S) : Prop :=
  match m s with
  | Ok (a, s') => Q a s'
  | Fault e => e = f
  end.

Section upto.
Context {S : Type} (f : fault).

Lemma wp_upto {A} (m : M S A) Q s : wp m Q s -> upto f m Q s.
Proof. unfold wp, upto. by destruct (m s) as [[a s']|]. Qed.

Lemma upto_mono {A} (m : M S A) (Q Q' : A -> S -> Prop) s :
  upto f m Q s -> (∀ a s', Q a s' -> Q' a s') -> upto f m Q' s.
Proof. unfold upto. destruct (m s) as [[a s0]|]; naive_solver. Qed.

Lemma upto_bind {A B} (m : M S A) (k : A -> M S B) Q s :
  upto f (m ≫= k) Q s ↔ upto f m (λ a s', upto f (k a) Q s') s.
Proof. unfold upto, mbind, M_bind. by destruct (m s) as [[a s0]|]. Qed.

Lemma upto_for_each {A} (I : S -> Prop) (l : list A) body s :
  I s -> (∀ x s, I s -> upto f (body x) (λ _ s', I s') s) -> upto f (for_each l body) (λ _ s', I s') s.
Proof.
  intros H0 Hstep. revert s H0. induction l as [|x l IH]; intros s H0; simpl; [done|].
  rewrite upto_bind. eapply upto_mono; [by apply Hstep|]. intros [] s'. apply IH.
Qed.
End upto.

(** Turn boolean comparisons on [Z] in the context into propositions. *)
Ltac bool_to_Z :=
  repeat match goal with
  | H : andb _ _ = true |- _ => apply andb_prop in H as [? ?]
  | H : orb _ _ = false |- _ => apply orb_false_elim in H as [? ?]
  | H : negb _ = true |- _ => apply negb_true_iff in H
  | H : negb _ = false |- _ => apply negb_false_iff in H
  | H : Z.ltb _ _ = true |- _ => apply Z.ltb_lt in H
  | H : Z.ltb _ _ = false |- _ => apply Z.ltb_ge in H
  | H : Z.leb _ _ = true |- _ => apply Z.leb_le in H
  | H : Z.leb _ _ = false |- _ => apply Z.leb_gt in H
  | H : Z.eqb _ _ = true |- _ => apply Z.eqb_eq in H
  | H : Z.eqb _ _ = false |- _ => apply Z.eqb_neq in H
  end.

(** ** Machine integers

    An integer of [w] bits is a [Z]; the two wrap-around functions give the
    value of an unsigned, respectively two's complement, conversion. *)
Definition wrap_u (w z : Z) : Z := z `mod` 2 ^ w.
Definition wrap_s (w z : Z) : Z := (z + 2 ^ (w - 1)) `mod` 2 ^ w - 2 ^ (w - 1).

Abbreviation u8 := (wrap_u 8).
Abbreviation u16 := (wrap_u 16).
Abbreviation u32 := (wrap_u 32).
Abbreviation u64 := (wrap_u 64).
Abbreviation s8 := (wrap_s 8).
Abbreviation s16 := (wrap_s 16).
Abbreviation s32 := (wrap_s 32).
Abbreviation s64 := (wrap_s 64).

Section ints.
Local Open Scope Z_scope.

Lemma wrap_u_range w z : 0 <= w -> 0 <= wrap_u w z < 2 ^ w.
Proof. intros. unfold wrap_u. apply Z.mod_pos_bound. lia. Qed.

Lemma wrap_s_range w z : 0 < w -> - 2 ^ (w - 1) <= wrap_s w z < 2 ^ (w - 1).
Proof.
  intros. unfold wrap_s.
  pose proof (Z.mod_pos_bound (z + 2 ^ (w - 1)) (2 ^ w) ltac:(lia)).
  assert (2 ^ w = 2 * 2 ^ (w - 1)) by (rewrite <- Z.pow_succ_r by lia; f_equal; lia).
  lia.
Qed.

Lemma wrap_u_id w z : 0 <= z < 2 ^ w -> wrap_u w z = z.
Proof. intros. by apply Z.mod_small. Qed.

Lemma u64_id z : 0 <= z < 2 ^ 64 -> u64 z = z.
Proof. apply wrap_u_id. Qed.

Lemma wrap_s_id w z : 0 < w -> - 2 ^ (w - 1) <= z < 2 ^ (w - 1) -> wrap_s w z = z.
Proof.
  intros. unfold wrap_s.
  assert (2 ^ w = 2 * 2 ^ (w - 1)) by (rewrite <- Z.pow_succ_r by lia; f_equal; lia).
  rewrite Z.mod_small; lia.
Qed.

(** Reinterpreting a signed value as unsigned and back loses nothing. *)
Lemma wrap_s_u w z : 0 < w -> - 2 ^ (w - 1) <= z < 2 ^ (w - 1) ->
  wrap_s w (wrap_u w z) = z.
Proof.
  intros Hw Hz. unfold wrap_s, wrap_u.
  rewrite Zplus_mod_idemp_l.
  assert (2 ^ w = 2 * 2 ^ (w - 1)) by (rewrite <- Z.pow_succ_r by lia; f_equal; lia).
  rewrite Z.mod_small; lia.
Qed.
End ints.

(** ** Slices of lists

    [slice i j l] is the half-open range [l[i..j)], [splice l i d] overwrites
    the elements of [l] from position [i] with those of [d]. *)
Definition slice {A} (i j : Z) (l : list A) : list A :=
  take (Z.to_nat (j - i)) (drop (Z.to_nat i) l).

Definition splice {A} (l : list A) (i : Z) (d : list A) : list A :=
  take (Z.to_nat i) l ++ d ++ drop (Z.to_nat i + length d) l.

Abbreviation zlength l := (Z.of_nat (length l)).

Section slices.
Context {A : Type}.
Implicit Types l d : list A.
Local Open Scope Z_scope.

Lemma slice_length i j l :
  0 <= i <= j -> j <= zlength l -> zlength (slice i j l) = j - i.
Proof. intros. unfold slice. rewrite length_take, length_drop. lia. Qed.

Lemma slice_all l : slice 0 (zlength l) l = l.
Proof. unfold slice. rewrite take_ge; [done|]. rewrite length_drop. lia. Qed.

Lemma slice_empty i l : slice i i l = [].
Proof. unfold slice. by rewrite Z.sub_diag. Qed.

Lemma slice_slice a b i j l :
  0 <= a -> 0 <= i <= j -> a + j <= b ->
  slice i j (slice a b l) = slice (a + i) (a + j) l.
Proof.
  intros. unfold slice. rewrite skipn_firstn_comm, drop_drop, take_take.
  f_equal; [lia|]. f_equal. lia.
Qed.

Lemma slice_app_split i m j l :
  0 <= i <= m -> m <= j -> slice i j l = slice i m l ++ slice m j l.
Proof.
  intros. unfold slice.
  replace (Z.to_nat (j - i)) with (Z.to_nat (m - i) + Z.to_nat (j - m))%nat by lia.
  rewrite <- (take_drop (Z.to_nat (m - i)) (take _ (drop (Z.to_nat i) l))).
  rewrite take_take, skipn_firstn_comm, drop_drop.
  f_equal; f_equal; try lia. f_equal; lia.
Qed.

Lemma take_slice n i j l : 0 <= i <= j ->
  (n <= Z.to_nat (j - i))%nat -> take n (slice i j l) = slice i (i + Z.of_nat n) l.
Proof. intros. unfold slice. rewrite take_take. f_equal. lia. Qed.

Lemma drop_slice n i j l : 0 <= i <= j ->
  (n <= Z.to_nat (j - i))%nat -> drop n (slice i j l) = slice (i + Z.of_nat n) j l.
Proof.
  intros. unfold slice. rewrite skipn_firstn_comm, drop_drop.
  f_equal; [lia|]. f_equal; lia.
Qed.

Lemma splice_length l i d :
  0 <= i -> i + zlength d <= zlength l -> zlength (splice l i d) = zlength l.
Proof.
  intros. unfold splice. rewrite !length_app, length_take, length_drop. lia.
Qed.

Lemma slice_splice_same l i d :
  0 <= i -> i + zlength d <= zlength l ->
  slice i (i + zlength d) (splice l i d) = d.
Proof.
  intros. unfold slice, splice.
  rewrite drop_app_ge by (rewrite length_take; lia).
  rewrite length_take.
  replace (Z.to_nat i - _)%nat with 0%nat by lia. rewrite drop_0.
  rewrite take_app_le by lia. by rewrite take_ge by lia.
Qed.

Lemma slice_splice_below l i d a b :
  0 <= a -> b <= i -> i + zlength d <= zlength l ->
  slice a b (splice l i d) = slice a b l.
Proof.
  intros. unfold slice, splice.
  destruct (decide (a <= b)) as [Hab|Hab].
  - rewrite drop_app_le by (rewrite length_take; lia).
    rewrite take_app_le by (rewrite length_drop, length_take; lia).
    rewrite skipn_firstn_comm, take_take. f_equal. lia.
  - by replace (Z.to_nat (b - a)) with 0%nat by lia.
Qed.

Lemma slice_splice_above l i d a b :
  0 <= i -> i + zlength d <= a -> i + zlength d <= zlength l ->
  slice a b (splice l i d) = slice a b l.
Proof.
  intros. unfold slice, splice.
  rewrite drop_app_ge by (rewrite length_take; lia).
  rewrite length_take, drop_app_ge by lia.
  rewrite drop_drop. f_equal. f_equal. lia.
Qed.

Lemma slice_app_l i j l d : j <= zlength l -> 0 <= i -> slice i j (l ++ d) = slice i j l.
Proof.
  intros. unfold slice. destruct (decide (i <= j)) as [Hij|Hij].
  - rewrite drop_app_le by lia. by rewrite take_app_le by (rewrite length_drop; lia).
  - by replace (Z.to_nat (j - i)) with 0%nat by lia.
Qed.
End slices.

Lemma list_omap_ext_in {A B} (f g : A -> option B) (l : list A) :
  (∀ x, x ∈ l -> f x = g x) -> omap f l = omap g l.
Proof. intros H. apply list_omap_ext, Forall_Forall2_diag, Forall_forall, H. Qed.

Create HintDb lute discriminated.
#[export] Hint Resolve wp_mono : lute.
