(* ===== verification/Bytes.v ===== *)
(** * Bytes: characters, byte searches, byte order and decimal printing

    What the program uses of <cstring>, <algorithm>, <endian.h> and <cstdio>:
    [std::find], [memchr], [memmem], [isspace], [memcpy] between integers and
    memory, [htobe16/32/64] and [be16/32/64toh], and the [%d]/[%zd]/[%u]
    conversions of [snprintf] with its truncation. *)

From Stdlib Require Import ZArith Lia.
From Stdlib Require Import Strings.String Strings.Byte.
From coqutil Require Import Byte Word.LittleEndianList.
From stdpp Require Import countable.
From S2P Require Import Prelude.

Local Open Scope Z_scope.

Abbreviation bytes := (list Byte.byte).

#[export] Instance byte_eq_dec : EqDecision Byte.byte := Byte.byte_eq_dec.

#[export] Instance byte_countable : Countable Byte.byte.
Proof.
  refine (inj_countable Byte.to_N Byte.of_N _). intros b. apply Byte.of_to_N.
Defined.

(** A C string literal. *)
Definition str (s : String.string) : bytes := list_byte_of_string s.
Arguments str s%_string_scope.
Export String.StringSyntax.

Definition b2z (b : Byte.byte) : Z := byte.unsigned b.
Definition z2b (z : Z) : Byte.byte := byte.of_Z z.

Lemma b2z_range b : 0 <= b2z b < 256.
Proof. apply byte.unsigned_range. Qed.

Lemma z2b_b2z b : z2b (b2z b) = b.
Proof. apply byte.of_Z_unsigned. Qed.

Lemma b2z_z2b z : b2z (z2b z) = z `mod` 256.
Proof. apply byte.unsigned_of_Z. Qed.

Definition ch_cr : Byte.byte := "013"%byte.
Definition ch_lf : Byte.byte := "010"%byte.
Definition ch_space : Byte.byte := " "%byte.
Definition ch_colon : Byte.byte := ":"%byte.
Definition ch_question : Byte.byte := "?"%byte.
Definition ch_0 : Byte.byte := "0"%byte.
Definition ch_1 : Byte.byte := "1"%byte.

(** [isspace] in the "C" locale. *)
Definition isspace (b : Byte.byte) : bool :=
  (b2z b =? 32) || ((9 <=? b2z b) && (b2z b <=? 13)).

(** ** Searches *)

(** [std::find(first, last, c)] as the distance from [first]; it is the
    length of the range when [c] does not occur. *)
Fixpoint find_byte (c : Byte.byte) (l : bytes) : nat :=
  match l with
  | [] => 0%nat
  | b :: l' => if bool_decide (b = c) then 0%nat else S (find_byte c l')
  end.

(** [memchr]: [None] is the null pointer. *)
Fixpoint memchr (c : Byte.byte) (l : bytes) : option nat :=
  match l with
  | [] => None
  | b :: l' => if bool_decide (b = c) then Some 0%nat else S <$> memchr c l'
  end.

Fixpoint is_prefix (needle l : bytes) : bool :=
  match needle, l with
  | [], _ => true
  | _, [] => false
  | a :: needle', b :: l' => bool_decide (a = b) && is_prefix needle' l'
  end.

(** [memmem]: the distance of the first occurrence of [needle]. *)
Fixpoint memmem (needle l : bytes) : option nat :=
  if is_prefix needle l then Some 0%nat
  else match l with
       | [] => None
       | _ :: l' => S <$> memmem needle l'
       end.

(** Trimming used by the header parser: drop leading, drop trailing. *)
Fixpoint drop_while (p : Byte.byte -> bool) (l : bytes) : bytes :=
  match l with
  | [] => []
  | b :: l' => if p b then drop_while p l' else l
  end.

Section search.
Implicit Types l needle : bytes.

Lemma find_byte_le c l : (find_byte c l <= length l)%nat.
Proof. induction l; simpl; [lia|]. case_bool_decide; lia. Qed.

Lemma find_byte_app c l1 l2 : c ∉ l1 ->
  find_byte c (l1 ++ c :: l2) = length l1.
Proof.
  induction l1 as [|b l1 IH]; simpl; intros Hni.
  - by rewrite bool_decide_true.
  - rewrite bool_decide_false by (intros ->; apply Hni; left).
    rewrite IH; [done|]. intros H. apply Hni. by right.
Qed.

Lemma find_byte_None c l : c ∉ l ↔ find_byte c l = length l.
Proof.
  induction l as [|b l IH]; simpl.
  - split; [done|]. intros _. apply not_elem_of_nil.
  - rewrite not_elem_of_cons. case_bool_decide; split.
    + intros [? ?]. congruence.
    + done.
    + intros [_ Hl]. f_equal. by apply IH.
    + intros [= Hl]. split; [congruence|]. by apply IH.
Qed.

Lemma find_byte_split c l : (find_byte c l < length l)%nat ->
  l = take (find_byte c l) l ++ c :: drop (S (find_byte c l)) l
  ∧ c ∉ take (find_byte c l) l.
Proof.
  induction l as [|b l IH]; simpl; [lia|]. case_bool_decide; simpl.
  - intros _. subst. rewrite drop_0. split; [done|apply not_elem_of_nil].
  - intros Hlt. destruct IH as [IH1 IH2]; [lia|]. split.
    + f_equal. exact IH1.
    + rewrite not_elem_of_cons. split; [congruence|done].
Qed.

Lemma is_prefix_spec needle l :
  is_prefix needle l = true ↔ ∃ l2, l = needle ++ l2.
Proof.
  revert l. induction needle as [|a needle IH]; intros l; simpl.
  - split; eauto.
  - destruct l as [|b l]; simpl.
    + split; [done|]. intros [? [=]].
    + case_bool_decide; simpl.
      * subst. rewrite IH. split; intros [l2 H2]; exists l2; congruence.
      * split; [done|]. intros [? [= ]]. congruence.
Qed.

Lemma is_prefix_app needle l1 l2 :
  is_prefix needle l1 = true -> is_prefix needle (l1 ++ l2) = true.
Proof.
  rewrite !is_prefix_spec. intros [l3 ->]. exists (l3 ++ l2).
  by rewrite app_assoc.
Qed.

Lemma memmem_Some needle l i : memmem needle l = Some i ->
  (i + length needle <= length l)%nat
  ∧ l = take i l ++ needle ++ drop (i + length needle) l.
Proof.
  revert i. induction l as [|b l IH]; simpl; intros i.
  - destruct (is_prefix needle []) eqn:E; [|done].
    intros [= <-]. apply is_prefix_spec in E as [l2 E].
    symmetry in E. apply app_nil in E as [-> ->]. done.
  - destruct (is_prefix needle (b :: l)) eqn:E.
    + intros [= <-]. apply is_prefix_spec in E as [l2 E].
      pose proof (f_equal length E) as Hl. rewrite length_app in Hl.
      simpl in *. split; [lia|]. rewrite E. by rewrite drop_app_length.
    + destruct (memmem needle l) as [j|]; [|done]. simpl.
      intros [= <-]. destruct (IH j eq_refl) as [H1 H2].
      split; [lia|]. simpl. by rewrite <- H2.
Qed.

Lemma memmem_prefix needle l i :
  memmem needle l = Some i -> is_prefix needle (drop i l) = true.
Proof.
  intros [H1 H2]%memmem_Some. apply is_prefix_spec.
  exists (drop (i + length needle) l).
  assert (Hd : drop i l = drop i (take i l ++ needle ++ drop (i + length needle) l))
    by (f_equal; exact H2).
  rewrite Hd, drop_app_ge, length_take by (rewrite length_take; lia).
  by replace (i - _)%nat with 0%nat by lia.
Qed.

(** No occurrence starts before the one [memmem] returns. *)
Lemma memmem_first needle l i j : memmem needle l = Some i -> (j < i)%nat ->
  is_prefix needle (drop j l) = false.
Proof.
  revert i j. induction l as [|b l IH]; simpl; intros i j.
  - destruct (is_prefix needle []); [|done]. intros [= <-]. lia.
  - destruct (is_prefix needle (b :: l)) eqn:E.
    + intros [= <-]. lia.
    + destruct (memmem needle l) as [k|]; [|done]. simpl. intros [= <-] Hj.
      destruct j as [|j]; [done|]. simpl. apply (IH k); [done|lia].
Qed.

Lemma memmem_None needle l j : memmem needle l = None -> (j <= length l)%nat ->
  is_prefix needle (drop j l) = false.
Proof.
  revert j. induction l as [|b l IH]; simpl; intros j.
  - destruct (is_prefix needle []) eqn:E; [done|]. intros _ ?.
    by rewrite drop_nil.
  - destruct (is_prefix needle (b :: l)) eqn:E; [done|].
    destruct (memmem needle l) as [k|]; [done|]. intros _ Hj.
    destruct j as [|j]; [done|]. simpl. apply IH; [done|lia].
Qed.

Lemma memmem_intro needle l i :
  is_prefix needle (drop i l) = true -> (i <= length l)%nat ->
  (∀ j, (j < i)%nat -> is_prefix needle (drop j l) = false) ->
  memmem needle l = Some i.
Proof.
  intros Hp Hi Hf. destruct (memmem needle l) as [k|] eqn:E.
  - f_equal. destruct (decide (k < i)%nat) as [Hlt|].
    + apply Hf in Hlt. apply memmem_prefix in E. congruence.
    + destruct (decide (i < k)%nat) as [Hlt|]; [|lia].
      rewrite (memmem_first _ _ _ _ E Hlt) in Hp. done.
  - rewrite (memmem_None _ _ _ E Hi) in Hp. done.
Qed.

(** An occurrence found in a prefix is also the one found in the whole. *)
Lemma memmem_app needle l1 l2 i :
  memmem needle l1 = Some i -> memmem needle (l1 ++ l2) = Some i.
Proof.
  revert i. induction l1 as [|b l1 IH]; simpl; intros i.
  - destruct (is_prefix needle []) eqn:E; [|done]. intros [= <-].
    apply is_prefix_spec in E as [l3 E]. symmetry in E.
    apply app_nil in E as [-> _]. by destruct l2.
  - destruct (is_prefix needle (b :: l1)) eqn:E.
    + intros [= <-]. apply (is_prefix_app _ _ l2) in E. simpl in E. by rewrite E.
    + destruct (memmem needle l1) as [k|] eqn:Ek; [|done]. simpl. intros [= <-].
      assert (is_prefix needle (b :: l1 ++ l2) = false) as ->.
      { pose proof (memmem_Some _ _ _ Ek) as [Hk _].
        destruct (is_prefix needle (b :: l1 ++ l2)) eqn:E2; [|done].
        apply is_prefix_spec in E2 as [l3 E2].
        assert (Ht : take (length needle) (b :: l1 ++ l2) = needle)
          by (rewrite E2; apply take_app_length).
        change (b :: l1 ++ l2) with ((b :: l1) ++ l2) in Ht.
        rewrite take_app_le in Ht by (simpl; lia).
        assert (is_prefix needle (b :: l1) = true); [|congruence].
        apply is_prefix_spec. exists (drop (length needle) (b :: l1)).
        rewrite <- Ht at 1. by rewrite take_drop. }
      by rewrite (IH k).
Qed.

Lemma memchr_Some c l i : memchr c l = Some i ->
  l !! i = Some c ∧ c ∉ take i l.
Proof.
  revert i. induction l as [|b l IH]; simpl; [done|]. intros i.
  case_bool_decide.
  - intros [= <-]. subst. split; [done|apply not_elem_of_nil].
  - destruct (memchr c l) as [k|]; [|done]. simpl. intros [= <-].
    destruct (IH k eq_refl) as [H1 H2]. split; [done|].
    simpl. rewrite not_elem_of_cons. split; [congruence|done].
Qed.

Lemma memchr_None c l : memchr c l = None ↔ c ∉ l.
Proof.
  induction l as [|b l IH]; simpl.
  - split; [intros _; apply not_elem_of_nil|done].
  - rewrite not_elem_of_cons. case_bool_decide.
    + split; [done|]. intros [? _]. congruence.
    + destruct (memchr c l); simpl; split; try done.
      * intros [_ Hl]. by apply IH in Hl.
      * intros _. split; [congruence|]. by apply IH.
Qed.
End search.

(** The C string at the beginning of a sequence of bytes. *)
Definition ch_nul : Byte.byte := z2b 0.
Definition c_string (l : bytes) : bytes := take (find_byte ch_nul l) l.

Lemma c_string_no_nul l : ch_nul ∉ c_string l.
Proof.
  unfold c_string. destruct (decide (find_byte ch_nul l < length l)%nat) as [Hlt|Hge].
  - apply find_byte_split, Hlt.
  - pose proof (find_byte_le ch_nul l). rewrite take_ge by lia. apply find_byte_None. lia.
Qed.

Lemma c_string_id l : ch_nul ∉ l -> c_string l = l.
Proof. intros H. unfold c_string. rewrite (proj1 (find_byte_None _ _) H). apply firstn_all. Qed.

(** ** Byte order

    The host is little or big endian; an integer object of [n] bytes and its
    object representation (what [memcpy] copies) are related accordingly. *)
Class HostEndian := host_little : bool.

Section endian.
Context {HE : HostEndian}.

Definition mem_of_int (n : nat) (z : Z) : bytes :=
  if host_little then le_split n z else rev (le_split n z).

Definition int_of_mem (l : bytes) : Z :=
  if host_little then le_combine l else le_combine (rev l).

Definition bswap (n : nat) (z : Z) : Z := le_combine (rev (le_split n z)).

(** [htobe16/32/64] and [be16/32/64toh] for [n] = 2, 4, 8. *)
Definition htobe (n : nat) (z : Z) : Z :=
  if host_little then bswap n z else wrap_u (Z.of_nat n * 8) z.

Definition betoh (n : nat) (z : Z) : Z := htobe n z.

(** The network representation: most significant byte first. *)
Definition be_encode (n : nat) (z : Z) : bytes := rev (le_split n z).
Definition be_decode (l : bytes) : Z := le_combine (rev l).

Lemma be_encode_length n z : length (be_encode n z) = n.
Proof. unfold be_encode. rewrite length_rev. apply length_le_split. Qed.

Lemma mem_of_int_length n z : length (mem_of_int n z) = n.
Proof.
  unfold mem_of_int. destruct host_little; rewrite ?length_rev; apply length_le_split.
Qed.

Lemma be_decode_encode n z : be_decode (be_encode n z) = wrap_u (Z.of_nat n * 8) z.
Proof. unfold be_decode, be_encode. rewrite rev_involutive. apply le_combine_split. Qed.

Lemma be_decode_range l : 0 <= be_decode l < 2 ^ (8 * zlength l).
Proof. unfold be_decode. rewrite <- (length_rev l). apply le_combine_bound. Qed.

Lemma mem_of_int_htobe n z : mem_of_int n (htobe n z) = be_encode n z.
Proof.
  unfold mem_of_int, htobe, bswap, be_encode. destruct host_little.
  - rewrite split_le_combine'; [done|]. by rewrite length_rev, length_le_split.
  - unfold wrap_u. by rewrite <- le_split_mod.
Qed.

Lemma betoh_int_of_mem n l : length l = n -> betoh n (int_of_mem l) = be_decode l.
Proof.
  intros Hl. unfold betoh, htobe, int_of_mem, bswap, be_decode. destruct host_little.
  - by rewrite split_le_combine'.
  - apply wrap_u_id. rewrite Z.mul_comm, <- Hl, <- (length_rev l).
    apply le_combine_bound.
Qed.
End endian.

(** The byte order of the x86-64 and aarch64 Linux hosts Lute is built for. *)
Definition little_endian_host : HostEndian := true.

(** ** Decimal conversions of [snprintf] *)

Definition digit (n : Z) : Byte.byte := z2b (48 + n).

Fixpoint dec_digits (fuel : nat) (n : Z) : bytes :=
  match fuel with
  | O => []
  | S f => if n <? 10 then [digit n]
           else dec_digits f (n / 10) ++ [digit (n `mod` 10)]
  end.

(** [%u] and [%zd] of a non-negative 64-bit value: at most 20 digits. *)
Definition print_u (n : Z) : bytes := dec_digits 20 n.

(** [%d]. *)
Definition print_d (z : Z) : bytes :=
  if z <? 0 then str "-" ++ print_u (- z) else print_u z.

(** What [snprintf(buf, size, ...)] leaves in [buf], read as a C string. *)
Definition snprintf (size : nat) (out : bytes) : bytes := take (size - 1) out.

Definition is_digit (b : Byte.byte) : bool := (48 <=? b2z b) && (b2z b <=? 57).

Definition dec_value (l : bytes) : Z :=
  fold_left (λ acc b, 10 * acc + (b2z b - 48)) l 0.

Section decimal.
Lemma b2z_digit n : 0 <= n < 10 -> b2z (digit n) = 48 + n.
Proof. intros. unfold digit. rewrite b2z_z2b. apply Z.mod_small. lia. Qed.

Lemma dec_digits_value fuel n : 0 <= n < 10 ^ Z.of_nat fuel ->
  dec_value (dec_digits fuel n) = n.
Proof.
  revert n. induction fuel as [|f IH]; intros n Hn; simpl.
  - unfold dec_value. simpl. change (10 ^ Z.of_nat 0) with 1 in Hn. lia.
  - rewrite Nat2Z.inj_succ, Z.pow_succ_r in Hn by lia.
    destruct (n <? 10) eqn:E; bool_to_Z.
    + unfold dec_value. simpl. rewrite b2z_digit by lia. lia.
    + unfold dec_value. rewrite fold_left_app. simpl.
      fold (dec_value (dec_digits f (n / 10))).
      rewrite IH by (split; [apply Z.div_pos; lia|apply Z.div_lt_upper_bound; lia]).
      rewrite b2z_digit by (apply Z.mod_pos_bound; lia).
      rewrite (Z.div_mod n 10) at 3 by lia. lia.
Qed.

Lemma dec_digits_length fuel k n : (0 < k)%nat -> 0 <= n < 10 ^ Z.of_nat k ->
  (length (dec_digits fuel n) <= k)%nat.
Proof.
  revert k n. induction fuel as [|f IH]; intros k n Hk Hn; simpl; [lia|].
  destruct (n <? 10) eqn:E; bool_to_Z; simpl; [lia|].
  rewrite length_app. simpl. destruct k as [|k]; [lia|].
  rewrite Nat2Z.inj_succ, Z.pow_succ_r in Hn by lia.
  destruct k as [|k]; [change (10 ^ Z.of_nat 0) with 1 in Hn; lia|].
  assert (length (dec_digits f (n / 10)) <= S k)%nat; [|lia].
  apply IH; [lia|]. split; [apply Z.div_pos; lia|apply Z.div_lt_upper_bound; lia].
Qed.

Lemma dec_digits_digit fuel n : 0 <= n ->
  Forall (λ b, is_digit b = true) (dec_digits fuel n).
Proof.
  assert (Hd : ∀ m, 0 <= m < 10 -> is_digit (digit m) = true).
  { intros m Hm. unfold is_digit. rewrite b2z_digit by done.
    apply andb_true_intro. split; apply Z.leb_le; lia. }
  revert n. induction fuel as [|f IH]; intros n Hn; simpl; [constructor|].
  destruct (n <? 10) eqn:E; bool_to_Z.
  - constructor; [apply Hd; lia|constructor].
  - apply Forall_app. split; [apply IH, Z.div_pos; lia|].
    constructor; [apply Hd, Z.mod_pos_bound; lia|constructor].
Qed.

Lemma print_u_inj n m : 0 <= n < 10 ^ 20 -> 0 <= m < 10 ^ 20 ->
  print_u n = print_u m -> n = m.
Proof.
  intros Hn Hm Heq. rewrite <- (dec_digits_value 20 n) by done.
  rewrite <- (dec_digits_value 20 m) by done. unfold print_u in Heq. by rewrite Heq.
Qed.

Lemma print_u_length k n : (0 < k)%nat -> 0 <= n < 10 ^ Z.of_nat k ->
  (length (print_u n) <= k)%nat.
Proof. apply dec_digits_length. Qed.

Lemma snprintf_fits size out : (length out < size)%nat -> snprintf size out = out.
Proof. intros. unfold snprintf. apply take_ge. lia. Qed.
End decimal.

(** ** polaris/Sockets.h: conversions between host and network order *)
Section network_order.
Context {HE : HostEndian}.

Definition hostToNetwork64 (host64 : Z) : Z := htobe 8 host64.
Definition hostToNetwork32 (host32 : Z) : Z := htobe 4 host32.
Definition hostToNetwork16 (host16 : Z) : Z := htobe 2 host16.
Definition networkToHost64 (net64 : Z) : Z := betoh 8 net64.
Definition networkToHost32 (net32 : Z) : Z := betoh 4 net32.
Definition networkToHost16 (net16 : Z) : Z := betoh 2 net16.
End network_order.
