(* ===== verification/Buffer.v ===== *)
(** * Buffer: the input/output byte buffer (polaris/Buffer.h, Buffer.cc)

    A [Buffer] is a [std::vector<char>] with two indices.  A pointer into the
    vector ([peek()], [beginWrite()], the results of [findCRLF]) is its offset
    from [begin()].  Sizes are 64-bit: additions and subtractions of [size_t]
    wrap.  Reading or writing outside the vector is the fault [OutOfBounds];
    growing it beyond [max_size()] is [LengthError]. *)

From Stdlib Require Import ZArith Lia.
From stdpp Require Import list.
From S2P Require Import Prelude Bytes.

Local Open Scope Z_scope.

Record Buffer := mkBuffer {
  buffer_ : bytes;
  readerIndex_ : Z;
  writerIndex_ : Z;
}.

#[export] Instance Buffer_eq_dec : EqDecision Buffer.
Proof. solve_decision. Defined.

Definition kCheapPrepend : Z := 8.
Definition kInitialSize : Z := 1024.
Definition kCRLF : bytes := [ch_cr; ch_lf].

(** [std::vector<char>::max_size()] of libstdc++: [PTRDIFF_MAX]. *)
Definition vector_max_size : Z := 2 ^ 63 - 1.

Definition size (b : Buffer) : Z := zlength (buffer_ b).

Definition readableBytes (b : Buffer) : Z := u64 (writerIndex_ b - readerIndex_ b).
Definition writableBytes (b : Buffer) : Z := u64 (size b - writerIndex_ b).
Definition prependableBytes (b : Buffer) : Z := readerIndex_ b.

(** The constructor, with the three assertions of its body. *)
Definition Buffer_ctor (initialSize : Z) : result Buffer :=
  let n := u64 (kCheapPrepend + initialSize) in
  if n <=? vector_max_size then
    let b := mkBuffer (replicate (Z.to_nat n) (z2b 0)) kCheapPrepend kCheapPrepend in
    if (readableBytes b =? 0) && (writableBytes b =? initialSize)
       && (prependableBytes b =? kCheapPrepend)
    then Ok b else Fault AssertFailed
  else Fault LengthError.

(** [Buffer::swap]: the new values of [*this] and [rhs]. *)
Definition swap (b rhs : Buffer) : Buffer * Buffer :=
  (mkBuffer (buffer_ rhs) (readerIndex_ rhs) (writerIndex_ rhs),
   mkBuffer (buffer_ b) (readerIndex_ b) (writerIndex_ b)).

Definition peek (b : Buffer) : Z := readerIndex_ b.
Definition beginWrite (b : Buffer) : Z := writerIndex_ b.

(** Memory accesses through a pointer into the vector. *)
Definition read_mem (p len : Z) (b : Buffer) : result bytes :=
  if (0 <=? p) && (0 <=? len) && (p + len <=? size b)
  then Ok (slice p (p + len) (buffer_ b)) else Fault OutOfBounds.

Definition write_mem (p : Z) (d : bytes) : M Buffer unit := λ b,
  if (0 <=? p) && (p + zlength d <=? size b)
  then Ok (tt, {| b with buffer_ := splice (buffer_ b) p d |})
  else Fault OutOfBounds.

(** [buffer_.resize(n)]. *)
Definition resize (n : Z) : M Buffer unit := λ b,
  if n <=? vector_max_size then
    Ok (tt, {| b with buffer_ :=
      if n <=? size b then take (Z.to_nat n) (buffer_ b)
      else buffer_ b ++ replicate (Z.to_nat (n - size b)) (z2b 0) |})
  else Fault LengthError.

(** ** Searching the readable bytes *)

Definition findCRLF (b : Buffer) : result (option Z) :=
  match read_mem (peek b) (readableBytes b) b with
  | Fault f => Fault f
  | Ok region =>
      Ok (match memmem kCRLF region with
          | None => None
          | Some i => let crlf := peek b + Z.of_nat i in
                      if crlf =? beginWrite b then None else Some crlf
          end)
  end.

Definition findCRLF_from (start : Z) (b : Buffer) : result (option Z) :=
  if negb (peek b <=? start) then Fault AssertFailed
  else if negb (start <=? beginWrite b) then Fault AssertFailed
  else match read_mem start (beginWrite b - start) b with
  | Fault f => Fault f
  | Ok region =>
      Ok (match memmem kCRLF region with
          | None => None
          | Some i => let crlf := start + Z.of_nat i in
                      if crlf =? beginWrite b then None else Some crlf
          end)
  end.

Definition findEOL (b : Buffer) : result (option Z) :=
  match read_mem (peek b) (readableBytes b) b with
  | Fault f => Fault f
  | Ok region => Ok ((λ i, peek b + Z.of_nat i) <$> memchr ch_lf region)
  end.

Definition findEOL_from (start : Z) (b : Buffer) : result (option Z) :=
  if negb (peek b <=? start) then Fault AssertFailed
  else if negb (start <=? beginWrite b) then Fault AssertFailed
  else match read_mem start (beginWrite b - start) b with
  | Fault f => Fault f
  | Ok region => Ok ((λ i, start + Z.of_nat i) <$> memchr ch_lf region)
  end.

(** ** Consuming *)

Definition retrieveAll : M Buffer unit :=
  modify (λ b, {| b with readerIndex_ := kCheapPrepend; writerIndex_ := kCheapPrepend |}).

Definition retrieve (len : Z) : M Buffer unit :=
  assertS (λ b, len <=? readableBytes b) ;;;
  (b ← getS;
   if len <? readableBytes b
   then modify (λ b, {| b with readerIndex_ := u64 (readerIndex_ b + len) |})
   else retrieveAll).

Definition retrieveUntil (end_ : Z) : M Buffer unit :=
  assertS (λ b, peek b <=? end_) ;;;
  assertS (λ b, end_ <=? beginWrite b) ;;;
  (b ← getS; retrieve (u64 (end_ - peek b))).

Definition retrieveInt64 : M Buffer unit := retrieve 8.
Definition retrieveUint64 : M Buffer unit := retrieve 8.
Definition retrieveInt32 : M Buffer unit := retrieve 4.
Definition retrieveUint32 : M Buffer unit := retrieve 4.
Definition retrieveInt16 : M Buffer unit := retrieve 2.
Definition retrieveUint16 : M Buffer unit := retrieve 2.
Definition retrieveInt8 : M Buffer unit := retrieve 1.
Definition retrieveUint8 : M Buffer unit := retrieve 1.

Definition retrieveAsString (len : Z) : M Buffer bytes :=
  assertS (λ b, len <=? readableBytes b) ;;;
  (b ← getS;
   result ← liftR (read_mem (peek b) len);
   retrieve len ;;;
   mret result).

Definition retrieveAllAsString : M Buffer bytes :=
  b ← getS; retrieveAsString (readableBytes b).

Definition toStringPiece (b : Buffer) : result bytes :=
  read_mem (peek b) (readableBytes b) b.

(** ** Producing *)

Definition makeSpace (len : Z) : M Buffer unit :=
  b ← getS;
  if u64 (writableBytes b + prependableBytes b) <? u64 (len + kCheapPrepend) then
    resize (u64 (writerIndex_ b + len))
  else
    assertS (λ b, kCheapPrepend <? readerIndex_ b) ;;;
    (let readable := readableBytes b in
     d ← liftR (read_mem (readerIndex_ b) (writerIndex_ b - readerIndex_ b));
     write_mem kCheapPrepend d ;;;
     modify (λ b, {| b with readerIndex_ := kCheapPrepend |}) ;;;
     modify (λ b, {| b with writerIndex_ := u64 (readerIndex_ b + readable) |}) ;;;
     assertS (λ b, readable =? readableBytes b)).

Definition ensureWritableBytes (len : Z) : M Buffer unit :=
  (b ← getS; whenM (writableBytes b <? len) (makeSpace len)) ;;;
  assertS (λ b, len <=? writableBytes b).

Definition hasWritten (len : Z) : M Buffer unit :=
  assertS (λ b, len <=? writableBytes b) ;;;
  modify (λ b, {| b with writerIndex_ := u64 (writerIndex_ b + len) |}).

Definition unwrite (len : Z) : M Buffer unit :=
  assertS (λ b, len <=? readableBytes b) ;;;
  modify (λ b, {| b with writerIndex_ := u64 (writerIndex_ b - len) |}).

(** [append(data, len)]: [data] is the [len] bytes the pointer designates,
    which are not bytes of this buffer. *)
Definition append (data : bytes) : M Buffer unit :=
  let len := zlength data in
  ensureWritableBytes len ;;;
  (b ← getS; write_mem (beginWrite b) data) ;;;
  hasWritten len.

Definition prepend (data : bytes) : M Buffer unit :=
  let len := zlength data in
  assertS (λ b, len <=? prependableBytes b) ;;;
  modify (λ b, {| b with readerIndex_ := u64 (readerIndex_ b - len) |}) ;;;
  (b ← getS; write_mem (readerIndex_ b) data).

(** [shrink_to_fit] may change the capacity, which is not part of the model,
    and nothing else. *)
Definition shrink (reserve : Z) : M Buffer unit :=
  b ← getS; ensureWritableBytes (u64 (readableBytes b + reserve)).

(** ** Integers in network byte order *)
Section integers.
Context {HE : HostEndian}.

(** [assert(readableBytes() >= sizeof(x)); memcpy(&x, peek(), sizeof(x));]
    yields the unsigned value of the object [x]. *)
Definition peek_object (n : nat) : M Buffer Z :=
  assertS (λ b, Z.of_nat n <=? readableBytes b) ;;;
  (b ← getS; mem ← liftR (read_mem (peek b) (Z.of_nat n)); mret (int_of_mem mem)).

Definition peekInt64 : M Buffer Z := be64 ← peek_object 8; mret (s64 (networkToHost64 be64)).
Definition peekUint64 : M Buffer Z := be64 ← peek_object 8; mret (networkToHost64 be64).
Definition peekInt32 : M Buffer Z := be32 ← peek_object 4; mret (s32 (networkToHost32 be32)).
Definition peekUint32 : M Buffer Z := be32 ← peek_object 4; mret (networkToHost32 be32).
Definition peekInt16 : M Buffer Z := be16 ← peek_object 2; mret (s16 (networkToHost16 be16)).
Definition peekUint16 : M Buffer Z := be16 ← peek_object 2; mret (networkToHost16 be16).
Definition peekInt8 : M Buffer Z := x ← peek_object 1; mret (s8 x).
Definition peekUint8 : M Buffer Z := x ← peek_object 1; mret (u8 x).

Definition appendInt64 (x : Z) : M Buffer unit :=
  append (mem_of_int 8 (hostToNetwork64 (u64 x))).
Definition appendUint64 (x : Z) : M Buffer unit :=
  append (mem_of_int 8 (hostToNetwork64 x)).
Definition appendInt32 (x : Z) : M Buffer unit :=
  append (mem_of_int 4 (hostToNetwork32 (u32 x))).
Definition appendUint32 (x : Z) : M Buffer unit :=
  append (mem_of_int 4 (hostToNetwork32 x)).
Definition appendInt16 (x : Z) : M Buffer unit :=
  append (mem_of_int 2 (hostToNetwork16 (u16 x))).
Definition appendUint16 (x : Z) : M Buffer unit :=
  append (mem_of_int 2 (hostToNetwork16 x)).
Definition appendInt8 (x : Z) : M Buffer unit := append (mem_of_int 1 (u8 x)).
Definition appendUint8 (x : Z) : M Buffer unit := append (mem_of_int 1 x).

Definition readInt64 : M Buffer Z := result ← peekInt64; retrieveInt64 ;;; mret result.
Definition readUint64 : M Buffer Z := result ← peekUint64; retrieveUint64 ;;; mret result.
Definition readInt32 : M Buffer Z := result ← peekInt32; retrieveInt32 ;;; mret result.
Definition readUint32 : M Buffer Z := result ← peekUint32; retrieveUint32 ;;; mret result.
Definition readInt16 : M Buffer Z := result ← peekInt16; retrieveInt16 ;;; mret result.
Definition readUint16 : M Buffer Z := result ← peekUint16; retrieveUint16 ;;; mret result.
Definition readInt8 : M Buffer Z := result ← peekInt8; retrieveInt8 ;;; mret result.
Definition readUint8 : M Buffer Z := result ← peekUint8; retrieveInt8 ;;; mret result.

Definition prependInt64 (x : Z) : M Buffer unit :=
  prepend (mem_of_int 8 (hostToNetwork64 (u64 x))).
Definition prependUint64 (x : Z) : M Buffer unit :=
  prepend (mem_of_int 8 (hostToNetwork64 x)).
Definition prependInt32 (x : Z) : M Buffer unit :=
  prepend (mem_of_int 4 (hostToNetwork32 (u32 x))).
Definition prependUint32 (x : Z) : M Buffer unit :=
  prepend (mem_of_int 4 (hostToNetwork32 x)).
Definition prependInt16 (x : Z) : M Buffer unit :=
  prepend (mem_of_int 2 (hostToNetwork16 (u16 x))).
Definition prependUint16 (x : Z) : M Buffer unit :=
  prepend (mem_of_int 2 (hostToNetwork16 x)).
Definition prependInt8 (x : Z) : M Buffer unit := prepend (mem_of_int 1 (u8 x)).
Definition prependUint8 (x : Z) : M Buffer unit := prepend (mem_of_int 1 x).
End integers.

(** ** readFd

    [readv(2)] either fails with an [errno] or delivers bytes that the kernel
    scatters over the I/O vectors in order. *)
Inductive read_result :=
  | ReadErr (errno : Z)
  | ReadBytes (d : bytes).

Definition extrabuf_size : Z := 65536.

(** [iov_lens] are the lengths of the vectors handed to [readv]. *)
Definition readFd_iov (b : Buffer) : list Z :=
  let writeable := writableBytes b in
  if writeable <? extrabuf_size then [writeable; extrabuf_size] else [writeable].

(** The returned pair is the [ssize_t] result and the new [*savedErrno], if
    it was written. *)
Definition readFd (readv : list Z -> read_result) : M Buffer (Z * option Z) :=
  b ← getS;
  let writeable := writableBytes b in
  match readv (readFd_iov b) with
  | ReadErr e => mret (-1, Some e)
  | ReadBytes d =>
      let n := zlength d in
      write_mem (writerIndex_ b) (take (Z.to_nat writeable) d) ;;;
      ((if n <=? writeable
        then modify (λ b, {| b with writerIndex_ := u64 (writerIndex_ b + n) |})
        else modify (λ b, {| b with writerIndex_ := size b |}) ;;;
             append (take (Z.to_nat (n - writeable)) (drop (Z.to_nat writeable) d))) ;;;
       mret (n, None))
  end.

(** ** Well-formedness and the bytes a buffer holds *)

Record wf (b : Buffer) : Prop := {
  wf_room : kCheapPrepend <= size b;
  wf_order : 0 <= readerIndex_ b <= writerIndex_ b;
  wf_bound : writerIndex_ b <= size b;
  wf_max : size b <= vector_max_size;
}.

Definition content (b : Buffer) : bytes := slice (readerIndex_ b) (writerIndex_ b) (buffer_ b).

(** ** Elementary facts of well-formed buffers *)
Section facts.
Implicit Types b : Buffer.

Lemma vector_max_size_lt : vector_max_size < 2 ^ 64.
Proof. done. Qed.

Lemma wf_readable b : wf b -> readableBytes b = writerIndex_ b - readerIndex_ b.
Proof.
  intros [? ? ? ?]. pose proof vector_max_size_lt. apply u64_id. lia.
Qed.

Lemma wf_writable b : wf b -> writableBytes b = size b - writerIndex_ b.
Proof.
  intros [? ? ? ?]. pose proof vector_max_size_lt. apply u64_id. lia.
Qed.

Lemma content_length b : wf b -> zlength (content b) = readableBytes b.
Proof.
  intros H. rewrite wf_readable by done. destruct H.
  unfold content. apply slice_length; [lia|]. done.
Qed.

Lemma content_nil b : wf b -> content b = [] ↔ readableBytes b = 0.
Proof.
  intros H. rewrite <- content_length by done. destruct (content b); simpl; split; try done; lia.
Qed.

Lemma read_mem_ok b p len : 0 <= p -> 0 <= len -> p + len <= size b ->
  read_mem p len b = Ok (slice p (p + len) (buffer_ b)).
Proof.
  intros. unfold read_mem.
  by rewrite (proj2 (Z.leb_le 0 p)), (proj2 (Z.leb_le 0 len)), (proj2 (Z.leb_le _ _)) by lia.
Qed.

Lemma read_mem_content b n : wf b -> 0 <= n <= readableBytes b ->
  read_mem (peek b) n b = Ok (take (Z.to_nat n) (content b)).
Proof.
  intros Hwf Hn. pose proof (wf_readable b Hwf). destruct Hwf.
  unfold peek. rewrite read_mem_ok by lia. f_equal. unfold content.
  rewrite take_slice by lia. f_equal. lia.
Qed.

Lemma read_mem_all b : wf b -> read_mem (peek b) (readableBytes b) b = Ok (content b).
Proof.
  intros Hwf. pose proof (content_length b Hwf) as Hl.
  rewrite read_mem_content by (done || lia). by rewrite take_ge by lia.
Qed.

Lemma wp_write_mem b p d Q : 0 <= p -> p + zlength d <= size b ->
  Q tt {| b with buffer_ := splice (buffer_ b) p d |} -> wp (write_mem p d) Q b.
Proof.
  intros. unfold wp, write_mem.
  by rewrite (proj2 (Z.leb_le 0 p)), (proj2 (Z.leb_le _ _)) by lia.
Qed.

Lemma toStringPiece_content b : wf b -> toStringPiece b = Ok (content b).
Proof. apply read_mem_all. Qed.
End facts.

(** Splits a [wf] goal and discharges its inequalities. *)
Ltac solve_wf :=
  constructor; unfold size in *; simpl in *;
  rewrite ?splice_length, ?length_app, ?length_replicate by lia;
  unfold kCheapPrepend, vector_max_size in *; try lia.

(** ** Functional behaviour of the operations

    Each lemma has the form "if the precondition of the source's assertions
    holds, the call returns and the continuation may assume ...". *)
Section operations.
Implicit Types (b : Buffer) (Q : unit -> Buffer -> Prop).

Lemma retrieveAll_wp b Q : wf b ->
  (∀ b', wf b' -> content b' = [] -> size b' = size b ->
         readerIndex_ b' = kCheapPrepend -> Q tt b') ->
  wp retrieveAll Q b.
Proof.
  intros [] HQ. apply wp_modify, HQ; [solve_wf|apply slice_empty|done|done].
Qed.

Lemma retrieve_wp b len Q : wf b -> 0 <= len <= readableBytes b ->
  (∀ b', wf b' -> content b' = drop (Z.to_nat len) (content b) -> size b' = size b ->
         (if len <? readableBytes b then readerIndex_ b' = readerIndex_ b + len
          else readerIndex_ b' = kCheapPrepend) ->
         Q tt b') ->
  wp (retrieve len) Q b.
Proof.
  intros Hwf Hlen HQ. unfold retrieve. wp_simpl.
  split; [apply Z.leb_le; lia|].
  destruct (len <? readableBytes b) eqn:E; wp_simpl.
  - bool_to_Z. rewrite wf_readable in * by done. pose proof Hwf as [].
    rewrite u64_id by (pose proof vector_max_size_lt; lia).
    apply HQ; [solve_wf| |done|done].
    unfold content; simpl. rewrite drop_slice by lia. f_equal. lia.
  - bool_to_Z. apply retrieveAll_wp; [done|]. intros b' ? Hc ? ?.
    apply HQ; try done. rewrite Hc, drop_ge; [done|].
    pose proof (content_length b Hwf). lia.
Qed.

Lemma retrieveUntil_wp b n Q : wf b -> 0 <= n <= readableBytes b ->
  (∀ b', wf b' -> content b' = drop (Z.to_nat n) (content b) -> size b' = size b -> Q tt b') ->
  wp (retrieveUntil (peek b + n)) Q b.
Proof.
  intros Hwf Hn HQ. unfold retrieveUntil. wp_simpl.
  pose proof (wf_readable b Hwf) as Hr. pose proof Hwf as [].
  unfold peek, beginWrite in *.
  split; [apply Z.leb_le; lia|]. split; [apply Z.leb_le; lia|].
  replace (readerIndex_ b + n - readerIndex_ b) with n by lia.
  rewrite u64_id by (pose proof vector_max_size_lt; lia).
  apply retrieve_wp; auto.
Qed.

Lemma retrieveAsString_wp b len (Q : bytes -> Buffer -> Prop) :
  wf b -> 0 <= len <= readableBytes b ->
  (∀ b', wf b' -> content b' = drop (Z.to_nat len) (content b) -> size b' = size b ->
         (if len <? readableBytes b then readerIndex_ b' = readerIndex_ b + len
          else readerIndex_ b' = kCheapPrepend) ->
         Q (take (Z.to_nat len) (content b)) b') ->
  wp (retrieveAsString len) Q b.
Proof.
  intros Hwf Hlen HQ. unfold retrieveAsString. wp_simpl.
  split; [apply Z.leb_le; lia|]. rewrite read_mem_content by done. wp_simpl.
  apply retrieve_wp; [done..|]. intros b' ????. wp_simpl. auto.
Qed.

Lemma retrieveAllAsString_wp b (Q : bytes -> Buffer -> Prop) : wf b ->
  (∀ b', wf b' -> content b' = [] -> size b' = size b ->
         readerIndex_ b' = kCheapPrepend -> Q (content b) b') ->
  wp retrieveAllAsString Q b.
Proof.
  intros Hwf HQ. unfold retrieveAllAsString. wp_simpl.
  pose proof (content_length b Hwf) as Hl.
  apply retrieveAsString_wp; [done|lia|]. intros b' ? Hc ? Hr.
  rewrite Z.ltb_irrefl in Hr. rewrite take_ge by lia.
  apply HQ; try done. rewrite Hc, drop_ge; [done|lia].
Qed.

Lemma unwrite_wp b len Q : wf b -> 0 <= len <= readableBytes b ->
  (∀ b', wf b' ->
     content b' = take (Z.to_nat (readableBytes b - len)) (content b) ->
     size b' = size b -> readerIndex_ b' = readerIndex_ b -> Q tt b') ->
  wp (unwrite len) Q b.
Proof.
  intros Hwf Hlen HQ. unfold unwrite. wp_simpl. split; [apply Z.leb_le; lia|].
  rewrite wf_readable in * by done. pose proof Hwf as [].
  rewrite u64_id by (pose proof vector_max_size_lt; lia).
  apply HQ; [solve_wf| |done|done].
  unfold content; simpl. rewrite take_slice by lia. f_equal. lia.
Qed.

Lemma resize_grow_wp b n Q : size b <= n <= vector_max_size ->
  (∀ d, zlength d = n - size b -> Q tt {| b with buffer_ := buffer_ b ++ d |}) ->
  wp (resize n) Q b.
Proof.
  intros Hn HQ. unfold wp, resize. rewrite (proj2 (Z.leb_le _ _)) by lia.
  destruct (n <=? size b) eqn:E; bool_to_Z.
  - specialize (HQ []). rewrite app_nil_r in HQ.
    rewrite firstn_all2 by (unfold size in *; lia). apply HQ. simpl. lia.
  - apply HQ. rewrite length_replicate. lia.
Qed.

(** [makeSpace] keeps the readable bytes.  It reallocates only when the room
    before and after the readable bytes is too small, and then the vector
    grows to exactly [writerIndex_ + len]. *)
Lemma makeSpace_wp b len Q : wf b -> 0 <= len <= vector_max_size -> writableBytes b < len ->
  (writableBytes b + prependableBytes b < len + kCheapPrepend ->
   writerIndex_ b + len <= vector_max_size) ->
  (∀ b', wf b' -> content b' = content b -> len <= writableBytes b' ->
     (size b' = size b ∧ readerIndex_ b' = kCheapPrepend
      ∧ len + kCheapPrepend <= writableBytes b + prependableBytes b
      ∨ size b' = writerIndex_ b + len ∧ readerIndex_ b' = readerIndex_ b
        ∧ writableBytes b + prependableBytes b < len + kCheapPrepend) ->
     Q tt b') ->
  wp (makeSpace len) Q b.
Proof.
  intros Hwf Hlen Hlt Hmax HQ. pose proof vector_max_size_lt as Hv.
  unfold makeSpace. wp_simpl. unfold prependableBytes in *.
  rewrite wf_writable in * by done. pose proof Hwf as [].
  rewrite !(u64_id (_ + _)) by (unfold kCheapPrepend, vector_max_size in *; lia).
  destruct (_ <? _) eqn:E; bool_to_Z.
  - specialize (Hmax ltac:(lia)).
    apply resize_grow_wp; [lia|]. intros d Hd.
    assert (Hwf' : wf {| b with buffer_ := buffer_ b ++ d |}).
    { solve_wf. }
    apply HQ; [done| | |right].
    + unfold content; simpl. apply slice_app_l; [done|lia].
    + rewrite wf_writable by done. unfold size in *; simpl. rewrite length_app. lia.
    + unfold size in *; simpl. rewrite length_app. split_and!; [lia|done|lia].
  - wp_simpl. unfold kCheapPrepend in *. split; [apply Z.ltb_lt; lia|].
    rewrite wf_readable by done. rewrite read_mem_ok by lia.
    set (d := slice _ _ _).
    assert (Hd : zlength d = writerIndex_ b - readerIndex_ b).
    { unfold d. unfold size in *. rewrite slice_length; lia. }
    wp_simpl. apply wp_write_mem; [lia|lia|]. wp_simpl.
    rewrite u64_id by lia.
    set (b' := mkBuffer _ _ _).
    assert (Hwf' : wf b') by (unfold b'; solve_wf).
    split; [apply Z.eqb_eq; rewrite wf_readable by done; simpl; lia|].
    assert (Hsz : size b' = size b)
      by (unfold b', size in *; simpl; rewrite splice_length; lia).
    apply HQ; [done| | |left].
    + unfold content, b'; simpl.
      rewrite <- Hd. rewrite slice_splice_same by (unfold size in *; lia).
      unfold d, content. f_equal. lia.
    + rewrite wf_writable by done. rewrite Hsz. unfold b'; simpl. lia.
    + split_and!; [done|done|lia].
Qed.

(** The size of the vector after making [len] bytes writable. *)
Definition grown (b : Buffer) (len : Z) : Z :=
  if (writableBytes b <? len)
     && (writableBytes b + prependableBytes b <? len + kCheapPrepend)
  then writerIndex_ b + len else size b.

Lemma grown_le b len : grown b len <= Z.max (size b) (writerIndex_ b + len).
Proof. unfold grown. destruct (_ && _); lia. Qed.

(** The usual sufficient condition. *)
Lemma grown_room b len : wf b -> 0 <= len -> writerIndex_ b + len <= vector_max_size ->
  len <= vector_max_size ∧ grown b len <= vector_max_size.
Proof. intros [] ??. unfold grown. destruct (_ && _); lia. Qed.

Lemma ensureWritableBytes_wp b len Q : wf b -> 0 <= len <= vector_max_size ->
  grown b len <= vector_max_size ->
  (∀ b', wf b' -> content b' = content b -> len <= writableBytes b' ->
     size b' = grown b len ->
     Z.min kCheapPrepend (readerIndex_ b) <= readerIndex_ b' -> Q tt b') ->
  wp (ensureWritableBytes len) Q b.
Proof.
  intros Hwf Hlen Hmax HQ. unfold ensureWritableBytes. wp_simpl. unfold grown in Hmax.
  destruct (_ <? _) eqn:E; bool_to_Z.
  - apply makeSpace_wp; [done..| |].
    { intros Hlt. by rewrite (proj2 (Z.ltb_lt _ _) Hlt) in Hmax. }
    intros b' ? ? ? Hs. wp_simpl.
    split; [by apply Z.leb_le|]. apply HQ; try done; [|lia].
    unfold grown. rewrite (proj2 (Z.ltb_lt _ len)) by done. simpl.
    destruct (_ <? _) eqn:E2; bool_to_Z; lia.
  - wp_simpl. split; [by apply Z.leb_le|]. apply HQ; try done; [|lia].
    unfold grown. by rewrite (proj2 (Z.ltb_ge _ len)).
Qed.

(** The vector cannot grow beyond [max_size()]. *)
Lemma ensureWritableBytes_full b len : wf b -> 0 <= len <= vector_max_size ->
  vector_max_size < grown b len -> ensureWritableBytes len b = Fault LengthError.
Proof.
  intros Hwf Hlen Hmax. unfold grown in Hmax. pose proof vector_max_size_lt.
  pose proof Hwf as []. destruct (_ <? len) eqn:E1; [|cbn in Hmax; lia].
  destruct (_ <? len + kCheapPrepend) eqn:E2; [|cbn in Hmax; lia]. cbn in Hmax.
  unfold ensureWritableBytes. unfold mbind, M_bind, getS. cbn. rewrite E1. cbn.
  unfold makeSpace, mbind, M_bind, getS.
  rewrite wf_writable in * by done. unfold prependableBytes, kCheapPrepend in *.
  rewrite !u64_id by (unfold vector_max_size in *; lia). rewrite E2.
  unfold resize. by rewrite (proj2 (Z.leb_gt _ _) Hmax).
Qed.

Lemma append_wp b data Q : wf b -> zlength data <= vector_max_size ->
  grown b (zlength data) <= vector_max_size ->
  (∀ b', wf b' -> content b' = content b ++ data ->
     size b' = grown b (zlength data) ->
     Z.min kCheapPrepend (readerIndex_ b) <= readerIndex_ b' -> Q tt b') ->
  wp (append data) Q b.
Proof.
  intros Hwf Hlen Hmax HQ. unfold append, hasWritten. wp_simpl.
  apply ensureWritableBytes_wp; [done|lia|done|].
  intros b1 Hwf1 Hc1 Hw1 Hs1 Hr1. wp_simpl.
  rewrite wf_writable in Hw1 by done. pose proof Hwf1 as [].
  unfold beginWrite. apply wp_write_mem; [lia|lia|].
  set (b2 := {| b1 with buffer_ := _ |}). wp_simpl.
  assert (Hsz : size b2 = size b1)
    by (unfold b2, size in *; simpl; rewrite splice_length; lia).
  assert (Hwf2 : wf b2) by (unfold b2; solve_wf).
  split.
  { apply Z.leb_le. rewrite wf_writable by done. unfold b2 in *; simpl. lia. }
  pose proof vector_max_size_lt.
  rewrite u64_id by (unfold b2; simpl; lia).
  apply HQ.
  - unfold b2 in *. solve_wf.
  - unfold content, b2; simpl.
    rewrite (slice_app_split _ (writerIndex_ b1)) by lia. f_equal.
    + rewrite slice_splice_below by (unfold size in *; lia). exact Hc1.
    + apply slice_splice_same; unfold size in *; lia.
  - rewrite <- Hs1. exact Hsz.
  - done.
Qed.

Lemma prepend_wp b data Q : wf b -> zlength data <= prependableBytes b ->
  (∀ b', wf b' -> content b' = data ++ content b -> size b' = size b ->
     readerIndex_ b' = readerIndex_ b - zlength data -> Q tt b') ->
  wp (prepend data) Q b.
Proof.
  intros Hwf Hlen HQ. unfold prepend, prependableBytes in *. wp_simpl.
  split; [by apply Z.leb_le|]. pose proof Hwf as []. pose proof vector_max_size_lt.
  rewrite u64_id by lia.
  apply wp_write_mem; simpl; [lia|unfold size in *; simpl; lia|].
  assert (Hl : zlength (splice (buffer_ b) (readerIndex_ b - zlength data) data) = size b)
    by (unfold size in *; rewrite splice_length; lia).
  apply HQ; [| |done|done].
  - constructor; unfold size; simpl; rewrite ?Hl; lia.
  - unfold content; simpl.
    rewrite (slice_app_split _ (readerIndex_ b)) by lia. f_equal.
    + replace (readerIndex_ b) with (readerIndex_ b - zlength data + zlength data) at 2 by lia.
      apply slice_splice_same; unfold size in *; lia.
    + apply slice_splice_above; unfold size in *; lia.
Qed.

Lemma shrink_wp b reserve Q : wf b -> 0 <= reserve ->
  writerIndex_ b + (readableBytes b + reserve) <= vector_max_size ->
  (∀ b', wf b' -> content b' = content b -> readableBytes b + reserve <= writableBytes b' ->
     size b' = grown b (readableBytes b + reserve) ->
     Z.min kCheapPrepend (readerIndex_ b) <= readerIndex_ b' -> Q tt b') ->
  wp (shrink reserve) Q b.
Proof.
  intros Hwf Hr Hmax HQ. unfold shrink. wp_simpl. pose proof Hwf as [].
  pose proof vector_max_size_lt. pose proof (wf_readable b Hwf).
  destruct (grown_room b (readableBytes b + reserve)); [done|lia..|].
  rewrite u64_id by lia. apply ensureWritableBytes_wp; [done|lia|done|]. auto.
Qed.
End operations.

Lemma append_full b data : wf b -> zlength data <= vector_max_size ->
  vector_max_size < grown b (zlength data) -> append data b = Fault LengthError.
Proof.
  intros Hwf Hlen Hmax. unfold append, mbind at 1, M_bind.
  by rewrite (ensureWritableBytes_full b (zlength data) Hwf (conj (Nat2Z.is_nonneg _) Hlen) Hmax).
Qed.

Lemma append_safe b data Q : wf b -> zlength data <= vector_max_size ->
  (∀ b', wf b' -> content b' = content b ++ data -> Q tt b') -> safe (append data) Q b.
Proof.
  intros Hwf Hlen HQ.
  destruct (Z.leb_spec (grown b (zlength data)) vector_max_size) as [Hg|Hg].
  - apply wp_safe, append_wp; [done..|]. auto.
  - unfold safe. by rewrite append_full.
Qed.

(** ** readFd *)
Section readFd.
Variable readv : list Z -> read_result.

(** readv(2): at most the sum of the vectors' lengths is transferred. *)
Definition readv_bounded : Prop :=
  ∀ iov d, Forall (λ n, 0 <= n) iov -> readv iov = ReadBytes d ->
    zlength d <= foldr Z.add 0 iov.

Lemma readFd_iov_nonneg b : Forall (λ n, 0 <= n) (readFd_iov b).
Proof.
  assert (0 <= writableBytes b) by (apply wrap_u_range; lia).
  unfold readFd_iov, extrabuf_size. case_match; repeat constructor; lia.
Qed.

Lemma readFd_iov_total b : wf b ->
  foldr Z.add 0 (readFd_iov b) =
    if writableBytes b <? extrabuf_size then writableBytes b + extrabuf_size
    else writableBytes b.
Proof. intros. unfold readFd_iov. case_match; simpl; lia. Qed.

(** Reading is writing what fits behind the readable bytes, and appending the
    rest that went to the stack buffer. *)
Lemma readFd_step b d : wf b -> zlength d <= foldr Z.add 0 (readFd_iov b) ->
  readv (readFd_iov b) = ReadBytes d ->
  ∃ b1 rest, wf b1 ∧ content b1 ++ rest = content b ++ d ∧ size b1 = size b
    ∧ readerIndex_ b1 = readerIndex_ b ∧ zlength rest <= extrabuf_size
    ∧ writerIndex_ b1 + zlength rest <= size b + extrabuf_size
    ∧ readFd readv b = (whenM (writableBytes b <? zlength d) (append rest) ;;;
                        mret (zlength d, None)) b1
    ∧ ((writableBytes b <? zlength d) = false -> rest = []).
Proof.
  intros Hwf Hd Hr. rewrite readFd_iov_total in Hd by done.
  rewrite wf_writable in * by done. pose proof Hwf as [].
  unfold extrabuf_size in *. pose proof vector_max_size_lt.
  assert (Hd' : zlength d <= size b - writerIndex_ b + 65536)
    by (destruct (_ <? _); lia).
  set (w := Z.to_nat (size b - writerIndex_ b)).
  assert (Hw : zlength (take w d) <= size b - writerIndex_ b)
    by (rewrite length_take; lia).
  set (b1 := {| b with buffer_ := splice (buffer_ b) (writerIndex_ b) (take w d) |}).
  assert (Hrun : readFd readv b = ((if zlength d <=? size b - writerIndex_ b
        then modify (λ b, {| b with writerIndex_ := u64 (writerIndex_ b + zlength d) |})
        else modify (λ b, {| b with writerIndex_ := size b |}) ;;;
             append (take (Z.to_nat (zlength d - (size b - writerIndex_ b))) (drop w d))) ;;;
       mret (zlength d, None)) b1).
  { unfold readFd. rewrite (bind_ok _ _ _ _ _ eq_refl), Hr, wf_writable by done.
    rewrite (bind_ok _ _ _ tt b1); [done|].
    unfold write_mem. fold w. by rewrite (proj2 (Z.leb_le 0 (writerIndex_ b))),
      (proj2 (Z.leb_le (writerIndex_ b + zlength (take w d)) (size b))) by lia. }
  clear Hr.
  assert (Hsz : size b1 = size b).
  { unfold size, b1 in *. cbn [buffer_]. apply splice_length; lia. }
  assert (Hc1 : slice (readerIndex_ b) (writerIndex_ b + zlength (take w d)) (buffer_ b1)
                = content b ++ take w d).
  { rewrite (slice_app_split _ (writerIndex_ b)) by lia. unfold b1, content; simpl. f_equal.
    - apply slice_splice_below; unfold size in *; lia.
    - apply slice_splice_same; unfold size in *; lia. }
  exists {| b1 with writerIndex_ := writerIndex_ b + zlength (take w d) |}, (drop w d).
  assert (Hlw : zlength (take w d) = Z.min (size b - writerIndex_ b) (zlength d))
    by (rewrite length_take; lia).
  assert (Hld : zlength (drop w d) = zlength d - zlength (take w d))
    by (rewrite length_drop, length_take; lia).
  split_and!.
  - constructor; unfold size in *; simpl in *; lia.
  - change (slice (readerIndex_ b) (writerIndex_ b + zlength (take w d)) (buffer_ b1) ++ drop w d
            = content b ++ d). by rewrite Hc1, <- app_assoc, take_drop.
  - exact Hsz.
  - done.
  - lia.
  - simpl. lia.
  - rewrite Hrun. destruct (zlength d <=? _) eqn:E; bool_to_Z.
    + rewrite (proj2 (Z.ltb_ge (size b - writerIndex_ b) (zlength d))) by lia.
      rewrite (bind_ok _ _ _ _ _ eq_refl). unfold whenM, mbind, M_bind, mret, M_ret.
      do 3 f_equal. unfold b1; simpl. rewrite u64_id by lia. lia.
    + rewrite (proj2 (Z.ltb_lt (size b - writerIndex_ b) (zlength d))) by lia. cbn [whenM].
      rewrite bind_assoc, (bind_ok _ _ _ _ _ eq_refl).
      rewrite take_ge by (rewrite length_drop; lia). apply f_equal.
      change (buffer_ b1) with (splice (buffer_ b) (writerIndex_ b) (take w d)).
      rewrite Hsz, Hlw. unfold b1; simpl. f_equal. lia.
  - intros E. bool_to_Z. apply drop_ge. lia.
Qed.

(** The bytes land behind the readable ones whichever of the two vectors
    they arrived in. *)
Lemma readFd_wp b (Q : Z * option Z -> Buffer -> Prop) : wf b ->
  readv_bounded -> size b + extrabuf_size <= vector_max_size ->
  (∀ e, readv (readFd_iov b) = ReadErr e -> Q (-1, Some e) b) ->
  (∀ d b', readv (readFd_iov b) = ReadBytes d -> wf b' ->
     content b' = content b ++ d -> size b' <= size b + extrabuf_size ->
     Z.min kCheapPrepend (readerIndex_ b) <= readerIndex_ b' ->
     Q (zlength d, None) b') ->
  wp (readFd readv) Q b.
Proof.
  intros Hwf Hrv Hmax HQe HQd. destruct (readv (readFd_iov b)) as [e|d] eqn:Hr.
  { unfold readFd. wp_simpl. rewrite Hr. by apply HQe. }
  destruct (readFd_step b d Hwf (Hrv _ _ (readFd_iov_nonneg b) Hr) Hr)
    as (b1 & rest & Hwf1 & Hc & Hs & Hri & Hrl & Hrw & Heq & Hnil).
  unfold wp at 1. rewrite Heq. fold (wp (whenM (writableBytes b <? zlength d) (append rest) ;;;
    mret (zlength d, None)) Q b1). wp_simpl. pose proof Hwf1 as []. unfold extrabuf_size in *.
  destruct (writableBytes b <? zlength d).
  - destruct (grown_room b1 (zlength rest)); [done|lia..|].
    apply append_wp; [done..|]. intros b3 ? Hc3 Hs3 ?.
    pose proof (grown_le b1 (zlength rest)). wp_simpl.
    apply HQd; [done|done|by rewrite Hc3|lia|lia].
  - rewrite Hnil, app_nil_r in Hc by done. wp_simpl. apply HQd; [done|done|done|lia|lia].
Qed.

(** Without the bound on the vector. *)
Lemma readFd_safe b (Q : Z * option Z -> Buffer -> Prop) : wf b ->
  (∀ d, readv (readFd_iov b) = ReadBytes d -> zlength d <= foldr Z.add 0 (readFd_iov b)) ->
  (∀ e, readv (readFd_iov b) = ReadErr e -> Q (-1, Some e) b) ->
  (∀ d b', readv (readFd_iov b) = ReadBytes d -> wf b' -> content b' = content b ++ d ->
     Q (zlength d, None) b') ->
  safe (readFd readv) Q b.
Proof.
  intros Hwf Hrv HQe HQd. destruct (readv (readFd_iov b)) as [e|d] eqn:Hr.
  { unfold readFd. safe_simpl. rewrite Hr. by apply HQe. }
  destruct (readFd_step b d Hwf (Hrv d eq_refl) Hr)
    as (b1 & rest & Hwf1 & Hc & Hs & Hri & Hrl & Hrw & Heq & Hnil).
  unfold safe at 1. rewrite Heq. fold (safe (whenM (writableBytes b <? zlength d) (append rest) ;;;
    mret (zlength d, None)) Q b1). safe_simpl.
  destruct (writableBytes b <? zlength d).
  - apply append_safe; [done|unfold extrabuf_size, vector_max_size in *; lia|].
    intros b3 ? Hc3. safe_simpl. apply HQd; [done|done|by rewrite Hc3].
  - rewrite Hnil, app_nil_r in Hc by done. safe_simpl. by apply HQd.
Qed.
End readFd.

(** ** Integers: what is written is the big-endian encoding *)
Section integers_facts.
Context {HE : HostEndian}.
Implicit Types b : Buffer.

Lemma peek_object_wp n b (Q : Z -> Buffer -> Prop) : wf b ->
  Z.of_nat n <= readableBytes b ->
  Q (int_of_mem (take n (content b))) b -> wp (peek_object n) Q b.
Proof.
  intros Hwf Hn HQ. unfold peek_object. wp_simpl. split; [by apply Z.leb_le|].
  rewrite read_mem_content by (done || lia). wp_simpl. by rewrite Nat2Z.id.
Qed.

(** The network order integer at the read position. *)
Lemma peek_object_be n b : wf b -> Z.of_nat n <= readableBytes b ->
  betoh n (int_of_mem (take n (content b))) = be_decode (take n (content b)).
Proof.
  intros Hwf Hn. apply betoh_int_of_mem. rewrite length_take.
  pose proof (content_length b Hwf). lia.
Qed.
End integers_facts.

(** ** Specification: a double-ended queue of bytes

    [items] are the readable bytes; [headroom] is the number of bytes the
    client may still prepend whatever the vector does internally. *)
Record Deque := mkDeque { items : bytes; headroom : Z }.

Inductive op :=
  | OpAppend (d : bytes)
  | OpPrepend (d : bytes)
  | OpRetrieve (n : Z)
  | OpRetrieveAll
  | OpRetrieveAsString (n : Z)
  | OpRetrieveAllAsString
  | OpUnwrite (n : Z)
  | OpEnsureWritable (n : Z)
  | OpShrink (n : Z)
  | OpToString.

(** The call an [op] stands for; the result is the returned string, if any. *)
Definition exec (o : op) : M Buffer bytes :=
  match o with
  | OpAppend d => append d ;;; mret []
  | OpPrepend d => prepend d ;;; mret []
  | OpRetrieve n => retrieve n ;;; mret []
  | OpRetrieveAll => retrieveAll ;;; mret []
  | OpRetrieveAsString n => retrieveAsString n
  | OpRetrieveAllAsString => retrieveAllAsString
  | OpUnwrite n => unwrite n ;;; mret []
  | OpEnsureWritable n => ensureWritableBytes n ;;; mret []
  | OpShrink n => shrink n ;;; mret []
  | OpToString => liftR toStringPiece
  end.

Fixpoint exec_all (os : list op) : M Buffer (list bytes) :=
  match os with
  | [] => mret []
  | o :: os' => r ← exec o; rs ← exec_all os'; mret (r :: rs)
  end.

Definition spec_consume (n : Z) (q : Deque) : Deque :=
  if n <? zlength (items q)
  then mkDeque (drop (Z.to_nat n) (items q)) (Z.min kCheapPrepend (headroom q + n))
  else mkDeque [] kCheapPrepend.

(** One operation on the specification: its result, the new queue and the
    number of bytes it may add to the vector; [None] outside its contract. *)
Definition spec (o : op) (q : Deque) : option (bytes * Deque * Z) :=
  let len := zlength (items q) in
  match o with
  | OpAppend d => Some ([], mkDeque (items q ++ d) (headroom q), zlength d)
  | OpPrepend d => if zlength d <=? headroom q
      then Some ([], mkDeque (d ++ items q) (headroom q - zlength d), 0) else None
  | OpRetrieve n => if (0 <=? n) && (n <=? len) then Some ([], spec_consume n q, 0) else None
  | OpRetrieveAll => Some ([], mkDeque [] kCheapPrepend, 0)
  | OpRetrieveAsString n => if (0 <=? n) && (n <=? len)
      then Some (take (Z.to_nat n) (items q), spec_consume n q, 0) else None
  | OpRetrieveAllAsString => Some (items q, mkDeque [] kCheapPrepend, 0)
  | OpUnwrite n => if (0 <=? n) && (n <=? len)
      then Some ([], mkDeque (take (Z.to_nat (len - n)) (items q)) (headroom q), 0) else None
  | OpEnsureWritable n => if 0 <=? n then Some ([], q, n) else None
  | OpShrink n => if 0 <=? n then Some ([], q, len + n) else None
  | OpToString => Some (items q, q, 0)
  end.

Fixpoint spec_all (os : list op) (q : Deque) : option (list bytes * Deque * Z) :=
  match os with
  | [] => Some ([], q, 0)
  | o :: os' =>
      match spec o q with
      | None => None
      | Some (r, q1, c1) =>
          match spec_all os' q1 with
          | None => None
          | Some (rs, q2, c2) => Some (r :: rs, q2, c1 + c2)
          end
      end
  end.

(** The simulation relation. *)
Record represents (b : Buffer) (q : Deque) : Prop := {
  rep_wf : wf b;
  rep_items : content b = items q;
  rep_headroom : 0 <= headroom q <= Z.min kCheapPrepend (readerIndex_ b);
}.

Section refinement.
Implicit Types (b : Buffer) (q : Deque).

Lemma Buffer_ctor_represents initialSize :
  0 <= initialSize -> kCheapPrepend + initialSize <= vector_max_size ->
  ∃ b, Buffer_ctor initialSize = Ok b ∧ represents b (mkDeque [] kCheapPrepend)
       ∧ size b = kCheapPrepend + initialSize.
Proof.
  intros H0 Hmax. unfold Buffer_ctor. pose proof vector_max_size_lt.
  rewrite u64_id by (unfold kCheapPrepend in *; lia).
  rewrite (proj2 (Z.leb_le _ _)) by done.
  set (b := mkBuffer _ _ _).
  assert (Hs : size b = kCheapPrepend + initialSize)
    by (unfold b, size; simpl; rewrite length_replicate; unfold kCheapPrepend in *; lia).
  assert (Hwf : wf b) by (constructor; rewrite ?Hs; unfold b; simpl; unfold kCheapPrepend in *; lia).
  rewrite wf_readable, wf_writable, Hs by done. simpl.
  rewrite (proj2 (Z.eqb_eq _ initialSize)) by lia. simpl.
  exists b. split; [done|]. split; [|done]. constructor; simpl; [done| |done].
  apply slice_empty.
Qed.

Lemma rep_length b q : represents b q -> zlength (items q) = readableBytes b.
Proof. intros [? <- ?]. by apply content_length. Qed.

Lemma consume_represents b b' n q : represents b q ->
  0 <= n <= readableBytes b -> wf b' ->
  content b' = drop (Z.to_nat n) (content b) ->
  (if n <? readableBytes b then readerIndex_ b' = readerIndex_ b + n
   else readerIndex_ b' = kCheapPrepend) ->
  represents b' (spec_consume n q).
Proof.
  intros Hr Hn Hwf' Hc Hri. pose proof (rep_length _ _ Hr) as Hl.
  destruct Hr as [Hwf Hi Hh]. unfold spec_consume. rewrite Hl.
  pose proof (wf_order _ Hwf). unfold kCheapPrepend in *. revert Hri.
  destruct (n <? readableBytes b) eqn:E; intros Hri; bool_to_Z; constructor; simpl.
  - done.
  - by rewrite Hc, Hi.
  - unfold kCheapPrepend. lia.
  - done.
  - rewrite Hc, Hi. apply drop_ge. lia.
  - unfold kCheapPrepend. lia.
Qed.

Lemma spec_cost o q r q' c : spec o q = Some (r, q', c) -> 0 <= c.
Proof. destruct o; simpl; try case_match; intros; simplify_eq; bool_to_Z; lia. Qed.

Lemma spec_all_cost os q rs q' c : spec_all os q = Some (rs, q', c) -> 0 <= c.
Proof.
  revert q rs q' c. induction os as [|o os IH]; simpl; intros q rs q' c H.
  - simplify_eq. lia.
  - repeat case_match; simplify_eq.
    match goal with H1 : spec _ _ = _, H2 : spec_all _ _ = _ |- _ =>
      apply spec_cost in H1; apply IH in H2 end. lia.
Qed.

(** One step of the simulation. *)
Lemma exec_represents o b q r q' c : represents b q ->
  spec o q = Some (r, q', c) -> size b + c <= vector_max_size ->
  wp (exec o) (λ r' b', r' = r ∧ represents b' q' ∧ size b' <= size b + c) b.
Proof.
  intros Hrep Hspec Hmax. pose proof (spec_cost _ _ _ _ _ Hspec). pose proof (rep_length _ _ Hrep) as Hl.
  pose proof Hrep as [Hwf Hi Hh]. pose proof Hwf as [].
  unfold spec in Hspec. rewrite ?Hl in Hspec.
  destruct o; simpl in Hspec; try case_match; simplify_eq; bool_to_Z;
    simpl; wp_simpl.
  - pose proof (grown_le b (zlength d)).
    apply append_wp; [done|lia|lia|]. intros b' ? Hc ??. wp_simpl.
    split_and!; [done| |lia]. constructor; simpl; [done| |lia]. by rewrite Hc, Hi.
  - apply prepend_wp; [done|unfold prependableBytes; lia|]. intros b' ? Hc ??. wp_simpl.
    split_and!; [done| |lia]. constructor; simpl; [done| |lia]. by rewrite Hc, Hi.
  - apply retrieve_wp; [done..|]. intros b' ????. wp_simpl.
    split_and!; [done| |lia]. by eapply consume_represents.
  - apply retrieveAll_wp; [done|]. intros b' ? Hc ? Hr. wp_simpl.
    split_and!; [done| |lia]. constructor; simpl; [done..|]. by rewrite Hr.
  - apply retrieveAsString_wp; [done..|]. intros b' ????.
    split_and!; [by rewrite Hi| |lia]. by eapply consume_represents.
  - apply retrieveAllAsString_wp; [done|]. intros b' ? Hc ? Hr.
    split_and!; [done| |lia]. constructor; simpl; [done..|]. by rewrite Hr.
  - apply unwrite_wp; [done..|]. intros b' ? Hc ??. wp_simpl.
    split_and!; [done| |lia]. constructor; simpl; [done| |lia]. by rewrite Hc, Hi.
  - pose proof (grown_le b c).
    apply ensureWritableBytes_wp; [done|lia|lia|]. intros b' ? Hc ???. wp_simpl.
    split_and!; [done| |lia]. constructor; [done| |lia]. by rewrite Hc.
  - pose proof (grown_le b (readableBytes b + n)). rewrite wf_readable in * by done.
    apply shrink_wp; [done|lia|rewrite wf_readable by done; lia|]. intros b' ? Hc ???. wp_simpl.
    rewrite wf_readable in * by done.
    split_and!; [done| |lia]. constructor; [done| |lia]. by rewrite Hc.
  - rewrite toStringPiece_content by done. split_and!; [done|done|lia].
Qed.

Lemma exec_all_represents os b q rs q' c : represents b q ->
  spec_all os q = Some (rs, q', c) -> size b + c <= vector_max_size ->
  wp (exec_all os) (λ rs' b', rs' = rs ∧ represents b' q') b.
Proof.
  revert b q rs q' c. induction os as [|o os IH]; intros b q rs q' c Hrep; simpl.
  - intros [= <- <- <-] _. by split.
  - destruct (spec o q) as [[[r1 q1] c1]|] eqn:E1; [|done].
    destruct (spec_all os q1) as [[[rs2 q2] c2]|] eqn:E2; [|done].
    intros [= <- <- <-] Hmax. pose proof (spec_all_cost _ _ _ _ _ E2).
    wp_simpl. eapply wp_mono; [eapply exec_represents; [done|exact E1|lia]|].
    intros r b1 (-> & Hrep1 & Hs1). wp_simpl.
    eapply wp_mono; [eapply IH; [exact Hrep1|exact E2|lia]|].
    intros rs b2 [-> ?]. by wp_simpl.
Qed.
End refinement.

(** ** Typed integers, as the protocol codecs use them *)
Inductive ikind := I8 | U8 | I16 | U16 | I32 | U32 | I64 | U64.

#[export] Instance ikind_eq_dec : EqDecision ikind.
Proof. solve_decision. Defined.

Definition width (k : ikind) : nat :=
  match k with I8 | U8 => 1 | I16 | U16 => 2 | I32 | U32 => 4 | I64 | U64 => 8 end.

Definition signed (k : ikind) : bool :=
  match k with I8 | I16 | I32 | I64 => true | _ => false end.

(** The values of the C type. *)
Definition in_range (k : ikind) (x : Z) : Prop :=
  let w := Z.of_nat (width k) * 8 in
  if signed k then - 2 ^ (w - 1) <= x < 2 ^ (w - 1) else 0 <= x < 2 ^ w.

Section typed.
Context {HE : HostEndian}.
Implicit Types b : Buffer.

Definition append_int (k : ikind) (x : Z) : M Buffer unit :=
  match k with
  | I8 => appendInt8 x | U8 => appendUint8 x
  | I16 => appendInt16 x | U16 => appendUint16 x
  | I32 => appendInt32 x | U32 => appendUint32 x
  | I64 => appendInt64 x | U64 => appendUint64 x
  end.

Definition prepend_int (k : ikind) (x : Z) : M Buffer unit :=
  match k with
  | I8 => prependInt8 x | U8 => prependUint8 x
  | I16 => prependInt16 x | U16 => prependUint16 x
  | I32 => prependInt32 x | U32 => prependUint32 x
  | I64 => prependInt64 x | U64 => prependUint64 x
  end.

Definition read_int (k : ikind) : M Buffer Z :=
  match k with
  | I8 => readInt8 | U8 => readUint8
  | I16 => readInt16 | U16 => readUint16
  | I32 => readInt32 | U32 => readUint32
  | I64 => readInt64 | U64 => readUint64
  end.

Fixpoint read_ints (ks : list ikind) : M Buffer (list Z) :=
  match ks with
  | [] => mret []
  | k :: ks' => x ← read_int k; xs ← read_ints ks'; mret (x :: xs)
  end.

(** The bytes on the wire. *)
Definition wire (k : ikind) (x : Z) : bytes :=
  be_encode (width k) (wrap_u (Z.of_nat (width k) * 8) x).

Lemma wire_length k x : length (wire k x) = width k.
Proof. apply be_encode_length. Qed.

Lemma mem_of_int_1 x : mem_of_int 1 x = be_encode 1 x.
Proof. unfold mem_of_int, be_encode. by destruct host_little. Qed.

Lemma in_range_unsigned k x : in_range k x -> signed k = false ->
  wrap_u (Z.of_nat (width k) * 8) x = x.
Proof. unfold in_range. intros H E. rewrite E in H. by apply wrap_u_id. Qed.

Lemma append_int_wire k x : in_range k x -> append_int k x = append (wire k x).
Proof.
  intros Hx. unfold wire.
  destruct k; simpl;
    unfold appendInt8, appendUint8, appendInt16, appendUint16, appendInt32,
      appendUint32, appendInt64, appendUint64, hostToNetwork16, hostToNetwork32,
      hostToNetwork64;
    rewrite ?mem_of_int_htobe, ?mem_of_int_1; try done;
    do 2 f_equal; symmetry; exact (in_range_unsigned _ _ Hx eq_refl).
Qed.

Lemma prepend_int_wire k x : in_range k x -> prepend_int k x = prepend (wire k x).
Proof.
  intros Hx. unfold wire.
  destruct k; simpl;
    unfold prependInt8, prependUint8, prependInt16, prependUint16, prependInt32,
      prependUint32, prependInt64, prependUint64, hostToNetwork16, hostToNetwork32,
      hostToNetwork64;
    rewrite ?mem_of_int_htobe, ?mem_of_int_1; try done;
    do 2 f_equal; symmetry; exact (in_range_unsigned _ _ Hx eq_refl).
Qed.

(** How each width turns the bytes at the read position into a value. *)
Definition int_value (k : ikind) (u : Z) : Z :=
  if signed k then wrap_s (Z.of_nat (width k) * 8) u else u.

Lemma int_of_mem_1 l : length l = 1%nat -> int_of_mem l = be_decode l.
Proof.
  intros H. unfold int_of_mem, be_decode.
  destruct l as [|? [|? ?]]; try done. by destruct host_little.
Qed.

Lemma read_int_wp k b (Q : Z -> Buffer -> Prop) : wf b ->
  Z.of_nat (width k) <= readableBytes b ->
  (∀ b', wf b' -> content b' = drop (width k) (content b) -> size b' = size b ->
     Q (int_value k (be_decode (take (width k) (content b)))) b') ->
  wp (read_int k) Q b.
Proof.
  intros Hwf Hn HQ. pose proof (content_length b Hwf) as Hl.
  assert (Hlt : length (take (width k) (content b)) = width k)
    by (rewrite length_take; lia).
  destruct k; simpl in *;
    unfold readInt8, readUint8, readInt16, readUint16, readInt32, readUint32, readInt64,
      readUint64, peekInt8, peekUint8, peekInt16, peekUint16, peekInt32, peekUint32,
      peekInt64, peekUint64, retrieveInt8, retrieveInt16, retrieveUint16,
      retrieveInt32, retrieveUint32, retrieveInt64, retrieveUint64,
      networkToHost16, networkToHost32, networkToHost64;
    wp_simpl; (apply peek_object_wp; [done|simpl; lia|]); wp_simpl;
    (apply retrieve_wp; [done|lia|]); intros b' Hwf' Hc Hs _; wp_simpl;
    rewrite ?peek_object_be, ?int_of_mem_1 by (done || simpl; lia);
    try (by apply HQ).
  rewrite (wrap_u_id 8); [by apply HQ|].
  pose proof (be_decode_range (take 1 (content b))) as Hr. by rewrite Hlt in Hr.
Qed.

Lemma int_value_wire k x : in_range k x -> int_value k (be_decode (wire k x)) = x.
Proof.
  intros Hx. unfold wire, int_value. rewrite be_decode_encode.
  assert (Hidem : ∀ w z, wrap_u w (wrap_u w z) = wrap_u w z) by (intros; apply Zmod_mod).
  rewrite Hidem. unfold in_range in Hx. destruct (signed k) eqn:E.
  - apply wrap_s_u; [destruct k; simpl; lia|done].
  - by apply wrap_u_id.
Qed.

Lemma read_int_wire k x rest b (Q : Z -> Buffer -> Prop) : wf b -> in_range k x ->
  content b = wire k x ++ rest ->
  (∀ b', wf b' -> content b' = rest -> size b' = size b -> Q x b') ->
  wp (read_int k) Q b.
Proof.
  intros Hwf Hx Hc HQ. pose proof (content_length b Hwf) as Hl.
  rewrite Hc, length_app, wire_length in Hl.
  apply read_int_wp; [done|lia|]. intros b' ? Hc' ?.
  rewrite Hc, take_app_length' by (by rewrite wire_length).
  rewrite int_value_wire by done. apply HQ; [done| |done].
  rewrite Hc', Hc. apply drop_app_length'. by rewrite wire_length.
Qed.

Definition wires (vs : list (ikind * Z)) : bytes := mjoin ((λ '(k, x), wire k x) <$> vs).

Lemma append_ints_wp vs b (Q : unit -> Buffer -> Prop) : wf b ->
  Forall (λ '(k, x), in_range k x) vs ->
  size b + 8 * zlength vs <= vector_max_size ->
  (∀ b', wf b' -> content b' = content b ++ wires vs -> Q tt b') ->
  wp (for_each vs (λ '(k, x), append_int k x)) Q b.
Proof.
  revert b Q. induction vs as [|[k x] vs IH]; simpl; intros b Q Hwf Hr Hmax HQ.
  - wp_simpl. apply HQ; [done|]. by rewrite app_nil_r.
  - inversion Hr as [|? ? Hx Hr']; subst. wp_simpl. rewrite append_int_wire by done.
    pose proof Hwf as [].
    assert (length (wire k x) <= 8)%nat by (rewrite wire_length; destruct k; simpl; lia).
    pose proof (grown_le b (zlength (wire k x))).
    apply append_wp; [done|lia|lia|]. intros b1 Hwf1 Hc1 Hs1 _.
    apply IH; [done|done|lia|]. intros b2 Hwf2 Hc2. apply HQ; [done|].
    rewrite Hc2, Hc1. unfold wires. simpl. by rewrite app_assoc.
Qed.

Lemma read_ints_wp vs rest b (Q : list Z -> Buffer -> Prop) : wf b ->
  Forall (λ '(k, x), in_range k x) vs -> content b = wires vs ++ rest ->
  (∀ b', wf b' -> content b' = rest -> Q vs.*2 b') ->
  wp (read_ints vs.*1) Q b.
Proof.
  revert b Q. induction vs as [|[k x] vs IH]; simpl; intros b Q Hwf Hr Hc HQ.
  - by apply HQ.
  - inversion Hr as [|? ? Hx Hr']; subst. wp_simpl.
    apply (read_int_wire k x (wires vs ++ rest)); [done|done| |].
    { rewrite Hc. unfold wires; simpl. by rewrite app_assoc. }
    intros b1 Hwf1 Hc1 _. wp_simpl. apply IH; [done|done|done|].
    intros b2 Hwf2 Hc2. by apply HQ.
Qed.
End typed.

(** ** Searching: the line at the front of the buffer *)
Section lines.
Implicit Types b : Buffer.

(** The [crlf == beginWrite()] test of the source never fires. *)
Lemma findCRLF_memmem b : wf b ->
  findCRLF b = Ok ((λ i, peek b + Z.of_nat i) <$> memmem kCRLF (content b)).
Proof.
  intros Hwf. unfold findCRLF. rewrite read_mem_all by done. f_equal.
  destruct (memmem kCRLF (content b)) as [i|] eqn:E; [|done]. simpl.
  apply memmem_Some in E as [Hi _]. pose proof (content_length b Hwf) as Hl.
  rewrite wf_readable in Hl by done. unfold peek, beginWrite. simpl in Hi.
  rewrite (proj2 (Z.eqb_neq _ _)) by lia. done.
Qed.

Lemma memmem_split l i : memmem kCRLF l = Some i ->
  l = take i l ++ kCRLF ++ drop (i + 2) l ∧ (i + 2 <= length l)%nat.
Proof. intros [H1 H2]%memmem_Some. by split. Qed.

Lemma findEOL_memchr b : wf b ->
  findEOL b = Ok ((λ i, peek b + Z.of_nat i) <$> memchr ch_lf (content b)).
Proof. intros Hwf. unfold findEOL. by rewrite read_mem_all. Qed.
End lines.

(** * Properties *)

(** C10: A buffer is a double-ended byte queue.  From the constructor, any
    sequence of append, prepend, retrieve, retrieveAll, retrieveAsString,
    retrieveAllAsString, unwrite, ensureWritableBytes, shrink and toStringPiece
    calls that respects the contract of the queue (retrieve no more than is
    readable, prepend no more than the guaranteed headroom) and whose total
    growth stays below max_size() runs without a failed assertion or an
    out-of-bounds access, returns exactly what the queue returns, and ends in
    a well-formed buffer holding the queue's bytes. *)
Theorem buffer_refines_deque (initialSize : Z) (os : list op) (rs : list bytes)
    (q : Deque) (c : Z) :
  0 <= initialSize ->
  spec_all os (mkDeque [] kCheapPrepend) = Some (rs, q, c) ->
  kCheapPrepend + initialSize + c <= vector_max_size ->
  ∃ b0 b, Buffer_ctor initialSize = Ok b0 ∧ exec_all os b0 = Ok (rs, b)
          ∧ wf b ∧ content b = items q ∧ headroom q <= prependableBytes b.
Proof.
  intros H0 Hspec Hmax. pose proof (spec_all_cost _ _ _ _ _ Hspec).
  destruct (Buffer_ctor_represents initialSize) as (b0 & Hc & Hrep & Hsize); [lia..|].
  destruct (proj1 (wp_ok (exec_all os) (λ rs' b, rs' = rs ∧ represents b q) b0))
    as (rs' & b & He & -> & [Hwf Hi Hh]).
  { eapply exec_all_represents; [exact Hrep|exact Hspec|lia]. }
  exists b0, b. split_and!; try done. unfold prependableBytes. lia.
Qed.

Lemma buffer_refines_deque_witness :
  ∃ b0 b, Buffer_ctor 16 = Ok b0
    ∧ exec_all [OpAppend (str "hello world"); OpRetrieveAsString 6; OpPrepend (str "big ");
                OpAppend (str "0123456789ABCDEF"); OpUnwrite 3; OpShrink 4;
                OpRetrieveAllAsString] b0
      = Ok ([[]; str "hello "; []; []; []; []; str "big world0123456789ABC"], b)
    ∧ wf b ∧ content b = [] ∧ 8 <= prependableBytes b.
Proof.
  apply (buffer_refines_deque 16 _ _ (mkDeque [] 8) 53);
    [lia|vm_compute; reflexivity|vm_compute; discriminate].
Defined.

(** C19: Integers survive the wire.  Any list of values of the eight C integer
    types, appended with the matching append functions to an empty buffer and
    read back with the matching read functions, comes back unchanged and
    leaves the buffer empty; the bytes in between are the big-endian encodings
    of the values, in order; and a value prepended in front of any content is
    read back first and leaves that content.  Holds on hosts of either byte
    order. *)
Theorem ints_roundtrip {HE : HostEndian} (vs : list (ikind * Z)) (b : Buffer) :
  wf b -> content b = [] -> Forall (λ '(k, x), in_range k x) vs ->
  size b + 8 * zlength vs <= vector_max_size ->
  wp (for_each vs (λ '(k, x), append_int k x))
     (λ _ b1, content b1 = wires vs
              ∧ wp (read_ints vs.*1) (λ xs b2, xs = vs.*2 ∧ wf b2 ∧ content b2 = []) b1
              ∧ ∀ k x, in_range k x -> Z.of_nat (width k) <= prependableBytes b1 ->
                wp (prepend_int k x ;;; read_int k)
                   (λ y b2, y = x ∧ content b2 = content b1) b1) b.
Proof.
  intros Hwf Hc Hr Hmax. apply append_ints_wp; [done..|]. intros b1 Hwf1 Hc1.
  rewrite Hc in Hc1. simpl in Hc1. split_and!; [done| |].
  - eapply (read_ints_wp vs []); [done..|by rewrite app_nil_r|]. done.
  - intros k x Hx Hp. wp_simpl. rewrite prepend_int_wire by done.
    apply prepend_wp; [done|by rewrite wire_length|]. intros b2 Hwf2 Hc2 _ _.
    apply (read_int_wire k x (content b1)); done.
Qed.

Lemma ints_roundtrip_witness :
  let _ := little_endian_host in
  ∃ b, Buffer_ctor 4 = Ok b ∧
  wp (for_each [(I16, -2); (U64, 2 ^ 63); (I8, -128)] (λ '(k, x), append_int k x))
     (λ _ b1, content b1 = wires [(I16, -2); (U64, 2 ^ 63); (I8, -128)]
              ∧ wp (read_ints [I16; U64; I8])
                   (λ xs b2, xs = [-2; 2 ^ 63; -128] ∧ wf b2 ∧ content b2 = []) b1
              ∧ ∀ k x, in_range k x -> Z.of_nat (width k) <= prependableBytes b1 ->
                wp (prepend_int k x ;;; read_int k)
                   (λ y b2, y = x ∧ content b2 = content b1) b1) b.
Proof.
  intros HE. eexists. split; [reflexivity|].
  apply (ints_roundtrip [(I16, -2); (U64, 2 ^ 63); (I8, -128)]).
  - constructor; vm_compute; intuition congruence.
  - reflexivity.
  - repeat constructor; simpl; lia.
  - vm_compute. discriminate.
Defined.

(** C20: readFd loses nothing.  Whatever the kernel's scatter read delivers --
    into the writable part, or over into the 64 KiB stack buffer -- ends up
    behind the bytes already readable, in order; the result is the byte count;
    an error leaves the buffer untouched and saves errno; and when the stack
    buffer is offered, one call reads at most 128 KiB - 1. *)
Theorem readFd_appends (readv : list Z -> read_result) (b : Buffer) :
  wf b -> readv_bounded readv -> size b + extrabuf_size <= vector_max_size ->
  wp (readFd readv) (λ '(n, savedErrno) b',
    match readv (readFd_iov b) with
    | ReadErr e => n = -1 ∧ savedErrno = Some e ∧ b' = b
    | ReadBytes d => n = zlength d ∧ savedErrno = None ∧ wf b'
                     ∧ content b' = content b ++ d
                     ∧ (writableBytes b < extrabuf_size -> n <= 131071)
    end) b.
Proof.
  intros Hwf Hrv Hmax. apply readFd_wp; [done..| |].
  - intros e ->. done.
  - intros d b' Hd Hwf' Hc _ _. rewrite Hd. split_and!; try done.
    apply Hrv in Hd; [|apply readFd_iov_nonneg]. rewrite readFd_iov_total in Hd by done. intros Hlt.
    rewrite (proj2 (Z.ltb_lt _ _)) in Hd by done. unfold extrabuf_size in *. lia.
Qed.

Lemma readFd_appends_witness :
  ∃ b, Buffer_ctor 4 = Ok b ∧
  wp (readFd (λ iov, ReadBytes (take (Z.to_nat (foldr Z.add 0 iov)) (str "GET / HTTP/1.1"))))
     (λ '(n, savedErrno) b', n = 14 ∧ savedErrno = None ∧ wf b'
        ∧ content b' = str "GET / HTTP/1.1" ∧ (writableBytes b < extrabuf_size -> n <= 131071)) b.
Proof.
  eexists. split; [reflexivity|].
  eapply wp_mono.
  - apply (readFd_appends (λ iov, ReadBytes (take (Z.to_nat (foldr Z.add 0 iov))
                                               (str "GET / HTTP/1.1")))).
    + constructor; vm_compute; intuition congruence.
    + intros iov d Hi [= <-]. rewrite length_take.
      assert (0 <= foldr Z.add 0 iov) by (induction Hi; simpl; lia). lia.
    + vm_compute. discriminate.
  - intros [n e] b'. replace (readFd_iov _) with [4; 65536] by reflexivity.
    intros (-> & -> & ? & -> & ?). split_and!; try done.
Defined.

(** Line extraction.  findCRLF returns null exactly when the readable bytes
    hold no CRLF; otherwise it returns the position of the first one, no CRLF
    starts before it, and retrieveUntil(crlf + 2) removes precisely that line
    with its terminator. *)
Theorem findCRLF_line (b : Buffer) : wf b ->
  match findCRLF b with
  | Fault _ => False
  | Ok None => ∀ j, (j <= length (content b))%nat ->
                    is_prefix kCRLF (drop j (content b)) = false
  | Ok (Some crlf) =>
      ∃ line rest, content b = line ++ kCRLF ++ rest
        ∧ crlf = peek b + zlength line
        ∧ (∀ j, (j < length line)%nat -> is_prefix kCRLF (drop j (content b)) = false)
        ∧ wp (retrieveUntil (crlf + 2)) (λ _ b', wf b' ∧ content b' = rest) b
  end.
Proof.
  intros Hwf. rewrite findCRLF_memmem by done.
  destruct (memmem kCRLF (content b)) as [i|] eqn:E; cbn [fmap option_fmap option_map].
  - destruct (memmem_split _ _ E) as [Hs Hi].
    exists (take i (content b)), (drop (i + 2) (content b)).
    rewrite length_take. split_and!; [done|lia| |].
    + intros j Hj. apply (memmem_first _ _ _ _ E). lia.
    + rewrite <- Z.add_assoc. pose proof (content_length b Hwf).
      apply retrieveUntil_wp; [done|lia|]. intros b' ? Hc _. split; [done|].
      rewrite Hc. f_equal. lia.
  - intros j. apply (memmem_None _ _ _ E).
Qed.

Lemma findCRLF_line_witness :
  let b := mkBuffer (str "........Host: a") 8 15 in
  match findCRLF b with
  | Fault _ => False
  | Ok None => ∀ j, (j <= length (content b))%nat ->
                    is_prefix kCRLF (drop j (content b)) = false
  | Ok (Some crlf) =>
      ∃ line rest, content b = line ++ kCRLF ++ rest
        ∧ crlf = peek b + zlength line
        ∧ (∀ j, (j < length line)%nat -> is_prefix kCRLF (drop j (content b)) = false)
        ∧ wp (retrieveUntil (crlf + 2)) (λ _ b', wf b' ∧ content b' = rest) b
  end.
Proof. apply findCRLF_line. constructor; vm_compute; intuition congruence. Defined.


(** Space is reused before it is allocated.  append keeps the vector's size
    whenever the data fits behind the readable bytes, or fits once the readable
    bytes are moved to the front (leaving the 8 reserved bytes free); only
    otherwise does the vector grow, and then to exactly writerIndex_ + len.
    In every case all bytes are kept in order. *)
Theorem append_reuses_space (b : Buffer) (data : bytes) :
  wf b -> writerIndex_ b + zlength data <= vector_max_size ->
  wp (append data) (λ _ b',
    wf b' ∧ content b' = content b ++ data ∧
    size b' = if zlength data <=? Z.max (writableBytes b)
                                     (writableBytes b + prependableBytes b - kCheapPrepend)
              then size b else writerIndex_ b + zlength data) b.
Proof.
  intros Hwf Hmax. destruct (grown_room b (zlength data)); [done|lia..|].
  apply append_wp; [done..|]. intros b' Hwf' Hc Hs _.
  split_and!; [done|done|]. rewrite Hs. unfold grown.
  destruct (_ <=? _) eqn:E1, (_ && _) eqn:E2; bool_to_Z; try done; try lia.
Qed.

Lemma append_reuses_space_witness :
  let b := mkBuffer (replicate 30 (z2b 46)) 20 28 in
  wp (append (str "0123456789")) (λ _ b',
    wf b' ∧ content b' = content b ++ str "0123456789" ∧
    size b' = if 10 <=? Z.max (writableBytes b)
                           (writableBytes b + prependableBytes b - kCheapPrepend)
              then size b else writerIndex_ b + 10) b.
Proof.
  apply (append_reuses_space _ (str "0123456789"));
    [constructor; vm_compute; intuition congruence|vm_compute; discriminate].
Defined.
