(* ===== verification/Base.v ===== *)
(** * Base: the interface of the Base submodule that Lute uses

    [Timestamp] comes from the git submodule Base, whose sources are not part
    of the repository.  The model takes it as a class: the type, the operations
    the sources call on it, and -- in a second class, for the theorems that
    need it -- what doc/CoreClass.md and the callers rely on: a timestamp is a
    count of microseconds and is ordered by it. *)

From Stdlib Require Import ZArith Lia.
From Stdlib Require Import Floats.SpecFloat.
From S2P Require Import Prelude.

Local Open Scope Z_scope.

(** The C++ [double]: IEEE 754 binary64 values. *)
Abbreviation double := spec_float.

#[export] Instance double_eq_dec : EqDecision double.
Proof. solve_decision. Defined.

(** [x > 0.0]. *)
Definition double_pos (x : double) : bool := SFltb (S754_zero false) x.

Class BaseTime := {
  Timestamp : Type;
  Timestamp_eq_dec :: EqDecision Timestamp;
  microSecondsSinceEpoch : Timestamp -> Z;
  (** [Timestamp()], which is also [Timestamp::invalid()]. *)
  ts_invalid : Timestamp;
  ts_valid : Timestamp -> bool;
  (** [operator<]. *)
  ts_ltb : Timestamp -> Timestamp -> bool;
  (** [addTime(timestamp, seconds)]. *)
  addTime : Timestamp -> double -> Timestamp;
  kMicroSecondsPerSecond : Z;
}.

Class BaseTimeLaws (BT : BaseTime) := {
  ts_ltb_spec : ∀ a b : Timestamp,
    ts_ltb a b = true ↔ microSecondsSinceEpoch a < microSecondsSinceEpoch b;
  ts_micro_inj : ∀ a b : Timestamp,
    microSecondsSinceEpoch a = microSecondsSinceEpoch b -> a = b;
  ts_valid_spec : ∀ a : Timestamp, ts_valid a = true ↔ 0 < microSecondsSinceEpoch a;
  kMicroSecondsPerSecond_spec : kMicroSecondsPerSecond = 1000000;
  addTime_later : ∀ (t : Timestamp) s, double_pos s = true ->
    microSecondsSinceEpoch t <= microSecondsSinceEpoch (addTime t s);
}.

(** A concrete instance, used by the witnesses: microseconds as integers, and
    [addTime] for the whole numbers of seconds the witnesses use. *)
Definition double_to_Z (x : double) : Z :=
  match x with
  | S754_finite s m e =>
      let v := Z.shiftl (Zpos m) e in if s then - v else v
  | _ => 0
  end.

Definition no_interval : double := S754_zero false.
Definition whole (n : positive) : double := S754_finite false n 0.

#[export] Instance micros : BaseTime := {|
  Timestamp := Z;
  microSecondsSinceEpoch := λ t, t;
  ts_invalid := 0;
  ts_valid := λ t, 0 <? t;
  ts_ltb := Z.ltb;
  addTime := λ t s, t + 1000000 * double_to_Z s;
  kMicroSecondsPerSecond := 1000000;
|}.

(** A timestamp of the concrete instance. *)
Definition tick (n : Z) : @Timestamp micros := n.

#[export] Instance micros_laws : BaseTimeLaws micros.
Proof.
  constructor; simpl; intros; try done; try apply Z.ltb_lt.
  destruct s as [| | |[] m e]; simpl; try lia; [done|].
  pose proof (Z.shiftl_nonneg (Zpos m) e). lia.
Qed.
