(* ===== verification/InetAddress.v ===== *)
(** * InetAddress: socket addresses (InetAddress.h and .cc, the address functions of Sockets.cc)

    An [InetAddress] is a union of [sockaddr_in] and [sockaddr_in6]: 28 bytes of
    memory, in which both views have the family at offset 0 and the port at
    offset 2.  The fields are read and written through the object representation
    of their integers ([HostEndian] in Bytes.v).

    [inet_ntop], [inet_pton] and [gethostbyname_r] belong to the C library and
    are parameters.  Not modelled: the text of log messages. *)

From Stdlib Require Import ZArith Lia.
From stdpp Require Import list.
From coqutil Require Import Word.LittleEndianList.
From S2P Require Import Prelude Bytes.

Local Open Scope Z_scope.

Definition AF_INET : Z := 2.
Definition AF_INET6 : Z := 10.
Definition INADDR_ANY : Z := 0.
Definition INADDR_LOOPBACK : Z := 2130706433.
Definition INET_ADDRSTRLEN : Z := 16.
Definition INET6_ADDRSTRLEN : Z := 46.
Definition sizeof_sockaddr_in : Z := 16.
Definition sizeof_sockaddr_in6 : Z := 28.

(** The C library.  [inet_ntop] is given a buffer of at least INET_ADDRSTRLEN,
    respectively INET6_ADDRSTRLEN bytes; [inet_pton] returns 1 and the address,
    or does not write it; a host entry has a type and an address. *)
Class Inet := {
  inet_ntop : Z -> bytes -> bytes;
  inet_pton : Z -> bytes -> option bytes;
  gethostbyname : bytes -> option (Z * bytes);
}.

Definition addr_length (family : Z) : nat := if family =? AF_INET6 then 16%nat else 4%nat.

Class InetLaws (IN : Inet) := {
  ntop_length : ∀ a, length a = 4%nat -> zlength (inet_ntop AF_INET a) < INET_ADDRSTRLEN;
  ntop6_length : ∀ a, length a = 16%nat -> zlength (inet_ntop AF_INET6 a) < INET6_ADDRSTRLEN;
  ntop_no_nul : ∀ family a, ch_nul ∉ inet_ntop family a;
  pton_ntop : ∀ family a, family = AF_INET ∨ family = AF_INET6 -> length a = addr_length family ->
    inet_pton family (inet_ntop family a) = Some a;
  pton_length : ∀ family s a, inet_pton family s = Some a -> length a = addr_length family;
}.

Abbreviation sockaddr := bytes.

Section addresses.
Context {HE : HostEndian} {IN : Inet}.

(** ** The fields *)
Definition get (off n : Z) (m : sockaddr) : Z := int_of_mem (slice off (off + n) m).
Definition put (off : Z) (n : nat) (z : Z) (m : sockaddr) : sockaddr := splice m off (mem_of_int n z).

Definition memZero (n : Z) (m : sockaddr) : sockaddr := splice m 0 (replicate (Z.to_nat n) (z2b 0)).

Definition family (m : sockaddr) : Z := get 0 2 m.
Definition portNetEndian (m : sockaddr) : Z := get 2 2 m.
Definition s_addr (m : sockaddr) : Z := get 4 4 m.
Definition sin_addr (m : sockaddr) : bytes := slice 4 8 m.
Definition sin6_addr (m : sockaddr) : bytes := slice 8 24 m.
Definition sin6_scope_id (m : sockaddr) : Z := get 24 4 m.

Definition in6addr_any : bytes := replicate 16 (z2b 0).
Definition in6addr_loopback : bytes := replicate 15 (z2b 0) ++ [z2b 1].

(** ** Sockets.cc: text and addresses *)

(** [buf] is the C string in the buffer of [size] bytes. *)
Definition sockets_toIp (buf : bytes) (size : Z) (addr : sockaddr) : result bytes :=
  if family addr =? AF_INET then
    if INET_ADDRSTRLEN <=? size then Ok (inet_ntop AF_INET (sin_addr addr)) else Fault AssertFailed
  else if family addr =? AF_INET6 then
    if INET6_ADDRSTRLEN <=? size then Ok (inet_ntop AF_INET6 (sin6_addr addr)) else Fault AssertFailed
  else Ok buf.

Definition sockets_toIpPort (buf : bytes) (size : Z) (addr : sockaddr) : result bytes :=
  match sockets_toIp buf size addr with
  | Ok ip =>
      let end_ := zlength ip in
      let port := networkToHost16 (portNetEndian addr) in
      if end_ <? size
      then Ok (ip ++ snprintf (Z.to_nat (size - end_)) (str ":" ++ print_u port))
      else Fault AssertFailed
  | Fault f => Fault f
  end.

(** The two overloads of [fromIpPort], for IPv4 and for IPv6; an address
    that cannot be parsed is logged and left as it was. *)
Definition fromIpPort (ip : bytes) (port : Z) (addr : sockaddr) : sockaddr :=
  let addr := put 2 2 (hostToNetwork16 port) (put 0 2 AF_INET addr) in
  match inet_pton AF_INET ip with Some a => splice addr 4 a | None => addr end.

Definition fromIpPort6 (ip : bytes) (port : Z) (addr : sockaddr) : sockaddr :=
  let addr := put 2 2 (hostToNetwork16 port) (put 0 2 AF_INET6 addr) in
  match inet_pton AF_INET6 ip with Some a => splice addr 8 a | None => addr end.

(** What [getsockname] or [getpeername] wrote, if it succeeded. *)
Definition getLocalAddr (name : option bytes) : sockaddr :=
  let localaddr := replicate (Z.to_nat sizeof_sockaddr_in6) (z2b 0) in
  match name with Some d => splice localaddr 0 d | None => localaddr end.
Definition getPeerAddr (name : option bytes) : sockaddr := getLocalAddr name.

Definition isSelfConnect (localname peername : option bytes) : bool :=
  let localaddr := getLocalAddr localname in
  let peeraddr := getPeerAddr peername in
  if family localaddr =? AF_INET then
    (portNetEndian localaddr =? portNetEndian peeraddr) && (s_addr localaddr =? s_addr peeraddr)
  else if family localaddr =? AF_INET6 then
    (portNetEndian localaddr =? portNetEndian peeraddr)
    && bool_decide (sin6_addr localaddr = sin6_addr peeraddr)
  else false.

(** ** InetAddress

    [m] is the memory the object is constructed in. *)
Definition InetAddress_any (m : sockaddr) (port : Z) (loopbackOnly ipv6 : bool) : sockaddr :=
  if ipv6 then
    let m := put 0 2 AF_INET6 (memZero sizeof_sockaddr_in6 m) in
    let m := splice m 8 (if loopbackOnly then in6addr_loopback else in6addr_any) in
    put 2 2 (hostToNetwork16 port) m
  else
    let m := put 0 2 AF_INET (memZero sizeof_sockaddr_in m) in
    let ip := if loopbackOnly then INADDR_LOOPBACK else INADDR_ANY in
    put 2 2 (hostToNetwork16 port) (put 4 4 (hostToNetwork32 ip) m).

Definition InetAddress_ip (m : sockaddr) (ip : bytes) (port : Z) (ipv6 : bool) : sockaddr :=
  if ipv6 then fromIpPort6 (c_string ip) port (memZero sizeof_sockaddr_in6 m)
  else fromIpPort (c_string ip) port (memZero sizeof_sockaddr_in6 m).

Definition toIpPort (m : sockaddr) : result bytes := sockets_toIpPort [] 64 m.
Definition toIp (m : sockaddr) : result bytes := sockets_toIp [] 64 m.

Definition ipNetEndian (m : sockaddr) : result Z :=
  if family m =? AF_INET then Ok (s_addr m) else Fault AssertFailed.

Definition toPort (m : sockaddr) : Z := networkToHost16 (portNetEndian m).

Definition setSockAddrInet6 (addr6 : sockaddr) (_ : sockaddr) : sockaddr := addr6.

Definition resolve (hostname : bytes) (out : sockaddr) : result (bool * sockaddr) :=
  match gethostbyname (c_string hostname) with
  | Some (addrtype, a) =>
      if (addrtype =? AF_INET) && (zlength a =? 4) then Ok (true, splice out 4 a) else Fault AssertFailed
  | None => Ok (false, out)
  end.

Definition setScopeId (scope_id : Z) (m : sockaddr) : sockaddr :=
  if family m =? AF_INET6 then put 24 4 scope_id m else m.
End addresses.

(** ** Memory *)
Section memory.
Context {HE : HostEndian}.
Implicit Types m d : sockaddr.

Lemma int_of_mem_of_int n z : int_of_mem (mem_of_int n z) = wrap_u (Z.of_nat n * 8) z.
Proof.
  unfold int_of_mem, mem_of_int. destruct host_little; rewrite ?rev_involutive; apply le_combine_split.
Qed.

Lemma int_of_mem_inj a b : length a = length b -> int_of_mem a = int_of_mem b -> a = b.
Proof.
  intros Hl. unfold int_of_mem. intros H.
  assert (Hinj : ∀ x y, length x = length y -> le_combine x = le_combine y -> x = y).
  { intros x y Hxy He. rewrite <- (split_le_combine' x (length x) eq_refl), He, Hxy.
    by apply split_le_combine'. }
  destruct host_little; [by apply Hinj|].
  rewrite <- (rev_involutive a), <- (rev_involutive b). f_equal. apply Hinj; [|done].
  by rewrite !length_rev.
Qed.

Lemma length_put off n z m : 0 <= off -> off + Z.of_nat n <= zlength m ->
  zlength (put off n z m) = zlength m.
Proof. intros. unfold put. apply splice_length; rewrite ?mem_of_int_length; lia. Qed.

Lemma get_put_same off n z m : 0 <= off -> off + Z.of_nat n <= zlength m ->
  get off (Z.of_nat n) (put off n z m) = wrap_u (Z.of_nat n * 8) z.
Proof.
  intros. unfold get, put. rewrite <- int_of_mem_of_int. f_equal.
  rewrite <- (mem_of_int_length n z) at 1. apply slice_splice_same; rewrite ?mem_of_int_length; lia.
Qed.

(** What a write of [d] at [off] leaves of another part of the memory. *)
Lemma slice_elsewhere off d m a b : 0 <= off -> off + zlength d <= zlength m ->
  0 <= a -> b <= off ∨ off + zlength d <= a -> slice a b (splice m off d) = slice a b m.
Proof. intros ? ? ? [?|?]; [by apply slice_splice_below|by apply slice_splice_above]. Qed.

Lemma splice_slice off n m : 0 <= off -> off + Z.of_nat n <= zlength m ->
  splice m off (slice off (off + Z.of_nat n) m) = m.
Proof.
  intros. unfold splice, slice. rewrite length_take, length_drop.
  replace (Z.to_nat (off + Z.of_nat n - off)) with n by lia.
  rewrite <- drop_drop, Nat.min_l by lia. by rewrite take_drop, take_drop.
Qed.

Lemma slice_put off n z m a b : 0 <= off -> off + Z.of_nat n <= zlength m ->
  0 <= a -> b <= off ∨ off + Z.of_nat n <= a -> slice a b (put off n z m) = slice a b m.
Proof. intros. apply slice_elsewhere; rewrite ?mem_of_int_length; lia. Qed.
End memory.

(** ** What an address means *)
Inductive endpoint := Ipv4 (ip : bytes) (port : Z) | Ipv6 (ip : bytes) (port : Z).

#[export] Instance endpoint_eq_dec : EqDecision endpoint.
Proof. solve_decision. Defined.

Section meaning.
#[local] Set Default Proof Using "Type*".
Context {HE : HostEndian} {IN : Inet} {IL : InetLaws IN}.
Implicit Types m d : sockaddr.

Definition endpoint_of m : option endpoint :=
  if family m =? AF_INET then Some (Ipv4 (sin_addr m) (toPort m))
  else if family m =? AF_INET6 then Some (Ipv6 (sin6_addr m) (toPort m))
  else None.

Lemma toPort_decode m : zlength m = 28 -> toPort m = be_decode (slice 2 4 m).
Proof using Type.
  intros Hm. unfold toPort, networkToHost16, portNetEndian, get. apply betoh_int_of_mem.
  pose proof (slice_length 2 4 m). lia.
Qed.

Lemma toPort_put m p : zlength m = 28 -> 0 <= p < 2 ^ 16 ->
  toPort (put 2 2 (hostToNetwork16 p) m) = p.
Proof using Type.
  intros Hm Hp. rewrite toPort_decode by (rewrite length_put; lia).
  unfold put, hostToNetwork16. rewrite mem_of_int_htobe.
  pose proof (slice_splice_same m 2 (be_encode 2 p)) as Hs. rewrite be_encode_length in Hs.
  change (2 + Z.of_nat 2) with 4 in Hs. rewrite Hs by lia. rewrite be_decode_encode.
  by apply wrap_u_id.
Qed.

Lemma toPort_range m : zlength m = 28 -> 0 <= toPort m < 2 ^ 16.
Proof using Type.
  intros Hm. rewrite toPort_decode by done. pose proof (be_decode_range (slice 2 4 m)) as H.
  pose proof (slice_length 2 4 m ltac:(lia) ltac:(lia)) as Hl. rewrite Hl in H. exact H.
Qed.

Lemma length_memZero n m : 0 <= n <= zlength m -> zlength (memZero n m) = zlength m.
Proof using Type. intros. apply splice_length; rewrite ?length_replicate; lia. Qed.

(** The text of an address, and how long it is. *)
Lemma toIp_text m : zlength m = 28 -> is_Some (endpoint_of m) ->
  toIp m = Ok (match endpoint_of m with
               | Some (Ipv4 ip _) => inet_ntop AF_INET ip
               | Some (Ipv6 ip _) => inet_ntop AF_INET6 ip
               | None => [] end).
Proof using Type.
  intros Hm. unfold toIp, sockets_toIp, endpoint_of.
  destruct (family m =? AF_INET); [done|]. destruct (family m =? AF_INET6); [done|by intros []].
Qed.

Lemma toIp_length m text : zlength m = 28 -> toIp m = Ok text -> zlength text < INET6_ADDRSTRLEN.
Proof.
  intros Hm. unfold toIp, sockets_toIp. destruct (family m =? AF_INET); cbn; [|destruct (family m =? AF_INET6); cbn].
  - intros [= <-]. pose proof (ntop_length (sin_addr m)) as H. unfold INET_ADDRSTRLEN, INET6_ADDRSTRLEN in *.
    pose proof (slice_length 4 8 m). unfold sin_addr in *. lia.
  - intros [= <-]. apply ntop6_length. pose proof (slice_length 8 24 m). unfold sin6_addr. lia.
  - intros [= <-]. done.
Qed.

Lemma toIpPort_text m text : zlength m = 28 -> toIp m = Ok text ->
  toIpPort m = Ok (text ++ str ":" ++ print_u (toPort m))
  ∧ (length (text ++ str ":" ++ print_u (toPort m)) <= 51)%nat.
Proof.
  intros Hm Ht. pose proof (toIp_length m text Hm Ht) as Hl. unfold INET6_ADDRSTRLEN in Hl.
  pose proof (toPort_range m Hm) as Hp. pose proof (print_u_length 5 (toPort m) ltac:(lia) ltac:(lia)) as Hu.
  split; [|rewrite !length_app; change (length (str ":")) with 1%nat; lia].
  unfold toIpPort, sockets_toIpPort. unfold toIp in Ht. rewrite Ht. fold (toPort m).
  rewrite (proj2 (Z.ltb_lt _ _)) by lia. rewrite snprintf_fits; [done|].
  rewrite length_app. change (length (str ":")) with 1%nat. lia.
Qed.

(** Constructing from text: [a] is what [inet_pton] makes of it. *)
Lemma InetAddress_ip_endpoint m ip p (ipv6 : bool) : zlength m = 28 -> 0 <= p < 2 ^ 16 ->
  let a := default (replicate (if ipv6 then 16 else 4) (z2b 0))
             (inet_pton (if ipv6 then AF_INET6 else AF_INET) (c_string ip)) in
  endpoint_of (InetAddress_ip m ip p ipv6) = Some (if ipv6 then Ipv6 a p else Ipv4 a p)
  ∧ zlength (InetAddress_ip m ip p ipv6) = 28.
Proof.
  intros Hm Hp a. set (z := memZero sizeof_sockaddr_in6 m).
  assert (Hz : z = replicate 28 (z2b 0)).
  { unfold z, memZero, splice. rewrite drop_ge by (rewrite length_replicate; change (Z.to_nat sizeof_sockaddr_in6) with 28%nat; lia).
    change (Z.to_nat 0) with 0%nat. by rewrite app_nil_r. }
  assert (Hzl : zlength z = 28) by (by rewrite Hz, length_replicate).
  assert (Hgen : ∀ (af : Z) (off : Z) (x : bytes), 0 <= af < 2 ^ 16 -> off = 4 ∨ off = 8 ->
    off + zlength x <= 28 ->
    let r := splice (put 2 2 (hostToNetwork16 p) (put 0 2 af z)) off x in
    zlength r = 28 ∧ family r = af ∧ toPort r = p ∧ slice off (off + zlength x) r = x).
  { intros af off x Haf Hoff Hx r.
    assert (H1 : zlength (put 0 2 af z) = 28) by (rewrite length_put; lia).
    assert (H2 : zlength (put 2 2 (hostToNetwork16 p) (put 0 2 af z)) = 28) by (rewrite length_put; lia).
    assert (Hr : zlength r = 28) by (unfold r; rewrite splice_length; lia).
    split_and!; [done| | |apply slice_splice_same; lia].
    - unfold family, get, r. rewrite slice_elsewhere by lia. rewrite slice_put by lia.
      change (int_of_mem _) with (get 0 (Z.of_nat 2) (put 0 2 af z)).
      rewrite get_put_same by lia. by apply wrap_u_id.
    - rewrite toPort_decode by done. unfold r. rewrite slice_elsewhere by lia.
      rewrite <- toPort_decode by done. by apply toPort_put. }
  assert (Hnone : ∀ (af off : Z) n, off = 4 ∨ off = 8 -> off + Z.of_nat n <= 28 ->
    let y := put 2 2 (hostToNetwork16 p) (put 0 2 af z) in splice y off (replicate n (z2b 0)) = y).
  { intros af off n Hoff Hn y. assert (Hzs : slice off (off + Z.of_nat n) y = replicate n (z2b 0)).
    { unfold y. rewrite !slice_put by (rewrite ?length_put; lia). rewrite Hz. unfold slice.
      rewrite drop_replicate, take_replicate. f_equal. lia. }
    rewrite <- Hzs. apply splice_slice; [lia|]. unfold y. rewrite !length_put by (rewrite ?length_put; lia). lia. }
  unfold InetAddress_ip, fromIpPort6, fromIpPort. fold z.
  assert (Hfam : 0 <= AF_INET < 2 ^ 16 ∧ 0 <= AF_INET6 < 2 ^ 16) by by vm_compute.
  assert (Ha : length a = if ipv6 then 16%nat else 4%nat).
  { subst a. destruct (inet_pton _ _) as [x|] eqn:E; cbn; [|by rewrite length_replicate; destruct ipv6].
    rewrite (pton_length _ _ _ E). by destruct ipv6. }
  assert (Hres : ∀ (af off : Z) n, off = 4 ∨ off = 8 -> off + Z.of_nat n <= 28 ->
    let y := put 2 2 (hostToNetwork16 p) (put 0 2 af z) in
    match inet_pton af (c_string ip) with Some x => splice y off x | None => y end
    = splice y off (default (replicate n (z2b 0)) (inet_pton af (c_string ip)))).
  { intros af off n Hoff Hn y. destruct (inet_pton af (c_string ip)); [done|]. cbn. unfold y. by rewrite Hnone. }
  destruct ipv6; unfold endpoint_of.
  - rewrite (Hres AF_INET6 8 16%nat) by (by right || lia). fold a.
    destruct (Hgen AF_INET6 8 a ltac:(apply Hfam) ltac:(by right) ltac:(rewrite Ha; lia)) as (Hl & Hf & Ht & Hs).
    rewrite Hf, Ht. split; [|done]. cbn. unfold sin6_addr. rewrite Ha in Hs. change (8 + Z.of_nat 16) with 24 in Hs. by rewrite Hs.
  - rewrite (Hres AF_INET 4 4%nat) by (by left || lia). fold a.
    destruct (Hgen AF_INET 4 a ltac:(apply Hfam) ltac:(by left) ltac:(rewrite Ha; lia)) as (Hl & Hf & Ht & Hs).
    rewrite Hf, Ht. split; [|done]. cbn. unfold sin_addr. rewrite Ha in Hs. change (4 + Z.of_nat 4) with 8 in Hs. by rewrite Hs.
Qed.

Lemma getLocalAddr_length name : (∀ d, name = Some d -> zlength d <= 28) -> zlength (getLocalAddr name) = 28.
Proof using Type.
  intros H. unfold getLocalAddr. destruct name as [d|]; [|done].
  rewrite splice_length; [done|lia|]. specialize (H d eq_refl).
  rewrite length_replicate. change (Z.of_nat (Z.to_nat sizeof_sockaddr_in6)) with 28. lia.
Qed.

Lemma get_eq m m' off n : zlength m = 28 -> zlength m' = 28 -> 0 <= off -> 0 <= n -> off + n <= 28 ->
  get off n m = get off n m' ↔ slice off (off + n) m = slice off (off + n) m'.
Proof using Type.
  intros. unfold get. split; [|congruence]. apply int_of_mem_inj.
  pose proof (slice_length off (off + n) m). pose proof (slice_length off (off + n) m'). lia.
Qed.

Lemma port_eq m m' : zlength m = 28 -> zlength m' = 28 ->
  portNetEndian m = portNetEndian m' ↔ toPort m = toPort m'.
Proof using Type.
  intros Hm Hm'. split; [unfold toPort; congruence|]. rewrite !toPort_decode by done. intros H.
  apply get_eq; try done; try lia. change (2 + 2) with 4.
  pose proof (slice_length 2 4 m) as L. pose proof (slice_length 2 4 m') as L'.
  unfold be_decode in H. assert (Hr : rev (slice 2 4 m) = rev (slice 2 4 m')).
  { rewrite <- (split_le_combine' (rev (slice 2 4 m)) 2), H by (rewrite length_rev; lia).
    apply split_le_combine'. rewrite length_rev; lia. }
  rewrite <- (rev_involutive (slice 2 4 m)), Hr. apply rev_involutive.
Qed.
End meaning.

(** C34: Addresses and their text.  For an IPv4 or IPv6 address in any 28 bytes of
    memory, toIp succeeds, toIpPort is its text followed by a colon and the port in
    decimal -- never more than 51 characters, so nothing of it is cut -- and the
    address constructed from that text and port, in whatever memory, has the same
    family, address and port and prints the same.  (Flow label and scope of an
    IPv6 address are not in the text.) *)
Theorem address_roundtrip {HE : HostEndian} {IN : Inet} {IL : InetLaws IN} (m junk : sockaddr) :
  zlength m = 28 -> zlength junk = 28 -> is_Some (endpoint_of m) ->
  ∃ text, toIp m = Ok text
    ∧ toIpPort m = Ok (text ++ str ":" ++ print_u (toPort m))
    ∧ (length (text ++ str ":" ++ print_u (toPort m)) <= 51)%nat
    ∧ let m' := InetAddress_ip junk text (toPort m) (family m =? AF_INET6) in
      endpoint_of m' = endpoint_of m ∧ toIpPort m' = toIpPort m.
Proof.
  intros Hm Hj He. pose proof (toIp_text m Hm He) as Ht. eexists. split; [exact Ht|].
  destruct (toIpPort_text m _ Hm Ht) as [Htp Hlen]. split; [done|]. split; [done|]. intros m'.
  set (text := match endpoint_of m with Some (Ipv4 ip _) => _ | Some (Ipv6 ip _) => _ | None => _ end) in *.
  destruct (InetAddress_ip_endpoint junk text (toPort m) (family m =? AF_INET6) Hj (toPort_range m Hm))
    as [He' Hl']. fold m' in He', Hl'.
  assert (Heq : endpoint_of m' = endpoint_of m).
  { rewrite He'. unfold text, endpoint_of in He |- *.
    pose proof (slice_length 4 8 m). pose proof (slice_length 8 24 m).
    destruct (family m =? AF_INET) eqn:E4; bool_to_Z.
    - rewrite E4. cbn. rewrite c_string_id, pton_ntop by (by left || apply ntop_no_nul ||
        (unfold sin_addr, addr_length; cbn; lia)). done.
    - destruct (family m =? AF_INET6) eqn:E6; bool_to_Z; [|by destruct He].
      rewrite c_string_id, pton_ntop by (by right || apply ntop_no_nul ||
        (unfold sin6_addr, addr_length; cbn; lia)). done. }
  split; [done|].
  assert (Hp : toPort m' = toPort m).
  { revert Heq. unfold endpoint_of in He |- *. destruct (family m =? AF_INET), (family m' =? AF_INET);
      try destruct (family m =? AF_INET6); try destruct (family m' =? AF_INET6); try (by destruct He); congruence. }
  assert (He2 : is_Some (endpoint_of m')) by by rewrite Heq.
  pose proof (toIp_text m' Hl' He2) as Ht'. rewrite Heq in Ht'.
  rewrite (proj1 (toIpPort_text m' _ Hl' Ht')), Htp, Hp. done.
Qed.

(** Self connection.  isSelfConnect is true exactly when the two ends of the
    socket are the same IPv4 or IPv6 endpoint; when getsockname or getpeername
    fails the address is all zeros and counts as no endpoint. *)
Theorem isSelfConnect_spec {HE : HostEndian} (localname peername : option bytes) :
  (∀ d, localname = Some d -> zlength d <= 28) -> (∀ d, peername = Some d -> zlength d <= 28) ->
  let l := getLocalAddr localname in
  let p := getPeerAddr peername in
  family l = family p ->
  isSelfConnect localname peername = true ↔ is_Some (endpoint_of l) ∧ endpoint_of l = endpoint_of p.
Proof.
  intros Hl Hp l p Hfam.
  pose proof (getLocalAddr_length localname Hl) as Ll. pose proof (getLocalAddr_length peername Hp) as Lp.
  fold l in Ll. change (zlength p = 28) in Lp.
  unfold isSelfConnect. fold l. fold p. unfold endpoint_of. rewrite <- Hfam.
  destruct (family l =? AF_INET).
  - rewrite andb_true_iff, !Z.eqb_eq, port_eq by done. unfold s_addr, sin_addr.
    rewrite (get_eq l p 4 4) by (done || lia). change (4 + 4) with 8.
    split; [intros [-> ->]; by split; [eexists|]|intros [_ H]; by injection H].
  - destruct (family l =? AF_INET6); [|by split; [|intros [[? [=]] _]]].
    rewrite andb_true_iff, Z.eqb_eq, port_eq, bool_decide_eq_true by done.
    split; [intros [-> ->]; by split; [eexists|]|intros [_ H]; by injection H].
Qed.

(** ** A concrete [inet_ntop] and [inet_pton]

    Dotted decimal for IPv4, eight full groups of hexadecimal digits for IPv6. *)
Definition ch_dot : Byte.byte := z2b 46.

Fixpoint dotted (a : bytes) : bytes :=
  match a with
  | [] => []
  | [b] => print_u (b2z b)
  | b :: a' => print_u (b2z b) ++ ch_dot :: dotted a'
  end.

Fixpoint undotted (n : nat) (s : bytes) : bytes :=
  match n with
  | O => []
  | S n' => z2b (dec_value (take (find_byte ch_dot s) s)) :: undotted n' (drop (S (find_byte ch_dot s)) s)
  end.

Definition hex_digit (n : Z) : Byte.byte := z2b (if n <? 10 then 48 + n else 87 + n).
Definition hex_value (c : Byte.byte) : Z := if b2z c <? 58 then b2z c - 48 else b2z c - 87.
Definition hex (b : Byte.byte) : bytes := [hex_digit (b2z b / 16); hex_digit (b2z b `mod` 16)].

Fixpoint groups (a : bytes) : bytes :=
  match a with
  | [] => []
  | [b] => hex b
  | [b1; b2] => hex b1 ++ hex b2
  | b1 :: b2 :: a' => hex b1 ++ hex b2 ++ ch_colon :: groups a'
  end.

Fixpoint unhex (s : bytes) : bytes :=
  match s with
  | c1 :: c2 :: s' => z2b (16 * hex_value c1 + hex_value c2) :: unhex s'
  | _ => []
  end.

Definition exactly (n : nat) (a : bytes) : option bytes := if bool_decide (length a = n) then Some a else None.

Definition plain_inet : Inet := {|
  inet_ntop := λ family a, if family =? AF_INET6 then groups a else dotted a;
  inet_pton := λ family s, if family =? AF_INET6 then exactly 16 (unhex (filter (λ c, c ≠ ch_colon) s))
                           else exactly 4 (undotted 4 s);
  gethostbyname := λ _, None;
|}.

Lemma byte_digits b : Forall (λ c, c ≠ ch_dot ∧ c ≠ ch_nul) (print_u (b2z b)).
Proof.
  pose proof (b2z_range b). eapply Forall_impl; [apply dec_digits_digit; lia|].
  intros c Hc. cbn in Hc. by split; intros ->.
Qed.

Lemma byte_hex b : Forall (λ c, c ≠ ch_colon ∧ c ≠ ch_nul) (hex b) ∧ unhex (hex b) = [b].
Proof. destruct b; (split; [repeat constructor; done|done]). Qed.

Lemma dotted_undotted a : undotted (length a) (dotted a) = a.
Proof.
  assert (Hb : ∀ b t, z2b (dec_value (take (find_byte ch_dot (print_u (b2z b) ++ ch_dot :: t))
      (print_u (b2z b) ++ ch_dot :: t))) = b
    ∧ drop (S (find_byte ch_dot (print_u (b2z b) ++ ch_dot :: t))) (print_u (b2z b) ++ ch_dot :: t) = t).
  { intros b t. assert (Hn : ch_dot ∉ print_u (b2z b)).
    { intros Hin. pose proof (byte_digits b) as Hd. rewrite Forall_forall in Hd. by destruct (Hd _ Hin). }
    rewrite find_byte_app, take_app_length by done. split.
    - unfold print_u. rewrite dec_digits_value, z2b_b2z; [done|]. pose proof (b2z_range b). lia.
    - rewrite drop_app_ge by lia. by replace (S _ - _)%nat with 1%nat by lia. }
  induction a as [|b [|b' a] IH]; [done| |].
  - cbn [dotted length undotted]. assert (Hn : ch_dot ∉ print_u (b2z b)).
    { intros Hin. pose proof (byte_digits b) as Hd. rewrite Forall_forall in Hd. by destruct (Hd _ Hin). }
    rewrite (proj1 (find_byte_None _ _) Hn), firstn_all. unfold print_u.
    rewrite dec_digits_value, z2b_b2z; [done|]. pose proof (b2z_range b). lia.
  - change (dotted (b :: b' :: a)) with (print_u (b2z b) ++ ch_dot :: dotted (b' :: a)).
    destruct (Hb b (dotted (b' :: a))) as [H1 H2].
    change (length (b :: b' :: a)) with (S (length (b' :: a))). cbn [undotted]. rewrite H1, H2.
    by apply (f_equal (cons b)).
Qed.

Lemma filter_colon l : Forall (λ c, c ≠ ch_colon ∧ c ≠ ch_nul) l -> filter (λ c, c ≠ ch_colon) l = l.
Proof.
  induction 1 as [|c l [Hc _] _ IH]; [done|]. by rewrite filter_cons_True, IH.
Qed.

Lemma unhex_hex b s : unhex (hex b ++ s) = b :: unhex s.
Proof. cbn. f_equal. by destruct b. Qed.

Lemma groups_unhex n a : (length a <= n)%nat -> unhex (filter (λ c, c ≠ ch_colon) (groups a)) = a.
Proof.
  revert a. induction n as [|n IH]; intros [|b1 [|b2 [|b3 a]]] Hn; try (cbn in Hn; lia); try done.
  - cbn [groups]. rewrite filter_colon by apply byte_hex. apply byte_hex.
  - cbn [groups]. rewrite filter_app, !filter_colon by apply byte_hex. by rewrite unhex_hex, (proj2 (byte_hex b2)).
  - change (groups (b1 :: b2 :: b3 :: a)) with (hex b1 ++ hex b2 ++ ch_colon :: groups (b3 :: a)).
    rewrite !filter_app, !filter_colon by apply byte_hex. rewrite filter_cons_False by (intros H; by apply H).
    rewrite !unhex_hex, IH; [done|]. cbn in *. lia.
Qed.

Lemma groups_length a : length a = 16%nat -> length (groups a) = 39%nat.
Proof. intros H. do 17 (destruct a as [|? a]; try done). Qed.

Lemma byte_length b : (length (print_u (b2z b)) <= 3)%nat.
Proof. pose proof (b2z_range b). apply print_u_length; cbn; lia. Qed.

Lemma dotted_length a : a <> [] -> (S (length (dotted a)) <= 4 * length a)%nat.
Proof.
  induction a as [|b [|b' a] IH]; [done| |]; intros _.
  - cbn [dotted length]. pose proof (byte_length b). lia.
  - change (dotted (b :: b' :: a)) with (print_u (b2z b) ++ ch_dot :: dotted (b' :: a)).
    rewrite length_app. cbn [length] in *. specialize (IH ltac:(done)). pose proof (byte_length b). lia.
Qed.

Lemma no_nul_text a : (ch_nul ∉ dotted a) ∧ (ch_nul ∉ groups a).
Proof.
  assert (Hd : ∀ b, ch_nul ∉ print_u (b2z b)).
  { intros b Hin. pose proof (byte_digits b) as H. rewrite Forall_forall in H. by destruct (H _ Hin). }
  assert (Hh : ∀ b, ch_nul ∉ hex b).
  { intros b Hin. pose proof (proj1 (byte_hex b)) as H. rewrite Forall_forall in H. by destruct (H _ Hin). }
  split.
  - induction a as [|b [|b' a] IH]; cbn [dotted] in *; [apply not_elem_of_nil|apply Hd|].
    rewrite elem_of_app, elem_of_cons. intros [?|[?|?]]; [by apply (Hd b)|done|done].
  - assert (H : ∀ n a, (length a <= n)%nat -> ch_nul ∉ groups a); [|by apply (H (length a))].
    induction n as [|n IH]; intros [|b1 [|b2 [|b3 l]]] Hn; try (cbn in Hn; lia).
    + apply not_elem_of_nil.
    + apply not_elem_of_nil.
    + apply Hh.
    + cbn [groups]. rewrite elem_of_app. intros [?|?]; by eapply Hh.
    + change (groups (b1 :: b2 :: b3 :: l)) with (hex b1 ++ hex b2 ++ ch_colon :: groups (b3 :: l)).
      rewrite !elem_of_app, elem_of_cons. intros [?|[?|[?|?]]]; [by eapply Hh|by eapply Hh|done|].
      eapply (IH (b3 :: l)); [cbn in *; lia|done].
Qed.

#[export] Instance plain_laws : InetLaws plain_inet.
Proof.
  split; cbn [inet_ntop inet_pton plain_inet].
  - intros a Ha. change (AF_INET =? AF_INET6) with false. unfold INET_ADDRSTRLEN.
    assert (a <> []) as Hne by by destruct a. pose proof (dotted_length a Hne). lia.
  - intros a Ha. rewrite Z.eqb_refl. by rewrite groups_length.
  - intros family a. destruct (family =? AF_INET6); apply no_nul_text.
  - intros family a Hf Ha. unfold addr_length in Ha.
    destruct (family =? AF_INET6) eqn:E; unfold exactly.
    + rewrite (groups_unhex 16) by lia. by rewrite bool_decide_true.
    + pose proof (dotted_undotted a) as Hd. rewrite Ha in Hd. rewrite Hd. by rewrite bool_decide_true.
  - intros family s a. unfold addr_length, exactly. destruct (family =? AF_INET6); case_bool_decide; congruence.
Qed.

(** 127.0.0.1:8080 in a [sockaddr_in6]. *)
Definition loopback8080 : sockaddr :=
  @InetAddress_any little_endian_host (replicate 28 (z2b 255)) 8080 true false.

Lemma address_roundtrip_witness :
  @toIpPort little_endian_host plain_inet loopback8080 = Ok (str "127.0.0.1:8080")
  ∧ @endpoint_of little_endian_host (@InetAddress_ip little_endian_host plain_inet (replicate 28 (z2b 7)) (str "127.0.0.1") 8080 false)
    = Some (Ipv4 (z2b <$> [127; 0; 0; 1]) 8080).
Proof.
  destruct (@address_roundtrip little_endian_host plain_inet plain_laws loopback8080 (replicate 28 (z2b 7)))
    as (text & Ht & Htp & _ & He & _).
  - vm_compute. reflexivity.
  - vm_compute. reflexivity.
  - vm_compute. eauto.
  - assert (Hv : @toIp little_endian_host plain_inet loopback8080 = Ok (str "127.0.0.1"))
      by (vm_compute; reflexivity).
    rewrite Hv in Ht. injection Ht as <-. split; [rewrite Htp; vm_compute; reflexivity|].
    assert (Hp : @toPort little_endian_host loopback8080 = 8080) by (vm_compute; reflexivity).
    assert (Hf : (@family little_endian_host loopback8080 =? AF_INET6) = false) by (vm_compute; reflexivity).
    rewrite Hp, Hf in He. rewrite He. vm_compute. reflexivity.
Defined.

Lemma isSelfConnect_spec_witness :
  @isSelfConnect little_endian_host (Some (take 16 loopback8080)) (Some (take 16 loopback8080)) = true.
Proof.
  apply (@isSelfConnect_spec little_endian_host (Some (take 16 loopback8080)) (Some (take 16 loopback8080))).
  - intros d [= <-]. vm_compute. discriminate.
  - intros d [= <-]. vm_compute. discriminate.
  - reflexivity.
  - split; [vm_compute; eauto|reflexivity].
Defined.
