(* ===== verification/HttpRequest.v ===== *)
(** * HttpRequest (app/http/include/http/HttpRequest.h)

    The record a parsed request is stored in, and the member functions the
    parser and the application call on it. *)

From Stdlib Require Import ZArith Lia.
From stdpp Require Import gmap list.
From S2P Require Import Prelude Bytes Base.

Inductive Method := kInvalid | kGet | kPost | kHead | kPut | kDelete.
Inductive Version := kUnknown | kHttp10 | kHttp11.

#[export] Instance Method_eq_dec : EqDecision Method.
Proof. solve_decision. Defined.
#[export] Instance Version_eq_dec : EqDecision Version.
Proof. solve_decision. Defined.

Section request.
Context {BT : BaseTime}.

Record HttpRequest := mkRequest {
  method_ : Method;
  version_ : Version;
  path_ : bytes;
  query_ : bytes;
  receiveTime_ : Timestamp;
  headers_ : gmap bytes bytes;
  body_ : bytes;
}.

#[export] Instance HttpRequest_eq_dec : EqDecision HttpRequest.
Proof. solve_decision. Defined.

(** [HttpRequest()]. *)
Definition HttpRequest_ctor : HttpRequest :=
  mkRequest kInvalid kUnknown [] [] ts_invalid ∅ [].

Definition setVersion (v : Version) : M HttpRequest unit :=
  modify (λ r, {| r with version_ := v |}).

(** The chain of comparisons of [setMethod]. *)
Definition method_of (m : bytes) : Method :=
  if bool_decide (m = str "GET") then kGet
  else if bool_decide (m = str "POST") then kPost
  else if bool_decide (m = str "HEAD") then kHead
  else if bool_decide (m = str "PUT") then kPut
  else if bool_decide (m = str "DELETE") then kDelete
  else kInvalid.

(** [setMethod(start, end)] on the characters of the range; the assertion is
    compiled in debug builds. *)
Definition setMethod (m : bytes) : M HttpRequest bool :=
  assertS (λ r, bool_decide (method_ r = kInvalid)) ;;;
  modify (λ r, {| r with method_ := method_of m |}) ;;;
  gets (λ r, negb (bool_decide (method_ r = kInvalid))).

Definition methodString (r : HttpRequest) : bytes :=
  match method_ r with
  | kGet => str "GET"
  | kPost => str "GET"
  | kHead => str "GET"
  | kPut => str "GET"
  | kDelete => str "GET"
  | kInvalid => str "UNKNOWN"
  end.

Definition setPath (p : bytes) : M HttpRequest unit :=
  modify (λ r, {| r with path_ := p |}).
Definition setQuery (q : bytes) : M HttpRequest unit :=
  modify (λ r, {| r with query_ := q |}).
Definition setReceiveTime (t : Timestamp) : M HttpRequest unit :=
  modify (λ r, {| r with receiveTime_ := t |}).
Definition setBody (b : bytes) : M HttpRequest unit :=
  modify (λ r, {| r with body_ := b |}).

(** [while (!value.empty() && isspace(value[value.size() - 1]))
      value.resize(value.size() - 1);]: each round shortens the string, so its
    length bounds the rounds. *)
Fixpoint rtrim_loop (fuel : nat) (value : bytes) : bytes :=
  match fuel with
  | O => value
  | S f =>
      match last value with
      | Some c => if isspace c then rtrim_loop f (take (length value - 1) value) else value
      | None => value
      end
  end.

Definition rtrim (value : bytes) : bytes := rtrim_loop (length value) value.

(** [addHeader(start, colon, end)]: [line] is [start, end) and [colon] the
    distance of the colon from [start]. *)
Definition addHeader (line : bytes) (colon : nat) : M HttpRequest unit :=
  let field := take colon line in
  let value := rtrim (drop_while isspace (drop (S colon) line)) in
  modify (λ r, {| r with headers_ := <[field := value]> (headers_ r) |}).

Definition getHeader (field : bytes) (r : HttpRequest) : bytes :=
  default [] (headers_ r !! field).

(** [swap(that)]: the new values of [*this] and [that]. *)
Definition request_swap (this that : HttpRequest) : HttpRequest * HttpRequest :=
  (mkRequest (method_ that) (version_ that) (path_ that) (query_ that)
     (receiveTime_ that) (headers_ that) (body_ that),
   mkRequest (method_ this) (version_ this) (path_ this) (query_ this)
     (receiveTime_ this) (headers_ this) (body_ this)).
End request.

Lemma setMethod_eq {BT : BaseTime} m r :
  setMethod m r =
    if bool_decide (method_ r = kInvalid)
    then Ok (negb (bool_decide (method_of m = kInvalid)), {| r with method_ := method_of m |})
    else Fault AssertFailed.
Proof. unfold setMethod, mbind, M_bind, assertS. by destruct (bool_decide (method_ r = _)). Qed.

(** ** Trimming *)
Definition trimmed (v : bytes) : Prop :=
  (∀ c, head v = Some c -> isspace c = false) ∧ (∀ c, last v = Some c -> isspace c = false).

Lemma rtrim_loop_spaces fuel v ws : Forall (λ c, isspace c = true) ws ->
  (∀ c, last v = Some c -> isspace c = false) ->
  (length ws <= fuel)%nat -> rtrim_loop fuel (v ++ ws) = v.
Proof.
  intros Hws Hv. revert fuel. induction ws as [|c ws IH] using rev_ind; intros fuel Hf.
  - rewrite app_nil_r. destruct fuel; simpl; [done|].
    destruct (last v) as [c|] eqn:E; [|done]. by rewrite Hv.
  - apply Forall_app in Hws as [Hws Hc]. inversion Hc as [|? ? Hc' _]; subst.
    rewrite length_app in Hf. simpl in Hf.
    destruct fuel as [|fuel]; [lia|]. simpl. rewrite app_assoc, last_snoc, Hc'.
    rewrite length_app. simpl. replace (_ - 1) with (length (v ++ ws)) by lia.
    rewrite take_app_length. apply IH; [done|lia].
Qed.

Lemma rtrim_spaces v ws : Forall (λ c, isspace c = true) ws ->
  (∀ c, last v = Some c -> isspace c = false) -> rtrim (v ++ ws) = v.
Proof. intros. apply rtrim_loop_spaces; [done..|]. rewrite length_app. lia. Qed.

Lemma drop_while_spaces ws v : Forall (λ c, isspace c = true) ws ->
  (∀ c, head v = Some c -> isspace c = false) -> drop_while isspace (ws ++ v) = v.
Proof.
  intros Hws Hv. induction Hws as [|c ws Hc _ IH]; simpl.
  - destruct v as [|c v]; simpl; [done|]. by rewrite Hv.
  - by rewrite Hc.
Qed.

(** The value stored for a header line with any amount of white space around
    a trimmed value. *)
Lemma addHeader_value field ws1 v ws2 :
  Forall (λ c, isspace c = true) ws1 -> Forall (λ c, isspace c = true) ws2 -> trimmed v ->
  rtrim (drop_while isspace (ws1 ++ v ++ ws2)) = v
  ∧ take (length field) (field ++ ch_colon :: ws1 ++ v ++ ws2) = field
  ∧ drop (S (length field)) (field ++ ch_colon :: ws1 ++ v ++ ws2) = ws1 ++ v ++ ws2.
Proof.
  intros H1 H2 [Hh Hl]. split_and!.
  - destruct v as [|c v].
    + simpl. assert (drop_while isspace (ws1 ++ ws2) = []) as ->; [|done].
      rewrite <- (app_nil_r (ws1 ++ ws2)). apply drop_while_spaces; [|done].
      by apply Forall_app.
    + rewrite drop_while_spaces; [by apply rtrim_spaces|done|]. simpl. by apply Hh.
  - by apply take_app_length.
  - rewrite cons_middle, app_assoc. apply drop_app_length'. rewrite length_app. simpl. lia.
Qed.
