(* ===== verification/HttpContext.v ===== *)
(** * HttpContext: the incremental request parser (HttpContext.h, HttpContext.cc)

    The parser works on a [Buffer] that the connection fills; its own state is
    the phase and the request under construction.  The loop of [parseRequest]
    is modelled with fuel. *)

From Stdlib Require Import ZArith Lia.
From stdpp Require Import gmap list.
From S2P Require Import Prelude Bytes Base HttpRequest Buffer.

Local Open Scope Z_scope.

Inductive HttpRequestParseState :=
  | kExpectRequestLine
  | kExpectHeaders
  | kExpectBody
  | kGotAll.

#[export] Instance HttpRequestParseState_eq_dec : EqDecision HttpRequestParseState.
Proof. solve_decision. Defined.

Section context.
Context {BT : BaseTime}.

Record HttpContext := mkContext {
  state_ : HttpRequestParseState;
  request_ : HttpRequest;
}.

(** [HttpContext()]. *)
Definition HttpContext_ctor : HttpContext := mkContext kExpectRequestLine HttpRequest_ctor.

Definition gotAll (c : HttpContext) : bool := bool_decide (state_ c = kGotAll).

(** [reset()]: the phase is rewound and the request exchanged with a fresh one. *)
Definition reset : M HttpContext unit :=
  modify (λ c, {| c with state_ := kExpectRequestLine |}) ;;;
  modify (λ c, {| c with request_ := fst (request_swap (request_ c) HttpRequest_ctor) |}).

(** The members as parts of their owners. *)
Definition requestL : lens HttpContext HttpRequest :=
  Lens request_ (λ r c, {| c with request_ := r |}).

Definition setState (s : HttpRequestParseState) : M HttpContext unit :=
  modify (λ c, {| c with state_ := s |}).

(** [processRequestLine(begin, end)] on the characters of the range. *)
Definition processRequestLine (line : bytes) : M HttpContext bool :=
  let space := find_byte ch_space line in
  if (space =? length line)%nat then mret false
  else
    ok ← zoom requestL (setMethod (take space line));
    if negb ok then mret false
    else
      let start := drop (S space) line in
      let space2 := find_byte ch_space start in
      if (space2 =? length start)%nat then mret false
      else
        let target := take space2 start in
        let question := find_byte ch_question target in
        (if negb (question =? length target)%nat then
           zoom requestL (setPath (take question target)) ;;;
           zoom requestL (setQuery (drop question target))
         else zoom requestL (setPath target)) ;;;
        (let version := drop (S space2) start in
         let succeed := (length version =? 8)%nat
                        && bool_decide (take 7 version = str "HTTP/1.") in
         if succeed then
           if bool_decide (last version = Some ch_1) then
             zoom requestL (setVersion kHttp11) ;;; mret true
           else if bool_decide (last version = Some ch_0) then
             zoom requestL (setVersion kHttp10) ;;; mret true
           else mret false
         else mret false).

(** The arguments of [parseRequest]: the parser itself and [*buf]. *)
Definition ctxL : lens (HttpContext * Buffer) HttpContext :=
  Lens fst (λ c s, (c, snd s)).
Definition bufL : lens (HttpContext * Buffer) Buffer :=
  Lens snd (λ b s, (fst s, b)).

(** [while (hasMore) ...]: one unit of fuel per round; [ok] is the value of
    the variable when the round starts. *)
Fixpoint parse_loop (fuel : nat) (receiveTime : Timestamp) (ok : bool)
    : M (HttpContext * Buffer) bool :=
  match fuel with
  | O => failM OutOfFuel
  | S fuel' =>
      s ← getS;
      match state_ (fst s) with
      | kExpectRequestLine =>
          crlf ← liftR (λ s, findCRLF (snd s));
          match crlf with
          | Some p =>
              line ← liftR (λ s, read_mem (peek (snd s)) (p - peek (snd s)) (snd s));
              ok' ← zoom ctxL (processRequestLine line);
              if ok' : bool then
                zoom ctxL (zoom requestL (setReceiveTime receiveTime)) ;;;
                zoom bufL (retrieveUntil (p + 2)) ;;;
                zoom ctxL (setState kExpectHeaders) ;;;
                parse_loop fuel' receiveTime true
              else mret false
          | None => mret ok
          end
      | kExpectHeaders =>
          crlf ← liftR (λ s, findCRLF (snd s));
          match crlf with
          | Some p =>
              line ← liftR (λ s, read_mem (peek (snd s)) (p - peek (snd s)) (snd s));
              (let colon := find_byte ch_colon line in
               if negb (colon =? length line)%nat
               then zoom ctxL (zoom requestL (addHeader line colon))
               else zoom ctxL (setState kExpectBody)) ;;;
              zoom bufL (retrieveUntil (p + 2)) ;;;
              parse_loop fuel' receiveTime ok
          | None => mret ok
          end
      | kExpectBody =>
          body ← zoom bufL retrieveAllAsString;
          whenM (negb (bool_decide (body = []))) (zoom ctxL (zoom requestL (setBody body))) ;;;
          zoom ctxL (setState kGotAll) ;;;
          mret ok
      | kGotAll => parse_loop fuel' receiveTime ok
      end
  end.

(** Enough rounds: each round but the last two consumes a line terminator. *)
Definition parse_fuel (b : Buffer) : nat := Z.to_nat (readableBytes b) + 3.

Definition parseRequest (receiveTime : Timestamp) : M (HttpContext * Buffer) bool :=
  s ← getS; parse_loop (parse_fuel (snd s)) receiveTime true.
End context.

(** ** The parser as a function of the bytes in the buffer *)
Section pure.
Context {BT : BaseTime}.

Definition put_state (s : HttpRequestParseState) (c : HttpContext) : HttpContext :=
  {| c with state_ := s |}.
Definition put_time (t : Timestamp) (c : HttpContext) : HttpContext :=
  {| c with request_ := {| (request_ c) with receiveTime_ := t |} |}.
Definition put_body (b : bytes) (c : HttpContext) : HttpContext :=
  if bool_decide (b = []) then c
  else {| c with request_ := {| (request_ c) with body_ := b |} |}.
Definition put_header (line : bytes) (c : HttpContext) : HttpContext :=
  {| c with request_ :=
     {| (request_ c) with headers_ :=
        <[take (find_byte ch_colon line) line :=
          rtrim (drop_while isspace (drop (S (find_byte ch_colon line)) line))]>
          (headers_ (request_ c)) |} |}.

(** [Ok (ok, c, rest)]: the value returned, the parser afterwards and the bytes
    left in the buffer. *)
Fixpoint pparse (fuel : nat) (t : Timestamp) (ok : bool) (c : HttpContext) (l : bytes)
    : result (bool * HttpContext * bytes) :=
  match fuel with
  | O => Fault OutOfFuel
  | S fuel' =>
      match state_ c with
      | kExpectRequestLine =>
          match memmem kCRLF l with
          | None => Ok (ok, c, l)
          | Some i =>
              match processRequestLine (take i l) c with
              | Fault f => Fault f
              | Ok (true, c1) =>
                  pparse fuel' t true (put_state kExpectHeaders (put_time t c1)) (drop (i + 2) l)
              | Ok (false, c1) => Ok (false, c1, l)
              end
          end
      | kExpectHeaders =>
          match memmem kCRLF l with
          | None => Ok (ok, c, l)
          | Some i =>
              let line := take i l in
              if negb (find_byte ch_colon line =? length line)%nat
              then pparse fuel' t ok (put_header line c) (drop (i + 2) l)
              else pparse fuel' t ok (put_state kExpectBody c) (drop (i + 2) l)
          end
      | kExpectBody => Ok (ok, put_state kGotAll (put_body l c), [])
      | kGotAll => pparse fuel' t ok c l
      end
  end.

(** [processRequestLine] as a function: the fields it sets, also when it
    rejects the line half way. *)
Definition on_request (f : HttpRequest -> HttpRequest) (c : HttpContext) : HttpContext :=
  {| c with request_ := f (request_ c) |}.

Definition version_of (v : bytes) : option Version :=
  if bool_decide (v = str "HTTP/1.1") then Some kHttp11
  else if bool_decide (v = str "HTTP/1.0") then Some kHttp10
  else None.

Definition line_result (line : bytes) (c : HttpContext) : bool * HttpContext :=
  let space := find_byte ch_space line in
  if (space =? length line)%nat then (false, c)
  else
    let m := method_of (take space line) in
    let c1 := on_request (λ r, {| r with method_ := m |}) c in
    if bool_decide (m = kInvalid) then (false, c1)
    else
      let start := drop (S space) line in
      let space2 := find_byte ch_space start in
      if (space2 =? length start)%nat then (false, c1)
      else
        let target := take space2 start in
        let question := find_byte ch_question target in
        let c2 :=
          if (question =? length target)%nat
          then on_request (λ r, {| r with path_ := target |}) c1
          else on_request (λ r, {| r with path_ := take question target;
                                          query_ := drop question target |}) c1 in
        match version_of (drop (S space2) start) with
        | Some v => (true, on_request (λ r, {| r with version_ := v |}) c2)
        | None => (false, c2)
        end.

(** The three tests of the source on the last word amount to [version_of]. *)
Lemma version_tests v :
  version_of v =
    if (length v =? 8)%nat && bool_decide (take 7 v = str "HTTP/1.") then
      if bool_decide (last v = Some ch_1) then Some kHttp11
      else if bool_decide (last v = Some ch_0) then Some kHttp10
      else None
    else None.
Proof.
  unfold version_of.
  destruct (decide (length v = 8%nat ∧ take 7 v = str "HTTP/1.")) as [[Hl Ht]|Hn].
  - rewrite (proj2 (Nat.eqb_eq _ _)) by done. rewrite (bool_decide_true (take 7 v = _)) by done.
    assert (Hv : ∃ c, v = str "HTTP/1." ++ [c]).
    { rewrite <- Ht. exists (default ch_0 (v !! 7%nat)). rewrite <- (take_drop 7 v) at 1. f_equal.
      do 8 (destruct v as [|? v]; [done|]). destruct v; done. }
    destruct Hv as [c ->]. rewrite last_snoc. cbn [andb].
    destruct (decide (c = ch_1)) as [->|H1]; [done|].
    destruct (decide (c = ch_0)) as [->|H0]; [done|].
    rewrite !bool_decide_false; [done|congruence|congruence|intros [= ?]; done|intros [= ?]; done].
  - assert (∀ c, v ≠ str "HTTP/1." ++ [c]) as Hv by (intros c ->; apply Hn; done).
    rewrite (bool_decide_false (v = _)) by apply (Hv ch_1).
    rewrite (bool_decide_false (v = _)) by apply (Hv ch_0).
    destruct (length v =? 8)%nat eqn:E1; [|done]. apply Nat.eqb_eq in E1.
    by rewrite bool_decide_false by naive_solver.
Qed.

Lemma processRequestLine_eq line c :
  processRequestLine line c =
    if (find_byte ch_space line =? length line)%nat || bool_decide (method_ (request_ c) = kInvalid)
    then Ok (line_result line c) else Fault AssertFailed.
Proof.
  unfold processRequestLine, line_result.
  destruct (find_byte ch_space line =? length line)%nat; [done|]. cbn [orb].
  unfold mbind, M_bind, zoom. rewrite setMethod_eq. cbn [view requestL].
  destruct (bool_decide (method_ (request_ c) = kInvalid)); [|done].
  destruct (bool_decide (method_of _ = kInvalid)); [done|]. cbn [negb].
  set (start := drop _ line). destruct (_ =? length start)%nat; [done|].
  rewrite version_tests. set (target := take _ start). set (v := drop _ start).
  destruct (_ =? length target)%nat; cbn [negb];
    destruct ((_ =? 8)%nat && _); try done;
    destruct (bool_decide (last v = Some ch_1)); try done;
    by destruct (bool_decide (last v = Some ch_0)).
Qed.

Lemma processRequestLine_no_fuel line c : processRequestLine line c ≠ Fault OutOfFuel.
Proof. rewrite processRequestLine_eq. by destruct (_ || _). Qed.

(** What a caller sees of a run of the parser. *)
Definition observe (r : result (bool * (HttpContext * Buffer)))
    : result (bool * HttpContext * bytes) :=
  match r with
  | Ok (ok, (c, b)) => Ok (ok, c, content b)
  | Fault f => Fault f
  end.

Lemma line_bytes b i : wf b -> memmem kCRLF (content b) = Some i ->
  read_mem (peek b) (peek b + Z.of_nat i - peek b) b = Ok (take i (content b)).
Proof.
  intros Hwf Hi. destruct (memmem_split _ _ Hi) as [_ Hlen].
  pose proof (content_length b Hwf).
  rewrite read_mem_content by (done || lia). do 2 f_equal. lia.
Qed.

(** Dropping the line and its terminator. *)
Lemma drop_line b i : wf b -> memmem kCRLF (content b) = Some i ->
  ∃ b', retrieveUntil (peek b + Z.of_nat i + 2) b = Ok (tt, b') ∧ wf b'
        ∧ content b' = drop (i + 2) (content b) ∧ size b' = size b.
Proof.
  intros Hwf Hi. destruct (memmem_split _ _ Hi) as [_ Hlen].
  pose proof (content_length b Hwf).
  destruct (proj1 (wp_ok (retrieveUntil (peek b + Z.of_nat i + 2))
    (λ _ b', wf b' ∧ content b' = drop (i + 2) (content b) ∧ size b' = size b) b))
    as ([] & b' & ? & ? & ? & ?); [|by exists b'].
  rewrite <- Z.add_assoc. apply retrieveUntil_wp; [done|lia|].
  intros b' ? Hc ?. split_and!; [done| |done]. rewrite Hc. f_equal. lia.
Qed.

Lemma retrieveAllAsString_ok b : wf b ->
  ∃ b', retrieveAllAsString b = Ok (content b, b') ∧ wf b' ∧ content b' = []
        ∧ size b' = size b.
Proof.
  intros Hwf.
  destruct (proj1 (wp_ok retrieveAllAsString
    (λ s b', s = content b ∧ wf b' ∧ content b' = [] ∧ size b' = size b) b))
    as (? & b' & ? & -> & ?); [|by exists b'].
  by apply retrieveAllAsString_wp.
Qed.

(** The code and the pure parser agree on every well-formed buffer. *)
Lemma parse_loop_pparse fuel t ok c b : wf b ->
  match pparse fuel t ok c (content b) with
  | Fault f => parse_loop fuel t ok (c, b) = Fault f
  | Ok (ok', c', l') =>
      ∃ b', parse_loop fuel t ok (c, b) = Ok (ok', (c', b'))
            ∧ wf b' ∧ content b' = l' ∧ size b' = size b
  end.
Proof.
  revert ok c b. induction fuel as [|fuel IH]; intros ok c b Hwf; [done|].
  cbn [pparse parse_loop]. rewrite (bind_ok _ _ _ (c, b) (c, b)) by done. cbn [fst].
  destruct (state_ c) eqn:Est.
  - erewrite bind_ok by (unfold liftR; cbn [snd]; rewrite findCRLF_memmem by done; reflexivity).
    destruct (memmem kCRLF (content b)) as [i|] eqn:Ei; cbn [fmap option_fmap option_map].
    2: { by exists b. }
    erewrite bind_ok by (unfold liftR; cbn [snd]; rewrite (line_bytes _ _ Hwf Ei); reflexivity).
    destruct (processRequestLine (take i (content b)) c) as [[ok' c1]|f] eqn:Ep.
    2: { unfold mbind, M_bind, zoom. cbn. by rewrite Ep. }
    erewrite !bind_ok by (erewrite zoom_ok; [reflexivity|exact Ep]).
    destruct ok'; [|by exists b].
    destruct (drop_line _ _ Hwf Ei) as (b1 & Hr & Hwf1 & Hc1 & Hs1).
    rewrite (bind_ok _ _ _ tt (put_time t c1, b)) by done.
    rewrite (bind_ok _ _ _ tt (put_time t c1, b1))
      by (erewrite zoom_ok; [reflexivity|exact Hr]).
    rewrite (bind_ok _ _ _ tt (put_state kExpectHeaders (put_time t c1), b1)) by done.
    specialize (IH true (put_state kExpectHeaders (put_time t c1)) b1 Hwf1).
    rewrite Hc1 in IH. by rewrite Hs1 in IH.
  - erewrite bind_ok by (unfold liftR; cbn [snd]; rewrite findCRLF_memmem by done; reflexivity).
    destruct (memmem kCRLF (content b)) as [i|] eqn:Ei; cbn [fmap option_fmap option_map].
    2: { by exists b. }
    erewrite bind_ok by (unfold liftR; cbn [snd]; rewrite (line_bytes _ _ Hwf Ei); reflexivity).
    destruct (drop_line _ _ Hwf Ei) as (b1 & Hr & Hwf1 & Hc1 & Hs1).
    destruct (negb _) eqn:Ecol.
    + rewrite (bind_ok _ _ _ tt (put_header (take i (content b)) c, b)) by done.
      rewrite (bind_ok _ _ _ tt (put_header (take i (content b)) c, b1))
        by (erewrite zoom_ok; [reflexivity|exact Hr]).
      specialize (IH ok (put_header (take i (content b)) c) b1 Hwf1).
      rewrite Hc1 in IH. by rewrite Hs1 in IH.
    + rewrite (bind_ok _ _ _ tt (put_state kExpectBody c, b)) by done.
      rewrite (bind_ok _ _ _ tt (put_state kExpectBody c, b1))
        by (erewrite zoom_ok; [reflexivity|exact Hr]).
      specialize (IH ok (put_state kExpectBody c) b1 Hwf1).
      rewrite Hc1 in IH. by rewrite Hs1 in IH.
  - destruct (retrieveAllAsString_ok b Hwf) as (b1 & Hr & Hwf1 & Hc1 & Hs1).
    rewrite (bind_ok _ _ _ (content b) (c, b1))
      by (erewrite zoom_ok; [reflexivity|exact Hr]).
    exists b1. split_and!; try done. unfold put_body. by case_bool_decide.
  - specialize (IH ok c b Hwf). exact IH.
Qed.

Lemma observe_parse_loop fuel t ok c b : wf b ->
  observe (parse_loop fuel t ok (c, b)) = pparse fuel t ok c (content b).
Proof.
  intros Hwf. pose proof (parse_loop_pparse fuel t ok c b Hwf) as H.
  destruct (pparse fuel t ok c (content b)) as [[[ok' c'] l']|f].
  - destruct H as (b' & -> & _ & <- & _). done.
  - by rewrite H.
Qed.
End pure.

(** ** Termination *)
Section termination.
Context {BT : BaseTime}.

(** Rounds still needed in a phase with [n] bytes in the buffer. *)
Definition rounds (s : HttpRequestParseState) (n : nat) : nat :=
  match s with
  | kExpectRequestLine => n + 3
  | kExpectHeaders => n + 2
  | kExpectBody => 1
  | kGotAll => 0
  end.

Lemma drop_line_length (i : nat) (l : bytes) : memmem kCRLF l = Some i ->
  (length (drop (i + 2) l) + 2 <= length l)%nat.
Proof. intros [_ H]%memmem_split. rewrite length_drop. lia. Qed.

Lemma pparse_terminates fuel t ok c l : state_ c ≠ kGotAll ->
  (rounds (state_ c) (length l) <= fuel)%nat -> pparse fuel t ok c l ≠ Fault OutOfFuel.
Proof.
  revert ok c l. induction fuel as [|fuel IH]; intros ok c l Hng Hf.
  { destruct (state_ c); simpl in Hf; [lia..|done]. }
  cbn [pparse]. destruct (state_ c) eqn:Est; cbn [rounds] in Hf; try done.
  - destruct (memmem kCRLF l) as [i|] eqn:Ei; [|done].
    apply drop_line_length in Ei. pose proof (processRequestLine_no_fuel (take i l) c).
    destruct (processRequestLine (take i l) c) as [[[] c1]|f]; [|done|congruence].
    apply IH; [done|]. cbn [rounds put_state state_]. lia.
  - destruct (memmem kCRLF l) as [i|] eqn:Ei; [|done].
    apply drop_line_length in Ei.
    destruct (negb _); apply IH; cbn [rounds put_state put_header state_];
      rewrite ?Est; try done; cbn [rounds]; lia.
Qed.

(** More fuel does not change the outcome. *)
Lemma pparse_mono fuel k t ok c l : pparse fuel t ok c l ≠ Fault OutOfFuel ->
  pparse (fuel + k) t ok c l = pparse fuel t ok c l.
Proof.
  revert ok c l. induction fuel as [|fuel IH]; intros ok c l; [done|].
  cbn [Nat.add pparse]. destruct (state_ c); try done; try apply IH;
    destruct (memmem kCRLF l) as [i|]; try done.
  - destruct (processRequestLine (take i l) c) as [[[] c1]|f]; try done. apply IH.
  - destruct (negb _); apply IH.
Qed.

Lemma pparse_fuel f1 f2 t ok c l :
  pparse f1 t ok c l ≠ Fault OutOfFuel -> pparse f2 t ok c l ≠ Fault OutOfFuel ->
  pparse f1 t ok c l = pparse f2 t ok c l.
Proof.
  intros H1 H2. destruct (Nat.le_ge_cases f1 f2) as [Hle|Hle].
  - rewrite <- (pparse_mono f1 (f2 - f1)) by done. f_equal. lia.
  - rewrite <- (pparse_mono f2 (f1 - f2)) by done. f_equal. lia.
Qed.

Lemma parseRequest_pparse t c b : wf b ->
  observe (parseRequest t (c, b)) = pparse (length (content b) + 3) t true c (content b).
Proof.
  intros Hwf. pose proof (content_length b Hwf) as Hl.
  unfold parseRequest. rewrite (bind_ok _ _ _ (c, b) (c, b)) by done. cbn [snd].
  rewrite observe_parse_loop by done. f_equal. unfold parse_fuel. lia.
Qed.

Lemma parseRequest_wf t c b ok c' b' : wf b ->
  parseRequest t (c, b) = Ok (ok, (c', b')) -> wf b'.
Proof.
  intros Hwf. unfold parseRequest. rewrite (bind_ok _ _ _ (c, b) (c, b)) by done. cbn [snd].
  pose proof (parse_loop_pparse (parse_fuel b) t true c b Hwf) as H. intros Hp. rewrite Hp in H.
  destruct (pparse _ _ _ _ _) as [[[? ?] ?]|]; [|done].
  destruct H as (b1 & [= <- <- <-] & ? & _). done.
Qed.

Lemma rounds_le s n : (rounds s n <= n + 3)%nat.
Proof. destruct s; simpl; lia. Qed.

(** The only other way to stop is the assertion of [setMethod]. *)
Lemma pparse_fault fuel t ok c l f :
  pparse fuel t ok c l = Fault f -> f = OutOfFuel ∨ f = AssertFailed.
Proof.
  revert ok c l. induction fuel as [|fuel IH]; intros ok c l; [intros [= <-]; by left|].
  cbn [pparse]. destruct (state_ c); try done; try apply IH;
    (destruct (memmem kCRLF l) as [i|]; [|done]).
  - rewrite processRequestLine_eq. destruct (_ || _); [|intros [= <-]; by right].
    destruct (line_result _ _) as [[] ?]; [apply IH|done].
  - destruct (negb _); apply IH.
Qed.

(** In the phase [kGotAll] no branch of the loop body changes [hasMore]. *)
Lemma parse_loop_spins fuel t ok c b : state_ c = kGotAll ->
  parse_loop fuel t ok (c, b) = Fault OutOfFuel.
Proof.
  intros Est. induction fuel as [|fuel IH]; [done|]. cbn [parse_loop].
  rewrite (bind_ok _ _ _ (c, b) (c, b)) by done. cbn [fst]. by rewrite Est.
Qed.
End termination.

(** ** Feeding the parser in segments *)
Section segments.
Context {BT : BaseTime}.

Lemma take_app_line (i : nat) (a b : bytes) : memmem kCRLF a = Some i -> take i (a ++ b) = take i a.
Proof. intros [_ H]%memmem_split. apply take_app_le. lia. Qed.

Lemma drop_app_line (i : nat) (a b : bytes) : memmem kCRLF a = Some i ->
  drop (i + 2) (a ++ b) = drop (i + 2) a ++ b.
Proof. intros [_ H]%memmem_split. apply drop_app_le. lia. Qed.

(** The receive time is only looked at in the first phase. *)
Lemma pparse_time fuel t1 t2 ok c l : state_ c ≠ kExpectRequestLine ->
  pparse fuel t1 ok c l = pparse fuel t2 ok c l.
Proof.
  revert ok c l. induction fuel as [|fuel IH]; intros ok c l Hs; [done|].
  cbn [pparse]. destruct (state_ c) eqn:Est; try done.
  - destruct (memmem kCRLF l) as [i|]; [|done].
    destruct (negb _); apply IH; cbn [put_header put_state state_]; congruence.
  - apply IH. congruence.
Qed.

Lemma pparse_phase fuel t ok c l c' l' : state_ c ≠ kExpectRequestLine ->
  pparse fuel t ok c l = Ok (true, c', l') -> state_ c' ≠ kExpectRequestLine.
Proof.
  revert ok c l. induction fuel as [|fuel IH]; intros ok c l Hs; [done|].
  cbn [pparse]. destruct (state_ c) eqn:Est; try done.
  - destruct (memmem kCRLF l) as [i|].
    + destruct (negb _); apply IH; cbn [put_header put_state state_]; congruence.
    + intros [= -> <- <-]. congruence.
  - intros [= -> <- <-]. done.
  - apply IH. congruence.
Qed.

(** Reading [a] and, when the request is still incomplete, continuing with the
    rest of [a] and [b] gives the same as reading [a ++ b] at once. *)
Lemma pparse_spins fuel t ok c l : state_ c = kGotAll -> pparse fuel t ok c l = Fault OutOfFuel.
Proof. intros Hs. induction fuel as [|fuel IH]; [done|]. cbn [pparse]. by rewrite Hs. Qed.

Lemma pparse_app F t1 t2 t c a b c1 a1 :
  pparse F t1 true c a = Ok (true, c1, a1) -> state_ c1 ≠ kGotAll ->
  t = (if decide (state_ c1 = kExpectRequestLine) then t2 else t1) ->
  ∀ F1 F2,
    pparse F1 t2 true c1 (a1 ++ b) ≠ Fault OutOfFuel ->
    pparse F2 t true c (a ++ b) ≠ Fault OutOfFuel ->
    pparse F1 t2 true c1 (a1 ++ b) = pparse F2 t true c (a ++ b).
Proof.
  revert c a. induction F as [|F IH]; intros c a Hp Hng Ht F1 F2 H1 H2; [done|].
  assert (Hsame : c1 = c -> a1 = a ->
            pparse F1 t2 true c1 (a1 ++ b) = pparse F2 t true c (a ++ b)).
  { intros -> ->. assert (Ht2 : pparse F2 t true c (a ++ b) = pparse F2 t2 true c (a ++ b)).
    { rewrite Ht. destruct (decide _); [done|]. by apply pparse_time. }
    rewrite Ht2 in *. by apply pparse_fuel. }
  cbn [pparse] in Hp. destruct F2 as [|F2]; [done|].
  destruct (state_ c) eqn:Est.
  - destruct (memmem kCRLF a) as [i|] eqn:Ei; [|apply Hsame; congruence].
    destruct (processRequestLine (take i a) c) as [[[] c2]|f] eqn:Ep; [|done|done].
    assert (Htt : t = t1).
    { rewrite Ht. destruct (decide _) as [Hd|]; [|done].
      apply pparse_phase in Hp; [|done]. done. }
    revert H2. cbn [pparse]. rewrite Est, (memmem_app _ _ _ _ Ei).
    rewrite (take_app_line _ _ _ Ei), Ep, (drop_app_line _ _ _ Ei). intros H2.
    rewrite Htt in H2 at 2. rewrite Htt at 2. by apply IH.
  - destruct (memmem kCRLF a) as [i|] eqn:Ei; [|apply Hsame; congruence].
    revert H2. cbn [pparse]. rewrite Est, (memmem_app _ _ _ _ Ei).
    rewrite (take_app_line _ _ _ Ei), (drop_app_line _ _ _ Ei). intros H2.
    destruct (negb _); by apply IH.
  - injection Hp as <- <-. done.
  - rewrite pparse_spins in Hp; done.
Qed.
End segments.

(** ** Printing requests *)
Section printing.
Context {BT : BaseTime}.

Definition method_name (m : Method) : bytes :=
  match m with
  | kGet => str "GET" | kPost => str "POST" | kHead => str "HEAD"
  | kPut => str "PUT" | kDelete => str "DELETE" | kInvalid => []
  end.

Definition version_name (v : Version) : bytes :=
  match v with kHttp11 => str "HTTP/1.1" | kHttp10 => str "HTTP/1.0" | kUnknown => [] end.

(** A header line: the field, white space, the value, white space. *)
Record header_line := HeaderLine { h_field : bytes; h_pad1 : bytes; h_value : bytes; h_pad2 : bytes }.

Definition header_bytes (h : header_line) : bytes :=
  h_field h ++ ch_colon :: h_pad1 h ++ h_value h ++ h_pad2 h.

Definition request_line (m : Method) (path query : bytes) (v : Version) : bytes :=
  method_name m ++ ch_space :: (path ++ query) ++ ch_space :: version_name v.

Definition headers_bytes (hs : list header_line) : bytes :=
  mjoin ((λ h, header_bytes h ++ kCRLF) <$> hs).

Definition render (m : Method) (path query : bytes) (v : Version) (hs : list header_line)
    (body : bytes) : bytes :=
  request_line m path query v ++ kCRLF ++ headers_bytes hs ++ kCRLF ++ body.

Definition valid_target (path query : bytes) : Prop :=
  (ch_space ∉ (path ++ query)) ∧ (ch_cr ∉ (path ++ query)) ∧ (ch_question ∉ path)
  ∧ (query = [] ∨ head query = Some ch_question).

Definition valid_header (h : header_line) : Prop :=
  (ch_colon ∉ h_field h) ∧ (ch_cr ∉ header_bytes h)
  ∧ Forall (λ c, isspace c = true) (h_pad1 h) ∧ Forall (λ c, isspace c = true) (h_pad2 h)
  ∧ trimmed (h_value h).

(** Later lines with the same field replace earlier ones. *)
Definition headers_of (hs : list header_line) (m : gmap bytes bytes) : gmap bytes bytes :=
  foldl (λ m h, <[h_field h := h_value h]> m) m hs.

Lemma memmem_line line rest : ch_cr ∉ line ->
  memmem kCRLF (line ++ kCRLF ++ rest) = Some (length line).
Proof.
  induction line as [|b line IH]; intros Hni; [done|].
  rewrite not_elem_of_cons in Hni. destruct Hni as [Hb Hl].
  cbn [app memmem length].
  assert (is_prefix kCRLF (b :: line ++ kCRLF ++ rest) = false) as ->.
  { cbn. rewrite bool_decide_false by congruence. done. }
  by rewrite IH.
Qed.

Lemma line_rest (line rest : bytes) :
  take (length line) (line ++ kCRLF ++ rest) = line
  ∧ drop (length line + 2) (line ++ kCRLF ++ rest) = rest.
Proof.
  split; [by apply take_app_length|].
  rewrite app_assoc. apply drop_app_length'. by rewrite length_app.
Qed.

Lemma method_of_name m : m ≠ kInvalid -> method_of (method_name m) = m.
Proof. by destruct m. Qed.

Lemma version_of_name v : v ≠ kUnknown -> version_of (version_name v) = Some v.
Proof. by destruct v. Qed.

Lemma split_at c (l1 l2 : bytes) : c ∉ l1 ->
  find_byte c (l1 ++ c :: l2) = length l1
  ∧ take (length l1) (l1 ++ c :: l2) = l1
  ∧ drop (S (length l1)) (l1 ++ c :: l2) = l2
  ∧ (length l1 =? length (l1 ++ c :: l2))%nat = false.
Proof.
  intros Hc. split_and!.
  - by apply find_byte_app.
  - by apply take_app_length.
  - rewrite cons_middle, app_assoc. apply drop_app_length'. rewrite length_app. simpl. lia.
  - apply Nat.eqb_neq. rewrite length_app. simpl. lia.
Qed.

(** The question mark splits the target into path and query. *)
Lemma split_target path query : ch_question ∉ path ->
  query = [] ∨ head query = Some ch_question ->
  find_byte ch_question (path ++ query) = length path.
Proof.
  intros Hp [->|Hq].
  - rewrite app_nil_r. by apply find_byte_None.
  - destruct query as [|c query]; [done|]. injection Hq as ->. by apply find_byte_app.
Qed.

Lemma method_name_no_space m : ch_space ∉ method_name m.
Proof. apply memchr_None. by destruct m. Qed.

Lemma line_result_any m path query v c :
  m ≠ kInvalid -> v ≠ kUnknown -> ch_space ∉ (path ++ query) -> ch_question ∉ path ->
  query = [] ∨ head query = Some ch_question ->
  line_result (request_line m path query v) c =
    (true, on_request (λ r, {| r with method_ := m; version_ := v; path_ := path;
       query_ := if bool_decide (query = []) then query_ r else query |}) c).
Proof.
  intros Hm Hv Hsp Hq Hqq. unfold line_result, request_line.
  destruct (split_at ch_space (method_name m) ((path ++ query) ++ ch_space :: version_name v))
    as (-> & -> & -> & ->); [apply method_name_no_space|].
  rewrite method_of_name, bool_decide_false by done.
  destruct (split_at ch_space (path ++ query) (version_name v)) as (-> & -> & -> & ->); [done|].
  rewrite version_of_name by done.
  rewrite split_target by done. f_equal.
  rewrite take_app_length, drop_app_length.
  case_bool_decide as Hqn.
  - subst query. rewrite app_nil_r. by rewrite Nat.eqb_refl.
  - rewrite (proj2 (Nat.eqb_neq _ _)); [done|]. rewrite length_app.
    destruct query; simpl; [done|lia].
Qed.

Lemma line_result_render m path query v c :
  m ≠ kInvalid -> v ≠ kUnknown -> valid_target path query ->
  line_result (request_line m path query v) c =
    (true, on_request (λ r, {| r with method_ := m; version_ := v; path_ := path;
       query_ := if bool_decide (query = []) then query_ r else query |}) c).
Proof. intros ?? (? & _ & ? & ?). by apply line_result_any. Qed.

(** One header line of a request. *)
Lemma put_header_line h c : valid_header h ->
  (find_byte ch_colon (header_bytes h) =? length (header_bytes h))%nat = false
  ∧ put_header (header_bytes h) c =
    on_request (λ r, {| r with headers_ := <[h_field h := h_value h]> (headers_ r) |}) c.
Proof.
  intros (Hf & _ & H1 & H2 & Ht). unfold put_header, header_bytes.
  destruct (split_at ch_colon (h_field h) (h_pad1 h ++ h_value h ++ h_pad2 h))
    as (-> & Htake & Hdrop & Heq); [done|]. split; [done|].
  rewrite Htake, Hdrop. by destruct (addHeader_value (h_field h) _ _ _ H1 H2 Ht) as [-> _].
Qed.

Lemma pparse_headers t hs c body : state_ c = kExpectHeaders -> Forall valid_header hs ->
  pparse (length hs + 2) t true c (headers_bytes hs ++ kCRLF ++ body) =
    Ok (true, put_state kGotAll (put_body body
          (on_request (λ r, {| r with headers_ := headers_of hs (headers_ r) |}) c)), []).
Proof.
  intros Hst Hv. revert c Hst. induction Hv as [|h hs Hh Hv IH]; intros c Hst.
  - cbn [length Nat.add pparse]. rewrite Hst.
    change (headers_bytes [] ++ kCRLF ++ body) with (kCRLF ++ body).
    change (memmem kCRLF (kCRLF ++ body)) with (Some 0%nat).
    cbn [find_byte length take Nat.eqb negb put_state state_].
    change (drop (0 + 2) (kCRLF ++ body)) with body.
    do 3 f_equal. unfold put_body, on_request, put_state; simpl.
    destruct c as [s []]. by case_bool_decide.
  - cbn [length Nat.add pparse]. rewrite Hst.
    assert (headers_bytes (h :: hs) ++ kCRLF ++ body
            = header_bytes h ++ kCRLF ++ (headers_bytes hs ++ kCRLF ++ body)) as ->.
    { unfold headers_bytes. simpl. by rewrite <- !app_assoc. }
    pose proof Hh as (_ & Hcr & _). rewrite memmem_line by done.
    destruct (line_rest (header_bytes h) (headers_bytes hs ++ kCRLF ++ body)) as [-> ->].
    destruct (put_header_line h c Hh) as [-> ->]. cbn [negb].
    by rewrite IH.
Qed.
End printing.

(** * Properties *)
Section properties.
Context {BT : BaseTime}.

Lemma request_line_no_cr m path query v : valid_target path query ->
  ch_cr ∉ request_line m path query v.
Proof.
  intros (_ & Hcr & _). unfold request_line.
  rewrite not_elem_of_app, not_elem_of_cons, not_elem_of_app, not_elem_of_cons.
  split_and!; try done; apply memchr_None; [by destruct m|by destruct v].
Qed.

Lemma observe_ok (r : result (bool * (HttpContext * Buffer))) ok c l :
  observe r = Ok (ok, c, l) -> ∃ b, r = Ok (ok, (c, b)) ∧ content b = l.
Proof. destruct r as [[ok' [c' b']]|f]; [|done]. intros [= -> -> <-]. eauto. Qed.

Lemma pparse_render t m path query v hs body :
  m ≠ kInvalid -> v ≠ kUnknown -> valid_target path query -> Forall valid_header hs ->
  pparse (length hs + 3) t true HttpContext_ctor (render m path query v hs body) =
    Ok (true, mkContext kGotAll (mkRequest m v path query t (headers_of hs ∅) body), []).
Proof.
  intros Hm Hv Ht Hh. replace (length hs + 3)%nat with (S (length hs + 2)) by lia.
  cbn [pparse HttpContext_ctor state_]. unfold render.
  rewrite memmem_line by (by apply request_line_no_cr).
  destruct (line_rest (request_line m path query v) (headers_bytes hs ++ kCRLF ++ body))
    as [-> ->].
  rewrite processRequestLine_eq. cbn [request_ method_ HttpRequest_ctor].
  rewrite bool_decide_true, orb_true_r by done. rewrite line_result_render by done.
  rewrite pparse_headers by done. do 3 f_equal.
  unfold put_body, put_state, put_time, on_request; simpl.
  destruct (bool_decide (body = [])) eqn:Eb, (bool_decide (query = [])) eqn:Eq; simpl;
    repeat match goal with H : bool_decide _ = true |- _ =>
      apply bool_decide_eq_true in H; subst end; done.
Qed.
End properties.

(** A printed request is parsed by one call. *)
Lemma parse_rendered {BT : BaseTime} (t : Timestamp) (b : Buffer) m path query v hs body :
  wf b -> m ≠ kInvalid -> v ≠ kUnknown -> valid_target path query -> Forall valid_header hs ->
  content b = render m path query v hs body ->
  ∃ c b', parseRequest t (HttpContext_ctor, b) = Ok (true, (c, b'))
    ∧ gotAll c = true ∧ content b' = []
    ∧ request_ c = mkRequest m v path query t (headers_of hs ∅) body.
Proof.
  intros Hwf Hm Hv Ht Hh Hc.
  pose proof (pparse_render t m path query v hs body Hm Hv Ht Hh) as Hp.
  assert (Hobs : observe (parseRequest t (HttpContext_ctor, b)) =
    Ok (true, mkContext kGotAll (mkRequest m v path query t (headers_of hs ∅) body), [])).
  { rewrite parseRequest_pparse, Hc by done. rewrite <- Hp. apply pparse_fuel; [|by rewrite Hp].
    apply pparse_terminates; [done|]. cbn. lia. }
  apply observe_ok in Hobs as (b' & -> & Hb). eauto 10.
Qed.

(** C12: Parsing inverts printing.  A request in the buffer -- one of the five
    methods, a target without spaces, HTTP/1.0 or 1.1, header lines with any
    white space around their values, an arbitrary body -- is parsed by one
    call: it returns true with everything consumed, the parser is in the phase
    gotAll, and the request has exactly these components; of several header
    lines with the same field the last one counts. *)
Theorem parse_roundtrip {BT : BaseTime} (t : Timestamp) (b : Buffer) m path query v hs body :
  wf b -> m ≠ kInvalid -> v ≠ kUnknown -> valid_target path query -> Forall valid_header hs ->
  content b = render m path query v hs body ->
  ∃ c b', parseRequest t (HttpContext_ctor, b) = Ok (true, (c, b'))
    ∧ gotAll c = true ∧ content b' = []
    ∧ request_ c = mkRequest m v path query t (headers_of hs ∅) body.
Proof. apply parse_rendered. Qed.

Lemma parse_roundtrip_witness :
  let req := render kPost (str "/register") [] kHttp11
               [HeaderLine (str "Host") (str " ") (str "lute") [];
                HeaderLine (str "Connection") [] (str "close") (str " ")] (str "a=1") in
  let b := mkBuffer (replicate 8 (z2b 0) ++ req) 8 (8 + zlength req) in
  ∃ c b', parseRequest (tick 7) (HttpContext_ctor, b) = Ok (true, (c, b'))
    ∧ gotAll c = true ∧ content b' = []
    ∧ request_ c = mkRequest kPost kHttp11 (str "/register") [] (tick 7)
        (<[str "Connection" := str "close"]> {[str "Host" := str "lute"]}) (str "a=1").
Proof.
  intros req b.
  apply (parse_roundtrip (tick 7) b kPost (str "/register") [] kHttp11
    [HeaderLine (str "Host") (str " ") (str "lute") [];
     HeaderLine (str "Connection") [] (str "close") (str " ")] (str "a=1")).
  - constructor; vm_compute; intuition congruence.
  - done.
  - done.
  - split_and!; try (apply memchr_None; reflexivity). by left.
  - repeat constructor; simpl; try (apply memchr_None; reflexivity);
      intros c [= <-]; reflexivity.
  - vm_compute. reflexivity.
Defined.

(** C11: Segmentation does not matter.  If a first call of parseRequest accepts
    what has arrived so far but the request is still incomplete, then a second
    call after more bytes were appended has the same outcome -- verdict,
    parser state and bytes left in the buffer -- as one call on all the bytes;
    the request's receive time is that of the call that saw the end of the
    request line.  (A first call that already ends the request is excluded: that is
    what happens to a request with a body whose headers arrive alone, see
    [split_body_lost].) *)
Theorem parse_segments {BT : BaseTime} (t1 t2 : Timestamp) (c c1 : HttpContext)
    (b b1 b2 whole : Buffer) (more : bytes) :
  wf b -> wf b2 -> wf whole -> state_ c ≠ kGotAll ->
  parseRequest t1 (c, b) = Ok (true, (c1, b1)) -> gotAll c1 = false ->
  content b2 = content b1 ++ more -> content whole = content b ++ more ->
  observe (parseRequest t2 (c1, b2)) =
  observe (parseRequest (if decide (state_ c1 = kExpectRequestLine) then t2 else t1) (c, whole)).
Proof.
  intros Hwf Hwf2 Hwfw Hng Hp Hinc Hc2 Hcw.
  apply bool_decide_eq_false in Hinc.
  pose proof (parseRequest_pparse t1 c b Hwf) as H1. rewrite Hp in H1. cbn [observe] in H1.
  rewrite !parseRequest_pparse by done.
  rewrite Hc2, Hcw. eapply pparse_app; [by symmetry|done|done|..];
    apply pparse_terminates; try done; eapply Nat.le_trans; try apply rounds_le; lia.
Qed.

Lemma parse_segments_witness :
  let buf s := mkBuffer (replicate 8 (z2b 0) ++ s) 8 (8 + zlength s) in
  let half := str "GET /login?Username=a HTTP/1.1"
              ++ kCRLF ++ str "Host: l" in
  let more := str "ute" ++ kCRLF ++ kCRLF in
  ∃ c1 b1, parseRequest (tick 1) (HttpContext_ctor, buf half) = Ok (true, (c1, b1)) ∧
  observe (parseRequest (tick 2) (c1, buf (content b1 ++ more))) =
  observe (parseRequest (tick 1) (HttpContext_ctor, buf (half ++ more))).
Proof.
  intros buf half more.
  destruct (parseRequest (tick 1) (HttpContext_ctor, buf half)) as [[[] [c1 b1]]|] eqn:E;
    [|vm_compute in E; discriminate..].
  exists c1, b1. split; [done|].
  assert (Hst : state_ c1 = kExpectHeaders) by (vm_compute in E; by injection E as <- <-).
  pose proof (parse_segments (tick 1) (tick 2) HttpContext_ctor c1 (buf half) b1
    (buf (content b1 ++ more)) (buf (half ++ more)) more) as H.
  rewrite Hst in H. apply H; clear H.
  - constructor; vm_compute; intuition congruence.
  - vm_compute in E. injection E as <- <-. constructor; vm_compute; intuition congruence.
  - constructor; vm_compute; intuition congruence.
  - done.
  - exact E.
  - unfold gotAll. by rewrite Hst.
  - vm_compute in E. injection E as <- <-. reflexivity.
  - reflexivity.
Defined.

(** C22: The parser's loop ends.  From every phase but gotAll, on every
    well-formed buffer, parseRequest returns or stops at the assertion of
    setMethod; it never keeps looping.  From the phase gotAll -- which HttpServer
    leaves by reset() before the next call -- the loop never ends, whatever
    the number of rounds. *)
Theorem parse_terminates {BT : BaseTime} (t : Timestamp) (c : HttpContext) (b : Buffer) :
  wf b ->
  if gotAll c then ∀ fuel, parse_loop fuel t true (c, b) = Fault OutOfFuel
  else (∃ ok c' b', parseRequest t (c, b) = Ok (ok, (c', b')))
       ∨ parseRequest t (c, b) = Fault AssertFailed.
Proof.
  intros Hwf. unfold gotAll. case_bool_decide as Hg.
  { intros fuel. by apply parse_loop_spins. }
  pose proof (parseRequest_pparse t c b Hwf) as Hobs.
  assert (Hne : pparse (length (content b) + 3) t true c (content b) ≠ Fault OutOfFuel)
    by (apply pparse_terminates; [done|apply rounds_le]).
  destruct (parseRequest t (c, b)) as [[ok [c' b']]|f] eqn:E; [eauto 10|].
  right. cbn [observe] in Hobs. symmetry in Hobs.
  destruct (pparse_fault _ _ _ _ _ _ Hobs) as [-> | ->]; done.
Qed.

Lemma parse_terminates_witness :
  ∃ b, Buffer_ctor 4 = Ok b ∧
  if gotAll (HttpContext_ctor (BT := micros)) then ∀ fuel, parse_loop fuel (tick 0) true (HttpContext_ctor, b) = Fault OutOfFuel
  else (∃ ok c' b', parseRequest (tick 0) (HttpContext_ctor, b) = Ok (ok, (c', b')))
       ∨ parseRequest (tick 0) (HttpContext_ctor, b) = Fault AssertFailed.
Proof.
  eexists. split; [reflexivity|].
  apply (parse_terminates (tick 0) HttpContext_ctor). constructor; vm_compute; intuition congruence.
Defined.

Lemma line_result_grammar {BT : BaseTime} line c c' : query_ (request_ c) = [] ->
  line_result line c = (true, c') ->
  ∃ m path query v, line = request_line m path query v
    ∧ m ≠ kInvalid ∧ v ≠ kUnknown ∧ (ch_space ∉ (path ++ query)) ∧ (ch_question ∉ path)
    ∧ (query = [] ∨ head query = Some ch_question)
    ∧ c' = on_request (λ r, {| r with method_ := m; version_ := v; path_ := path;
                                      query_ := query |}) c.
Proof.
  intros Hq. unfold line_result.
  destruct (find_byte ch_space line =? length line)%nat eqn:E1; [done|].
  set (w := take _ line). case_bool_decide as Hw; [done|].
  set (start := drop _ line).
  destruct (find_byte ch_space start =? length start)%nat eqn:E2; [done|].
  set (target := take _ start).
  destruct (version_of (drop _ start)) as [v|] eqn:Ev; [|done]. intros [= <-].
  apply Nat.eqb_neq in E1, E2. pose proof (find_byte_le ch_space line).
  pose proof (find_byte_le ch_space start). pose proof (find_byte_le ch_question target).
  destruct (find_byte_split ch_space line) as [Hl _]; [lia|].
  destruct (find_byte_split ch_space start) as [Hs Hns]; [lia|].
  fold w in Hl. fold start in Hl. fold target in Hs, Hns.
  assert (Hv : drop (S (find_byte ch_space start)) start = version_name v ∧ v ≠ kUnknown).
  { revert Ev. unfold version_of. repeat case_bool_decide; intros; simplify_eq; done. }
  assert (Hmw : w = method_name (method_of w)).
  { revert Hw. unfold method_of. repeat case_bool_decide; done. }
  destruct Hv as [Hv Hvu]. rewrite Hv in Hs.
  exists (method_of w), (take (find_byte ch_question target) target),
    (drop (find_byte ch_question target) target), v.
  rewrite take_drop. split_and!; try done.
  + unfold request_line. by rewrite take_drop, <- Hmw, Hl at 1; rewrite Hs at 1.
  + destruct (decide (find_byte ch_question target < length target)%nat) as [Hlt|Hge].
    * by apply find_byte_split.
    * rewrite take_ge by lia. apply find_byte_None. lia.
  + destruct (decide (find_byte ch_question target < length target)%nat) as [Hlt|Hge].
    * right. destruct (find_byte_split _ _ Hlt) as [Ht _].
      rewrite Ht at 2. rewrite drop_app_length'; [done|]. rewrite length_take. lia.
    * left. apply drop_ge. lia.
  + destruct (_ =? length target)%nat eqn:E3; [|done]. apply Nat.eqb_eq in E3.
    rewrite E3, firstn_all, drop_ge by lia. unfold on_request. simpl.
    destruct c as [s []]; simpl in *. by rewrite Hq.
Qed.

(** C23: The request-line grammar.  A fresh parser accepts a line exactly when it
    is METHOD SP PATH[?QUERY] SP HTTP/1.x for one of the five methods and
    x = 0 or 1, with no space in the target; it then stores these components
    (the query keeps its question mark), and every other line is rejected
    without a fault. *)
Theorem request_line_grammar {BT : BaseTime} (line : bytes) (c : HttpContext) :
  method_ (request_ c) = kInvalid -> query_ (request_ c) = [] ->
  ∃ ok c', processRequestLine line c = Ok (ok, c')
    ∧ (ok = true ↔ ∃ m path query v, line = request_line m path query v
         ∧ m ≠ kInvalid ∧ v ≠ kUnknown ∧ (ch_space ∉ (path ++ query)) ∧ (ch_question ∉ path)
         ∧ (query = [] ∨ head query = Some ch_question)
         ∧ c' = on_request (λ r, {| r with method_ := m; version_ := v; path_ := path;
                                           query_ := query |}) c).
Proof.
  intros Hm Hq. rewrite processRequestLine_eq, Hm. rewrite bool_decide_true, orb_true_r by done.
  destruct (line_result line c) as [ok c'] eqn:E. exists ok, c'. split; [done|]. split.
  - intros ->. by apply line_result_grammar.
  - intros (m & path & query & v & -> & H1 & H2 & H3 & H4 & H5 & _).
    rewrite line_result_any in E by done. by injection E.
Qed.

Lemma request_line_grammar_witness :
  ∃ ok c', processRequestLine (str "GET /a?b=1 HTTP/1.0") (HttpContext_ctor (BT := micros))
           = Ok (ok, c')
    ∧ (ok = true ↔ ∃ m path query v, str "GET /a?b=1 HTTP/1.0" = request_line m path query v
         ∧ m ≠ kInvalid ∧ v ≠ kUnknown ∧ (ch_space ∉ (path ++ query)) ∧ (ch_question ∉ path)
         ∧ (query = [] ∨ head query = Some ch_question)
         ∧ c' = on_request (λ r, {| r with method_ := m; version_ := v; path_ := path;
                                           query_ := query |}) HttpContext_ctor).
Proof. apply request_line_grammar; reflexivity. Defined.

Section rejection.
Context {BT : BaseTime}.

Lemma pparse_headers_ok fuel t c l r c' l' : state_ c ≠ kExpectRequestLine ->
  pparse fuel t true c l = Ok (r, c', l') -> r = true.
Proof.
  revert c l. induction fuel as [|fuel IH]; intros c l Hs; [done|].
  cbn [pparse]. destruct (state_ c) eqn:Est; try done.
  - destruct (memmem kCRLF l) as [i|]; [|by intros [= -> _ _]].
    destruct (negb _); apply IH; cbn [put_header put_state state_]; congruence.
  - by intros [= -> _ _].
  - apply IH. congruence.
Qed.

(** The verdict on a line depends on the line only. *)
Lemma line_result_fst line c1 c2 : fst (line_result line c1) = fst (line_result line c2).
Proof. unfold line_result. repeat (case_match; try done). Qed.

Lemma line_result_state line c : state_ (snd (line_result line c)) = state_ c.
Proof. unfold line_result. repeat (case_match; try done). Qed.

(** The first-phase step on the first line of the buffer. *)
Lemma pparse_first fuel t c l i : state_ c = kExpectRequestLine -> memmem kCRLF l = Some i ->
  fst (line_result (take i l) c) = false ->
  pparse (S fuel) t true c l =
    if (find_byte ch_space (take i l) =? length (take i l))%nat
       || bool_decide (method_ (request_ c) = kInvalid)
    then Ok (false, snd (line_result (take i l) c), l) else Fault AssertFailed.
Proof.
  intros Hs Hi Hf. cbn [pparse]. rewrite Hs, Hi, processRequestLine_eq.
  destruct (_ || _); [|done]. destruct (line_result _ _) as [ok c']. cbn in Hf. by rewrite Hf.
Qed.
End rejection.

(** A rejected request line stays. *)
Lemma parse_rejected {BT : BaseTime} (t : Timestamp) (b : Buffer) (c' : HttpContext)
    (b' : Buffer) :
  wf b -> parseRequest t (HttpContext_ctor, b) = Ok (false, (c', b')) ->
  content b' = content b ∧ state_ c' = kExpectRequestLine
  ∧ ∀ t2 b2 more, wf b2 -> content b2 = content b' ++ more ->
      if bool_decide (method_ (request_ c') = kInvalid)
      then ∃ c2 b3, parseRequest t2 (c', b2) = Ok (false, (c2, b3)) ∧ content b3 = content b2
      else parseRequest t2 (c', b2) = Fault AssertFailed.
Proof.
  intros Hwf Hp. pose proof (parseRequest_pparse t HttpContext_ctor b Hwf) as Hobs.
  rewrite Hp, Nat.add_succ_r in Hobs. cbn [observe pparse HttpContext_ctor state_] in Hobs.
  destruct (memmem kCRLF (content b)) as [i|] eqn:Ei; [|done].
  rewrite processRequestLine_eq, bool_decide_true, orb_true_r in Hobs by done.
  pose proof (line_result_state (take i (content b)) HttpContext_ctor) as Hst.
  destruct (line_result _ _) as [ok c1] eqn:El.
  destruct ok; [symmetry in Hobs; apply pparse_headers_ok in Hobs; done|].
  injection Hobs as -> Hcb. cbn [snd] in Hst. split_and!; [done|done|].
  intros t2 b2 more Hwf2 Hc2. rewrite Hcb in Hc2.
  assert (Hf : fst (line_result (take i (content b)) c1) = false)
    by (by rewrite (line_result_fst _ _ HttpContext_ctor), El).
  pose proof (parseRequest_pparse t2 c1 b2 Hwf2) as H2.
  rewrite Nat.add_succ_r, (pparse_first _ _ _ _ i) in H2;
    [|done|rewrite Hc2; by apply memmem_app
     |by rewrite Hc2, (take_app_line _ _ _ Ei)].
  rewrite Hc2, (take_app_line _ _ _ Ei) in H2.
  assert (Hsp : bool_decide (method_ (request_ c1) = kInvalid) = false ->
            (find_byte ch_space (take i (content b)) =? length (take i (content b)))%nat = false).
  { intros Hm. destruct (_ =? _)%nat eqn:Esp; [|done].
    unfold line_result in El. rewrite Esp in El. injection El as <-. done. }
  destruct (bool_decide (method_ (request_ c1) = kInvalid)).
  - rewrite orb_true_r in H2. apply observe_ok in H2 as (b3 & Hb3 & Hcb3).
    eexists _, b3. split; [exact Hb3|]. congruence.
  - rewrite Hsp in H2 by done. cbn [orb] in H2.
    by destruct (parseRequest t2 (c1, b2)) as [[? [? ?]]|?]; simplify_eq/=.
Qed.

(** Rejection.  When parseRequest returns false for a new request, nothing
    was taken out of the buffer and the phase is unchanged; so any later call
    -- HttpServer makes one each time more bytes arrive -- sees the same line
    again.  If the line's first word was not a known method the later call
    returns false again; but if it was a known method, the half-built request
    has kept it and the later call fails the assertion of setMethod. *)
Theorem parse_rejection {BT : BaseTime} (t : Timestamp) (b : Buffer) (c' : HttpContext)
    (b' : Buffer) :
  wf b -> parseRequest t (HttpContext_ctor, b) = Ok (false, (c', b')) ->
  content b' = content b ∧ state_ c' = kExpectRequestLine
  ∧ ∀ t2 b2 more, wf b2 -> content b2 = content b' ++ more ->
      if bool_decide (method_ (request_ c') = kInvalid)
      then ∃ c2 b3, parseRequest t2 (c', b2) = Ok (false, (c2, b3)) ∧ content b3 = content b2
      else parseRequest t2 (c', b2) = Fault AssertFailed.
Proof. apply parse_rejected. Qed.

Lemma parse_rejection_witness :
  let buf s := mkBuffer (replicate 8 (z2b 0) ++ s) 8 (8 + zlength s) in
  let bad := str "GET /" ++ kCRLF in
  ∃ c' b', parseRequest (tick 0) (HttpContext_ctor, buf bad) = Ok (false, (c', b'))
    ∧ parseRequest (tick 1) (c', buf (bad ++ str "x")) = Fault AssertFailed.
Proof.
  intros buf bad.
  destruct (parseRequest (tick 0) (HttpContext_ctor, buf bad)) as [[[] [c' b']]|] eqn:E;
    [vm_compute in E; discriminate| |vm_compute in E; discriminate].
  exists c', b'. split; [done|].
  destruct (parse_rejection (tick 0) (buf bad) c' b') as (Hc & _ & H); [|exact E|].
  - constructor; vm_compute; intuition congruence.
  - assert (Hm : method_ (request_ c') = kGet) by (vm_compute in E; by injection E as <- <-).
    specialize (H (tick 1) (buf (bad ++ str "x")) (str "x")). rewrite Hm in H. apply H.
    + constructor; vm_compute; intuition congruence.
    + rewrite Hc. reflexivity.
Defined.

(** What ends the header section.  Not only an empty line: any line
    without a colon -- of whatever content -- ends it, and everything buffered
    behind that line, complete or not, becomes the body of the request. *)
Theorem header_section_end {BT : BaseTime} (t : Timestamp) (c : HttpContext) (b : Buffer)
    (line rest : bytes) :
  wf b -> state_ c = kExpectHeaders -> ch_colon ∉ line -> ch_cr ∉ line ->
  content b = line ++ kCRLF ++ rest ->
  ∃ b', parseRequest t (c, b) = Ok (true, (put_state kGotAll (put_body rest c), b'))
        ∧ content b' = [].
Proof.
  intros Hwf Hs Hcol Hcr Hc. pose proof (parseRequest_pparse t c b Hwf) as H.
  rewrite Hc in H. apply observe_ok. rewrite H. clear H.
  do 2 rewrite Nat.add_succ_r. cbn [pparse]. rewrite Hs, memmem_line by done.
  destruct (line_rest line rest) as [-> ->].
  apply find_byte_None in Hcol. rewrite Hcol, Nat.eqb_refl.
  cbn [negb put_state state_]. unfold put_body, put_state.
  destruct c. by case_bool_decide.
Qed.

Lemma header_section_end_witness :
  let s := str "garbage" ++ kCRLF ++ str "Host: x" in
  let b := mkBuffer (replicate 8 (z2b 0) ++ s) 8 (8 + zlength s) in
  ∃ b', parseRequest (tick 0) (put_state kExpectHeaders HttpContext_ctor, b)
        = Ok (true, (put_state kGotAll (put_body (str "Host: x")
                       (put_state kExpectHeaders HttpContext_ctor)), b'))
        ∧ content b' = [].
Proof.
  intros s b. apply (header_section_end (tick 0) _ b (str "garbage")).
  - constructor; vm_compute; intuition congruence.
  - done.
  - apply memchr_None. reflexivity.
  - apply memchr_None. reflexivity.
  - vm_compute. reflexivity.
Defined.
