(* ===== verification/HttpResponse.v ===== *)
(** * HttpResponse: building and printing responses (HttpResponse.h, HttpResponse.cc) *)

From Stdlib Require Import ZArith Lia Sorted.
From stdpp Require Import gmap list.
From S2P Require Import Prelude Bytes Buffer.

Local Open Scope Z_scope.

Inductive HttpStatusCode :=
  | kUnknown | k200Ok | k301MovedPermanently | k400BadRequest | k404NotFound.

#[export] Instance HttpStatusCode_eq_dec : EqDecision HttpStatusCode.
Proof. solve_decision. Defined.

(** [static_cast<int>(statusCode_)]. *)
Definition status_code (s : HttpStatusCode) : Z :=
  match s with
  | kUnknown => 0
  | k200Ok => 200
  | k301MovedPermanently => 301
  | k400BadRequest => 400
  | k404NotFound => 404
  end.

(** [operator<] of [std::string]: by unsigned characters. *)
Fixpoint bytes_ltb (a b : bytes) : bool :=
  match a, b with
  | _, [] => false
  | [], _ :: _ => true
  | x :: a', y :: b' => (b2z x <? b2z y) || ((b2z x =? b2z y) && bytes_ltb a' b')
  end.

(** [map[k] = v] on a [std::map], the list of its elements in order. *)
Fixpoint map_set (k v : bytes) (m : list (bytes * bytes)) : list (bytes * bytes) :=
  match m with
  | [] => [(k, v)]
  | (k', v') :: m' =>
      if bytes_ltb k k' then (k, v) :: (k', v') :: m'
      else if bytes_ltb k' k then (k', v') :: map_set k v m'
      else (k', v) :: m'
  end.

Record HttpResponse := mkResponse {
  headers_ : list (bytes * bytes);
  statusCode_ : HttpStatusCode;
  statusMessage_ : bytes;
  closeConnection_ : bool;
  body_ : bytes;
}.

(** [HttpResponse(close)]. *)
Definition HttpResponse_ctor (close : bool) : HttpResponse := mkResponse [] kUnknown [] close [].

Definition setStatusCode (code : HttpStatusCode) : M HttpResponse unit :=
  modify (λ r, {| r with statusCode_ := code |}).
Definition setStatusMessage (message : bytes) : M HttpResponse unit :=
  modify (λ r, {| r with statusMessage_ := message |}).
Definition setCloseConnection (on : bool) : M HttpResponse unit :=
  modify (λ r, {| r with closeConnection_ := on |}).
Definition closeConnection (r : HttpResponse) : bool := closeConnection_ r.
Definition addHeader (key value : bytes) : M HttpResponse unit :=
  modify (λ r, {| r with headers_ := map_set key value (headers_ r) |}).
Definition setContentType (contentType : bytes) : M HttpResponse unit :=
  addHeader (str "Content-Type") contentType.
Definition setBody (body : bytes) : M HttpResponse unit :=
  modify (λ r, {| r with body_ := body |}).

(** [snprintf] into [char buf[32]], which cuts longer texts; [%zd] prints the
    size as a signed number. *)
Definition status_buf (r : HttpResponse) : bytes :=
  snprintf 32 (str "HTTP/1.1 " ++ print_d (status_code (statusCode_ r)) ++ str " ").
Definition length_buf (r : HttpResponse) : bytes :=
  snprintf 32 (str "Content-Length: " ++ print_d (s64 (zlength (body_ r))) ++ kCRLF).

(** [appendToBuffer(output)] on [*output]. *)
Definition appendToBuffer (r : HttpResponse) : M Buffer unit :=
  append (status_buf r) ;;;
  append (statusMessage_ r) ;;;
  append kCRLF ;;;
  (if closeConnection_ r then append (str "Connection: close" ++ kCRLF)
   else append (length_buf r) ;;; append (str "Connection: Keep-Alive" ++ kCRLF)) ;;;
  for_each (headers_ r) (λ '(first, second),
    append first ;;; append (str ": ") ;;; append second ;;; append kCRLF) ;;;
  append kCRLF ;;;
  append (body_ r).

(** ** The order of strings *)
Section order.
Implicit Types a b c : bytes.

Lemma bytes_ltb_irrefl a : bytes_ltb a a = false.
Proof. induction a as [|x a IH]; simpl; [done|]. by rewrite Z.ltb_irrefl, IH, andb_false_r. Qed.

Lemma bytes_ltb_trans a b c : bytes_ltb a b = true -> bytes_ltb b c = true -> bytes_ltb a c = true.
Proof.
  revert b c. induction a as [|x a IH]; intros [|y b] [|z c]; simpl; try done.
  rewrite !orb_true_iff, !andb_true_iff, !Z.ltb_lt, !Z.eqb_eq.
  intros [|[? ?]] [|[? ?]]; [left; lia..|right]. split; [lia|by eapply IH].
Qed.

Lemma bytes_ltb_total a b : bytes_ltb a b = false -> bytes_ltb b a = false -> a = b.
Proof.
  revert b. induction a as [|x a IH]; intros [|y b]; simpl; try done.
  rewrite !orb_false_iff, !andb_false_iff, !Z.ltb_ge, !Z.eqb_neq.
  intros [? H1] [? H2]. assert (Heq : b2z x = b2z y) by lia.
  destruct H1 as [?|H1], H2 as [?|H2]; try lia.
  f_equal; [|by apply IH]. by rewrite <- (z2b_b2z x), <- (z2b_b2z y), Heq.
Qed.

Lemma bytes_ltb_neq a b : bytes_ltb a b = true -> a ≠ b.
Proof. intros H ->. by rewrite bytes_ltb_irrefl in H. Qed.
End order.

(** ** The header map *)
Definition key_lt (x y : bytes * bytes) : Prop := bytes_ltb x.1 y.1 = true.

Definition ordered (m : list (bytes * bytes)) : Prop := StronglySorted key_lt m.

Lemma map_set_Forall P k v m : P (k, v) -> Forall P m ->
  (∀ k' w, P (k', w) -> P (k', v)) -> Forall P (map_set k v m).
Proof.
  intros Hkv Hm Hv. induction Hm as [|[k' v'] m Hx Hm IH]; simpl; [by constructor; [|constructor]|].
  destruct (bytes_ltb k k'); [constructor; [done|by constructor]|].
  destruct (bytes_ltb k' k); constructor; eauto.
Qed.

Lemma map_set_ordered k v m : ordered m -> ordered (map_set k v m).
Proof.
  unfold ordered. induction 1 as [|[k' v'] m Hm IH Hx]; simpl; [by repeat constructor|].
  destruct (bytes_ltb k k') eqn:E1.
  - constructor; [by constructor|]. constructor; [done|].
    eapply Forall_impl; [exact Hx|]. intros [k'' v''] Hk. by eapply bytes_ltb_trans.
  - destruct (bytes_ltb k' k) eqn:E2.
    + constructor; [done|]. by apply map_set_Forall.
    + by constructor.
Qed.

Lemma map_set_insert k v m : list_to_map (map_set k v m) =@{gmap bytes bytes} <[k := v]> (list_to_map m).
Proof.
  induction m as [|[k' v'] m IH]; simpl; [done|].
  destruct (bytes_ltb k k') eqn:E1; [done|].
  destruct (bytes_ltb k' k) eqn:E2; simpl.
  - rewrite IH. apply insert_insert_ne. intros ->. by rewrite bytes_ltb_irrefl in E2.
  - rewrite (bytes_ltb_total k k') by done. by rewrite insert_insert_eq.
Qed.

Lemma ordered_NoDup m : ordered m -> NoDup m.*1.
Proof.
  unfold ordered. induction 1 as [|[k v] m _ IH Hx]; simpl; constructor; [|done].
  intros (y & Hk & Hy)%list_elem_of_fmap. simpl in Hk. rewrite Forall_forall in Hx.
  specialize (Hx _ Hy). unfold key_lt in Hx. rewrite <- Hk in Hx. simpl in Hx.
  by rewrite bytes_ltb_irrefl in Hx.
Qed.

(** ** What is printed *)
Definition header_text (h : bytes * bytes) : bytes := h.1 ++ str ": " ++ h.2 ++ kCRLF.

(** The header lines the printer adds itself. *)
Definition own_headers (r : HttpResponse) : list (bytes * bytes) :=
  if closeConnection_ r then [(str "Connection", str "close")]
  else [(str "Content-Length", print_u (zlength (body_ r))); (str "Connection", str "Keep-Alive")].

Definition status_line (r : HttpResponse) : bytes :=
  str "HTTP/1.1 " ++ print_d (status_code (statusCode_ r)) ++ str " " ++ statusMessage_ r.

Definition response_bytes (r : HttpResponse) : bytes :=
  status_line r ++ kCRLF ++ mjoin (header_text <$> own_headers r ++ headers_ r) ++ kCRLF ++ body_ r.

(** Strings of a realistic size: nothing longer than a vector, and a body
    whose length has at most 13 digits. *)
Record printable (r : HttpResponse) : Prop := {
  pr_message : zlength (statusMessage_ r) <= vector_max_size;
  pr_headers : Forall (λ h, zlength h.1 <= vector_max_size ∧ zlength h.2 <= vector_max_size) (headers_ r);
  pr_body : zlength (body_ r) < 10 ^ 13;
}.

Lemma status_buf_eq r : status_buf r = str "HTTP/1.1 " ++ print_d (status_code (statusCode_ r)) ++ str " ".
Proof. apply snprintf_fits. destruct (statusCode_ r); vm_compute; lia. Qed.

Lemma length_buf_eq r : zlength (body_ r) < 10 ^ 13 ->
  length_buf r = header_text (str "Content-Length", print_u (zlength (body_ r))).
Proof.
  intros Hb. unfold length_buf. rewrite wrap_s_id by (cbn; lia).
  assert (Hd : print_d (zlength (body_ r)) = print_u (zlength (body_ r))).
  { unfold print_d. by rewrite (proj2 (Z.ltb_ge _ 0)) by lia. }
  rewrite Hd. rewrite snprintf_fits; [done|].
  rewrite !length_app. pose proof (print_u_length 13 (zlength (body_ r))) as Hl. cbn in *. lia.
Qed.

Section printing.
Implicit Types b : Buffer.

(** Appending in pieces. *)
Lemma append_then {A} data (k : M Buffer A) (Q : A -> Buffer -> Prop) b :
  wf b -> zlength data <= vector_max_size ->
  (∀ b', wf b' -> content b' = content b ++ data -> safe k Q b') ->
  safe (append data ;;; k) Q b.
Proof. intros Hwf Hl HQ. rewrite safe_bind. by apply append_safe. Qed.

Lemma headers_safe hs b (Q : unit -> Buffer -> Prop) : wf b ->
  Forall (λ h : bytes * bytes, zlength h.1 <= vector_max_size ∧ zlength h.2 <= vector_max_size) hs ->
  (∀ b', wf b' -> content b' = content b ++ mjoin (header_text <$> hs) -> Q tt b') ->
  safe (for_each hs (λ '(first, second),
    append first ;;; append (str ": ") ;;; append second ;;; append kCRLF)) Q b.
Proof.
  intros Hwf Hhs. revert b Hwf. induction Hhs as [|[k v] hs [Hk Hv] Hhs IH]; intros b Hwf HQ.
  - apply safe_ret. apply HQ; [done|]. by rewrite app_nil_r.
  - cbn [for_each]. rewrite safe_bind.
    apply append_then; [done..|]. intros b1 Hw1 Hc1.
    apply append_then; [done|vm_compute; congruence|]. intros b2 Hw2 Hc2.
    apply append_then; [done..|]. intros b3 Hw3 Hc3.
    apply append_safe; [done|vm_compute; congruence|]. intros b4 Hw4 Hc4.
    apply IH; [done|]. intros b5 Hw5 Hc5. apply HQ; [done|].
    rewrite Hc5, Hc4, Hc3, Hc2, Hc1.
    change (mjoin (header_text <$> (k, v) :: hs))
      with ((k ++ str ": " ++ v ++ kCRLF) ++ mjoin (header_text <$> hs)).
    by rewrite <- !app_assoc.
Qed.
End printing.

(** ** Properties *)

(** The header map.  The list of headers is kept strictly ordered by key,
    hence without duplicates, and setting a key behaves as an insertion into a
    finite map: the new value replaces the old one and no other key changes. *)
Theorem headers_map k v m : ordered m ->
  ordered (map_set k v m) ∧ NoDup (map_set k v m).*1
  ∧ list_to_map (map_set k v m) =@{gmap bytes bytes} <[k := v]> (list_to_map m).
Proof.
  intros Hm. split_and!; [by apply map_set_ordered|by apply ordered_NoDup, map_set_ordered|].
  apply map_set_insert.
Qed.

Lemma headers_map_witness :
  let m := map_set (str "Server") (str "Lute") [(str "Content-Type", str "text/html")] in
  ordered m ∧ map_set (str "Server") (str "x") m
    = [(str "Content-Type", str "text/html"); (str "Server", str "x")]
  ∧ ordered (map_set (str "Server") (str "x") m).
Proof.
  intros m. assert (Hm : ordered m) by (apply map_set_ordered; by repeat constructor).
  split; [exact Hm|]. split; [vm_compute; reflexivity|].
  by apply (headers_map (str "Server") (str "x") m).
Defined.

Lemma appendToBuffer_prints r b : wf b -> printable r ->
  safe (appendToBuffer r) (λ _ b', wf b' ∧ content b' = content b ++ response_bytes r) b.
Proof.
  intros Hwf [Hm Hh Hb]. pose proof (length_buf_eq r Hb) as Hl. unfold appendToBuffer.
  apply append_then; [done| |].
  { rewrite status_buf_eq. destruct (statusCode_ r); by vm_compute. }
  intros b1 Hw1 Hc1. apply append_then; [done..|]. intros b2 Hw2 Hc2.
  apply append_then; [done|by vm_compute|]. intros b3 Hw3 Hc3.
  assert (Htail : ∀ b4 own, wf b4 -> content b4 = content b3 ++ own ->
    own = mjoin (header_text <$> own_headers r) ->
    safe (for_each (headers_ r) (λ '(first, second),
        append first ;;; append (str ": ") ;;; append second ;;; append kCRLF) ;;;
      append kCRLF ;;; append (body_ r))
      (λ _ b', wf b' ∧ content b' = content b ++ response_bytes r) b4).
  { intros b4 own Hw4 Hc4 ->. rewrite safe_bind. apply headers_safe; [done..|]. intros b5 Hw5 Hc5.
    apply append_then; [done|by vm_compute|]. intros b6 Hw6 Hc6.
    apply append_safe; [done|unfold vector_max_size; lia|]. intros b7 Hw7 Hc7. split; [done|].
    rewrite Hc7, Hc6, Hc5, Hc4, Hc3, Hc2, Hc1, status_buf_eq.
    unfold response_bytes, status_line. rewrite fmap_app, join_app, <- !app_assoc. done. }
  unfold own_headers in Htail. destruct (closeConnection_ r).
  - apply append_then; [done|by vm_compute|]. intros b4 Hw4 Hc4. by eapply Htail.
  - rewrite safe_bind. apply append_then; [done| |].
    { rewrite Hl. unfold header_text; cbn [fst snd]. rewrite !length_app.
      pose proof (print_u_length 13 (zlength (body_ r))). cbn in *. unfold vector_max_size. lia. }
    intros b4 Hw4 Hc4. apply append_safe; [done|by vm_compute|]. intros b5 Hw5 Hc5.
    eapply Htail; [done|by rewrite Hc5, Hc4, <- app_assoc|]. rewrite Hl.
    change (mjoin _) with (header_text (str "Content-Length", print_u (zlength (body_ r)))
      ++ str "Connection: Keep-Alive" ++ kCRLF). done.
Qed.

(** What a response looks like.  appendToBuffer() appends exactly the
    status line, its own header lines (Connection: close, or else the body's
    length and Connection: Keep-Alive), the headers in the order of their keys,
    an empty line and the body; the 32-byte buffers it formats numbers into are
    large enough for every status code and for bodies of up to 13 digits of
    length. *)
Theorem appendToBuffer_bytes r b : wf b -> printable r ->
  safe (appendToBuffer r) (λ _ b', wf b' ∧ content b' = content b ++ response_bytes r) b.
Proof. apply appendToBuffer_prints. Qed.

Lemma appendToBuffer_bytes_witness :
  let r := mkResponse [(str "Content-Type", str "text/plain")] k200Ok (str "OK") false (str "hi") in
  match Buffer_ctor kInitialSize with
  | Ok b => wf b ∧ printable r ∧
      safe (appendToBuffer r) (λ _ b', wf b' ∧ content b' = content b ++ response_bytes r) b
  | Fault _ => False
  end.
Proof.
  intros r. assert (Hwf : match Buffer_ctor kInitialSize with Ok b => wf b | Fault _ => False end).
  { vm_compute. constructor; vm_compute; intuition congruence. }
  assert (Hp : printable r) by (constructor; [by vm_compute| |by vm_compute]; by repeat constructor).
  destruct (Buffer_ctor kInitialSize) as [b|]; [|done].
  split; [done|]. split; [done|]. by apply appendToBuffer_bytes.
Defined.
