(* ===== verification/Regex.v ===== *)
(** * The regular expressions of the application

    [std::regex] in its default ECMAScript grammar, for the constructs the
    sources use: characters, greedy repetitions [class+] and capture groups.
    A match is found the way the standard describes it, by backtracking: the
    leftmost start, and there the alternative that gives the earlier
    repetitions as much as possible. *)

From Stdlib Require Import ZArith Lia.
From stdpp Require Import list.
From S2P Require Import Prelude Bytes.

(** A pattern, flattened: [Open] and [Close] are the parentheses of a group;
    groups do not nest. *)
Inductive item :=
  | Chr (c : Byte.byte)
  | Plus (p : Byte.byte -> bool)
  | Open
  | Close.

Abbreviation regex := (list item).

Definition lit (s : String.string) : regex := Chr <$> str s.
Arguments lit s%_string_scope.
Definition group (r : regex) : regex := Open :: r ++ [Close].

(** The length of the longest prefix of characters of a class. *)
Fixpoint span (p : Byte.byte -> bool) (s : bytes) : nat :=
  match s with
  | c :: s' => if p c then S (span p s') else O
  | [] => O
  end.

(** [n; n - 1; ...; 1]. *)
Fixpoint countdown (n : nat) : list nat :=
  match n with O => [] | S n' => n :: countdown n' end.

(** The matches of [r] at the front of [s], in the order of preference: the
    groups captured and what is left.  [cur] is what the open group has
    captured so far, [caps] are the groups that are closed. *)
Fixpoint alts (r : regex) (cur : bytes) (caps : list bytes) (s : bytes)
    : list (list bytes * bytes) :=
  match r with
  | [] => [(caps, s)]
  | Chr c :: r' =>
      match s with
      | x :: s' => if bool_decide (x = c) then alts r' (cur ++ [x]) caps s' else []
      | [] => []
      end
  | Plus p :: r' => k ← countdown (span p s); alts r' (cur ++ take k s) caps (drop k s)
  | Open :: r' => alts r' [] caps s
  | Close :: r' => alts r' cur (caps ++ [cur]) s
  end.

(** [regex_search]: the first match and what follows it. *)
Fixpoint search (r : regex) (s : bytes) : option (list bytes * bytes) :=
  match alts r [] [] s with
  | m :: _ => Some m
  | [] => match s with [] => None | _ :: s' => search r s' end
  end.

(** The matches a [sregex_iterator] visits.  Every match of the patterns used
    here consumes something, so the length of the text is enough fuel. *)
Fixpoint all_matches (fuel : nat) (r : regex) (s : bytes) : list (list bytes) :=
  match fuel with
  | O => []
  | S fuel' =>
      match search r s with
      | Some (caps, s') => caps :: all_matches fuel' r s'
      | None => []
      end
  end.

(** [for (iter(begin, end, pattern); ...) { x1 = iter->str(1); ... }]: the
    variables keep the groups of the last match, or their initial values. *)
Definition last_match (r : regex) (s : bytes) (init : list bytes) : list bytes :=
  foldl (λ _ caps, caps) init (all_matches (S (length s)) r s).

(** ** What a match gives *)

(** A pattern of characters and classes within [q] captures only such characters. *)
Definition item_within (q : Byte.byte -> Prop) (i : item) : Prop :=
  match i with
  | Chr c => q c
  | Plus p => ∀ c, p c = true -> q c
  | Open | Close => True
  end.

Fixpoint groups (r : regex) : nat :=
  match r with [] => O | Close :: r' => S (groups r') | _ :: r' => groups r' end.

Lemma span_Forall (q : Byte.byte -> Prop) p s k :
  (∀ c, p c = true -> q c) -> k <= span p s -> Forall q (take k s).
Proof.
  intros Hp. revert k. induction s as [|c s IH]; intros [|k]; simpl; try by constructor.
  destruct (p c) eqn:E; [|lia]. intros. constructor; [auto|]. apply IH. lia.
Qed.

Lemma elem_of_countdown k n : k ∈ countdown n -> 1 <= k <= n.
Proof.
  induction n as [|n IH]; simpl; [by intros ?%elem_of_nil|].
  intros [->|?%IH]%elem_of_cons; lia.
Qed.

Lemma alts_within q r cur caps s m : Forall (item_within q) r -> Forall q cur ->
  Forall (Forall q) caps -> m ∈ alts r cur caps s ->
  Forall (Forall q) m.1 ∧ length m.1 = length caps + groups r.
Proof.
  intros Hr. revert cur caps s. induction Hr as [|i r Hi _ IH]; intros cur caps s Hcur Hcaps; simpl.
  - intros ->%list_elem_of_singleton. by rewrite Nat.add_0_r.
  - destruct i as [c|p| |].
    + destruct s as [|x s]; [by intros ?%elem_of_nil|].
      case_bool_decide as Hx; [|by intros ?%elem_of_nil]. subst.
      apply IH; [|done]. apply Forall_app. by repeat constructor.
    + intros (k & Hm & Hk%elem_of_countdown)%list_elem_of_bind. revert Hm. apply IH; [|done].
      apply Forall_app. split; [done|]. eapply span_Forall; [apply Hi|lia].
    + by apply IH.
    + intros Hm. destruct (IH cur (caps ++ [cur]) s Hcur) with (2 := Hm) as [H1 H2].
      * apply Forall_app. by repeat constructor.
      * split; [done|]. rewrite H2, length_app. simpl. lia.
Qed.

Lemma search_alts r s m : search r s = Some m -> ∃ s', m ∈ alts r [] [] s'.
Proof.
  induction s as [|c s IH]; simpl.
  - destruct (alts r [] [] []) eqn:E; [done|]. intros [= <-]. exists []. rewrite E. by left.
  - destruct (alts r [] [] (c :: s)) eqn:E; [done|]. intros [= <-]. exists (c :: s). rewrite E. by left.
Qed.

Lemma all_matches_within q r fuel s : Forall (item_within q) r ->
  Forall (λ caps, Forall (Forall q) caps ∧ length caps = groups r) (all_matches fuel r s).
Proof.
  intros Hr. revert s. induction fuel as [|fuel IH]; intros s; simpl; [constructor|].
  destruct (search r s) as [[caps s']|] eqn:E; [|constructor].
  constructor; [|apply IH]. apply search_alts in E as [s0 Hm].
  by apply (alts_within q r [] [] s0 (caps, s')) in Hm; [..|constructor|constructor].
Qed.

Lemma foldl_last {A} (l : list A) (P : A -> Prop) a : P a -> Forall P l -> P (foldl (λ _ x, x) a l).
Proof. intros Ha Hl. revert a Ha. induction Hl; simpl; auto. Qed.

(** What a loop over the matches leaves in the variables. *)
Lemma last_match_within q r s init : Forall (item_within q) r ->
  Forall (Forall q) init -> length init = groups r ->
  Forall (Forall q) (last_match r s init) ∧ length (last_match r s init) = groups r.
Proof.
  intros Hr Hi Hl.
  by apply (foldl_last _ (λ caps, Forall (Forall q) caps ∧ length caps = groups r));
    [|apply all_matches_within].
Qed.

(** ** Matching without backtracking

    When the item that follows [class+] is a character outside the class, only
    the longest repetition can be continued. *)
Lemma alts_chars t : ∀ r cur caps s, alts ((Chr <$> t) ++ r) cur caps (t ++ s) = alts r (cur ++ t) caps s.
Proof.
  induction t as [|c t IH]; intros r cur caps s; simpl; [by rewrite app_nil_r|].
  rewrite bool_decide_eq_true_2 by done. by rewrite IH, <- app_assoc.
Qed.

Lemma span_app p u s : Forall (λ c, p c = true) u -> span p (u ++ s) = length u + span p s.
Proof. induction 1 as [|c u Hc _ IH]; simpl; [done|]. by rewrite Hc, IH. Qed.

(** The next thing [r] asks for is the character [c]. *)
Fixpoint starts_with (c : Byte.byte) (r : regex) : Prop :=
  match r with
  | Chr c' :: _ => c' = c
  | (Open | Close) :: r' => starts_with c r'
  | _ => False
  end.

Lemma alts_other c r cur caps x s : starts_with c r -> x ≠ c -> alts r cur caps (x :: s) = [].
Proof.
  revert cur caps. induction r as [|[c'|p| |] r IH]; intros cur caps; simpl; try done.
  - intros -> Hx. by rewrite bool_decide_eq_false_2.
  - apply IH.
  - apply IH.
Qed.

(** No repetition of at most [n] characters can be continued. *)
Lemma alts_stuck c r cur caps s n : starts_with c r ->
  (∀ k, 1 <= k <= n -> ∃ x t, drop k s = x :: t ∧ x ≠ c) ->
  (k ← countdown n; alts r (cur ++ take k s) caps (drop k s)) = [].
Proof.
  intros Hr. induction n as [|n IH]; intros Hn; [done|]. cbn [countdown mbind list_bind].
  destruct (Hn (S n)) as (x & t & -> & Hx); [lia|]. rewrite (alts_other c) by done.
  apply IH. intros k Hk. apply Hn. lia.
Qed.

(** Inside a run of the class. *)
Lemma drop_run (p : Byte.byte -> bool) c (u s : bytes) x k : Forall (λ c, p c = true) u -> p c = false -> x ≠ c ->
  k <= length u -> ∃ y t, drop k (u ++ x :: s) = y :: t ∧ y ≠ c.
Proof.
  intros Hp Hc Hx Hk. rewrite drop_app_le by done. destruct (drop k u) as [|y t] eqn:Ed; [by exists x, s|].
  exists y, (t ++ x :: s). split; [done|]. apply (Forall_drop _ k) in Hp. rewrite Ed in Hp.
  intros ->. inversion Hp. congruence.
Qed.

Lemma alts_plus p c r cur caps u s : u ≠ [] -> Forall (λ c, p c = true) u -> p c = false ->
  starts_with c r -> alts (Plus p :: r) cur caps (u ++ c :: s) = alts r (cur ++ u) caps (c :: s).
Proof.
  intros Hu Hp Hc Hr. simpl. rewrite span_app by done. simpl. rewrite Hc, Nat.add_0_r.
  destruct (length u) as [|n] eqn:Hn; [by destruct u|].
  cbn [countdown mbind list_bind]. rewrite <- Hn, take_app_length, drop_app_length.
  rewrite (alts_stuck c); [by rewrite app_nil_r|done|]. intros k Hk.
  destruct (drop k u) as [|y t] eqn:Ed.
  { apply (f_equal length) in Ed. rewrite length_drop in Ed. simpl in Ed. lia. }
  exists y, (t ++ c :: s). rewrite drop_app_le by lia. rewrite Ed. split; [done|].
  apply (Forall_drop _ k) in Hp. rewrite Ed in Hp. intros ->. inversion Hp. congruence.
Qed.

(** What follows the run is neither in the class nor what comes next. *)
Lemma alts_plus_none p c r cur caps u x s : Forall (λ c, p c = true) u -> p x = false ->
  p c = false -> x ≠ c -> starts_with c r -> alts (Plus p :: r) cur caps (u ++ x :: s) = [].
Proof.
  intros Hp Hx Hc Hne Hr. simpl. rewrite span_app by done. simpl. rewrite Hx, Nat.add_0_r.
  apply (alts_stuck c); [done|]. intros k Hk. by apply (drop_run p); [..|lia].
Qed.

Lemma search_none c r s : starts_with c r -> c ∉ s -> search r s = None.
Proof.
  intros Hr. assert (Hnil : ∀ cur caps, alts r cur caps [] = []).
  { clear s. induction r as [|[c'|p| |] r IH]; intros cur caps; simpl; try done; by apply IH. }
  induction s as [|x s IH]; simpl; [by rewrite Hnil|].
  rewrite not_elem_of_cons. intros [Hx Hs]. by rewrite (alts_other c), IH by auto.
Qed.

(** At the end of the text the longest repetition comes first. *)
Lemma alts_plus_end p r cur caps u : u ≠ [] -> Forall (λ c, p c = true) u ->
  ∃ l, alts (Plus p :: r) cur caps u = alts r (cur ++ u) caps [] ++ l.
Proof.
  intros Hu Hp. pose proof (span_app p u [] Hp) as Hspan. rewrite app_nil_r, Nat.add_0_r in Hspan.
  simpl. rewrite Hspan. destruct (length u) as [|n] eqn:Hn; [by destruct u|].
  cbn [countdown mbind list_bind]. rewrite <- Hn. rewrite firstn_all, drop_all. eauto.
Qed.

(** A text that is one match from its first to its last character. *)
Lemma last_match_whole r s caps init l : alts r [] [] s = (caps, []) :: l ->
  alts r [] [] [] = [] -> last_match r s init = caps.
Proof.
  intros Hs H0. unfold last_match. simpl. destruct s as [|c s]; [by rewrite H0 in Hs|].
  cbn [search]. rewrite Hs. simpl. by rewrite H0.
Qed.
