(* ===== verification/Application.v ===== *)
(** * Application: the pages and accounts of the web application
    (app/http/include/http/app.h, app/http/src/app.cc)

    The handler of the HTTP server: it picks a file from the path of the
    request, looks accounts up in Redis and adds them to MySQL.  The database
    clients (the submodules LuteMySQL and LuteRedis), [FSUtil] of LuteBase and
    the file system are the parameter [Services].

    The file name is built in a C array, with C string functions. *)

From Stdlib Require Import ZArith Lia.
From stdpp Require Import gmap list.
From S2P Require Import Prelude Bytes Base HttpRequest HttpResponse Regex.

Local Open Scope Z_scope.

Class Services := {
  Svc : Type;
  (** [RedisConn]: the values returned; [getHField] gives what it stores in the
      variable passed to it. *)
  redis_connectSvr : Svc -> Svc;
  redis_hasHField : bytes -> bytes -> Svc -> Z * Svc;
  redis_getHField : bytes -> bytes -> Svc -> bytes * Svc;
  redis_setHField : bytes -> bytes -> bytes -> Svc -> Z * Svc;
  (** [MySQLConnPool::init], and [MySQLConn::execute] on a connection of the
      pool: [stmtRes_.rc_] and [stmtRes_.rows_]. *)
  mysql_init : Svc -> Svc;
  mysql_execute : bytes -> Svc -> (Z * list (list bytes)) * Svc;
  (** [stat]: the mode, or a failure; what a stream opened on the file reads. *)
  fs_stat : bytes -> Svc -> option Z;
  ifs_open : bytes -> Svc -> option bytes;
  FSUtil_openForRead : bytes -> Svc -> option bytes;
}.


Definition FILENAME_LEN : nat := 200.
Definition HASH_KEY : bytes := str "user".

Definition S_IROTH : Z := 4.
Definition S_ISDIR (mode : Z) : bool := Z.land mode 61440 =? 16384.

(** The two patterns. *)
Definition in_class (lo hi : Z) (c : Byte.byte) : bool := (lo <=? b2z c) && (b2z c <=? hi).
Definition letter (c : Byte.byte) : bool := in_class 97 122 c || in_class 65 90 c.
Definition alnum (c : Byte.byte) : bool := in_class 48 57 c || letter c.
Definition alnum_ (c : Byte.byte) : bool := alnum c || (b2z c =? 95).

Definition register_pattern : regex :=
  lit "Username=" ++ group [Plus alnum_] ++ lit "&email="
  ++ group (Plus alnum :: lit "%40" ++ [Plus letter] ++ lit ".com")
  ++ lit "&password=" ++ group [Plus alnum].

Definition login_pattern : regex :=
  lit "?Username=" ++ group [Plus alnum] ++ lit "&password=" ++ group [Plus alnum].

Definition insert_stmt (username mail password : bytes) : bytes :=
  str "INSERT INTO user(username, mail, passwd) VALUES('" ++ username ++ str "', '"
  ++ mail ++ str "', '" ++ password ++ str "')".

Section application.
Context {BT : BaseTime} {SV : Services}.

Record Application := mkApplication {
  realFile_ : bytes;
  serverPath_ : bytes;
  fileStat_ : Z;
}.

(** [executed] records the statements sent to the database. *)
Record AppWorld := mkAppWorld {
  app : Application;
  svc : Svc;
  executed : list bytes;
}.

Definition on_svc {A} (f : Svc -> A * Svc) : M AppWorld A := λ w,
  let '(a, s) := f (svc w) in Ok (a, {| w with svc := s |}).
Definition on_app (f : Application -> Application) : M AppWorld unit :=
  modify (λ w, {| w with app := f (app w) |}).

Definition execute (stmt : bytes) : M AppWorld (Z * list (list bytes)) :=
  modify (λ w, {| w with executed := executed w ++ [stmt] |}) ;;;
  on_svc (mysql_execute stmt).

(** [strlen(realFile_)], [strcpy(realFile_, src)] and [strcat(realFile_, src)]:
    to leave the array is a fault. *)
Definition strlen : M AppWorld nat := liftR (λ w,
  let n := find_byte ch_nul (realFile_ (app w)) in
  if (n <? length (realFile_ (app w)))%nat then Ok n else Fault OutOfBounds).

Definition write_string (at_ : nat) (src : bytes) : M AppWorld unit :=
  let t := c_string src ++ [ch_nul] in
  n ← gets (λ w, length (realFile_ (app w)));
  if (at_ + length t <=? n)%nat
  then on_app (λ a, {| a with realFile_ := splice (realFile_ a) (Z.of_nat at_) t |})
  else failM OutOfBounds.

Definition strcpy (src : bytes) : M AppWorld unit := write_string 0 src.
Definition strcat (src : bytes) : M AppWorld unit := n ← strlen; write_string n src.

(** [realFile_] passed to a function that takes a C string. *)
Definition real_name : M AppWorld bytes :=
  n ← strlen; gets (λ w, take n (realFile_ (app w))).

(** [stat(realFile_, &fileStat_)] and the three tests; [true] when the file is
    there, readable for others and not a directory. *)
Definition stat_file : M AppWorld bool :=
  f ← real_name;
  r ← gets (λ w, fs_stat f (svc w));
  match r with
  | None => mret false
  | Some mode =>
      on_app (λ a, {| a with fileStat_ := mode |}) ;;;
      mret (negb (Z.land mode S_IROTH =? 0) && negb (S_ISDIR mode))
  end.

Definition readFile2String (filename : bytes) : M AppWorld bytes :=
  gets (λ w, default [] (FSUtil_openForRead filename (svc w))).

Definition getHtml : M AppWorld bytes :=
  ok ← stat_file;
  if ok : bool then (f ← real_name; readFile2String f) else mret [].

Definition Application_ctor (root : bytes) : M AppWorld unit :=
  on_app (λ _, mkApplication (replicate FILENAME_LEN ch_nul) root 0) ;;;
  on_svc (λ s, (tt, mysql_init s)) ;;;
  res ← execute (str "SELECT username, mail, passwd FROM user;");
  on_svc (λ s, (tt, redis_connectSvr s)) ;;;
  for_each (snd res) (λ row,
    match row with
    | username :: _ :: passwd :: _ => _ ← on_svc (redis_setHField HASH_KEY username passwd); mret tt
    | _ => failM OutOfBounds
    end).

(** ** Requests *)
Abbreviation Handling := (AppWorld * HttpResponse)%type.

Definition worldL : lens Handling AppWorld := Lens fst (λ w s, (w, snd s)).
Definition respL : lens Handling HttpResponse := Lens snd (λ r s, (fst s, r)).

Definition preamble (code : HttpStatusCode) (message contentType : bytes) : M Handling unit :=
  zoom respL (setStatusCode code ;;; setStatusMessage message ;;;
              setContentType contentType ;;; HttpResponse.addHeader (str "Server") (str "Lux polaris")).

(** [strcpy(realFile_, serverPath_.c_str()); strcat(realFile_, file);] *)
Definition set_file (file : bytes) : M Handling unit :=
  zoom worldL (root ← gets (λ w, serverPath_ (app w)); strcpy root ;;; _ ← strlen; strcat file).

(** [resp->setBody(getHtml());] *)
Definition send_file : M Handling unit :=
  html ← zoom worldL getHtml; zoom respL (HttpResponse.setBody html).

Definition html_page (file : bytes) : M Handling unit :=
  preamble k200Ok (str "OK") (str "text/html") ;;; set_file file ;;; send_file.

(** [string(i)] of the last match. *)
Definition capture (caps : list bytes) (i : nat) : bytes := default [] (caps !! i).

Definition onRegister (req : HttpRequest) : M Handling unit :=
  preamble k200Ok (str "OK") (str "text/html") ;;;
  (let body := HttpRequest.body_ req in
   if bool_decide (method_ req = kPost) && negb (bool_decide (body = [])) then
     let caps := last_match register_pattern body [[]; []; []] in
     let username := capture caps 0 in
     let mail := capture caps 1 in
     let password := capture caps 2 in
     let stmt := insert_stmt username mail password in
     has ← zoom worldL (on_svc (redis_hasHField HASH_KEY username));
     if has =? 0 then
       '(rc, _) ← zoom worldL (execute stmt);
       if rc =? 0 then
         _ ← zoom worldL (on_svc (redis_setHField HASH_KEY username password));
         set_file (str "/welcome.html")
       else mret tt
     else set_file (str "/registerFailed.html")
   else set_file (str "/register.html")) ;;;
  send_file.

Definition onImage (req : HttpRequest) : M Handling unit :=
  preamble k200Ok (str "OK") (str "image/jpg") ;;;
  set_file (path_ req) ;;;
  ok ← zoom worldL stat_file;
  if ok : bool then
    f ← zoom worldL real_name;
    data ← gets (λ s, ifs_open f (svc (fst s)));
    zoom respL (HttpResponse.setBody (default [] data))
  else mret tt.

Definition onLogin (req : HttpRequest) : M Handling unit :=
  let caps := last_match login_pattern (query_ req) [[]; []] in
  let username := capture caps 0 in
  let passwd := capture caps 1 in
  has ← zoom worldL (on_svc (redis_hasHField HASH_KEY username));
  if negb (has =? 0) then
    pwd ← zoom worldL (on_svc (redis_getHField HASH_KEY username));
    if bool_decide (pwd = passwd) then html_page (str "/welcome.html")
    else html_page (str "/loginFailed.html")
  else html_page (str "/loginFailed.html").

(** [req.path().find(needle) != npos]. *)
Definition path_has (needle : bytes) (req : HttpRequest) : bool :=
  bool_decide (is_Some (memmem needle (path_ req))).

(** The last branch of [onRequest]. *)
Definition notFound : M Handling unit :=
  preamble k404NotFound (str "Not Found") (str "text/html") ;;;
  set_file (str "/404.html") ;;;
  send_file ;;;
  zoom respL (setCloseConnection true).

Definition onRequest (req : HttpRequest) : M Handling unit :=
  let path := path_ req in
  if bool_decide (path = str "/") || bool_decide (path = str "/index.html")
  then html_page (str "/index.html")
  else if bool_decide (path = str "/register") then onRegister req
  else if bool_decide (path = str "/welcome") then html_page (str "/welcome.html")
  else if path_has (str ".jpg") req then onImage req
  else if bool_decide (method_ req = kGet) && path_has (str "/login") req then onLogin req
  else notFound.
End application.
