(* ===== verification/ApplicationProps.v ===== *)
(** * What the application answers

    The C strings, the answer to every request, accounts, and what goes wrong
    with long file names and with forms that do not match. *)

From Stdlib Require Import ZArith Lia.
From stdpp Require Import gmap list.
From S2P Require Import Prelude Bytes Base HttpRequest HttpResponse Regex Application.

Local Open Scope Z_scope.

(** ** C strings *)
Section strings.
Context {SV : Services}.
Implicit Types (w : AppWorld) (a : Application).

(** The array holds the C string [f]. *)
Definition name_is (f : bytes) a : Prop :=
  length (realFile_ a) = FILENAME_LEN ∧ (ch_nul ∉ f) ∧ ∃ t, realFile_ a = f ++ ch_nul :: t.

(** Only [realFile_] and [fileStat_] change. *)
Definition same_rest w w' : Prop :=
  serverPath_ (app w') = serverPath_ (app w) ∧ svc w' = svc w ∧ executed w' = executed w.

Lemma strlen_ok f w : name_is f (app w) -> strlen w = Ok (length f, w).
Proof.
  intros (_ & Hn & t & Ht). unfold strlen, liftR. rewrite Ht, find_byte_app by done.
  rewrite (proj2 (Nat.ltb_lt _ _)); [done|]. rewrite length_app. simpl. lia.
Qed.

Lemma real_name_ok f w : name_is f (app w) -> real_name w = Ok (f, w).
Proof.
  intros H. unfold real_name. rewrite (bind_ok _ _ _ _ _ (strlen_ok f w H)).
  destruct H as (_ & _ & t & Ht). unfold gets. rewrite Ht. by rewrite take_app_length.
Qed.

(** Writing a string behind the first [length f] characters. *)
Lemma write_string_ok f src w : length (realFile_ (app w)) = FILENAME_LEN ->
  (ch_nul ∉ f) -> take (length f) (realFile_ (app w)) = f ->
  (length f + length (c_string src) < FILENAME_LEN)%nat ->
  wp (write_string (length f) src) (λ _ w', name_is (f ++ c_string src) (app w')
    ∧ same_rest w w') w.
Proof.
  intros Hl Hn Hf Hlt. unfold write_string. rewrite wp_bind, wp_gets, Hl, length_app. simpl.
  rewrite (proj2 (Nat.leb_le _ _)) by lia. unfold on_app. rewrite wp_modify.
  split; [|done]. split_and!; cbn [app realFile_].
  - apply Nat2Z.inj. rewrite splice_length; [by rewrite Hl|lia|]. rewrite Hl, length_app. simpl. lia.
  - rewrite elem_of_app. intros [?|?]; [done|]. by apply (c_string_no_nul src).
  - eexists. unfold splice. rewrite Nat2Z.id, Hf. by rewrite <- !app_assoc.
Qed.

Lemma write_string_overflow n src w : length (realFile_ (app w)) = FILENAME_LEN ->
  (FILENAME_LEN <= n + length (c_string src))%nat ->
  write_string n src w = Fault OutOfBounds.
Proof.
  intros Hl Hge. unfold write_string. rewrite (bind_ok (gets _) _ _ _ _ eq_refl), Hl, length_app. simpl.
  by rewrite (proj2 (Nat.leb_gt _ _)) by lia.
Qed.

Definition root w : bytes := c_string (serverPath_ (app w)).

(** There is room for the root and a name of [n] characters. *)
Definition room (n : nat) w : Prop :=
  length (realFile_ (app w)) = FILENAME_LEN ∧ (length (root w) + n < FILENAME_LEN)%nat.

Lemma strcpy_ok w n : room n w ->
  wp (strcpy (serverPath_ (app w))) (λ _ w', name_is (root w) (app w') ∧ same_rest w w') w.
Proof.
  intros [Hl Hr].
  apply (write_string_ok [] _ w); [done|apply not_elem_of_nil|done|simpl; unfold root in Hr; lia].
Qed.

Lemma set_file_ok file w (r : HttpResponse) : room (length (c_string file)) w ->
  wp (set_file file) (λ _ s, snd s = r ∧ name_is (root w ++ c_string file) (app (fst s))
    ∧ same_rest w (fst s)) (w, r).
Proof.
  intros Hr. unfold set_file. rewrite wp_zoom, wp_bind, wp_gets, wp_bind. cbn [view worldL fst].
  eapply wp_mono; [exact (strcpy_ok w _ Hr)|]. intros [] w1 (Hn & Hs).
  rewrite wp_bind. eapply wp_intro; [by apply (strlen_ok (root w))|].
  unfold strcat. rewrite wp_bind. eapply wp_intro; [by apply (strlen_ok (root w))|].
  destruct Hn as (Hl & Hnn & t & Ht).
  eapply wp_mono; [apply (write_string_ok (root w) file w1); [done|done| |apply Hr]|].
  - rewrite Ht. apply take_app_length.
  - intros [] w2 (Hn2 & Hs2). cbn. split_and!; [done|done|].
    destruct Hs as (? & ? & ?), Hs2 as (? & ? & ?). split_and!; congruence.
Qed.

Lemma set_file_overflow file w (r : HttpResponse) : room 0 w ->
  (FILENAME_LEN <= length (root w) + length (c_string file))%nat ->
  set_file file (w, r) = Fault OutOfBounds.
Proof.
  intros Hr Hge. unfold set_file, zoom. cbn [view worldL fst].
  rewrite (bind_ok (gets _) _ _ _ _ eq_refl).
  destruct (proj1 (wp_ok _ _ _) (strcpy_ok w 0 Hr)) as ([] & w1 & H1 & Hn & _).
  rewrite (bind_ok _ _ _ _ _ H1), (bind_ok _ _ _ _ _ (strlen_ok _ _ Hn)).
  unfold strcat. rewrite (bind_ok _ _ _ _ _ (strlen_ok _ _ Hn)).
  by rewrite write_string_overflow; [|apply Hn|].
Qed.

(** ** Files *)
Definition visible (mode : Z) : bool := negb (Z.land mode S_IROTH =? 0) && negb (S_ISDIR mode).

Definition fetch (open : bytes -> Svc -> option bytes) (f : bytes) (s : Svc) : option bytes :=
  match fs_stat f s with
  | Some mode => if visible mode then Some (default [] (open f s)) else None
  | None => None
  end.

Lemma stat_file_ok f w : name_is f (app w) ->
  wp stat_file (λ ok w', ok = match fs_stat f (svc w) with Some mode => visible mode | None => false end
    ∧ name_is f (app w') ∧ same_rest w w') w.
Proof.
  intros H. unfold stat_file. rewrite wp_bind. eapply wp_intro; [by apply real_name_ok|].
  rewrite wp_bind, wp_gets. destruct (fs_stat f (svc w)); [|by rewrite wp_ret].
  rewrite wp_bind. unfold on_app. by rewrite wp_modify, wp_ret.
Qed.

Lemma send_file_ok f w (r : HttpResponse) : name_is f (app w) ->
  wp send_file (λ _ s, snd s = {| r with body_ := default [] (fetch FSUtil_openForRead f (svc w)) |}
    ∧ name_is f (app (fst s)) ∧ same_rest w (fst s)) (w, r).
Proof.
  intros H. unfold send_file, getHtml. rewrite wp_bind, wp_zoom, wp_bind. cbn [view worldL fst].
  eapply wp_mono; [by apply stat_file_ok|]. intros ok w1 (-> & Hn & Hs). unfold fetch.
  destruct (fs_stat f (svc w)) as [mode|]; [destruct (visible mode)|]; cbn [default].
  - rewrite wp_bind. eapply wp_intro; [by apply real_name_ok|].
    unfold readFile2String. rewrite wp_gets, wp_zoom. destruct Hs as (? & Hs & ?). by rewrite Hs.
  - by rewrite wp_ret, wp_zoom.
  - by rewrite wp_ret, wp_zoom.
Qed.

(** ** What a request asks for *)
Record reply := mkReply {
  rp_code : HttpStatusCode;
  rp_message : bytes;
  rp_type : bytes;
  (** The file below the root, or the one shown last. *)
  rp_file : option bytes;
  rp_image : bool;
  rp_close : bool;
}.

Definition page (file : bytes) : reply :=
  mkReply k200Ok (str "OK") (str "text/html") (Some file) false false.
Definition last_page : reply := mkReply k200Ok (str "OK") (str "text/html") None false false.
Definition image (file : bytes) : reply :=
  mkReply k200Ok (str "OK") (str "image/jpg") (Some file) true false.
Definition not_found : reply :=
  mkReply k404NotFound (str "Not Found") (str "text/html") (Some (str "/404.html")) false true.

(** Username, mail and password of a registration form, and username and
    password of a login query; empty when nothing matches. *)
Definition register_form (body : bytes) : bytes * bytes * bytes :=
  let caps := last_match register_pattern body [[]; []; []] in
  (capture caps 0, capture caps 1, capture caps 2).
Definition login_form (query : bytes) : bytes * bytes :=
  let caps := last_match login_pattern query [[]; []] in (capture caps 0, capture caps 1).

(** The reply, the state of the services afterwards and the statements run. *)
Definition register_reply (body : bytes) (s : Svc) : reply * Svc * list bytes :=
  let '(username, mail, password) := register_form body in
  let '(has, s) := redis_hasHField HASH_KEY username s in
  if has =? 0 then
    let stmt := insert_stmt username mail password in
    let '((rc, _), s) := mysql_execute stmt s in
    if rc =? 0 then (page (str "/welcome.html"), snd (redis_setHField HASH_KEY username password s), [stmt])
    else (last_page, s, [stmt])
  else (page (str "/registerFailed.html"), s, []).

Definition login_reply (query : bytes) (s : Svc) : reply * Svc * list bytes :=
  let '(username, password) := login_form query in
  let '(has, s) := redis_hasHField HASH_KEY username s in
  if has =? 0 then (page (str "/loginFailed.html"), s, [])
  else
    let '(pwd, s) := redis_getHField HASH_KEY username s in
    (page (if bool_decide (pwd = password) then str "/welcome.html" else str "/loginFailed.html"), s, []).

Definition route {BT : BaseTime} (req : HttpRequest) (s : Svc) : reply * Svc * list bytes :=
  if bool_decide (path_ req ∈ [str "/"; str "/index.html"]) then (page (str "/index.html"), s, [])
  else if bool_decide (path_ req = str "/register") then
    if bool_decide (method_ req = kPost ∧ HttpRequest.body_ req ≠ [])
    then register_reply (HttpRequest.body_ req) s
    else (page (str "/register.html"), s, [])
  else if bool_decide (path_ req = str "/welcome") then (page (str "/welcome.html"), s, [])
  else if path_has (str ".jpg") req then (image (c_string (path_ req)), s, [])
  else if bool_decide (method_ req = kGet) && path_has (str "/login") req
  then login_reply (query_ req) s
  else (not_found, s, []).

(** The response for the file [f]. *)
Definition respond (rp : reply) (f : bytes) (s : Svc) (r : HttpResponse) : HttpResponse := {|
  headers_ := map_set (str "Server") (str "Lux polaris")
                (map_set (str "Content-Type") (rp_type rp) (headers_ r));
  statusCode_ := rp_code rp;
  statusMessage_ := rp_message rp;
  closeConnection_ := rp_close rp || closeConnection_ r;
  body_ := if rp_image rp then default (body_ r) (fetch ifs_open f s)
           else default [] (fetch FSUtil_openForRead f s);
|}.

(** The world after a reply. *)
Record replied (w : AppWorld) (f : bytes) (s : Svc) (stmts : list bytes) (w' : AppWorld) : Prop := {
  re_name : name_is f (app w');
  re_path : serverPath_ (app w') = serverPath_ (app w);
  re_svc : svc w' = s;
  re_stmts : executed w' = executed w ++ stmts;
}.

Definition file_of (rp : reply) (f0 : bytes) (w : AppWorld) : bytes :=
  match rp_file rp with Some f => root w ++ f | None => f0 end.

(** From [w0] on, only the services and the log have changed. *)
Definition gone_on (w0 w : AppWorld) (s : Svc) (stmts : list bytes) : Prop :=
  app w = app w0 ∧ svc w = s ∧ executed w = executed w0 ++ stmts.

Lemma show_ok w0 w f0 (file : option bytes) stmts (r : HttpResponse) :
  gone_on w0 w (svc w) stmts -> name_is f0 (app w0) ->
  (∀ f, file = Some f -> (ch_nul ∉ f) ∧ room (length f) w0) ->
  let f := match file with Some f => root w0 ++ f | None => f0 end in
  wp (match file with Some f => set_file f | None => mret tt end ;;; send_file)
    (λ _ st, snd st = {| r with body_ := default [] (fetch FSUtil_openForRead f (svc w)) |}
      ∧ replied w0 f (svc w) stmts (fst st)) (w, r).
Proof.
  intros (Ha & _ & He) Hn Hroom f. rewrite wp_bind.
  assert (Hdone : ∀ w1 (r1 : HttpResponse), r1 = r -> name_is f (app w1) -> same_rest w w1 ->
    wp send_file (λ _ st, snd st = {| r with body_ := default [] (fetch FSUtil_openForRead f (svc w)) |}
      ∧ replied w0 f (svc w) stmts (fst st)) (w1, r1)).
  { intros w1 r1 -> Hn1 (Hp1 & Hs1 & He1). eapply wp_mono; [by apply (send_file_ok f)|].
    intros [] [w2 r2] (Hr2 & Hn2 & Hp2 & Hs2 & He2). cbn [fst snd] in *.
    split; [by rewrite Hr2, Hs1|]. split; [done|by rewrite Hp2, Hp1, Ha|congruence|congruence]. }
  destruct file as [g|].
  - destruct (Hroom g eq_refl) as [Hg Hr]. rewrite <- (c_string_id g Hg) in Hr.
    eapply wp_mono; [apply (set_file_ok g w r)|].
    + unfold room, root in *. by rewrite Ha.
    + intros [] [w1 r1] (Hr1 & Hn1 & Hs1). apply Hdone; [exact Hr1| |exact Hs1].
      unfold f, root. rewrite <- Ha. by rewrite c_string_id in Hn1.
  - rewrite wp_ret. apply Hdone; [done|by rewrite Ha|done].
Qed.

(** The headers and the status. *)
Definition headed (rp : reply) (r : HttpResponse) : HttpResponse := {|
  headers_ := map_set (str "Server") (str "Lux polaris")
                (map_set (str "Content-Type") (rp_type rp) (headers_ r));
  statusCode_ := rp_code rp; statusMessage_ := rp_message rp;
  closeConnection_ := closeConnection_ r; body_ := body_ r |}.

Lemma preamble_ok rp w (r : HttpResponse) :
  preamble (rp_code rp) (rp_message rp) (rp_type rp) (w, r) = Ok (tt, (w, headed rp r)).
Proof. done. Qed.

(** What the handler achieves, as a postcondition. *)
Definition answered w0 f0 (out : reply * Svc * list bytes) (r : HttpResponse) (st : AppWorld * HttpResponse) : Prop :=
  let '(rp, s, stmts) := out in
  snd st = respond rp (file_of rp f0 w0) s r ∧ replied w0 (file_of rp f0 w0) s stmts (fst st).

(** The file of a reply can be named. *)
Definition nameable w (rp : reply) : Prop :=
  match rp_file rp with Some f => (ch_nul ∉ f) ∧ room (length f) w | None => True end.

Lemma show_answer rp w0 w f0 s stmts (r : HttpResponse) :
  gone_on w0 w s stmts -> name_is f0 (app w0) -> nameable w0 rp ->
  rp_image rp = false -> rp_close rp = false ->
  wp (match rp_file rp with Some f => set_file f | None => mret tt end)
    (λ _ st, wp send_file (λ _ st, answered w0 f0 (rp, s, stmts) r st) st) (w, headed rp r).
Proof.
  intros Hg Hn Hr Hi Hc. pose proof (proj1 (proj2 Hg)) as Hs. rewrite <- Hs in Hg. rewrite <- wp_bind.
  eapply wp_mono; [apply (show_ok w0 w f0 (rp_file rp) stmts _ Hg Hn)|].
  - intros f Hf. unfold nameable in Hr. by rewrite Hf in Hr.
  - intros [] [w' r'] [Hr' Hre]. cbn [fst snd] in *. rewrite Hs in *. split; [|exact Hre]. cbn [snd].
    unfold respond. by rewrite Hi, Hc, Hr'.
Qed.

Lemma html_page_ok w0 w f0 file s stmts (r : HttpResponse) :
  gone_on w0 w s stmts -> name_is f0 (app w0) -> nameable w0 (page file) ->
  wp (html_page file) (λ _ st, answered w0 f0 (page file, s, stmts) r st) (w, r).
Proof.
  intros Hg Hn Hf. unfold html_page. rewrite wp_bind.
  eapply wp_intro; [apply (preamble_ok (page file))|]. rewrite wp_bind.
  by apply (show_answer (page file)).
Qed.

Lemma svc_wp {A} (f : Svc -> A * Svc) Q w (r : HttpResponse) (v : A) s : f (svc w) = (v, s) ->
  Q v ({| w with svc := s |}, r) -> wp (zoom worldL (on_svc f)) Q (w, r).
Proof. intros Hf HQ. rewrite wp_zoom. unfold wp, on_svc. cbn. by rewrite Hf. Qed.

(** Every page of the application has a name of at most 20 characters. *)
Lemma nameable_page w file : room 20 w -> (ch_nul ∉ str file) -> (length (str file) <= 20)%nat ->
  nameable w (page (str file)).
Proof. intros [Hl Hr] Hn Hf. split; [done|]. split; [done|]. lia. Qed.

Ltac page_name := apply nameable_page; [done|by apply (bool_decide_unpack _); vm_compute|vm_compute; lia].

Lemma onRegister_ok {BT : BaseTime} w f0 (req : HttpRequest) (r : HttpResponse) :
  room 20 w -> name_is f0 (app w) ->
  wp (onRegister req) (λ _ st, answered w f0
    (if bool_decide (method_ req = kPost ∧ HttpRequest.body_ req ≠ [])
     then register_reply (HttpRequest.body_ req) (svc w)
     else (page (str "/register.html"), svc w, [])) r st) (w, r).
Proof.
  intros Hroom Hn. assert (Hg : gone_on w w (svc w) []) by (split_and!; [done..|by rewrite app_nil_r]).
  unfold onRegister. rewrite wp_bind.
  eapply wp_intro; [apply (preamble_ok (page []))|]. rewrite wp_bind, wp_if.
  case_bool_decide as Hm; case_bool_decide as Hb; simpl.
  - rewrite bool_decide_eq_false_2 by tauto.
    apply (show_answer (page (str "/register.html"))); [done..|page_name|done|done].
  - rewrite bool_decide_eq_true_2 by done. unfold register_reply, register_form.
    set (caps := last_match _ _ _).
    destruct (redis_hasHField HASH_KEY (capture caps 0) (svc w)) as [has s1] eqn:E1.
    rewrite wp_bind. eapply svc_wp; [exact E1|]. rewrite wp_if. destruct (has =? 0).
    2:{ apply (show_answer (page (str "/registerFailed.html"))); [|done|page_name|done|done].
        split_and!; [done..|by rewrite app_nil_r]. }
    rewrite wp_bind. unfold execute.
    set (stmt := insert_stmt _ _ _).
    destruct (mysql_execute stmt s1) as [[rc rows] s2] eqn:E2.
    rewrite wp_zoom, wp_bind, wp_modify. unfold wp at 1, on_svc at 1. cbn [svc view worldL fst].
    rewrite E2. destruct (rc =? 0).
    + destruct (redis_setHField HASH_KEY (capture caps 0) (capture caps 2) s2) as [n s3] eqn:E3.
      apply wp_bind. eapply svc_wp; [exact E3|].
      apply (show_answer (page (str "/welcome.html"))); [done|done|page_name|done|done].
    + apply (show_answer last_page); [done..|done|done].
  - rewrite bool_decide_eq_false_2 by tauto.
    apply (show_answer (page (str "/register.html"))); [done..|page_name|done|done].
  - rewrite bool_decide_eq_false_2 by tauto.
    apply (show_answer (page (str "/register.html"))); [done..|page_name|done|done].
Qed.

Lemma onLogin_ok {BT : BaseTime} w f0 (req : HttpRequest) (r : HttpResponse) :
  room 20 w -> name_is f0 (app w) ->
  wp (onLogin req) (λ _ st, answered w f0 (login_reply (query_ req) (svc w)) r st) (w, r).
Proof.
  intros Hroom Hn. unfold onLogin, login_reply, login_form. set (caps := last_match _ _ _).
  destruct (redis_hasHField HASH_KEY (capture caps 0) (svc w)) as [has s1] eqn:E1.
  rewrite wp_bind. eapply svc_wp; [exact E1|]. rewrite wp_if. destruct (has =? 0); simpl.
  - apply html_page_ok; [split_and!; [done..|by rewrite app_nil_r]|done|page_name].
  - destruct (redis_getHField HASH_KEY (capture caps 0) s1) as [pwd s2] eqn:E2.
    rewrite wp_bind. eapply svc_wp; [exact E2|]. rewrite wp_if.
    case_bool_decide; (apply html_page_ok; [split_and!; [done..|by rewrite app_nil_r]|done|page_name]).
Qed.

Lemma onImage_ok {BT : BaseTime} w f0 (req : HttpRequest) (r : HttpResponse) :
  room (length (c_string (path_ req))) w ->
  wp (onImage req) (λ _ st, answered w f0 (image (c_string (path_ req)), svc w, []) r st) (w, r).
Proof.
  intros Hroom. unfold onImage. rewrite wp_bind.
  eapply wp_intro; [apply (preamble_ok (image []))|]. rewrite wp_bind.
  eapply wp_mono; [by apply set_file_ok|]. intros [] [w1 r1] (Hr1 & Hn1 & Hs1). cbn [fst snd] in *.
  rewrite wp_bind, wp_zoom. cbn [view worldL fst].
  eapply wp_mono; [by apply stat_file_ok|]. intros ok w2 (Hok & Hn2 & Hs2). cbn [upd worldL snd].
  destruct Hs1 as (Hp1 & Hv1 & He1), Hs2 as (Hp2 & Hv2 & He2).
  assert (Hre : replied w (root w ++ c_string (path_ req)) (svc w) [] w2).
  { split; [done|congruence|congruence|]. rewrite app_nil_r. congruence. }
  assert (Hresp : ∀ b, b = default (body_ r)
      (fetch ifs_open (root w ++ c_string (path_ req)) (svc w)) ->
    {| r1 with body_ := b |} = respond (image (c_string (path_ req)))
      (root w ++ c_string (path_ req)) (svc w) r) by (intros b ->; by rewrite Hr1).
  rewrite wp_if. subst ok. rewrite Hv1. unfold fetch in Hresp.
  destruct (fs_stat _ (svc w)) as [mode|]; [destruct (visible mode)|]; cbn [default] in Hresp.
  - rewrite wp_bind, wp_zoom. eapply wp_intro; [by apply real_name_ok|].
    rewrite wp_bind, wp_gets, wp_zoom. cbn [fst upd worldL respL snd view].
    split; [|exact Hre]. cbn [snd]. apply Hresp. by rewrite Hv2, Hv1.
  - rewrite wp_ret. split; [|exact Hre]. cbn [snd]. etrans; [|apply (Hresp (body_ r1)); by rewrite Hr1].
    by destruct r1.
  - rewrite wp_ret. split; [|exact Hre]. cbn [snd]. etrans; [|apply (Hresp (body_ r1)); by rewrite Hr1].
    by destruct r1.
Qed.

Lemma not_found_ok w f0 (r : HttpResponse) : room 20 w -> name_is f0 (app w) ->
  wp (preamble k404NotFound (str "Not Found") (str "text/html") ;;; set_file (str "/404.html") ;;;
      send_file ;;; zoom respL (setCloseConnection true))
    (λ _ st, answered w f0 (not_found, svc w, []) r st) (w, r).
Proof.
  intros Hroom Hn. rewrite wp_bind. eapply wp_intro; [apply (preamble_ok not_found)|]. rewrite wp_bind.
  eapply wp_mono.
  { apply (show_answer (mkReply k404NotFound (str "Not Found") (str "text/html")
      (Some (str "/404.html")) false false) w w f0 (svc w) []); [|done|page_name|done|done].
    split_and!; [done..|by rewrite app_nil_r]. }
  intros [] st Hst. rewrite wp_bind. eapply wp_mono; [exact Hst|].
  intros [] [w1 r1] [Hr1 Hre]. cbn [fst snd] in *. rewrite wp_zoom. split; [|exact Hre].
  cbn [snd upd respL]. by rewrite Hr1.
Qed.

Lemma onRequest_ok {BT : BaseTime} w f0 (req : HttpRequest) (r : HttpResponse) :
  room 20 w -> name_is f0 (app w) ->
  (path_has (str ".jpg") req = true -> room (length (c_string (path_ req))) w) ->
  wp (onRequest req) (λ _ st, answered w f0 (route req (svc w)) r st) (w, r).
Proof.
  intros Hroom Hn Himg. unfold onRequest, route.
  assert (Hg : gone_on w w (svc w) []) by (split_and!; [done..|by rewrite app_nil_r]).
  replace (bool_decide (path_ req ∈ [str "/"; str "/index.html"]))
    with (bool_decide (path_ req = str "/") || bool_decide (path_ req = str "/index.html")).
  2:{ rewrite <- bool_decide_or. apply bool_decide_ext. rewrite !elem_of_cons, elem_of_nil. tauto. }
  destruct (_ || _); [apply html_page_ok; [done|done|page_name]|].
  destruct (bool_decide (path_ req = str "/register")); [by apply onRegister_ok|].
  destruct (bool_decide (path_ req = str "/welcome")); [apply html_page_ok; [done|done|page_name]|].
  destruct (path_has (str ".jpg") req); [by apply onImage_ok, Himg|].
  destruct (_ && _); [by apply onLogin_ok|by apply not_found_ok].
Qed.
End strings.

(** ** Forms *)
Lemma alts_lit a r cur caps s : alts (lit a ++ r) cur caps (str a ++ s) = alts r (cur ++ str a) caps s.
Proof. apply alts_chars. Qed.

(** [u ++ text] where the text starts with a character outside the class. *)
Lemma alts_plus_str p a r cur caps u s c t : str a = c :: t -> u ≠ [] ->
  Forall (λ c, p c = true) u -> p c = false -> starts_with c r ->
  alts (Plus p :: r) cur caps (u ++ str a ++ s) = alts r (cur ++ u) caps (str a ++ s).
Proof. intros -> Hu Hp Hc Hr. simpl ((c :: t) ++ s). by apply alts_plus. Qed.

Definition register_text (u m1 m2 p : bytes) : bytes :=
  str "Username=" ++ u ++ str "&email=" ++ m1 ++ str "%40" ++ m2 ++ str ".com"
  ++ str "&password=" ++ p.
Definition login_text (u p : bytes) : bytes := str "?Username=" ++ u ++ str "&password=" ++ p.

(** A word of a class. *)
Definition word (p : Byte.byte -> bool) (u : bytes) : Prop := u ≠ [] ∧ Forall (λ c, p c = true) u.

Lemma alts_last_group p caps u : word p u ->
  ∃ l, alts (group [Plus p]) [] caps u = (caps ++ [u], []) :: l.
Proof.
  intros [Hu Hp]. unfold group. cbn [app].
  destruct (alts_plus_end p [Close] [] caps u Hu Hp) as [l Hl]. exists l. exact Hl.
Qed.

Lemma login_alts u p : word alnum u -> word alnum p ->
  ∃ l, alts login_pattern [] [] (login_text u p) = ([u; p], []) :: l.
Proof.
  intros [Hu Hup] Hp. unfold login_pattern, login_text. rewrite alts_lit.
  unfold group at 1. cbn [app alts].
  change (∃ l, alts (Plus alnum :: Close :: lit "&password=" ++ group [Plus alnum]) [] []
    (u ++ str "&password=" ++ p) = ([u; p], []) :: l).
  erewrite alts_plus_str by done. cbn [alts app]. rewrite alts_lit.
  apply (alts_last_group alnum [u] p Hp).
Qed.

Lemma register_alts u m1 m2 p : word alnum_ u -> word alnum m1 -> word letter m2 -> word alnum p ->
  ∃ l, alts register_pattern [] [] (register_text u m1 m2 p)
       = ([u; m1 ++ str "%40" ++ m2 ++ str ".com"; p], []) :: l.
Proof.
  intros [Hu Hup] [Hm1 Hm1p] [Hm2 Hm2p] Hp. unfold register_pattern, register_text. rewrite alts_lit.
  change (∃ l, alts (Plus alnum_ :: Close :: lit "&email=" ++ Open :: Plus alnum :: lit "%40"
      ++ Plus letter :: lit ".com" ++ Close :: lit "&password=" ++ group [Plus alnum]) [] []
    (u ++ str "&email=" ++ m1 ++ str "%40" ++ m2 ++ str ".com" ++ str "&password=" ++ p)
    = ([u; m1 ++ str "%40" ++ m2 ++ str ".com"; p], []) :: l).
  erewrite alts_plus_str by done. cbn [alts app]. rewrite alts_lit. cbn [alts].
  change (∃ l, alts (Plus alnum :: lit "%40"
      ++ Plus letter :: lit ".com" ++ Close :: lit "&password=" ++ group [Plus alnum]) [] [u]
    (m1 ++ str "%40" ++ m2 ++ str ".com" ++ str "&password=" ++ p)
    = ([u; m1 ++ str "%40" ++ m2 ++ str ".com"; p], []) :: l).
  erewrite alts_plus_str by done. rewrite alts_lit. erewrite alts_plus_str by done. rewrite alts_lit.
  cbn [alts]. rewrite alts_lit.
  destruct (alts_last_group alnum [u; m1 ++ str "%40" ++ m2 ++ str ".com"] p Hp) as [l Hl].
  exists l. cbn [app] in *. rewrite <- !app_assoc. exact Hl.
Qed.

Lemma login_form_text u p : word alnum u -> word alnum p ->
  login_form (login_text u p) = (u, p).
Proof.
  intros Hu Hp. destruct (login_alts u p Hu Hp) as [l Hl]. unfold login_form.
  by rewrite (last_match_whole _ _ _ _ _ Hl).
Qed.

Lemma register_form_text u m1 m2 p :
  word alnum_ u -> word alnum m1 -> word letter m2 -> word alnum p ->
  register_form (register_text u m1 m2 p) = (u, m1 ++ str "%40" ++ m2 ++ str ".com", p).
Proof.
  intros Hu Hm1 Hm2 Hp. destruct (register_alts u m1 m2 p Hu Hm1 Hm2 Hp) as [l Hl].
  unfold register_form. by rewrite (last_match_whole _ _ _ _ _ Hl).
Qed.

(** Forms that match nowhere. *)
Lemma login_form_none query : search login_pattern query = None -> login_form query = ([], []).
Proof. intros H. unfold login_form, last_match. simpl. by rewrite H. Qed.

Lemma register_form_none body : search register_pattern body = None ->
  register_form body = ([], [], []).
Proof. intros H. unfold register_form, last_match. simpl. by rewrite H. Qed.

(** ** The properties *)

(** What the sources rely on of Redis: [hget k f s] is the content of a field;
    [setHField] returns 0 when it has stored the value. *)
Class RedisLaws (SV : Services) := {
  hget : bytes -> bytes -> Svc -> option bytes;
  has_law : ∀ k f s n s', redis_hasHField k f s = (n, s') ->
    (n = 0 ↔ hget k f s = None) ∧ (∀ k' f', hget k' f' s' = hget k' f' s);
  get_law : ∀ k f s v s', redis_getHField k f s = (v, s') ->
    (∀ v', hget k f s = Some v' -> v = v') ∧ (∀ k' f', hget k' f' s' = hget k' f' s);
  set_law : ∀ k f v s s', redis_setHField k f v s = (0, s') -> hget k f s' = Some v;
}.

(** The databases, in the state [s], accept this registration: the INSERT reports
    success, and then Redis that the field is stored. *)
Definition takes {SV : Services} (username mail password : bytes) (s : Svc) : Prop :=
  let '(_, s1) := redis_hasHField HASH_KEY username s in
  let '(rc, _, s2) := mysql_execute (insert_stmt username mail password) s1 in
  rc = 0 ∧ fst (redis_setHField HASH_KEY username password s2) = 0.

Section properties.
Context {BT : BaseTime} {SV : Services}.
Implicit Types (w : AppWorld) (r : HttpResponse) (req : HttpRequest).

(** C13: A request is answered as [route] says.  Provided that the names fit into
    realFile_ -- the root and 20 characters, and for an image, whose path contains
    .jpg, the root and the path, are shorter than 200; otherwise see C31 --
    onRequest returns, and the response has the status,
    the headers and the close flag of the reply, and as body the contents of the
    file below the server's root when it is there, readable for others and not
    a directory; the reply, what happens to the accounts and the statements sent
    to the database are determined by [route].  When the database refuses a
    registration the body is the file that was shown last. *)
Theorem onRequest_answers req w f0 r :
  name_is f0 (app w) -> room 20 w ->
  (path_has (str ".jpg") req = true -> room (length (c_string (path_ req))) w) ->
  let '(rp, s, stmts) := route req (svc w) in
  wp (onRequest req) (λ _ '(w', r'),
    r' = respond rp (file_of rp f0 w) s r ∧ svc w' = s ∧ executed w' = executed w ++ stmts
    ∧ serverPath_ (app w') = serverPath_ (app w) ∧ name_is (file_of rp f0 w) (app w')) (w, r).
Proof.
  intros Hn Hr Hi. pose proof (onRequest_ok w f0 req r Hr Hn Hi) as H. unfold answered in H.
  destruct (route req (svc w)) as [[rp s] stmts].
  eapply wp_mono; [exact H|]. by intros [] [w' r'] [? []].
Qed.

(** C31: The array of 200 characters.  A request for an image overflows realFile_
    exactly when the root and the path together have 200 characters or more;
    nothing limits the length of the path of a request. *)
Theorem image_name_overflow req w f0 r : name_is f0 (app w) -> room 20 w ->
  (path_ req ∉ [str "/"; str "/index.html"; str "/register"; str "/welcome"]) ->
  path_has (str ".jpg") req = true ->
  onRequest req (w, r) = Fault OutOfBounds ↔
  (FILENAME_LEN <= length (root w) + length (c_string (path_ req)))%nat.
Proof.
  intros Hn Hr Hp Hj. split.
  - intros Hf. destruct (decide (FILENAME_LEN <= length (root w) + length (c_string (path_ req)))%nat) as [|Hlt];
      [done|]. exfalso.
    assert (Hroom : room (length (c_string (path_ req))) w) by (split; [apply Hr|lia]).
    pose proof (onRequest_ok w f0 req r Hr Hn (λ _, Hroom)) as H. unfold wp in H. by rewrite Hf in H.
  - intros Hge. rewrite !not_elem_of_cons in Hp. destruct Hp as (? & ? & ? & ? & _).
    unfold onRequest. rewrite !bool_decide_eq_false_2 by done. simpl. rewrite Hj.
    unfold onImage. erewrite bind_ok by apply (preamble_ok (image [])).
    unfold mbind, M_bind. rewrite set_file_overflow; [done| |done].
    destruct Hr. split; [done|lia].
Qed.

(** A character that means nothing special in a string literal of SQL. *)
Definition plain (c : Byte.byte) : Prop := b2z c ≠ 39 ∧ b2z c ≠ 92 ∧ b2z c ≠ 34.

Lemma register_pattern_plain : Forall (item_within plain) register_pattern.
Proof.
  assert (Hl : ∀ c, letter c = true -> plain c).
  { intros c. unfold letter, in_class, plain. rewrite orb_true_iff, !andb_true_iff, !Z.leb_le. lia. }
  assert (Ha : ∀ c, alnum c = true -> plain c).
  { intros c. unfold alnum. rewrite orb_true_iff. intros [H|H]; [|by apply Hl].
    unfold in_class in H. rewrite andb_true_iff, !Z.leb_le in H. unfold plain. lia. }
  assert (Ha' : ∀ c, alnum_ c = true -> plain c).
  { intros c. unfold alnum_. rewrite orb_true_iff, Z.eqb_eq. intros [H|H]; [by apply Ha|].
    unfold plain. lia. }
  unfold register_pattern. repeat (apply Forall_app; split);
    repeat first [exact Ha|exact Ha'|exact Hl|constructor|done].
Qed.

(** C30: No injection.  Whatever is posted, the only statement onRequest sends to
    the database is the INSERT of app.cc with three values none of which contains
    a quote or a backslash, at most once per request. *)
Theorem no_injection req w f0 r : name_is f0 (app w) -> room 20 w ->
  (path_has (str ".jpg") req = true -> room (length (c_string (path_ req))) w) ->
  wp (onRequest req) (λ _ '(w', _), executed w' = executed w
    ∨ ∃ username mail password,
        executed w' = executed w ++ [insert_stmt username mail password]
        ∧ Forall plain username ∧ Forall plain mail ∧ Forall plain password) (w, r).
Proof.
  intros Hn Hr Hi. pose proof (onRequest_ok w f0 req r Hr Hn Hi) as H. unfold answered in H.
  assert (Hst : let '(_, _, stmts) := route req (svc w) in stmts = []
    ∨ ∃ u m p, stmts = [insert_stmt u m p] ∧ Forall plain u ∧ Forall plain m ∧ Forall plain p).
  { destruct (last_match_within plain register_pattern (HttpRequest.body_ req) [[]; []; []]
      register_pattern_plain) as [Hq Hlen]; [by repeat constructor|done|].
    unfold route, register_reply, register_form, login_reply, login_form.
    destruct (last_match register_pattern _ _) as [|u [|m [|p [|]]]]; try done.
    unfold capture. simpl. rewrite !Forall_cons in Hq. destruct Hq as (? & ? & ? & _).
    repeat case_match; simplify_eq; try (by left); right; by exists u, m, p. }
  destruct (route req (svc w)) as [[rp s] stmts].
  eapply wp_mono; [exact H|]. intros [] [w' r'] [_ []]. cbn [fst] in *. rewrite re_stmts0.
  destruct Hst as [->|(u & m & p & -> & ? & ? & ?)]; [left; by rewrite app_nil_r|right; by exists u, m, p].
Qed.

(** A registration followed by a login. *)
Record signs_up (reg : HttpRequest) (body : bytes) : Prop := {
  su_path : path_ reg = str "/register";
  su_method : method_ reg = kPost;
  su_body : HttpRequest.body_ reg = body;
  su_some : body ≠ [];
}.
Record logs_in (lg : HttpRequest) (query : bytes) : Prop := {
  li_path : path_ lg = str "/login";
  li_method : method_ lg = kGet;
  li_query : query_ lg = query;
}.

(** The second response shows the file [f]. *)
Definition shown (f : bytes) w (stmts : list bytes) (st : AppWorld * HttpResponse) : Prop :=
  statusCode_ (snd st) = k200Ok ∧ executed (fst st) = executed w ++ stmts
  ∧ name_is (root w ++ f) (app (fst st))
  ∧ body_ (snd st) = default [] (fetch FSUtil_openForRead (root w ++ f) (svc (fst st))).

Lemma sign_up_ok {RL : RedisLaws SV} reg body u m p w f0 r :
  name_is f0 (app w) -> room 20 w -> signs_up reg body -> register_form body = (u, m, p) ->
  hget HASH_KEY u (svc w) = None -> takes u m p (svc w) ->
  wp (onRequest reg) (λ _ st, shown (str "/welcome.html") w [insert_stmt u m p] st
    ∧ hget HASH_KEY u (svc (fst st)) = Some p ∧ root (fst st) = root w) (w, r).
Proof.
  intros Hn Hr [Hp Hm Hb Hs] Hf Hnone Ht. unfold takes in Ht.
  assert (Hj : path_has (str ".jpg") reg = false) by (unfold path_has; rewrite Hp; by vm_compute).
  pose proof (onRequest_ok w f0 reg r Hr Hn) as H.
  rewrite Hj in H. specialize (H ltac:(done)). unfold route in H. rewrite Hp in H.
  rewrite (bool_decide_eq_false_2 (_ ∈ _)) in H by (apply (bool_decide_unpack _); by vm_compute).
  rewrite bool_decide_eq_true_2 in H by done. rewrite bool_decide_eq_true_2 in H by by rewrite Hb.
  rewrite Hb in H. unfold register_reply in H. rewrite Hf in H.
  destruct (redis_hasHField HASH_KEY u (svc w)) as [has s1] eqn:E1.
  destruct (has_law _ _ _ _ _ E1) as [Hh Hk]. rewrite (proj2 Hh Hnone) in H. simpl in H.
  destruct (mysql_execute (insert_stmt u m p) s1) as [[rc rows] s2] eqn:E2. destruct Ht as [-> Ha].
  simpl in H.
  destruct (redis_setHField HASH_KEY u p s2) as [n s3] eqn:E3. simpl in Ha. subst n.
  eapply wp_mono; [exact H|]. intros [] [w1 r1'] [Hr1 [Hn1 Hp1 Hs1 He1]]. unfold shown. cbn [fst snd] in *.
  split_and!; [by rewrite Hr1|done|done|by rewrite Hr1, Hs1|rewrite Hs1; by eapply set_law|].
  unfold root. by rewrite Hp1.
Qed.

Lemma log_in_ok {RL : RedisLaws SV} lg query u p' w f0 r :
  name_is f0 (app w) -> room 20 w -> logs_in lg query -> login_form query = (u, p') ->
  wp (onRequest lg) (λ _ st, shown (if bool_decide (hget HASH_KEY u (svc w) = Some p')
    then str "/welcome.html" else str "/loginFailed.html") w [] st) (w, r).
Proof.
  intros Hn Hr [Hp Hm Hq] Hf.
  assert (Hj : path_has (str ".jpg") lg = false) by (unfold path_has; rewrite Hp; by vm_compute).
  pose proof (onRequest_ok w f0 lg r Hr Hn) as H.
  rewrite Hj in H. specialize (H ltac:(done)). unfold route in H.
  rewrite Hj in H. unfold path_has in H. rewrite Hp, Hm in H.
  rewrite (bool_decide_eq_false_2 (_ ∈ _)) in H by (apply (bool_decide_unpack _); by vm_compute).
  rewrite !(bool_decide_eq_false_2 (str _ = str _)) in H by done.
  rewrite bool_decide_eq_true_2 in H by done.
  rewrite (bool_decide_eq_true_2 (is_Some _)) in H by (apply (bool_decide_unpack _); by vm_compute).
  simpl in H. unfold login_reply in H. rewrite Hq, Hf in H.
  destruct (redis_hasHField HASH_KEY u (svc w)) as [has s1] eqn:E1.
  destruct (has_law _ _ _ _ _ E1) as [Hh Hk].
  assert (Hdone : ∀ file s2 st, answered w f0 (page file, s2, []) r st -> shown file w [] st).
  { intros file s2 [w1 r1] [Hr1 [Hn1 Hp1 Hs1 He1]]. unfold shown. cbn [fst snd] in *.
    split_and!; [by rewrite Hr1|done|done|by rewrite Hr1, Hs1]. }
  destruct (hget HASH_KEY u (svc w)) as [p|] eqn:Eh.
  - destruct (has =? 0) eqn:Ehas; bool_to_Z; [by apply Hh in Ehas|].
    destruct (redis_getHField HASH_KEY u s1) as [pwd s2] eqn:E2.
    destruct (get_law _ _ _ _ _ E2) as [Hg _]. rewrite Hk in Hg. rewrite (Hg p Eh) in H.
    replace (bool_decide (p = p')) with (bool_decide (Some p = Some p')) in H
      by (apply bool_decide_ext; naive_solver).
    eapply wp_mono; [exact H|]. intros [] st. apply Hdone.
  - rewrite (proj2 Hh eq_refl) in H. rewrite bool_decide_eq_false_2 by done.
    eapply wp_mono; [exact H|]. intros [] st. apply Hdone.
Qed.

(** The same user, one request after the other. *)
Lemma sign_up_log_in {RL : RedisLaws SV} reg lg body query u m p p' w f0 r1 r2 :
  name_is f0 (app w) -> room 20 w -> signs_up reg body -> logs_in lg query ->
  register_form body = (u, m, p) -> login_form query = (u, p') -> hget HASH_KEY u (svc w) = None ->
  takes u m p (svc w) ->
  wp (onRequest reg) (λ _ st1, wp (onRequest lg) (λ _ st2,
    shown (if bool_decide (p' = p) then str "/welcome.html" else str "/loginFailed.html")
      w [insert_stmt u m p] st2) (fst st1, r2)) (w, r1).
Proof.
  intros Hn Hr Hs Hl Hf Hq Hnone Ht.
  eapply wp_mono; [by apply (sign_up_ok reg body u m p w f0)|].
  intros [] [w1 r1'] [(_ & He & Hn1 & _) [Hg Hroot]]. cbn [fst] in *.
  eapply wp_mono.
  { apply (log_in_ok lg query u p' w1 _ r2 Hn1); [|done..].
    split; [apply Hn1|]. rewrite Hroot. apply Hr. }
  rewrite Hg. replace (bool_decide (p' = p)) with (bool_decide (Some p = Some p'))
    by (apply bool_decide_ext; naive_solver).
  intros [] st2 (? & He2 & ? & ?). unfold shown. rewrite Hroot in *. split_and!; try done.
  by rewrite He2, He, app_nil_r.
Qed.

(** C29: Accounts work.  Take a registration form filled in with a user name and a
    password of letters and digits -- no underscore, see [underscore_locked_out] --
    and a mail address of a .com domain, for a name that is not registered yet, and
    let MySQL accept the INSERT and Redis the field.  The row inserted has the three
    values as typed, and the login that follows shows the welcome page if its
    password is the one of the registration, and the failure page otherwise. *)
Theorem register_then_login {RL : RedisLaws SV}
    reg lg u m1 m2 p p' w f0 r1 r2 :
  name_is f0 (app w) -> room 20 w ->
  word alnum u -> word alnum m1 -> word letter m2 -> word alnum p -> word alnum p' ->
  signs_up reg (register_text u m1 m2 p) -> logs_in lg (login_text u p') ->
  hget HASH_KEY u (svc w) = None -> takes u (m1 ++ str "%40" ++ m2 ++ str ".com") p (svc w) ->
  wp (onRequest reg) (λ _ st1, wp (onRequest lg) (λ _ st2,
    shown (if bool_decide (p' = p) then str "/welcome.html" else str "/loginFailed.html") w
      [insert_stmt u (m1 ++ str "%40" ++ m2 ++ str ".com") p] st2) (fst st1, r2)) (w, r1).
Proof.
  intros Hn Hr Hu Hm1 Hm2 Hp Hp' Hs Hl Hnone Ht.
  apply (sign_up_log_in reg lg _ _ u _ p p' w f0 r1 r2 Hn Hr Hs Hl); [|by apply login_form_text|done..].
  apply register_form_text; [|done..]. destruct Hu as [? Hu]. split; [done|].
  eapply Forall_impl; [exact Hu|]. intros c Hc. unfold alnum_. by rewrite Hc.
Qed.

(** The account without a name.  A registration that does not match the
    pattern is not rejected: it inserts a row of empty values and makes an
    account with the empty name, after which every login that does not match its
    pattern either, whatever it contains, is welcomed. *)
Theorem empty_account {RL : RedisLaws SV} reg lg body query w f0 r1 r2 :
  name_is f0 (app w) -> room 20 w -> signs_up reg body -> logs_in lg query ->
  search register_pattern body = None -> search login_pattern query = None ->
  hget HASH_KEY [] (svc w) = None -> takes [] [] [] (svc w) ->
  wp (onRequest reg) (λ _ st1, wp (onRequest lg) (λ _ st2,
    shown (str "/welcome.html") w [insert_stmt [] [] []] st2) (fst st1, r2)) (w, r1).
Proof.
  intros Hn Hr Hs Hl Hb Hq Hnone Ht.
  apply (sign_up_log_in reg lg body query [] [] [] [] w f0 r1 r2 Hn Hr Hs Hl); [..|done|done].
  - by apply register_form_none.
  - by apply login_form_none.
Qed.

Lemma underscore_split u : Forall (λ c, alnum_ c = true) u -> Exists (λ c, b2z c = 95) u ->
  ∃ v x t, u = v ++ x :: t ∧ Forall (λ c, alnum c = true) v ∧ b2z x = 95.
Proof.
  induction 1 as [|c u Hc Hu IH]; intros He; [by apply Exists_nil in He|].
  destruct (alnum c) eqn:Ha.
  - apply Exists_cons in He as [He|He].
    + exists [], c, u. done.
    + destruct (IH He) as (v & x & t & -> & ? & ?). exists (c :: v), x, t. split_and!; [done|by constructor|done].
  - exists [], c, u. split; [done|]. split; [constructor|].
    unfold alnum_ in Hc. rewrite Ha in Hc. by apply Z.eqb_eq.
Qed.

Lemma underscore_no_match u p : Forall (λ c, alnum_ c = true) u -> Exists (λ c, b2z c = 95) u ->
  Forall (λ c, alnum c = true) p -> search login_pattern (login_text u p) = None.
Proof.
  intros Hu He Hp. destruct (underscore_split u Hu He) as (v & x & t & -> & Hv & Hx).
  assert (Hq : ∀ c, alnum_ c = true -> c ≠ ch_question) by (intros c Hc ->; by vm_compute in Hc).
  assert (Hq' : ∀ l, Forall (λ c, alnum c = true) l -> Forall (λ c, alnum_ c = true) l).
  { intros l Hl. eapply Forall_impl; [exact Hl|]. intros c Hc. unfold alnum_. by rewrite Hc. }
  set (rest := str "Username=" ++ (v ++ x :: t) ++ str "&password=" ++ p).
  change (login_text (v ++ x :: t) p) with (ch_question :: rest). cbn [search].
  assert (Ha : alts login_pattern [] [] (ch_question :: rest) = []).
  { change (alts (lit "?Username=" ++ group [Plus alnum] ++ lit "&password=" ++ group [Plus alnum])
      [] [] (str "?Username=" ++ (v ++ x :: t) ++ str "&password=" ++ p) = []).
    rewrite alts_lit, <- app_assoc.
    change (alts (Plus alnum :: Close :: lit "&password=" ++ group [Plus alnum]) [] []
      (v ++ x :: (t ++ str "&password=" ++ p)) = []).
    apply (alts_plus_none alnum (z2b 38)); [done| |by vm_compute| |by vm_compute].
    - unfold alnum, letter, in_class. by rewrite Hx.
    - intros ->. by vm_compute in Hx. }
  rewrite Ha. apply (search_none ch_question); [by vm_compute|].
  assert (Hall : Forall (λ c, c ≠ ch_question) rest).
  { assert (Hw : ∀ l, Forall (λ c, alnum_ c = true) l -> Forall (λ c, c ≠ ch_question) l).
    { intros l Hl. eapply Forall_impl; [exact Hl|]. apply Hq. }
    unfold rest. apply Forall_app; split; [by repeat constructor|].
    apply Forall_app; split; [by apply Hw|].
    apply Forall_app; split; [by repeat constructor|by apply Hw, Hq']. }
  intros Hin. rewrite Forall_forall in Hall. by apply (Hall ch_question).
Qed.

(** Names with an underscore.  The registration accepts them, the login does
    not: the pattern of the login matches no query with such a name, so that the
    user who has just registered is not let in with the right password, unless
    the account with the empty name exists (and has no password). *)
Theorem underscore_locked_out {RL : RedisLaws SV} lg u p w f0 r :
  name_is f0 (app w) -> room 20 w -> word alnum_ u -> Exists (λ c, b2z c = 95) u -> word alnum p ->
  logs_in lg (login_text u p) -> hget HASH_KEY [] (svc w) = None ->
  wp (onRequest lg) (λ _ st, shown (str "/loginFailed.html") w [] st) (w, r).
Proof.
  intros Hn Hr [_ Hu] He [_ Hp] Hl Hnone.
  assert (Hs : login_form (login_text u p) = ([], [])).
  { by apply login_form_none, underscore_no_match. }
  pose proof (log_in_ok lg _ [] [] w f0 r Hn Hr Hl Hs) as H. by rewrite Hnone in H.
Qed.
End properties.

(** ** Services in memory, for the witnesses *)
Section witnesses.
Record memory := mkMemory { mem_fields : gmap (bytes * bytes) bytes; mem_files : gmap bytes (Z * bytes) }.

#[local] Instance memory_services : Services := {|
  Svc := memory;
  redis_connectSvr := λ s, s;
  redis_hasHField := λ k f s, (if bool_decide (is_Some (mem_fields s !! (k, f))) then 1 else 0, s);
  redis_getHField := λ k f s, (default [] (mem_fields s !! (k, f)), s);
  redis_setHField := λ k f v s, (0, mkMemory (<[(k, f) := v]> (mem_fields s)) (mem_files s));
  mysql_init := λ s, s;
  mysql_execute := λ _ s, ((0, []), s);
  fs_stat := λ f s, fst <$> mem_files s !! f;
  ifs_open := λ f s, snd <$> mem_files s !! f;
  FSUtil_openForRead := λ f s, snd <$> mem_files s !! f;
|}.

#[local] Instance memory_redis : RedisLaws memory_services.
Proof.
  refine {| hget := λ k f s, mem_fields s !! (k, f) |}.
  - intros k f s n s' [= <- <-]. split; [|done]. case_bool_decide as H.
    + split; [done|]. intros Hn. rewrite Hn in H. by destruct H.
    + split; [|done]. intros _. by apply eq_None_not_Some.
  - intros k f s v s' [= <- <-]. split; [|done]. by intros v' ->.
  - intros k f v s s' [= <-]. apply lookup_insert_eq.
Defined.

(** A readable page and an image below /srv. *)
Definition some_files : memory :=
  mkMemory ∅ {[ str "/srv/welcome.html" := (33188, str "hello"); str "/srv/a.jpg" := (33188, str "pixels") ]}.

Definition some_world (s : memory) : AppWorld :=
  mkAppWorld (mkApplication (replicate FILENAME_LEN ch_nul) (str "/srv") 0) s [].

Definition some_request (m : Method) (path query body : bytes) : HttpRequest :=
  mkRequest m kHttp11 path query (tick 0) ∅ body.

Lemma some_name s : name_is [] (app (some_world s)).
Proof. split; [done|]. split; [apply not_elem_of_nil|]. by exists (replicate 199 ch_nul). Qed.

Lemma some_room s : room 20 (some_world s).
Proof. split; [done|]. vm_compute. lia. Qed.

Definition some_response : HttpResponse := HttpResponse_ctor false.

Lemma onRequest_answers_witness :
  wp (onRequest (some_request kGet (str "/a.jpg") [] [])) (λ _ '(_, r'), body_ r' = str "pixels")
    (some_world some_files, some_response).
Proof.
  eapply wp_mono.
  - apply (onRequest_answers (some_request kGet (str "/a.jpg") [] []) (some_world some_files) []
      some_response (some_name _) (some_room _)).
    intros _. split; [done|]. vm_compute. lia.
  - intros _ [w' r'] (-> & _). vm_compute. reflexivity.
Defined.

Definition long_path : bytes := replicate 200 (z2b 97) ++ str ".jpg".

Lemma image_name_overflow_witness :
  onRequest (some_request kGet long_path [] []) (some_world some_files, some_response) = Fault OutOfBounds.
Proof.
  apply (image_name_overflow (some_request kGet long_path [] []) (some_world some_files) []
    some_response (some_name _) (some_room _)).
  - apply (bool_decide_unpack _). vm_compute. exact I.
  - vm_compute. reflexivity.
  - vm_compute. lia.
Defined.

Definition quote_body : bytes := str "Username=x'); DROP TABLE user; --&email=a%40b.com&password=p".

Lemma no_injection_witness :
  wp (onRequest (some_request kPost (str "/register") [] quote_body)) (λ _ '(w', _), executed w' = []
    ∨ ∃ username mail password, executed w' = [insert_stmt username mail password]
      ∧ Forall plain username ∧ Forall plain mail ∧ Forall plain password)
    (some_world some_files, some_response).
Proof.
  apply (no_injection (some_request kPost (str "/register") [] quote_body) (some_world some_files) []
    some_response (some_name _) (some_room _)).
  intros H. vm_compute in H. discriminate H.
Defined.

Lemma register_then_login_witness :
  wp (onRequest (some_request kPost (str "/register") []
        (register_text (str "lux") (str "lux") (str "mail") (str "pw1")))) (λ _ st1,
    wp (onRequest (some_request kGet (str "/login") (login_text (str "lux") (str "pw1")) [])) (λ _ st2,
      shown (str "/welcome.html") (some_world some_files)
        [insert_stmt (str "lux") (str "lux%40mail.com") (str "pw1")] st2) (fst st1, some_response))
    (some_world some_files, some_response).
Proof.
  apply (register_then_login _ _ (str "lux") (str "lux") (str "mail") (str "pw1") (str "pw1")
    (some_world some_files) [] some_response some_response (some_name _) (some_room _));
    try (split; [discriminate|]; by repeat constructor); by split.
Defined.

Lemma empty_account_witness :
  wp (onRequest (some_request kPost (str "/register") [] (str "nonsense"))) (λ _ st1,
    wp (onRequest (some_request kGet (str "/login") [] [])) (λ _ st2,
      shown (str "/welcome.html") (some_world some_files) [insert_stmt [] [] []] st2)
      (fst st1, some_response)) (some_world some_files, some_response).
Proof.
  apply (empty_account _ _ (str "nonsense") [] (some_world some_files) [] some_response some_response
    (some_name _) (some_room _)); [by split|by split|vm_compute; reflexivity..|reflexivity|by split].
Defined.

Lemma underscore_locked_out_witness :
  wp (onRequest (some_request kGet (str "/login") (login_text (str "a_b") (str "pw1")) [])) (λ _ st,
    shown (str "/loginFailed.html") (some_world some_files) [] st) (some_world some_files, some_response).
Proof.
  apply (underscore_locked_out _ (str "a_b") (str "pw1") (some_world some_files) [] some_response
    (some_name _) (some_room _)); [| |split; [discriminate|]; by repeat constructor|by split|reflexivity].
  - split; [discriminate|]. by repeat constructor.
  - by apply Exists_cons_tl, Exists_cons_hd.
Defined.
End witnesses.
