(* ===== verification/Channel.v ===== *)
(** * Channel: one file descriptor's events and callbacks (Channel.h, Channel.cc)

    Channels are objects in a heap, because pollers, connections and callbacks
    keep pointers to them; using a pointer to a destroyed channel is a fault.
    What a channel calls on its loop is the interface [LoopOps]; the loop, the
    poller and the connections are built on top of it. *)

From Stdlib Require Import ZArith Lia.
From stdpp Require Import gmap list.
From S2P Require Import Prelude Bytes Base.

Local Open Scope Z_scope.

(** poll(2)'s event bits. *)
Definition POLLIN : Z := 1.
Definition POLLPRI : Z := 2.
Definition POLLOUT : Z := 4.
Definition POLLERR : Z := 8.
Definition POLLHUP : Z := 16.
Definition POLLNVAL : Z := 32.
Definition POLLRDHUP : Z := 8192.

Definition kNoneEvent : Z := 0.
Definition kReadEvent : Z := Z.lor POLLIN POLLPRI.
Definition kWriteEvent : Z := POLLOUT.

(** [x & mask] used as a condition. *)
Definition has_bits (x mask : Z) : bool := negb (Z.land x mask =? 0).

(** Addresses of objects. *)
Abbreviation addr := positive.

(** The allocator: [new] returns an address that is not in use.  Exhaustion of
    memory is not modelled: there are as many addresses as needed. *)
Class Allocator := {
  malloc : gset addr -> addr;
  malloc_fresh : ∀ X, malloc X ∉ X;
}.

(** The [std::function] objects stored in channels, timers and functor queues
    are data; who runs them interprets them. *)
Class Closures := { Closure : Type }.

Section channel.
Context {CL : Closures}.

Record Channel := mkChannel {
  fd_ : Z;
  events_ : Z;
  revents_ : Z;
  index_ : Z;
  logHup_ : bool;
  tie_ : option addr;
  tied_ : bool;
  eventHandling_ : bool;
  addedToLoop_ : bool;
  readCallback_ : option Closure;
  writeCallback_ : option Closure;
  closeCallback_ : option Closure;
  errorCallback_ : option Closure;
}.

Definition Channel_ctor (fd : Z) : Channel :=
  mkChannel fd 0 0 (-1) true None false false false None None None None.

Definition set_revents (revt : Z) (c : Channel) : Channel := {| c with revents_ := revt |}.
Definition set_index (idx : Z) (c : Channel) : Channel := {| c with index_ := idx |}.
Definition set_events (ev : Z) (c : Channel) : Channel := {| c with events_ := ev |}.
Definition set_added (b : bool) (c : Channel) : Channel := {| c with addedToLoop_ := b |}.
Definition set_handling (b : bool) (c : Channel) : Channel := {| c with eventHandling_ := b |}.
Definition setReadCallback (f : Closure) (c : Channel) := {| c with readCallback_ := Some f |}.
Definition setWriteCallback (f : Closure) (c : Channel) := {| c with writeCallback_ := Some f |}.
Definition setCloseCallback (f : Closure) (c : Channel) := {| c with closeCallback_ := Some f |}.
Definition setErrorCallback (f : Closure) (c : Channel) := {| c with errorCallback_ := Some f |}.
Definition doNotLogHup (c : Channel) : Channel := {| c with logHup_ := false |}.
Definition tie (obj : addr) (c : Channel) : Channel :=
  {| c with tie_ := Some obj; tied_ := true |}.

Definition isNoneEvent (c : Channel) : bool := events_ c =? kNoneEvent.
Definition isWriting (c : Channel) : bool := has_bits (events_ c) kWriteEvent.
Definition isReading (c : Channel) : bool := has_bits (events_ c) kReadEvent.

(** [eventsToString(fd, ev)]. *)
Definition eventsToString (fd ev : Z) : bytes :=
  print_d fd ++ str ": "
  ++ (if has_bits ev POLLIN then str "IN " else [])
  ++ (if has_bits ev POLLPRI then str "PRI " else [])
  ++ (if has_bits ev POLLOUT then str "OUT " else [])
  ++ (if has_bits ev POLLHUP then str "HUP " else [])
  ++ (if has_bits ev POLLRDHUP then str "RDHUP " else [])
  ++ (if has_bits ev POLLERR then str "ERR " else [])
  ++ (if has_bits ev POLLNVAL then str "NVAL " else []).

(** A world with a heap of channels. *)
Class ChannelHeap (W : Type) := { heapL : lens W (gmap addr Channel) }.

(** What a channel and its owners call on the event loop. *)
Class LoopOps (W : Type) := {
  loop_heap :: ChannelHeap W;
  loop_updateChannel : addr -> M W unit;
  loop_removeChannel : addr -> M W unit;
  loop_hasChannel : addr -> W -> bool;
  loop_isInLoopThread : W -> bool;
}.
End channel.

(** ** Member functions that reach the loop or run callbacks *)
Section pointers.
Context {CL : Closures} {W : Type} {CH : ChannelHeap W}.

(** The channel behind a pointer; a dangling pointer is a fault. *)
Definition chan (p : addr) (w : W) : option Channel := view heapL w !! p.

Definition deref (p : addr) : M W Channel :=
  liftR (λ w, match chan p w with Some c => Ok c | None => Fault OutOfBounds end).

(** [this->field = ...]. *)
Definition on_chan (p : addr) (f : Channel -> Channel) : M W unit :=
  _ ← deref p; modify (λ w, upd heapL (alter f p (view heapL w)) w).

End pointers.

Section methods.
Context {BT : BaseTime} {CL : Closures} {W : Type} {LO : LoopOps W}.

Definition update (p : addr) : M W unit :=
  on_chan p (set_added true) ;;;
  loop_updateChannel p.

Definition enableReading (p : addr) : M W unit :=
  on_chan p (λ c, set_events (Z.lor (events_ c) kReadEvent) c) ;;; update p.
Definition disableReading (p : addr) : M W unit :=
  on_chan p (λ c, set_events (Z.land (events_ c) (Z.lnot kReadEvent)) c) ;;; update p.
Definition enableWriting (p : addr) : M W unit :=
  on_chan p (λ c, set_events (Z.lor (events_ c) kWriteEvent) c) ;;; update p.
Definition disableWriting (p : addr) : M W unit :=
  on_chan p (λ c, set_events (Z.land (events_ c) (Z.lnot kWriteEvent)) c) ;;; update p.
Definition disableAll (p : addr) : M W unit :=
  on_chan p (set_events kNoneEvent) ;;; update p.

Definition remove (p : addr) : M W unit :=
  c ← deref p;
  assert_ (isNoneEvent c) ;;;
  on_chan p (set_added false) ;;;
  loop_removeChannel p.

(** [~Channel()]: the checks, then the storage is gone. *)
Definition Channel_dtor (p : addr) : M W unit :=
  c ← deref p;
  assert_ (negb (eventHandling_ c)) ;;;
  assert_ (negb (addedToLoop_ c)) ;;;
  inLoop ← gets loop_isInLoopThread;
  whenM inLoop (assertS (λ w, negb (loop_hasChannel p w))) ;;;
  modify (λ w, upd heapL (delete p (view heapL w)) w).

(** [if (callback) callback(receiveTime);] *)
Definition call (run : Closure -> Timestamp -> M W unit) (t : Timestamp)
    (callback : option Closure) : M W unit :=
  match callback with Some f => run f t | None => mret tt end.

(** Every test and every callback is read from the object when it is reached,
    after the callbacks before it have run. *)
Definition handleEventWithGuard (run : Closure -> Timestamp -> M W unit)
    (p : addr) (receiveTime : Timestamp) : M W unit :=
  on_chan p (set_handling true) ;;;
  c ← deref p;
  whenM (has_bits (revents_ c) POLLHUP && negb (has_bits (revents_ c) POLLIN))
    (call run receiveTime (closeCallback_ c)) ;;;
  c ← deref p;
  whenM (has_bits (revents_ c) (Z.lor POLLERR POLLNVAL))
    (call run receiveTime (errorCallback_ c)) ;;;
  c ← deref p;
  whenM (has_bits (revents_ c) (Z.lor (Z.lor POLLIN POLLPRI) POLLRDHUP))
    (call run receiveTime (readCallback_ c)) ;;;
  c ← deref p;
  whenM (has_bits (revents_ c) POLLOUT) (call run receiveTime (writeCallback_ c)) ;;;
  on_chan p (set_handling false).

(** [handleEvent]: [lock] is [weak_ptr::lock] -- false when the owner is gone,
    otherwise a reference is taken -- and [unlock] the release of [guard] at
    the end of the function. *)
Definition handleEvent (run : Closure -> Timestamp -> M W unit)
    (lock : option addr -> M W bool) (unlock : option addr -> M W unit)
    (p : addr) (receiveTime : Timestamp) : M W unit :=
  c ← deref p;
  if tied_ c then
    guard ← lock (tie_ c);
    if guard : bool then
      handleEventWithGuard run p receiveTime ;;;
      unlock (tie_ c)
    else mret tt
  else handleEventWithGuard run p receiveTime.
End methods.

(** ** Reading and writing one channel *)
Section heap.
#[local] Set Default Proof Using "Type*".
Context {CL : Closures} {W : Type} {CH : ChannelHeap W} {LL : LensLaws heapL}.

Definition put_chan (p : addr) (c : Channel) (w : W) : W :=
  upd heapL (<[p := c]> (view heapL w)) w.

Lemma chan_put p q c w :
  chan q (put_chan p c w) = if decide (q = p) then Some c else chan q w.
Proof.
  unfold chan, put_chan. rewrite view_upd. case_decide; subst.
  - by rewrite lookup_insert_eq.
  - by rewrite lookup_insert_ne.
Qed.

Lemma put_put p c c' w : put_chan p c (put_chan p c' w) = put_chan p c w.
Proof. unfold put_chan. by rewrite view_upd, upd_upd, insert_insert_eq. Qed.

Lemma put_id p c w : chan p w = Some c -> put_chan p c w = w.
Proof.
  unfold put_chan, chan. intros. rewrite insert_id by done. apply upd_view.
Qed.

Lemma deref_ok p w c : chan p w = Some c -> deref p w = Ok (c, w).
Proof. unfold deref, liftR. by intros ->. Qed.

Lemma on_chan_ok p f w c :
  chan p w = Some c -> on_chan p f w = Ok (tt, put_chan p (f c) w).
Proof.
  intros H. unfold on_chan. rewrite (bind_ok _ _ _ _ _ (deref_ok p w c H)).
  unfold modify, put_chan. do 3 f_equal. unfold chan in H.
  apply map_eq. intros q. destruct (decide (q = p)) as [->|].
  - by rewrite lookup_alter_eq, lookup_insert_eq, H.
  - by rewrite lookup_alter_ne, lookup_insert_ne.
Qed.

Lemma on_chan_inv p f w r : on_chan p f w = Ok r -> is_Some (chan p w).
Proof.
  unfold on_chan, mbind, M_bind, deref, liftR. destruct (chan p w); [eauto|done].
Qed.

Lemma wp_deref p Q w c : chan p w = Some c -> Q c w -> wp (deref p) Q w.
Proof. intros H HQ. eapply wp_intro; [by apply deref_ok|done]. Qed.

Lemma wp_on_chan p f Q w c :
  chan p w = Some c -> Q tt (put_chan p (f c) w) -> wp (on_chan p f) Q w.
Proof. intros H HQ. eapply wp_intro; [by apply on_chan_ok|done]. Qed.

End heap.

(** ** What a loop promises to the owners of channels

    [interest_of p w] is what the poller does for the channel [p]: nothing
    (the channel is not known to it), watching it for some events, or keeping
    it in the table without watching it. *)
Inductive interest := Watched (ev : Z) | Parked.

#[export] Instance interest_eq_dec : EqDecision interest.
Proof. solve_decision. Defined.

(** [updateChannel] for a channel with events [ev]. *)
Definition spec_update (i : option interest) (ev : Z) : interest :=
  match i with
  | Some (Watched _) => if ev =? kNoneEvent then Parked else Watched (u32 ev)
  | Some Parked | None => Watched (u32 ev)
  end.

Section spec.
Context {CL : Closures} {W : Type} {LO : LoopOps W}.

(** Everything but the channel [p] is as before. *)
Definition frame_chan (p : addr) (w w' : W) : Prop :=
  ∀ q, q ≠ p -> chan q w' = chan q w.

Class LoopSpec := {
  spec_lens :: LensLaws heapL;
  loop_ok : W -> Prop;
  interest_of : addr -> W -> option interest;
  (** The kernel has the descriptor open. *)
  fd_open : Z -> W -> Prop;
  (** No channel is registered for the descriptor. *)
  fd_free : Z -> W -> Prop;
  can_remove : addr -> W -> Prop;
  law_thread : ∀ w, loop_ok w -> loop_isInLoopThread w = true;
  law_has : ∀ p w, loop_ok w -> is_Some (chan p w) ->
    loop_hasChannel p w = bool_decide (is_Some (interest_of p w));
  (** Fields other than the descriptor and the index are the owner's. *)
  law_put : ∀ p w c c', loop_ok w -> chan p w = Some c ->
    fd_ c' = fd_ c -> index_ c' = index_ c ->
    let w' := put_chan p c' w in
    loop_ok w' ∧ (∀ q, interest_of q w' = interest_of q w)
    ∧ (∀ fd, fd_open fd w' ↔ fd_open fd w) ∧ (∀ fd, fd_free fd w' ↔ fd_free fd w)
    ∧ (∀ q, can_remove q w' ↔ can_remove q w);
  law_update : ∀ p w c, loop_ok w -> chan p w = Some c -> fd_open (fd_ c) w ->
    (interest_of p w = None -> fd_free (fd_ c) w) ->
    wp (loop_updateChannel p) (λ _ w',
      loop_ok w' ∧ interest_of p w' = Some (spec_update (interest_of p w) (events_ c))
      ∧ (∃ i, chan p w' = Some (set_index i c)) ∧ frame_chan p w w'
      ∧ (∀ q, q ≠ p -> interest_of q w' = interest_of q w)
      ∧ (∀ fd, fd_open fd w' ↔ fd_open fd w)
      ∧ (∀ q, can_remove q w' ↔ can_remove q w)) w;
  law_remove : ∀ p w c, loop_ok w -> chan p w = Some c -> is_Some (interest_of p w) ->
    events_ c = kNoneEvent -> can_remove p w ->
    wp (loop_removeChannel p) (λ _ w',
      loop_ok w' ∧ interest_of p w' = None
      ∧ (∃ i, chan p w' = Some (set_index i c)) ∧ frame_chan p w w'
      ∧ (∀ q, q ≠ p -> interest_of q w' = interest_of q w)
      ∧ (∀ fd, fd_open fd w' ↔ fd_open fd w) ∧ fd_free (fd_ c) w') w;
  (** A descriptor that has no channel does not get one behind its back. *)
  law_update_free : ∀ p w c, loop_ok w -> chan p w = Some c -> fd_open (fd_ c) w ->
    (interest_of p w = None -> fd_free (fd_ c) w) ->
    wp (loop_updateChannel p) (λ _ w', ∀ fd, fd ≠ fd_ c -> fd_free fd w -> fd_free fd w') w;
  law_remove_free : ∀ p w c, loop_ok w -> chan p w = Some c -> is_Some (interest_of p w) ->
    events_ c = kNoneEvent -> can_remove p w ->
    wp (loop_removeChannel p) (λ _ w', ∀ fd, fd_free fd w -> fd_free fd w') w;
  law_absent : ∀ p w, chan p w = None -> interest_of p w = None;
  (** A new channel, and a channel that is no longer registered, are no
      concern of the loop. *)
  law_new : ∀ p w c, loop_ok w -> chan p w = None -> index_ c = -1 ->
    let w' := put_chan p c w in
    loop_ok w' ∧ (∀ q, interest_of q w' = interest_of q w)
    ∧ (∀ fd, fd_open fd w' ↔ fd_open fd w) ∧ (∀ fd, fd_free fd w' ↔ fd_free fd w);
  law_delete : ∀ p w, loop_ok w -> interest_of p w = None ->
    let w' := upd heapL (delete p (view heapL w)) w in
    loop_ok w' ∧ (∀ q, interest_of q w' = interest_of q w)
    ∧ (∀ fd, fd_open fd w' ↔ fd_open fd w) ∧ (∀ fd, fd_free fd w' ↔ fd_free fd w);
}.
End spec.
Arguments LoopSpec {CL} W {LO}.

(** What system calls on sockets leave alone. *)
Record same_loop {CL : Closures} {W} {LO : LoopOps W} {LS : LoopSpec W} (w w' : W) : Prop := {
  sl_ok : loop_ok w';
  sl_heap : ∀ q, chan q w' = chan q w;
  sl_interest : ∀ q, interest_of q w' = interest_of q w;
}.

(** ** The member functions against the interface *)
Section methods_spec.
#[local] Set Default Proof Using "Type*".
Context {CL : Closures} {W : Type} {LO : LoopOps W} {LS : LoopSpec W}.

(** After a change of the events of [p] to [ev] and the [update()] it ends with. *)
Record toggled (p : addr) (ev : Z) (c : Channel) (w w' : W) : Prop := {
  tg_ok : loop_ok w';
  tg_interest : interest_of p w' = Some (spec_update (interest_of p w) ev);
  tg_chan : ∃ i, chan p w' = Some (set_index i (set_added true (set_events ev c)));
  tg_frame : frame_chan p w w';
  tg_others : ∀ q, q ≠ p -> interest_of q w' = interest_of q w;
  tg_open : ∀ fd, fd_open fd w' ↔ fd_open fd w;
  tg_can : ∀ q, can_remove q w' ↔ can_remove q w;
}.

Lemma put_frame p c w : frame_chan p w (put_chan p c w).
Proof. intros q Hq. by rewrite chan_put, decide_False. Qed.

Lemma toggle_wp p (f : Channel -> Z) c Q w :
  loop_ok w -> chan p w = Some c -> fd_open (fd_ c) w ->
  (interest_of p w = None -> fd_free (fd_ c) w) ->
  (∀ w', toggled p (f c) c w w' -> Q tt w') ->
  wp (on_chan p (λ c, set_events (f c) c) ;;; update p) Q w.
Proof.
  intros Hok Hc Ho Hfree HQ. rewrite wp_bind. apply wp_on_chan with (c := c); [done|].
  destruct (law_put p w c (set_events (f c) c) Hok Hc eq_refl eq_refl)
    as (Hok1 & Hi1 & Ho1 & Hf1 & Hr1).
  set (w1 := put_chan p _ w) in *.
  assert (Hc1 : chan p w1 = Some (set_events (f c) c)) by by unfold w1; rewrite chan_put, decide_True.
  unfold update. rewrite wp_bind. apply wp_on_chan with (c := set_events (f c) c); [done|].
  destruct (law_put p w1 _ (set_added true (set_events (f c) c)) Hok1 Hc1 eq_refl eq_refl)
    as (Hok2 & Hi2 & Ho2 & Hf2 & Hr2).
  set (w2 := put_chan p _ w1) in *.
  assert (Hc2 : chan p w2 = Some (set_added true (set_events (f c) c)))
    by by unfold w2; rewrite chan_put, decide_True.
  eapply wp_mono; [apply (law_update p w2 _ Hok2 Hc2)|].
  - apply Ho2, Ho1, Ho.
  - rewrite Hi2, Hi1. intros. by apply Hf2, Hf1, Hfree.
  - intros [] w' (Hok' & Hi' & Hc' & Hfr & Hoi & Ho' & Hr'). apply HQ. split; try done.
    + by rewrite Hi', Hi2, Hi1.
    + intros q Hq. rewrite (Hfr q Hq). unfold w2, w1. by rewrite !chan_put, !decide_False.
    + intros q Hq. by rewrite Hoi, Hi2, Hi1.
    + intros fd. by rewrite Ho', Ho2, Ho1.
    + intros q. by rewrite Hr', Hr2, Hr1.
Qed.

Lemma toggle_free p (f : Channel -> Z) c w fd :
  loop_ok w -> chan p w = Some c -> fd_open (fd_ c) w ->
  (interest_of p w = None -> fd_free (fd_ c) w) -> fd ≠ fd_ c -> fd_free fd w ->
  wp (on_chan p (λ c, set_events (f c) c) ;;; update p) (λ _ w', fd_free fd w') w.
Proof.
  intros Hok Hc Ho Hfree Hne Hfd. rewrite wp_bind. apply wp_on_chan with (c := c); [done|].
  destruct (law_put p w c (set_events (f c) c) Hok Hc eq_refl eq_refl)
    as (Hok1 & Hi1 & Ho1 & Hf1 & _).
  set (w1 := put_chan p _ w) in *.
  assert (Hc1 : chan p w1 = Some (set_events (f c) c)) by by unfold w1; rewrite chan_put, decide_True.
  unfold update. rewrite wp_bind. apply wp_on_chan with (c := set_events (f c) c); [done|].
  destruct (law_put p w1 _ (set_added true (set_events (f c) c)) Hok1 Hc1 eq_refl eq_refl)
    as (Hok2 & Hi2 & Ho2 & Hf2 & _).
  set (w2 := put_chan p _ w1) in *.
  assert (Hc2 : chan p w2 = Some (set_added true (set_events (f c) c)))
    by by unfold w2; rewrite chan_put, decide_True.
  eapply wp_mono; [apply (law_update_free p w2 _ Hok2 Hc2)|].
  - apply Ho2, Ho1, Ho.
  - rewrite Hi2, Hi1. intros. by apply Hf2, Hf1, Hfree.
  - intros [] w' H. apply H; [done|]. by apply Hf2, Hf1.
Qed.

(** After [remove()]. *)
Record removed (p : addr) (c : Channel) (w w' : W) : Prop := {
  rm_ok : loop_ok w';
  rm_interest : interest_of p w' = None;
  rm_chan : ∃ i, chan p w' = Some (set_index i (set_added false c));
  rm_frame : frame_chan p w w';
  rm_others : ∀ q, q ≠ p -> interest_of q w' = interest_of q w;
  rm_open : ∀ fd, fd_open fd w' ↔ fd_open fd w;
  rm_free : fd_free (fd_ c) w';
}.

Lemma remove_wp p c Q w :
  loop_ok w -> chan p w = Some c -> is_Some (interest_of p w) ->
  events_ c = kNoneEvent -> can_remove p w ->
  (∀ w', removed p c w w' -> Q tt w') -> wp (remove p) Q w.
Proof.
  intros Hok Hc Hint Hev Hcan HQ. unfold remove. rewrite wp_bind.
  apply wp_deref with (c := c); [done|]. wp_simpl. unfold isNoneEvent. rewrite Hev.
  split; [done|]. apply wp_on_chan with (c := c); [done|].
  destruct (law_put p w c (set_added false c) Hok Hc eq_refl eq_refl)
    as (Hok1 & Hi1 & Ho1 & Hf1 & Hr1).
  set (w1 := put_chan p _ w) in *.
  assert (Hc1 : chan p w1 = Some (set_added false c)) by by unfold w1; rewrite chan_put, decide_True.
  eapply wp_mono; [apply (law_remove p w1 _ Hok1 Hc1)|].
  - by rewrite Hi1.
  - done.
  - by apply Hr1.
  - intros [] w' (Hok' & Hi' & Hc' & Hfr & Hoi & Ho' & Hfree). apply HQ. split; try done.
    + intros q Hq. rewrite (Hfr q Hq). unfold w1. by rewrite chan_put, decide_False.
    + intros q Hq. by rewrite Hoi, Hi1.
    + intros fd. by rewrite Ho', Ho1.
Qed.

Lemma remove_free p c w fd :
  loop_ok w -> chan p w = Some c -> is_Some (interest_of p w) ->
  events_ c = kNoneEvent -> can_remove p w -> fd_free fd w ->
  wp (remove p) (λ _ w', fd_free fd w') w.
Proof.
  intros Hok Hc Hint Hev Hcan Hfd. unfold remove. rewrite wp_bind.
  apply wp_deref with (c := c); [done|]. wp_simpl. unfold isNoneEvent. rewrite Hev.
  split; [done|]. apply wp_on_chan with (c := c); [done|].
  destruct (law_put p w c (set_added false c) Hok Hc eq_refl eq_refl)
    as (Hok1 & Hi1 & Ho1 & Hf1 & Hr1).
  set (w1 := put_chan p _ w) in *.
  assert (Hc1 : chan p w1 = Some (set_added false c)) by by unfold w1; rewrite chan_put, decide_True.
  eapply wp_mono; [apply (law_remove_free p w1 _ Hok1 Hc1)|]; [by rewrite Hi1|done|by apply Hr1|].
  intros [] w' H. by apply H, Hf1.
Qed.

(** [remove()] on a channel that still watches something stops the program. *)
Lemma remove_watching p c w : chan p w = Some c -> events_ c ≠ kNoneEvent ->
  remove p w = Fault AssertFailed.
Proof.
  intros Hc Hev. unfold remove. rewrite (bind_ok _ _ _ _ _ (deref_ok p w c Hc)).
  unfold assert_, isNoneEvent. rewrite (proj2 (Z.eqb_neq _ _) Hev). done.
Qed.

Lemma Channel_dtor_wp p c Q w :
  loop_ok w -> chan p w = Some c -> interest_of p w = None ->
  eventHandling_ c = false -> addedToLoop_ c = false ->
  (loop_ok (upd heapL (delete p (view heapL w)) w) -> Q tt (upd heapL (delete p (view heapL w)) w)) ->
  wp (Channel_dtor p) Q w.
Proof.
  intros Hok Hc Hint Heh Hadd HQ. unfold Channel_dtor. rewrite wp_bind.
  apply wp_deref with (c := c); [done|]. wp_simpl. rewrite Heh, Hadd. split; [done|].
  wp_simpl. split; [done|]. wp_simpl. rewrite (law_thread w Hok). wp_simpl.
  rewrite (law_has p w Hok) by eauto. rewrite Hint. split; [done|]. wp_simpl.
  apply HQ. by apply law_delete.
Qed.
End methods_spec.

(** ** What channels and the loop do not touch

    [v] reads a part of the world that is neither a channel nor the loop's
    bookkeeping: the sockets of a component, for example. *)
Class Apart {CL : Closures} {W T : Type} {LO : LoopOps W} (v : W -> T) := {
  apart_put : ∀ h w, v (upd heapL h w) = v w;
  apart_update : ∀ p w w', loop_updateChannel p w = Ok (tt, w') -> v w' = v w;
  apart_remove : ∀ p w w', loop_removeChannel p w = Ok (tt, w') -> v w' = v w;
}.

Section apart.
#[local] Set Default Proof Using "Type*".
Context {CL : Closures} {W T : Type} {LO : LoopOps W} (v : W -> T) {AP : Apart v}.

Definition keeps_view {A} (m : M W A) : Prop := ∀ x a x', m x = Ok (a, x') -> v x' = v x.

Lemma keeps_view_bind {A B} (m : M W A) (k : A -> M W B) :
  keeps_view m -> (∀ a, keeps_view (k a)) -> keeps_view (m ≫= k).
Proof using Type.
  intros Hm Hk x b x2 (a & x1 & H1 & H2)%bind_inv. by rewrite (Hk _ _ _ _ H2), (Hm _ _ _ H1).
Qed.

Lemma keeps_view_deref p : keeps_view (deref p).
Proof using Type.
  intros x a x' H. unfold deref, liftR in H. destruct (chan p x); [by injection H as _ <-|done].
Qed.

Lemma keeps_view_assert b : keeps_view (assert_ b).
Proof using Type. intros x a x' H. destruct b; [by injection H as _ <-|done]. Qed.

Lemma keeps_view_on_chan p f : keeps_view (on_chan p f).
Proof.
  unfold on_chan. apply keeps_view_bind; [apply keeps_view_deref|].
  intros _ x a x' [= _ <-]. apply apart_put.
Qed.

Lemma keeps_view_toggle p f : keeps_view (on_chan p f ;;; update p).
Proof.
  apply keeps_view_bind; [apply keeps_view_on_chan|]. intros _.
  apply keeps_view_bind; [apply keeps_view_on_chan|]. intros _ x [] x' H. by apply (apart_update p).
Qed.

Lemma keeps_view_remove p : keeps_view (remove p).
Proof.
  unfold remove. apply keeps_view_bind; [apply keeps_view_deref|]. intros c.
  apply keeps_view_bind; [apply keeps_view_assert|]. intros _.
  apply keeps_view_bind; [apply keeps_view_on_chan|]. intros _ x [] x' H. by apply (apart_remove p).
Qed.

Lemma keeps_view_dtor p : keeps_view (Channel_dtor p).
Proof.
  unfold Channel_dtor. apply keeps_view_bind; [apply keeps_view_deref|]. intros c.
  do 2 (apply keeps_view_bind; [apply keeps_view_assert|]; intros _).
  apply keeps_view_bind; [by intros x a x' [= _ <-]|]. intros inLoop.
  apply keeps_view_bind.
  { intros x a x' H. destruct inLoop; [|by injection H as _ <-].
    cbn in H. unfold assertS in H. destruct (negb _); [by injection H as _ <-|done]. }
  intros _ x a x' [= _ <-]. apply apart_put.
Qed.

Lemma wp_keeps_view {A} (m : M W A) Q x : keeps_view m ->
  wp m (λ a x', v x' = v x -> Q a x') x -> wp m Q x.
Proof using Type.
  intros Hm H. apply wp_ok in H as (a & x' & Hr & HQ). eapply wp_intro; [exact Hr|].
  apply HQ. by eapply Hm.
Qed.
End apart.

(** ** Dispatch *)
Section dispatch.
#[local] Set Default Proof Using "Type*".
Context {BT : BaseTime} {CL : Closures} {W : Type} {LO : LoopOps W} {LL : LensLaws heapL}.

(** The callbacks a set of received events asks for, in order. *)
Definition dispatch (c : Channel) : list Closure :=
  (if has_bits (revents_ c) POLLHUP && negb (has_bits (revents_ c) POLLIN)
   then option_list (closeCallback_ c) else [])
  ++ (if has_bits (revents_ c) (Z.lor POLLERR POLLNVAL)
      then option_list (errorCallback_ c) else [])
  ++ (if has_bits (revents_ c) (Z.lor (Z.lor POLLIN POLLPRI) POLLRDHUP)
      then option_list (readCallback_ c) else [])
  ++ (if has_bits (revents_ c) POLLOUT then option_list (writeCallback_ c) else []).

(** What [handleEventWithGuard] reads of the channel. *)
Definition same_dispatch (c c' : Channel) : Prop :=
  revents_ c = revents_ c' ∧ readCallback_ c = readCallback_ c'
  ∧ writeCallback_ c = writeCallback_ c' ∧ closeCallback_ c = closeCallback_ c'
  ∧ errorCallback_ c = errorCallback_ c'.

Lemma same_dispatch_refl c : same_dispatch c c.
Proof. done. Qed.

Lemma same_dispatch_trans c1 c2 c3 :
  same_dispatch c1 c2 -> same_dispatch c2 c3 -> same_dispatch c1 c3.
Proof. unfold same_dispatch. intuition congruence. Qed.

Context (run : Closure -> Timestamp -> M W unit) (p : addr).
Context (run_keeps : ∀ f t w c w', chan p w = Some c -> run f t w = Ok (tt, w') ->
           ∃ c', chan p w' = Some c' ∧ same_dispatch c c').

Lemma for_each_keeps l t w c w' : chan p w = Some c ->
  for_each l (λ f, run f t) w = Ok (tt, w') ->
  ∃ c', chan p w' = Some c' ∧ same_dispatch c c'.
Proof.
  revert w c. induction l as [|f l IH]; simpl; intros w c Hc H.
  - injection H as <-. eauto using same_dispatch_refl.
  - apply bind_inv in H as ([] & w1 & H1 & H2).
    destruct (run_keeps _ _ _ _ _ Hc H1) as (c1 & Hc1 & Hs1).
    destruct (IH _ _ Hc1 H2) as (c2 & Hc2 & Hs2).
    eauto using same_dispatch_trans.
Qed.

(** One guarded callback of [handleEventWithGuard], followed by the rest. *)
Lemma dispatch_step (b : Channel -> bool) (get : Channel -> option Closure)
    (rest : M W unit) (l : list Closure) (fin : M W unit) t w c :
  chan p w = Some c ->
  (∀ w' c', chan p w' = Some c' -> same_dispatch c c' ->
     rest w' = (for_each l (λ f, run f t) ;;; fin) w') ->
  (x ← deref p; whenM (b x) (call run t (get x)) ;;; rest) w =
  (for_each ((if b c then option_list (get c) else []) ++ l) (λ f, run f t) ;;; fin) w.
Proof.
  intros Hc Hrest. rewrite (bind_ok _ _ _ _ _ (deref_ok p w c Hc)).
  assert (Hhead : whenM (b c) (call run t (get c)) w =
            for_each (if b c then option_list (get c) else []) (λ f, run f t) w).
  { unfold whenM, call. destruct (b c), (get c); simpl; try done.
    unfold mbind, M_bind. by destruct (run _ t w) as [[[] ?]|]. }
  rewrite for_each_app_bind. rewrite (bind_head _ _ _ _ Hhead).
  apply bind_ext. intros [] w1 E.
  destruct (for_each_keeps _ _ _ _ _ Hc E) as (c1 & Hc1 & Hs). eauto.
Qed.

Lemma handleEventWithGuard_dispatch t w c : chan p w = Some c ->
  handleEventWithGuard run p t w =
  (on_chan p (set_handling true) ;;;
   for_each (dispatch c) (λ f, run f t) ;;;
   on_chan p (set_handling false)) w.
Proof.
  intros Hc. unfold handleEventWithGuard.
  rewrite !(bind_ok _ _ _ _ _ (on_chan_ok p _ w c Hc)).
  set (w1 := put_chan _ _ _). assert (Hc1 : chan p w1 = Some (set_handling true c)).
  { unfold w1. by rewrite chan_put, decide_True. }
  unfold dispatch.
  apply dispatch_step with (c := set_handling true c)
    (b := λ c, has_bits (revents_ c) POLLHUP && negb (has_bits (revents_ c) POLLIN)); [done|].
  intros w2 c2 Hc2 (Hr & ? & ? & ? & He). simpl in Hr, He. rewrite Hr, He.
  apply dispatch_step with (b := λ c, has_bits (revents_ c) (Z.lor POLLERR POLLNVAL)); [done|].
  intros w3 c3 Hc3 (Hr3 & Hrd & Hw & _). rewrite Hr3. simpl in *.
  replace (readCallback_ c) with (readCallback_ c3) by congruence.
  apply dispatch_step with
    (b := λ c, has_bits (revents_ c) (Z.lor (Z.lor POLLIN POLLPRI) POLLRDHUP)); [done|].
  intros w4 c4 Hc4 (Hr4 & _ & Hw4 & _). rewrite Hr4.
  replace (writeCallback_ c) with (writeCallback_ c4) by congruence.
  rewrite <- (app_nil_r (if has_bits (revents_ c4) POLLOUT then _ else _)).
  apply dispatch_step with (b := λ c, has_bits (revents_ c) POLLOUT); done.
Qed.
End dispatch.

(** C24: Dispatch.  If the callbacks leave the channel's received events and
    callback slots alone, handleEvent runs exactly the callbacks the received
    events ask for, each at most once and in this order: close (POLLHUP without
    POLLIN), error (POLLERR or POLLNVAL), read (POLLIN, POLLPRI or POLLRDHUP),
    write (POLLOUT); eventHandling_ is set before the first and cleared after
    the last.  A tied channel does this only if its owner could be locked, and
    releases the owner afterwards; if the owner is gone nothing runs. *)
Theorem handleEvent_dispatch {BT : BaseTime} {CL : Closures} {W} {LO : LoopOps W}
    {LL : LensLaws heapL} (run : Closure -> Timestamp -> M W unit)
    (lock : option addr -> M W bool) (unlock : option addr -> M W unit) p t w c :
  (∀ f t w c w', chan p w = Some c -> run f t w = Ok (tt, w') ->
     ∃ c', chan p w' = Some c' ∧ same_dispatch c c') ->
  (∀ w c b w', chan p w = Some c -> lock (tie_ c) w = Ok (b, w') -> chan p w' = Some c) ->
  chan p w = Some c ->
  let events : M W unit :=
    on_chan p (set_handling true) ;;;
    for_each (dispatch c) (λ f, run f t) ;;;
    on_chan p (set_handling false) in
  handleEvent run lock unlock p t w =
  if tied_ c
  then (guard ← lock (tie_ c); if guard : bool then events ;;; unlock (tie_ c) else mret tt) w
  else events w.
Proof.
  intros Hrun Hlock Hc events. unfold handleEvent.
  rewrite (bind_ok _ _ _ _ _ (deref_ok p w c Hc)).
  destruct (tied_ c); [|by apply handleEventWithGuard_dispatch].
  apply bind_ext. intros [] w1 H1; [|done].
  unfold mbind at 1 2, M_bind at 1 2.
  by rewrite (handleEventWithGuard_dispatch run p Hrun t w1 c) by eauto.
Qed.

(** A loop that does nothing and callbacks that only leave a trace. *)
Definition demo_closures : Closures := {| Closure := nat |}.
Definition demo_world : Type := gmap addr (@Channel demo_closures) * list nat.
Definition demo_heapL : lens demo_world (gmap addr (@Channel demo_closures)) :=
  Lens fst (λ h w, (h, snd w)).
Definition demo_loop : @LoopOps demo_closures demo_world := {|
  loop_heap := {| heapL := demo_heapL |};
  loop_updateChannel := λ _, mret tt;
  loop_removeChannel := λ _, mret tt;
  loop_hasChannel := λ _ _, false;
  loop_isInLoopThread := λ _, true;
|}.
Definition demo_run (f : nat) (t : @Timestamp micros) : M demo_world unit :=
  modify (λ w, (fst w, snd w ++ [f])).
Definition demo_channel : @Channel demo_closures :=
  @mkChannel demo_closures 5 7 20 1 true (Some 9%positive) true false true
    (Some 1%nat) (Some 2%nat) (Some 3%nat) (Some 4%nat).

#[export] Instance demo_laws : LensLaws demo_heapL.
Proof. by constructor; intros; destruct s. Qed.

Lemma handleEvent_dispatch_witness :
  @handleEvent micros demo_closures demo_world demo_loop demo_run
    (λ _, mret true) (λ _, mret tt) 1%positive (tick 0) ({[1%positive := demo_channel]}, []) =
  Ok (tt, ({[1%positive := demo_channel]}, [3%nat; 2%nat])).
Proof.
  rewrite (@handleEvent_dispatch micros demo_closures demo_world demo_loop demo_laws
    demo_run (λ _, mret true) (λ _, mret tt) 1%positive (tick 0)
    ({[1%positive := demo_channel]}, []) demo_channel).
  - vm_compute. reflexivity.
  - intros f t [h l] c w' Hc H. injection H as <-. exists c. split; [exact Hc|done].
  - intros w c b w' Hc H. injection H as <- <-. exact Hc.
  - reflexivity.
Defined.
