(* ===== verification/EPollPoller.v ===== *)
(** * EPollPoller: the channel table over epoll (Poller.h, EPollPoller.h and .cc)

    The poller keeps a map from descriptors to channels and mirrors it in the
    kernel's interest list.  The kernel's side is a parameter, the class
    [Epoll]; [EpollLaws] states what its manual pages promise. *)

From Stdlib Require Import ZArith Lia.
From stdpp Require Import gmap list.
From S2P Require Import Prelude Bytes Base Channel.

Local Open Scope Z_scope.

(** [struct epoll_event]; [data.ptr] is null or a channel. *)
Record epoll_event := mkEvent { ev_events : Z; ev_data : option addr }.

Definition zero_event : epoll_event := mkEvent 0 None.

Definition EPOLL_CTL_ADD : Z := 1.
Definition EPOLL_CTL_DEL : Z := 2.
Definition EPOLL_CTL_MOD : Z := 3.
Definition EINTR : Z := 4.

Class Epoll {BT : BaseTime} := {
  Kernel : Type;
  (** [epoll_ctl(epollfd, op, fd, event)]: the value returned. *)
  epoll_ctl : Z -> Z -> epoll_event -> Kernel -> Z * Kernel;
  (** [epoll_wait(epollfd, events, maxevents, timeout)]: the value returned,
      the events written and [errno]. *)
  epoll_wait : Z -> Z -> Kernel -> Z * list epoll_event * Z * Kernel;
  (** [Timestamp::now()]. *)
  now : Kernel -> Timestamp * Kernel;
  (** The interest list and the open descriptors: what the laws speak about. *)
  watched : Kernel -> Z -> option epoll_event;
  is_open : Kernel -> Z -> bool;
}.

(** epoll_ctl(2) and epoll_wait(2), leaving aside the limits on memory and on
    the number of watches. *)
Class EpollLaws {BT : BaseTime} (EP : Epoll) := {
  ctl_add : ∀ fd ev k, is_open k fd = true -> watched k fd = None ->
    ∃ k', epoll_ctl EPOLL_CTL_ADD fd ev k = (0, k') ∧ watched k' fd = Some ev
      ∧ (∀ fd', fd' ≠ fd -> watched k' fd' = watched k fd') ∧ is_open k' = is_open k;
  ctl_mod : ∀ fd ev k, is_Some (watched k fd) ->
    ∃ k', epoll_ctl EPOLL_CTL_MOD fd ev k = (0, k') ∧ watched k' fd = Some ev
      ∧ (∀ fd', fd' ≠ fd -> watched k' fd' = watched k fd') ∧ is_open k' = is_open k;
  ctl_del : ∀ fd ev k, is_Some (watched k fd) ->
    ∃ k', epoll_ctl EPOLL_CTL_DEL fd ev k = (0, k') ∧ watched k' fd = None
      ∧ (∀ fd', fd' ≠ fd -> watched k' fd' = watched k fd') ∧ is_open k' = is_open k;
  ctl_bad : ∀ op fd ev k, is_open k fd = false -> fst (epoll_ctl op fd ev k) = -1;
  wait_spec : ∀ max timeout k n evs e k', 0 < max ->
    epoll_wait max timeout k = (n, evs, e, k') ->
    n <= max ∧ watched k' = watched k ∧ is_open k' = is_open k
    ∧ zlength evs = Z.max n 0
    ∧ ∃ fds, NoDup fds ∧ Forall2 (λ fd ev, ∃ r, watched k fd = Some r
        ∧ ev_data ev = ev_data r ∧ 0 <= ev_events ev < 2 ^ 31
        ∧ Z.land (ev_events ev)
            (Z.lnot (Z.lor (ev_events r) (Z.lor POLLERR POLLHUP))) = 0) fds evs;
  now_spec : ∀ k t k', now k = (t, k') -> watched k' = watched k ∧ is_open k' = is_open k;
}.

Definition kNew : Z := -1.
Definition kAdded : Z := 1.
Definition kDeleted : Z := 2.

Definition kInitEventListSize : nat := 16.

Section poller.
Context {BT : BaseTime} {CL : Closures} {EP : Epoll}.

Record EPollPoller := mkPoller {
  channels_ : gmap Z addr;
  pevents_ : list epoll_event;
}.

Definition EPollPoller_ctor : EPollPoller :=
  mkPoller ∅ (replicate kInitEventListSize zero_event).

(** The world of a poller: the channels, the poller, the kernel, and whether
    the caller runs in the thread of the owner loop. *)
Record PollerWorld := mkPollerWorld {
  heap : gmap addr Channel;
  poller : EPollPoller;
  kernel : Kernel;
  in_loop : bool;
}.

#[export] Instance poller_heap : ChannelHeap PollerWorld :=
  {| heapL := Lens heap (λ h w, {| w with heap := h |}) |}.

Definition on_channels (f : gmap Z addr -> gmap Z addr) : M PollerWorld unit :=
  modify (λ w, {| w with poller := {| (poller w) with channels_ := f (channels_ (poller w)) |} |}).

Definition assertInLoopThread : M PollerWorld unit :=
  ok ← gets in_loop; if ok : bool then mret tt else failM FatalLog.

Definition poller_hasChannel (p : addr) : M PollerWorld bool :=
  assertInLoopThread ;;;
  c ← deref p;
  gets (λ w, bool_decide (channels_ (poller w) !! fd_ c = Some p)).

(** [update(operation, channel)]: a failure is logged for EPOLL_CTL_DEL and
    fatal for the other operations. *)
Definition poller_update (operation : Z) (p : addr) : M PollerWorld unit :=
  c ← deref p;
  (let event := mkEvent (u32 (events_ c)) (Some p) in
   r ← (λ w, let '(r, k) := epoll_ctl operation (fd_ c) event (kernel w) in
             Ok (r, {| w with kernel := k |}));
   if r <? 0
   then if operation =? EPOLL_CTL_DEL then mret tt else failM FatalLog
   else mret tt).

(** [assert(channels_.find(fd) != end); assert(channels_[fd] == channel)]. *)
Definition assert_registered (fd : Z) (p : addr) : M PollerWorld unit :=
  assertS (λ w, bool_decide (is_Some (channels_ (poller w) !! fd))) ;;;
  assertS (λ w, bool_decide (channels_ (poller w) !! fd = Some p)).

Definition poller_updateChannel (p : addr) : M PollerWorld unit :=
  assertInLoopThread ;;;
  c ← deref p;
  let index := index_ c in
  let fd := fd_ c in
  if (index =? kNew) || (index =? kDeleted) then
    (if index =? kNew then
       assertS (λ w, bool_decide (channels_ (poller w) !! fd = None)) ;;;
       on_channels (insert fd p)
     else assert_registered fd p) ;;;
    on_chan p (set_index kAdded) ;;;
    poller_update EPOLL_CTL_ADD p
  else
    assert_registered fd p ;;;
    assert_ (index =? kAdded) ;;;
    if isNoneEvent c then
      poller_update EPOLL_CTL_DEL p ;;;
      on_chan p (set_index kDeleted)
    else poller_update EPOLL_CTL_MOD p.

Definition poller_removeChannel (p : addr) : M PollerWorld unit :=
  assertInLoopThread ;;;
  c ← deref p;
  let fd := fd_ c in
  assert_registered fd p ;;;
  assert_ (isNoneEvent c) ;;;
  let index := index_ c in
  assert_ ((index =? kAdded) || (index =? kDeleted)) ;;;
  on_channels (delete fd) ;;;
  whenM (index =? kAdded) (poller_update EPOLL_CTL_DEL p) ;;;
  on_chan p (set_index kNew).

(** The loop of [fillActiveChannels] over the first [numEvents] entries: the
    channels to append to [activeChannels]. *)
Fixpoint fill_loop (evs : list epoll_event) : M PollerWorld (list addr) :=
  match evs with
  | [] => mret []
  | ev :: evs' =>
      match ev_data ev with
      | None => failM OutOfBounds
      | Some p =>
          c ← deref p;
          assert_registered (fd_ c) p ;;;
          on_chan p (set_revents (s32 (ev_events ev))) ;;;
          rest ← fill_loop evs';
          mret (p :: rest)
      end
  end.

Definition fillActiveChannels (numEvents : Z) : M PollerWorld (list addr) :=
  assertS (λ w, numEvents <=? zlength (pevents_ (poller w))) ;;;
  evs ← gets (λ w, take (Z.to_nat numEvents) (pevents_ (poller w)));
  fill_loop evs.

(** [poll(timeoutMs, activeChannels)]: the time and what was appended to
    [*activeChannels]. *)
Definition poll (timeoutMs : Z) : M PollerWorld (Timestamp * list addr) :=
  numEvents ← (λ w,
    let vec := pevents_ (poller w) in
    let '(n, evs, e, k) := epoll_wait (s32 (zlength vec)) timeoutMs (kernel w) in
    Ok (n, {| w with kernel := k;
                     poller := {| (poller w) with pevents_ := splice vec 0 evs |} |}));
  t ← (λ w, let '(t, k) := now (kernel w) in Ok (t, {| w with kernel := k |}));
  if 0 <? numEvents then
    active ← fillActiveChannels numEvents;
    vec ← gets (λ w, pevents_ (poller w));
    whenM (numEvents =? zlength vec)
      (modify (λ w, {| w with poller := {| (poller w) with
         pevents_ := vec ++ replicate (length vec) zero_event |} |})) ;;;
    mret (t, active)
  else mret (t, []).

(** What channels see of the poller. *)
#[export] Instance poller_ops : LoopOps PollerWorld := {|
  loop_updateChannel := poller_updateChannel;
  loop_removeChannel := poller_removeChannel;
  loop_hasChannel := λ p w,
    match chan p w with
    | Some c => bool_decide (channels_ (poller w) !! fd_ c = Some p)
    | None => false
    end;
  loop_isInLoopThread := in_loop;
|}.
End poller.

(** ** The invariant: table, indices and interest list agree *)
Section invariant.
#[local] Set Default Proof Using "Type*".
Context {BT : BaseTime} {CL : Closures} {EP : Epoll} {EL : EpollLaws EP}.
Implicit Types (w : PollerWorld) (p q : addr) (c : Channel).

#[export] Instance poller_heap_laws : LensLaws (@heapL CL PollerWorld poller_heap).
Proof. by constructor; intros; destruct s. Qed.

Record poller_ok w : Prop := {
  ok_loop : in_loop w = true;
  ok_size : (0 < length (pevents_ (poller w)))%nat;
  ok_index : ∀ p c, heap w !! p = Some c ->
    index_ c = kNew ∨ index_ c = kAdded ∨ index_ c = kDeleted;
  ok_map : ∀ fd p, channels_ (poller w) !! fd = Some p ↔
    ∃ c, heap w !! p = Some c ∧ fd_ c = fd ∧ index_ c ≠ kNew;
  ok_watched : ∀ fd ev, watched (kernel w) fd = Some ev ->
    ∃ p c, heap w !! p = Some c ∧ fd_ c = fd ∧ index_ c = kAdded ∧ ev_data ev = Some p;
  ok_added : ∀ p c, heap w !! p = Some c -> index_ c = kAdded ->
    ∃ ev, watched (kernel w) (fd_ c) = Some ev ∧ ev_data ev = Some p;
}.

(** The interest the poller has in a channel. *)
Definition poller_interest p w : option interest :=
  match heap w !! p with
  | Some c =>
      if index_ c =? kAdded then
        (λ ev, Watched (ev_events ev)) <$> watched (kernel w) (fd_ c)
      else if index_ c =? kDeleted then Some Parked else None
  | None => None
  end.

(** What happens to the rest of the world when the poller changes what it
    does for the channel [p]. *)
Record poller_step p c c' w w' : Prop := {
  st_heap : heap w' = <[p := c']> (heap w);
  st_loop : in_loop w' = in_loop w;
  st_events : pevents_ (poller w') = pevents_ (poller w);
  st_fd : fd_ c' = fd_ c;
  st_index : index_ c' = kNew ∨ index_ c' = kAdded ∨ index_ c' = kDeleted;
  st_map : channels_ (poller w') =
    (if index_ c' =? kNew then delete (fd_ c) else insert (fd_ c) p) (channels_ (poller w));
  st_other : ∀ fd, fd ≠ fd_ c -> watched (kernel w') fd = watched (kernel w) fd;
  st_this : if index_ c' =? kAdded
            then ∃ ev, watched (kernel w') (fd_ c) = Some ev ∧ ev_data ev = Some p
            else watched (kernel w') (fd_ c) = None;
  st_open : is_open (kernel w') = is_open (kernel w);
}.

Lemma unique_fd w p q c d : poller_ok w ->
  heap w !! p = Some c -> heap w !! q = Some d -> fd_ c = fd_ d ->
  index_ c ≠ kNew -> index_ d ≠ kNew -> p = q.
Proof.
  intros Hok Hp Hq Hfd Hc Hd.
  assert (channels_ (poller w) !! fd_ c = Some p) by (apply ok_map; eauto).
  assert (channels_ (poller w) !! fd_ c = Some q) by (apply ok_map; eauto).
  congruence.
Qed.

Lemma step_ok p c c' w w' : poller_ok w -> heap w !! p = Some c ->
  (index_ c = kNew -> channels_ (poller w) !! fd_ c = None) ->
  poller_step p c c' w w' -> poller_ok w'.
Proof.
  intros Hok Hp Hfree [].
  assert (Hown : ∀ q d, q ≠ p -> heap w !! q = Some d -> index_ d ≠ kNew -> fd_ d ≠ fd_ c).
  { intros q d Hqp Hq Hd Heq. destruct (decide (index_ c = kNew)) as [Hn|Hn].
    - specialize (Hfree Hn).
      assert (channels_ (poller w) !! fd_ c = Some q) by (apply ok_map; eauto). congruence.
    - apply Hqp. by eapply (unique_fd w q p). }
  split.
  - rewrite st_loop0. by apply ok_loop.
  - rewrite st_events0. by apply ok_size.
  - intros q d. rewrite st_heap0, lookup_insert_Some. intros [[_ <-]|[_ ?]]; [done|].
    by eapply ok_index.
  - intros fd q. rewrite st_map0, st_heap0. destruct (decide (q = p)) as [->|Hqp].
    + transitivity (fd = fd_ c ∧ index_ c' ≠ kNew); [|split].
      * destruct (index_ c' =? kNew) eqn:E; bool_to_Z.
        -- rewrite lookup_delete_Some, ok_map by done. naive_solver.
        -- rewrite lookup_insert_Some, ok_map by done. naive_solver.
      * intros [-> ?]. exists c'. by rewrite lookup_insert_eq.
      * intros (d & Hd & <- & ?). rewrite lookup_insert_eq in Hd. by simplify_eq.
    + assert (Heq : (if index_ c' =? kNew then delete (fd_ c) else insert (fd_ c) p)
                (channels_ (poller w)) !! fd = Some q
              ↔ channels_ (poller w) !! fd = Some q ∧ fd ≠ fd_ c).
      { destruct (index_ c' =? kNew); [rewrite lookup_delete_Some|rewrite lookup_insert_Some]; naive_solver. }
      rewrite Heq, ok_map by done. setoid_rewrite lookup_insert_ne; [|done].
      split; [naive_solver|]. intros (d & Hd & <- & ?). split; [eauto|].
      by eapply Hown.
  - intros fd ev. destruct (decide (fd = fd_ c)) as [->|Hfd].
    + destruct (index_ c' =? kAdded) eqn:E; [|congruence].
      destruct st_this0 as (ev' & ? & ?). intros. bool_to_Z. simplify_eq.
      exists p, c'. by rewrite st_heap0, lookup_insert_eq.
    + rewrite st_other0 by done. intros Hw.
      destruct (ok_watched w Hok _ _ Hw) as (q & d & Hq & <- & ? & ?).
      exists q, d. split_and!; try done. rewrite st_heap0, lookup_insert_ne; [done|].
      intros ->. by simplify_eq.
  - intros q d. rewrite st_heap0, lookup_insert_Some. intros [[<- <-]|[Hqp Hq]] Hd.
    + rewrite Hd in st_this0. rewrite st_fd0. exact st_this0.
    + rewrite st_other0; [by apply ok_added|]. apply (Hown q); [done..|].
      rewrite Hd. done.
Qed.

Lemma step_interest_other p c c' w w' q : poller_ok w -> heap w !! p = Some c ->
  (index_ c = kNew -> channels_ (poller w) !! fd_ c = None) ->
  poller_step p c c' w w' -> q ≠ p -> poller_interest q w' = poller_interest q w.
Proof.
  intros Hok Hp Hfree [] Hqp. unfold poller_interest.
  rewrite st_heap0, lookup_insert_ne by done.
  destruct (heap w !! q) as [d|] eqn:Hq; [|done].
  destruct (index_ d =? kAdded) eqn:E; [|done]. bool_to_Z. rewrite st_other0; [done|].
  intros Heq. destruct (decide (index_ c = kNew)) as [Hn|Hn].
  - specialize (Hfree Hn).
    assert (channels_ (poller w) !! fd_ c = Some q); [|congruence].
    apply ok_map; [done|]. exists d. by rewrite E.
  - apply Hqp. eapply (unique_fd w q p); try done. by rewrite E.
Qed.

(** ** Every call keeps the invariant and does what [spec_update] says *)
Lemma wp_assertInLoopThread Q w : in_loop w = true -> Q tt w -> wp assertInLoopThread Q w.
Proof. intros H HQ. unfold assertInLoopThread. wp_simpl. by rewrite H. Qed.

Lemma wp_assert_registered fd p Q w : channels_ (poller w) !! fd = Some p -> Q tt w ->
  wp (assert_registered fd p) Q w.
Proof.
  intros H HQ. unfold assert_registered. wp_simpl. rewrite H.
  rewrite !bool_decide_true by eauto. by wp_simpl.
Qed.

Lemma wp_poller_update op p c k' Q w :
  heap w !! p = Some c ->
  epoll_ctl op (fd_ c) (mkEvent (u32 (events_ c)) (Some p)) (kernel w) = (0, k') ->
  Q tt {| w with kernel := k' |} -> wp (poller_update op p) Q w.
Proof.
  intros Hc Hctl HQ. unfold poller_update. wp_simpl. apply wp_deref with (c := c); [exact Hc|].
  wp_simpl. unfold wp at 1. rewrite Hctl. by wp_simpl.
Qed.

Lemma ok_registered w p c : poller_ok w -> heap w !! p = Some c -> index_ c ≠ kNew ->
  channels_ (poller w) !! fd_ c = Some p.
Proof. intros Hok ? ?. apply ok_map; eauto. Qed.

Lemma ok_unwatched w p c : poller_ok w -> heap w !! p = Some c -> index_ c ≠ kAdded ->
  (index_ c = kNew -> channels_ (poller w) !! fd_ c = None) ->
  watched (kernel w) (fd_ c) = None.
Proof.
  intros Hok Hc Hi Hfree. destruct (watched (kernel w) (fd_ c)) as [ev|] eqn:E; [|done].
  destruct (ok_watched w Hok _ _ E) as (q & d & Hq & Hfd & Hd & _).
  assert (Hdn : index_ d ≠ kNew) by by rewrite Hd.
  destruct (decide (index_ c = kNew)) as [Hn|Hn].
  - assert (channels_ (poller w) !! fd_ c = Some q) by (apply ok_map; eauto).
    rewrite Hfree in *; done.
  - assert (p = q) as -> by by eapply (unique_fd w p q). by simplify_eq.
Qed.

Lemma updateChannel_step w p c : poller_ok w -> heap w !! p = Some c ->
  is_open (kernel w) (fd_ c) = true ->
  (index_ c = kNew -> channels_ (poller w) !! fd_ c = None) ->
  wp (poller_updateChannel p) (λ _ w', ∃ i, poller_step p c (set_index i c) w w'
    ∧ poller_interest p w' = Some (spec_update (poller_interest p w) (events_ c))) w.
Proof.
  intros Hok Hc Ho Hfree. unfold poller_updateChannel. wp_simpl.
  apply wp_assertInLoopThread; [by apply ok_loop|]. wp_simpl.
  apply wp_deref with (c := c); [exact Hc|]. wp_simpl.
  destruct (ok_index w Hok p c Hc) as [Hi|[Hi|Hi]]; rewrite Hi; simpl.
  - (* kNew *)
    destruct (ctl_add (fd_ c) (mkEvent (u32 (events_ c)) (Some p)) (kernel w) Ho)
      as (k' & Hctl & Hw & Hoth & Hop).
    { apply (ok_unwatched w p); try done. by rewrite Hi. }
    wp_simpl. rewrite Hfree by done. split; [by apply bool_decide_true|].
    unfold on_channels. wp_simpl.
    apply wp_on_chan with (c := c); [done|]. cbn.
    eapply wp_poller_update; [apply lookup_insert_eq|exact Hctl|].
    exists kAdded. split.
    + constructor; cbn; try done; try by right; left. by exists (mkEvent (u32 (events_ c)) (Some p)).
    + unfold poller_interest. cbn. rewrite lookup_insert_eq. cbn. rewrite Hw, Hc, Hi. done.
  - (* kAdded *)
    assert (Hreg : channels_ (poller w) !! fd_ c = Some p)
      by (apply ok_registered; try done; by rewrite Hi).
    destruct (ok_added w Hok p c Hc Hi) as (ev & Hev & Hd).
    assert (Hint : poller_interest p w = Some (Watched (ev_events ev))).
    { unfold poller_interest. by rewrite Hc, Hi, Hev. }
    rewrite wp_bind. apply wp_assert_registered; [done|]. rewrite wp_bind, wp_ret.
    rewrite Hint. cbn. unfold isNoneEvent. destruct (events_ c =? kNoneEvent) eqn:E.
    + destruct (ctl_del (fd_ c) (mkEvent (u32 (events_ c)) (Some p)) (kernel w))
        as (k' & Hctl & Hw & Hoth & Hop); [eauto|].
      rewrite wp_bind. eapply wp_poller_update; [done|exact Hctl|].
      apply wp_on_chan with (c := c); [done|]. exists kDeleted. split.
      * constructor; cbn; try done; [by right; right|by rewrite insert_id].
      * unfold poller_interest. cbn. by rewrite lookup_insert_eq.
    + destruct (ctl_mod (fd_ c) (mkEvent (u32 (events_ c)) (Some p)) (kernel w))
        as (k' & Hctl & Hw & Hoth & Hop); [eauto|].
      eapply wp_poller_update; [done|exact Hctl|]. exists kAdded.
      assert (Hself : set_index kAdded c = c) by (destruct c; cbn in *; by subst).
      rewrite Hself. split.
      * constructor; cbn; try done; rewrite ?Hi; cbn.
        -- by rewrite insert_id.
        -- by right; left.
        -- by rewrite insert_id.
        -- by exists (mkEvent (u32 (events_ c)) (Some p)).
      * unfold poller_interest. cbn. by rewrite Hc, Hi, Hw.
  - (* kDeleted *)
    assert (Hreg : channels_ (poller w) !! fd_ c = Some p)
      by (apply ok_registered; try done; by rewrite Hi).
    destruct (ctl_add (fd_ c) (mkEvent (u32 (events_ c)) (Some p)) (kernel w) Ho)
      as (k' & Hctl & Hw & Hoth & Hop).
    { apply (ok_unwatched w p); try done. by rewrite Hi. }
    rewrite wp_bind. apply wp_assert_registered; [done|]. rewrite wp_bind.
    apply wp_on_chan with (c := c); [done|]. cbn.
    eapply wp_poller_update; [apply lookup_insert_eq|exact Hctl|].
    exists kAdded. split.
    + constructor; cbn; try done; [by right; left|by rewrite insert_id|].
      by exists (mkEvent (u32 (events_ c)) (Some p)).
    + unfold poller_interest. cbn. rewrite lookup_insert_eq. cbn. rewrite Hw, Hc, Hi. done.
Qed.

Lemma removeChannel_step w p c : poller_ok w -> heap w !! p = Some c ->
  is_Some (poller_interest p w) -> events_ c = kNoneEvent ->
  wp (poller_removeChannel p) (λ _ w', poller_step p c (set_index kNew c) w w'
    ∧ poller_interest p w' = None) w.
Proof.
  intros Hok Hc Hint Hev. unfold poller_removeChannel. wp_simpl.
  apply wp_assertInLoopThread; [by apply ok_loop|]. wp_simpl.
  apply wp_deref with (c := c); [exact Hc|]. wp_simpl.
  assert (Hi : index_ c = kAdded ∨ index_ c = kDeleted).
  { destruct (ok_index w Hok p c Hc) as [Hi|[Hi|Hi]]; [|by left|by right].
    unfold poller_interest in Hint. rewrite Hc, Hi in Hint. by destruct Hint. }
  assert (Hreg : channels_ (poller w) !! fd_ c = Some p)
    by (apply ok_registered; try done; by destruct Hi as [-> | ->]).
  apply wp_assert_registered; [done|]. wp_simpl. unfold isNoneEvent. rewrite Hev.
  split; [done|]. wp_simpl. split; [by destruct Hi as [-> | ->]|].
  unfold on_channels. wp_simpl.
  assert (Hfin : ∀ k', watched k' (fd_ c) = None ->
    (∀ fd, fd ≠ fd_ c -> watched k' fd = watched (kernel w) fd) ->
    is_open k' = is_open (kernel w) ->
    wp (on_chan p (set_index kNew)) (λ _ w', poller_step p c (set_index kNew c) w w'
       ∧ poller_interest p w' = None)
      {| w with poller := {| (poller w) with channels_ := delete (fd_ c) (channels_ (poller w)) |};
                kernel := k' |}).
  { intros k' Hn Hoth Hop. apply wp_on_chan with (c := c); [done|]. split.
    - constructor; cbn; try done. by left.
    - unfold poller_interest. cbn. by rewrite lookup_insert_eq. }
  destruct Hi as [Hi|Hi]; rewrite Hi; simpl.
  - destruct (ok_added w Hok p c Hc Hi) as (ev & Hw & Hd).
    destruct (ctl_del (fd_ c) (mkEvent (u32 (events_ c)) (Some p)) (kernel w))
      as (k' & Hctl & Hn & Hoth & Hop); [eauto|].
    eapply wp_poller_update; [done|exact Hctl|]. by apply Hfin.
  - apply (Hfin (kernel w)); try done. apply (ok_unwatched w p); try done; by rewrite Hi.
Qed.

(** ** Changes that do not concern the poller *)

(** What the poller relies on: the descriptor and the index of a channel it
    knows, and nothing of the others. *)
Definition live_key (h : gmap addr Channel) p : option (Z * Z) :=
  h !! p ≫= λ c, if index_ c =? kNew then None else Some (fd_ c, index_ c).

Lemma live_key_Some h p fd i :
  live_key h p = Some (fd, i) ↔ ∃ c, h !! p = Some c ∧ fd_ c = fd ∧ index_ c = i ∧ i ≠ kNew.
Proof.
  unfold live_key. destruct (h !! p) as [c|]; cbn; [|naive_solver].
  destruct (index_ c =? kNew) eqn:E; bool_to_Z; naive_solver.
Qed.

Lemma live_lookup h h' p c : (∀ q, live_key h' q = live_key h q) ->
  h' !! p = Some c -> index_ c ≠ kNew ->
  ∃ d, h !! p = Some d ∧ fd_ d = fd_ c ∧ index_ d = index_ c.
Proof.
  intros H Hp Hi. specialize (H p). symmetry in H.
  assert (Hk : live_key h' p = Some (fd_ c, index_ c)) by (apply live_key_Some; eauto).
  rewrite Hk in H. apply live_key_Some in H as (d & ? & ? & ? & _). eauto.
Qed.

Lemma interest_live q w :
  poller_interest q w = live_key (heap w) q ≫= λ '(fd, i),
    if i =? kAdded then (λ ev, Watched (ev_events ev)) <$> watched (kernel w) fd
    else if i =? kDeleted then Some Parked else None.
Proof.
  unfold poller_interest, live_key. destruct (heap w !! q) as [c|]; [|done]. cbn.
  destruct (index_ c =? kNew) eqn:E; [|done]. bool_to_Z. by rewrite E.
Qed.

Lemma ok_reheap w w' : poller_ok w ->
  (∀ q, live_key (heap w') q = live_key (heap w) q) ->
  (∀ p c, heap w' !! p = Some c -> index_ c = kNew ∨ index_ c = kAdded ∨ index_ c = kDeleted) ->
  channels_ (poller w') = channels_ (poller w) ->
  (0 < length (pevents_ (poller w')))%nat ->
  (∀ fd, watched (kernel w') fd = watched (kernel w) fd) -> in_loop w' = in_loop w ->
  poller_ok w' ∧ ∀ q, poller_interest q w' = poller_interest q w.
Proof.
  intros Hok Hh Hidx Hch Hsz Hk Hl.
  assert (Hh' : ∀ q, live_key (heap w) q = live_key (heap w') q) by done.
  split; [split; [by rewrite Hl; apply ok_loop|done..| | |]|].
  - intros fd p. rewrite Hch, ok_map by done.
    split; intros (c & Hc & <- & Hi).
    + destruct (live_lookup _ _ _ _ Hh' Hc Hi) as (d & ? & ? & Hd). exists d. by rewrite Hd.
    + destruct (live_lookup _ _ _ _ Hh Hc Hi) as (d & ? & ? & Hd). exists d. by rewrite Hd.
  - intros fd ev. rewrite Hk. intros Hw.
    destruct (ok_watched w Hok _ _ Hw) as (p & c & Hc & <- & Hi & ?).
    destruct (live_lookup _ _ _ _ Hh' Hc) as (d & ? & ? & Hd); [by rewrite Hi|].
    exists p, d. split_and!; try done. congruence.
  - intros p c Hp Hi. destruct (live_lookup _ _ _ _ Hh Hp) as (d & Hd & <- & Hdi); [by rewrite Hi|].
    rewrite Hk. apply ok_added; [done..|]. congruence.
  - intros q. rewrite !interest_live, Hh. destruct (live_key _ q) as [[fd i]|]; [|done].
    cbn. by rewrite Hk.
Qed.

Definition chan_key (c : Channel) : Z * Z := (fd_ c, index_ c).

Lemma key_lookup (h h' : gmap addr Channel) p c :
  (∀ q, chan_key <$> h' !! q = chan_key <$> h !! q) -> h' !! p = Some c ->
  ∃ d, h !! p = Some d ∧ fd_ d = fd_ c ∧ index_ d = index_ c.
Proof.
  intros H Hp. specialize (H p). rewrite Hp in H. symmetry in H.
  apply fmap_Some in H as (d & Hd & [= Hf Hi]). eauto.
Qed.

Lemma ok_rekey w w' : poller_ok w ->
  (∀ q, chan_key <$> heap w' !! q = chan_key <$> heap w !! q) ->
  channels_ (poller w') = channels_ (poller w) ->
  (0 < length (pevents_ (poller w')))%nat ->
  (∀ fd, watched (kernel w') fd = watched (kernel w) fd) -> in_loop w' = in_loop w ->
  poller_ok w' ∧ ∀ q, poller_interest q w' = poller_interest q w.
Proof.
  intros Hok Hh. apply ok_reheap; [done| |].
  - intros q. specialize (Hh q). unfold live_key.
    destruct (heap w' !! q), (heap w !! q); try done. injection Hh as Hf Hi. cbn.
    by rewrite Hf, Hi.
  - intros p c Hp. destruct (key_lookup _ _ _ _ Hh Hp) as (d & Hd & _ & <-).
    by eapply ok_index.
Qed.

Lemma key_insert p c c' (h : gmap addr Channel) q : h !! p = Some c ->
  fd_ c' = fd_ c -> index_ c' = index_ c ->
  chan_key <$> <[p := c']> h !! q = chan_key <$> h !! q.
Proof.
  intros Hp Hf Hi. destruct (decide (q = p)) as [->|].
  - rewrite lookup_insert_eq, Hp. cbn. unfold chan_key. by rewrite Hf, Hi.
  - by rewrite lookup_insert_ne.
Qed.

(** ** The interface *)
#[export] Instance poller_spec : LoopSpec PollerWorld.
Proof.
  unshelve esplit.
  - exact poller_ok.
  - exact poller_interest.
  - exact (λ fd w, is_open (kernel w) fd = true).
  - exact (λ fd w, channels_ (poller w) !! fd = None).
  - exact (λ _ _, True).
  - exact poller_heap_laws.
  - intros w. apply ok_loop.
  - intros p w Hok [c Hc]. unfold chan in *. cbn in *. unfold chan. cbn. rewrite Hc.
    apply bool_decide_ext. rewrite ok_map by done.
    unfold poller_interest. rewrite Hc. split.
    + intros (d & Hd & _ & Hi). simplify_eq.
      destruct (ok_index w Hok p d Hc) as [?|[Hj|Hj]]; [done| |]; rewrite Hj; cbn; [|by eauto].
      destruct (ok_added w Hok p d Hc Hj) as (ev & -> & _). by eauto.
    + intros Hs. exists c. split_and!; try done. intros Hi. rewrite Hi in Hs. by destruct Hs.
  - intros p w c c' Hok Hc Hf Hi w'. change (heap w !! p = Some c) in Hc.
    assert (Hk : ∀ q, chan_key <$> heap w' !! q = chan_key <$> heap w !! q).
    { intros q. by apply (key_insert p c). }
    destruct (ok_rekey w w' Hok Hk eq_refl (ok_size w Hok) (λ _, eq_refl) eq_refl).
    by split_and!.
  - intros p w c Hok Hc Ho Hfree. change (heap w !! p = Some c) in Hc.
    assert (Hfree' : index_ c = kNew -> channels_ (poller w) !! fd_ c = None).
    { intros Hi. apply Hfree. unfold poller_interest. by rewrite Hc, Hi. }
    eapply wp_mono; [by apply (updateChannel_step w p c)|].
    intros [] w' (i & Hst & Hint). split_and!; try done.
    + by eapply step_ok.
    + exists i. unfold chan. cbn. rewrite (st_heap _ _ _ _ _ Hst). apply lookup_insert_eq.
    + intros q Hq. unfold chan. cbn. rewrite (st_heap _ _ _ _ _ Hst). by apply lookup_insert_ne.
    + intros q Hq. by eapply step_interest_other.
    + intros fd. by rewrite (st_open _ _ _ _ _ Hst).
  - intros p w c Hok Hc Hint Hev _. change (heap w !! p = Some c) in Hc.
    assert (Hfree : index_ c = kNew -> channels_ (poller w) !! fd_ c = None).
    { intros Hi. unfold poller_interest in Hint. rewrite Hc, Hi in Hint. by destruct Hint. }
    eapply wp_mono; [by apply (removeChannel_step w p c)|].
    intros [] w' (Hst & Hn). split_and!; try done.
    + by eapply step_ok.
    + exists kNew. unfold chan. cbn. rewrite (st_heap _ _ _ _ _ Hst). apply lookup_insert_eq.
    + intros q Hq. unfold chan. cbn. rewrite (st_heap _ _ _ _ _ Hst). by apply lookup_insert_ne.
    + intros q Hq. by eapply step_interest_other.
    + intros fd. by rewrite (st_open _ _ _ _ _ Hst).
    + rewrite (st_map _ _ _ _ _ Hst). apply lookup_delete_eq.
  - intros p w c Hok Hc Ho Hfree. change (heap w !! p = Some c) in Hc.
    assert (Hfree' : index_ c = kNew -> channels_ (poller w) !! fd_ c = None).
    { intros Hi. apply Hfree. unfold poller_interest. by rewrite Hc, Hi. }
    eapply wp_mono; [by apply (updateChannel_step w p c)|].
    intros [] w' (i & Hst & _) fd Hne Hfd. rewrite (st_map _ _ _ _ _ Hst).
    case_match; [by rewrite lookup_delete_ne|by rewrite lookup_insert_ne].
  - intros p w c Hok Hc Hint Hev _. change (heap w !! p = Some c) in Hc.
    eapply wp_mono; [by apply (removeChannel_step w p c)|].
    intros [] w' (Hst & _) fd Hfd. rewrite (st_map _ _ _ _ _ Hst). cbn.
    by apply lookup_delete_None; right.
  - intros p w Hn. unfold poller_interest. change (heap w !! p = None) in Hn. by rewrite Hn.
  - intros p w c Hok Hn Hi w'. change (heap w !! p = None) in Hn.
    assert (H : poller_ok w' ∧ ∀ q, poller_interest q w' = poller_interest q w).
    { refine (ok_reheap w w' Hok _ _ eq_refl (ok_size w Hok) (λ _, eq_refl) eq_refl).
      - intros q. unfold live_key. cbn. destruct (decide (q = p)) as [->|].
        + rewrite lookup_insert_eq, Hn. cbn. by rewrite Hi.
        + by rewrite lookup_insert_ne.
      - intros q d Hq. cbn in Hq. apply lookup_insert_Some in Hq as [[_ <-]|[_ Hq]]; [by left|].
        by eapply ok_index. }
    destruct H. by split_and!.
  - intros p w Hok Hn w'.
    assert (H : poller_ok w' ∧ ∀ q, poller_interest q w' = poller_interest q w).
    { refine (ok_reheap w w' Hok _ _ eq_refl (ok_size w Hok) (λ _, eq_refl) eq_refl).
      - intros q. unfold live_key. cbn. destruct (decide (q = p)) as [->|].
        + rewrite lookup_delete_eq. unfold poller_interest in Hn.
          destruct (heap w !! p) as [c|] eqn:Hc; [|done]. cbn.
          destruct (ok_index w Hok p c Hc) as [Hi|[Hi|Hi]]; rewrite Hi in *; cbn in *; [done| |done].
          destruct (ok_added w Hok p c Hc Hi) as (ev & Hev & _). by rewrite Hev in Hn.
        + by rewrite lookup_delete_ne.
      - intros q d Hq. cbn in Hq. apply lookup_delete_Some in Hq as [_ Hq].
        by eapply ok_index. }
    destruct H. by split_and!.
Defined.

(** ** poll *)

(** The received events written into the channels. *)
Fixpoint deliver (evs : list epoll_event) (h : gmap addr Channel) : gmap addr Channel :=
  match evs with
  | [] => h
  | ev :: evs' =>
      match ev_data ev with
      | Some p => deliver evs' (alter (set_revents (s32 (ev_events ev))) p h)
      | None => h
      end
  end.

Definition from_table (h : gmap addr Channel) (ev : epoll_event) : Prop :=
  ∃ p c, ev_data ev = Some p ∧ h !! p = Some c ∧ index_ c ≠ kNew.

Lemma deliver_key evs h q : chan_key <$> deliver evs h !! q = chan_key <$> h !! q.
Proof.
  revert h. induction evs as [|ev evs IH]; intros h; simpl; [done|].
  destruct (ev_data ev) as [p|]; [|done]. rewrite IH.
  destruct (decide (q = p)) as [->|].
  - rewrite lookup_alter_eq. by destruct (h !! p).
  - by rewrite lookup_alter_ne.
Qed.

Lemma deliver_other evs h p : Some p ∉ (ev_data <$> evs) -> deliver evs h !! p = h !! p.
Proof.
  revert h. induction evs as [|ev evs IH]; intros h; simpl; [done|].
  rewrite not_elem_of_cons. intros [Hne Hnin].
  destruct (ev_data ev) as [q|]; [|done]. rewrite IH by done.
  apply lookup_alter_ne. congruence.
Qed.

Lemma deliver_this evs h p ev : NoDup (ev_data <$> evs) -> Forall (from_table h) evs ->
  ev ∈ evs -> ev_data ev = Some p ->
  deliver evs h !! p = set_revents (s32 (ev_events ev)) <$> h !! p.
Proof.
  revert h. induction evs as [|e evs IH]; intros h Hnd Hft Hin Hp; [by apply elem_of_nil in Hin|].
  simpl. apply Forall_cons in Hft as [(q & c & Hq & Hc & Hi) Hft]. rewrite Hq.
  simpl in Hnd. apply NoDup_cons in Hnd as [Hnin Hnd].
  apply elem_of_cons in Hin as [->|Hin].
  - assert (p = q) as -> by congruence. rewrite deliver_other by by rewrite <- Hq.
    apply lookup_alter_eq.
  - assert (p ≠ q).
    { intros ->. apply Hnin. rewrite Hq, <- Hp. by apply list_elem_of_fmap_2. }
    rewrite IH; [by rewrite lookup_alter_ne|done| |done..].
    eapply Forall_impl; [done|]. intros x (r & d & ? & Hd & ?).
    destruct (decide (r = q)) as [->|].
    + exists q, (set_revents (s32 (ev_events e)) d). by rewrite lookup_alter_eq, Hd.
    + exists r, d. by rewrite lookup_alter_ne.
Qed.

Lemma fill_loop_wp evs w : poller_ok w -> Forall (from_table (heap w)) evs ->
  wp (fill_loop evs) (λ active w', Some <$> active = ev_data <$> evs
    ∧ w' = {| w with heap := deliver evs (heap w) |}) w.
Proof.
  revert w. induction evs as [|ev evs IH]; intros w Hok Hft; simpl.
  - wp_simpl. by destruct w.
  - apply Forall_cons in Hft as [(p & c & Hp & Hc & Hi) Hft]. rewrite Hp. wp_simpl.
    apply wp_deref with (c := c); [exact Hc|]. rewrite wp_bind.
    apply wp_assert_registered; [by apply ok_registered|]. rewrite wp_bind.
    apply wp_on_chan with (c := c); [exact Hc|].
    set (w1 := put_chan p _ w).
    assert (Hk : ∀ q, chan_key <$> heap w1 !! q = chan_key <$> heap w !! q).
    { intros q. by apply (key_insert p c). }
    assert (Heq : heap w1 = alter (set_revents (s32 (ev_events ev))) p (heap w)).
    { apply map_eq. intros q. unfold w1, put_chan. cbn.
      destruct (decide (q = p)) as [->|].
      - by rewrite lookup_insert_eq, lookup_alter_eq, Hc.
      - by rewrite lookup_insert_ne, lookup_alter_ne. }
    assert (Hok1 : poller_ok w1)
      by exact (proj1 (ok_rekey w w1 Hok Hk eq_refl (ok_size w Hok) (λ _, eq_refl) eq_refl)).
    rewrite wp_bind. eapply wp_mono; [apply IH; [done|]|].
    + eapply Forall_impl; [done|]. intros x (r & d & ? & Hd & ?).
      destruct (key_lookup (heap w1) (heap w) r d) as (d' & Hd' & _ & Hi'); [done..|].
      exists r, d'. split_and!; [done..|congruence].
    + intros active w2 [Hact ->]. wp_simpl. split; [by f_equal|].
      subst w1. cbn in Heq. by rewrite Heq.
Qed.

Lemma s32_id z : 0 <= z < 2 ^ 31 -> s32 z = z.
Proof using Type. intros. apply wrap_s_id; lia. Qed.

(** An event the kernel reports belongs to a watched channel. *)
Lemma reported w ev fd r : poller_ok w -> watched (kernel w) fd = Some r ->
  ev_data ev = ev_data r ->
  ∃ p c, ev_data ev = Some p ∧ heap w !! p = Some c ∧ index_ c = kAdded
    ∧ poller_interest p w = Some (Watched (ev_events r)).
Proof.
  intros Hok Hw Hd. destruct (ok_watched w Hok fd r Hw) as (p & c & Hc & Hf & Hi & Hr).
  exists p, c. split_and!; [congruence|done..|].
  unfold poller_interest. by rewrite Hc, Hi, Hf, Hw.
Qed.

Lemma reported_all w fds evs (P : epoll_event -> epoll_event -> Prop) : poller_ok w ->
  NoDup fds ->
  Forall2 (λ fd ev, ∃ r, watched (kernel w) fd = Some r ∧ ev_data ev = ev_data r ∧ P ev r)
    fds evs ->
  NoDup (ev_data <$> evs)
  ∧ Forall (λ ev, ∃ fd r, watched (kernel w) fd = Some r ∧ ev_data ev = ev_data r ∧ P ev r) evs.
Proof.
  intros Hok Hnd Hall.
  assert (Hfd : ∀ fd ev p c, watched (kernel w) fd = Some ev -> ev_data ev = Some p ->
            heap w !! p = Some c -> fd_ c = fd).
  { intros fd ev p c Hw Hd Hc. destruct (ok_watched w Hok fd ev Hw) as (q & d & Hq & ? & _ & Hq').
    assert (q = p) as -> by congruence. congruence. }
  induction Hall as [|fd ev fds evs (r & Hw & Hd & HP) Hall IH]; simpl; [by split; constructor|].
  apply NoDup_cons in Hnd as [Hnin Hnd]. destruct (IH Hnd) as [IH1 IH2]. split.
  - apply NoDup_cons. split; [|done]. intros Hin. apply Hnin.
    apply list_elem_of_fmap in Hin as (ev' & Heq & Hin).
    apply list_elem_of_lookup in Hin as [i Hi].
    destruct (Forall2_lookup_r _ _ _ _ _ Hall Hi) as (fd' & Hfd' & r' & Hw' & Hd' & _).
    destruct (reported w ev fd r Hok Hw Hd) as (p & c & Hp & Hc & _).
    assert (fd_ c = fd) by (eapply Hfd; eauto; congruence).
    assert (fd_ c = fd') by (eapply Hfd; eauto; congruence).
    subst. by eapply list_elem_of_lookup_2.
  - constructor; [|done]. eauto.
Qed.

Lemma length_splice0 {A} (l d : list A) : (length d <= length l)%nat ->
  length (splice l 0 d) = length l.
Proof using Type. intros. pose proof (splice_length l 0 d). lia. Qed.

Lemma take_splice0 {A} (l d : list A) : take (length d) (splice l 0 d) = d.
Proof using Type. unfold splice. simpl. apply take_app_length. Qed.
(** What a successful or failed [epoll_wait] hands to [poll]. *)
Definition delivery w (ev : epoll_event) p c (mask : Z) : Prop :=
  ev_data ev = Some p ∧ heap w !! p = Some c ∧ index_ c = kAdded
  ∧ poller_interest p w = Some (Watched mask) ∧ 0 <= ev_events ev < 2 ^ 31
  ∧ Z.land (ev_events ev) (Z.lnot (Z.lor mask (Z.lor POLLERR POLLHUP))) = 0.

Record waited w n (evs : list epoll_event) k' : Prop := {
  wt_few : n <= zlength (pevents_ (poller w));
  wt_len : zlength evs = Z.max n 0;
  wt_kernel : watched k' = watched (kernel w);
  wt_open : is_open k' = is_open (kernel w);
  wt_nodup : NoDup (ev_data <$> evs);
  wt_all : Forall (λ ev, ∃ p c mask, delivery w ev p c mask) evs;
}.

Lemma wait_waited w timeout n evs e k' : poller_ok w ->
  epoll_wait (zlength (pevents_ (poller w))) timeout (kernel w) = (n, evs, e, k') ->
  waited w n evs k'.
Proof.
  intros Hok Hwait. pose proof (ok_size w Hok) as Hpos.
  destruct (wait_spec (zlength (pevents_ (poller w))) timeout (kernel w) n evs e k' ltac:(lia) Hwait)
    as (Hn & Hkw & Hko & Hlen & fds & Hfds & Hall).
  pose proof (reported_all w fds evs _ Hok Hfds Hall) as [Hnd Hev].
  split; try done. eapply Forall_impl; [done|]. intros ev (fd & r & Hw & Hd & Hr & Hm).
  destruct (reported w ev fd r Hok Hw Hd) as (p & c & ? & ? & ? & ?). by exists p, c, (ev_events r).
Qed.

Lemma waited_from w n evs k' : waited w n evs k' -> Forall (from_table (heap w)) evs.
Proof using Type.
  intros []. eapply Forall_impl; [done|]. intros ev (p & c & mask & ? & ? & Hi & _).
  exists p, c. by rewrite Hi.
Qed.

(** The reported channels are different and in the table. *)
Lemma waited_size w n evs k' : poller_ok w -> waited w n evs k' ->
  n <= Z.of_nat (size (channels_ (poller w))).
Proof using Type.
  intros Hok [_ Hlen _ _ Hnd Hall].
  assert (Hsub : ev_data <$> evs ⊆+ Some <$> (map_to_list (channels_ (poller w))).*2).
  { apply NoDup_submseteq; [done|]. intros x (ev & -> & Hin)%list_elem_of_fmap.
    rewrite Forall_forall in Hall. destruct (Hall ev Hin) as (p & c & mask & Hp & Hc & Hi & _).
    rewrite Hp. apply list_elem_of_fmap_2, list_elem_of_fmap. exists (fd_ c, p).
    split; [done|]. apply elem_of_map_to_list, ok_map; [done|]. exists c. by rewrite Hi. }
  apply submseteq_length in Hsub. rewrite !length_fmap, length_map_to_list in Hsub. lia.
Qed.

(** The world after [poll]. *)
Lemma polled_ok w h l k : poller_ok w -> (∀ q, chan_key <$> h !! q = chan_key <$> heap w !! q) ->
  (0 < length l)%nat -> watched k = watched (kernel w) ->
  let w' := mkPollerWorld h (mkPoller (channels_ (poller w)) l) k (in_loop w) in
  poller_ok w' ∧ ∀ q, poller_interest q w' = poller_interest q w.
Proof. intros Hok Hk Hl Hw w'. apply ok_rekey; try done. intros fd. cbn. by rewrite Hw. Qed.

Lemma deliver_given w n evs k' ev p : waited w n evs k' -> ev ∈ evs -> ev_data ev = Some p ->
  ∃ c mask, heap w !! p = Some c ∧ deliver evs (heap w) !! p = Some (set_revents (ev_events ev) c)
    ∧ poller_interest p w = Some (Watched mask)
    ∧ Z.land (ev_events ev) (Z.lnot (Z.lor mask (Z.lor POLLERR POLLHUP))) = 0.
Proof using Type.
  intros Hwt Hin Hp. pose proof (waited_from _ _ _ _ Hwt) as Hfrom. destruct Hwt.
  rewrite Forall_forall in wt_all0.
  destruct (wt_all0 ev Hin) as (q & c & mask & Hq & Hc & _ & Hi & Hr & Hm).
  assert (p = q) as <- by congruence. exists c, mask.
  by rewrite (deliver_this evs _ p ev), Hc, s32_id.
Qed.

(** What [poll] does, given the answer of [epoll_wait]. *)
Record polled w (evs : list epoll_event) (active : list addr) w' : Prop := {
  pd_ok : poller_ok w';
  pd_interest : ∀ q, poller_interest q w' = poller_interest q w;
  pd_active : Some <$> active = ev_data <$> evs;
  pd_heap : heap w' = deliver evs (heap w);
  pd_channels : channels_ (poller w') = channels_ (poller w);
  pd_loop : in_loop w' = in_loop w;
  pd_open : is_open (kernel w') = is_open (kernel w);
}.

Lemma poll_wp w timeout n evs e k' : let size := zlength (pevents_ (poller w)) in
  poller_ok w -> size < 2 ^ 31 -> epoll_wait size timeout (kernel w) = (n, evs, e, k') ->
  wp (poll timeout) (λ '(_, active) w', polled w evs active w'
    ∧ zlength (pevents_ (poller w')) = if n =? size then 2 * size else size) w.
Proof.
  intros size Hok Hsz Hwait. pose proof (ok_size w Hok) as Hpos.
  pose proof (wait_waited w timeout n evs e k' Hok Hwait) as Hwt.
  pose proof (waited_from _ _ _ _ Hwt) as Hfrom. destruct Hwt as [Hn Hlen Hkw Hko _ _].
  unfold poll. wp_simpl. unfold wp at 1. rewrite s32_id by lia. fold size. rewrite Hwait.
  wp_simpl. unfold wp at 1. cbn [kernel]. destruct (now k') as [t k2] eqn:Hnow.
  destruct (now_spec k' t k2 Hnow) as [Hk2w Hk2o].
  assert (Hles : (length evs <= length (pevents_ (poller w)))%nat) by lia.
  set (vec := splice (pevents_ (poller w)) 0 evs).
  assert (Hvec : length vec = length (pevents_ (poller w))) by by apply length_splice0.
  assert (Hfin : ∀ h l, (∀ q, chan_key <$> h !! q = chan_key <$> heap w !! q) -> (0 < length l)%nat ->
    let w3 := mkPollerWorld h (mkPoller (channels_ (poller w)) l) k2 (in_loop w) in
    poller_ok w3 ∧ (∀ q, poller_interest q w3 = poller_interest q w)
    ∧ is_open (kernel w3) = is_open (kernel w)).
  { intros h l Hk Hl. destruct (polled_ok w h l k2 Hok Hk Hl ltac:(congruence)).
    split_and!; try done. cbn. congruence. }
  case_match eqn:En; bool_to_Z.
  - unfold fillActiveChannels. wp_simpl. cbn. fold vec. rewrite Hvec. split; [apply Z.leb_le; lia|].
    wp_simpl. replace (Z.to_nat n) with (length evs) by lia. unfold vec. rewrite take_splice0.
    eapply wp_mono; [apply fill_loop_wp; [|done]|].
    { apply (Hfin (heap w) vec); [done|lia]. }
    intros active w2 [Hact ->]. wp_simpl. fold vec. rewrite Hvec. fold size.
    destruct (n =? size); wp_simpl; (split; [|rewrite ?length_app, ?length_replicate; lia]).
    all: edestruct Hfin as (? & ? & ?); [by intros q; apply (deliver_key evs)| |split; try done].
    all: rewrite ?length_app; lia.
  - assert (evs = []) as -> by (destruct evs; [done|simpl in Hlen; lia]).
    wp_simpl. destruct (Hfin (heap w) vec) as (? & ? & ?); [done|lia|]. split; [by split|].
    rewrite Hvec. fold size. case_match; bool_to_Z; lia.
Qed.
End invariant.

(** C25: poll.  Under the invariant, and while the event vector has fewer than
    2^31 entries, poll returns without failing an assertion, and exactly the
    channels reported by the kernel are appended, each once.  Each of them is
    watched, and the received events stored in it are the reported ones, which
    are among those it is watched for, POLLERR and POLLHUP.  All other
    channels are untouched, no interest changes, and the vector doubles exactly
    when the kernel filled it. *)
Theorem poll_delivers {BT : BaseTime} {CL : Closures} {EP : Epoll} {EL : EpollLaws EP}
    (timeout : Z) (w : PollerWorld) n evs e k' :
  let size := zlength (pevents_ (poller w)) in
  poller_ok w -> size < 2 ^ 31 ->
  epoll_wait size timeout (kernel w) = (n, evs, e, k') ->
  wp (poll timeout) (λ '(_, active) w',
    poller_ok w' ∧ (∀ q, poller_interest q w' = poller_interest q w)
    ∧ Some <$> active = ev_data <$> evs ∧ NoDup active
    ∧ (∀ p, p ∉ active -> heap w' !! p = heap w !! p)
    ∧ (∀ ev p, ev ∈ evs -> ev_data ev = Some p -> ∃ c mask,
         heap w !! p = Some c ∧ heap w' !! p = Some (set_revents (ev_events ev) c)
         ∧ poller_interest p w = Some (Watched mask)
         ∧ Z.land (ev_events ev) (Z.lnot (Z.lor mask (Z.lor POLLERR POLLHUP))) = 0)
    ∧ zlength (pevents_ (poller w')) = if n =? size then 2 * size else size) w.
Proof.
  intros size Hok Hsz Hwait. pose proof (wait_waited w timeout n evs e k' Hok Hwait) as Hwt.
  eapply wp_mono; [by eapply (poll_wp w timeout n evs)|].
  intros [t active] w' [[Hok' Hi Hact Hh _ _ _] Hl]. split_and!; try done.
  - apply (NoDup_fmap_1 Some). rewrite Hact. apply Hwt.
  - intros p Hp. rewrite Hh. apply deliver_other. rewrite <- Hact, list_elem_of_fmap.
    intros (? & [= ->] & ?). done.
  - intros ev p Hin Hp. rewrite Hh. by eapply deliver_given.
Qed.

(** ** A kernel

    An interest list, the open descriptors, the state of each descriptor and a
    clock: a concrete [Epoll] that satisfies the laws, for the witnesses. *)
Record tiny_kernel := mkTiny {
  tk_list : gmap Z epoll_event;
  tk_open : list Z;
  tk_ready : gmap Z Z;
  tk_clock : Z;
}.

Definition tiny_ctl (op fd : Z) (ev : epoll_event) (k : tiny_kernel) : Z * tiny_kernel :=
  if negb (bool_decide (fd ∈ tk_open k)) then (-1, k)
  else if op =? EPOLL_CTL_ADD then
    match tk_list k !! fd with
    | None => (0, {| k with tk_list := <[fd := ev]> (tk_list k) |})
    | Some _ => (-1, k)
    end
  else match tk_list k !! fd with
    | None => (-1, k)
    | Some _ => (0, {| k with tk_list := (if op =? EPOLL_CTL_DEL then delete fd else insert fd ev)
                                         (tk_list k) |})
    end.

Definition tiny_event (k : tiny_kernel) (fd : Z) : epoll_event :=
  let r := default zero_event (tk_list k !! fd) in
  mkEvent (Z.land (Z.land (default 0 (tk_ready k !! fd))
                          (Z.lor (ev_events r) (Z.lor POLLERR POLLHUP))) (Z.ones 31))
          (ev_data r).

Definition tiny_fds (max : Z) (k : tiny_kernel) : list Z :=
  take (Z.to_nat max)
    (filter (λ fd, is_Some (tk_list k !! fd) ∧ fd ∈ tk_open k) ((map_to_list (tk_ready k)).*1)).

Definition tiny_wait (max timeout : Z) (k : tiny_kernel)
    : Z * list epoll_event * Z * tiny_kernel :=
  let evs := tiny_event k <$> tiny_fds max k in
  (zlength evs, evs, 0, {| k with tk_ready := ∅ |}).

Definition tiny_epoll : @Epoll micros := @Build_Epoll micros tiny_kernel tiny_ctl tiny_wait
  (λ k, (tick (tk_clock k), {| k with tk_clock := tk_clock k + 1 |}))
  (λ k fd, if bool_decide (fd ∈ tk_open k) then tk_list k !! fd else None)
  (λ k fd, bool_decide (fd ∈ tk_open k)).

Lemma land_subset a b m : Z.land (Z.land (Z.land a b) m) (Z.lnot b) = 0.
Proof.
  apply Z.bits_inj'. intros n Hn. rewrite !Z.land_spec, Z.lnot_spec, Z.bits_0 by done.
  destruct (Z.testbit b n); by rewrite ?andb_false_r, ?andb_false_l.
Qed.

#[export] Instance tiny_laws : EpollLaws tiny_epoll.
Proof.
  constructor; cbn; unfold tiny_ctl.
  - intros fd ev k Ho Hw. rewrite Ho in Hw |- *. cbn. rewrite Hw. eexists. split; [done|]. cbn.
    rewrite Ho. split; [apply lookup_insert_eq|]. split; [|done].
    intros fd' Hne. by rewrite lookup_insert_ne.
  - intros fd ev k [r Hr]. case_bool_decide as Ho; [|done]. cbn. rewrite Hr.
    eexists. split; [done|]. cbn. rewrite bool_decide_true by done.
    split; [apply lookup_insert_eq|]. split; [|done].
    intros fd' Hne. by rewrite lookup_insert_ne.
  - intros fd ev k [r Hr]. case_bool_decide as Ho; [|done]. cbn. rewrite Hr.
    eexists. split; [done|]. cbn. rewrite bool_decide_true by done.
    split; [apply lookup_delete_eq|]. split; [|done].
    intros fd' Hne. by rewrite lookup_delete_ne.
  - intros op fd ev k Ho. by rewrite Ho.
  - intros mx timeout k n evs e k' Hmx H. unfold tiny_wait in H. injection H as <- <- <- <-.
    assert (Hlen : (length (tiny_fds mx k) <= Z.to_nat mx)%nat) by (unfold tiny_fds; rewrite length_take; lia).
    rewrite length_fmap. split_and!; [lia|done|done|lia|].
    exists (tiny_fds mx k). split.
    { unfold tiny_fds. eapply sublist_NoDup; [apply (NoDup_fst_map_to_list (tk_ready k))|].
      etrans; [apply sublist_take|apply sublist_filter]. }
    apply Forall2_fmap_r, Forall_Forall2_diag, Forall_forall.
    intros fd Hin. unfold tiny_fds in Hin. apply elem_of_take in Hin as (i & Hin & _).
    apply list_elem_of_lookup_2 in Hin. apply list_elem_of_filter in Hin as [[[r Hr] Ho] _].
    exists r. rewrite bool_decide_true by done. unfold tiny_event. rewrite Hr. cbn [default ev_data ev_events].
    split_and!; try done.
    + apply Z.land_nonneg. by right.
    + rewrite Z.land_ones by lia. by apply Z.mod_pos_bound.
    + apply land_subset.
  - intros k t k' [= <- <-]. done.
Qed.

(** Two channels of the tiny kernel: descriptor 5 watched for reading and
    ready, descriptor 6 in the table but not watched. *)
Definition tiny_chan (fd ev idx : Z) : @Channel demo_closures :=
  set_index idx (set_events ev (@Channel_ctor demo_closures fd)).

Definition tiny_world : @PollerWorld micros demo_closures tiny_epoll :=
  @mkPollerWorld micros demo_closures tiny_epoll
    (<[1%positive := tiny_chan 5 3 kAdded]> {[2%positive := tiny_chan 6 0 kDeleted]})
    (mkPoller (<[5 := 1%positive]> {[6 := 2%positive]}) [zero_event])
    (mkTiny {[5 := mkEvent 3 (Some 1%positive)]} [5; 6] {[5 := 5]} 100)
    true.

Lemma tiny_world_ok : poller_ok tiny_world.
Proof.
  split; cbn; try done; try lia.
  - intros p c Hp. apply lookup_insert_Some in Hp as [[_ <-]|[_ Hp]]; [by right; left|].
    apply lookup_singleton_Some in Hp as [_ <-]. by right; right.
  - intros fd p. split.
    + intros H. apply lookup_insert_Some in H as [[<- <-]|[_ H]].
      * eexists. by split; [apply lookup_insert_eq|].
      * apply lookup_singleton_Some in H as [<- <-]. eexists. by split.
    + intros (c & Hp & <- & _). apply lookup_insert_Some in Hp as [[<- <-]|[_ Hp]]; [done|].
      by apply lookup_singleton_Some in Hp as [<- <-].
  - intros fd ev. case_bool_decide; [|done]. intros H1.
    apply lookup_singleton_Some in H1 as [<- <-]. exists 1%positive, (tiny_chan 5 3 kAdded).
    by split_and!.
  - intros p c Hp. apply lookup_insert_Some in Hp as [[<- <-]|[_ Hp]].
    + exists (mkEvent 3 (Some 1%positive)). split; vm_compute; reflexivity.
    + by apply lookup_singleton_Some in Hp as [_ <-].
Qed.

Lemma poll_delivers_witness :
  ∃ w', poll 10000 tiny_world = Ok ((tick 100, [1%positive]), w')
    ∧ heap w' !! 1%positive = Some (set_revents 1 (tiny_chan 5 3 kAdded))
    ∧ length (pevents_ (poller w')) = 2%nat.
Proof.
  pose proof (@poll_delivers micros demo_closures tiny_epoll tiny_laws 10000 tiny_world
    1 [mkEvent 1 (Some 1%positive)] 0
    {| (kernel tiny_world) with tk_ready := ∅ |} tiny_world_ok eq_refl
    ltac:(vm_compute; reflexivity)) as H.
  assert (Hv : value (poll 10000 tiny_world) = Some (tick 100, [1%positive]))
    by (vm_compute; reflexivity).
  unfold wp in H. destruct (poll 10000 tiny_world) as [[[t active] w']|]; [|destruct H].
  injection Hv as -> ->. exists w'.
  destruct H as (_ & _ & _ & _ & _ & Hin & Hlen). split; [reflexivity|]. split.
  - destruct (Hin (mkEvent 1 (Some 1%positive)) 1%positive) as (c & mask & Hc & Hc' & _).
    + by left.
    + reflexivity.
    + injection Hc as <-. exact Hc'.
  - apply Nat2Z.inj. exact Hlen.
Defined.
(** ** Refinement: channels over the poller and the kernel *)

Inductive toggle := EnableReading | DisableReading | EnableWriting | DisableWriting | DisableAll.

Definition toggle_events (t : toggle) (e : Z) : Z :=
  match t with
  | EnableReading => Z.lor e kReadEvent
  | DisableReading => Z.land e (Z.lnot kReadEvent)
  | EnableWriting => Z.lor e kWriteEvent
  | DisableWriting => Z.land e (Z.lnot kWriteEvent)
  | DisableAll => kNoneEvent
  end.

(** What the owners of channels do: create one, change its interest, remove
    it from the loop, destroy it. *)
Inductive chan_op :=
  | OpNew (p : addr) (fd : Z)
  | OpToggle (p : addr) (t : toggle)
  | OpRemove (p : addr)
  | OpDestroy (p : addr).

Section run_ops.
Context {BT : BaseTime} {CL : Closures} {EP : Epoll}.

Definition run_op (op : chan_op) : M PollerWorld unit :=
  match op with
  | OpNew p fd => modify (put_chan p (Channel_ctor fd))
  | OpToggle p EnableReading => enableReading p
  | OpToggle p DisableReading => disableReading p
  | OpToggle p EnableWriting => enableWriting p
  | OpToggle p DisableWriting => disableWriting p
  | OpToggle p DisableAll => disableAll p
  | OpRemove p => remove p
  | OpDestroy p => Channel_dtor p
  end.

(** A world in which nothing is registered yet. *)
Definition fresh_world (k : Kernel) : PollerWorld := mkPollerWorld ∅ EPollPoller_ctor k true.
End run_ops.

(** The specification: for each channel its descriptor, its events and what is
    done for it; [None] when the contract is violated.  [opened] tells which
    descriptors are open. *)
Abbreviation chan_table := (gmap addr (Z * Z * option interest)).

Definition fd_unused (fd : Z) (S : chan_table) : bool :=
  bool_decide (map_Forall (λ _ x, x.1.1 = fd -> x.2 = None) S).

Definition spec_op (opened : Z -> bool) (op : chan_op) (S : chan_table) : option chan_table :=
  match op with
  | OpNew p fd =>
      match S !! p with
      | None => Some (<[p := (fd, 0, None)]> S)
      | Some _ => None
      end
  | OpToggle p t =>
      '(fd, e, i) ← S !! p;
      if opened fd && (bool_decide (is_Some i) || fd_unused fd S)
      then Some (<[p := (fd, toggle_events t e, Some (spec_update i (toggle_events t e)))]> S)
      else None
  | OpRemove p =>
      '(fd, e, i) ← S !! p;
      if (e =? 0) && bool_decide (is_Some i) then Some (<[p := (fd, e, None)]> S) else None
  | OpDestroy p =>
      '(fd, e, i) ← S !! p;
      if bool_decide (i = None) then Some (delete p S) else None
  end.

Fixpoint spec_run (opened : Z -> bool) (ops : list chan_op) (S : chan_table) : option chan_table :=
  match ops with
  | [] => Some S
  | op :: ops' => spec_op opened op S ≫= spec_run opened ops'
  end.

Section refinement.
#[local] Set Default Proof Using "Type*".
Context {BT : BaseTime} {CL : Closures} {EP : Epoll} {EL : EpollLaws EP} (opened : Z -> bool).
Implicit Types (w : PollerWorld) (p q : addr) (c : Channel) (S : chan_table).

Definition chan_view w p : option (Z * Z * option interest) :=
  (λ c, (fd_ c, events_ c, poller_interest p w)) <$> heap w !! p.

Record represents w S : Prop := {
  rp_ok : poller_ok w;
  rp_open : ∀ fd, is_open (kernel w) fd = opened fd;
  rp_view : ∀ p, S !! p = chan_view w p;
  rp_flags : ∀ p c, heap w !! p = Some c -> eventHandling_ c = false
    ∧ addedToLoop_ c = bool_decide (is_Some (poller_interest p w));
}.

Lemma represents_lookup w S p fd e i : represents w S -> S !! p = Some (fd, e, i) ->
  ∃ c, heap w !! p = Some c ∧ fd_ c = fd ∧ events_ c = e ∧ poller_interest p w = i.
Proof.
  intros Hr HS. rewrite (rp_view _ _ Hr) in HS. unfold chan_view in HS.
  apply fmap_Some in HS as (c & Hc & [= -> -> ->]). eauto.
Qed.

Lemma fd_unused_free w S fd : represents w S -> fd_unused fd S = true ->
  channels_ (poller w) !! fd = None.
Proof.
  intros Hr Hu. apply bool_decide_eq_true in Hu.
  destruct (channels_ (poller w) !! fd) as [q|] eqn:E; [|done].
  apply (ok_map _ (rp_ok _ _ Hr)) in E as (d & Hd & Hf & Hi).
  assert (HS : S !! q = chan_view w q) by apply rp_view, Hr.
  unfold chan_view in HS. rewrite Hd in HS. specialize (Hu q _ HS Hf). cbn in Hu.
  unfold poller_interest in Hu. rewrite Hd in Hu.
  destruct (ok_index _ (rp_ok _ _ Hr) q d Hd) as [?|[Ha|Ha]]; [done| |];
    rewrite Ha in Hu; [|done]. cbn in Hu.
  destruct (ok_added _ (rp_ok _ _ Hr) q d Hd Ha) as (ev & Hev & _). by rewrite Hev in Hu.
Qed.

(** A step that changes one channel. *)
Lemma represents_one w w' S p c' i :
  represents w S -> poller_ok w' -> heap w' !! p = Some c' ->
  poller_interest p w' = i -> eventHandling_ c' = false ->
  addedToLoop_ c' = bool_decide (is_Some i) ->
  frame_chan p w w' -> (∀ q, q ≠ p -> poller_interest q w' = poller_interest q w) ->
  (∀ fd, is_open (kernel w') fd = is_open (kernel w) fd) ->
  represents w' (<[p := (fd_ c', events_ c', i)]> S).
Proof.
  intros Hr Hok Hc Hi Heh Hadd Hfr Hoi Ho. split.
  - done.
  - intros fd. rewrite Ho. apply Hr.
  - intros q. unfold chan_view. destruct (decide (q = p)) as [->|Hq].
    + by rewrite lookup_insert_eq, Hc, <- Hi.
    + rewrite lookup_insert_ne, (rp_view _ _ Hr) by done. unfold chan_view.
      rewrite Hoi by done. f_equal. symmetry. by apply Hfr.
  - intros q d Hq. destruct (decide (q = p)) as [->|Hne].
    + assert (d = c') as -> by congruence. by rewrite Hi.
    + rewrite Hoi by done. apply (rp_flags _ _ Hr). rewrite <- Hq. symmetry. by apply Hfr.
Qed.

Lemma open_iff w w' : (∀ fd, is_open (kernel w') fd = true ↔ is_open (kernel w) fd = true) ->
  ∀ fd, is_open (kernel w') fd = is_open (kernel w) fd.
Proof.
  intros H fd. specialize (H fd).
  apply eq_true_iff_eq. exact H.
Qed.

Lemma run_op_sim op w S S' : represents w S -> spec_op opened op S = Some S' ->
  wp (run_op op) (λ _ w', represents w' S') w.
Proof.
  intros Hr Hs. pose proof (rp_ok _ _ Hr) as Hok. destruct op as [p fd|p t|p|p]; cbn in Hs.
  - destruct (S !! p) eqn:HS; [done|]. injection Hs as <-.
    rewrite (rp_view _ _ Hr) in HS. apply fmap_None in HS.
    destruct (@law_new _ _ _ poller_spec p w (Channel_ctor fd) Hok HS eq_refl) as (Hok' & Hi' & Ho' & _).
    assert (Hn : poller_interest p w = None) by (unfold poller_interest; by rewrite HS).
    unfold run_op. wp_simpl.
    apply (represents_one w (put_chan p (Channel_ctor fd) w) S p (Channel_ctor fd)); try done.
    + apply lookup_insert_eq.
    + rewrite <- Hn. apply Hi'.
    + exact (@put_frame _ _ poller_ops poller_spec p (Channel_ctor fd) w).
    + intros q _. apply Hi'.
  - destruct (S !! p) as [[[fd e] i]|] eqn:HS; [|done]. cbn in Hs. case_match eqn:E; [|done].
    injection Hs as <-. apply andb_prop in E as [Eo Eu].
    destruct (represents_lookup _ _ _ _ _ _ Hr HS) as (c & Hc & Hf & He & Hi).
    assert (Heq : run_op (OpToggle p t)
      = (on_chan p (λ c, set_events (toggle_events t (events_ c)) c) ;;; update p))
      by by destruct t.
    rewrite Heq. apply (@toggle_wp _ _ poller_ops poller_spec p (λ c, toggle_events t (events_ c)) c); [done|exact Hc| | |].
    + cbn. by rewrite (rp_open _ _ Hr), Hf.
    + cbn. rewrite Hi, Hf. intros ->. by apply (fd_unused_free w S).
    + intros w' Ht. destruct (tg_chan _ _ _ _ _ Ht) as (j & Hc').
      set (c' := set_index j _) in Hc'. cbn in Ht.
      replace fd with (fd_ c') by done.
      replace (toggle_events t e) with (events_ c') by (cbn; by rewrite He).
      apply (represents_one w w' S p c'); try done.
      * apply (tg_ok _ _ _ _ _ Ht).
      * rewrite <- Hi. cbn. apply (tg_interest _ _ _ _ _ Ht).
      * cbn. by apply (rp_flags _ _ Hr p).
      * apply (tg_frame _ _ _ _ _ Ht).
      * apply (tg_others _ _ _ _ _ Ht).
      * apply open_iff, (tg_open _ _ _ _ _ Ht).
  - destruct (S !! p) as [[[fd e] i]|] eqn:HS; [|done]. cbn in Hs. case_match eqn:E; [|done].
    injection Hs as <-. apply andb_prop in E as [Ee Ei]. bool_to_Z.
    apply bool_decide_eq_true in Ei.
    destruct (represents_lookup _ _ _ _ _ _ Hr HS) as (c & Hc & Hf & He & Hi).
    apply (@remove_wp _ _ poller_ops poller_spec p c); [done|exact Hc|cbn; by rewrite Hi|by rewrite He|done|].
    intros w' Ht. destruct (rm_chan _ _ _ _ Ht) as (j & Hc').
    set (c' := set_index j _) in Hc'.
    replace fd with (fd_ c') by done. replace e with (events_ c') by done.
    apply (represents_one w w' S p c'); try done.
    + apply (rm_ok _ _ _ _ Ht).
    + apply (rm_interest _ _ _ _ Ht).
    + cbn. by apply (rp_flags _ _ Hr p).
    + apply (rm_frame _ _ _ _ Ht).
    + apply (rm_others _ _ _ _ Ht).
    + apply open_iff, (rm_open _ _ _ _ Ht).
  - destruct (S !! p) as [[[fd e] i]|] eqn:HS; [|done]. cbn in Hs. case_match eqn:E; [|done].
    injection Hs as <-. apply bool_decide_eq_true in E as ->.
    destruct (represents_lookup _ _ _ _ _ _ Hr HS) as (c & Hc & Hf & He & Hi).
    destruct (rp_flags _ _ Hr p c Hc) as [Heh Hadd]. rewrite Hi in Hadd.
    apply (@Channel_dtor_wp _ _ poller_ops poller_spec p c); [done|exact Hc|done..|].
    intros Hok'. destruct (@law_delete _ _ _ poller_spec p w Hok Hi) as (_ & Hi' & Ho' & _).
    change (∀ q, poller_interest q {| w with heap := delete p (heap w) |} = poller_interest q w)
      in Hi'.
    split.
    + done.
    + apply Hr.
    + intros q. unfold chan_view. destruct (decide (q = p)) as [->|Hq].
      * cbn. by rewrite !lookup_delete_eq.
      * rewrite lookup_delete_ne by done. rewrite (rp_view _ _ Hr).
        unfold chan_view. cbn. rewrite Hi'. by rewrite lookup_delete_ne.
    + intros q d Hq. cbn in Hq. apply lookup_delete_Some in Hq as [_ Hq].
      cbn. rewrite Hi'. by apply (rp_flags _ _ Hr).
Qed.

Lemma run_ops_sim ops w S S' : represents w S -> spec_run opened ops S = Some S' ->
  wp (for_each ops run_op) (λ _ w', represents w' S') w.
Proof.
  revert w S. induction ops as [|op ops IH]; cbn [for_each spec_run]; intros w S Hr Hs.
  - injection Hs as <-. by wp_simpl.
  - apply bind_Some in Hs as (S1 & H1 & H2). rewrite wp_bind.
    eapply wp_mono; [by eapply run_op_sim|]. intros [] w1 Hr1. by eapply IH.
Qed.

Lemma fresh_represents k : (∀ fd, watched k fd = None) -> (∀ fd, is_open k fd = opened fd) ->
  represents (fresh_world k) ∅.
Proof.
  intros Hw Ho. split; [split|..]; cbn; try done.
  - lia.
  - intros fd p. split; [done|]. by intros (? & ? & _).
  - intros fd ev. by rewrite Hw.
Qed.

Lemma represents_watched w S fd ev : represents w S ->
  watched (kernel w) fd = Some ev ↔
  ∃ p e, S !! p = Some (fd, e, Some (Watched (ev_events ev))) ∧ ev_data ev = Some p.
Proof.
  intros Hr. pose proof (rp_ok _ _ Hr) as Hok. split.
  - intros Hw. destruct (ok_watched w Hok fd ev Hw) as (p & c & Hc & Hf & Hi & Hd).
    exists p, (events_ c). split; [|done]. rewrite (rp_view _ _ Hr). unfold chan_view.
    unfold poller_interest. rewrite Hc, Hi. cbn. by rewrite Hf, Hw.
  - intros (p & e & HS & Hd).
    destruct (represents_lookup _ _ _ _ _ _ Hr HS) as (c & Hc & Hf & He & Hi).
    unfold poller_interest in Hi. rewrite Hc in Hi.
    destruct (ok_index w Hok p c Hc) as [Hx|[Hx|Hx]]; rewrite Hx in Hi; cbn in Hi; try done.
    destruct (ok_added w Hok p c Hc Hx) as (ev' & Hev & Hd'). rewrite Hf in Hev.
    rewrite Hf, Hev in Hi. injection Hi as Hi. rewrite Hev. f_equal.
    destruct ev, ev'; cbn in *; congruence.
Qed.
End refinement.

(** C6: The poller implements its specification.  Starting from a fresh poller
    and a kernel that watches nothing, any sequence of creating channels,
    switching their reading and writing on and off, removing and destroying
    them that respects the contract (the descriptor is open and no other
    registered channel has it; only idle channels are removed, only removed
    ones destroyed) runs without a failed assertion or a fatal epoll_ctl.
    Afterwards the channels' descriptors, events and states are those of the
    specification, and the kernel's interest list consists of exactly the
    watched channels with their current masks. *)
Theorem poller_refines {BT : BaseTime} {CL : Closures} {EP : Epoll} {EL : EpollLaws EP}
    (k : Kernel) (ops : list chan_op) (S : chan_table) :
  (∀ fd, watched k fd = None) ->
  spec_run (is_open k) ops ∅ = Some S ->
  wp (for_each ops run_op) (λ _ w', poller_ok w' ∧ (∀ p, S !! p = chan_view w' p)
    ∧ ∀ fd ev, watched (kernel w') fd = Some ev ↔
        ∃ p e, S !! p = Some (fd, e, Some (Watched (ev_events ev))) ∧ ev_data ev = Some p)
    (fresh_world k).
Proof.
  intros Hw Hs. eapply wp_mono.
  - apply (run_ops_sim (is_open k) ops _ ∅ S); [by apply fresh_represents|done].
  - intros [] w' Hr. split_and!; [apply Hr..|]. intros fd ev.
    by apply (represents_watched (is_open k)).
Qed.

Definition demo_ops : list chan_op :=
  [OpNew 1 5; OpToggle 1 EnableReading; OpNew 2 6; OpToggle 2 EnableWriting;
   OpToggle 1 EnableWriting; OpToggle 2 DisableAll; OpRemove 2; OpDestroy 2].

Lemma poller_refines_witness :
  let w0 := @fresh_world micros demo_closures tiny_epoll (mkTiny ∅ [5; 6] ∅ 0) in
  wp (for_each demo_ops run_op) (λ _ w',
    watched (kernel w') 5 = Some (mkEvent 7 (Some 1%positive)) ∧ heap w' !! 2%positive = None) w0.
Proof.
  intros w0. set (k := mkTiny ∅ [5; 6] ∅ 0).
  assert (Hs : spec_run (@is_open micros tiny_epoll k) demo_ops ∅
    = Some {[1%positive := (5, 7, Some (Watched 7))]}) by (vm_compute; reflexivity).
  eapply wp_mono; [apply (@poller_refines micros demo_closures tiny_epoll tiny_laws k demo_ops
    {[1%positive := (5, 7, Some (Watched 7))]})|].
  - intros fd. cbn. by case_match.
  - exact Hs.
  - intros [] w' (_ & Hv & Hk). split.
    + apply Hk. exists 1%positive, 7. split; reflexivity.
    + specialize (Hv 2%positive). unfold chan_view in Hv.
      destruct (heap w' !! 2%positive); [discriminate Hv|reflexivity].
Defined.

(** disableAll() is not idempotent.  On a channel that is already idle and
    no longer watched, it puts the descriptor back into the kernel's interest
    list with an empty mask -- for which epoll still reports errors and
    hang-ups -- and one more disableAll() takes it out again. *)
Theorem disableAll_rewatches {BT : BaseTime} {CL : Closures} {EP : Epoll} {EL : EpollLaws EP}
    (w : PollerWorld) p c :
  poller_ok w -> heap w !! p = Some c -> is_open (kernel w) (fd_ c) = true ->
  poller_interest p w = Some Parked ->
  wp (disableAll p) (λ _ w1,
    poller_interest p w1 = Some (Watched 0)
    ∧ watched (kernel w1) (fd_ c) = Some (mkEvent 0 (Some p))
    ∧ wp (disableAll p) (λ _ w2, poller_interest p w2 = Some Parked) w1) w.
Proof.
  intros Hok Hc Ho Hi. unfold disableAll at 1.
  apply (@toggle_wp _ _ poller_ops poller_spec p (λ _, kNoneEvent) c); [done|exact Hc|exact Ho|cbn; by rewrite Hi|].
  intros w1 Ht. pose proof (tg_ok _ _ _ _ _ Ht) as Hok1.
  pose proof (tg_interest _ _ _ _ _ Ht) as Hi1. cbn in Hok1, Hi1. rewrite Hi in Hi1.
  destruct (tg_chan _ _ _ _ _ Ht) as (j & Hc1). change (heap w1 !! p = Some (set_index j
    (set_added true (set_events kNoneEvent c)))) in Hc1.
  split; [done|]. split.
  - unfold poller_interest in Hi1. rewrite Hc1 in Hi1. cbn in Hi1.
    destruct (j =? kAdded) eqn:Ej; bool_to_Z; [|by destruct (j =? kDeleted)].
    destruct (ok_added w1 Hok1 p _ Hc1 Ej) as (ev & Hev & Hd). cbn in Hev.
    rewrite Hev in Hi1 |- *. injection Hi1 as Hi1. destruct ev as [m d]; cbn in Hi1, Hd. by rewrite Hi1, Hd.
  - unfold disableAll.
    apply (@toggle_wp _ _ poller_ops poller_spec p (λ _, kNoneEvent) _ _ w1 Hok1 Hc1).
    + apply (tg_open _ _ _ _ _ Ht). exact Ho.
    + cbn. by rewrite Hi1.
    + intros w2 Ht2. etrans; [exact (tg_interest _ _ _ _ _ Ht2)|]. cbn. by rewrite Hi1.
Qed.

Lemma disableAll_rewatches_witness :
  wp (@disableAll demo_closures _ (@poller_ops micros demo_closures tiny_epoll) 2%positive) (λ _ w1,
    watched (kernel w1) 6 = Some (mkEvent 0 (Some 2%positive))) tiny_world.
Proof.
  eapply wp_mono; [apply (@disableAll_rewatches micros demo_closures tiny_epoll tiny_laws
    tiny_world 2%positive (tiny_chan 6 0 kDeleted) tiny_world_ok eq_refl eq_refl eq_refl)|].
  intros [] w1 (_ & Hw & _). exact Hw.
Defined.
