(* ===== verification/TinySockets.v ===== *)
(** * Sockets of the tiny kernel, for the witnesses

    The descriptors of the concrete kernel of EPollPoller.v are opened and closed
    on a list; the lemmas say that this is no concern of the poller, and that the
    poller leaves the list and the clock alone. *)

From Stdlib Require Import ZArith Lia.
From stdpp Require Import gmap list.
From S2P Require Import Prelude Bytes Base Channel EPollPoller.

Local Open Scope Z_scope.

Section tiny_sockets.
#[local] Existing Instance tiny_epoll.
Context {CL : Closures}.

Definition tiny_used (w : PollerWorld (CL := CL) (EP := tiny_epoll)) : list Z :=
  tk_open (kernel w) ++ (map_to_list (tk_list (kernel w))).*1
  ++ (map_to_list (channels_ (poller w))).*1.

Definition tiny_new (w : PollerWorld (CL := CL) (EP := tiny_epoll)) : Z := 1 + foldr Z.max 2 (tiny_used w).

Definition tiny_set (fds : list Z) (dt : Z) (w : PollerWorld (CL := CL) (EP := tiny_epoll)) : PollerWorld :=
  {| w with kernel := {| (kernel w) with tk_open := fds; tk_clock := tk_clock (kernel w) + dt |} |}.

Lemma le_foldr_max x d l : x ∈ l -> x <= foldr Z.max d l.
Proof. induction 1; simpl; lia. Qed.

Lemma tiny_new_fresh w : tiny_new w ∉ tiny_used w.
Proof. intros H%(le_foldr_max _ 2). unfold tiny_new in H. lia. Qed.

Lemma not_in_keys {A} (m : gmap Z A) k : k ∉ (map_to_list m).*1 -> m !! k = None.
Proof.
  intros H. apply eq_None_not_Some. intros [a Ha]. apply H, list_elem_of_fmap.
  exists (k, a). split; [done|by apply elem_of_map_to_list].
Qed.

Lemma tiny_set_same fds dt w : poller_ok w ->
  (∀ fd, watched (kernel (tiny_set fds dt w)) fd = watched (kernel w) fd) ->
  same_loop w (tiny_set fds dt w).
Proof.
  intros Hok Hw. destruct (ok_rekey w (tiny_set fds dt w) Hok) as [Hok' Hi]; try done.
  exact (ok_size w Hok).
Qed.

(** The poller's operations leave the list of open descriptors and the clock alone. *)
Definition kept (w : PollerWorld (CL := CL) (EP := tiny_epoll)) : list Z * Z :=
  (tk_open (kernel w), tk_clock (kernel w)).

Definition keeps_open {A} (m : M PollerWorld A) : Prop :=
  ∀ w a w', m w = Ok (a, w') -> kept w' = kept w.

Lemma keeps_open_bind {A B} (m : M PollerWorld A) (k : A -> M PollerWorld B) :
  keeps_open m -> (∀ a, keeps_open (k a)) -> keeps_open (m ≫= k).
Proof. apply (keeps_view_bind kept). Qed.

Lemma keeps_open_if {A} (b : bool) (m1 m2 : M PollerWorld A) :
  keeps_open m1 -> keeps_open m2 -> keeps_open (if b then m1 else m2).
Proof. by destruct b. Qed.

Lemma keeps_open_pure {A} (f : PollerWorld -> result A) : keeps_open (liftR f).
Proof. intros w a w' H. unfold liftR in H. destruct (f w); [by injection H as _ <-|done]. Qed.

Lemma keeps_open_assert (f : PollerWorld -> bool) : keeps_open (assertS f).
Proof. intros w a w' H. unfold assertS in H. destruct (f w); [by injection H as _ <-|done]. Qed.

Lemma keeps_open_modify (f : PollerWorld -> PollerWorld) :
  (∀ w, kept (f w) = kept w) -> keeps_open (modify f).
Proof. intros Hf w a w' [= _ <-]. apply Hf. Qed.

Lemma keeps_open_gets {A} (f : PollerWorld -> A) : keeps_open (gets f).
Proof. by intros w a w' [= _ <-]. Qed.

Lemma keeps_open_ret {A} (a : A) : keeps_open (mret a).
Proof. by intros w b w' [= _ <-]. Qed.

Lemma keeps_open_fail {A} e : keeps_open (failM e : M PollerWorld A).
Proof. by intros w b w' [=]. Qed.

Lemma keeps_open_ctl op p : keeps_open (poller_update op p).
Proof.
  apply keeps_open_bind; [apply keeps_open_pure|]. intros c. apply keeps_open_bind.
  - intros w r w'. simpl. unfold tiny_ctl.
    unfold kept. cbn. repeat case_match; intros [= <- <-]; simplify_eq/=; done.
  - intros r. repeat apply keeps_open_if; first [apply keeps_open_ret|apply keeps_open_fail].
Qed.

Lemma keeps_open_deref p : keeps_open (deref p).
Proof. apply keeps_open_pure. Qed.

Create HintDb keeps_open discriminated.
#[local] Hint Resolve keeps_open_bind keeps_open_if keeps_open_pure keeps_open_assert
  keeps_open_gets keeps_open_ret keeps_open_fail keeps_open_ctl keeps_open_deref : keeps_open.

Ltac keeps_open_tac :=
  repeat first [solve [auto with keeps_open]|by apply keeps_open_modify|apply keeps_open_if
               |apply keeps_open_bind; [|intros ?]].

Lemma keeps_open_update p : keeps_open (poller_updateChannel p).
Proof.
  unfold poller_updateChannel, assert_registered, assertInLoopThread, on_channels, on_chan, assert_.
  keeps_open_tac.
Qed.

Lemma keeps_open_remove p : keeps_open (poller_removeChannel p).
Proof.
  unfold poller_removeChannel, assert_registered, assertInLoopThread, on_channels, on_chan,
    assert_, whenM.
  keeps_open_tac.
Qed.
End tiny_sockets.
