(* ===== verification/Acceptor.v ===== *)
(** * Acceptor: accepting connections (Acceptor.h and .cc, [Socket] and the
    system-call wrappers of Sockets.cc)

    The acceptor watches the listening socket with a channel of its own and
    hands every accepted descriptor to [newConnectionCallback_].  It keeps one
    descriptor in reserve for the moment when the process has no other left.
    The loop is the interface [LoopOps]; the system calls are the class
    [AcceptOps] on the loop's world.

    Log messages are left out, and with them that a message printed between
    [accept] and the test of [errno] could change it. *)

From Stdlib Require Import ZArith Lia.
From stdpp Require Import gmap list.
From S2P Require Import Prelude Bytes Base Channel InetAddress.

Local Open Scope Z_scope.

(** Linux's values of the errors [accept] tells apart. *)
Definition EPERM : Z := 1.
Definition EINTR : Z := 4.
Definition EAGAIN : Z := 11.
Definition EMFILE : Z := 24.
Definition EPROTO : Z := 71.
Definition ECONNABORTED : Z := 103.

(** The first group of [case] labels; all other errors are fatal. *)
Definition expected_errors : list Z := [EAGAIN; ECONNABORTED; EINTR; EPROTO; EPERM; EMFILE].

Definition SO_REUSEADDR : Z := 2.
Definition SO_REUSEPORT : Z := 15.

Inductive acceptor_closure := AHandleRead.
#[export] Instance acceptor_closures : Closures := {| Closure := acceptor_closure |}.

(** The system calls: each returns its value; [accept4] also gives [errno] and
    what it has written to the address. *)
Class AcceptOps (W : Type) := {
  sys_socket : Z -> W -> Z * W;
  sys_setsockopt : Z -> Z -> bool -> W -> Z * W;
  sys_bind : Z -> sockaddr -> W -> Z * W;
  sys_listen : Z -> W -> Z * W;
  sys_accept4 : Z -> W -> (Z * Z * bytes) * W;
  sys_accept : Z -> W -> Z * W;
  (** [open("/dev/null", O_RDONLY | O_CLOEXEC)]. *)
  sys_open_null : W -> Z * W;
  sys_close : Z -> W -> Z * W;
  (** The descriptors this process has open, how many it may have, and the
      connections that wait to be accepted. *)
  descriptors : W -> gset Z;
  limit : W -> nat;
  backlog : W -> Z -> nat;
}.

Record Acceptor := mkAcceptor {
  sockfd_ : Z;                     (** of [acceptSocket_] *)
  acceptChannel_ : addr;
  newConnectionCallback_ : bool;
  listenning_ : bool;
  idleFd_ : Z;
}.

Section acceptor.
Context {HE : HostEndian} {W : Type} {LO : LoopOps W} {AO : AcceptOps W} {AL : Allocator}.

(** The acceptor in its loop, and what it has handed to
    [newConnectionCallback_]. *)
Record AWorld := mkAWorld {
  lw : W;
  acceptor : Acceptor;
  handed : list (Z * sockaddr);
}.

Definition lwL : lens AWorld W := Lens lw (λ x w, {| w with lw := x |}).

Definition on_acceptor (f : Acceptor -> Acceptor) : M AWorld unit :=
  modify (λ w, {| w with acceptor := f (acceptor w) |}).
Definition sys {A} (f : W -> A * W) : M W A := λ x, Ok (f x).
Definition assertInLoopThread : M AWorld unit :=
  ok ← gets (λ w, loop_isInLoopThread (lw w)); if ok : bool then mret tt else failM FatalLog.

(** ** Sockets.cc *)
Definition createNonblockingOrDie (af : Z) : M W Z :=
  sockfd ← sys (sys_socket af); if sockfd <? 0 then failM FatalLog else mret sockfd.
Definition bindOrDie (sockfd : Z) (a : sockaddr) : M W unit :=
  ret ← sys (sys_bind sockfd a); if ret <? 0 then failM FatalLog else mret tt.
Definition listenOrDie (sockfd : Z) : M W unit :=
  ret ← sys (sys_listen sockfd); if ret <? 0 then failM FatalLog else mret tt.

(** The value returned, [errno] and the address. *)
Definition sockets_accept (sockfd : Z) : M W (Z * Z * bytes) :=
  '(connfd, savedErrno, a) ← sys (sys_accept4 sockfd);
  if (connfd <? 0) && negb (bool_decide (savedErrno ∈ expected_errors))
  then failM FatalLog
  else mret (connfd, savedErrno, a).

Definition sockets_close (sockfd : Z) : M W unit := _ ← sys (sys_close sockfd); mret tt.

(** [Socket::accept(&peerAddr)]; the address is left alone on an error. *)
Definition Socket_accept (sockfd : Z) (peeraddr : sockaddr) : M W (Z * Z * sockaddr) :=
  '(connfd, e, a) ← sockets_accept sockfd;
  mret (connfd, e, if 0 <=? connfd then splice (replicate 28 (z2b 0)) 0 a else peeraddr).

Definition Socket_setReuseAddr (sockfd : Z) (on : bool) : M W unit :=
  _ ← sys (sys_setsockopt sockfd SO_REUSEADDR on); mret tt.
Definition Socket_setReusePort (sockfd : Z) (on : bool) : M W unit :=
  _ ← sys (sys_setsockopt sockfd SO_REUSEPORT on); mret tt.

(** ** Acceptor.cc *)
Definition acceptor_channel (sockfd : Z) : Channel := setReadCallback AHandleRead (Channel_ctor sockfd).

(** The constructor and [setNewConnectionCallback]; [cb] tells whether one is set. *)
Definition Acceptor_ctor (listenAddr : sockaddr) (reusePort cb : bool) : M W Acceptor :=
  sockfd ← createNonblockingOrDie (family listenAddr);
  p ← gets (λ x, malloc (dom (view heapL x)));
  modify (put_chan p (Channel_ctor sockfd)) ;;;
  idleFd ← sys sys_open_null;
  assert_ (0 <=? idleFd) ;;;
  Socket_setReuseAddr sockfd true ;;;
  Socket_setReusePort sockfd reusePort ;;;
  bindOrDie sockfd listenAddr ;;;
  on_chan p (setReadCallback AHandleRead) ;;;
  mret (mkAcceptor sockfd p cb false idleFd).

Definition listen : M AWorld unit :=
  assertInLoopThread ;;;
  on_acceptor (λ a, {| a with listenning_ := true |}) ;;;
  a ← gets acceptor;
  zoom lwL (listenOrDie (sockfd_ a)) ;;;
  zoom lwL (enableReading (acceptChannel_ a)).

Definition handleRead : M AWorld unit :=
  assertInLoopThread ;;;
  (let peerAddr := InetAddress_any (replicate 28 (z2b 0)) 0 false false in
   a ← gets acceptor;
   '(connfd, errno, peerAddr) ← zoom lwL (Socket_accept (sockfd_ a) peerAddr);
   if 0 <=? connfd then
     if newConnectionCallback_ a
     then modify (λ w, {| w with handed := handed w ++ [(connfd, peerAddr)] |})
     else zoom lwL (sockets_close connfd)
   else
     whenM (errno =? EMFILE) (
       zoom lwL (_ ← sys (sys_close (idleFd_ a)); mret tt) ;;;
       fd ← zoom lwL (sys (sys_accept (sockfd_ a)));
       on_acceptor (λ a, {| a with idleFd_ := fd |}) ;;;
       zoom lwL (_ ← sys (sys_close fd); mret tt) ;;;
       fd ← zoom lwL (sys sys_open_null);
       on_acceptor (λ a, {| a with idleFd_ := fd |}))).

(** The destructor, with those of [acceptChannel_] and [acceptSocket_]. *)
Definition Acceptor_dtor : M AWorld unit :=
  a ← gets acceptor;
  zoom lwL (disableAll (acceptChannel_ a)) ;;;
  zoom lwL (remove (acceptChannel_ a)) ;;;
  zoom lwL (_ ← sys (sys_close (idleFd_ a)); mret tt) ;;;
  zoom lwL (Channel_dtor (acceptChannel_ a)) ;;;
  zoom lwL (sockets_close (sockfd_ a)).

End acceptor.

(** ** The life of an acceptor *)
Inductive aevent (W : Type) :=
  | AListen               (** the owner calls [listen()] *)
  | AReady                (** poll reports the listening socket *)
  | AElse (f : W -> W).   (** other code of the process *)
Arguments AListen {W}.
Arguments AReady {W}.
Arguments AElse {W} f.

Section life.
Context {HE : HostEndian} {W : Type} {LO : LoopOps W} {AO : AcceptOps W}.

Definition astep (e : aevent W) : M (AWorld (W := W)) unit :=
  match e with
  | AListen => listen
  | AReady => handleRead
  | AElse f => zoom lwL (modify f)
  end.

Definition aenabled (e : aevent W) (w : AWorld (W := W)) : bool :=
  match e with
  | AListen => negb (listenning_ (acceptor w))
  | AReady => listenning_ (acceptor w)
  | AElse _ => true
  end.

Definition asession (es : list (aevent W)) : M (AWorld (W := W)) unit :=
  for_each es (λ e, w ← getS; whenM (aenabled e w) (astep e)).
End life.
