(* ===== verification/AcceptorProps.v ===== *)
(** * What an acceptor guarantees

    The laws of the system calls, the invariant of [Acceptor.v], what handleRead
    does in each of its cases, and the life of an acceptor from its constructor
    to its destructor. *)

From Stdlib Require Import ZArith Lia.
From stdpp Require Import gmap list.
From S2P Require Import Prelude Bytes Base Channel EPollPoller TinySockets InetAddress Acceptor.

Local Open Scope Z_scope.

(** ** The system calls *)
Section laws.
Context {W : Type} {LO : LoopOps W} {LS : LoopSpec W} {AO : AcceptOps W}.

(** A call that concerns neither channels nor the limit, and closes nothing. *)
Record quiet_call (w w' : W) : Prop := {
  qc_same : same_loop w w';
  qc_limit : limit w' = limit w;
  qc_open : ∀ fd, fd_open fd w -> fd_open fd w';
  qc_free : ∀ fd, fd_free fd w -> fd_free fd w';
}.

(** A call that returns a new descriptor [r], or -1. *)
Record opens (w : W) (r : Z) (w' : W) : Prop := {
  os_quiet : quiet_call w w';
  os_ok : 0 <= r -> (r ∉ descriptors w) ∧ descriptors w' = {[r]} ∪ descriptors w
    ∧ (size (descriptors w) < limit w)%nat ∧ fd_open r w' ∧ fd_free r w';
  os_fail : r < 0 -> r = -1 ∧ descriptors w' = descriptors w;
}.

(** socket(2), setsockopt(2), bind(2), listen(2), accept(2), open(2), close(2). *)
Class AcceptLaws := {
  acc_apart :: Apart (λ w : W, (descriptors w, limit w, backlog w));
  fd_nonneg : ∀ (w : W) fd, fd ∈ descriptors w -> 0 <= fd;
  socket_law : ∀ af (w : W) r w', loop_ok w -> sys_socket af w = (r, w') -> opens w r w';
  open_law : ∀ (w : W) r w', loop_ok w -> sys_open_null w = (r, w') ->
    opens w r w' ∧ backlog w' = backlog w;
  setsockopt_law : ∀ fd o b (w : W) r w', loop_ok w -> sys_setsockopt fd o b w = (r, w') ->
    quiet_call w w' ∧ descriptors w' = descriptors w;
  bind_law : ∀ fd a (w : W) r w', loop_ok w -> sys_bind fd a w = (r, w') ->
    quiet_call w w' ∧ descriptors w' = descriptors w;
  listen_law : ∀ fd (w : W) r w', loop_ok w -> sys_listen fd w = (r, w') ->
    quiet_call w w' ∧ descriptors w' = descriptors w;
  accept4_law : ∀ s (w : W) r e a w', loop_ok w -> sys_accept4 s w = ((r, e, a), w') ->
    opens w r w' ∧ zlength a <= 28
    ∧ (r < 0 -> e = EMFILE -> backlog w' = backlog w);
  accept_law : ∀ s (w : W) r w', loop_ok w -> sys_accept s w = (r, w') ->
    opens w r w' ∧ (0 <= r -> backlog w s = S (backlog w' s));
  close_law : ∀ fd (w : W) r w', loop_ok w -> (fd ∈ descriptors w -> fd_free fd w) ->
    sys_close fd w = (r, w') ->
    same_loop w w' ∧ limit w' = limit w ∧ descriptors w' = descriptors w ∖ {[fd]}
    ∧ (∀ fd', fd' ≠ fd -> fd_open fd' w -> fd_open fd' w')
    ∧ (∀ fd', fd_free fd' w -> fd_free fd' w')
    ∧ (∀ s, s ≠ fd -> backlog w' s = backlog w s);
}.
End laws.
Arguments AcceptLaws W {LO LS AO}.

Lemma size_without (X : gset Z) fd : fd ∈ X -> size (X ∖ {[fd]}) = Nat.pred (size X).
Proof. intros H. rewrite size_difference by set_solver. rewrite size_singleton. lia. Qed.

Lemma size_less (X : gset Z) fd : (size (X ∖ {[fd]}) <= size X)%nat.
Proof. apply subseteq_size. set_solver. Qed.

Lemma same_loop_trans {CL : Closures} {W} {LO : LoopOps W} {LS : LoopSpec W} (w1 w2 w3 : W) :
  same_loop w1 w2 -> same_loop w2 w3 -> same_loop w1 w3.
Proof.
  intros [] [H1 H2 H3]. split; [done|..]; intros q; [by rewrite H2|by rewrite H3].
Qed.

(** ** The invariant *)
Section invariant.
#[local] Set Default Proof Using "Type*".
Context {HE : HostEndian} {W : Type} {LO : LoopOps W} {LS : LoopSpec W} {AO : AcceptOps W}
  {AC : AcceptLaws W} {AL : Allocator}.
Implicit Types (x : W) (a : Acceptor) (w : AWorld (W := W)).

Context (removable : ∀ p x, loop_ok x -> can_remove p x).

(** The descriptors: the listening socket is open; the reserve is open too, is
    another one and in no loop, or there is none since open(2) failed. *)
Record fds_ok a x : Prop := {
  fo_loop : loop_ok x;
  fo_sock : sockfd_ a ∈ descriptors x;
  fo_idle : idleFd_ a = -1 ∨ idleFd_ a ∈ descriptors x;
  fo_ne : sockfd_ a ≠ idleFd_ a;
  fo_room : (size (descriptors x) <= limit x)%nat;
  fo_open : fd_open (sockfd_ a) x;
  fo_free : idleFd_ a ∈ descriptors x -> fd_free (idleFd_ a) x;
}.

(** The descriptor held in reserve. *)
Definition reserve (fd : Z) : gset Z := if 0 <=? fd then {[fd]} else ∅.

(** The channel: watched for reading from [listen()] on, unknown to the loop before. *)
Definition chan_ok a x : Prop := ∃ ch, chan (acceptChannel_ a) x = Some ch
  ∧ fd_ ch = sockfd_ a ∧ readCallback_ ch = Some AHandleRead ∧ eventHandling_ ch = false
  ∧ if listenning_ a then interest_of (acceptChannel_ a) x = Some (Watched kReadEvent) ∧ events_ ch = kReadEvent
    else interest_of (acceptChannel_ a) x = None ∧ events_ ch = 0 ∧ fd_free (sockfd_ a) x.

Definition acceptor_ok a x : Prop := fds_ok a x ∧ chan_ok a x.

(** Calls on sockets leave the channel alone. *)
Lemma chan_ok_quiet a x x' : same_loop x x' -> (∀ fd, fd_free fd x -> fd_free fd x') ->
  chan_ok a x -> chan_ok a x'.
Proof using Type.
  intros [_ Hh Hi] Hf (ch & Hc & Hfd & Hr & He & H). exists ch.
  rewrite Hh, Hi. split_and!; [done..|]. destruct (listenning_ a); [done|].
  destruct H as (? & ? & ?). split_and!; auto.
Qed.

Lemma wp_sys {A} (f : W -> A * W) Q x : wp (sys f) Q x ↔ Q (fst (f x)) (snd (f x)).
Proof using Type. unfold sys, wp. by destruct (f x). Qed.

Lemma wp_acc_thread Q w : loop_ok (lw w) -> Q tt w -> wp assertInLoopThread Q w.
Proof using Type.
  intros Hok HQ. unfold assertInLoopThread. rewrite wp_bind, wp_gets. by rewrite law_thread.
Qed.

Definition with_idle a fd : Acceptor := {| a with idleFd_ := fd |}.

(** What an open adds. *)
Lemma opens_reserve x r x' : opens x r x' -> descriptors x' = reserve r ∪ descriptors x
  ∧ (r = -1 ∨ 0 <= r ∧ (r ∉ descriptors x) ∧ (size (descriptors x') <= limit x)%nat ∧ fd_free r x').
Proof using Type.
  intros [_ K N]. unfold reserve. destruct (0 <=? r) eqn:E; bool_to_Z.
  - destruct (K E) as (Hn & HD & Hs & _ & Hf). split; [done|right]. split_and!; try done.
    rewrite HD, size_union by (clear -Hn; set_solver). rewrite size_singleton. clear -Hs. lia.
  - destruct (N ltac:(clear -E; lia)) as [-> HD]. split; [rewrite HD; clear; set_solver|by left].
Qed.

(** Dropping a connection with the help of the reserve. *)
Lemma reserve_again a x r1 x1 r x2 r2 x3 fd x4 : fds_ok a x ->
  sys_close (idleFd_ a) x = (r1, x1) -> sys_accept (sockfd_ a) x1 = (r, x2) ->
  sys_close r x2 = (r2, x3) -> sys_open_null x3 = (fd, x4) ->
  fds_ok (with_idle a fd) x4 ∧ same_loop x x4 ∧ (∀ fd', fd_free fd' x -> fd_free fd' x4)
  ∧ descriptors x4 = reserve fd ∪ descriptors x ∖ {[idleFd_ a]}
  ∧ (fd = -1 ∨ 0 <= fd ∧ (fd ∉ descriptors x ∖ {[idleFd_ a]}))
  ∧ (0 <= r -> backlog x4 (sockfd_ a) = Nat.pred (backlog x (sockfd_ a))).
Proof using AC.
  intros [Hl Hs Hi Hne Hroom Ho Hf] E1 E2 E3 E4.
  destruct (close_law _ _ _ _ Hl Hf E1) as (S1 & L1 & D1 & O1 & F1 & B1).
  destruct (accept_law _ _ _ _ (sl_ok _ _ S1) E2) as ([[S2 L2 O2 F2] K2 N2] & B2).
  assert (H2 : (r ∈ descriptors x2 -> fd_free r x2) ∧ descriptors x2 ∖ {[r]} = descriptors x1).
  { destruct (decide (0 <= r)) as [Hr|Hr].
    - destruct (K2 Hr) as (Hn & HD & _ & _ & Hfr). split; [done|]. rewrite HD. clear -Hn. set_solver.
    - destruct (N2 ltac:(clear -Hr; lia)) as [-> HD]. rewrite HD. split.
      + intros H%fd_nonneg. done.
      + assert (-1 ∉ descriptors x1) as Hn by (by intros ?%fd_nonneg). clear -Hn. set_solver. }
  destruct H2 as [Hr2 HD2].
  destruct (close_law _ _ _ _ (sl_ok _ _ S2) Hr2 E3) as (S3 & L3 & D3 & O3 & F3 & B3).
  destruct (open_law _ _ _ (sl_ok _ _ S3) E4) as [Hop4 B4].
  destruct (opens_reserve _ _ _ Hop4) as [D4 H4]. destruct Hop4 as [[S4 L4 O4 F4] _ _].
  rewrite HD2 in D3. rewrite D3, D1 in D4, H4.
  pose proof (same_loop_trans _ _ _ S1 (same_loop_trans _ _ _ S2 (same_loop_trans _ _ _ S3 S4))) as Hsame.
  assert (Hsr : sockfd_ a ≠ r).
  { intros <-. assert (sockfd_ a ∈ descriptors x1) as Hs1 by (rewrite D1; clear -Hs Hne; set_solver).
    rewrite <- HD2 in Hs1. clear -Hs1. set_solver. }
  assert (Hlim : limit x3 = limit x) by (by rewrite L3, L2, L1).
  split_and!; [split; cbn|..]; try done.
  - apply Hsame.
  - rewrite D4. clear -Hs Hne. set_solver.
  - destruct H4 as [->|(H0 & _)]; [by left|right]. rewrite D4. unfold reserve.
    rewrite (proj2 (Z.leb_le 0 fd)) by done. clear. set_solver.
  - intros <-. destruct H4 as [Hm|(_ & Hn & _)].
    + apply fd_nonneg in Hs. rewrite Hm in Hs. clear -Hs. lia.
    + apply Hn. clear -Hs Hne. set_solver.
  - rewrite L4, Hlim. destruct H4 as [->|(_ & _ & Hsz & _)]; [|by rewrite <- Hlim].
    rewrite D4. unfold reserve. simpl. rewrite (left_id_L ∅ (∪)). pose proof (size_less (descriptors x) (idleFd_ a)) as Hle.
    clear -Hroom Hle. lia.
  - apply O4, O3, O2, O1; done.
  - intros Hin. destruct H4 as [Hm|(_ & _ & _ & ?)]; [|done]. apply fd_nonneg in Hin. by rewrite Hm in Hin.
  - intros fd' ?. by apply F4, F3, F2, F1.
  - destruct H4 as [?|(? & ? & _)]; [by left|by right].
  - intros Hr. specialize (B2 Hr). rewrite B4, B3, <- B1, B2 by done. done.
Qed.

(** What [handleRead] does, by the answer of [accept4]. *)
Definition handled w w' : Prop :=
  let a := acceptor w in
  let x := lw w in
  let x' := lw w' in
  let '((fd, e, peer), _) := sys_accept4 (sockfd_ a) x in
  if 0 <=? fd then
    acceptor w' = a ∧
    if newConnectionCallback_ a then
      handed w' = handed w ++ [(fd, splice (replicate 28 (z2b 0)) 0 peer)]
      ∧ (fd ∉ descriptors x) ∧ descriptors x' = {[fd]} ∪ descriptors x
    else handed w' = handed w ∧ descriptors x' = descriptors x
  else
    handed w' = handed w ∧
    if e =? EMFILE then
      ∃ idle, acceptor w' = with_idle a idle ∧ (idle = -1 ∨ 0 <= idle ∧ (idle ∉ descriptors x ∖ {[idleFd_ a]}))
        ∧ descriptors x' = reserve idle ∪ descriptors x ∖ {[idleFd_ a]}
        ∧ (0 <= idleFd_ a -> (0 < backlog x (sockfd_ a))%nat ->
           (∀ y, (0 < backlog y (sockfd_ a))%nat -> (size (descriptors y) < limit y)%nat ->
              0 <= fst (sys_accept (sockfd_ a) y)) ->
           backlog x' (sockfd_ a) = Nat.pred (backlog x (sockfd_ a)))
    else acceptor w' = a ∧ descriptors x' = descriptors x.

(** An answer the code does not regard as fatal. *)
Definition benign w : Prop :=
  let '((fd, e, _), _) := sys_accept4 (sockfd_ (acceptor w)) (lw w) in 0 <= fd ∨ e ∈ expected_errors.

Lemma fds_ok_quiet a x x' : quiet_call x x' -> descriptors x' = descriptors x -> fds_ok a x -> fds_ok a x'.
Proof using Type.
  intros [Hs Hl Ho Hf] HD []. split; rewrite ?HD, ?Hl; try done; [apply Hs|by apply Ho|auto].
Qed.

(** One more descriptor. *)
Lemma fds_ok_opened a x r x' : opens x r x' -> 0 <= r -> fds_ok a x -> fds_ok a x'.
Proof using AC.
  intros [[Hs Hl Ho Hf] K _] Hr [Hlp Hsk Hid Hne Hroom Hop Hfr].
  destruct (K Hr) as (Hn & HD & Hlt & _). split; rewrite ?HD, ?Hl; try done.
  - apply Hs.
  - clear -Hsk. set_solver.
  - destruct Hid as [?|Hid]; [by left|right]. clear -Hid. set_solver.
  - rewrite size_union by (clear -Hn; set_solver). rewrite size_singleton. clear -Hlt. lia.
  - by apply Ho.
  - intros Hin. destruct Hid as [Hm|Hid]; [|by apply Hf, Hfr].
    rewrite <- HD in Hin. apply fd_nonneg in Hin. by rewrite Hm in Hin.
Qed.

(** Closing a descriptor that is neither of the two. *)
Lemma fds_ok_closed a x fd r x' : fds_ok a x -> fd ∈ descriptors x -> fd ≠ sockfd_ a -> fd ≠ idleFd_ a ->
  fd_free fd x -> sys_close fd x = (r, x') -> fds_ok a x' ∧ same_loop x x' ∧ (∀ fd', fd_free fd' x -> fd_free fd' x').
Proof using AC.
  intros [Hlp Hsk Hid Hne Hroom Hop Hfr] Hin Hns Hni Hf E.
  destruct (close_law _ _ _ _ Hlp (λ _, Hf) E) as (S1 & L1 & D1 & O1 & F1 & _).
  split_and!; [|done..]. split; rewrite ?D1, ?L1; try done.
  - apply S1.
  - clear -Hsk Hns. set_solver.
  - destruct Hid as [?|Hid]; [by left|right]. clear -Hid Hni. set_solver.
  - rewrite size_without by done. clear -Hroom. lia.
  - apply O1; done.
  - intros Hx. apply F1, Hfr. clear -Hx. set_solver.
Qed.

Lemma handleRead_fatal w : acceptor_ok (acceptor w) (lw w) -> ¬ benign w -> handleRead w = Fault FatalLog.
Proof using AC.
  intros [[Hl _ _ _ _ _ _] _] Hb. unfold benign in Hb. unfold handleRead, assertInLoopThread.
  destruct (sys_accept4 _ _) as [[[fd e] peer] x1] eqn:E.
  unfold mbind, M_bind, gets. rewrite (law_thread _ Hl). cbn.
  unfold zoom, Socket_accept, sockets_accept, sys, mbind, M_bind. cbn [view lwL]. rewrite E.
  rewrite (proj2 (Z.ltb_lt _ _)), bool_decide_eq_false_2; [done| |]; clear -Hb; [tauto|lia].
Qed.

Lemma handleRead_handled w : acceptor_ok (acceptor w) (lw w) -> benign w ->
  wp handleRead (λ _ w', acceptor_ok (acceptor w') (lw w') ∧ handled w w') w.
Proof using AC.
  intros [Hfd Hch] Hb. pose proof (fo_loop _ _ Hfd) as Hl. unfold benign in Hb. unfold handleRead.
  rewrite wp_bind. apply wp_acc_thread; [done|]. rewrite wp_bind, wp_gets, wp_bind, wp_zoom.
  unfold handled. destruct (sys_accept4 (sockfd_ (acceptor w)) (lw w)) as [[[fd e] peer] x1] eqn:E.
  destruct (accept4_law _ _ _ _ _ _ Hl E) as (Hop & Hpl & Hbk).
  unfold Socket_accept, sockets_accept. rewrite !wp_bind, wp_sys. cbn [view lwL]. rewrite E. cbn [fst snd].
  assert (Hne : (fd <? 0) && negb (bool_decide (e ∈ expected_errors)) = false).
  { apply andb_false_iff. rewrite Z.ltb_ge, negb_false_iff, bool_decide_eq_true. exact Hb. }
  rewrite Hne, wp_ret. cbn beta iota. rewrite wp_ret. cbn beta iota. cbn [upd lwL]. destruct (0 <=? fd) eqn:Hfdz; bool_to_Z.
  - destruct (os_ok _ _ _ Hop Hfdz) as (Hn & HD & _ & _ & Hfr).
    assert (Hfd1 : fds_ok (acceptor w) x1) by (by eapply fds_ok_opened).
    assert (Hch1 : chan_ok (acceptor w) x1) by (eapply chan_ok_quiet; [apply Hop..|done]).
    cbn [acceptor]. destruct (newConnectionCallback_ (acceptor w)) eqn:Hcb.
    + rewrite wp_modify. by split_and!.
    + unfold sockets_close. rewrite wp_zoom, wp_bind, wp_sys, wp_ret. cbn [view upd lwL lw].
      destruct (sys_close fd x1) as [r x2] eqn:E2. cbn [snd].
      assert (fd ∈ descriptors x1) as Hin by (rewrite HD; clear; set_solver).
      assert (fd ≠ sockfd_ (acceptor w)) as Hns by (intros ->; apply Hn, Hfd).
      assert (fd ≠ idleFd_ (acceptor w)) as Hni.
      { intros ->. destruct (fo_idle _ _ Hfd) as [Hm|]; [|done]. rewrite Hm in Hfdz. done. }
      destruct (fds_ok_closed _ _ _ _ _ Hfd1 Hin Hns Hni Hfr E2) as (Hfd2 & Hs2 & Hf2).
      destruct (close_law _ _ _ _ (fo_loop _ _ Hfd1) (λ _, Hfr) E2) as (_ & _ & D2 & _).
      split; [split; [done|by eapply chan_ok_quiet]|]. split; [done|]. split; [done|].
      cbn [lw]. rewrite D2, HD. clear -Hn. set_solver.
  - destruct (os_fail _ _ _ Hop ltac:(clear -Hfdz; lia)) as [-> HD].
    assert (Hfd1 : fds_ok (acceptor w) x1) by (eapply fds_ok_quiet; [apply Hop|done|done]).
    assert (Hch1 : chan_ok (acceptor w) x1) by (eapply chan_ok_quiet; [apply Hop..|done]).
    rewrite wp_when. destruct (e =? EMFILE) eqn:He; bool_to_Z.
    + subst e. unfold on_acceptor. repeat (rewrite wp_bind || rewrite wp_zoom || rewrite wp_sys || rewrite wp_ret || rewrite wp_modify).
      cbn [view upd lwL lw acceptor handed sockfd_ acceptChannel_ newConnectionCallback_ listenning_ idleFd_].
      destruct (sys_close (idleFd_ (acceptor w)) x1) as [r1 y1] eqn:E1. cbn [fst snd].
      destruct (sys_accept (sockfd_ (acceptor w)) y1) as [r y2] eqn:E2. cbn [fst snd].
      destruct (sys_close r y2) as [r2 y3] eqn:E3. cbn [fst snd].
      destruct (sys_open_null y3) as [idle y4] eqn:E4. cbn [fst snd].
      destruct (reserve_again _ _ _ _ _ _ _ _ _ _ Hfd1 E1 E2 E3 E4) as (Hfd4 & Hs4 & Hf4 & HD4 & Hn4 & Hb4).
      rewrite HD in HD4, Hn4. split; [split; [exact Hfd4|by apply (chan_ok_quiet _ x1)]|].
      split; [done|]. exists idle. split_and!; [done..|]. intros Hheld Hpend Hacc. specialize (Hbk ltac:(done) eq_refl).
      assert (idleFd_ (acceptor w) ∈ descriptors x1) as Hin.
      { destruct (fo_idle _ _ Hfd1) as [Hm|]; [|done]. by rewrite Hm in Hheld. }
      rewrite Hb4, Hbk; [done|].
      destruct (close_law _ _ _ _ (fo_loop _ _ Hfd1) (fo_free _ _ Hfd1) E1) as (_ & L1 & D1 & _ & _ & B1).
      specialize (Hacc y1). rewrite E2 in Hacc. apply Hacc.
      * rewrite B1, Hbk; [done|apply Hfd1].
      * rewrite D1, L1, size_without by done. pose proof (fo_room _ _ Hfd1) as Hr.
        assert (size (descriptors x1) ≠ 0%nat).
        { intros Hz%size_empty_inv. pose proof (fo_sock _ _ Hfd1) as Hs. clear -Hz Hs. set_solver. }
        clear -Hr H. lia.
    + by split_and!.
Qed.

(** ** listen, the constructor, the destructor *)
#[local] Abbreviation sysview := (λ x : W, (descriptors x, limit x, backlog x)).

(** Changing the events of the channel. *)
Lemma watch_wp a ch (f : Channel -> Z) x : fds_ok a x -> chan (acceptChannel_ a) x = Some ch ->
  fd_ ch = sockfd_ a -> (interest_of (acceptChannel_ a) x = None -> fd_free (sockfd_ a) x) ->
  wp (on_chan (acceptChannel_ a) (λ c, set_events (f c) c) ;;; update (acceptChannel_ a))
    (λ _ x', toggled (acceptChannel_ a) (f ch) ch x x' ∧ sysview x' = sysview x
       ∧ (idleFd_ a ∈ descriptors x' -> fd_free (idleFd_ a) x')) x.
Proof using AC.
  intros [Hl Hs Hi Hne Hroom Ho Hf] Hc Hfd Hfree. rewrite <- Hfd in Hfree, Ho, Hne.
  apply (wp_keeps_view sysview); [apply keeps_view_toggle; apply _|].
  destruct (decide (idleFd_ a ∈ descriptors x)) as [Hin|Hout].
  2:{ eapply wp_mono; [apply (toggle_wp _ f ch (λ _ x', toggled (acceptChannel_ a) (f ch) ch x x')); try done; auto|].
      intros [] x' Ht Hv. split_and!; [done|done|]. injection Hv as -> _ _. by intros ?%Hout. }
  eapply wp_mono; [apply wp_conj|].
  - apply (toggle_wp _ f ch (λ _ x', toggled (acceptChannel_ a) (f ch) ch x x')); try done; auto.
  - apply (toggle_free _ f ch x (idleFd_ a)); try done. by apply Hf.
  - intros [] x' [Ht Hfr] Hv. by split_and!.
Qed.

Lemma fds_ok_view a x x' : loop_ok x' -> sysview x' = sysview x -> fd_open (sockfd_ a) x' ->
  (idleFd_ a ∈ descriptors x' -> fd_free (idleFd_ a) x') -> fds_ok a x -> fds_ok a x'.
Proof using Type.
  intros Hl [= Hd Hm _] Ho Hf []. rewrite Hd in Hf. split; rewrite ?Hd, ?Hm; done.
Qed.

Lemma listen_wp w : acceptor_ok (acceptor w) (lw w) -> listenning_ (acceptor w) = false ->
  upto FatalLog listen (λ _ w', acceptor_ok (acceptor w') (lw w')) w.
Proof using AC.
  intros [Hfd Hch] Hls. pose proof (fo_loop _ _ Hfd) as Hl. unfold listen, on_acceptor.
  rewrite upto_bind. apply wp_upto, wp_acc_thread; [done|].
  rewrite upto_bind. apply wp_upto. rewrite wp_modify. set (w1 := {| w with acceptor := _ |}).
  rewrite upto_bind. apply wp_upto. rewrite wp_gets, upto_bind. cbn [acceptor sockfd_ acceptChannel_ w1].
  destruct (sys_listen (sockfd_ (acceptor w)) (lw w)) as [r x1] eqn:E.
  destruct (listen_law _ _ _ _ Hl E) as [Hq HD].
  unfold listenOrDie, upto at 1, zoom, mbind, M_bind, sys. change (view lwL w1) with (lw w). rewrite E.
  destruct (r <? 0); [done|]. cbn [upd lwL mret M_ret].
  assert (Hfd1 : fds_ok (acceptor w) x1) by by eapply fds_ok_quiet.
  assert (Hch1 : chan_ok (acceptor w) x1) by (eapply chan_ok_quiet; [apply Hq..|done]).
  destruct Hch1 as (ch & Hc & Hf & Hr & Hh & Hx). rewrite Hls in Hx. destruct Hx as (Hi & Hev & Hfr).
  apply wp_upto, wp_zoom. cbn [view lwL lw]. unfold enableReading.
  eapply wp_mono; [apply (watch_wp (acceptor w) ch (λ c, Z.lor (events_ c) kReadEvent) x1); auto|].
  intros [] x2 ([Hok2 Hi2 [i Hc2] _ _ Ho2 _] & Hv & Hfi). cbn [upd lwL acceptor lw].
  assert (Hfd2 : fds_ok (acceptor w) x2).
  { apply (fds_ok_view _ x1); try done. apply Ho2, Hfd1. }
  split; [by destruct Hfd2|].
  eexists. cbn [acceptor w1 acceptChannel_ sockfd_ listenning_]. split; [exact Hc2|]. split_and!; try done.
  - by rewrite Hi2, Hi, Hev.
  - cbn. by rewrite Hev.
Qed.

(** open("/dev/null") fails in the constructor. *)
Definition open_fails (listenAddr : sockaddr) x : Prop :=
  let '(s, x1) := sys_socket (family listenAddr) x in
  0 <= s ∧ fst (sys_open_null (put_chan (malloc (dom (view heapL x1))) (Channel_ctor s) x1)) < 0.

Lemma ctor_fails listenAddr reusePort cb x : open_fails listenAddr x ->
  Acceptor_ctor listenAddr reusePort cb x = Fault AssertFailed.
Proof using Type.
  unfold open_fails, Acceptor_ctor, createNonblockingOrDie, mbind, M_bind, sys, gets, modify.
  destruct (sys_socket _ _) as [s x1]. intros [Hs Hd]. rewrite (proj2 (Z.ltb_ge s 0)) by done. cbn.
  destruct (sys_open_null _) as [d x2]. cbn in *. by rewrite (proj2 (Z.leb_gt 0 d)).
Qed.

(** The constructor otherwise. *)
Lemma ctor_wp listenAddr reusePort cb x : loop_ok x -> ¬ open_fails listenAddr x ->
  upto FatalLog (Acceptor_ctor listenAddr reusePort cb)
    (λ a x', acceptor_ok a x' ∧ listenning_ a = false ∧ newConnectionCallback_ a = cb
       ∧ descriptors x' = {[sockfd_ a; idleFd_ a]} ∪ descriptors x) x.
Proof using AC.
  intros Hl Hopen. unfold open_fails in Hopen. unfold Acceptor_ctor, createNonblockingOrDie. rewrite upto_bind.
  destruct (sys_socket (family listenAddr) x) as [s x1] eqn:E1.
  destruct (socket_law _ _ _ _ Hl E1) as [Hq1 K1 _].
  rewrite upto_bind. unfold sys at 1, upto at 1. rewrite E1.
  destruct (s <? 0) eqn:Hs; [done|]. bool_to_Z. destruct (K1 Hs) as (Hn1 & HD1 & _ & Ho1 & Hf1).
  unfold upto at 1, mret, M_ret.
  rewrite upto_bind. apply wp_upto. rewrite wp_gets, upto_bind. apply wp_upto. rewrite wp_modify.
  pose proof (sl_ok _ _ (qc_same _ _ Hq1)) as Hl1.
  set (p := malloc (dom (view heapL x1))).
  assert (Hp : chan p x1 = None) by (apply not_elem_of_dom, malloc_fresh).
  destruct (law_new p x1 (Channel_ctor s) Hl1 Hp eq_refl) as (Hl2 & Hi2 & Ho2 & Hf2).
  set (x2 := put_chan p (Channel_ctor s) x1) in *.
  assert (Hv2 : sysview x2 = sysview x1) by exact (apart_put (v := sysview) _ x1). injection Hv2 as HD2 Hm2 _.
  assert (Hc2 : chan p x2 = Some (Channel_ctor s)) by by unfold x2; rewrite chan_put, decide_True.
  assert (Hnone : interest_of p x2 = None) by by rewrite Hi2, law_absent.
  rewrite upto_bind. destruct (sys_open_null x2) as [d x3] eqn:E3.
  destruct (open_law _ _ _ Hl2 E3) as ([Hq3 K3 _] & _).
  unfold sys at 1, upto at 1. rewrite E3.
  assert (Hsz : size (descriptors x2) = S (size (descriptors x))).
  { rewrite HD2, HD1, size_union by (clear -Hn1; set_solver). by rewrite size_singleton. }
  assert (Hd : 0 <= d).
  { apply Z.nlt_ge. intros Hd. apply Hopen. split; [done|].
    change (fst (sys_open_null x2) < 0). by rewrite E3. }
  destruct (K3 Hd) as (Hn3 & HD3 & Hlt3 & _ & Hf3).
  rewrite (proj2 (Z.leb_le 0 d)) by done. rewrite upto_bind. apply wp_upto. rewrite wp_assert. split; [done|].
  unfold Socket_setReuseAddr, Socket_setReusePort, bindOrDie.
  rewrite upto_bind. apply wp_upto. rewrite wp_bind, wp_sys, wp_ret.
  destruct (sys_setsockopt s SO_REUSEADDR true x3) as [r4 x4] eqn:E4. cbn [snd].
  destruct (setsockopt_law _ _ _ _ _ _ (sl_ok _ _ (qc_same _ _ Hq3)) E4) as [Hq4 HD4].
  rewrite upto_bind. apply wp_upto. rewrite wp_bind, wp_sys, wp_ret.
  destruct (sys_setsockopt s SO_REUSEPORT reusePort x4) as [r5 x5] eqn:E5. cbn [snd].
  destruct (setsockopt_law _ _ _ _ _ _ (sl_ok _ _ (qc_same _ _ Hq4)) E5) as [Hq5 HD5].
  rewrite upto_bind. destruct (sys_bind s listenAddr x5) as [r6 x6] eqn:E6.
  destruct (bind_law _ _ _ _ _ (sl_ok _ _ (qc_same _ _ Hq5)) E6) as [Hq6 HD6].
  rewrite upto_bind. unfold sys at 1, upto at 1. rewrite E6.
  destruct (r6 <? 0); [done|]. unfold upto at 1, mret, M_ret.
  rewrite upto_bind. apply wp_upto.
  pose proof (same_loop_trans _ _ _ (qc_same _ _ Hq3) (same_loop_trans _ _ _ (qc_same _ _ Hq4)
    (same_loop_trans _ _ _ (qc_same _ _ Hq5) (qc_same _ _ Hq6)))) as Hs6.
  assert (Hopen6 : fd_open s x6) by (apply (qc_open _ _ Hq6), (qc_open _ _ Hq5), (qc_open _ _ Hq4), (qc_open _ _ Hq3); by apply Ho2).
  assert (Hfree6 : ∀ fd, fd_free fd x3 -> fd_free fd x6) by (intros fd ?; by apply (qc_free _ _ Hq6), (qc_free _ _ Hq5), (qc_free _ _ Hq4)).
  assert (HDx : descriptors x6 = {[s; d]} ∪ descriptors x).
  { rewrite HD6, HD5, HD4, HD3, HD2, HD1. clear. set_solver. }
  assert (Hlim : limit x6 = limit x).
  { by rewrite (qc_limit _ _ Hq6), (qc_limit _ _ Hq5), (qc_limit _ _ Hq4), (qc_limit _ _ Hq3), Hm2, (qc_limit _ _ Hq1). }
  rewrite HD2, HD1 in Hn3.
  assert (Hc6 : chan p x6 = Some (Channel_ctor s)) by by rewrite (sl_heap _ _ Hs6).
  apply wp_on_chan with (c := Channel_ctor s); [done|].
  destruct (law_put p x6 _ (setReadCallback (CL := acceptor_closures) AHandleRead (Channel_ctor s)) (sl_ok _ _ Hs6) Hc6 eq_refl eq_refl)
    as (Hl7 & Hi7 & Ho7 & Hf7 & _).
  set (x7 := put_chan p _ x6) in *.
  assert (Hv7 : sysview x7 = sysview x6) by exact (apart_put (v := sysview) _ x6). injection Hv7 as HD7 Hm7 _.
  unfold upto, mret, M_ret. split_and!; [|done|done|by rewrite HD7, HDx]. split.
  - split; cbn [sockfd_ idleFd_]; rewrite ?HD7, ?HDx, ?Hm7, ?Hlim; try done.
    + clear. set_solver.
    + right. clear. set_solver.
    + clear -Hn3. set_solver.
    + rewrite <- HDx, HD6, HD5, HD4, HD3, size_union by (rewrite HD2, HD1; clear -Hn3; set_solver).
      rewrite Hm2, (qc_limit _ _ Hq1) in Hlt3. rewrite size_singleton. clear -Hlt3. lia.
    + by apply Ho7.
    + intros _. by apply Hf7, Hfree6.
  - exists (setReadCallback (CL := acceptor_closures) AHandleRead (Channel_ctor s)). cbn [acceptChannel_ sockfd_ listenning_].
    unfold x7 at 1. rewrite chan_put, decide_True by done. split_and!; try done.
    + by rewrite Hi7, (sl_interest _ _ Hs6).
    + apply Hf7, Hfree6, (qc_free _ _ Hq3). by apply Hf2.
Qed.

(** The destructor closes the two descriptors and leaves no channel behind. *)
Lemma dtor_wp w : acceptor_ok (acceptor w) (lw w) ->
  wp Acceptor_dtor (λ _ w', loop_ok (lw w') ∧ chan (acceptChannel_ (acceptor w)) (lw w') = None
    ∧ descriptors (lw w') = descriptors (lw w) ∖ {[sockfd_ (acceptor w); idleFd_ (acceptor w)]}) w.
Proof.
  intros [Hfd (ch & Hc & Hf & Hr & Hh & Hx)]. set (a := acceptor w) in *. set (p := acceptChannel_ a) in *.
  unfold Acceptor_dtor. rewrite wp_bind, wp_gets, wp_bind, wp_zoom. cbn [view lwL]. fold a. fold p.
  eapply wp_mono; [apply (watch_wp a ch (λ _, kNoneEvent) (lw w)); try done|].
  { fold p. destruct (listenning_ a); [destruct Hx as [-> _]; done|by destruct Hx as (_ & _ & ?)]. }
  intros [] x1 ([Hok1 Hi1 [i Hc1] _ _ Ho1 Hcan1] & Hv1 & Hfi1). injection Hv1 as HD1 Hm1 _.
  assert (Hint1 : is_Some (interest_of p x1)) by (fold p in Hi1; rewrite Hi1; eauto).
  rewrite wp_bind, wp_zoom. cbn [view upd lwL lw].
  apply (wp_keeps_view sysview); [apply keeps_view_remove; apply _|].
  set (ch1 := set_index i _) in *.
  assert (Hrm : wp (remove p) (λ _ x', removed p ch1 x1 x'
    ∧ (idleFd_ a ∈ descriptors x1 -> fd_free (idleFd_ a) x')) x1).
  { assert (Hr1 : wp (remove p) (λ _ x', removed p ch1 x1 x') x1)
      by (eapply remove_wp; [done|exact Hc1|done|done|by apply removable|done]).
    destruct (decide (idleFd_ a ∈ descriptors x1)) as [Hin|Hout].
    - apply wp_conj; [exact Hr1|]. eapply wp_mono.
      + eapply (remove_free p _ x1 (idleFd_ a)); [done|exact Hc1|done|done|by apply removable|by apply Hfi1].
      + by intros [] x' ?.
    - eapply wp_mono; [exact Hr1|by intros [] x' ?]. }
  eapply wp_mono; [exact Hrm|].
  intros [] x2 [[Hok2 Hi2 [j Hc2] _ _ Ho2 Hf2] Hfi2] Hv2. injection Hv2 as HD2 Hm2 _.
  unfold ch1 in *. rewrite <- HD2 in Hfi2.
  cbn [fd_ set_index set_added set_events] in *.
  rewrite wp_bind, wp_zoom, wp_bind, wp_sys, wp_ret. cbn [view upd lwL lw].
  destruct (sys_close (idleFd_ a) x2) as [r3 x3] eqn:E3. cbn [snd].
  destruct (close_law _ _ _ _ Hok2 Hfi2 E3) as (Hs3 & Hm3 & HD3 & Ho3 & Hf3 & _).
  rewrite wp_bind, wp_zoom. cbn [view upd lwL lw].
  assert (Hc3 : chan p x3 = _) by exact (eq_trans (sl_heap _ _ Hs3 p) Hc2).
  assert (Hi3 : interest_of p x3 = None) by by rewrite (sl_interest _ _ Hs3).
  destruct (law_delete p x3 (sl_ok _ _ Hs3) Hi3) as (_ & _ & _ & Hf4).
  apply (wp_keeps_view sysview); [apply keeps_view_dtor; apply _|].
  eapply (Channel_dtor_wp p _); [apply Hs3|exact Hc3|done|done|done|].
  intros Hok4 Hv4. injection Hv4 as HD4 Hm4 _. unfold sockets_close.
  rewrite wp_zoom, wp_bind, wp_sys, wp_ret. cbn [view upd lwL lw].
  destruct (sys_close (sockfd_ a) _) as [r5 x5] eqn:E5. cbn [snd].
  assert (Hfs : fd_free (sockfd_ a) (upd heapL (delete p (view heapL x3)) x3)).
  { apply Hf4, Hf3. by rewrite <- Hf. }
  destruct (close_law _ _ _ _ Hok4 (λ _, Hfs) E5) as (Hs5 & _ & HD5 & _).
  cbn [lw]. split; [apply Hs5|]. split.
  - rewrite (sl_heap _ _ Hs5). unfold chan. rewrite view_upd. apply lookup_delete_eq.
  - rewrite HD5, HD4, HD3, HD2, HD1. clear. set_solver.
Qed.

(** Other code of the process, which leaves the acceptor alone. *)
Definition polite (f : W -> W) : Prop := ∀ a x, acceptor_ok a x -> acceptor_ok a (f x).

Lemma asession_wp es w : Forall (λ e, match e with AElse f => polite f | _ => True end) es ->
  acceptor_ok (acceptor w) (lw w) ->
  upto FatalLog (asession es) (λ _ w', acceptor_ok (acceptor w') (lw w')) w.
Proof using AC.
  intros Hes. unfold asession. revert w. induction Hes as [|e es He _ IH]; intros w Hok; [done|].
  cbn [for_each]. rewrite upto_bind.
  apply (upto_mono _ _ (λ _ w', acceptor_ok (acceptor w') (lw w'))); [|intros [] w'; apply IH].
  rewrite upto_bind. apply wp_upto. rewrite wp_getS.
  destruct (aenabled e w) eqn:Hen; [|by apply wp_upto]. cbn [whenM]. destruct e as [| |f]; cbn in Hen.
  - apply listen_wp; [done|]. by apply negb_true_iff.
  - destruct (sys_accept4 (sockfd_ (acceptor w)) (lw w)) as [[[fd e] n] x1] eqn:E.
    destruct (decide (0 <= fd ∨ e ∈ expected_errors)) as [Hb|Hb].
    + apply wp_upto. eapply wp_mono; [apply handleRead_handled; [done|]|by intros [] w' []].
      unfold benign. by rewrite E.
    + unfold astep, upto. rewrite handleRead_fatal; [done..|]. unfold benign. by rewrite E.
  - apply wp_upto. cbn [astep]. rewrite wp_zoom, wp_modify. by apply He.
Qed.
End invariant.

(** C35: Accepting.  On a ready listening socket handleRead, run without other
    code in between, does exactly what [handled] says for the answer of accept4: an
    accepted descriptor is new and is handed to the callback once, with the peer's
    address -- or closed, without a callback, so that nothing leaks; when the
    process has no descriptor left (EMFILE) the reserve is given up to take one
    waiting connection off the queue and close it, and a reserve is opened again:
    idleFd_ is its descriptor, or -1 where that open failed; other transient errors
    change nothing.  The listening socket stays open and is not the reserve.  All
    other errors of accept4 stop the program. *)
Theorem handleRead_accepts {HE : HostEndian} {W : Type} {LO : LoopOps W} {LS : LoopSpec W}
    {AO : AcceptOps W} {AC : AcceptLaws W} (w : AWorld (W := W)) :
  acceptor_ok (acceptor w) (lw w) ->
  (benign w -> wp handleRead (λ _ w', acceptor_ok (acceptor w') (lw w') ∧ handled w w') w)
  ∧ (¬ benign w -> handleRead w = Fault FatalLog).
Proof. intros H. split; intros Hb; [by apply handleRead_handled|by apply handleRead_fatal]. Qed.

(** C17: The life of an acceptor.  The constructor stops at a failing socket or
    bind call, and fails its assertion exactly where open("/dev/null") fails.
    After it, any sequence of listen(), ready events and actions of other code
    that leaves the acceptor alone ([polite]; it runs between these calls, not
    inside them), and the destructor, fail no assertion: the only way to stop is a
    failing listen call or a fatal error of accept4.  All along the listening
    socket is open and known, and the reserve is open and another descriptor, or
    -1 since the last open failed; the destructor closes exactly these and leaves
    no channel behind. *)
Theorem acceptor_life {HE : HostEndian} {W : Type} {LO : LoopOps W} {LS : LoopSpec W}
    {AO : AcceptOps W} {AC : AcceptLaws W} {AL : Allocator} listenAddr reusePort cb es (x : W) :
  (∀ p x, loop_ok x -> can_remove p x) -> loop_ok x ->
  Forall (λ e, match e with AElse f => polite f | _ => True end) es ->
  (open_fails listenAddr x -> Acceptor_ctor listenAddr reusePort cb x = Fault AssertFailed)
  ∧ (¬ open_fails listenAddr x ->
     upto FatalLog (Acceptor_ctor listenAddr reusePort cb) (λ a x1,
       acceptor_ok a x1 ∧ descriptors x1 = {[sockfd_ a; idleFd_ a]} ∪ descriptors x
       ∧ upto FatalLog (asession es) (λ _ w, acceptor_ok (acceptor w) (lw w)
           ∧ wp Acceptor_dtor (λ _ w', loop_ok (lw w')
               ∧ chan (acceptChannel_ (acceptor w)) (lw w') = None
               ∧ descriptors (lw w') = descriptors (lw w) ∖ {[sockfd_ (acceptor w); idleFd_ (acceptor w)]}) w)
           (mkAWorld x1 a [])) x).
Proof.
  intros Hrm Hl Hes. split; [apply ctor_fails|]. intros Hopen. eapply upto_mono; [by apply ctor_wp|].
  intros a x1 (Hok & _ & _ & HD). split_and!; [apply Hok..|done|].
  eapply upto_mono; [by apply asession_wp|]. intros [] w Hw. split; [done|]. by apply dtor_wp.
Qed.

(** ** A process with eight descriptors

    The tiny kernel: its clock counts the connections that wait. *)
Section tiny_process.
#[local] Existing Instance tiny_epoll.
Abbreviation tiny_world := (@PollerWorld micros acceptor_closures tiny_epoll).

Definition tiny_limit : nat := 8.
Definition tiny_fdset (w : tiny_world) : gset Z := list_to_set (filter (λ fd, 0 <= fd) (tk_open (kernel w))).
Definition tiny_waiting (w : tiny_world) : nat := Z.to_nat (tk_clock (kernel w)).

(** A new descriptor, if there is room; [dt] is added to the clock. *)
Definition tiny_open (dt : Z) (w : tiny_world) : Z * tiny_world :=
  if decide (size (tiny_fdset w) < tiny_limit)%nat
  then (tiny_new w, tiny_set (tiny_new w :: tk_open (kernel w)) dt w)
  else (-1, w).

Definition tiny_peer : bytes := replicate 16 (z2b 1).

Definition tiny_accept4 (w : tiny_world) : (Z * Z * bytes) * tiny_world :=
  if decide (tiny_waiting w = 0%nat) then ((-1, EAGAIN, []), w)
  else let '(fd, w') := tiny_open (-1) w in ((fd, if fd <? 0 then EMFILE else 0, tiny_peer), w').

Definition tiny_accept (w : tiny_world) : Z * tiny_world :=
  if decide (tiny_waiting w = 0%nat) then (-1, w) else tiny_open (-1) w.

#[local] Instance tiny_accept_ops : AcceptOps tiny_world := {|
  sys_socket := λ _, tiny_open 0;
  sys_setsockopt := λ _ _ _ w, (0, w);
  sys_bind := λ _ _ w, (0, w);
  sys_listen := λ _ w, (0, w);
  sys_accept4 := λ _, tiny_accept4;
  sys_accept := λ _, tiny_accept;
  sys_open_null := tiny_open 0;
  sys_close := λ fd w, if decide (0 <= fd)
    then (0, tiny_set (filter (λ x, x ≠ fd) (tk_open (kernel w))) 0 w) else (-1, w);
  descriptors := tiny_fdset;
  limit := λ _, tiny_limit;
  backlog := λ w _, tiny_waiting w;
|}.

Lemma tiny_quiet (w : tiny_world) : poller_ok w -> quiet_call w w.
Proof. intros Hok. by split. Qed.

Lemma tiny_open_opens dt (w : tiny_world) r w' : poller_ok w -> tiny_open dt w = (r, w') ->
  opens w r w' ∧ ((size (descriptors w) < limit w)%nat -> 0 <= r)
  ∧ (0 <= r -> tk_clock (kernel w') = tk_clock (kernel w) + dt) ∧ (r < 0 -> w' = w).
Proof.
  intros Hok. unfold tiny_open.
  assert (Hpos : 0 <= tiny_new w) by (unfold tiny_new; induction (tiny_used w); simpl; lia).
  pose proof (tiny_new_fresh w) as Hn. unfold tiny_used in Hn. rewrite !not_elem_of_app in Hn.
  destruct Hn as (Hno & Hnl%not_in_keys & Hnc%not_in_keys).
  case_decide as Hlt; intros [= <- <-].
  - split; [|split_and!; [done|done|lia]]. split; [split| |lia].
    + apply tiny_set_same; [done|]. intros fd. cbn.
      destruct (decide (fd = tiny_new w)) as [->|Hne]; [rewrite Hnl; by repeat case_match|].
      by rewrite (bool_decide_ext (fd ∈ tiny_new w :: _) (fd ∈ tk_open (kernel w))) by set_solver.
    + done.
    + cbn. intros fd. rewrite !bool_decide_eq_true. set_solver.
    + done.
    + intros _. cbn [descriptors limit tiny_accept_ops]. split_and!.
      * unfold tiny_fdset. rewrite elem_of_list_to_set, list_elem_of_filter. tauto.
      * unfold tiny_fdset, tiny_set. cbn [kernel tk_open]. by rewrite filter_cons_True, list_to_set_cons.
      * done.
      * by apply bool_decide_eq_true, elem_of_cons; left.
      * exact Hnc.
  - split; [|split_and!; [cbn; lia|lia|done]]. split; [by apply tiny_quiet|lia|done].
Qed.

Lemma tiny_accept_laws : AcceptLaws tiny_world.
Proof.
  constructor.
  - split; [done| |]; intros p w w' H; cbn; unfold tiny_fdset, tiny_waiting.
    + by injection (keeps_open_update p _ _ _ H) as -> ->.
    + by injection (keeps_open_remove p _ _ _ H) as -> ->.
  - intros w fd. cbn. unfold tiny_fdset. rewrite elem_of_list_to_set, list_elem_of_filter. tauto.
  - intros af w r w' Hok H. by destruct (tiny_open_opens 0 w r w' Hok H).
  - intros w r w' Hok H. destruct (tiny_open_opens 0 w r w' Hok H) as (? & ? & Hc & Hs).
    split; [done|]. cbn. unfold tiny_waiting. destruct (decide (0 <= r)).
    + by rewrite Hc, Z.add_0_r.
    + by rewrite Hs by lia.
  - intros fd o b w r w' Hok [= <- <-]. split; [by apply tiny_quiet|done].
  - intros fd a w r w' Hok [= <- <-]. split; [by apply tiny_quiet|done].
  - intros fd w r w' Hok [= <- <-]. split; [by apply tiny_quiet|done].
  - intros s w r e a w' Hok. cbn. unfold tiny_accept4. case_decide.
    + intros [= <- <- <- <-]. split_and!; [|cbn; lia|done]. split; [by apply tiny_quiet|lia|done].
    + destruct (tiny_open (-1) w) as [r' w1] eqn:E. intros [= <- <- <- <-].
      destruct (tiny_open_opens (-1) w r' w1 Hok E) as (? & _ & _ & Hs). split_and!; [done|done|].
      intros Hr _. by rewrite Hs.
  - intros s w r w' Hok. cbn. unfold tiny_accept. case_decide as Hw.
    + intros [= <- <-]. split; [|lia]. split; [by apply tiny_quiet|lia|done].
    + intros H. destruct (tiny_open_opens (-1) w r w' Hok H) as (? & _ & Hc & _). split; [done|].
      intros Hr. unfold tiny_waiting in *. rewrite Hc by done. lia.
  - intros fd w r w' Hok Hf. cbn. case_decide as Hp; intros [= <- <-].
    + assert (Hfree : fd ∈ tk_open (kernel w) -> fd_free fd w).
      { intros Hin. apply Hf. cbn. unfold tiny_fdset. by rewrite elem_of_list_to_set, list_elem_of_filter. }
      split_and!; [|done| | |done|].
      * apply tiny_set_same; [done|]. intros fd'. cbn. destruct (decide (fd' = fd)) as [->|Hne].
        -- rewrite bool_decide_eq_false_2 by (rewrite list_elem_of_filter; naive_solver).
           case_bool_decide as Hin; [|done].
           destruct (tk_list (kernel w) !! fd) as [ev|] eqn:Hw; [|done].
           destruct (ok_watched w Hok fd ev) as (p & c & Hc & <- & Hi & _).
           { cbn. by rewrite bool_decide_eq_true_2. }
           assert (channels_ (poller w) !! fd_ c = Some p) as Hs
             by (apply (ok_map w Hok); exists c; by rewrite Hi).
           specialize (Hfree Hin). cbn in Hfree. congruence.
        -- by rewrite (bool_decide_ext (fd' ∈ filter _ _) (fd' ∈ tk_open (kernel w)))
             by (rewrite list_elem_of_filter; naive_solver).
      * unfold tiny_fdset, tiny_set. cbn [kernel tk_open]. apply set_eq. intros x.
        rewrite elem_of_difference, !elem_of_list_to_set, !list_elem_of_filter, elem_of_singleton. naive_solver.
      * intros fd' Hne. cbn. rewrite !bool_decide_eq_true, list_elem_of_filter. naive_solver.
      * intros s _. unfold tiny_waiting. cbn. by rewrite Z.add_0_r.
    + split_and!; try done. cbn. apply set_eq. intros x. unfold tiny_fdset.
      rewrite elem_of_difference, elem_of_list_to_set, list_elem_of_filter, elem_of_singleton. naive_solver.
Qed.

(** Six descriptors are open and three connections wait: the acceptor's two make
    eight, so that every accept fails with EMFILE. *)
Definition full_process : tiny_world := fresh_world (mkTiny ∅ [0; 1; 2; 3; 4; 5] ∅ 3 : @Kernel micros tiny_epoll).

Lemma full_ok : loop_ok full_process.
Proof.
  apply (fresh_represents (λ fd, bool_decide (fd ∈ [0; 1; 2; 3; 4; 5]))
    (mkTiny ∅ [0; 1; 2; 3; 4; 5] ∅ 3 : @Kernel micros tiny_epoll)); [|done].
  intros fd. cbn. by case_bool_decide.
Qed.

#[local] Instance tiny_allocator : Allocator := {| malloc := fresh; malloc_fresh := is_fresh |}.
#[local] Existing Instance little_endian_host.
#[local] Existing Instance tiny_accept_laws.

Definition any_addr : sockaddr := InetAddress_any (replicate 28 (z2b 0)) 80 false false.

Lemma full_opens : ¬ open_fails any_addr full_process.
Proof. intros [_ H]. vm_compute in H. discriminate H. Qed.

Lemma acceptor_life_witness :
  upto FatalLog (Acceptor_ctor any_addr false true) (λ a x1,
    upto FatalLog (asession [AListen; AReady; AReady]) (λ _ w, acceptor_ok (acceptor w) (lw w))
      (mkAWorld x1 a [])) full_process.
Proof.
  eapply upto_mono.
  - apply (acceptor_life any_addr false true [AListen; AReady; AReady] full_process);
      [done|exact full_ok|repeat constructor|exact full_opens].
  - intros a x1 (_ & _ & H). eapply upto_mono; [exact H|]. by intros [] w [].
Defined.

(** The acceptor of the full process, listening. *)
Definition ready_world : option (AWorld (W := tiny_world)) :=
  match Acceptor_ctor any_addr false true full_process with
  | Ok (a, x1) => match listen (mkAWorld x1 a []) with Ok (_, w) => Some w | Fault _ => None end
  | Fault _ => None
  end.

Lemma listening_ok w : ready_world = Some w -> acceptor_ok (acceptor w) (lw w).
Proof.
  pose proof (ctor_wp any_addr false true full_process full_ok full_opens) as H.
  unfold upto in H. unfold ready_world. destruct (Acceptor_ctor _ _ _ _) as [[a x1]|]; [|done].
  destruct H as (Ha & Hl & _). pose proof (listen_wp (mkAWorld x1 a []) Ha Hl) as H. unfold upto in H.
  destruct (listen _) as [[[] w1]|]; [|done]. by intros [= <-].
Qed.

Lemma handleRead_accepts_witness :
  ∃ w w', ready_world = Some w ∧ handleRead w = Ok (tt, w') ∧ handed w' = []
    ∧ acceptor_ok (acceptor w') (lw w') ∧ tiny_waiting (lw w) = 3%nat ∧ tiny_waiting (lw w') = 2%nat.
Proof.
  assert (Hv : (λ w, (tiny_waiting (lw w), fst (sys_accept4 (sockfd_ (acceptor w)) (lw w)), handed w, 0 <=? idleFd_ (acceptor w)))
      <$> ready_world = Some (3%nat, (-1, EMFILE, tiny_peer), [], true)) by (vm_compute; reflexivity).
  destruct ready_world as [w|] eqn:E; [|done]. injection Hv as Hw Hacc Hh Hidle.
  destruct (handleRead_accepts w (listening_ok w E)) as [H _].
  destruct (sys_accept4 (sockfd_ (acceptor w)) (lw w)) as [[[fd e] n] y] eqn:E4.
  change (fst (sys_accept4 (sockfd_ (acceptor w)) (lw w)) = (-1, EMFILE, tiny_peer)) in Hacc.
  rewrite E4 in Hacc. injection Hacc as -> -> _.
  assert (Hb : benign w) by (unfold benign; rewrite E4; right; vm_compute; repeat constructor).
  specialize (H Hb). apply wp_ok in H as ([] & w' & Hr & Hok & Hhd).
  unfold handled in Hhd. rewrite E4 in Hhd. destruct Hhd as (Hhd & idle & _ & _ & _ & Hbk).
  exists w, w'. split_and!; [done|exact Hr|congruence|exact Hok|exact Hw|].
  change (backlog (lw w') (sockfd_ (acceptor w)) = 2%nat). rewrite Hbk; [| |change (0 < tiny_waiting (lw w))%nat; rewrite Hw; lia|].
  - change (backlog (lw w) (sockfd_ (acceptor w))) with (tiny_waiting (lw w)). by rewrite Hw.
  - by apply Z.leb_le.
  - intros y' Hy Hroom. cbn in *. unfold tiny_accept, tiny_open.
    rewrite decide_False by lia. rewrite decide_True by done. cbn. unfold tiny_new.
    induction (tiny_used y'); simpl; lia.
Defined.
End tiny_process.
