(* ===== verification/Socket.v ===== *)
(** * Socket: the options of a socket and what it reports (Sockets.cc, Sockets.h)

    The part of class [Socket] that neither the acceptor nor the connections need
    to work: the options of TCP, the text of [getTcpInfoString] with the buffers it
    goes through, [getSocketError], and the owner of a descriptor with its move
    constructor.  [getsockopt], [setsockopt] and [close] are the class
    [SocketCalls]. *)

From Stdlib Require Import ZArith Lia.
From stdpp Require Import gmap list.
From S2P Require Import Prelude Bytes Base.

Local Open Scope Z_scope.

(** The members of the kernel's [struct tcp_info] that the code prints. *)
Record tcp_info := mkTcpInfo {
  tcpi_retransmits : Z;            (** 8 bits; the others have 32 *)
  tcpi_rto : Z; tcpi_ato : Z; tcpi_snd_mss : Z; tcpi_rcv_mss : Z; tcpi_lost : Z; tcpi_retrans : Z;
  tcpi_rtt : Z; tcpi_rttvar : Z; tcpi_snd_ssthresh : Z; tcpi_snd_cwnd : Z; tcpi_total_retrans : Z;
}.

Definition zero_info : tcp_info := mkTcpInfo 0 0 0 0 0 0 0 0 0 0 0 0.

(** Linux's values. *)
Definition SOL_SOCKET : Z := 1.
Definition IPPROTO_TCP : Z := 6.
Definition TCP_NODELAY : Z := 1.
Definition SO_KEEPALIVE : Z := 9.

(** [getsockopt] of [TCP_INFO] gives the structure or fails; of [SO_ERROR], the
    pending error, which it clears, or fails with [errno]. *)
Class SocketCalls (K : Type) := {
  getsockopt_tcp_info : Z -> K -> option tcp_info * K;
  getsockopt_error : Z -> K -> (Z + Z) * K;
  setsockopt : Z -> Z -> Z -> Z -> K -> Z * K;
  close_fd : Z -> K -> K;
}.

Record Socket := mkSocket { sockfd_ : Z }.

Section socket.
Context {K : Type} {SC : SocketCalls K}.

Definition call {A} (f : K -> A * K) : M K A := λ k, Ok (f k).

Definition getSocketError (sockfd : Z) : M K Z :=
  r ← call (getsockopt_error sockfd); mret (match r with inl errno => errno | inr optval => optval end).

(** The constructors: [sockfd_] is [const], so that moving it copies it and the
    source keeps it. *)
Definition Socket_ctor (sockfd : Z) : Socket := mkSocket sockfd.
Definition Socket_move (that : Socket) : Socket * Socket := (mkSocket (sockfd_ that), that).
Definition Socket_dtor (s : Socket) : M K unit := modify (close_fd (sockfd_ s)).

Definition setTcpNoDelay (s : Socket) (on : bool) : M K unit :=
  _ ← call (setsockopt (sockfd_ s) IPPROTO_TCP TCP_NODELAY (if on then 1 else 0)); mret tt.
Definition setKeepAlive (s : Socket) (on : bool) : M K unit :=
  _ ← call (setsockopt (sockfd_ s) SOL_SOCKET SO_KEEPALIVE (if on then 1 else 0)); mret tt.

(** What is in [*tcpInfo] afterwards: zeros, or what the kernel wrote. *)
Definition getTcpInfo (s : Socket) : M K (bool * tcp_info) :=
  r ← call (getsockopt_tcp_info (sockfd_ s));
  mret (match r with Some i => (true, i) | None => (false, zero_info) end).

Definition info_text (i : tcp_info) : bytes :=
  str "unrecovered=" ++ print_u (tcpi_retransmits i) ++ str " "
  ++ str "rto=" ++ print_u (tcpi_rto i) ++ str " ato=" ++ print_u (tcpi_ato i)
  ++ str " snd_mss=" ++ print_u (tcpi_snd_mss i) ++ str " rcv_mss=" ++ print_u (tcpi_rcv_mss i) ++ str " "
  ++ str "lost=" ++ print_u (tcpi_lost i) ++ str " retrans=" ++ print_u (tcpi_retrans i)
  ++ str " rtt=" ++ print_u (tcpi_rtt i) ++ str " rttvar=" ++ print_u (tcpi_rttvar i) ++ str " "
  ++ str "sshthresh=" ++ print_u (tcpi_snd_ssthresh i) ++ str " cwnd=" ++ print_u (tcpi_snd_cwnd i)
  ++ str " total_retrans=" ++ print_u (tcpi_total_retrans i).

(** [snprintf(buf, size, ...)] of the text [out] into the array [buf]. *)
Definition snprintf_into (size : Z) (out : bytes) : M bytes unit :=
  let t := take (Z.to_nat (size - 1)) out ++ [ch_nul] in
  n ← gets length;
  if (length t <=? n)%nat then modify (λ buf, splice buf 0 t) else failM OutOfBounds.

(** The state is the kernel and the caller's array. *)
Definition kL : lens (K * bytes) K := Lens fst (λ k w, (k, snd w)).
Definition bufL : lens (K * bytes) bytes := Lens snd (λ b w, (fst w, b)).

Definition getTcpInfoString (s : Socket) (len : Z) : M (K * bytes) bool :=
  '(ok, tcpi) ← zoom kL (getTcpInfo s);
  whenM ok (zoom bufL (snprintf_into (u64 len) (info_text tcpi))) ;;;
  mret ok.

(** [TCPConnection::getTcpInfoString]: [junk] is what is in its array before. *)
Definition conn_getTcpInfoString (s : Socket) (junk : bytes) : M K bytes := λ k,
  match getTcpInfoString s 1024 (k, splice junk 0 [ch_nul]) with
  | Ok (_, (k', buf)) => Ok (c_string buf, k')
  | Fault f => Fault f
  end.
Definition conn_setTcpNoDelay (s : Socket) (on : bool) : M K unit := setTcpNoDelay s on.
End socket.

(** ** The text *)

(** A reader of the text: words [name=number], separated by spaces. *)
Definition ch_equals : Byte.byte := z2b 61.

Fixpoint scan (fuel : nat) (l : bytes) : list (bytes * Z) :=
  match fuel with
  | O => []
  | S fuel =>
      let e := find_byte ch_equals l in
      let num := drop (S e) l in
      let sp := find_byte (z2b 32) num in
      (take e l, dec_value (take sp num)) :: scan fuel (drop (S sp) num)
  end.

Definition info_fields (i : tcp_info) : list (bytes * Z) :=
  [(str "unrecovered", tcpi_retransmits i); (str "rto", tcpi_rto i); (str "ato", tcpi_ato i);
   (str "snd_mss", tcpi_snd_mss i); (str "rcv_mss", tcpi_rcv_mss i); (str "lost", tcpi_lost i);
   (str "retrans", tcpi_retrans i); (str "rtt", tcpi_rtt i); (str "rttvar", tcpi_rttvar i);
   (str "sshthresh", tcpi_snd_ssthresh i); (str "cwnd", tcpi_snd_cwnd i);
   (str "total_retrans", tcpi_total_retrans i)].

Definition info_ok (i : tcp_info) : Prop := Forall (λ f : bytes * Z, 0 <= snd f < 2 ^ 32) (info_fields i).

(** A field, and what the text is made of. *)
Definition field (f : bytes * Z) : bytes := fst f ++ ch_equals :: print_u (snd f).

Fixpoint words (fs : list (bytes * Z)) : bytes :=
  match fs with
  | [] => []
  | [f] => field f
  | f :: fs => field f ++ z2b 32 :: words fs
  end.

Lemma info_text_words i : info_text i = words (info_fields i).
Proof. unfold info_text, info_fields, words, field. cbn [fst snd]. rewrite <- !app_assoc. reflexivity. Qed.

Definition word_ok (f : bytes * Z) : Prop := (ch_equals ∉ fst f) ∧ 0 <= snd f < 10 ^ 20.

Lemma print_u_no c n : 0 <= n -> is_digit c = false -> c ∉ print_u n.
Proof.
  intros Hn Hc Hin. pose proof (dec_digits_digit 20 n Hn) as Hd. rewrite Forall_forall in Hd.
  specialize (Hd c Hin). congruence.
Qed.

Lemma drop_past (c : Byte.byte) (l r : bytes) : drop (S (length l)) (l ++ c :: r) = r.
Proof. by rewrite <- Nat.add_1_r, drop_app_add. Qed.

Lemma scan_word fuel f l : word_ok f ->
  scan (S fuel) (field f ++ z2b 32 :: l) = f :: scan fuel l ∧ scan (S fuel) (field f) = f :: scan fuel [].
Proof.
  destruct f as [n v]. intros [Hn Hv]. cbn [fst snd] in *. unfold field. cbn [scan fst snd].
  assert (He : ∀ r, find_byte ch_equals (n ++ ch_equals :: r) = length n).
  { intros r. by apply find_byte_app. }
  assert (Hval : dec_value (print_u v) = v) by (by apply (dec_digits_value 20)).
  assert (Hsp : z2b 32 ∉ print_u v) by (apply print_u_no; [lia|done]).
  split.
  - rewrite <- app_assoc. cbn [app]. rewrite He, take_app_length, drop_past, find_byte_app, take_app_length by done.
    by rewrite Hval, drop_past.
  - rewrite He, take_app_length, drop_past, (proj1 (find_byte_None _ _) Hsp), firstn_all, Hval.
    by rewrite drop_ge by lia.
Qed.

Lemma scan_words fs : Forall word_ok fs -> scan (length fs) (words fs) = fs.
Proof.
  induction fs as [|f [|g fs] IH]; intros H; [done|..]; inversion H as [|?? Hf Hfs]; subst.
  - apply (scan_word 0 f [] Hf).
  - etransitivity; [apply (scan_word (length (g :: fs)) f (words (g :: fs)) Hf)|]. by rewrite IH.
Qed.

Lemma words_length fs k : Forall (λ f, (length (fst f) <= k)%nat ∧ 0 <= snd f < 2 ^ 32) fs ->
  (length (words fs) <= length fs * (k + 12))%nat.
Proof.
  assert (Hw : ∀ f : bytes * Z, (length (fst f) <= k)%nat ∧ 0 <= snd f < 2 ^ 32 -> (length (field f) <= k + 11)%nat).
  { intros f [Hn Hv]. unfold field. rewrite length_app.
    assert (Hl : (length (print_u (snd f)) <= 10)%nat); [|rewrite length_cons; lia].
    apply print_u_length; [lia|]. change (10 ^ Z.of_nat 10) with 10000000000. lia. }
  induction fs as [|f [|g fs] IH]; intros H; [done|..]; inversion H as [|?? Hf Hfs]; subst; specialize (Hw f Hf).
  - cbn [words length]. lia.
  - change (words (f :: g :: fs)) with (field f ++ z2b 32 :: words (g :: fs)).
    change (length (f :: g :: fs)) with (S (length (g :: fs))).
    rewrite length_app, length_cons, Nat.mul_succ_l. specialize (IH Hfs). lia.
Qed.

(** The text says what the kernel said: its twelve fields can be read back. *)
Theorem info_text_roundtrip i : info_ok i -> scan 12 (info_text i) = info_fields i.
Proof.
  intros Hi. rewrite info_text_words. apply (scan_words (info_fields i)).
  repeat constructor; try (apply memchr_None; done); cbn [snd]; unfold info_ok, info_fields in Hi;
    rewrite !Forall_cons in Hi; cbn in *; lia.
Qed.

(** ** The buffers *)
Section buffers.
Context {K : Type} {SC : SocketCalls K}.
Implicit Types (s : Socket) (k : K) (buf junk : bytes) (i : tcp_info).

Lemma snprintf_into_ok size out buf : 0 < size <= zlength buf ->
  wp (snprintf_into size out) (λ _ buf', length buf' = length buf
    ∧ (∃ rest, buf' = take (Z.to_nat (size - 1)) out ++ ch_nul :: rest)
    ∧ drop (Z.to_nat size) buf' = drop (Z.to_nat size) buf) buf.
Proof.
  intros Hs. unfold snprintf_into. set (t := take _ out).
  assert (Ht : (length t <= Z.to_nat (size - 1))%nat) by (unfold t; rewrite length_take; lia).
  rewrite wp_bind, wp_gets, length_app. change (length [ch_nul]) with 1%nat.
  rewrite (proj2 (Nat.leb_le _ _)) by lia. rewrite wp_modify.
  unfold splice. change (Z.to_nat 0) with 0%nat. rewrite take_0. cbn [app Nat.add].
  assert (Ht1 : length (t ++ [ch_nul]) = S (length t)) by (rewrite length_app; cbn; lia).
  rewrite Ht1. split_and!.
  - rewrite length_app, length_drop, Ht1. lia.
  - exists (drop (S (length t)) buf). by rewrite <- app_assoc.
  - rewrite drop_app_ge, drop_drop, Ht1 by lia. f_equal. lia.
Qed.

Lemma info_text_no_nul i : info_ok i -> ch_nul ∉ info_text i.
Proof.
  intros Hi. unfold info_ok, info_fields in Hi. rewrite !Forall_cons in Hi. cbn [snd] in Hi. unfold info_text.
  rewrite !not_elem_of_app. repeat split; first [by apply memchr_None|apply print_u_no; [lia|done]].
Qed.

Lemma info_text_length i : info_ok i -> (length (info_text i) < 1024)%nat.
Proof.
  intros Hi. rewrite info_text_words. apply Nat.le_lt_trans with (12 * (13 + 12))%nat; [|by apply Nat.ltb_lt].
  apply (words_length (info_fields i)). unfold info_ok, info_fields in *. rewrite !Forall_cons in *. cbn [snd] in *.
  repeat (split; [split; [by apply Nat.leb_le|tauto]|]). constructor.
Qed.

Lemma getTcpInfoString_eq s len k buf : getTcpInfoString s len (k, buf) =
  match getsockopt_tcp_info (sockfd_ s) k with
  | (Some i, k') =>
      match snprintf_into (u64 len) (info_text i) buf with
      | Ok (_, b) => Ok (true, (k', b))
      | Fault f => Fault f
      end
  | (None, k') => Ok (false, (k', buf))
  end.
Proof.
  unfold getTcpInfoString, getTcpInfo, call, zoom, whenM, mbind, M_bind, mret, M_ret. cbn [view upd kL bufL fst snd].
  destruct (getsockopt_tcp_info _ _) as [[i|] k']; cbn [fst snd]; [|done].
  by destruct (snprintf_into _ _ buf) as [[[] b]|].
Qed.

(** Whatever the array, the kernel's answer and the numbers in it,
    [getTcpInfoString] stays inside the [len] bytes it was given, leaves the rest of
    the array alone and ends its text with a NUL. *)
Theorem getTcpInfoString_bounded s len k buf : 0 < len < 2 ^ 31 -> len <= zlength buf ->
  wp (getTcpInfoString s len) (λ ok '(_, buf'), length buf' = length buf
    ∧ drop (Z.to_nat len) buf' = drop (Z.to_nat len) buf
    ∧ if ok : bool then ch_nul ∈ take (Z.to_nat len) buf' else buf' = buf) (k, buf).
Proof.
  intros Hl Hb. unfold wp. rewrite getTcpInfoString_eq.
  destruct (getsockopt_tcp_info (sockfd_ s) k) as [[i|] k']; [|done].
  unfold u64. rewrite Z.mod_small by lia. pose proof (snprintf_into_ok len (info_text i) buf ltac:(lia)) as H.
  unfold wp in H. destruct (snprintf_into _ _ buf) as [[[] b]|]; [|done]. destruct H as (Hlen & (rest & ->) & Hd).
  split_and!; [done|done|]. set (t := take _ _) in *.
  assert (Ht : (length t < Z.to_nat len)%nat) by (unfold t; rewrite length_take; lia).
  rewrite take_app_ge, elem_of_app by lia. right. destruct (Z.to_nat len - length t)%nat eqn:E; [lia|]. left.
Qed.

(** The 1024 bytes of [TCPConnection::getTcpInfoString] are enough: the string is
    the whole text, and it is empty when the kernel refuses. *)
Theorem conn_getTcpInfoString_text s junk k o k' :
  length junk = 1024%nat -> getsockopt_tcp_info (sockfd_ s) k = (o, k') -> (∀ i, o = Some i -> info_ok i) ->
  conn_getTcpInfoString s junk k = Ok (match o with Some i => info_text i | None => [] end, k').
Proof.
  intros Hj Hk Hi. unfold conn_getTcpInfoString.
  set (buf := splice junk 0 [ch_nul]).
  assert (Hb : length buf = 1024%nat).
  { apply Nat2Z.inj. unfold buf. rewrite splice_length; [by rewrite Hj|lia|rewrite Hj; by apply Z.leb_le]. }
  rewrite getTcpInfoString_eq, Hk. destruct o as [i|]; [|by destruct junk].
  specialize (Hi i eq_refl). pose proof (info_text_length i Hi) as Hl.
  pose proof (snprintf_into_ok (u64 1024) (info_text i) buf) as H.
  change (u64 1024) with 1024 in *. rewrite Hb in H. specialize (H ltac:(lia)).
  unfold wp in H. destruct (snprintf_into _ _ buf) as [[[] b]|]; [|done]. destruct H as (_ & (rest & ->) & _).
  rewrite take_ge by lia. unfold c_string.
  rewrite find_byte_app by by apply info_text_no_nul. by rewrite take_app_length.
Qed.
End buffers.

(** ** A kernel with two sockets *)

(** The open descriptors. *)
Definition few_fds : Type := list Z.

Definition some_info : tcp_info := mkTcpInfo 0 204000 40000 1448 536 0 0 53 26 2147483647 10 4294967295.

#[local] Instance few_calls : SocketCalls few_fds := {|
  getsockopt_tcp_info := λ fd k, (if bool_decide (fd ∈ k) then Some some_info else None, k);
  getsockopt_error := λ fd k, (if bool_decide (fd ∈ k) then inr 0 else inl 9, k);
  setsockopt := λ fd _ _ _ k, (if bool_decide (fd ∈ k) then 0 else -1, k);
  close_fd := λ fd k, filter (λ x, x ≠ fd) k;
|}.

Lemma conn_getTcpInfoString_text_witness :
  conn_getTcpInfoString (mkSocket 5) (replicate 1024 (z2b 200)) [5] = Ok (info_text some_info, [5]).
Proof.
  apply (conn_getTcpInfoString_text (mkSocket 5) (replicate 1024 (z2b 200)) [5] (Some some_info) [5]).
  - by rewrite length_replicate.
  - reflexivity.
  - intros i [= <-]. by repeat constructor.
Defined.

Example some_info_text : info_text some_info = str "unrecovered=0 rto=204000 ato=40000 snd_mss=1448 rcv_mss=536 lost=0 retrans=0 rtt=53 rttvar=26 sshthresh=2147483647 cwnd=10 total_retrans=4294967295".
Proof. vm_compute. reflexivity. Qed.

(** The move constructor does not take the descriptor away from its source: when
    the source is destroyed first and the number is used again, the destructor of
    the new owner closes somebody else's descriptor. *)
Example moved_socket_closes_another :
  let a := Socket_ctor 5 in
  let '(b, a) := Socket_move a in
  (Socket_dtor a ;;; modify (λ k, k ++ [5]) ;;; Socket_dtor b) ([5; 6] : few_fds) = Ok (tt, [6]).
Proof. vm_compute. reflexivity. Qed.
