(* ===== verification/TimerQueue.v ===== *)
(** * TimerQueue: timers over one timerfd (Timer.h and .cc, TimerId.h, TimerQueue.h and .cc)

    Timers are heap objects owned by the queue through plain pointers; freeing
    one makes its address available again.  The timer descriptor, the clock
    and the allocator are parameters. *)

From Stdlib Require Import ZArith Lia Sorted.
From stdpp Require Import gmap list sorting.
From S2P Require Import Prelude Base Channel.

Local Open Scope Z_scope.

(** [struct timespec]. *)
Record timespec := mkTimespec { tv_sec : Z; tv_nsec : Z }.

Class Timerfd {BT : BaseTime} := {
  TK : Type;
  (** [Timestamp::now()]. *)
  tk_now : TK -> Timestamp * TK;
  (** [timerfd_settime(timerfd, 0, it_value, ...)]: relative, no interval. *)
  timerfd_settime : timespec -> TK -> Z * TK;
  (** [read(timerfd, &howmany, 8)]. *)
  timerfd_read : TK -> Z * TK;
  (** For the laws: the clock in microseconds, and the deadline for which the
      descriptor is, or will become, readable. *)
  tk_clock : TK -> Z;
  tk_armed : TK -> option Z;
}.

Class TimerfdLaws {BT : BaseTime} (TF : Timerfd) := {
  now_law : ∀ k t k', tk_now k = (t, k') ->
    microSecondsSinceEpoch t = tk_clock k ∧ tk_clock k <= tk_clock k' ∧ tk_armed k' = tk_armed k;
  (** timerfd_settime(2): a non-zero value arms the timer. *)
  settime_law : ∀ v k, 0 <= tv_sec v -> 0 <= tv_nsec v < 1000000000 ->
    0 < tv_sec v + tv_nsec v ->
    ∃ k', timerfd_settime v k = (0, k') ∧ tk_clock k <= tk_clock k'
      ∧ tk_armed k' = Some (tk_clock k + 1000000 * tv_sec v + tv_nsec v `div` 1000);
  (** A deadline that has passed is consumed by the read. *)
  read_law : ∀ k n k', timerfd_read k = (n, k') -> tk_clock k <= tk_clock k';
}.

Section timers.
Context {BT : BaseTime} {CL : Closures} {TF : Timerfd} {AL : Allocator} {U : Type}.

Record Timer := mkTimer {
  callback_ : Closure;
  expiration_ : Timestamp;
  interval_ : double;
  repeat_ : bool;
  sequence_ : Z;
}.

(** [Timer(cb, when, interval)] with the sequence number just drawn. *)
Definition Timer_ctor (cb : Closure) (when : Timestamp) (interval : double) (seq : Z) : Timer :=
  mkTimer cb when interval (double_pos interval) seq.

Definition restart (now : Timestamp) (t : Timer) : Timer :=
  {| t with expiration_ := if repeat_ t then addTime now (interval_ t) else ts_invalid |}.

Record TimerId := mkTimerId { timer_ : addr; id_sequence_ : Z }.

(** [std::pair<Timestamp, Timer*>] and its order. *)
Definition Entry : Type := Timestamp * addr.
Definition entry_ltb (x y : Entry) : bool :=
  ts_ltb x.1 y.1 || (negb (ts_ltb y.1 x.1) && (x.2 <? y.2)%positive).

(** [std::set<Entry>]: the elements in order. *)
Fixpoint set_insert (x : Entry) (l : list Entry) : option (list Entry) :=
  match l with
  | [] => Some [x]
  | y :: l' =>
      if entry_ltb x y then Some (x :: l)
      else if entry_ltb y x then cons y <$> set_insert x l'
      else None
  end.

Fixpoint set_erase (x : Entry) (l : list Entry) : nat * list Entry :=
  match l with
  | [] => (0%nat, [])
  | y :: l' =>
      if entry_ltb y x then let '(n, r) := set_erase x l' in (n, y :: r)
      else if entry_ltb x y then (0%nat, l)
      else (1%nat, l')
  end.

(** [e < Entry(now, reinterpret_cast<Timer*>(UINTPTR_MAX))]: no object has
    that address, so every pointer is smaller. *)
Definition sentry_ltb (e : Entry) (now : Timestamp) : bool :=
  ts_ltb e.1 now || negb (ts_ltb now e.1).

(** What precedes [lower_bound(sentry)], and what follows. *)
Fixpoint split_lower (now : Timestamp) (l : list Entry) : list Entry * list Entry :=
  match l with
  | [] => ([], [])
  | y :: l' =>
      if sentry_ltb y now then let '(a, b) := split_lower now l' in (y :: a, b) else ([], l)
  end.

Record TimerQueue := mkTimerQueue {
  timers_ : list Entry;
  activeTimers_ : gset (addr * Z);
  callingExpiredTimers_ : bool;
  cancelingTimers_ : gset (addr * Z);
}.

Definition TimerQueue_ctor : TimerQueue := mkTimerQueue [] ∅ false ∅.

(** The world: the timer objects, the counter [s_numCreated_], the queue, the
    kernel, whether the caller is in the loop thread, and the callbacks' own
    data. *)
Record TimerWorld := mkTimerWorld {
  theap : gmap addr Timer;
  s_numCreated_ : Z;
  tqueue : TimerQueue;
  tkernel : TK;
  tin_loop : bool;
  user : U;
}.

Definition tderef (a : addr) : M TimerWorld Timer :=
  liftR (λ w, match theap w !! a with Some t => Ok t | None => Fault OutOfBounds end).

Definition tset (a : addr) (t : Timer) : M TimerWorld unit :=
  modify (λ w, {| w with theap := <[a := t]> (theap w) |}).

(** [delete timer]: of a live object. *)
Definition tdelete (a : addr) : M TimerWorld unit :=
  _ ← tderef a; modify (λ w, {| w with theap := delete a (theap w) |}).

Definition on_queue (f : TimerQueue -> TimerQueue) : M TimerWorld unit :=
  modify (λ w, {| w with tqueue := f (tqueue w) |}).

Definition on_kernel {A} (f : TK -> A * TK) : M TimerWorld A := λ w,
  let '(a, k) := f (tkernel w) in Ok (a, {| w with tkernel := k |}).

Definition tassertInLoopThread : M TimerWorld unit :=
  ok ← gets tin_loop; if ok : bool then mret tt else failM FatalLog.

(** [assert(timers_.size() == activeTimers_.size())]. *)
Definition assert_sizes : M TimerWorld unit :=
  assertS (λ w, (length (timers_ (tqueue w)) =? size (activeTimers_ (tqueue w)))%nat).

(** [howMuchTimeFromNow(when)] at the time [now]. *)
Definition how_much (when now : Timestamp) : timespec :=
  let microseconds := s64 (microSecondsSinceEpoch when - microSecondsSinceEpoch now) in
  let microseconds := if microseconds <? 100 then 100 else microseconds in
  mkTimespec (microseconds ÷ kMicroSecondsPerSecond)
             (Z.rem microseconds kMicroSecondsPerSecond * 1000).

Definition howMuchTimeFromNow (when : Timestamp) : M TimerWorld timespec :=
  now ← on_kernel tk_now; mret (how_much when now).

(** A failure of the system call is only logged. *)
Definition resetTimerfd (expiration : Timestamp) : M TimerWorld unit :=
  v ← howMuchTimeFromNow expiration;
  _ ← on_kernel (timerfd_settime v);
  mret tt.

(** A short read is only logged. *)
Definition readTimerfd : M TimerWorld unit :=
  _ ← on_kernel timerfd_read; mret tt.

Definition insert (a : addr) : M TimerWorld bool :=
  tassertInLoopThread ;;;
  assert_sizes ;;;
  t ← tderef a;
  let when := expiration_ t in
  l ← gets (λ w, timers_ (tqueue w));
  let earliestChanged := match l with [] => true | e :: _ => ts_ltb when e.1 end in
  (match set_insert (when, a) l with
   | Some l' => on_queue (λ q, {| q with timers_ := l' |})
   | None => failM AssertFailed
   end) ;;;
  t ← tderef a;
  assertS (λ w, bool_decide ((a, sequence_ t) ∉ activeTimers_ (tqueue w))) ;;;
  on_queue (λ q, {| q with activeTimers_ := {[(a, sequence_ t)]} ∪ activeTimers_ q |}) ;;;
  assert_sizes ;;;
  mret earliestChanged.

Definition addTimerInLoop (a : addr) : M TimerWorld unit :=
  tassertInLoopThread ;;;
  earliestChanged ← insert a;
  if earliestChanged : bool then
    t ← tderef a; resetTimerfd (expiration_ t)
  else mret tt.

(** [new Timer(cb, when, interval)]. *)
Definition addTimer_new (cb : Closure) (when : Timestamp) (interval : double) : M TimerWorld addr :=
  a ← gets (λ w, malloc (dom (theap w)));
  modify (λ w, {| w with s_numCreated_ := s64 (s_numCreated_ w + 1) |}) ;;;
  seq ← gets s_numCreated_;
  tset a (Timer_ctor cb when interval seq) ;;;
  mret a.

(** [TimerId(timer, timer->sequence())]: the object is read once more. *)
Definition addTimer_id (a : addr) : M TimerWorld TimerId :=
  t ← tderef a; mret (mkTimerId a (sequence_ t)).

(** [addTimer(cb, when, interval)]; [runInLoop] is the loop's. *)
Definition addTimer (runInLoop : M TimerWorld unit -> M TimerWorld unit)
    (cb : Closure) (when : Timestamp) (interval : double) : M TimerWorld TimerId :=
  a ← addTimer_new cb when interval;
  runInLoop (addTimerInLoop a) ;;;
  addTimer_id a.

Definition cancelInLoop (timerId : TimerId) : M TimerWorld unit :=
  tassertInLoopThread ;;;
  assert_sizes ;;;
  let timer := (timer_ timerId, id_sequence_ timerId) in
  q ← gets tqueue;
  (if bool_decide (timer ∈ activeTimers_ q) then
     t ← tderef (timer_ timerId);
     let '(n, l) := set_erase (expiration_ t, timer_ timerId) (timers_ q) in
     on_queue (λ q, {| q with timers_ := l |}) ;;;
     assert_ (n =? 1)%nat ;;;
     tdelete (timer_ timerId) ;;;
     on_queue (λ q, {| q with activeTimers_ := activeTimers_ q ∖ {[timer]} |})
   else
     whenM (callingExpiredTimers_ q)
       (on_queue (λ q, {| q with cancelingTimers_ := {[timer]} ∪ cancelingTimers_ q |}))) ;;;
  assert_sizes.

Definition cancel (runInLoop : M TimerWorld unit -> M TimerWorld unit) (timerId : TimerId)
    : M TimerWorld unit := runInLoop (cancelInLoop timerId).

(** ** The timer functions of [EventLoop]

    [runInLoop] is that of the loop; the clock is the kernel's. *)
Definition runAt (runInLoop : M TimerWorld unit -> M TimerWorld unit) (time : Timestamp) (cb : Closure)
    : M TimerWorld TimerId := addTimer runInLoop cb time no_interval.

Definition runAfter (runInLoop : M TimerWorld unit -> M TimerWorld unit) (delay : double) (cb : Closure)
    : M TimerWorld TimerId :=
  now ← on_kernel tk_now; runAt runInLoop (addTime now delay) cb.

Definition runEvery (runInLoop : M TimerWorld unit -> M TimerWorld unit) (interval : double) (cb : Closure)
    : M TimerWorld TimerId :=
  now ← on_kernel tk_now; addTimer runInLoop cb (addTime now interval) interval.

Definition getExpired (now : Timestamp) : M TimerWorld (list Entry) :=
  assert_sizes ;;;
  l ← gets (λ w, timers_ (tqueue w));
  let '(expired, rest) := split_lower now l in
  assert_ (match rest with [] => true | e :: _ => ts_ltb now e.1 end) ;;;
  on_queue (λ q, {| q with timers_ := rest |}) ;;;
  for_each expired (λ it,
    t ← tderef it.2;
    assertS (λ w, bool_decide ((it.2, sequence_ t) ∈ activeTimers_ (tqueue w))) ;;;
    on_queue (λ q, {| q with activeTimers_ := activeTimers_ q ∖ {[(it.2, sequence_ t)]} |})) ;;;
  assert_sizes ;;;
  mret expired.

Definition reset (expired : list Entry) (now : Timestamp) : M TimerWorld unit :=
  for_each expired (λ it,
    t ← tderef it.2;
    q ← gets tqueue;
    if repeat_ t && bool_decide ((it.2, sequence_ t) ∉ cancelingTimers_ q) then
      tset it.2 (restart now t) ;;;
      _ ← insert it.2; mret tt
    else tdelete it.2) ;;;
  l ← gets (λ w, timers_ (tqueue w));
  nextExpire ← (match l with
                | [] => mret ts_invalid
                | e :: _ => t ← tderef e.2; mret (expiration_ t)
                end);
  whenM (ts_valid nextExpire) (resetTimerfd nextExpire).

(** [handleRead()]; [run] runs a callback. *)
Definition handleRead (run : Closure -> M TimerWorld unit) : M TimerWorld unit :=
  tassertInLoopThread ;;;
  now ← on_kernel tk_now;
  readTimerfd ;;;
  expired ← getExpired now;
  on_queue (λ q, {| q with callingExpiredTimers_ := true |}) ;;;
  on_queue (λ q, {| q with cancelingTimers_ := ∅ |}) ;;;
  for_each expired (λ it, t ← tderef it.2; run (callback_ t)) ;;;
  on_queue (λ q, {| q with callingExpiredTimers_ := false |}) ;;;
  reset expired now.

(** ** Calls from other threads

    There [runInLoop] puts a functor into the loop's queue. *)
Inductive timer_functor :=
  | FAddTimer (a : addr)         (** [addTimerInLoop(timer)] *)
  | FCancel (id : TimerId).      (** [cancelInLoop(timerId)] *)

Record TimerLoop := mkTimerLoop { tw : TimerWorld; tfunctors : list timer_functor }.

Definition twL : lens TimerLoop TimerWorld := Lens tw (λ x w, {| w with tw := x |}).

Definition queue_functor (f : timer_functor) : M TimerLoop unit :=
  modify (λ w, {| w with tfunctors := tfunctors w ++ [f] |}).

(** [addTimer] of another thread up to the queueing, and its last line, which the
    loop does not wait for. *)
Definition addTimer_start (cb : Closure) (when : Timestamp) (interval : double) : M TimerLoop addr :=
  a ← zoom twL (addTimer_new cb when interval); queue_functor (FAddTimer a) ;;; mret a.

Definition addTimer_other (cb : Closure) (when : Timestamp) (interval : double) : M TimerLoop TimerId :=
  a ← addTimer_start cb when interval; zoom twL (addTimer_id a).

Definition cancel_other (timerId : TimerId) : M TimerLoop unit := queue_functor (FCancel timerId).

(** The loop runs the functor that was queued first. *)
Definition run_timer_functor : M TimerLoop unit :=
  fs ← gets tfunctors;
  match fs with
  | [] => mret tt
  | f :: rest =>
      modify (λ w, {| w with tfunctors := rest |}) ;;;
      zoom twL (match f with FAddTimer a => addTimerInLoop a | FCancel id => cancelInLoop id end)
  end.

(** The loop of [~TimerQueue()] over the remaining timers. *)
Definition TimerQueue_dtor : M TimerWorld unit :=
  l ← gets (λ w, timers_ (tqueue w)); for_each l (λ e, tdelete e.2).
End timers.

(** ** The ordered set *)
Section entries.
#[local] Set Default Proof Using "Type*".
Context {BT : BaseTime} {BL : BaseTimeLaws BT}.

Abbreviation micro := microSecondsSinceEpoch.

Definition entry_lt (x y : Entry) : Prop :=
  micro x.1 < micro y.1 ∨ (micro x.1 = micro y.1 ∧ Zpos x.2 < Zpos y.2).

Lemma ts_ltb_false a b : ts_ltb a b = false ↔ micro b <= micro a.
Proof.
  destruct (ts_ltb a b) eqn:E.
  - apply ts_ltb_spec in E. split; [done|lia].
  - split; [|done]. intros _. destruct (Z.lt_ge_cases (micro a) (micro b)) as [H|]; [|done].
    apply ts_ltb_spec in H. congruence.
Qed.

Lemma entry_ltb_spec x y : entry_ltb x y = true ↔ entry_lt x y.
Proof.
  unfold entry_ltb, entry_lt.
  rewrite orb_true_iff, andb_true_iff, negb_true_iff, ts_ltb_spec, ts_ltb_false, Pos.ltb_lt. lia.
Qed.

Lemma entry_ltb_false x y : entry_ltb x y = false ↔ ¬ entry_lt x y.
Proof. rewrite <- entry_ltb_spec. by destruct (entry_ltb x y). Qed.

Lemma entry_lt_trans x y z : entry_lt x y -> entry_lt y z -> entry_lt x z.
Proof. unfold entry_lt. lia. Qed.

Lemma entry_lt_irrefl x : ¬ entry_lt x x.
Proof. unfold entry_lt. lia. Qed.

Lemma entry_total x y : ¬ entry_lt x y -> ¬ entry_lt y x -> x = y.
Proof.
  unfold entry_lt. destruct x as [t a], y as [u b]; cbn. intros.
  assert (t = u) as -> by (apply ts_micro_inj; lia). f_equal. lia.
Qed.

(** Inserting what is not there: the rest stays, and the first element changes
    exactly when the new one precedes it. *)
Lemma set_insert_spec x l : StronglySorted entry_lt l -> x ∉ l ->
  ∃ l', set_insert x l = Some l' ∧ StronglySorted entry_lt l' ∧ l' ≡ₚ x :: l
    ∧ head l' = match head l with Some e => if entry_ltb x e then Some x else Some e
                                | None => Some x end.
Proof.
  induction 1 as [|y l Hs IH Hy]; intros Hx; cbn [set_insert].
  - exists [x]. split_and!; try done. constructor; constructor.
  - apply not_elem_of_cons in Hx as [Hxy Hxl]. destruct (entry_ltb x y) eqn:E1.
    + apply entry_ltb_spec in E1. exists (x :: y :: l). split_and!; try done.
      * constructor; [by constructor|]. constructor; [done|].
        eapply Forall_impl; [exact Hy|]. intros. by eapply entry_lt_trans.
      * cbn. by rewrite (proj2 (entry_ltb_spec x y) E1).
    + apply entry_ltb_false in E1. destruct (entry_ltb y x) eqn:E2.
      * apply entry_ltb_spec in E2. destruct (IH Hxl) as (l' & -> & Hs' & Hp & _).
        exists (y :: l'). split_and!; try done.
        -- constructor; [done|]. rewrite Hp. by constructor.
        -- rewrite Hp. apply Permutation_swap.
        -- cbn. by rewrite (proj2 (entry_ltb_false x y) E1).
      * apply entry_ltb_false in E2. destruct Hxy. by apply entry_total.
Qed.

Lemma set_erase_spec x l : StronglySorted entry_lt l -> x ∈ l ->
  ∃ l', set_erase x l = (1%nat, l') ∧ StronglySorted entry_lt l' ∧ l ≡ₚ x :: l'
    ∧ sublist l' l.
Proof.
  induction 1 as [|y l Hs IH Hy]; intros Hx; [by apply elem_of_nil in Hx|].
  cbn [set_erase]. apply elem_of_cons in Hx as [->|Hx].
  - rewrite (proj2 (entry_ltb_false y y) (entry_lt_irrefl y)). exists l.
    split_and!; try done. by apply sublist_cons.
  - assert (Hlt : entry_lt y x) by by eapply Forall_forall in Hy.
    rewrite (proj2 (entry_ltb_spec y x) Hlt).
    destruct (IH Hx) as (l' & -> & Hs' & Hp & Hsub). exists (y :: l'). split_and!; try done.
    + constructor; [done|]. rewrite Hp in Hy. by apply Forall_cons in Hy as [_ ?].
    + rewrite Hp. apply Permutation_swap.
    + by apply sublist_skip.
Qed.

Lemma sentry_ltb_spec (e : Entry) now : sentry_ltb e now = true ↔ micro e.1 <= micro now.
Proof. unfold sentry_ltb. rewrite orb_true_iff, negb_true_iff, ts_ltb_spec, ts_ltb_false. lia. Qed.

Lemma split_lower_spec now l : StronglySorted entry_lt l ->
  let '(a, b) := split_lower now l in
  l = a ++ b ∧ Forall (λ e, micro e.1 <= micro now) a ∧ Forall (λ e, micro now < micro e.1) b.
Proof.
  induction 1 as [|y l Hs IH Hy]; cbn [split_lower]; [by split_and!|].
  destruct (sentry_ltb y now) eqn:E.
  - apply sentry_ltb_spec in E. destruct (split_lower now l) as [a b].
    destruct IH as (-> & Ha & Hb). split_and!; try done. by constructor.
  - assert (Hlt : micro now < micro y.1).
    { apply not_true_iff_false in E. rewrite sentry_ltb_spec in E. lia. }
    split_and!; try done. constructor; [done|].
    eapply Forall_impl; [exact Hy|]. cbn. unfold entry_lt. intros z. lia.
Qed.

Lemma sorted_app_inv (a b : list Entry) : StronglySorted entry_lt (a ++ b) ->
  StronglySorted entry_lt a ∧ StronglySorted entry_lt b.
Proof using Type.
  induction a as [|x a IH]; cbn; intros H; [by split; [constructor|]|].
  apply StronglySorted_inv in H as [Hs Hx]. apply Forall_app in Hx as [Hxa _].
  destruct (IH Hs). split; [by constructor|done].
Qed.

End entries.

(** ** The invariant *)
Section queue.
#[local] Set Default Proof Using "Type*".
Context {BT : BaseTime} {BL : BaseTimeLaws BT} {CL : Closures} {TF : Timerfd}
        {TL : TimerfdLaws TF} {AL : Allocator} {U : Type}.
Implicit Types (w : TimerWorld (U := U)) (a : addr) (E l : list Entry) (P : list addr).

Definition timers w : list Entry := timers_ (tqueue w).

Definition live w (e : Entry) : Prop :=
  ∃ t, theap w !! e.2 = Some t ∧ expiration_ t = e.1.

(** [E] are the timers taken out by [getExpired] whose callbacks are being run,
    [P] the timers created but not yet inserted. *)
Record tq_ok E P w : Prop := {
  tq_loop : tin_loop w = true;
  tq_sorted : StronglySorted entry_lt (timers w);
  tq_live : Forall (live w) (timers w ++ E);
  tq_heap : ∀ a, is_Some (theap w !! a) ↔ a ∈ (timers w ++ E).*2 ++ P;
  tq_nodup : NoDup ((timers w ++ E).*2 ++ P);
  tq_active : ∀ a s, (a, s) ∈ activeTimers_ (tqueue w) ↔
    ∃ t, a ∈ (timers w).*2 ∧ theap w !! a = Some t ∧ sequence_ t = s;
  tq_size : size (activeTimers_ (tqueue w)) = length (timers w);
  (** The timers repeat exactly when they were given an interval. *)
  tq_wf : ∀ a t, theap w !! a = Some t -> repeat_ t = double_pos (interval_ t);
}.

Lemma tq_ok_perm E E' P P' w : E ≡ₚ E' -> P ≡ₚ P' -> tq_ok E P w -> tq_ok E' P' w.
Proof.
  intros HE HP []. split; try done.
  - by rewrite <- HE.
  - intros a. by rewrite tq_heap0, HE, HP.
  - by rewrite <- HE, <- HP.
Qed.

Lemma wp_tassert Q w : tin_loop w = true -> Q tt w -> wp tassertInLoopThread Q w.
Proof using Type. intros H HQ. unfold tassertInLoopThread. wp_simpl. by rewrite H. Qed.

Lemma wp_sizes Q w : size (activeTimers_ (tqueue w)) = length (timers w) ->
  Q tt w -> wp assert_sizes Q w.
Proof using Type.
  intros H HQ. unfold assert_sizes. wp_simpl. split; [|done]. apply Nat.eqb_eq. by rewrite H.
Qed.

Lemma wp_tderef a t Q w : theap w !! a = Some t -> Q t w -> wp (tderef a) Q w.
Proof using Type. intros H HQ. unfold tderef. wp_simpl. by rewrite H. Qed.

(** The state after [a] has entered the set. *)
Definition inserted a (t : Timer) l' w : TimerWorld :=
  {| w with tqueue := {| (tqueue w) with timers_ := l';
       activeTimers_ := {[(a, sequence_ t)]} ∪ activeTimers_ (tqueue w) |} |}.

Lemma inserted_ok E P w a t l' : tq_ok E (a :: P) w -> theap w !! a = Some t ->
  StronglySorted entry_lt l' -> l' ≡ₚ (expiration_ t, a) :: timers w ->
  (a, sequence_ t) ∉ activeTimers_ (tqueue w) -> tq_ok E P (inserted a t l' w).
Proof.
  intros [] Ha Hs Hp Hn.
  assert (Hperm : (l' ++ E).*2 ++ P ≡ₚ (timers w ++ E).*2 ++ a :: P).
  { rewrite Hp. cbn. by rewrite Permutation_middle. }
  split; cbn; try done.
  - change (Forall (live w) (l' ++ E)). rewrite Hp. cbn. constructor; [by exists t|done].
  - intros b. rewrite tq_heap0. unfold timers. cbn. by rewrite Hperm.
  - unfold timers. cbn. by rewrite Hperm.
  - intros b s. rewrite elem_of_union, elem_of_singleton, tq_active0.
    assert (Hb : b ∈ (timers (inserted a t l' w)).*2 ↔ b = a ∨ b ∈ (timers w).*2).
    { unfold timers at 1. cbn. rewrite Hp. cbn. by rewrite elem_of_cons. }
    setoid_rewrite Hb.
    split.
    + intros [[= -> ->]|(u & ? & ? & ?)]; eauto 10.
    + intros (u & [->|?] & ? & ?); [left; congruence|right; eauto].
  - unfold timers. cbn. rewrite size_union, size_singleton, tq_size0, Hp; [done|].
    set_solver.
Qed.

Lemma insert_wp E P w a t Q : tq_ok E (a :: P) w -> theap w !! a = Some t ->
  (∀ l', tq_ok E P (inserted a t l' w) -> l' ≡ₚ (expiration_ t, a) :: timers w ->
     head l' = (if match timers w with [] => true | e :: _ => ts_ltb (expiration_ t) e.1 end
                then Some (expiration_ t, a)
                else match head (timers w) with
                     | Some e => if entry_ltb (expiration_ t, a) e
                                 then Some (expiration_ t, a) else Some e
                     | None => None end) ->
     Q (match timers w with [] => true | e :: _ => ts_ltb (expiration_ t) e.1 end)
       (inserted a t l' w)) ->
  wp (insert a) Q w.
Proof.
  intros Hok Ha HQ. unfold insert. wp_simpl.
  apply wp_tassert; [apply Hok|]. wp_simpl.
  apply wp_sizes; [apply Hok|]. wp_simpl.
  apply wp_tderef with (t := t); [done|]. wp_simpl.
  assert (Hnin : a ∉ (timers w).*2).
  { pose proof (tq_nodup _ _ _ Hok) as Hnd. rewrite fmap_app, <- app_assoc in Hnd.
    apply NoDup_app in Hnd as (_ & Hnd & _). intros Hin. apply (Hnd a Hin).
    apply elem_of_app. right. by left. }
  assert (Hnin' : (expiration_ t, a) ∉ timers w).
  { intros Hin. apply Hnin. by apply (list_elem_of_fmap_2 snd _ _ Hin). }
  destruct (set_insert_spec _ _ (tq_sorted _ _ _ Hok) Hnin') as (l' & Hl' & Hs' & Hp & Hhd).
  unfold timers in Hl'. rewrite Hl'. unfold on_queue at 1. wp_simpl.
  apply wp_tderef with (t := t); [done|]. wp_simpl.
  assert (Hact : (a, sequence_ t) ∉ activeTimers_ (tqueue w)).
  { rewrite (tq_active _ _ _ Hok). by intros (? & ? & _). }
  split; [by apply bool_decide_true|]. unfold on_queue. wp_simpl.
  pose proof (inserted_ok E P w a t l' Hok Ha Hs' Hp Hact) as Hok'.
  apply wp_sizes; [exact (tq_size _ _ _ Hok')|]. wp_simpl. apply HQ; try done.
  rewrite Hhd. unfold timers. destruct (timers_ (tqueue w)) as [|e l]; [done|]. cbn [head].
  destruct (ts_ltb (expiration_ t) e.1) eqn:El; [|done].
  assert (entry_ltb (expiration_ t, a) e = true) as ->; [|done].
  unfold entry_ltb. cbn. by rewrite El.
Qed.

(** ** Arming the descriptor *)
Lemma how_much_ok when now :
  let v := how_much when now in
  0 <= tv_sec v ∧ 0 <= tv_nsec v < 1000000000 ∧ 0 < tv_sec v + tv_nsec v
  ∧ 1000000 * tv_sec v + tv_nsec v `div` 1000
    = Z.max 100 (s64 (microSecondsSinceEpoch when - microSecondsSinceEpoch now)).
Proof.
  unfold how_much. set (m := s64 _). rewrite kMicroSecondsPerSecond_spec.
  replace (if m <? 100 then 100 else m) with (Z.max 100 m)
    by (destruct (Z.ltb_spec m 100); lia).
  cbn [tv_sec tv_nsec]. rewrite Z.quot_div_nonneg, Z.rem_mod_nonneg by lia.
  pose proof (Z.div_mod (Z.max 100 m) 1000000 ltac:(lia)).
  pose proof (Z.mod_pos_bound (Z.max 100 m) 1000000 ltac:(lia)).
  pose proof (Z.div_pos (Z.max 100 m) 1000000 ltac:(lia) ltac:(lia)).
  rewrite Z.div_mul by lia. lia.
Qed.

Definition armed w : Prop := is_Some (tk_armed (tkernel w)).

(** What [resetTimerfd(when)] does to the kernel. *)
Record rearmed (when : Timestamp) (k k' : TK) : Prop := {
  ra_clock : tk_clock k <= tk_clock k';
  ra_deadline : ∃ c, tk_clock k <= c ∧ c <= tk_clock k'
    ∧ tk_armed k' = Some (c + Z.max 100 (s64 (microSecondsSinceEpoch when - tk_clock k)));
}.

Lemma resetTimerfd_wp when w Q :
  (∀ k', rearmed when (tkernel w) k' -> Q tt {| w with tkernel := k' |}) ->
  wp (resetTimerfd when) Q w.
Proof.
  intros HQ. unfold resetTimerfd, howMuchTimeFromNow, on_kernel. wp_simpl.
  unfold wp at 1. destruct (tk_now (tkernel w)) as [now k1] eqn:E1. wp_simpl.
  destruct (now_law _ _ _ E1) as (Hnow & Hc1 & _).
  destruct (how_much_ok when now) as (Hs & Hn & Hpos & Heq).
  destruct (settime_law _ k1 Hs Hn Hpos) as (k2 & Hset & Hc2 & Ha).
  unfold wp. cbn. rewrite Hset. cbn. apply (HQ k2). split; [lia|].
  exists (tk_clock k1). split_and!; [done|done|].
  rewrite Ha, <- Hnow, <- Heq. f_equal. lia.
Qed.

Lemma rearmed_armed when k k' : rearmed when k k' -> is_Some (tk_armed k').
Proof using Type. intros [_ (c & _ & _ & ->)]. eauto. Qed.

(** ** Operations of callbacks *)

(** What holds across any use of the queue by a callback: the timers in
    flight are not touched; and if the descriptor was armed whenever needed,
    it still is. *)
Definition head_invalid w : Prop :=
  ∃ e, head (timers w) = Some e ∧ ts_valid e.1 = false.

Record api_step E P w w' : Prop := {
  as_ok : tq_ok E P w';
  as_flight : ∀ a, a ∈ E.*2 -> theap w' !! a = theap w !! a;
  as_calling : callingExpiredTimers_ (tqueue w') = callingExpiredTimers_ (tqueue w);
  as_canceling : cancelingTimers_ (tqueue w) ⊆ cancelingTimers_ (tqueue w');
  as_armed : (timers w ≠ [] -> armed w) -> timers w' ≠ [] -> armed w';
  as_head : (head_invalid w -> armed w) -> head_invalid w' -> armed w';
  as_clock : tk_clock (tkernel w) <= tk_clock (tkernel w');
}.

Lemma api_step_refl E P w : tq_ok E P w -> api_step E P w w.
Proof. by split; try naive_solver. Qed.

Lemma api_step_trans E P P' w w1 w2 :
  api_step E P w w1 -> api_step E P' w1 w2 -> api_step E P' w w2.
Proof.
  intros [] []. split; try done.
  - intros a Ha. by rewrite as_flight1, as_flight0.
  - congruence.
  - set_solver.
  - eauto.
  - eauto.
  - lia.
Qed.

(** Kernel, flags and user data do not matter to the invariant. *)
Lemma tq_ok_ext E P w w' : tq_ok E P w -> theap w' = theap w -> tin_loop w' = tin_loop w ->
  timers w' = timers w -> activeTimers_ (tqueue w') = activeTimers_ (tqueue w) -> tq_ok E P w'.
Proof.
  intros [] Hh Hl Ht Ha. split; rewrite ?Hh, ?Hl, ?Ht, ?Ha; try done.
  unfold live in *. by rewrite Hh.
Qed.

Lemma addTimerInLoop_wp E P w a t Q : tq_ok E (a :: P) w -> theap w !! a = Some t ->
  (∀ w', api_step E P w w' -> timers w' ≡ₚ (expiration_ t, a) :: timers w ->
     theap w' = theap w -> s_numCreated_ w' = s_numCreated_ w -> user w' = user w ->
     cancelingTimers_ (tqueue w') = cancelingTimers_ (tqueue w) ->
     activeTimers_ (tqueue w') = {[(a, sequence_ t)]} ∪ activeTimers_ (tqueue w) ->
     Q tt w') ->
  wp (addTimerInLoop a) Q w.
Proof.
  intros Hok Ha HQ. unfold addTimerInLoop. wp_simpl. apply wp_tassert; [apply Hok|]. wp_simpl.
  apply (insert_wp E P w a t); [done..|]. intros l' Hok' Hp Hhd.
  assert (Htim : timers (inserted a t l' w) = l') by done.
  destruct (match timers w with [] => true | e :: _ => ts_ltb (expiration_ t) e.1 end) eqn:Eb;
    wp_simpl.
  - apply wp_tderef with (t := t); [done|]. apply resetTimerfd_wp. intros k' Hk.
    pose proof (rearmed_armed _ _ _ Hk). apply HQ; try done. split; try done.
    + by apply (tq_ok_ext E P (inserted a t l' w)).
    + apply (ra_clock _ _ _ Hk).
  - destruct (timers w) as [|e l] eqn:El; [done|]. cbn [head] in Hhd.
    apply ts_ltb_false in Eb.
    assert (He : ∃ e', head l' = Some e' ∧ e'.1 = e.1).
    { rewrite Hhd. case_match eqn:Ee; [|eauto]. eexists. split; [done|]. cbn.
      apply entry_ltb_spec in Ee as [?|[? _]]; cbn in *; [lia|by apply ts_micro_inj]. }
    destruct He as (e' & He' & Heq). apply HQ; try done.
    split; try done.
    + intros Harm _. apply Harm. by rewrite El.
    + intros Harm (e2 & He2 & Hv). apply Harm. exists e. rewrite El. split; [done|].
      rewrite Htim, He' in He2. simplify_eq. congruence.
Qed.

(** A new timer object, not yet inserted. *)
Lemma tset_new_ok E P w a t : tq_ok E P w -> repeat_ t = double_pos (interval_ t) ->
  theap w !! a = None ->
  ∀ n, tq_ok E (a :: P) {| w with theap := <[a := t]> (theap w); s_numCreated_ := n |}.
Proof.
  intros [] Hwf Ha n.
  assert (Hnin : a ∉ (timers w ++ E).*2 ++ P).
  { rewrite <- tq_heap0, Ha. by intros []. }
  assert (Hother : ∀ b, b ∈ (timers w ++ E).*2 -> b ≠ a).
  { intros b Hb' ->. apply Hnin. apply elem_of_app. by left. }
  split; cbn; try done.
  - rewrite Forall_forall in tq_live0 |- *. intros e He.
    destruct (tq_live0 e He) as (u & Hu & ?). exists u. cbn. rewrite lookup_insert_ne; [done|].
    intros ->. by eapply (Hother e.2), eq_refl; apply list_elem_of_fmap_2.
  - intros b. rewrite <- Permutation_middle, elem_of_cons. unfold timers at 1. cbn.
    fold (timers w). rewrite <- tq_heap0. destruct (decide (b = a)) as [->|].
    + rewrite lookup_insert_eq. naive_solver.
    + rewrite lookup_insert_ne by done. naive_solver.
  - unfold timers. cbn. fold (timers w). rewrite <- Permutation_middle. by constructor.
  - intros b s. rewrite tq_active0. unfold timers at 2. cbn. fold (timers w).
    split; intros (u & Hb' & Hu & Hs); exists u; (split_and!; [done| |done]);
      (rewrite lookup_insert_ne in * ; [done|]); apply not_eq_sym, Hother; rewrite fmap_app;
      apply elem_of_app; by left.
  - intros b u Hu. apply lookup_insert_Some in Hu as [[_ <-]|[_ Hu]]; eauto.
Qed.

Lemma addTimer_wp E P w cb when interval Q : tq_ok E P w ->
  (∀ a n w', theap w !! a = None -> n = s64 (s_numCreated_ w + 1) ->
     theap w' = <[a := Timer_ctor cb when interval n]> (theap w) ->
     timers w' ≡ₚ (when, a) :: timers w -> s_numCreated_ w' = n ->
     activeTimers_ (tqueue w') = {[(a, n)]} ∪ activeTimers_ (tqueue w) ->
     api_step E P w w' -> Q (mkTimerId a n) w') ->
  wp (addTimer (λ m, m) cb when interval) Q w.
Proof.
  intros Hok HQ. unfold addTimer, addTimer_new. wp_simpl.
  set (a := malloc (dom (theap w))). set (n := s64 (s_numCreated_ w + 1)).
  assert (Ha : theap w !! a = None) by (apply not_elem_of_dom, malloc_fresh).
  unfold tset. wp_simpl. set (t := Timer_ctor cb when interval n).
  pose proof (tset_new_ok E P w a t Hok eq_refl Ha n) as Hok1.
  eapply (addTimerInLoop_wp E P _ a t); [exact Hok1|apply lookup_insert_eq|].
  intros w' Hst Hp Hh Hn _ Hcan Hact. unfold addTimer_id. wp_simpl.
  apply wp_tderef with (t := t); [rewrite Hh; apply lookup_insert_eq|]. wp_simpl. apply (HQ a n w'); try done.
  eapply api_step_trans; [|exact Hst]. split; try done. cbn. intros b Hb.
  rewrite lookup_insert_ne; [done|]. intros <-.
  assert (Hs : is_Some (theap w !! a)); [|rewrite Ha in Hs; by destruct Hs].
  apply (tq_heap _ _ _ Hok). rewrite fmap_app. set_solver.
Qed.

(** The state after the active timer [a] has been cancelled. *)
Definition cancelled a (s : Z) l' w : TimerWorld :=
  {| w with theap := delete a (theap w);
     tqueue := {| (tqueue w) with timers_ := l';
       activeTimers_ := activeTimers_ (tqueue w) ∖ {[(a, s)]} |} |}.

Lemma cancelled_ok E P w a t l' : tq_ok E P w -> theap w !! a = Some t ->
  StronglySorted entry_lt l' -> timers w ≡ₚ (expiration_ t, a) :: l' ->
  (a, sequence_ t) ∈ activeTimers_ (tqueue w) -> tq_ok E P (cancelled a (sequence_ t) l' w).
Proof.
  intros [] Ha Hs Hp Hin.
  assert (Hperm : ((timers w ++ E).*2 ++ P) ≡ₚ (a :: ((l' ++ E).*2 ++ P))) by (rewrite Hp; done).
  assert (Hnd : (a ∉ (l' ++ E).*2 ++ P) ∧ NoDup ((l' ++ E).*2 ++ P)).
  { rewrite Hperm in tq_nodup0. by apply NoDup_cons in tq_nodup0. }
  destruct Hnd as [Hnin Hnd].
  split; cbn; try done.
  - change (Forall (live (cancelled a (sequence_ t) l' w)) (l' ++ E)).
    rewrite Hp in tq_live0. apply Forall_cons in tq_live0 as [_ tq_live0].
    change (((_ :: l') ++ E)) with ((expiration_ t, a) :: l' ++ E) in tq_live0.
    rewrite Forall_forall in tq_live0 |- *. intros e He.
    destruct (tq_live0 e He) as (u & Hu & ?). exists u. cbn. rewrite lookup_delete_ne; [done|].
    intros ->. apply Hnin. apply elem_of_app. left. by apply list_elem_of_fmap_2.
  - intros b. unfold timers. cbn. destruct (decide (b = a)) as [->|Hb].
    + rewrite lookup_delete_eq. split; [by intros []|done].
    + rewrite lookup_delete_ne, tq_heap0, Hperm, elem_of_cons by done. naive_solver.
  - intros b s. rewrite elem_of_difference, elem_of_singleton, tq_active0.
    assert (Hb : b ∈ (timers w).*2 ↔ b = a ∨ b ∈ l'.*2).
    { rewrite Hp. cbn. by rewrite elem_of_cons. }
    setoid_rewrite Hb. unfold timers. cbn.
    assert (Hal : a ∉ l'.*2) by (intros ?; apply Hnin; rewrite fmap_app; set_solver).
    split.
    + intros [(u & [->|?] & Hu & Hsu) Hne]; [congruence|]. exists u. split_and!; try done.
      rewrite lookup_delete_ne; [done|]. by intros ->.
    + intros (u & Hbl & Hu & Hsu). apply lookup_delete_Some in Hu as [? Hu].
      split; [|congruence]. eauto.
  - unfold timers. cbn. rewrite size_difference by set_solver.
    rewrite size_singleton, tq_size0, Hp. cbn. lia.
  - intros b u Hu. apply lookup_delete_Some in Hu as [_ Hu]. eauto.
Qed.

Lemma cancelInLoop_wp E P w id Q : tq_ok E P w ->
  let x := (timer_ id, id_sequence_ id) in
  (∀ w', api_step E P w w' -> s_numCreated_ w' = s_numCreated_ w ->
     (if bool_decide (x ∈ activeTimers_ (tqueue w))
      then ∃ t, theap w !! timer_ id = Some t ∧ sequence_ t = id_sequence_ id
        ∧ timers w ≡ₚ (expiration_ t, timer_ id) :: timers w'
        ∧ theap w' = (delete (timer_ id) (theap w))
        ∧ activeTimers_ (tqueue w') = activeTimers_ (tqueue w) ∖ {[x]}
        ∧ cancelingTimers_ (tqueue w') = cancelingTimers_ (tqueue w)
      else timers w' = timers w ∧ theap w' = theap w
        ∧ activeTimers_ (tqueue w') = activeTimers_ (tqueue w)
        ∧ cancelingTimers_ (tqueue w') =
          (if callingExpiredTimers_ (tqueue w) then {[x]} else ∅) ∪ cancelingTimers_ (tqueue w)) ->
     Q tt w') ->
  wp (cancelInLoop id) Q w.
Proof.
  intros Hok x HQ. unfold cancelInLoop. wp_simpl. apply wp_tassert; [apply Hok|]. wp_simpl.
  apply wp_sizes; [apply Hok|]. wp_simpl. fold x. case_bool_decide as Hact; wp_simpl.
  - apply (tq_active _ _ _ Hok) in Hact as (t & Hin & Ht & Hs).
    apply wp_tderef with (t := t); [done|].
    assert (Hent : (expiration_ t, timer_ id) ∈ timers w).
    { apply list_elem_of_fmap in Hin as (e & He & Hin).
      pose proof (tq_live _ _ _ Hok) as Hl. rewrite Forall_forall in Hl.
      destruct (Hl e) as (u & Hu & Hx); [apply elem_of_app; by left|].
      rewrite <- He, Ht in Hu. simplify_eq. rewrite He, Hx. by destruct e. }
    destruct (set_erase_spec _ _ (tq_sorted _ _ _ Hok) Hent) as (l' & Her & Hs' & Hp & Hsub).
    unfold timers in Her. rewrite Her. unfold on_queue, tdelete. wp_simpl. split; [done|].
    apply wp_tderef with (t := t); [done|]. wp_simpl.
    assert (Hin' : (timer_ id, sequence_ t) ∈ activeTimers_ (tqueue w)).
    { apply (tq_active _ _ _ Hok). eauto. }
    pose proof (cancelled_ok E P w _ t l' Hok Ht Hs' Hp Hin') as Hok'.
    rewrite Hs in Hok'.
    apply wp_sizes; [exact (tq_size _ _ _ Hok')|]. apply HQ; try done; [|by exists t].
    split; try done.
    + cbn. intros a Ha. rewrite lookup_delete_ne; [done|]. intros <-.
      pose proof (tq_nodup _ _ _ Hok) as Hnd. apply NoDup_app in Hnd as (Hnd & _).
      rewrite fmap_app in Hnd. apply NoDup_app in Hnd as (_ & Hd & _). by apply (Hd (timer_ id)).
    + intros Harm _. apply Harm. intros Hnil. rewrite Hnil in Hent. by apply elem_of_nil in Hent.
    + intros Harm (e' & He' & Hv). apply Harm. unfold timers in He'. cbn in He'.
      destruct (timers w) as [|e l] eqn:El; [by apply elem_of_nil in Hent|].
      exists e. rewrite El. split; [done|].
      assert (Hin2 : e' ∈ e :: l).
      { destruct l'; [done|]. injection He' as ->. rewrite Hp. right. by left. }
      apply elem_of_cons in Hin2 as [->|Hin2]; [done|].
      pose proof (tq_sorted _ _ _ Hok) as Hso. rewrite El in Hso.
      apply StronglySorted_inv in Hso as [_ Hso]. rewrite Forall_forall in Hso.
      specialize (Hso e' Hin2). apply not_true_iff_false. intros Hv'.
      apply not_true_iff_false in Hv. apply Hv. apply ts_valid_spec in Hv'. apply ts_valid_spec.
      unfold entry_lt in Hso. lia.
  - destruct (callingExpiredTimers_ (tqueue w)) eqn:Ecal; unfold on_queue; wp_simpl;
      (apply wp_sizes; [exact (tq_size _ _ _ Hok)|]).
    + apply HQ; try done.
      split; try done; first [by apply (tq_ok_ext E P w) | cbn; set_solver].
    + apply HQ; try done; try by apply api_step_refl.
      all: split_and!; try done; set_solver.
Qed.

(** ** Taking out the expired timers *)

Definition tkey w (e : Entry) : addr * Z :=
  (e.2, match theap w !! e.2 with Some t => sequence_ t | None => 0 end).

(** The state after [l1], a prefix of the timers [l1 ++ l2], was taken out. *)
Definition taken l1 l2 w : TimerWorld :=
  {| w with tqueue := {| (tqueue w) with timers_ := l2;
       activeTimers_ := activeTimers_ (tqueue w) ∖ list_to_set (tkey w <$> l1) |} |}.

Lemma tkey_active E P w e : tq_ok E P w -> e ∈ timers w ->
  tkey w e ∈ activeTimers_ (tqueue w)
  ∧ ∃ t, theap w !! e.2 = Some t ∧ tkey w e = (e.2, sequence_ t).
Proof.
  intros Hok Hin. pose proof (tq_live _ _ _ Hok) as Hl. rewrite Forall_forall in Hl.
  destruct (Hl e) as (t & Ht & _); [apply elem_of_app; by left|].
  assert (Hk : tkey w e = (e.2, sequence_ t)) by (unfold tkey; by rewrite Ht).
  split; [|eauto]. rewrite Hk. apply (tq_active _ _ _ Hok).
  exists t. split_and!; try done. by apply list_elem_of_fmap_2.
Qed.

Lemma taken_ok P w l1 l2 : tq_ok [] P w -> timers w = l1 ++ l2 -> tq_ok l1 P (taken l1 l2 w).
Proof.
  intros Hok Heq. pose proof Hok as [].
  assert (Hperm : l2 ++ l1 ≡ₚ timers w ++ []) by (rewrite Heq, app_nil_r; apply Permutation_app_comm).
  assert (Hsub : list_to_set (tkey w <$> l1) ⊆ activeTimers_ (tqueue w)).
  { intros x Hx. apply elem_of_list_to_set, list_elem_of_fmap in Hx as (e & -> & He).
    eapply (tkey_active [] P); [done|]. rewrite Heq. apply elem_of_app. by left. }
  assert (Hnd2 : NoDup (l1.*2 ++ l2.*2)).
  { rewrite app_nil_r, Heq, fmap_app in tq_nodup0. by apply NoDup_app in tq_nodup0 as [? _]. }
  split; cbn; try done.
  - rewrite Heq in tq_sorted0. by apply sorted_app_inv in tq_sorted0 as [_ ?].
  - change (Forall (live w) (l2 ++ l1)). by rewrite Hperm.
  - intros a. rewrite tq_heap0. change (timers (taken l1 l2 w)) with l2. by rewrite Hperm.
  - unfold timers. cbn. by rewrite Hperm.
  - intros a s. rewrite elem_of_difference, elem_of_list_to_set, list_elem_of_fmap, tq_active0.
    change (timers (taken l1 l2 w)) with l2. rewrite Heq, fmap_app.
    setoid_rewrite elem_of_app. split.
    + intros [(t & [Hin|Hin] & Ht & Hs) Hne]; [|eauto]. destruct Hne.
      apply list_elem_of_fmap in Hin as (e & -> & He). exists e. split; [|done].
      unfold tkey. by rewrite Ht, Hs.
    + intros (t & Hin & Ht & Hs). split; [eauto|]. intros (e & He & Hin1).
      apply (f_equal fst) in He. cbn in He. subst a.
      apply NoDup_app in Hnd2 as (_ & Hd & _). eapply Hd; [|exact Hin].
      by apply list_elem_of_fmap_2.
  - unfold timers. cbn. rewrite size_difference by done.
    rewrite tq_size0, size_list_to_set, Heq.
    + rewrite length_app, length_fmap. lia.
    + apply NoDup_app in Hnd2 as (Hnd1 & _). apply (NoDup_fmap_1 fst).
      rewrite <- list_fmap_compose. exact Hnd1.
Qed.

Lemma getExpired_wp P w now Q : tq_ok [] P w ->
  (∀ l1 l2, timers w = l1 ++ l2 ->
     Forall (λ e, microSecondsSinceEpoch e.1 <= microSecondsSinceEpoch now) l1 ->
     Forall (λ e, microSecondsSinceEpoch now < microSecondsSinceEpoch e.1) l2 ->
     tq_ok l1 P (taken l1 l2 w) -> Q l1 (taken l1 l2 w)) ->
  wp (getExpired now) Q w.
Proof.
  intros Hok HQ. unfold getExpired. wp_simpl. apply wp_sizes; [apply Hok|]. wp_simpl.
  pose proof (split_lower_spec now _ (tq_sorted _ _ _ Hok)) as Hsp.
  unfold timers in Hsp. destruct (split_lower _ _) as [l1 l2]. destruct Hsp as (Heq & H1 & H2).
  pose proof (taken_ok P w l1 l2 Hok Heq) as Hok'.
  wp_simpl. split.
  { destruct l2; [done|]. apply Forall_cons in H2 as [? _]. by apply ts_ltb_spec. }
  unfold on_queue. wp_simpl.
  set (st := λ done, {| w with tqueue := {| (tqueue w) with timers_ := l2;
       activeTimers_ := activeTimers_ (tqueue w) ∖ list_to_set (tkey w <$> done) |} |}).
  eapply wp_mono.
  - apply (wp_for_each (λ done s, s = st done)).
    + unfold st. cbn. by rewrite difference_empty_L.
    + intros don x rest s Hl ->. wp_simpl.
      destruct (tkey_active [] P w x Hok) as (Hact & t & Ht & Hk).
      { unfold timers. rewrite Heq, Hl, <- app_assoc. set_solver. }
      apply wp_tderef with (t := t); [done|]. wp_simpl. rewrite <- Hk. split.
      * apply bool_decide_true. apply elem_of_difference. split; [done|].
        rewrite elem_of_list_to_set, list_elem_of_fmap. intros (y & Hy & Hin).
        pose proof (tq_nodup _ _ _ Hok) as Hnd. rewrite app_nil_r in Hnd.
        unfold timers in Hnd. rewrite Heq, Hl, !fmap_app, <- !app_assoc in Hnd.
        apply NoDup_app in Hnd as (_ & Hd & _). apply (Hd y.2); [by apply list_elem_of_fmap_2|].
        apply (f_equal fst) in Hy. cbn in Hy. rewrite <- Hy. cbn. by left.
      * assert (Hset : ∀ X : gset (addr * Z),
          X ∖ list_to_set (tkey w <$> don) ∖ {[tkey w x]}
          = X ∖ list_to_set (tkey w <$> (don ++ [x]))).
        { intros X. rewrite fmap_app, list_to_set_app_L. cbn. set_solver. }
        unfold st. cbn. by rewrite Hset.
  - intros [] s ->. wp_simpl. apply wp_sizes; [exact (tq_size _ _ _ Hok')|]. by apply HQ.
Qed.

(** ** Re-arming *)

(** A timer in flight is about to be inserted again, or is freed. *)
Lemma flight_restart_ok e E P w t t' : tq_ok (e :: E) P w -> theap w !! e.2 = Some t ->
  sequence_ t' = sequence_ t -> repeat_ t' = double_pos (interval_ t') ->
  tq_ok E (e.2 :: P) {| w with theap := <[e.2 := t']> (theap w) |}.
Proof.
  intros [] Ht Hs Hwf.
  assert (Hperm : (timers w ++ E).*2 ++ e.2 :: P ≡ₚ (timers w ++ e :: E).*2 ++ P).
  { rewrite <- !Permutation_middle. cbn. done. }
  assert (Hnin : e.2 ∉ (timers w ++ E).*2).
  { rewrite <- Hperm, <- Permutation_middle in tq_nodup0.
    apply NoDup_cons in tq_nodup0 as [Hn _]. intros ?. apply Hn, elem_of_app. by left. }
  split; cbn; try done.
  - change (Forall (live {| w with theap := <[e.2 := t']> (theap w) |}) (timers w ++ E)).
    rewrite <- Permutation_middle in tq_live0. apply Forall_cons in tq_live0 as [_ Hl].
    rewrite Forall_forall in Hl |- *. intros f Hf. destruct (Hl f Hf) as (u & Hu & ?).
    exists u. cbn. rewrite lookup_insert_ne; [done|]. intros Heq. apply Hnin. rewrite Heq.
    by apply list_elem_of_fmap_2.
  - intros a. change (timers _) with (timers w). rewrite Hperm, <- tq_heap0.
    destruct (decide (a = e.2)) as [->|].
    + rewrite lookup_insert_eq, Ht. split; eauto.
    + by rewrite lookup_insert_ne.
  - change (timers _) with (timers w). by rewrite Hperm.
  - intros a s. rewrite tq_active0. change (timers _) with (timers w).
    split; intros (u & Ha & Hu & Hsu); exists u; (split_and!; [done| |done]);
      (rewrite lookup_insert_ne in *; [done|]); intros <-; apply Hnin; rewrite fmap_app;
      apply elem_of_app; by left.
  - intros a u Hu. apply lookup_insert_Some in Hu as [[_ <-]|[_ Hu]]; eauto.
Qed.

Lemma flight_delete_ok e E P w : tq_ok (e :: E) P w ->
  tq_ok E P {| w with theap := delete e.2 (theap w) |}.
Proof.
  intros [].
  assert (Hperm : (timers w ++ e :: E).*2 ++ P ≡ₚ e.2 :: ((timers w ++ E).*2 ++ P)).
  { rewrite <- Permutation_middle. done. }
  rewrite Hperm in tq_nodup0. apply NoDup_cons in tq_nodup0 as [Hnin Hnd].
  assert (Hne : ∀ a, a ∈ (timers w ++ E).*2 ++ P -> e.2 ≠ a) by by intros a Ha <-.
  split; cbn; try done.
  - change (Forall (live {| w with theap := delete e.2 (theap w) |}) (timers w ++ E)).
    rewrite <- Permutation_middle in tq_live0. apply Forall_cons in tq_live0 as [_ Hl].
    rewrite Forall_forall in Hl |- *. intros f Hf. destruct (Hl f Hf) as (u & Hu & ?).
    exists u. cbn. rewrite lookup_delete_ne; [done|]. apply Hne, elem_of_app. left.
    by apply list_elem_of_fmap_2.
  - intros a. change (timers _) with (timers w). destruct (decide (a = e.2)) as [->|].
    + rewrite lookup_delete_eq. split; [by intros []|done].
    + rewrite lookup_delete_ne, tq_heap0, Hperm, elem_of_cons by done. naive_solver.
  - intros a s. rewrite tq_active0. change (timers _) with (timers w).
    split; intros (u & Ha & Hu & Hsu); exists u; (split_and!; [done| |done]).
    + rewrite lookup_delete_ne; [done|]. apply Hne. rewrite fmap_app. set_solver.
    + by apply lookup_delete_Some in Hu as [_ ?].
  - intros a u Hu. apply lookup_delete_Some in Hu as [_ Hu]. eauto.
Qed.

(** The body of the loop of [reset]. *)
Definition reset_body (now : Timestamp) (it : Entry) : M (TimerWorld (U := U)) unit :=
  t ← tderef it.2;
  q ← gets tqueue;
  if repeat_ t && bool_decide ((it.2, sequence_ t) ∉ cancelingTimers_ q) then
    tset it.2 (restart now t) ;;;
    _ ← insert it.2; mret tt
  else tdelete it.2.

(** The fate of an expired timer: re-armed or freed. *)
Definition rearms w (a : addr) : option Timer :=
  t ← theap w !! a;
  if repeat_ t && bool_decide ((a, sequence_ t) ∉ cancelingTimers_ (tqueue w)) then Some t else None.

Record after_reset (now : Timestamp) E P w w' : Prop := {
  ar_ok : tq_ok [] P w';
  ar_timers : timers w' ≡ₚ
    omap (λ e, (λ t, (addTime now (interval_ t), e.2)) <$> rearms w e.2) E ++ timers w;
  ar_heap : ∀ a, theap w' !! a =
    if decide (a ∈ E.*2) then restart now <$> rearms w a else theap w !! a;
  ar_kernel : tkernel w' = tkernel w;
  ar_canceling : cancelingTimers_ (tqueue w') = cancelingTimers_ (tqueue w);
  ar_calling : callingExpiredTimers_ (tqueue w') = callingExpiredTimers_ (tqueue w);
  ar_user : user w' = user w;
  ar_head : head_invalid w' -> head_invalid w;
}.

Lemma restart_expiration now (t : Timer) : repeat_ t = true ->
  expiration_ (restart now t) = addTime now (interval_ t).
Proof. unfold restart. cbn. by intros ->. Qed.

Lemma addTime_valid now s : ts_valid now = true -> double_pos s = true ->
  ts_valid (addTime now s) = true.
Proof.
  intros Hv Hs. apply ts_valid_spec in Hv. apply ts_valid_spec.
  pose proof (addTime_later now s Hs). lia.
Qed.

Lemma reset_loop_wp now E P w : ts_valid now = true -> tq_ok E P w ->
  wp (for_each E (reset_body now)) (λ _ w', after_reset now E P w w') w.
Proof.
  intros Hnow. revert P w. induction E as [|e E IH]; intros P w Hok; cbn [for_each].
  { wp_simpl. by split. }
  rewrite wp_bind.
  destruct (proj2 (tq_heap _ _ _ Hok e.2)) as [t Ht].
  { rewrite fmap_app. set_solver. }
  assert (Hnin : e.2 ∉ E.*2).
  { pose proof (tq_nodup _ _ _ Hok) as Hnd. apply NoDup_app in Hnd as (Hnd & _).
    rewrite fmap_app in Hnd. apply NoDup_app in Hnd as (_ & _ & Hnd). cbn in Hnd.
    by apply NoDup_cons in Hnd as [? _]. }
  unfold reset_body. wp_simpl. apply wp_tderef with (t := t); [done|]. wp_simpl.
  assert (Hre : rearms w e.2 = if repeat_ t && bool_decide ((e.2, sequence_ t)
      ∉ cancelingTimers_ (tqueue w)) then Some t else None) by by unfold rearms; rewrite Ht.
  destruct (repeat_ t && _) eqn:Er.
  - apply andb_prop in Er as [Er _]. pose proof (tq_wf _ _ _ Hok _ _ Ht) as Hwf.
    pose proof (flight_restart_ok e E P w t (restart now t) Hok Ht eq_refl Hwf) as Hok1.
    unfold tset. wp_simpl.
    eapply (insert_wp E P _ e.2 (restart now t)); [exact Hok1|apply lookup_insert_eq|].
    intros l' Hok2 Hp Hhd. wp_simpl. eapply wp_mono; [apply (IH P _ Hok2)|].
    intros [] w' []. rewrite restart_expiration in * by done.
    change (timers {| w with theap := <[e.2 := restart now t]> (theap w) |}) with (timers w) in *.
    assert (Hrearms : ∀ a, a ∈ E.*2 ->
      rearms (inserted e.2 (restart now t) l'
        {| w with theap := <[e.2 := restart now t]> (theap w) |}) a = rearms w a).
    { intros a Ha. unfold rearms. cbn. rewrite lookup_insert_ne; [done|]. by intros <-. }
    split; try done.
    + rewrite ar_timers0. change (timers (inserted _ _ l' _)) with l'. rewrite Hp. cbn.
      rewrite Hre. cbn. rewrite <- Permutation_middle.
      rewrite (list_omap_ext_in _ (λ e, (λ t, (addTime now (interval_ t), e.2)) <$> rearms w e.2) E);
        [done|].
      intros f Hf. rewrite Hrearms; [done|]. by apply list_elem_of_fmap_2.
    + intros a. rewrite ar_heap0. cbn. destruct (decide (a = e.2)) as [->|Ha].
      * rewrite decide_False, lookup_insert_eq, decide_True by set_solver. by rewrite Hre.
      * rewrite lookup_insert_ne by done. destruct (decide (a ∈ E.*2)) as [HE|HE].
        -- rewrite decide_True, Hrearms by set_solver. done.
        -- rewrite decide_False by set_solver. done.
    + intros Hinv. destruct (ar_head0 Hinv) as (f & Hf & Hv).
      change (timers (inserted _ _ l' _)) with l' in Hf. rewrite Hhd in Hf.
      assert (Hval : ts_valid (addTime now (interval_ t)) = true)
        by (apply addTime_valid; [done|congruence]).
      destruct (timers w) as [|g l] eqn:El; cbn in Hf.
      * simplify_eq. cbn in Hv. congruence.
      * exists g. split; [by rewrite El|]. repeat case_match; simplify_eq; cbn in Hv; congruence.
  - unfold tdelete. wp_simpl. apply wp_tderef with (t := t); [done|]. wp_simpl.
    pose proof (flight_delete_ok e E P w Hok) as Hok2.
    eapply wp_mono; [apply (IH P _ Hok2)|]. intros [] w' [].
    assert (Hrearms : ∀ a, a ∈ E.*2 ->
      rearms {| w with theap := delete e.2 (theap w) |} a = rearms w a).
    { intros a Ha. unfold rearms. cbn. rewrite lookup_delete_ne; [done|]. by intros <-. }
    split; try done.
    + rewrite ar_timers0. change (timers _) with (timers w) at 2. cbn. rewrite Hre. cbn.
      rewrite (list_omap_ext_in _ (λ e, (λ t, (addTime now (interval_ t), e.2)) <$> rearms w e.2) E);
        [done|].
      intros f Hf. rewrite Hrearms; [done|]. by apply list_elem_of_fmap_2.
    + intros a. rewrite ar_heap0. cbn. destruct (decide (a = e.2)) as [->|Ha].
      * rewrite decide_False, lookup_delete_eq, decide_True by set_solver. by rewrite Hre.
      * rewrite lookup_delete_ne by done. destruct (decide (a ∈ E.*2)) as [HE|HE].
        -- rewrite decide_True, Hrearms by set_solver. done.
        -- rewrite decide_False by set_solver. done.
Qed.

Lemma reset_wp now E P w Q : ts_valid now = true -> tq_ok E P w ->
  (head_invalid w -> armed w) ->
  (∀ w1 k, after_reset now E P w w1 ->
     (timers w1 ≠ [] -> is_Some (tk_armed k)) ->
     tk_clock (tkernel w) <= tk_clock k -> Q tt {| w1 with tkernel := k |}) ->
  wp (reset E now) Q w.
Proof.
  intros Hnow Hok Hinv HQ. unfold reset. rewrite wp_bind.
  eapply wp_mono; [apply (reset_loop_wp now E P w Hnow Hok)|]. intros [] w1 Har.
  pose proof (ar_ok _ _ _ _ _ Har) as Hok1. wp_simpl. fold (timers w1).
  pose proof (ar_kernel _ _ _ _ _ Har) as Hkern.
  assert (Hself : ∀ w2 : TimerWorld (U := U), {| w2 with tkernel := tkernel w2 |} = w2) by by intros [].
  destruct (timers w1) as [|e l] eqn:El; wp_simpl.
  - destruct (ts_valid ts_invalid).
    + apply resetTimerfd_wp. intros k Hk. pose proof (ra_clock _ _ _ Hk). rewrite Hkern in *. by apply HQ.
    + rewrite <- (Hself w1). apply HQ; [done|by rewrite El|by rewrite Hkern].
  - destruct (Forall_inv (A := Entry) (P := live w1) (a := e) (l := l)) as (t & Ht & Hx).
    { pose proof (tq_live _ _ _ Hok1) as Hl. by rewrite app_nil_r, El in Hl. }
    apply wp_tderef with (t := t); [done|]. wp_simpl. rewrite Hx.
    destruct (ts_valid e.1) eqn:Ev.
    + apply resetTimerfd_wp. intros k Hk. pose proof (ra_clock _ _ _ Hk). rewrite Hkern in *.
      apply HQ; [done| |done]. intros _. by eapply rearmed_armed.
    + rewrite <- (Hself w1). apply HQ; [done| |by rewrite Hkern]. intros _.
      rewrite Hkern. apply Hinv, (ar_head _ _ _ _ _ Har).
      exists e. by rewrite El.
Qed.

(** ** Callbacks

    What a callback may do: its own computation, and calls of the public
    functions of the queue, made in the loop thread. *)
Inductive api : ∀ {A}, M (TimerWorld (U := U)) A -> Prop :=
  | api_ret {A} (x : A) : api (mret x)
  | api_bind {A B} (m : M (TimerWorld (U := U)) A) (k : A -> M TimerWorld B) :
      api m -> (∀ x, api (k x)) -> api (m ≫= k)
  | api_user (f : U -> U) : api (modify (λ w, {| w with user := f (user w) |}))
  | api_read {A} (f : U -> A) : api (gets (λ w, f (user w)))
  | api_add cb when interval : api (addTimer (λ m, m) cb when interval)
  | api_cancel id : api (cancel (λ m, m) id)
  | api_now : api (on_kernel tk_now).

Lemma api_wp {A} (m : M TimerWorld A) : api m -> ∀ E P w, tq_ok E P w ->
  wp m (λ _ w', api_step E P w w') w.
Proof.
  induction 1 as [A x|A B m k Hm IHm Hk IHk|f|A f|cb when interval|id|]; intros E P w Hok.
  - wp_simpl. by apply api_step_refl.
  - rewrite wp_bind. eapply wp_mono; [by apply IHm|]. intros x w1 H1.
    eapply wp_mono; [apply IHk, (as_ok _ _ _ _ H1)|]. intros b w2 H2.
    exact (api_step_trans E P P w w1 w2 H1 H2).
  - wp_simpl. split; try done. by apply (tq_ok_ext E P w).
  - wp_simpl. by apply api_step_refl.
  - apply (addTimer_wp E P w cb when interval); [done|]. by intros.
  - apply (cancelInLoop_wp E P w id); [done|]. by intros.
  - unfold wp, on_kernel. destruct (tk_now (tkernel w)) as [t k] eqn:Hk.
    destruct (now_law _ _ _ Hk) as (_ & Hck & Har). unfold armed in *.
    split; try done; unfold armed; cbn; rewrite ?Har; try done. by apply (tq_ok_ext E P w).
Qed.

(** The functions of [EventLoop] for timers, called in its thread. *)
Lemma runAt_api time cb : api (runAt (λ m, m) time cb).
Proof. apply api_add. Qed.

Lemma runAfter_api delay cb : api (runAfter (λ m, m) delay cb).
Proof. apply api_bind; [apply api_now|]. intros now. apply runAt_api. Qed.

Lemma runEvery_api interval cb : api (runEvery (λ m, m) interval cb).
Proof. apply api_bind; [apply api_now|]. intros now. apply api_add. Qed.

Lemma callbacks_wp run E P l w : (∀ f, api (run f)) -> tq_ok E P w -> l ⊆ E ->
  wp (for_each l (λ it, t ← tderef it.2; run (callback_ t)))
    (λ _ w', api_step E P w w'
       ∧ for_each (omap (λ e : Entry, callback_ <$> theap w !! e.2) l) run w = Ok (tt, w')) w.
Proof.
  intros Hrun. revert w. induction l as [|e l IH]; intros w Hok Hsub; cbn [for_each].
  { wp_simpl. split; [by apply api_step_refl|done]. }
  assert (HeE : e.2 ∈ E.*2) by (apply list_elem_of_fmap_2, Hsub; by left).
  destruct (proj2 (tq_heap _ _ _ Hok e.2)) as [t Ht].
  { rewrite fmap_app. set_solver. }
  rewrite !wp_bind. apply wp_tderef with (t := t); [done|].
  destruct (proj1 (wp_ok _ _ _) (api_wp _ (Hrun (callback_ t)) E P w Hok)) as ([] & w1 & Hr & Hst).
  eapply wp_intro; [exact Hr|].
  eapply wp_mono; [apply (IH w1); [apply (as_ok _ _ _ _ Hst)|set_solver]|].
  intros [] w2 [Hst2 Heq]. split; [by eapply api_step_trans|].
  assert (Homap : omap (λ e : Entry, callback_ <$> theap w !! e.2) l
                  = omap (λ e : Entry, callback_ <$> theap w1 !! e.2) l).
  { apply list_omap_ext_in. intros f Hf.
    by rewrite (as_flight _ _ _ _ Hst) by (apply list_elem_of_fmap_2; set_solver). }
  rewrite <- Homap in Heq. cbn. rewrite Ht. cbn. by rewrite (bind_ok _ _ _ _ _ Hr).
Qed.

(** The three stages of [handleRead]. *)
Record expiry (run : Closure -> M TimerWorld unit) P w w' (now : Timestamp)
    (expired rest : list Entry) (w1 w2 : TimerWorld) : Prop := {
  ex_now : microSecondsSinceEpoch now = tk_clock (tkernel w);
  ex_split : timers w = expired ++ rest;
  ex_due : Forall (λ e, microSecondsSinceEpoch e.1 <= microSecondsSinceEpoch now) expired;
  ex_later : Forall (λ e, microSecondsSinceEpoch now < microSecondsSinceEpoch e.1) rest;
  ex_start : timers w1 = rest ∧ theap w1 = theap w ∧ user w1 = user w
    ∧ callingExpiredTimers_ (tqueue w1) = true ∧ cancelingTimers_ (tqueue w1) = ∅;
  ex_run : for_each (omap (λ e : Entry, callback_ <$> theap w !! e.2) expired) run w1 = Ok (tt, w2);
  ex_flight : ∀ a, a ∈ expired.*2 -> theap w2 !! a = theap w !! a;
  ex_timers : timers w' ≡ₚ
    omap (λ e, (λ t, (addTime now (interval_ t), e.2)) <$> rearms w2 e.2) expired ++ timers w2;
  ex_heap : ∀ a, theap w' !! a =
    if decide (a ∈ expired.*2) then restart now <$> rearms w2 a else theap w2 !! a;
  ex_end : callingExpiredTimers_ (tqueue w') = false;
  ex_clock : tk_clock (tkernel w) <= tk_clock (tkernel w');
}.

Lemma handleRead_wp run P w Q : (∀ f, api (run f)) -> tq_ok [] P w ->
  0 < tk_clock (tkernel w) ->
  (∀ w' now expired rest w1 w2, expiry run P w w' now expired rest w1 w2 ->
     tq_ok [] P w' -> (timers w' ≠ [] -> armed w') -> Q tt w') ->
  wp (handleRead run) Q w.
Proof.
  intros Hrun Hok Hclk HQ. unfold handleRead, on_kernel, readTimerfd, on_kernel. wp_simpl.
  apply wp_tassert; [apply Hok|]. wp_simpl. unfold wp at 1.
  destruct (tk_now (tkernel w)) as [now k1] eqn:E1. destruct (now_law _ _ _ E1) as (Hnow & Hc1 & _).
  wp_simpl. unfold wp at 1. cbn [tkernel]. destruct (timerfd_read k1) as [n k2] eqn:E2.
  pose proof (read_law _ _ _ E2) as Hc2.
  wp_simpl. set (wr := {| w with tkernel := k2 |}).
  assert (Hokr : tq_ok [] P wr) by by apply (tq_ok_ext [] P w).
  apply (getExpired_wp P); [exact Hokr|]. intros l1 l2 Heq Hdue Hlater Hokt.
  unfold on_queue. wp_simpl.
  set (w1 := mkTimerWorld _ _ _ _ _ _).
  assert (Hok1 : tq_ok l1 P w1) by by apply (tq_ok_ext l1 P (taken l1 l2 wr)).
  eapply wp_mono; [apply (callbacks_wp run l1 P l1 w1 Hrun Hok1); done|].
  intros [] w2 [Hst Hcb]. wp_simpl.
  set (w2' := mkTimerWorld _ _ _ _ _ _).
  assert (Hok2 : tq_ok l1 P w2') by (apply (tq_ok_ext l1 P w2); [apply (as_ok _ _ _ _ Hst)|done..]).
  assert (Hv : ts_valid now = true) by (apply ts_valid_spec; lia).
  apply (reset_wp now l1 P w2' Q Hv Hok2).
  - change (head_invalid w2 -> armed w2). apply (as_head _ _ _ _ Hst).
    intros (e & He & Hve). exfalso. change (timers w1) with l2 in He.
    destruct l2; [done|]. injection He as ->. apply Forall_cons in Hlater as [Hl _].
    apply not_true_iff_false in Hve. apply Hve, ts_valid_spec. lia.
  - intros w3 k Har Hk Hck. apply (HQ _ now l1 l2 w1 w2); [| |done];
      [|by apply (tq_ok_ext [] P w3); [apply (ar_ok _ _ _ _ _ Har)|..]].
    split; try done.
    + apply (as_flight _ _ _ _ Hst).
    + apply (ar_timers _ _ _ _ _ Har).
    + apply (ar_heap _ _ _ _ _ Har).
    + apply (ar_calling _ _ _ _ _ Har).
    + pose proof (as_clock _ _ _ _ Hst) as Hc3. cbn in Hc3, Hck |- *. lia.
Qed.
End queue.

(** ** The properties *)

(** What happens to a queue: user code runs in the loop thread, the descriptor has
    become readable, the loop runs a functor, or another thread adds or cancels a
    timer. *)
Inductive tq_event {BT : BaseTime} {CL : Closures} {TF : Timerfd} {AL : Allocator} {U : Type} :=
  | UserCode (m : M (TimerWorld (U := U)) unit)
  | Alarm
  | Functor
  | OtherAdd (cb : Closure) (when : Timestamp) (interval : double)
  | OtherCancel (id : TimerId).

Section safety.
#[local] Set Default Proof Using "Type*".
Context {BT : BaseTime} {BL : BaseTimeLaws BT} {CL : Closures} {TF : Timerfd} {TL : TimerfdLaws TF}
        {AL : Allocator} {U : Type}.
Implicit Types (w : TimerWorld (U := U)) (v : TimerLoop (U := U)).

Definition run_event (run : Closure -> M TimerWorld unit) (ev : tq_event (U := U)) : M TimerLoop unit :=
  match ev with
  | UserCode m => zoom twL m
  | Alarm => zoom twL (handleRead run)
  | Functor => run_timer_functor
  | OtherAdd cb when interval => _ ← addTimer_other cb when interval; mret tt
  | OtherCancel id => cancel_other id
  end.

Definition fresh_timers (k : TK) (u : U) : TimerLoop :=
  mkTimerLoop (mkTimerWorld ∅ 0 TimerQueue_ctor k true u) [].

Definition uses_api (ev : tq_event (U := U)) : Prop :=
  match ev with UserCode m => api m | _ => True end.

(** The timers whose insertion is queued. *)
Definition coming v : list addr :=
  omap (λ f, match f with FAddTimer a => Some a | FCancel _ => None end) (tfunctors v).

Record tl_ok v : Prop := {
  tl_queue : tq_ok [] (coming v) (tw v);
  tl_clock : 0 < tk_clock (tkernel (tw v));
  tl_armed : timers (tw v) ≠ [] -> armed (tw v);
}.

Lemma tl_step v v' : tl_ok v -> api_step [] (coming v') (tw v) (tw v') -> tl_ok v'.
Proof. intros [_ Hc Ha] []. split; [done|lia|auto]. Qed.

Lemma addTimer_other_wp cb when interval v : tl_ok v ->
  wp (addTimer_other cb when interval) (λ _ v', tl_ok v') v.
Proof.
  intros [Hok Hc Ha]. unfold addTimer_other, addTimer_start, addTimer_new, queue_functor, addTimer_id, tset. wp_simpl.
  apply wp_tderef with (t := Timer_ctor cb when interval (s64 (s_numCreated_ (tw v) + 1)));
    [apply lookup_insert_eq|].
  wp_simpl. set (a := malloc _). assert (Hf : theap (tw v) !! a = None) by (apply not_elem_of_dom, malloc_fresh).
  split; [|done..]. unfold coming. cbn. rewrite omap_app. cbn. fold (coming v).
  eapply tq_ok_perm; [done|apply Permutation_cons_append|by apply tset_new_ok].
Qed.

Lemma run_timer_functor_wp v : tl_ok v -> wp run_timer_functor (λ _ v', tl_ok v') v.
Proof.
  intros Hv. pose proof Hv as [Hok Hc Ha]. unfold run_timer_functor, coming in *. wp_simpl.
  destruct (tfunctors v) as [|[a|id] fs] eqn:E; cbn in Hok; wp_simpl; [done| |].
  - destruct (proj2 (tq_heap _ _ _ Hok a)) as [t Ht]; [set_solver|].
    eapply addTimerInLoop_wp; [exact Hok|exact Ht|]. intros w' Hst _ _ _ _ _ _. by apply (tl_step v).
  - eapply cancelInLoop_wp; [exact Hok|]. intros w' Hst _ _. by apply (tl_step v).
Qed.

Lemma run_event_ok run ev v : (∀ f, api (run f)) -> uses_api ev -> tl_ok v ->
  wp (run_event run ev) (λ _ v', tl_ok v') v.
Proof.
  intros Hrun Hev Hv. pose proof Hv as [Hok Hc Ha]. destruct ev as [m| | |cb when interval|id]; cbn [run_event].
  - wp_simpl. eapply wp_mono; [by apply api_wp|]. intros [] w' Hst. by apply (tl_step v).
  - wp_simpl. apply (handleRead_wp run (coming v)); [done..|]. intros w' now ? ? ? ? Hex Hok' Harm'.
    pose proof (ex_clock _ _ _ _ _ _ _ _ _ Hex). split; [done|cbn; lia|done].
  - by apply run_timer_functor_wp.
  - wp_simpl. eapply wp_mono; [by apply addTimer_other_wp|]. intros a v' H. by wp_simpl.
  - unfold cancel_other, queue_functor. wp_simpl. split; [|done..]. unfold coming. cbn. rewrite omap_app. cbn.
    by rewrite app_nil_r.
Qed.
End safety.

(** C4: The timer queue is safe and forgets no timer.  Take any sequence of user code
    in the loop thread (runAt, runAfter, runEvery and cancel, with any identifiers),
    of alarms, of calls of addTimer and cancel by other threads, and of runs of the
    functors that these have queued, where the callbacks use the same functions.
    Nothing fails: no assertion, no use of a freed timer.  In between, the two sets
    agree, every timer object is in the queue or waits in a functor to be inserted,
    which it is then (none leaks), and while the queue is not empty the descriptor is
    armed.  The calls of other threads happen between the steps of the loop: that
    addTimer reads the new timer once more before it returns, perhaps after the
    loop has freed it, is the example [addTimer_reads_freed]. *)
Theorem timer_queue_safe {BT : BaseTime} {BL : BaseTimeLaws BT} {CL : Closures} {TF : Timerfd}
    {TL : TimerfdLaws TF} {AL : Allocator} {U : Type} (run : Closure -> M TimerWorld unit)
    (events : list tq_event) (k : TK) (u : U) :
  (∀ f, api (run f)) -> Forall uses_api events -> 0 < tk_clock k ->
  wp (for_each events (run_event run)) (λ _ v,
    tq_ok [] (coming v) (tw v)
    ∧ dom (theap (tw v)) = list_to_set (timers (tw v)).*2 ∪ list_to_set (coming v)
    ∧ (timers (tw v) ≠ [] -> is_Some (tk_armed (tkernel (tw v))))) (fresh_timers k u).
Proof.
  intros Hrun Hev Hclk. eapply wp_mono.
  - apply (wp_for_each (λ _ v, tl_ok v)).
    + split; [|done|done]. split; try done; cbn; try by constructor.
      * intros a. rewrite lookup_empty. split; [by intros []|by intros ?%elem_of_nil].
      * intros a s. split; [set_solver|]. by intros (? & ?%elem_of_nil & _).
    + intros don ev rest v Hl Hv. rewrite Hl in Hev.
      apply Forall_app in Hev as [_ Hev]. apply Forall_cons in Hev as [Hev _]. by apply run_event_ok.
  - intros [] v [Hok _ Harm]. split_and!; [done| |done].
    apply set_eq. intros a. rewrite elem_of_dom, (tq_heap _ _ _ Hok), app_nil_r.
    by rewrite elem_of_union, elem_of_app, !elem_of_list_to_set.
Qed.

(** C26: Expiry.  When the descriptor becomes readable, exactly the timers due at
    the time read from the clock are taken out; their callbacks run in the
    order of their times, each once -- also those that a callback of the same
    batch cancels --; then a repeating timer that was not cancelled meanwhile
    is due again one interval after that time, and every other expired timer
    is freed.  The remaining timers stay unless callbacks change them. *)
Theorem handleRead_expires {BT : BaseTime} {BL : BaseTimeLaws BT} {CL : Closures} {TF : Timerfd}
    {TL : TimerfdLaws TF} {AL : Allocator} {U : Type} (run : Closure -> M TimerWorld unit)
    (w : TimerWorld (U := U)) :
  (∀ f, api (run f)) -> tq_ok [] [] w -> 0 < tk_clock (tkernel w) ->
  ∃ w', handleRead run w = Ok (tt, w')
    ∧ ∃ now expired rest w1 w2, expiry run [] w w' now expired rest w1 w2.
Proof.
  intros Hrun Hok Hclk.
  destruct (proj1 (wp_ok (handleRead run)
    (λ _ w', ∃ now expired rest w1 w2, expiry run [] w w' now expired rest w1 w2) w))
    as ([] & w' & Hr & Hex); [|eauto].
  apply (handleRead_wp run []); [done..|]. intros w' now l1 l2 w1 w2 Hex _ _.
  by exists now, l1, l2, w1, w2.
Qed.

(** Cancelling.  cancel() with the identifier of a timer in the queue removes
    that timer -- and only it -- and frees it.  With any other identifier --
    of a timer that has fired, was cancelled, or whose address is in use again
    by a younger timer -- the timers stay as they are; only while callbacks run
    is the identifier noted, which keeps an expired repeating timer from being
    re-armed. *)
Theorem cancel_removes {BT : BaseTime} {BL : BaseTimeLaws BT} {CL : Closures} {TF : Timerfd}
    {TL : TimerfdLaws TF} {AL : Allocator} {U : Type} (id : TimerId) (E : list Entry)
    (w : TimerWorld (U := U)) :
  tq_ok E [] w ->
  wp (cancel (λ m, m) id) (λ _ w', tq_ok E [] w' ∧
    match theap w !! timer_ id with
    | Some t =>
        if decide (sequence_ t = id_sequence_ id ∧ timer_ id ∈ (timers w).*2)
        then timers w ≡ₚ (expiration_ t, timer_ id) :: timers w'
             ∧ theap w' = delete (timer_ id) (theap w)
        else timers w' = timers w ∧ theap w' = theap w
             ∧ (callingExpiredTimers_ (tqueue w) = true ->
                repeat_ t = true -> sequence_ t = id_sequence_ id ->
                rearms w' (timer_ id) = None)
    | None => timers w' = timers w ∧ theap w' = theap w
    end) w.
Proof.
  intros Hok. apply (cancelInLoop_wp E [] w id); [done|]. intros w' Hst _ Hw'.
  split; [apply (as_ok _ _ _ _ Hst)|].
  assert (Hact : (timer_ id, id_sequence_ id) ∈ activeTimers_ (tqueue w) ↔
    ∃ t, theap w !! timer_ id = Some t ∧ sequence_ t = id_sequence_ id
         ∧ timer_ id ∈ (timers w).*2).
  { rewrite (tq_active _ _ _ Hok). naive_solver. }
  case_bool_decide as Hd.
  - apply Hact in Hd as (t & Ht & Hs & Hin). rewrite Ht, decide_True by done.
    destruct Hw' as (t' & Ht' & _ & Hp & Hh & _). by simplify_eq.
  - destruct Hw' as (Htm & Hh & _ & Hcan).
    destruct (theap w !! timer_ id) as [t|] eqn:Ht; [|done].
    rewrite decide_False; [|intros [? ?]; apply Hd, Hact; eauto].
    split_and!; [done..|]. intros Hcall Hrep Hs. unfold rearms. rewrite Hh, Ht. cbn.
    rewrite bool_decide_false; [by rewrite andb_false_r|].
    rewrite Hcan, Hcall, Hs. set_solver.
Qed.

(** The deadline.  resetTimerfd(when) always arms the descriptor, with a
    well-formed relative time -- never zero, which would disarm it -- of the
    distance from the clock reading to [when], or 100 microseconds if that is
    less: for a [when] at least 100 microseconds ahead the descriptor does not
    fire before [when], and late by at most the time between reading the clock
    and the system call. *)
Theorem resetTimerfd_deadline {BT : BaseTime} {BL : BaseTimeLaws BT} {CL : Closures}
    {TF : Timerfd} {TL : TimerfdLaws TF} {U : Type} (when : Timestamp)
    (w : TimerWorld (U := U)) :
  let dist := microSecondsSinceEpoch when - tk_clock (tkernel w) in
  - 2 ^ 63 <= dist < 2 ^ 63 ->
  wp (resetTimerfd when) (λ _ w', ∃ d, tk_armed (tkernel w') = Some d
    ∧ tk_clock (tkernel w) + 100 <= d
    ∧ (if 100 <=? dist then microSecondsSinceEpoch when <= d
         <= microSecondsSinceEpoch when + (tk_clock (tkernel w') - tk_clock (tkernel w))
       else d <= tk_clock (tkernel w') + 100)) w.
Proof.
  intros dist Hdist. apply resetTimerfd_wp. intros k' [Hc (c & Hc1 & Hc2 & Ha)].
  cbn. eexists. split; [exact Ha|]. fold dist. rewrite wrap_s_id by lia.
  split; [lia|]. destruct (Z.leb_spec 100 dist); unfold dist in *; lia.
Qed.

(** ** Witnesses *)

(** A clock that advances by 3 microseconds per system call, and a timer. *)
Definition tiny_timerfd : @Timerfd micros := @Build_Timerfd micros (Z * option Z)
  (λ k, (tick (fst k), (fst k + 3, snd k)))
  (λ v k, (0, (fst k + 3, Some (fst k + 1000000 * tv_sec v + tv_nsec v `div` 1000))))
  (λ k, (8, (fst k + 3, snd k))) fst snd.

#[export] Instance tiny_timerfd_laws : TimerfdLaws tiny_timerfd.
Proof.
  constructor; cbn.
  - intros k t k' [= <- <-]. cbn. unfold tick. split_and!; try done. lia.
  - intros v k _ _ _. eexists. split; [done|]. cbn. split; [lia|done].
  - intros k n k' [= _ <-]. cbn. lia.
Qed.

Definition tiny_alloc : Allocator := {| malloc := fresh; malloc_fresh := is_fresh |}.

Abbreviation tiny_timers := (@TimerWorld micros demo_closures tiny_timerfd (list nat)).

(** Callback 7 cancels the timer at address 1, the others leave a trace. *)
Definition tiny_run (f : nat) : M tiny_timers unit :=
  modify (λ w, {| w with user := user w ++ [f] |}) ;;;
  (if (f =? 7)%nat
   then @cancel micros demo_closures tiny_timerfd (list nat) (λ m, m) (mkTimerId 1 1)
   else mret tt).

Lemma tiny_run_api f :
  @api micros demo_closures tiny_timerfd tiny_alloc (list nat) unit (tiny_run f).
Proof.
  unfold tiny_run. apply api_bind; [apply (api_user (λ l, l ++ [f]))|]. intros _.
  destruct (f =? 7)%nat; [apply api_cancel|apply api_ret].
Qed.

(** A repeating timer (address 1) and a one-shot one that cancels it, and one of
    another thread, whose functor runs after the alarm. *)
Definition tiny_events : list (@tq_event micros demo_closures tiny_timerfd tiny_alloc (list nat)) :=
  let add cb when i :=
    UserCode (_ ← @addTimer micros demo_closures tiny_timerfd tiny_alloc (list nat) (λ m, m)
                    cb (tick when) i; mret tt) in
  [add 5%nat 200 (whole 2); add 7%nat 205 no_interval;
   @OtherAdd micros demo_closures tiny_timerfd tiny_alloc (list nat) 6%nat (tick 4000) no_interval; Alarm; Functor].

Lemma tiny_events_api :
  Forall (@uses_api micros demo_closures tiny_timerfd tiny_alloc (list nat)) tiny_events.
Proof.
  repeat constructor; cbn; (apply api_bind; [apply api_add|intros; apply api_ret]).
Qed.

Definition tiny_start : @TimerLoop micros demo_closures tiny_timerfd (list nat) :=
  @fresh_timers micros demo_closures tiny_timerfd (list nat) (1000, None) [].

Lemma timer_queue_safe_witness :
  wp (for_each tiny_events (@run_event micros demo_closures tiny_timerfd tiny_alloc _ tiny_run))
     (λ _ v, tq_ok [] (coming v) (tw v)) tiny_start
  ∧ (match for_each tiny_events
           (@run_event micros demo_closures tiny_timerfd tiny_alloc _ tiny_run) tiny_start with
     | Ok (_, v) => Some (user (tw v), timers (tw v))
     | Fault _ => None end) = Some ([5%nat; 7%nat], [(tick 4000, 3%positive)]).
Proof.
  split; [|vm_compute; reflexivity].
  eapply wp_mono; [apply (@timer_queue_safe micros micros_laws demo_closures tiny_timerfd
    tiny_timerfd_laws tiny_alloc (list nat) tiny_run tiny_events (1000, None) [])|].
  - exact tiny_run_api.
  - exact tiny_events_api.
  - reflexivity.
  - intros [] v (H & _). exact H.
Defined.

(** Another thread has called addTimer and its functor is queued; before it reads
    [timer->sequence()], the loop inserts the timer, runs it and frees it. *)
Example addTimer_reads_freed :
  (a ← @addTimer_start micros demo_closures tiny_timerfd tiny_alloc (list nat) 5%nat (tick 200) no_interval;
   run_timer_functor ;;; zoom twL (@handleRead micros demo_closures tiny_timerfd (list nat) tiny_run) ;;;
   zoom twL (addTimer_id a)) tiny_start = Fault OutOfBounds.
Proof. vm_compute. reflexivity. Qed.

(** One repeating timer, due at time 150; the clock shows 1000. *)
Definition tiny_timer : @Timer micros demo_closures :=
  @Timer_ctor micros demo_closures 5%nat (tick 150) (whole 2) 1.
Definition tiny_queue : tiny_timers :=
  @mkTimerWorld micros demo_closures tiny_timerfd (list nat) {[1%positive := tiny_timer]} 1
    (@mkTimerQueue micros [(tick 150, 1%positive)] {[(1%positive, 1)]} false ∅) (1000, None) true [].

Lemma tiny_queue_ok : tq_ok [] [] tiny_queue.
Proof.
  split; cbn; try done.
  - repeat constructor.
  - repeat constructor. by exists tiny_timer.
  - intros a. rewrite lookup_singleton_is_Some, list_elem_of_singleton. done.
  - repeat constructor. by intros ?%elem_of_nil.
  - intros a s. rewrite elem_of_singleton. setoid_rewrite list_elem_of_singleton. split.
    + intros [= -> ->]. by exists tiny_timer.
    + intros (t & -> & Ht & <-). apply lookup_singleton_Some in Ht as [_ <-]. done.
  - intros a t Ht. apply lookup_singleton_Some in Ht as [_ <-]. done.
Qed.

Lemma handleRead_expires_witness :
  ∃ w', @handleRead micros demo_closures tiny_timerfd (list nat) tiny_run tiny_queue = Ok (tt, w')
    ∧ timers w' ≡ₚ [(tick 2001000, 1%positive)] ∧ user w' = [5%nat].
Proof.
  destruct (@handleRead_expires micros micros_laws demo_closures tiny_timerfd tiny_timerfd_laws
    tiny_alloc (list nat) tiny_run tiny_queue tiny_run_api tiny_queue_ok eq_refl)
    as (w' & Hr & now & expired & rest & w1 & w2 & _).
  exists w'. split; [exact Hr|].
  assert (Hv : match @handleRead micros demo_closures tiny_timerfd (list nat) tiny_run tiny_queue with
          | Ok (_, w') => Some (timers w', user w') | Fault _ => None end
          = Some ([(tick 2001000, 1%positive)], [5%nat])) by (vm_compute; reflexivity).
  rewrite Hr in Hv. injection Hv as H1 H2. split; [by rewrite H1|exact H2].
Defined.

Lemma cancel_removes_witness :
  wp (@cancel micros demo_closures tiny_timerfd (list nat) (λ m, m) (mkTimerId 1 1))
     (λ _ w', theap w' = ∅) tiny_queue.
Proof.
  eapply wp_mono; [apply (@cancel_removes micros micros_laws demo_closures tiny_timerfd
    tiny_timerfd_laws tiny_alloc (list nat) (mkTimerId 1 1) [] tiny_queue tiny_queue_ok)|].
  intros [] w' [_ H].
    change (theap tiny_queue !! timer_ (mkTimerId 1 1)) with (Some tiny_timer) in H.
    cbv beta iota in H. rewrite decide_True in H.
  - destruct H as [_ ->]. reflexivity.
  - split; [reflexivity|]. by left.
Defined.

Lemma resetTimerfd_deadline_witness :
  wp (@resetTimerfd micros demo_closures tiny_timerfd (list nat) (tick 5000)) (λ _ w', ∃ d, tk_armed (tkernel w') = Some d ∧ 5000 <= d)
     tiny_queue.
Proof.
  eapply wp_mono; [apply (@resetTimerfd_deadline micros micros_laws demo_closures tiny_timerfd
    tiny_timerfd_laws (list nat) (tick 5000) tiny_queue)|].
  - split; vm_compute; [discriminate|reflexivity].
  - intros [] w' (d & Hd & _ & H). exists d. split; [exact Hd|]. apply H.
Defined.
