(* ===== verification/Connector.v ===== *)
(** * Connector: connecting with retries (Connector.h, Connector.cc)

    A connector makes one non-blocking connection at a time; it watches the
    socket with a channel of its own until the outcome is known and then hands
    the descriptor over, or closes it and tries again later.  The loop is the
    interface [LoopOps]/[LoopSpec]; the socket calls work on the same world.

    Not modelled: the server's address, which is only passed on. *)

From Stdlib Require Import ZArith Lia.
From stdpp Require Import gmap list.
From S2P Require Import Prelude Bytes Base Channel.

Local Open Scope Z_scope.

Inductive States := kDisconnected | kConnecting | kConnected.

#[export] Instance States_eq_dec : EqDecision States.
Proof. solve_decision. Defined.

Definition kMaxRetryDelayMs : Z := 30 * 1000.
Definition kInitRetryDelayMs : Z := 500.

(** Linux's values of the errors the code tells apart. *)
Definition EINTR : Z := 4.
Definition EAGAIN : Z := 11.
Definition EADDRINUSE : Z := 98.
Definition EADDRNOTAVAIL : Z := 99.
Definition ENETUNREACH : Z := 101.
Definition EISCONN : Z := 106.
Definition ECONNREFUSED : Z := 111.
Definition EINPROGRESS : Z := 115.

(** The [case] labels of [connect]: the rest of the errors give up. *)
Definition under_way : list Z := [0; EINPROGRESS; EINTR; EISCONN].
Definition try_again : list Z := [EAGAIN; EADDRINUSE; EADDRNOTAVAIL; ECONNREFUSED; ENETUNREACH].

Inductive connector_closure := KHandleWrite | KHandleError.
#[export] Instance connector_closures : Closures := {| Closure := connector_closure |}.

(** The socket calls of Sockets.cc; [socks] are this process's client sockets. *)
Class ConnectOps (W : Type) := {
  (** [createNonblockingOrDie]: a failure stops the program. *)
  sock_create : W -> Z * W;
  (** [connect(fd, serverAddr_)]: 0 or the error. *)
  sock_connect : Z -> W -> Z * W;
  sock_close : Z -> W -> W;
  sock_error : Z -> W -> Z * W;
  sock_self : Z -> W -> bool;
  socks : W -> gset Z;
}.

Inductive cfunctor := KStartInLoop | KStopInLoop | KResetChannel.

#[export] Instance cfunctor_eq_dec : EqDecision cfunctor.
Proof. solve_decision. Defined.

Record Connector := mkConnector {
  connect_ : bool;
  state_ : States;
  channel_ : option addr;
  retryDelayMs_ : Z;
}.

Definition Connector_ctor : Connector := mkConnector false kDisconnected None kInitRetryDelayMs.

Section connector.
Context {BT : BaseTime} {W : Type} {LO : LoopOps W} {CO : ConnectOps W} {AL : Allocator}.

(** The connector in its loop: the functors it has queued, the delays in
    milliseconds of the timers it has set for [startInLoop], and the
    descriptors it has handed to [newConnectionCallback_]. *)
Record KWorld := mkKWorld {
  lw : W;
  connector : Connector;
  cqueue : list cfunctor;
  ctimers : list Z;
  delivered : list Z;
}.

Definition lwL : lens KWorld W := Lens lw (λ x w, {| w with lw := x |}).

Definition on_connector (f : Connector -> Connector) : M KWorld unit :=
  modify (λ w, {| w with connector := f (connector w) |}).
Definition setState (s : States) : M KWorld unit := on_connector (λ c, {| c with state_ := s |}).
Definition assertInLoopThread : M KWorld unit :=
  ok ← gets (λ w, loop_isInLoopThread (lw w)); if ok : bool then mret tt else failM FatalLog.
Definition queueInLoop (f : cfunctor) : M KWorld unit :=
  modify (λ w, {| w with cqueue := cqueue w ++ [f] |}).
Definition on_loop {A} (f : W -> A * W) : M KWorld A := λ w,
  let '(a, x) := f (lw w) in Ok (a, {| w with lw := x |}).

(** [~Connector()]. *)
Definition Connector_dtor : M KWorld unit :=
  assertS (λ w, bool_decide (channel_ (connector w) = None)).

(** The channel [connecting] makes. *)
Definition connector_channel (sockfd : Z) : Channel :=
  setErrorCallback KHandleError (setWriteCallback KHandleWrite (Channel_ctor sockfd)).

(** A connector that has just been made. *)
Definition new_connector (x : W) : KWorld := mkKWorld x Connector_ctor [] [] [].

Definition connecting (sockfd : Z) : M KWorld unit :=
  setState kConnecting ;;;
  assertS (λ w, bool_decide (channel_ (connector w) = None)) ;;;
  p ← gets (λ w, malloc (dom (view heapL (lw w))));
  zoom lwL (modify (λ x, upd heapL (<[p := connector_channel sockfd]> (view heapL x)) x)) ;;;
  on_connector (λ c, {| c with channel_ := Some p |}) ;;;
  zoom lwL (enableWriting p).

(** Using [channel_] when it is null is a fault. *)
Definition the_channel_ : M KWorld addr :=
  liftR (λ w, match channel_ (connector w) with Some p => Ok p | None => Fault OutOfBounds end).

Definition removeAndResetChannel : M KWorld Z :=
  p ← the_channel_;
  zoom lwL (disableAll p) ;;;
  zoom lwL (remove p) ;;;
  c ← zoom lwL (deref p);
  queueInLoop KResetChannel ;;;
  mret (fd_ c).

Definition resetChannel : M KWorld unit :=
  c ← gets connector;
  match channel_ c with
  | None => mret tt
  | Some p => on_connector (λ c, {| c with channel_ := None |}) ;;; zoom lwL (Channel_dtor p)
  end.

Definition retry (sockfd : Z) : M KWorld unit :=
  on_loop (λ x, (tt, sock_close sockfd x)) ;;;
  setState kDisconnected ;;;
  c ← gets connector;
  whenM (connect_ c)
    (modify (λ w, {| w with ctimers := ctimers w ++ [retryDelayMs_ c] |}) ;;;
     on_connector (λ c, {| c with retryDelayMs_ := Z.min (s32 (retryDelayMs_ c * 2)) kMaxRetryDelayMs |})).

Definition connect : M KWorld unit :=
  sockfd ← on_loop sock_create;
  savedErrno ← on_loop (sock_connect sockfd);
  if bool_decide (savedErrno ∈ under_way) then connecting sockfd
  else if bool_decide (savedErrno ∈ try_again) then retry sockfd
  else on_loop (λ x, (tt, sock_close sockfd x)).

Definition startInLoop : M KWorld unit :=
  assertInLoopThread ;;;
  assertS (λ w, bool_decide (state_ (connector w) = kDisconnected)) ;;;
  c ← gets connector; whenM (connect_ c) connect.

Definition start : M KWorld unit :=
  on_connector (λ c, {| c with connect_ := true |}) ;;;
  here ← gets (λ w, loop_isInLoopThread (lw w));
  if here : bool then startInLoop else queueInLoop KStartInLoop.

Definition stopInLoop : M KWorld unit :=
  assertInLoopThread ;;;
  c ← gets connector;
  whenM (bool_decide (state_ c = kConnecting))
    (setState kDisconnected ;;; sockfd ← removeAndResetChannel; retry sockfd).

Definition stop : M KWorld unit :=
  on_connector (λ c, {| c with connect_ := false |}) ;;; queueInLoop KStopInLoop.

Definition restart : M KWorld unit :=
  assertInLoopThread ;;;
  setState kDisconnected ;;;
  on_connector (λ c, {| c with retryDelayMs_ := kInitRetryDelayMs |}) ;;;
  on_connector (λ c, {| c with connect_ := true |}) ;;;
  startInLoop.

Definition handleWrite : M KWorld unit :=
  c ← gets connector;
  if bool_decide (state_ c = kConnecting) then
    sockfd ← removeAndResetChannel;
    err ← on_loop (sock_error sockfd);
    if negb (err =? 0) then retry sockfd
    else
      self ← gets (λ w, sock_self sockfd (lw w));
      if self : bool then retry sockfd
      else
        setState kConnected ;;;
        c ← gets connector;
        if connect_ c then modify (λ w, {| w with delivered := delivered w ++ [sockfd] |})
        else on_loop (λ x, (tt, sock_close sockfd x))
  else assertS (λ w, bool_decide (state_ (connector w) = kDisconnected)).

Definition handleError : M KWorld unit :=
  c ← gets connector;
  whenM (bool_decide (state_ c = kConnecting))
    (sockfd ← removeAndResetChannel; _ ← on_loop (sock_error sockfd); retry sockfd).

Definition run_cfunctor (f : cfunctor) : M KWorld unit :=
  match f with
  | KStartInLoop => startInLoop
  | KStopInLoop => stopInLoop
  | KResetChannel => resetChannel
  end.

(** ** The connector in its loop *)
Definition k_heap : ChannelHeap KWorld :=
  {| heapL := Lens (λ w, view heapL (lw w)) (λ h w, {| w with lw := upd heapL h (lw w) |}) |}.

#[local] Instance k_loop : LoopOps KWorld := {|
  loop_heap := k_heap;
  loop_updateChannel := λ p, zoom lwL (loop_updateChannel p);
  loop_removeChannel := λ p, zoom lwL (loop_removeChannel p);
  loop_hasChannel := λ p w, loop_hasChannel p (lw w);
  loop_isInLoopThread := λ w, loop_isInLoopThread (lw w);
|}.

Definition run_kclosure (f : Closure) (t : Timestamp) : M KWorld unit :=
  match f : connector_closure with KHandleWrite => handleWrite | KHandleError => handleError end.

(** Calls of the user in the loop thread, events of the channel, functors and
    timers that the loop runs. *)
Inductive cevent :=
  | CStart | CStop | CRestart
  | CReady (revents : Z) (t : Timestamp)
  | CFunctor
  | CTimer (i : nat).

Definition cstep (e : cevent) : M KWorld unit :=
  match e with
  | CStart => start
  | CStop => stop
  | CRestart => restart
  | CReady revents t =>
      p ← the_channel_;
      zoom lwL (on_chan p (set_revents revents)) ;;;
      handleEventWithGuard run_kclosure p t
  | CFunctor =>
      q ← gets cqueue;
      match q with
      | [] => mret tt
      | f :: q' => modify (λ w, {| w with cqueue := q' |}) ;;; run_cfunctor f
      end
  | CTimer i =>
      ds ← gets ctimers;
      match ds !! i with
      | Some _ => modify (λ w, {| w with ctimers := delete i ds |}) ;;; startInLoop
      | None => mret tt
      end
  end.

(** The connector is started when it is idle, and restarted when it is not
    connecting; timers come later than the functors of the iteration that set
    them, and events only for a registered channel. *)
Definition idle (w : KWorld) : bool :=
  bool_decide (channel_ (connector w) = None) && bool_decide (ctimers w = []).

Definition cenabled (e : cevent) (w : KWorld) : bool :=
  match e with
  | CStart => idle w && bool_decide (state_ (connector w) = kDisconnected)
  | CRestart => idle w
  | CReady _ _ => bool_decide (state_ (connector w) = kConnecting)
  | CTimer _ => bool_decide (channel_ (connector w) = None)
  | CStop | CFunctor => true
  end.

Definition csession (es : list cevent) : M KWorld unit :=
  for_each es (λ e, w ← getS; whenM (cenabled e w) (cstep e)).
End connector.
