(* ===== verification/ConnectorProps.v ===== *)
(** * What a connector guarantees

    The invariant of [Connector.v], that it holds whatever happens to a connector
    that is used as documented, its back-off, and what goes wrong when it is
    started while the timer of a retry is pending. *)

From Stdlib Require Import ZArith Lia.
From stdpp Require Import gmap list.
From S2P Require Import Prelude Bytes Base Channel EPollPoller TinySockets Connector.

Local Open Scope Z_scope.

Class ConnectLaws W {LO : LoopOps W} {LS : LoopSpec W} {CO : ConnectOps W} := {
  create_law : ∀ (w : W) fd w', loop_ok w -> sock_create w = (fd, w') ->
    same_loop w w' ∧ (fd ∉ socks w) ∧ socks w' = {[fd]} ∪ socks w ∧ fd_open fd w' ∧ fd_free fd w'
    ∧ ∀ fd', fd_free fd' w -> fd_free fd' w';
  connect_law : ∀ fd (w : W) e w', loop_ok w -> sock_connect fd w = (e, w') ->
    same_loop w w' ∧ socks w' = socks w ∧ (fd_open fd w -> fd_open fd w')
    ∧ ∀ fd', fd_free fd' w -> fd_free fd' w';
  error_law : ∀ fd (w : W) e w', loop_ok w -> sock_error fd w = (e, w') ->
    same_loop w w' ∧ socks w' = socks w ∧ ∀ fd', fd_free fd' w -> fd_free fd' w';
  close_law : ∀ fd (w : W), loop_ok w -> fd_free fd w ->
    same_loop w (sock_close fd w) ∧ socks (sock_close fd w) = socks w ∖ {[fd]}
    ∧ (∀ fd', fd_free fd' w -> fd_free fd' (sock_close fd w))
    ∧ (∀ fd', fd' ≠ fd -> fd_open fd' w -> fd_open fd' (sock_close fd w));
  (** Channels and sockets are different things. *)
  socks_apart :: Apart socks;
}.

Section invariant.
#[local] Set Default Proof Using "All - removable".
Context {BT : BaseTime} {W : Type} {LO : LoopOps W} {LS : LoopSpec W} {CO : ConnectOps W}
        {KL : ConnectLaws W} {AL : Allocator}.
Implicit Types (w : KWorld (W := W)) (x : W).

(** Channels may be removed in their own callbacks and in functors, the only
    places where a connector removes its channel. *)
Context (removable : ∀ p x, loop_ok x -> can_remove p x).

Ltac fset_solver := clear removable; set_solver.

(** ** The invariant *)
Definition kslots (ch : Channel) : Prop :=
  readCallback_ ch = None ∧ writeCallback_ ch = Some KHandleWrite
  ∧ closeCallback_ ch = None ∧ errorCallback_ ch = Some KHandleError.

Definition kstate w : States := state_ (connector w).

(** [h] says whether the channel is in the middle of [handleEvent]. *)
Record channel_inv (h : bool) w (p : addr) (ch : Channel) : Prop := {
  ci_at : chan p (lw w) = Some ch;
  ci_slots : kslots ch;
  ci_handling : eventHandling_ ch = h;
  ci_live : kstate w = kConnecting -> is_Some (interest_of p (lw w)) ∧ fd_open (fd_ ch) (lw w)
    ∧ KResetChannel ∉ cqueue w;
  ci_dead : kstate w ≠ kConnecting -> interest_of p (lw w) = None ∧ addedToLoop_ ch = false
    ∧ ∃ q1 q2, cqueue w = q1 ++ KResetChannel :: q2 ∧ (KResetChannel ∉ q1) ∧ (KResetChannel ∉ q2);
}.

(** The descriptors that are open are the one being connected and those that
    were handed over. *)
Definition held w : gset Z :=
  match channel_ (connector w) with
  | Some p =>
      if bool_decide (kstate w = kConnecting)
      then match chan p (lw w) with Some ch => {[fd_ ch]} | None => ∅ end
      else ∅
  | None => ∅
  end.

Record kinv (h : bool) w : Prop := {
  k_ok : loop_ok (lw w);
  k_chan : match channel_ (connector w) with
           | Some p => ∃ ch, channel_inv h w p ch
           | None => kstate w ≠ kConnecting ∧ KResetChannel ∉ cqueue w
           end;
  k_socks : socks (lw w) = held w ∪ list_to_set (delivered w);
  k_held : ∀ fd, fd ∈ held w -> fd ∉ delivered w;
  k_nodup : NoDup (delivered w);
  k_free : ∀ fd, fd ∈ delivered w -> fd_free fd (lw w);
  k_timers : ctimers w = [] ∨ (∃ d, ctimers w = [d]) ∧ kstate w = kDisconnected;
  k_delay : kInitRetryDelayMs <= retryDelayMs_ (connector w) <= kMaxRetryDelayMs;
  k_delays : Forall (λ d, kInitRetryDelayMs <= d <= kMaxRetryDelayMs) (ctimers w);
  k_queue : KStartInLoop ∉ cqueue w;
}.

Lemma wp_on_loop {A} (f : W -> A * W) Q w :
  (∀ a x, f (lw w) = (a, x) -> Q a {| w with lw := x |}) -> wp (on_loop f) Q w.
Proof using Type. intros HQ. unfold wp, on_loop. destruct (f (lw w)) as [a x] eqn:E. by apply HQ. Qed.

Lemma wp_assertInLoop w Q : loop_ok (lw w) -> Q tt w -> wp (assertInLoopThread) Q w.
Proof.
  intros H HQ. unfold assertInLoopThread. rewrite wp_bind, wp_gets, law_thread by done. done.
Qed.

(** The channel and the events it is being run for. *)
Definition krev w : option (addr * Z) :=
  match channel_ (connector w) with
  | Some p => (λ ch, (p, revents_ ch)) <$> chan p (lw w)
  | None => None
  end.

Definition kset (s : States) w : KWorld :=
  {| w with connector := {| (connector w) with state_ := s |} |}.

Lemma kset_id w : kset (kstate w) w = w.
Proof using Type. by destruct w as [? [] ???]. Qed.

(** A channel whose descriptor is released and that waits to be destroyed. *)
Definition detached (h : bool) w : Prop :=
  match channel_ (connector w) with
  | None => KResetChannel ∉ cqueue w
  | Some p => ∃ ch, chan p (lw w) = Some ch ∧ kslots ch ∧ eventHandling_ ch = h
      ∧ interest_of p (lw w) = None ∧ addedToLoop_ ch = false
      ∧ ∃ q1 q2, cqueue w = q1 ++ KResetChannel :: q2 ∧ (KResetChannel ∉ q1) ∧ (KResetChannel ∉ q2)
  end.

(** Between the two: the descriptor [fd] belongs to no channel any more. *)
Record kfree (h : bool) w (fd : Z) : Prop := {
  kf_ok : loop_ok (lw w);
  kf_free : fd_free fd (lw w);
  kf_det : detached h w;
  kf_socks : socks (lw w) = {[fd]} ∪ list_to_set (delivered w);
  kf_fd : fd ∉ delivered w;
  kf_nodup : NoDup (delivered w);
  kf_frees : ∀ fd', fd' ∈ delivered w -> fd_free fd' (lw w);
  kf_timers : ctimers w = [];
  kf_delay : kInitRetryDelayMs <= retryDelayMs_ (connector w) <= kMaxRetryDelayMs;
  kf_queue : KStartInLoop ∉ cqueue w;
}.

Lemma kinv_detached h w : loop_ok (lw w) -> detached h w -> kstate w ≠ kConnecting ->
  socks (lw w) = list_to_set (delivered w) -> NoDup (delivered w) ->
  (∀ fd, fd ∈ delivered w -> fd_free fd (lw w)) ->
  (ctimers w = [] ∨ (∃ d, ctimers w = [d]) ∧ kstate w = kDisconnected) ->
  kInitRetryDelayMs <= retryDelayMs_ (connector w) <= kMaxRetryDelayMs ->
  Forall (λ d, kInitRetryDelayMs <= d <= kMaxRetryDelayMs) (ctimers w) ->
  (KStartInLoop ∉ cqueue w) -> kinv h w.
Proof using Type.
  intros Hok Hdet Hs Hsk Hnd Hfr Ht Hd Hds Hq.
  assert (Hheld : held w = ∅).
  { unfold held. destruct (channel_ (connector w)); [|done]. by rewrite bool_decide_eq_false_2. }
  split; try done; rewrite ?Hheld.
  - unfold detached in Hdet. destruct (channel_ (connector w)) as [p|]; [|done].
    destruct Hdet as (ch & ? & ? & ? & ? & ? & ?). exists ch. by split.
  - by rewrite Hsk, (left_id_L ∅ (∪)).
  - fset_solver.
Qed.

Lemma detached_same h w x : same_loop (lw w) x -> detached h w -> detached h {| w with lw := x |}.
Proof using Type.
  intros [_ Hh Hi] Hd. unfold detached in *. simpl. destruct (channel_ (connector w)) as [p|]; [|done].
  destruct Hd as (ch & Hc & ? & ? & Hn & ?). exists ch. by rewrite Hh, Hi.
Qed.

Lemma krev_same w x : same_loop (lw w) x -> krev {| w with lw := x |} = krev w.
Proof using Type.
  intros [_ Hh _]. unfold krev. simpl. destruct (channel_ (connector w)); [|done]. by rewrite Hh.
Qed.

(** Closing the descriptor. *)
Lemma close_free h w fd : kfree h w fd ->
  let w' := {| w with lw := sock_close fd (lw w) |} in
  loop_ok (lw w') ∧ detached h w' ∧ socks (lw w') = list_to_set (delivered w) ∧ krev w' = krev w
  ∧ ∀ fd', fd' ∈ delivered w -> fd_free fd' (lw w').
Proof.
  intros [] w'. destruct (close_law fd (lw w) kf_ok0 kf_free0) as (Hsame & Hsk & Hfr & _).
  split_and!; [apply Hsame|by apply detached_same| |by apply krev_same|auto].
  change (lw w') with (sock_close fd (lw w)). rewrite Hsk, kf_socks0. fset_solver.
Qed.

Lemma retry_wp h w fd : kfree h w fd ->
  wp (retry fd) (λ _ w', kinv h w' ∧ krev w' = krev w ∧ kstate w' = kDisconnected) w.
Proof.
  intros Hf. destruct (close_free h w fd Hf) as (Hok & Hdet & Hsk & Hr & Hfr). destruct Hf.
  unfold retry, setState, on_connector. rewrite wp_bind. apply wp_on_loop. intros [] x [= <-].
  rewrite !wp_bind, wp_modify, wp_bind, wp_gets, wp_when. cbn [connector connect_ retryDelayMs_].
  set (w1 := {| w with lw := sock_close fd (lw w) |}) in *.
  destruct (connect_ (connector w)) eqn:Ec; rewrite ?wp_bind, ?wp_modify.
  - split_and!; [|exact Hr|done]. apply kinv_detached; try done; simpl.
    + right. split; [|done]. rewrite kf_timers0. by eexists.
    + unfold kInitRetryDelayMs, kMaxRetryDelayMs in *.
      rewrite wrap_s_id by (cbn; lia). lia.
    + rewrite kf_timers0. simpl. by constructor; [|constructor].
  - split_and!; [|exact Hr|done]. apply kinv_detached; try done; simpl.
    + by left.
    + by rewrite kf_timers0.
Qed.

(** The descriptor of the channel being connected. *)
Lemma remove_wp' h w p ch s : kinv h w -> kstate w = kConnecting -> channel_ (connector w) = Some p ->
  chan p (lw w) = Some ch ->
  wp removeAndResetChannel (λ fd w', fd = fd_ ch ∧ kfree h w' fd ∧ connector w' = connector (kset s w)
    ∧ delivered w' = delivered w ∧ krev w' = krev w) (kset s w).
Proof using All.
  intros [] Hs Hp Hc. rewrite Hp in k_chan0. destruct k_chan0 as (ch0 & [Hc0 Hsl Hh Hlive _]).
  assert (ch0 = ch) as -> by congruence. destruct (Hlive Hs) as (Hi & Ho & Hnq).
  assert (Hheld : held w = {[fd_ ch]}).
  { unfold held. by rewrite Hp, bool_decide_eq_true_2, Hc. }
  unfold removeAndResetChannel, the_channel_. rewrite wp_bind, wp_liftR.
  change (channel_ (connector (kset s w))) with (channel_ (connector w)). rewrite Hp.
  rewrite wp_bind, wp_zoom. change (view lwL (kset s w)) with (lw w).
  assert (Hno : interest_of p (lw w) = None -> fd_free (fd_ ch) (lw w))
    by (intros Hn; rewrite Hn in Hi; by destruct Hi).
  apply (wp_keeps_view socks); [apply keeps_view_toggle; apply _|].
  apply (wp_also (λ fd', fd' ∈ delivered w) fd_free).
  { intros fd' Hd. eapply (toggle_free p (λ _, kNoneEvent) ch); try done; [|by apply k_free0].
    intros ->. apply (k_held0 (fd_ ch)); [rewrite Hheld; fset_solver|done]. }
  eapply (toggle_wp p (λ _, kNoneEvent) ch); [done..|].
  intros x1 [Hok1 Hi1 [i1 Hc1] _ _ _ _] Hfr1 Hsk1. rewrite wp_bind, wp_zoom. cbn [view upd lwL lw].
  apply (wp_keeps_view socks); [apply keeps_view_remove; apply _|].
  apply (wp_also (λ fd', fd' ∈ delivered w) fd_free).
  { intros fd' Hd. eapply (remove_free p _); [done|exact Hc1|by rewrite Hi1|done|by apply removable|auto]. }
  eapply (remove_wp p _); [done|exact Hc1|by rewrite Hi1|done|by apply removable|].
  intros x2 [Hok2 Hi2 [i2 Hc2] _ _ _ Hf2] Hfr2 Hsk2. rewrite wp_bind, wp_zoom. cbn [view upd lwL lw].
  eapply wp_deref; [exact Hc2|]. rewrite wp_bind. unfold queueInLoop. rewrite wp_modify, wp_ret.
  cbn [fd_ set_index set_added set_events] in *.
  split_and!; [done| |done|done|].
  - split; try done; simpl.
    + unfold detached. simpl. rewrite Hp. eexists. split; [exact Hc2|]. split_and!; try done.
      exists (cqueue w), []. split_and!; [done|done|fset_solver].
    + by rewrite Hsk2, Hsk1, k_socks0, Hheld.
    + apply k_held0. rewrite Hheld. fset_solver.
    + destruct k_timers0 as [?|[_ Hd]]; [done|]. congruence.
    + rewrite elem_of_app. intros [?|?%list_elem_of_singleton]; done.
  - unfold krev; simpl. by rewrite Hp, Hc2, Hc.
Qed.

(** ** Connecting *)
Lemma connecting_wp w fd : kfree false w fd -> channel_ (connector w) = None -> fd_open fd (lw w) ->
  wp (connecting fd) (λ _ w', kinv false w' ∧ kstate w' = kConnecting) w.
Proof.
  intros [] Hn Ho. unfold connecting, setState, on_connector.
  rewrite wp_bind, wp_modify, wp_bind, wp_assertS. split; [by apply bool_decide_eq_true|].
  rewrite wp_bind, wp_gets. cbn [lw].
  set (p := malloc _). set (ch := connector_channel fd).
  assert (Hp : chan p (lw w) = None) by (apply not_elem_of_dom, malloc_fresh).
  destruct (law_new p (lw w) ch kf_ok0 Hp eq_refl) as (Hok1 & Hi1 & Ho1 & Hf1).
  change (put_chan p ch (lw w)) with (upd heapL (<[p := ch]> (view heapL (lw w))) (lw w)) in *.
  set (x1 := upd heapL _ (lw w)) in *.
  rewrite wp_bind, wp_zoom, wp_modify, wp_bind, wp_modify, wp_zoom. cbn [view upd lwL lw]. fold x1.
  assert (Hc1 : chan p x1 = Some ch)
    by (unfold x1, chan; rewrite view_upd; apply lookup_insert_eq).
  apply (wp_keeps_view socks); [apply keeps_view_toggle; apply _|].
  apply (wp_also (λ fd', fd' ∈ delivered w) fd_free).
  { intros fd' Hd. apply (toggle_free p (λ c, Z.lor (events_ c) kWriteEvent) ch);
      [done|done|by apply Ho1|by intros; apply Hf1|by intros -> |by apply Hf1, kf_frees0]. }
  eapply (toggle_wp p (λ c, Z.lor (events_ c) kWriteEvent) ch); [done|done|by apply Ho1|by intros; apply Hf1|].
  intros x2 [Hok2 Hi2 [i Hc2] _ _ Ho2 _] Hfr2 Hsk2. split; [|done].
  assert (Hsk : socks x2 = {[fd]} ∪ list_to_set (delivered w))
    by (by rewrite Hsk2; unfold x1; rewrite (apart_put (v := socks))).
  unfold detached in kf_det0. rewrite Hn in kf_det0.
  set (w2 := mkKWorld _ _ _ _ _).
  assert (Hheld : held w2 = {[fd]}).
  { unfold held. change (channel_ (connector w2)) with (Some p). cbn [kstate]. simpl.
    by rewrite Hc2. }
  split; try done; rewrite ?Hheld.
  - eexists. split; [exact Hc2|done|done| |done]. intros _. split_and!; [exact (mk_is_Some _ _ Hi2)| |done].
    by apply Ho2, Ho1.
  - exact Hsk.
  - intros fd0 ->%elem_of_singleton. exact kf_fd0.
  - by left.
  - simpl. by rewrite kf_timers0.
Qed.

Lemma connect_wp w : kinv false w -> kstate w = kDisconnected -> channel_ (connector w) = None ->
  ctimers w = [] -> wp connect (λ _ w', kinv false w') w.
Proof.
  intros [] Hs Hn Ht. rewrite Hn in k_chan0. destruct k_chan0 as [_ Hq].
  assert (Hheld : held w = ∅) by (unfold held; by rewrite Hn).
  rewrite Hheld, (left_id_L ∅ (∪)) in k_socks0.
  unfold connect. rewrite wp_bind. apply wp_on_loop. intros fd x1 H1.
  destruct (create_law (lw w) fd x1 k_ok0 H1) as (Hsame1 & Hnew & Hsk1 & Ho1 & Hf1 & Hfr1).
  rewrite wp_bind. apply wp_on_loop. intros e x2 H2. cbn [lw] in H2.
  destruct (connect_law fd x1 e x2 (sl_ok _ _ Hsame1) H2) as (Hsame2 & Hsk2 & Ho2 & Hf2).
  set (w2 := {| w with lw := x2 |}).
  assert (Hfree : kfree false w2 fd).
  { split; try done; simpl.
    - apply Hsame2.
    - by apply Hf2.
    - unfold detached. simpl. by rewrite Hn.
    - by rewrite Hsk2, Hsk1, k_socks0.
    - rewrite k_socks0 in Hnew. fset_solver.
    - intros fd' Hd. by apply Hf2, Hfr1, k_free0. }
  case_bool_decide; [|case_bool_decide].
  - eapply wp_mono; [apply (connecting_wp w2 fd); [done|done|by apply Ho2]|]. by intros _ w3 [? _].
  - eapply wp_mono; [by apply (retry_wp false w2 fd)|]. by intros _ w3 (? & _).
  - apply wp_on_loop. intros [] x3 [= <-].
    destruct (close_free false w2 fd Hfree) as (Hok & Hdet & Hsk & _ & Hfr).
    apply kinv_detached; try done; simpl; try (by left); try (by rewrite Ht).
    unfold kstate in *. simpl. by rewrite Hs.
Qed.

Lemma startInLoop_wp w : kinv false w -> kstate w = kDisconnected -> channel_ (connector w) = None ->
  ctimers w = [] -> wp startInLoop (λ _ w', kinv false w') w.
Proof.
  intros H Hs Hn Ht. unfold startInLoop. rewrite wp_bind. apply wp_assertInLoop; [apply H|].
  rewrite wp_bind, wp_assertS. split; [by apply bool_decide_eq_true|].
  rewrite wp_bind, wp_gets, wp_when. destruct (connect_ _); [by apply connect_wp|done].
Qed.

(** [connect_] and the delay may change at any time. *)
Lemma kinv_config h w c d : kinv h w -> kInitRetryDelayMs <= d <= kMaxRetryDelayMs ->
  kinv h {| w with connector := {| (connector w) with connect_ := c; retryDelayMs_ := d |} |}.
Proof using Type.
  intros [] Hd. split; try done. simpl. destruct (channel_ (connector w)) as [p|]; [|done].
  destruct k_chan0 as (ch & []). exists ch. by split.
Qed.

Lemma start_wp w : kinv false w -> idle w = true -> kstate w = kDisconnected ->
  wp start (λ _ w', kinv false w') w.
Proof.
  intros H [Hn%bool_decide_eq_true Ht%bool_decide_eq_true]%andb_prop Hs.
  unfold start, on_connector. rewrite wp_bind, wp_modify, wp_bind, wp_gets. cbn [lw].
  rewrite law_thread by apply H.
  apply startInLoop_wp; try done. apply (kinv_config false w true); [done|apply H].
Qed.

Lemma restart_wp w : kinv false w -> idle w = true -> wp restart (λ _ w', kinv false w') w.
Proof.
  intros H [Hn%bool_decide_eq_true Ht%bool_decide_eq_true]%andb_prop.
  unfold restart, setState, on_connector. rewrite wp_bind. apply wp_assertInLoop; [apply H|].
  rewrite !wp_bind, wp_modify, wp_bind, wp_modify, wp_bind, wp_modify.
  apply startInLoop_wp; try done.
  assert (H' : kinv false (kset kDisconnected w)).
  { pose proof (k_chan _ _ H) as Hc. rewrite Hn in Hc. destruct H, Hc. split; try done; simpl.
    - by rewrite Hn.
    - rewrite k_socks0. unfold held. simpl. by rewrite Hn.
    - intros fd. unfold held. simpl. by rewrite Hn.
    - by left. }
  apply (kinv_config false (kset kDisconnected w) true); done.
Qed.

Lemma stop_wp w : kinv false w -> wp stop (λ _ w', kinv false w') w.
Proof.
  intros H. unfold stop, on_connector, queueInLoop. rewrite wp_bind, !wp_modify.
  pose proof (kinv_config false w false _ H (k_delay _ _ H)) as [].
  split; try done; simpl in *.
  - destruct (channel_ (connector w)) as [p|].
    + destruct k_chan0 as (ch & []). exists ch. split; try done; simpl in *.
      * intros Hs. destruct (ci_live0 Hs) as (? & ? & ?). split_and!; try done. fset_solver.
      * intros Hs. destruct (ci_dead0 Hs) as (? & ? & q1 & q2 & -> & ? & ?). split_and!; try done.
        exists q1, (q2 ++ [KStopInLoop]). split_and!; [by rewrite <- app_assoc|done|fset_solver].
    + fset_solver.
  - fset_solver.
Qed.

Lemma stopInLoop_wp w : kinv false w -> wp stopInLoop (λ _ w', kinv false w') w.
Proof using All.
  intros H. unfold stopInLoop. rewrite wp_bind. apply wp_assertInLoop; [apply H|].
  rewrite wp_bind, wp_gets, wp_when. case_bool_decide as Hs; [|done].
  pose proof (k_chan _ _ H) as Hc. destruct (channel_ (connector w)) as [p|] eqn:Hp; [|by destruct Hc].
  destruct Hc as (ch & Hci). unfold setState, on_connector. rewrite wp_bind, wp_modify, wp_bind.
  eapply wp_mono; [apply (remove_wp' false w p ch kDisconnected H Hs Hp), Hci|].
  intros fd w1 (-> & Hf & _). eapply wp_mono; [by apply (retry_wp false)|]. by intros _ w2 (? & _).
Qed.

Lemma resetChannel_wp w q p : kinv false w -> channel_ (connector w) = Some p ->
  cqueue w = KResetChannel :: q -> wp resetChannel (λ _ w', kinv false w') {| w with cqueue := q |}.
Proof.
  intros [] Hp Hq. rewrite Hp in k_chan0. destruct k_chan0 as (ch & [Hc Hsl Hh Hlive Hdead]).
  assert (Hs : kstate w ≠ kConnecting).
  { intros Hs. destruct (Hlive Hs) as (_ & _ & Hn). rewrite Hq in Hn. fset_solver. }
  destruct (Hdead Hs) as (Hi & Ha & q1 & q2 & Heq & Hn1 & Hn2).
  assert (q1 = [] ∧ q2 = q) as [-> ->].
  { rewrite Hq in Heq. destruct q1; simplify_eq/=; [done|]. fset_solver. }
  unfold resetChannel, on_connector. rewrite wp_bind, wp_gets. cbn [connector]. rewrite Hp.
  rewrite wp_bind, wp_modify, wp_zoom. cbn [view upd lwL lw].
  apply (wp_keeps_view socks); [apply keeps_view_dtor; apply _|].
  eapply (Channel_dtor_wp p ch); [done|done|done|done|done|]. intros Hok Hsk.
  assert (Hheld : held w = ∅) by (unfold held; by rewrite Hp, bool_decide_eq_false_2).
  apply kinv_detached; try done; simpl.
  - by rewrite Hsk, k_socks0, Hheld, (left_id_L ∅ (∪)).
  - intros fd Hd. apply (law_delete p (lw w) k_ok0 Hi). by apply k_free0.
  - rewrite Hq in k_queue0. intros ?. by apply k_queue0, elem_of_cons; right.
Qed.

(** ** The callbacks of the channel *)
Lemma kfree_same h w fd x : kfree h w fd -> same_loop (lw w) x -> socks x = socks (lw w) ->
  (∀ fd', fd_free fd' (lw w) -> fd_free fd' x) -> kfree h {| w with lw := x |} fd.
Proof using Type.
  intros [] Hs Hsk Hf. split; try done; simpl.
  - apply Hs.
  - by apply Hf.
  - by apply detached_same.
  - by rewrite Hsk.
  - auto.
Qed.

(** The descriptor is handed over, or closed because of a [stop]. *)
Lemma kfree_delivered h w fd : kfree h w fd ->
  kinv h {| (kset kConnected w) with delivered := delivered w ++ [fd] |}.
Proof using Type.
  intros []. apply kinv_detached; try done; simpl.
  - rewrite kf_socks0, list_to_set_app_L. simpl.
    by rewrite (right_id_L ∅ (∪)), (comm_L (∪)).
  - apply NoDup_app. split_and!; [done| |apply NoDup_singleton].
    by intros x Hx ->%list_elem_of_singleton.
  - intros x [Hx| ->%list_elem_of_singleton]%elem_of_app; [by apply kf_frees0|done].
  - by left.
  - by rewrite kf_timers0.
Qed.

Lemma kfree_closed h w fd : kfree h w fd ->
  kinv h (kset kConnected {| w with lw := sock_close fd (lw w) |}).
Proof.
  intros Hf. destruct (close_free h w fd Hf) as (Hok & Hdet & Hsk & _ & Hfr). destruct Hf.
  apply kinv_detached; try done; simpl; [by left|by rewrite kf_timers0].
Qed.

(** A descriptor that was handed over is closed by its new owner. *)
Lemma kinv_release h w fd : kinv h w -> fd ∈ delivered w ->
  kinv h {| w with lw := sock_close fd (lw w); delivered := filter (λ fd', fd' ≠ fd) (delivered w) |}.
Proof.
  intros [] Hd. destruct (close_law fd (lw w) k_ok0 (k_free0 fd Hd)) as ([Hok Hh Hi] & Hsk & Hfr & Hop).
  set (w' := mkKWorld _ _ _ _ _).
  assert (Hheld : held w' = held w).
  { unfold held. change (channel_ (connector w')) with (channel_ (connector w)).
    destruct (channel_ (connector w)); [|done]. simpl. by rewrite Hh. }
  split; rewrite ?Hheld; try done.
  - change (channel_ (connector w')) with (channel_ (connector w)).
    destruct (channel_ (connector w)) as [p|] eqn:Hp; [|done]. destruct k_chan0 as (ch & []). exists ch.
    split; [by simpl; rewrite Hh|done|done| |by simpl; rewrite Hi].
    intros Hs. destruct (ci_live0 Hs) as (H1 & H2 & H3). split_and!; [by simpl; rewrite Hi| |done].
    apply Hop; [|done]. intros Hfd. apply (k_held0 fd); [|done].
    unfold held. rewrite Hp, ci_at0, bool_decide_eq_true_2, Hfd by done. fset_solver.
  - simpl. rewrite Hsk, k_socks0. apply set_eq. intros x.
    rewrite elem_of_difference, !elem_of_union, !elem_of_list_to_set, list_elem_of_filter, elem_of_singleton.
    pose proof (k_held0 fd). naive_solver.
  - intros fd' Hf [_ ?]%list_elem_of_filter. by apply (k_held0 fd').
  - by apply NoDup_filter.
  - intros fd' [_ ?]%list_elem_of_filter. by apply Hfr, k_free0.
Qed.

(** A channel in place while the connection is being made. *)
Lemma kinv_connecting h w : kinv h w -> kstate w = kConnecting ->
  ∃ p ch, channel_ (connector w) = Some p ∧ channel_inv h w p ch.
Proof using Type.
  intros [] Hs. destruct (channel_ (connector w)) as [p|]; [|by destruct k_chan0].
  destruct k_chan0 as [ch Hci]. by exists p, ch.
Qed.

(** The socket's error is read and the descriptor retried. *)
Lemma failed_wp h w (P : KWorld -> Prop) (k : Z -> Z -> M KWorld unit) :
  kinv h w -> kstate w = kConnecting ->
  (∀ fd err w', kfree h w' fd -> krev w' = krev w -> kstate w' = kConnecting ->
     wp (k fd err) (λ _ w2, kinv h w2 ∧ krev w2 = krev w' ∧ P w2) w') ->
  wp (sockfd ← removeAndResetChannel; err ← on_loop (sock_error sockfd); k sockfd err)
    (λ _ w', kinv h w' ∧ krev w' = krev w ∧ P w') w.
Proof using All.
  intros H Hs Hk. destruct (kinv_connecting h w H Hs) as (p & ch & Hp & Hci).
  rewrite wp_bind. eapply wp_mono.
  { pose proof (remove_wp' h w p ch kConnecting H Hs Hp (ci_at _ _ _ _ Hci)) as Hr.
    rewrite <- Hs, kset_id in Hr. exact Hr. }
  intros fd w1 (-> & Hf & Hc1 & _ & Hr1). rewrite wp_bind. apply wp_on_loop. intros e x He.
  destruct (error_law _ _ _ _ (kf_ok _ _ _ Hf) He) as (Hsame & Hsk & Hfr).
  pose proof (kfree_same h w1 _ x Hf Hsame Hsk Hfr) as Hf2.
  pose proof (krev_same w1 x Hsame) as Hr2.
  eapply wp_mono; [apply (Hk _ _ _ Hf2)|].
  - by rewrite Hr2.
  - unfold kstate. simpl. by rewrite Hc1.
  - intros [] w2 (? & -> & ?). by rewrite Hr2.
Qed.

Lemma handleError_wp h w : kinv h w -> kstate w ≠ kConnected ->
  wp handleError (λ _ w', kinv h w' ∧ krev w' = krev w ∧ kstate w' ≠ kConnected) w.
Proof using All.
  intros H Hs. unfold handleError. rewrite wp_bind, wp_gets, wp_when.
  case_bool_decide as Hc; [|done].
  apply (failed_wp h w (λ w', kstate w' ≠ kConnected) (λ fd _, retry fd)); [done|done|].
  intros fd err w1 Hf _ _. eapply wp_mono; [by apply retry_wp|].
  intros _ w2 (? & ? & Hd). by rewrite Hd.
Qed.

(** Both branches without looking at the condition. *)
Lemma either_branch (b : bool) (P Q : Prop) : P -> Q -> if b then P else Q.
Proof using Type. by destruct b. Qed.

Lemma handleWrite_wp h w : kinv h w -> kstate w ≠ kConnected ->
  wp handleWrite (λ _ w', kinv h w' ∧ krev w' = krev w) w.
Proof using All.
  intros H Hs. unfold handleWrite. rewrite wp_bind, wp_gets, wp_if.
  case_bool_decide as Hc.
  - eapply wp_mono; [apply (failed_wp h w (λ _, True)); [done|done|]|by intros _ w' (? & ? & _)].
    intros fd err w1 Hf _ _.
    assert (Hr : wp (retry fd) (λ _ w2, kinv h w2 ∧ krev w2 = krev w1 ∧ True) w1).
    { eapply wp_mono; [by apply retry_wp|]. by intros _ w2 (? & ? & _). }
    rewrite wp_if. destruct (negb _); [done|]. rewrite wp_bind, wp_gets, wp_if.
    destruct (sock_self _ _); [done|]. unfold setState, on_connector.
    rewrite wp_bind, wp_modify, wp_bind, wp_gets, wp_if.
    apply either_branch.
    + rewrite wp_modify. split_and!; [exact (kfree_delivered h w1 fd Hf)| |done].
      by unfold krev.
    + apply wp_on_loop. intros [] x [= <-].
      destruct (close_free h w1 fd Hf) as (_ & _ & _ & Hr' & _).
      split_and!; [exact (kfree_closed h w1 fd Hf)|exact Hr'|done].
  - rewrite wp_assertS. split; [|done]. apply bool_decide_eq_true.
    change (kstate w = kDisconnected). change (kstate w ≠ kConnecting) in Hc. by destruct (kstate w).
Qed.

(** Writing the fields of the channel that [handleEvent] writes. *)
Lemma kinv_put h w p ch ch' : kinv h w -> channel_ (connector w) = Some p -> chan p (lw w) = Some ch ->
  fd_ ch' = fd_ ch -> index_ ch' = index_ ch -> addedToLoop_ ch' = addedToLoop_ ch ->
  (kslots ch -> kslots ch') ->
  kinv (eventHandling_ ch') {| w with lw := put_chan p ch' (lw w) |}.
Proof.
  intros [] Hp Hc Hfd Hi Ha Hsl. rewrite Hp in k_chan0. destruct k_chan0 as (ch0 & []).
  assert (ch0 = ch) as -> by congruence.
  destruct (law_put p (lw w) ch ch' k_ok0 Hc Hfd Hi) as (Hok & Hint & Hop & Hfr & _).
  set (w' := mkKWorld _ _ _ _ _).
  assert (Hc' : chan p (lw w') = Some ch') by (cbn; by rewrite chan_put, decide_True).
  assert (Hheld : held w' = held w).
  { unfold held. change (channel_ (connector w')) with (channel_ (connector w)).
    rewrite Hp, Hc, Hc', Hfd. done. }
  split; try done; rewrite ?Hheld; try done.
  - change (channel_ (connector w')) with (channel_ (connector w)). rewrite Hp. exists ch'.
    split; [exact Hc'|by apply Hsl|done| |].
    + intros Hs. destruct (ci_live0 Hs) as (? & ? & ?).
      split_and!; [change (is_Some (interest_of p (put_chan p ch' (lw w)))); by rewrite Hint| |done].
      apply Hop. by rewrite Hfd.
    + intros Hs. destruct (ci_dead0 Hs) as (? & ? & ?).
      split_and!; [change (interest_of p (put_chan p ch' (lw w)) = None); by rewrite Hint| |done].
      by rewrite Ha.
  - change (lw w') with (put_chan p ch' (lw w)). unfold put_chan. by rewrite (apart_put (v := socks)).
  - intros fd Hd. by apply Hfr, k_free0.
Qed.

(** ** Events *)
#[local] Instance k_heap_laws : LensLaws (@heapL _ _ (k_heap (W := W))).
Proof.
  split; simpl; intros.
  - apply view_upd.
  - rewrite upd_view. by destruct s.
  - by rewrite upd_upd.
Qed.

Lemma krev_inv h w p rev : kinv h w -> krev w = Some (p, rev) ->
  ∃ ch, channel_ (connector w) = Some p ∧ channel_inv h w p ch ∧ revents_ ch = rev.
Proof using Type.
  intros H Hr. unfold krev in Hr. pose proof (k_chan _ _ H) as Hc.
  destruct (channel_ (connector w)) as [q|]; [|done]. destruct Hc as [ch Hci].
  pose proof (ci_at _ _ _ _ Hci) as Hat. rewrite Hat in Hr. injection Hr as -> <-. by exists ch.
Qed.

Lemma running_deref {A} h w p rev (k : Channel -> M KWorld A) Q :
  kinv h w -> krev w = Some (p, rev) ->
  (∀ ch, kslots ch -> revents_ ch = rev -> wp (k ch) Q w) ->
  wp (c ← deref (CH := k_heap) p; k c) Q w.
Proof.
  intros H Hr HQ. destruct (krev_inv h w p rev H Hr) as (ch & _ & [] & <-).
  rewrite wp_bind. by apply (wp_deref p _ w ch); [|apply HQ].
Qed.

Lemma running_handling h w p rev b Q : kinv h w -> krev w = Some (p, rev) ->
  (∀ w', kinv b w' -> krev w' = Some (p, rev) -> kstate w' = kstate w -> Q tt w') ->
  wp (on_chan (CH := k_heap) p (set_handling b)) Q w.
Proof.
  intros H Hr HQ. destruct (krev_inv h w p rev H Hr) as (ch & Hp & Hci & <-).
  apply (wp_on_chan p _ _ w ch); [apply Hci|].
  change (put_chan p (set_handling b ch) w)
    with {| w with lw := put_chan p (set_handling b ch) (lw w) |}.
  apply HQ; [|unfold krev; simpl; by rewrite Hp, chan_put, decide_True|done].
  by apply (kinv_put h w p ch (set_handling b ch)); [..|apply Hci| | | |].
Qed.

(** One guarded callback. *)
Lemma running_call w p rev b (f : option Closure) t (P : KWorld -> Prop) Q :
  kinv true w -> krev w = Some (p, rev) -> P w ->
  (∀ g, f = Some g -> wp (run_kclosure g t) (λ _ w', kinv true w' ∧ krev w' = krev w ∧ P w') w) ->
  (∀ w', kinv true w' -> krev w' = Some (p, rev) -> P w' -> Q tt w') ->
  wp (whenM b (call run_kclosure t f)) Q w.
Proof using Type.
  intros H Hr HP Hrun HQ. rewrite wp_when. destruct b; [|by apply HQ].
  destruct f as [g|]; simpl; [|by apply HQ].
  eapply wp_mono; [by apply Hrun|]. intros [] w' (? & Hk & ?). apply HQ; try done. by rewrite Hk.
Qed.

Lemma ready_wp w rev t : kinv false w -> kstate w = kConnecting ->
  wp (cstep (CReady rev t)) (λ _ w', kinv false w') w.
Proof using All.
  intros H Hs. destruct (kinv_connecting false w H Hs) as (p & ch & Hp & Hci). simpl.
  unfold the_channel_. rewrite wp_bind, wp_liftR, Hp, wp_bind, wp_zoom.
  apply (wp_on_chan p _ _ _ ch); [apply Hci|]. cbn [view upd lwL].
  assert (H1 : kinv false {| w with lw := put_chan p (set_revents rev ch) (lw w) |}).
  { rewrite <- (ci_handling _ _ _ _ Hci).
    by apply (kinv_put false w p ch (set_revents rev ch)); [..|apply Hci| | | |]. }
  assert (Hr1 : krev {| w with lw := put_chan p (set_revents rev ch) (lw w) |} = Some (p, rev))
    by (unfold krev; simpl; by rewrite Hp, chan_put, decide_True).
  unfold handleEventWithGuard. rewrite wp_bind.
  eapply running_handling; [exact H1|exact Hr1|]. intros w2 H2 Hr2 Hs2.
  change (kstate w2 = kstate w) in Hs2. rewrite Hs in Hs2.
  eapply running_deref; [done..|]. intros c2 (_ & _ & -> & _) _. rewrite wp_bind.
  apply (running_call w2 p rev _ _ t (λ w, kstate w ≠ kConnected)); [done|done|by rewrite Hs2|done|].
  intros w3 H3 Hr3 Hs3.
  eapply running_deref; [done..|]. intros c3 (_ & _ & _ & ->) _. rewrite wp_bind.
  apply (running_call w3 p rev _ _ t (λ w, kstate w ≠ kConnected)); [done..| |].
  { intros g [= <-]. by apply handleError_wp. }
  intros w4 H4 Hr4 Hs4.
  eapply running_deref; [done..|]. intros c4 (-> & _) _. rewrite wp_bind.
  apply (running_call w4 p rev _ _ t (λ w, kstate w ≠ kConnected)); [done..|].
  intros w5 H5 Hr5 Hs5.
  eapply running_deref; [done..|]. intros c5 (_ & -> & _) _. rewrite wp_bind.
  apply (running_call w5 p rev _ _ t (λ _, True)); [done..| |].
  { intros g [= <-]. eapply wp_mono; [by apply handleWrite_wp|]. by intros _ w' [? ?]. }
  intros w6 H6 Hr6 _. by eapply running_handling.
Qed.

(** ** Functors, timers and whole sessions *)
Lemma kinv_pop w q : kinv false w -> cqueue w = KStopInLoop :: q ->
  kinv false {| w with cqueue := q |}.
Proof using Type.
  intros [] Hq. rewrite Hq in *.
  assert (Hsub : ∀ f, f ∈ q -> f ∈ KStopInLoop :: q) by (intros; by apply elem_of_cons; right).
  split; try done; simpl; [|by intros ?%Hsub].
  destruct (channel_ (connector w)) as [p|].
  - destruct k_chan0 as (ch & []). exists ch. split; try done; simpl.
    + intros Hs. destruct (ci_live0 Hs) as (? & ? & Hn). rewrite Hq in Hn.
      split_and!; [done..|]. by intros ?%Hsub.
    + intros Hs. destruct (ci_dead0 Hs) as (? & ? & q1 & q2 & Heq & Hn1 & Hn2).
      split_and!; [done..|]. rewrite Hq in Heq.
      destruct q1 as [|f q1]; simplify_eq/=. exists q1, q2. split_and!; [done| |done].
      intros ?. apply Hn1. by apply elem_of_cons; right.
  - destruct k_chan0 as [? Hn]. split; [done|]. by intros ?%Hsub.
Qed.

Lemma functor_wp w : kinv false w -> wp (cstep CFunctor) (λ _ w', kinv false w') w.
Proof using All.
  intros H. simpl. rewrite wp_bind, wp_gets. destruct (cqueue w) as [|f q] eqn:Hq; [done|].
  rewrite wp_bind, wp_modify. destruct f; simpl.
  - destruct (k_queue _ _ H). rewrite Hq. apply elem_of_cons. by left.
  - by apply stopInLoop_wp, kinv_pop.
  - pose proof (k_chan _ _ H) as Hc. destruct (channel_ (connector w)) as [p|] eqn:Hp.
    + by apply (resetChannel_wp w q p).
    + destruct Hc as [_ Hn]. rewrite Hq in Hn. destruct Hn. apply elem_of_cons. by left.
Qed.

(** The timer of a retry has fired. *)
Lemma kinv_fired h w : kinv h w -> channel_ (connector w) = None ->
  kinv h {| w with ctimers := [] |}.
Proof using Type.
  intros [] Hn. split; try done; simpl; [|by left]. by rewrite Hn in k_chan0 |- *.
Qed.

Lemma timer_wp w i : kinv false w -> channel_ (connector w) = None ->
  wp (cstep (CTimer i)) (λ _ w', kinv false w') w.
Proof.
  intros H Hn. simpl. rewrite wp_bind, wp_gets. destruct (ctimers w !! i) as [d|] eqn:Hi; [|done].
  destruct (k_timers _ _ H) as [Ht|[[d' Ht] Hs]]; [by rewrite Ht in Hi|].
  rewrite Ht in Hi. destruct i; [|done]. rewrite wp_bind, wp_modify, Ht. simpl.
  by apply startInLoop_wp; [apply kinv_fired|..].
Qed.

Lemma step_wp w e : kinv false w -> cenabled e w = true ->
  wp (cstep e) (λ _ w', kinv false w') w.
Proof using All.
  intros H He. destruct e; simpl in He.
  - apply andb_prop in He as [? ?%bool_decide_eq_true]. by apply start_wp.
  - by apply stop_wp.
  - by apply restart_wp.
  - apply bool_decide_eq_true in He. by apply ready_wp.
  - by apply functor_wp.
  - apply bool_decide_eq_true in He. by apply timer_wp.
Qed.

Lemma new_kinv x : loop_ok x -> socks x = ∅ -> kinv false (new_connector x).
Proof.
  intros Hok Hs. apply kinv_detached; try done; simpl.
  - by apply not_elem_of_nil.
  - constructor.
  - by intros fd ?%elem_of_nil.
  - by left.
  - by apply not_elem_of_nil.
Qed.

Lemma csession_wp es w : kinv false w -> wp (csession es) (λ _ w', kinv false w') w.
Proof using All.
  intros H. apply (wp_for_each (λ _ w, kinv false w)); [done|].
  intros _ e _ w1 _ H1. rewrite wp_bind, wp_getS, wp_when.
  destruct (cenabled e w1) eqn:He; [by apply step_wp|done].
Qed.
End invariant.

(** ** The properties *)
Lemma try_again_retries e : e ∈ try_again -> bool_decide (e ∈ under_way) = false.
Proof. revert e. apply Forall_forall. by repeat constructor. Qed.

Section properties.
#[local] Set Default Proof Using "All".
Context {BT : BaseTime} {W : Type} {LO : LoopOps W} {LS : LoopSpec W} {CO : ConnectOps W}
        {KL : ConnectLaws W} {AL : Allocator}.
Implicit Types (w : KWorld (W := W)) (x : W).

(** C9: One attempt at a time, and no descriptor lost.  Take any sequence of calls
    in the loop's thread -- start() on a connector that is idle (no channel, no
    retry pending) and disconnected, restart() on an idle one, stop() at any time
    --, of events of the channel while connecting, of runs of the queued functors,
    and of the retry timer once the old channel is gone.  Whatever the outcomes of
    the socket calls, it goes through without a failed assertion: the sockets that are open are the
    one being connected and those that were handed over, each once; at most one
    retry is pending, only while disconnected, and its delay and the next one
    stay between 500 ms and 30 s.  Neither start() nor restart() checks that the
    connector is idle, and a start() while a retry is pending does fail, see
    [restarted_during_retry]. *)
Theorem csession_safe es x : loop_ok x -> socks x = ∅ ->
  (∀ p x, loop_ok x -> can_remove p x) ->
  wp (csession es) (λ _ w',
    loop_ok (lw w')
    ∧ socks (lw w') = held w' ∪ list_to_set (delivered w')
    ∧ (∀ fd, fd ∈ held w' -> fd ∉ delivered w') ∧ NoDup (delivered w')
    ∧ (ctimers w' = []
       ∨ (∃ d, ctimers w' = [d] ∧ kInitRetryDelayMs <= d <= kMaxRetryDelayMs)
         ∧ kstate w' = kDisconnected)
    ∧ kInitRetryDelayMs <= retryDelayMs_ (connector w') <= kMaxRetryDelayMs) (new_connector x).
Proof.
  intros Hok Hs Hr. eapply wp_mono; [by apply csession_wp, new_kinv|].
  intros [] w' []. split_and!; try done; try apply k_delay0.
  destruct k_timers0 as [?|[[d Hd] ?]]; [by left|]. right. split; [|done].
  exists d. split; [done|]. rewrite Hd in k_delays0. by inversion k_delays0.
Qed.

(** The delay before attempt number [k + 2]. *)
Definition backoff (k : nat) : Z := Z.min (kInitRetryDelayMs * 2 ^ Z.of_nat k) kMaxRetryDelayMs.

Lemma backoff_S k : Z.min (s32 (backoff k * 2)) kMaxRetryDelayMs = backoff (S k).
Proof using Type.
  unfold backoff, kInitRetryDelayMs, kMaxRetryDelayMs.
  pose proof (Z.pow_pos_nonneg 2 (Z.of_nat k) ltac:(lia) ltac:(lia)).
  rewrite wrap_s_id by (cbn; lia). rewrite Nat2Z.inj_succ, Z.pow_succ_r by lia. lia.
Qed.

(** Every attempt is refused at once. *)
Definition refuses : Prop :=
  ∀ fd x e x', loop_ok x -> sock_connect fd x = (e, x') -> e ∈ try_again.

(** A connector that waits for its next attempt after [k] attempts. *)
Record waiting (k : nat) (ds : list Z) w : Prop := {
  wt_inv : kinv false w;
  wt_state : kstate w = kDisconnected;
  wt_channel : channel_ (connector w) = None;
  wt_delivered : delivered w = [];
  wt_timers : ctimers w = ds;
  wt_delay : retryDelayMs_ (connector w) = backoff k;
}.

Lemma retry_ok fd w : connect_ (connector w) = true ->
  retry fd w = Ok (tt, {| lw := sock_close fd (lw w);
    connector := {| connect_ := true; state_ := kDisconnected; channel_ := channel_ (connector w);
                    retryDelayMs_ := Z.min (s32 (retryDelayMs_ (connector w) * 2)) kMaxRetryDelayMs |};
    cqueue := cqueue w; ctimers := ctimers w ++ [retryDelayMs_ (connector w)];
    delivered := delivered w |}).
Proof using Type.
  intros Hc. destruct w as [x [c s p d] q ts ds]. simpl in *. by subst.
Qed.

Lemma refused_attempt k w : refuses -> waiting k [] w -> connect_ (connector w) = true ->
  wp startInLoop (λ _ w', waiting (S k) [backoff k] w' ∧ connect_ (connector w') = true) w.
Proof.
  intros Hre [H Hs Hn Hd Ht Hk] Hc.
  assert (Hex : wp startInLoop (λ _ w', kstate w' = kDisconnected ∧ channel_ (connector w') = None
    ∧ delivered w' = [] ∧ ctimers w' = [backoff k]
    ∧ retryDelayMs_ (connector w') = backoff (S k) ∧ connect_ (connector w') = true) w).
  { unfold startInLoop. rewrite wp_bind. apply wp_assertInLoop; [apply H|].
    rewrite wp_bind, wp_assertS. split; [by apply bool_decide_eq_true|].
    rewrite wp_bind, wp_gets, Hc. simpl. unfold connect. rewrite wp_bind.
    apply wp_on_loop. intros fd x1 H1. rewrite wp_bind. apply wp_on_loop. intros e x2 H2.
    destruct (create_law _ _ _ (k_ok _ _ H) H1) as (Hsame & _).
    pose proof (Hre _ _ _ _ (sl_ok _ _ Hsame) H2) as He.
    rewrite (try_again_retries e He), bool_decide_eq_true_2 by done.
    eapply wp_intro; [by apply retry_ok|]. simpl.
    by rewrite Ht, Hd, Hk, backoff_S. }
  eapply wp_mono; [apply wp_conj; [by apply startInLoop_wp|exact Hex]|].
  by intros [] w' (? & ? & ? & ? & ? & ? & ?).
Qed.

(** Back-off.  If every attempt is refused, then after [start] and [n] runs
    of the retry timer exactly one timer is pending, for [500 * 2^n] ms or 30 s,
    whichever is less; no descriptor is left open and none was handed over. *)
Theorem retry_backoff n x : loop_ok x -> socks x = ∅ -> refuses ->
  wp (csession (CStart :: replicate n (CTimer 0))) (λ _ w',
    ctimers w' = [Z.min (500 * 2 ^ Z.of_nat n) 30000]
    ∧ kstate w' = kDisconnected ∧ delivered w' = [] ∧ socks (lw w') = ∅) (new_connector x).
Proof.
  intros Hok Hs Hre. eapply wp_mono; [apply (wp_for_each (λ es w, match length es with
    | O => w = new_connector x
    | S k => waiting (S k) [backoff k] w ∧ connect_ (connector w) = true end))|].
  - done.
  - intros pre e post w Hl HI. rewrite wp_bind, wp_getS, wp_when, length_app, Nat.add_comm. simpl.
    destruct pre as [|e0 pre]; simplify_eq/=.
    + unfold start, on_connector. rewrite wp_bind, wp_modify, wp_bind, wp_gets. cbn [lw].
      rewrite law_thread by done. apply (refused_attempt 0); [done| |done].
      pose proof (kinv_config false _ true _ (new_kinv x Hok Hs) (k_delay _ _ (new_kinv x Hok Hs))).
      by split.
    + assert (e = CTimer 0) as ->.
      { apply (elem_of_replicate_inv _ n). rewrite H0. set_solver. }
      destruct HI as [[H Hst Hn Hd Ht Hk] Hc]. simpl. rewrite bool_decide_eq_true_2 by done.
      rewrite wp_bind, wp_gets, Ht. simpl. rewrite wp_bind, wp_modify.
      apply (refused_attempt (S (length pre))); [done| |done].
      by split; [apply kinv_fired|..].
  - intros [] w' [[H Hst Hn Hd Ht Hk] _]. rewrite length_replicate in *. split_and!; try done.
    rewrite (k_socks _ _ H), Hd. unfold held. rewrite Hn. set_solver.
Qed.

Lemma connecting_state fd w : loop_ok (lw w) -> channel_ (connector w) = None ->
  fd_open fd (lw w) -> fd_free fd (lw w) ->
  wp (connecting fd) (λ _ w', loop_ok (lw w') ∧ kstate w' = kConnecting ∧ ctimers w' = ctimers w) w.
Proof.
  intros Hok Hn Ho Hf. unfold connecting, setState, on_connector.
  rewrite wp_bind, wp_modify, wp_bind, wp_assertS. split; [by apply bool_decide_eq_true|].
  rewrite wp_bind, wp_gets. cbn [lw]. set (p := malloc _). set (ch := connector_channel fd).
  assert (Hp : chan p (lw w) = None) by (apply not_elem_of_dom, malloc_fresh).
  destruct (law_new p (lw w) ch Hok Hp eq_refl) as (Hok1 & Hi1 & Ho1 & Hf1).
  rewrite wp_bind, wp_zoom, wp_modify, wp_bind, wp_modify, wp_zoom. cbn [view upd lwL lw].
  apply (toggle_wp p (λ c, Z.lor (events_ c) kWriteEvent) ch); [done| |by apply Ho1|by intros; apply Hf1|].
  - unfold chan. rewrite view_upd. apply lookup_insert_eq.
  - intros x' [Hok' _ _ _ _ _ _]. by split_and!.
Qed.

Lemma assertS_ok {S} (f : S -> bool) s : f s = true -> assertS f s = Ok (tt, s).
Proof using Type. unfold assertS. by intros ->. Qed.

Lemma assertInLoop_ok w : loop_isInLoopThread (lw w) = true -> assertInLoopThread w = Ok (tt, w).
Proof using Type. intros Ht. unfold assertInLoopThread, gets, mbind, M_bind. by rewrite Ht. Qed.

Lemma on_loop_ok {A} (f : W -> A * W) w a x : f (lw w) = (a, x) ->
  on_loop f w = Ok (a, {| w with lw := x |}).
Proof using Type. unfold on_loop. by intros ->. Qed.

Lemma start_ok w fd x1 e x2 : loop_isInLoopThread (lw w) = true -> kstate w = kDisconnected ->
  sock_create (lw w) = (fd, x1) -> sock_connect fd x1 = (e, x2) ->
  start w = (if bool_decide (e ∈ under_way) then connecting fd
             else if bool_decide (e ∈ try_again) then retry fd
             else on_loop (λ x, (tt, sock_close fd x)))
    {| w with lw := x2; connector := {| (connector w) with connect_ := true |} |}.
Proof using Type.
  intros Ht Hs H1 H2. unfold start. rewrite (bind_ok _ _ w tt _ eq_refl).
  rewrite (bind_ok (gets _) _ _ _ _ eq_refl). cbn [lw]. rewrite Ht. unfold startInLoop.
  erewrite (bind_ok assertInLoopThread) by (by apply assertInLoop_ok).
  erewrite (bind_ok (assertS _)) by (apply assertS_ok; by apply bool_decide_eq_true).
  rewrite (bind_ok (gets _) _ _ _ _ eq_refl). cbn [connector connect_ whenM]. unfold connect.
  erewrite (bind_ok (on_loop _)) by (by apply on_loop_ok).
  by erewrite (bind_ok (on_loop _)) by (by apply on_loop_ok).
Qed.

(** A retry that outlives a stop.  After a refused attempt the retry timer
    is pending; stop() does not cancel it.  If the connector is started again
    before it fires and the second attempt gets under way, the timer finds the
    connector connecting and the assertion of startInLoop stops the program. *)
Theorem restarted_during_retry x fd x1 e x2 fd' x3 e' x4 : loop_ok x -> socks x = ∅ ->
  sock_create x = (fd, x1) -> sock_connect fd x1 = (e, x2) -> e ∈ try_again ->
  sock_create (sock_close fd x2) = (fd', x3) -> sock_connect fd' x3 = (e', x4) -> e' ∈ under_way ->
  for_each [CStart; CStop; CFunctor; CStart; CTimer 0] cstep (new_connector x) = Fault AssertFailed.
Proof.
  intros Hok Hs H1 H2 He H3 H4 He'.
  change [CStart; CStop; CFunctor; CStart; CTimer 0]
    with ([CStart; CStop; CFunctor; CStart] ++ [CTimer 0]).
  rewrite for_each_app.
  assert (Hpre : wp (for_each [CStart; CStop; CFunctor; CStart] cstep)
    (λ _ w, loop_ok (lw w) ∧ kstate w = kConnecting ∧ ctimers w = [kInitRetryDelayMs])
    (new_connector x)).
  { destruct (create_law _ _ _ Hok H1) as (Hs1 & _ & _ & _ & Hf1 & _).
    destruct (connect_law _ _ _ _ (sl_ok _ _ Hs1) H2) as (Hs2 & _ & _ & Hf2).
    pose proof (proj1 (close_law _ _ (sl_ok _ _ Hs2) (Hf2 _ Hf1))) as Hs2'.
    destruct (create_law _ _ _ (sl_ok _ _ Hs2') H3) as (Hs3 & _ & _ & Ho3 & Hf3 & _).
    destruct (connect_law _ _ _ _ (sl_ok _ _ Hs3) H4) as (Hs4 & _ & Ho4 & Hf4).
    simpl. rewrite wp_bind. eapply wp_intro.
    { erewrite start_ok; [|by apply law_thread|done|exact H1|exact H2].
      rewrite (try_again_retries e He), bool_decide_eq_true_2 by done. by apply retry_ok. }
    rewrite wp_bind. eapply wp_intro; [reflexivity|].
    rewrite wp_bind. eapply wp_intro.
    { erewrite (bind_ok (gets _)) by reflexivity. cbn [cqueue app new_connector].
      erewrite (bind_ok (modify _)) by reflexivity. unfold run_cfunctor, stopInLoop.
      erewrite (bind_ok assertInLoopThread) by (apply assertInLoop_ok, law_thread, Hs2').
      reflexivity. }
    rewrite wp_bind. unfold wp at 1.
    erewrite start_ok; [|apply law_thread, Hs2'|done|exact H3|exact H4].
    rewrite bool_decide_eq_true_2 by done.
    apply (wp_mono _ (λ _ w, loop_ok (lw w) ∧ kstate w = kConnecting ∧ ctimers w = [kInitRetryDelayMs]));
      [|by intros []].
    by apply connecting_state; [apply Hs4|done|apply Ho4|apply Hf4, Hf3]. }
  apply wp_ok in Hpre as ([] & w & Hw & Hok' & Hk & Ht). rewrite (bind_ok _ _ _ _ _ Hw).
  simpl. unfold mbind at 1, M_bind at 1. erewrite (bind_ok (gets _)) by reflexivity. rewrite Ht. simpl.
  erewrite (bind_ok (modify _)) by reflexivity. unfold startInLoop.
  erewrite (bind_ok assertInLoopThread) by (by apply assertInLoop_ok, law_thread).
  unfold mbind at 1, M_bind at 1, assertS. by rewrite bool_decide_eq_false_2 by (unfold kstate in Hk; cbn; by rewrite Hk).
Qed.
End properties.

(** ** Sockets on the epoll poller, for the witnesses

    The descriptors that are open in the tiny kernel are the connector's
    sockets; [out] gives the outcome of [connect] by the kernel's clock. *)
Section tiny_client.
#[local] Existing Instance tiny_epoll.

Definition tiny_connect (out : Z -> Z) : ConnectOps PollerWorld := {|
  sock_create := λ w, (tiny_new w, tiny_set (tiny_new w :: tk_open (kernel w)) 0 w);
  sock_connect := λ _ w, (out (tk_clock (kernel w)), tiny_set (tk_open (kernel w)) 1 w);
  sock_close := λ fd w, tiny_set (filter (λ x, x ≠ fd) (tk_open (kernel w))) 0 w;
  sock_error := λ _ w, (0, w);
  sock_self := λ _ _, false;
  socks := λ w, list_to_set (tk_open (kernel w));
|}.

#[local] Existing Instance tiny_connect.

Lemma tiny_connect_laws out : ConnectLaws PollerWorld (CO := tiny_connect out).
Proof.
  constructor.
  - intros w fd w' Hok [= <- <-].
    pose proof (tiny_new_fresh w) as Hn. unfold tiny_used in Hn. rewrite !not_elem_of_app in Hn.
    destruct Hn as (Hno & Hnl%not_in_keys & Hnc%not_in_keys).
    split_and!.
    + apply tiny_set_same; [done|]. intros fd. cbn.
      destruct (decide (fd = tiny_new w)) as [->|Hne]; [rewrite Hnl; by repeat case_match|].
      by rewrite (bool_decide_ext (fd ∈ tiny_new w :: _) (fd ∈ tk_open (kernel w))) by set_solver.
    + cbn. by rewrite elem_of_list_to_set.
    + done.
    + cbn. by apply bool_decide_eq_true, elem_of_cons; left.
    + exact Hnc.
    + done.
  - intros fd w e w' Hok [= <- <-]. split_and!; [by apply tiny_set_same|done..].
  - intros fd w e w' Hok [= <- <-]. split_and!; [by split|done..].
  - intros fd w Hok Hf. split_and!.
    + apply tiny_set_same; [done|]. intros fd'. cbn.
      destruct (decide (fd' = fd)) as [->|Hne].
      * rewrite bool_decide_eq_false_2 by (rewrite list_elem_of_filter; naive_solver).
        destruct (watched (kernel w) fd) as [ev|] eqn:Hw; [|exact (eq_sym Hw)].
        destruct (ok_watched w Hok _ _ Hw) as (p & c & Hc & <- & Hi & _).
        assert (channels_ (poller w) !! fd_ c = Some p) as Hs
          by (apply (ok_map w Hok); exists c; by rewrite Hi).
        cbn in Hf. congruence.
      * by rewrite (bool_decide_ext (fd' ∈ filter _ _) (fd' ∈ tk_open (kernel w)))
          by (rewrite list_elem_of_filter; naive_solver).
    + cbn. apply set_eq. intros x. rewrite elem_of_difference, !elem_of_list_to_set,
        list_elem_of_filter, elem_of_singleton. naive_solver.
    + done.
    + intros fd' Hne. cbn. rewrite !bool_decide_eq_true, list_elem_of_filter. done.
  - split; [done| |]; intros p w w' H; cbn.
    + injection (keeps_open_update p _ _ _ H) as -> _. done.
    + injection (keeps_open_remove p _ _ _ H) as -> _. done.
Qed.
End tiny_client.

Section witnesses.
#[local] Existing Instance tiny_epoll.

#[local] Instance any_alloc : Allocator := {| malloc := fresh; malloc_fresh := is_fresh |}.

(** The first connection attempt is refused, the others get under way. *)
Definition refused_once (t : Z) : Z := if t =? 0 then ECONNREFUSED else EINPROGRESS.

#[local] Instance once_ops : ConnectOps PollerWorld := tiny_connect refused_once.
#[local] Instance once_laws : ConnectLaws PollerWorld := tiny_connect_laws refused_once.

Definition quiet_loop : PollerWorld := fresh_world (mkTiny ∅ [] ∅ 0 : @Kernel micros tiny_epoll).

Lemma quiet_ok : loop_ok quiet_loop.
Proof.
  apply (fresh_represents (λ _, false) (mkTiny ∅ [] ∅ 0 : @Kernel micros tiny_epoll)); [|done].
  done.
Qed.

Definition a_session : list cevent :=
  [CStart; CTimer 0; CReady POLLOUT (tick 5); CFunctor; CStop; CFunctor].

(** Refused, tried again, connected and handed over. *)
Definition final (r : result (unit * KWorld (W := PollerWorld))) : option (list Z * list Z) :=
  match r with Ok (_, w) => Some (delivered w, ctimers w) | Fault _ => None end.

Example a_session_delivers :
  final (csession a_session (new_connector quiet_loop)) = Some ([3], []).
Proof. vm_compute. reflexivity. Qed.

Lemma csession_safe_witness :
  wp (csession a_session) (λ _ w', socks (lw w') = held w' ∪ list_to_set (delivered w'))
    (new_connector quiet_loop).
Proof.
  eapply wp_mono.
  - apply (csession_safe a_session quiet_loop); [exact quiet_ok|reflexivity|].
    intros p x _. exact I.
  - intros _ w' (_ & H & _). exact H.
Defined.

(** A network that refuses every attempt. *)
Lemma retry_backoff_witness :
  wp (csession (CO := tiny_connect (λ _, ECONNREFUSED)) (CStart :: replicate 7 (CTimer 0)))
    (λ _ w', ctimers w' = [30000]) (new_connector quiet_loop).
Proof.
  eapply wp_mono.
  - apply (retry_backoff (CO := tiny_connect (λ _, ECONNREFUSED))
      (KL := tiny_connect_laws (λ _, ECONNREFUSED)) 7 quiet_loop); [exact quiet_ok|reflexivity|].
    intros fd x e x' _ H. injection H as <- _. unfold try_again. rewrite !elem_of_cons. tauto.
  - intros _ w' (H & _). exact H.
Defined.

Lemma restarted_during_retry_witness :
  for_each [CStart; CStop; CFunctor; CStart; CTimer 0] cstep (new_connector quiet_loop)
  = Fault AssertFailed.
Proof.
  eapply (restarted_during_retry quiet_loop); [exact quiet_ok|reflexivity..| |reflexivity|reflexivity|].
  - change (ECONNREFUSED ∈ try_again). unfold try_again. rewrite !elem_of_cons. tauto.
  - change (EINPROGRESS ∈ under_way). unfold under_way. rewrite !elem_of_cons. tauto.
Defined.
End witnesses.
