(* ===== verification/LoopThreads.v ===== *)
(** * LoopThreads: one loop thread and its clients (EventLoop.h, EventLoop.cc)

    The part of [EventLoop] that several threads use -- [queueInLoop], [quit],
    [wakeup] against [loop] and [doPendingFunctors] -- as a transition system.
    A step is one access to a shared variable or one system call; the mutex
    makes a [push_back] and the [swap] single steps. *)

From Stdlib Require Import ZArith Lia.
From stdpp Require Import list relations.
From S2P Require Import Prelude.

(** eventfd(2), as far as the loop uses it: written by [wakeup], read by
    [handleRead], polled for reading. *)
Class Eventfd := {
  EV : Type;
  ev_init : EV;
  ev_write : EV -> EV;
  ev_read : EV -> EV;
  ev_readable : EV -> bool;
}.

Class EventfdLaws (EF : Eventfd) := {
  ev_init_law : ev_readable ev_init = false;
  ev_write_law : ∀ e, ev_readable (ev_write e) = true;
  ev_read_law : ∀ e, ev_readable (ev_read e) = false;
}.

Section threads.
Context {EF : Eventfd} {F : Type}.

(** What a callback or a functor does with the loop it runs in. *)
Inductive act := AQueue (f : F) | AQuit.

(** The channels returned by poll: the wake-up channel, or another one whose
    callback makes a call. *)
Inductive item := Wake | Act (a : act).

(** Where the loop thread is. *)
Inductive pc :=
  | Idle                                   (** outside [loop()] *)
  | Started                                (** between [looping_ = true] and [quit_ = false] *)
  | Test                                   (** at [while (!quit_)] *)
  | Poll                                   (** in [poll] *)
  | Events (todo : list item)              (** calling [handleEvent] *)
  | Swap                                   (** [callingPendingFunctors_] is set *)
  | Run (now : list act) (rest : list F).  (** running the functors taken *)

(** Calls of other threads that are under way: [queueInLoop] before its
    [wakeup]; [quit] after having read [looping_]; [quit] before its [wakeup]. *)
Inductive call := QWake | QuitSet | QuitClear | QuitWake.

#[export] Instance call_eq_dec : EqDecision call.
Proof. solve_decision. Defined.

Record state := mkState {
  looping_ : bool;
  quit_ : bool;
  callingPendingFunctors_ : bool;
  pendingFunctors_ : list F;
  wakeupFd_ : EV;
  at_ : pc;
  calls : list call;
  (** History: all functors queued, the functors started, and whether one was
      queued by the loop's own thread while it was not in [loop()]. *)
  queued : list F;
  executed : list F;
  early : bool;
}.

Definition init : state :=
  mkState false false false [] ev_init Idle [] [] [] false.

Definition push (f : F) (s : state) : state :=
  {| s with pendingFunctors_ := pendingFunctors_ s ++ [f]; queued := queued s ++ [f] |}.
Definition wakeup (s : state) : state := {| s with wakeupFd_ := ev_write (wakeupFd_ s) |}.
Definition go (p : pc) (s : state) : state := {| s with at_ := p |}.

(** [queueInLoop(f)] by the loop thread. *)
Definition queueInLoop_own (f : F) (s : state) : state :=
  let s1 := push f s in
  if callingPendingFunctors_ s then wakeup s1
  else match at_ s with
       | Idle | Started => {| s1 with early := true |}
       | _ => s1
       end.

(** [quit()] by the loop thread. *)
Definition quit_own (s : state) : state :=
  if looping_ s then {| s with quit_ := true |} else {| s with quit_ := false |}.

Definition own (a : act) (s : state) : state :=
  match a with AQueue f => queueInLoop_own f s | AQuit => quit_own s end.

(** What the functors do when they run. *)
Context (behaviour : F -> list act).

(** One step of the loop thread. *)
Inductive loop_step : state -> state -> Prop :=
  | l_outside s a : at_ s = Idle -> loop_step s (own a s)
  | l_start s : at_ s = Idle -> looping_ s = false ->
      loop_step s (go Started {| s with looping_ := true |})
  | l_clear s : at_ s = Started -> loop_step s (go Test {| s with quit_ := false |})
  | l_exit s : at_ s = Test -> quit_ s = true ->
      loop_step s (go Idle {| s with looping_ := false |})
  | l_enter s : at_ s = Test -> quit_ s = false -> loop_step s (go Poll s)
  | l_poll s todo : at_ s = Poll ->
      (Wake ∈ todo -> ev_readable (wakeupFd_ s) = true) ->
      loop_step s (go (Events todo) s)
  | l_wake s todo : at_ s = Events (Wake :: todo) ->
      loop_step s (go (Events todo) {| s with wakeupFd_ := ev_read (wakeupFd_ s) |})
  | l_event s a todo : at_ s = Events (Act a :: todo) ->
      loop_step s (go (Events todo) (own a s))
  | l_calling s : at_ s = Events [] ->
      loop_step s (go Swap {| s with callingPendingFunctors_ := true |})
  | l_swap s : at_ s = Swap ->
      loop_step s (go (Run [] (pendingFunctors_ s)) {| s with pendingFunctors_ := []; early := false |})
  | l_next s f rest : at_ s = Run [] (f :: rest) ->
      loop_step s (go (Run (behaviour f) rest) {| s with executed := executed s ++ [f] |})
  | l_act s a now rest : at_ s = Run (a :: now) rest ->
      loop_step s (go (Run now rest) (own a s))
  | l_done s : at_ s = Run [] [] ->
      loop_step s (go Test {| s with callingPendingFunctors_ := false |}).

(** One step of another thread. *)
Inductive other_step : state -> state -> Prop :=
  | o_push s f : other_step s {| (push f s) with calls := QWake :: calls s |}
  | o_wake s c1 c2 : calls s = c1 ++ QWake :: c2 ->
      other_step s {| (wakeup s) with calls := c1 ++ c2 |}
  | o_quit s : other_step s
      {| s with calls := (if looping_ s then QuitSet else QuitClear) :: calls s |}
  | o_quit_clear s c1 c2 : calls s = c1 ++ QuitClear :: c2 ->
      other_step s {| s with quit_ := false; calls := c1 ++ c2 |}
  | o_quit_set s c1 c2 : calls s = c1 ++ QuitSet :: c2 ->
      other_step s {| s with quit_ := true; calls := c1 ++ QuitWake :: c2 |}
  | o_quit_wake s c1 c2 : calls s = c1 ++ QuitWake :: c2 ->
      other_step s {| (wakeup s) with calls := c1 ++ c2 |}.

Definition step (s s' : state) : Prop := loop_step s s' ∨ other_step s s'.

Definition reachable (s : state) : Prop := rtc step init s.

(** Functors taken by the swap and not started yet. *)
Definition taken (s : state) : list F :=
  match at_ s with Run _ rest => rest | _ => [] end.
End threads.

Arguments act F : clear implicits.
Arguments item F : clear implicits.
Arguments pc F : clear implicits.
Arguments state {EF} F.

(** ** Invariants *)
Section invariants.
#[local] Set Default Proof Using "Type*".
Context {EF : Eventfd} {EL : EventfdLaws EF} {F : Type} (behaviour : F -> list (act F)).
Implicit Types (s : state F) (f : F).

(** The poll of the loop returns, now or when a call under way has finished. *)
Definition will_wake (c : call) s : Prop :=
  ev_readable (wakeupFd_ s) = true ∨ c ∈ calls s.

(** Places from which the loop polls before it looks at the functors. *)
Definition before_poll (p : pc F) : bool :=
  match p with Events _ | Swap => false | _ => true end.

Definition in_pending_phase (p : pc F) : bool :=
  match p with Swap | Run _ _ => true | _ => false end.

Record loop_inv s : Prop := {
  li_calling : callingPendingFunctors_ s = in_pending_phase (at_ s);
  li_looping : looping_ s = negb (match at_ s with Idle => true | _ => false end);
  li_fifo : executed s ++ taken s ++ pendingFunctors_ s = queued s;
  li_wake : before_poll (at_ s) = true -> pendingFunctors_ s ≠ [] ->
    will_wake QWake s ∨ early s = true;
  li_quit : at_ s = Poll -> quit_ s = true -> will_wake QuitWake s;
}.

Lemma init_inv : loop_inv init.
Proof using Type. by split. Qed.

(** The wake-up descriptor stays readable until it is read. *)
Lemma will_wake_calls c s s' : will_wake c s ->
  (ev_readable (wakeupFd_ s) = true -> ev_readable (wakeupFd_ s') = true) ->
  (c ∈ calls s -> c ∈ calls s' ∨ ev_readable (wakeupFd_ s') = true) -> will_wake c s'.
Proof using Type. unfold will_wake. naive_solver. Qed.

Lemma own_inv a s p : loop_inv s -> at_ s ≠ Poll -> at_ s ≠ Test ->
  before_poll p = before_poll (at_ s) -> in_pending_phase p = in_pending_phase (at_ s) ->
  (p = Idle ↔ at_ s = Idle) -> p ≠ Poll -> taken (go p s) = taken s ->
  loop_inv (go p (own a s)).
Proof.
  intros [Hc Hl Hf Hw Hq] Hnp Hnt Hbp Hpp Hid Hpn Htk.
  assert (Hl' : looping_ s = negb (match p with Idle => true | _ => false end)).
  { rewrite Hl. destruct p, (at_ s) eqn:E; try done; exfalso; naive_solver. }
  unfold taken in Htk. cbn in Htk.
  destruct a as [f|]; cbn.
  - assert (Hf' : executed s ++ match p with Run _ rest => rest | _ => [] end
                  ++ (pendingFunctors_ s ++ [f]) = queued s ++ [f]).
    { rewrite Htk, <- Hf. unfold taken. by rewrite !app_assoc. }
    unfold queueInLoop_own. rewrite Hc. destruct (in_pending_phase (at_ s)) eqn:Epp.
    + split; cbn; rewrite ?Hpp; try done.
      intros _ _. left. left. apply ev_write_law.
    + destruct (at_ s) eqn:Eat; try done; split; cbn; rewrite ?Hpp, ?Hbp; try done;
        intros; by right.
  - assert (Hgen : ∀ b, loop_inv (go p {| s with quit_ := b |})).
    { intros b. split; cbn; [by rewrite Hpp|done|..].
      - unfold taken. cbn. by rewrite Htk.
      - rewrite Hbp. exact Hw.
      - done. }
    unfold quit_own. destruct (looping_ s); apply Hgen.
Qed.

(** Moves of the loop thread between places where nothing changes hands. *)
Lemma go_inv s p : loop_inv s -> in_pending_phase p = callingPendingFunctors_ s ->
  looping_ s = negb (match p with Idle => true | _ => false end) ->
  taken (go p s) = taken s ->
  (before_poll p = true -> before_poll (at_ s) = true ∨ pendingFunctors_ s = []) ->
  (p = Poll -> quit_ s = false) -> loop_inv (go p s).
Proof using Type.
  intros [Hc Hl Hf Hw Hq] Hpp Hlp Htk Hbp Hpq. split; cbn; try done.
  - by rewrite Htk.
  - intros Hp Hne. destruct (Hbp Hp); [by apply Hw|done].
  - intros Hp Hqt. rewrite (Hpq Hp) in Hqt. done.
Qed.

Lemma loop_step_inv s s' : loop_inv s -> loop_step behaviour s s' -> loop_inv s'.
Proof.
  intros Hi Hst. pose proof Hi as [Hc Hl Hf Hw Hq]. unfold taken in Hf.
  destruct Hst as [s a Ha|s Ha Hx|s Ha|s Ha Hx|s Ha Hx|s todo Ha Hx|s todo Ha|s a todo Ha|s Ha|s Ha
    |s f rest Ha|s a now rest Ha|s Ha]; rewrite Ha in *; cbn in Hc, Hl, Hf.
  - assert (Hgo : ∀ x : state F, at_ x = Idle -> go Idle x = x) by by intros [] [= ->].
    assert (Hat : at_ (own a s) = Idle).
    { destruct a; cbn; unfold queueInLoop_own, quit_own; repeat case_match; done. }
    rewrite <- (Hgo _ Hat). apply own_inv; rewrite ?Ha; try done. unfold taken. cbn. by rewrite Ha.
  - split; cbn; try done.
  - split; cbn; try done.
  - split; cbn; try done.
  - split; cbn; try done. by rewrite Hx.
  - split; cbn; try done.
  - split; cbn; try done.
  - apply own_inv; rewrite ?Ha; try done. unfold taken. cbn. by rewrite Ha.
  - split; cbn; try done.
  - split; cbn; try done. by rewrite app_nil_r.
  - split; cbn; try done. by rewrite <- app_assoc.
  - apply own_inv; rewrite ?Ha; try done. unfold taken. cbn. by rewrite Ha.
  - split; cbn; try done.
Qed.

Lemma other_step_inv s s' : loop_inv s -> other_step s s' -> loop_inv s'.
Proof.
  intros Hi Hst. pose proof Hi as [Hc Hl Hf Hw Hq].
  destruct Hst as [s f|s c1 c2 Hcs|s|s c1 c2 Hcs|s c1 c2 Hcs|s c1 c2 Hcs]; split; cbn; try done.
  - unfold taken. cbn. fold (taken s). by rewrite <- Hf, !app_assoc.
  - intros _ _. left. right. by left.
  - intros Ha Hqt. destruct (Hq Ha Hqt) as [?|?]; [by left|]. right. by right.
  - intros _ _. left. left. apply ev_write_law.
  - intros _ _. left. apply ev_write_law.
  - intros Hb Hne. destruct (Hw Hb Hne) as [[?|?]|?]; [left; by left| |by right].
    left. right. by right.
  - intros Ha Hqt. destruct (Hq Ha Hqt) as [?|?]; [by left|]. right. by right.
  - intros Hb Hne. destruct (Hw Hb Hne) as [[?|Hin]|?]; [left; by left| |by right].
    left. right. rewrite Hcs in Hin. cbn. set_solver.
  - intros Hb Hne. destruct (Hw Hb Hne) as [[?|Hin]|?]; [left; by left| |by right].
    left. right. rewrite Hcs in Hin. cbn. set_solver.
  - intros _ _. right. cbn. set_solver.
  - intros _ _. left. left. apply ev_write_law.
  - intros _ _. left. apply ev_write_law.
Qed.

Lemma reachable_inv s : reachable behaviour s -> loop_inv s.
Proof.
  intros Hr. unfold reachable in Hr.
  refine (rtc_ind_r (λ x, loop_inv x) init _ _ s Hr); [apply init_inv|].
  intros x y _ [H|H] Hx; [by eapply loop_step_inv|by eapply other_step_inv].
Qed.
End invariants.

(** ** Progress of the loop thread *)
Tactic Notation "prompt_step" uconstr(c) := split; [by (apply c; auto)|by cbn; intros; congruence].

Section progress.
Context {EF : Eventfd} {F : Type} (behaviour : F -> list (act F)).
Implicit Types (s : state F) (f : F).

(** Steps for progress: [poll] returns only when there is a wake-up to read, not
    because its time is over or another descriptor is ready. *)
Definition prompt s s' : Prop :=
  loop_step behaviour s s' ∧ (at_ s = Poll -> ev_readable (wakeupFd_ s) = true).

(** [quit_] stays set while the loop works. *)
Definition keeps_quit s s' : Prop :=
  looping_ s' = looping_ s ∧ (looping_ s = true -> quit_ s = true -> quit_ s' = true).

Lemma keeps_quit_refl s : keeps_quit s s.
Proof. done. Qed.

Lemma keeps_quit_trans s1 s2 s3 : keeps_quit s1 s2 -> keeps_quit s2 s3 -> keeps_quit s1 s3.
Proof. unfold keeps_quit. intros [H1 H2] [H3 H4]. split; [congruence|]. rewrite H1 in H4. auto. Qed.

Lemma own_keeps a s p : keeps_quit s (go p (own a s)) ∧ executed (own a s) = executed s.
Proof.
  destruct a as [f|]; cbn; unfold queueInLoop_own, quit_own, keeps_quit; cbn.
  - destruct (callingPendingFunctors_ s), (at_ s); done.
  - destruct (looping_ s) eqn:E; cbn; rewrite ?E; done.
Qed.

Lemma run_acts now rest s : at_ s = Run now rest -> ∃ s',
  rtc prompt s s' ∧ at_ s' = Run [] rest ∧ executed s' = executed s
  ∧ keeps_quit s s'.
Proof.
  revert s. induction now as [|a now IH]; intros s Ha.
  - exists s. split_and!; [done..|apply keeps_quit_refl].
  - destruct (own_keeps a s (Run now rest)) as [Hk He].
    destruct (IH (go (Run now rest) (own a s)) eq_refl) as (s' & Hr & Ha' & He' & Hk').
    exists s'. split_and!; [|done| |].
    + eapply rtc_l; [prompt_step l_act|exact Hr].
    + rewrite He'. exact He.
    + by eapply keeps_quit_trans.
Qed.

Lemma run_functors fs s : at_ s = Run [] fs -> ∃ s',
  rtc prompt s s' ∧ at_ s' = Run [] [] ∧ executed s' = executed s ++ fs
  ∧ keeps_quit s s'.
Proof.
  revert s. induction fs as [|f fs IH]; intros s Ha.
  - exists s. split_and!; [done|done|by rewrite app_nil_r|apply keeps_quit_refl].
  - set (s1 := go (Run (behaviour f) fs) {| s with executed := executed s ++ [f] |}).
    destruct (run_acts (behaviour f) fs s1 eq_refl) as (s2 & Hr2 & Ha2 & He2 & Hk2).
    destruct (IH s2 Ha2) as (s3 & Hr3 & Ha3 & He3 & Hk3).
    exists s3. split_and!; [|done| |].
    + eapply rtc_l; [prompt_step l_next|]. by etrans.
    + rewrite He3, He2. cbn. by rewrite <- app_assoc.
    + eapply keeps_quit_trans; [|exact Hk3]. exact Hk2.
Qed.

Lemma one_round s : at_ s = Poll -> ev_readable (wakeupFd_ s) = true -> ∃ s',
  rtc prompt s s' ∧ at_ s' = Test
  ∧ executed s' = executed s ++ pendingFunctors_ s ∧ keeps_quit s s'.
Proof.
  intros Ha Hrd.
  set (s1 := go (Events [Wake]) s).
  set (s2 := go (Events []) {| s1 with wakeupFd_ := ev_read (wakeupFd_ s1) |}).
  set (s3 := go Swap {| s2 with callingPendingFunctors_ := true |}).
  set (s4 := go (Run [] (pendingFunctors_ s3)) {| s3 with pendingFunctors_ := []; early := false |}).
  destruct (run_functors (pendingFunctors_ s3) s4 eq_refl) as (s5 & Hr5 & Ha5 & He5 & Hk5).
  exists (go Test {| s5 with callingPendingFunctors_ := false |}). split_and!; [|done|exact He5|].
  - eapply rtc_l; [prompt_step (l_poll behaviour s [Wake])|].
    eapply rtc_l; [prompt_step l_wake|]. eapply rtc_l; [prompt_step l_calling|].
    eapply rtc_l; [prompt_step l_swap|]. eapply rtc_r; [exact Hr5|prompt_step l_done].
  - exact Hk5.
Qed.

Lemma run_events todo s : at_ s = Events todo -> ∃ s',
  rtc prompt s s' ∧ at_ s' = Events [] ∧ keeps_quit s s'.
Proof.
  revert s. induction todo as [|[|a] todo IH]; intros s Ha.
  - exists s. by split.
  - destruct (IH (go (Events todo) {| s with wakeupFd_ := ev_read (wakeupFd_ s) |}) eq_refl) as (s' & Hr & Ha' & Hk).
    exists s'. split_and!; [eapply rtc_l; [prompt_step l_wake|exact Hr]|done|exact Hk].
  - destruct (IH (go (Events todo) (own a s)) eq_refl) as (s' & Hr & Ha' & Hk).
    exists s'. split_and!; [eapply rtc_l; [prompt_step l_event|exact Hr]|done|].
    eapply keeps_quit_trans; [apply (own_keeps a s)|exact Hk].
Qed.

(** The rest of an iteration, from its middle. *)
Lemma rest_of_round s : (match at_ s with Events _ | Swap | Run _ _ => True | _ => False end) -> ∃ s',
  rtc prompt s s' ∧ at_ s' = Test ∧ keeps_quit s s'.
Proof.
  assert (Hrun : ∀ now fs x, at_ x = Run now fs -> ∃ x',
    rtc prompt x x' ∧ at_ x' = Test ∧ keeps_quit x x').
  { intros now fs x Hx. destruct (run_acts now fs x Hx) as (x1 & Hr1 & Ha1 & _ & Hk1).
    destruct (run_functors fs x1 Ha1) as (x2 & Hr2 & Ha2 & _ & Hk2).
    exists (go Test {| x2 with callingPendingFunctors_ := false |}). split_and!; [|done|].
    - etrans; [exact Hr1|]. eapply rtc_r; [exact Hr2|prompt_step l_done].
    - eapply keeps_quit_trans; [exact Hk1|exact Hk2]. }
  assert (Hswap : ∀ x, at_ x = Swap -> ∃ x',
    rtc prompt x x' ∧ at_ x' = Test ∧ keeps_quit x x').
  { intros x Hx. destruct (Hrun [] (pendingFunctors_ x)
      (go (Run [] (pendingFunctors_ x)) {| x with pendingFunctors_ := []; early := false |}) eq_refl)
      as (x' & Hr & Ha & Hk).
    exists x'. split_and!; [eapply rtc_l; [prompt_step l_swap|exact Hr]|done|exact Hk]. }
  destruct (at_ s) as [| | | |todo| |now fs] eqn:Ha; try done; intros _; [|by apply Hswap|by eapply Hrun].
  destruct (run_events todo s Ha) as (s1 & Hr1 & Ha1 & Hk1).
  destruct (Hswap (go Swap {| s1 with callingPendingFunctors_ := true |}) eq_refl) as (s2 & Hr2 & Ha2 & Hk2).
  exists s2. split_and!; [|done|by eapply keeps_quit_trans].
  etrans; [exact Hr1|]. eapply rtc_l; [prompt_step l_calling|exact Hr2].
Qed.

(** Inside [loop()] nothing clears [quit_]. *)
Lemma step_keeps_quit s s' : loop_step behaviour s s' -> looping_ s = true -> at_ s ≠ Started ->
  quit_ s = true -> quit_ s' = true.
Proof.
  intros Hst Hl Ha Hq. destruct Hst; cbn; try done; try congruence;
    destruct a; cbn; unfold queueInLoop_own, quit_own; rewrite ?Hl; by repeat case_match.
Qed.
End progress.

(** A loop that has been told to quit, and woken, leaves [loop()] by itself. *)
Lemma leaves_loop {EF : Eventfd} {EL : EventfdLaws EF} {F : Type} (behaviour : F -> list (act F)) (s : state F) :
  reachable behaviour s -> at_ s ≠ Idle -> at_ s ≠ Started -> quit_ s = true -> (QuitWake ∉ calls s) ->
  ∃ s', rtc (prompt behaviour) s s' ∧ at_ s' = Idle.
Proof.
  intros Hr Hi Hst Hq Hc. pose proof (reachable_inv behaviour s Hr) as Hinv.
  assert (Hl : looping_ s = true) by (rewrite (li_looping _ Hinv); by destruct (at_ s)).
  assert (Ht : ∃ s1, rtc (prompt behaviour) s s1 ∧ at_ s1 = Test ∧ quit_ s1 = true).
  { destruct (at_ s) eqn:Ha; try done.
    - by exists s.
    - destruct (li_quit _ Hinv Ha Hq) as [Hrd|?]; [|done].
      destruct (one_round behaviour s Ha Hrd) as (s1 & ? & ? & _ & _ & Hk). exists s1. auto.
    - destruct (rest_of_round behaviour s) as (s1 & ? & ? & _ & Hk); [by rewrite Ha|]. exists s1. auto.
    - destruct (rest_of_round behaviour s) as (s1 & ? & ? & _ & Hk); [by rewrite Ha|]. exists s1. auto.
    - destruct (rest_of_round behaviour s) as (s1 & ? & ? & _ & Hk); [by rewrite Ha|]. exists s1. auto. }
  destruct Ht as (s1 & Hr1 & Ha1 & Hq1). eexists. split; [eapply rtc_r; [exact Hr1|prompt_step l_exit]|done].
Qed.

(** ** The properties *)

(** C7: No lost wake-up.  Whenever the loop is in poll while functors are
    pending, the wake-up descriptor is readable or a queueInLoop() of another
    thread is about to make it so -- unless the loop's own thread queued a
    functor before entering loop(), the one case in which queueInLoop() does
    not write.  Likewise, when quit_ is set, a wake-up is on its way. *)
Theorem no_lost_wakeup {EF : Eventfd} {EL : EventfdLaws EF} {F : Type}
    (behaviour : F -> list (act F)) (s : state F) :
  reachable behaviour s -> at_ s = Poll ->
  (pendingFunctors_ s ≠ [] -> will_wake QWake s ∨ early s = true)
  ∧ (quit_ s = true -> will_wake QuitWake s).
Proof.
  intros Hr Ha. destruct (reachable_inv behaviour s Hr) as [_ _ _ Hw Hq]. split.
  - apply Hw. by rewrite Ha.
  - by apply Hq.
Qed.

(** Functors are run exactly once and in order.  In every reachable state
    the functors queued so far, by whichever threads, are those already run,
    followed by those taken in the current round, followed by the pending ones. *)
Theorem functors_fifo {EF : Eventfd} {EL : EventfdLaws EF} {F : Type}
    (behaviour : F -> list (act F)) (s : state F) :
  reachable behaviour s ->
  queued s = executed s ++ taken s ++ pendingFunctors_ s.
Proof. intros Hr. symmetry. apply (li_fifo _ (reachable_inv behaviour s Hr)). Qed.

(** A woken loop makes progress.  When poll can return because of a
    wake-up, the loop thread on its own -- whatever the functors queue or do --
    finishes a round in which it runs all functors that were pending, in
    order; and if quit_ is set, it then leaves loop(). *)
Theorem woken_loop_progress {EF : Eventfd} {EL : EventfdLaws EF} {F : Type}
    (behaviour : F -> list (act F)) (s : state F) :
  reachable behaviour s -> at_ s = Poll -> ev_readable (wakeupFd_ s) = true ->
  ∃ s', rtc (prompt behaviour) s s' ∧ executed s' = executed s ++ pendingFunctors_ s
    ∧ (if quit_ s then at_ s' = Idle ∧ looping_ s' = false else at_ s' = Test).
Proof.
  intros Hr Ha Hrd. pose proof (li_looping _ (reachable_inv behaviour s Hr)) as Hl.
  rewrite Ha in Hl. cbn in Hl.
  destruct (one_round behaviour s Ha Hrd) as (s1 & Hr1 & Ha1 & He1 & Hl1 & Hq1).
  destruct (quit_ s) eqn:Hq; [|by exists s1].
  exists (go Idle {| s1 with looping_ := false |}). split_and!; try done.
  eapply rtc_r; [exact Hr1|]. prompt_step l_exit.
Qed.

(** A whole [quit()] by another thread. *)
Definition quit_other {EF : Eventfd} {F : Type} (s : state F) : state F :=
  if looping_ s then wakeup {| s with quit_ := true |} else {| s with quit_ := false |}.

Lemma quit_other_steps {EF : Eventfd} {F : Type} (s : state F) : rtc other_step s (quit_other s).
Proof.
  unfold quit_other. destruct (looping_ s) eqn:El.
  - eapply rtc_l; [apply o_quit|]. rewrite El.
    eapply rtc_l; [by apply (o_quit_set _ [] (calls s))|].
    eapply rtc_l; [by apply (o_quit_wake _ [] (calls s))|]. by destruct s.
  - eapply rtc_l; [apply o_quit|]. rewrite El.
    eapply rtc_l; [by apply (o_quit_clear _ [] (calls s))|]. by destruct s.
Qed.

(** An early quit() is lost.  If another thread's quit() runs completely
    before the loop thread has executed [quit_ = false] at the start of loop()
    -- whether looping_ was set already or not -- the loop can enter poll with
    quit_ false: nothing of the call is left, except a spurious wake-up if
    looping_ was set. *)
Theorem early_quit_lost {EF : Eventfd} {EL : EventfdLaws EF} {F : Type}
    (behaviour : F -> list (act F)) (s : state F) :
  reachable behaviour s -> at_ s = Idle ∨ at_ s = Started ->
  ∃ s', rtc (loop_step behaviour) (quit_other s) s' ∧ reachable behaviour s'
    ∧ at_ s' = Poll ∧ quit_ s' = false ∧ calls s' = calls s
    ∧ (at_ s = Idle -> wakeupFd_ s' = wakeupFd_ s).
Proof.
  intros Hr Ha. pose proof (li_looping _ (reachable_inv behaviour s Hr)) as Hl.
  assert (Hreach : ∀ s', rtc (loop_step behaviour) (quit_other s) s' -> reachable behaviour s').
  { intros s' H. unfold reachable. etrans; [exact Hr|]. etrans.
    - eapply rtc_subrel; [|apply quit_other_steps]. intros ???. by right.
    - eapply rtc_subrel; [|exact H]. intros ???. by left. }
  assert (Hstart : ∀ x : state F, at_ x = Started ->
    rtc (loop_step behaviour) x (go Poll (go Test {| x with quit_ := false |}))).
  { intros x Hx. eapply rtc_l; [by apply l_clear|]. eapply rtc_once. by apply l_enter. }
  destruct Ha as [Ha|Ha]; rewrite Ha in Hl; cbn in Hl.
  - assert (Hqo : quit_other s = {| s with quit_ := false |}) by (unfold quit_other; by rewrite Hl).
    rewrite Hqo in *. eexists. assert (Hrun : rtc (loop_step behaviour) {| s with quit_ := false |}
      (go Poll (go Test {| (go Started {| s with looping_ := true; quit_ := false |}) with quit_ := false |}))).
    { eapply rtc_l; [by apply l_start|]. by apply Hstart. }
    split_and!; [exact Hrun|by apply Hreach|done..].
  - assert (Hqo : quit_other s = wakeup {| s with quit_ := true |})
      by (unfold quit_other; by rewrite Hl).
    rewrite Hqo in *. eexists. split_and!; [by apply Hstart|by apply Hreach, Hstart|done..|].
    intros Hi. congruence.
Qed.

(** A functor queued before loop() waits.  When the loop's own thread calls
    queueInLoop() before loop(), the loop polls with the functor pending, the
    wake-up descriptor not readable and no call under way: it runs the functor
    only when poll returns for another reason, at the latest after the poll
    time-out of ten seconds. *)
Theorem early_functor_waits {EF : Eventfd} {EL : EventfdLaws EF} {F : Type}
    (behaviour : F -> list (act F)) (f : F) :
  ∃ s, reachable behaviour s ∧ at_ s = Poll ∧ pendingFunctors_ s = [f]
    ∧ ev_readable (wakeupFd_ s) = false ∧ calls s = [].
Proof.
  eexists. split_and!.
  - unfold reachable. eapply rtc_l; [left; by apply (l_outside _ init (AQueue f))|].
    eapply rtc_l; [left; by apply l_start|]. eapply rtc_l; [left; by apply l_clear|].
    eapply rtc_once. left. by apply l_enter.
  - done.
  - done.
  - apply ev_init_law.
  - done.
Qed.

(** ** Witnesses *)
Definition flag_eventfd : Eventfd := {|
  EV := bool; ev_init := false; ev_write := λ _, true; ev_read := λ _, false;
  ev_readable := λ b, b |}.

#[export] Instance flag_laws : EventfdLaws flag_eventfd.
Proof. by constructor. Qed.

(** Functor 1 queues functor 2. *)
Definition demo_behaviour (f : nat) : list (act nat) :=
  if (f =? 1)%nat then [AQueue 2%nat] else [].

(** The loop is in poll and another thread has queued functor 1. *)
Definition demo_state : @state flag_eventfd nat :=
  @mkState flag_eventfd nat true false false [1%nat] true Poll [] [1%nat] [] false.

Lemma demo_reachable : @reachable flag_eventfd nat demo_behaviour demo_state.
Proof.
  unfold reachable.
  eapply rtc_l; [left; by apply l_start|]. eapply rtc_l; [left; by apply l_clear|].
  eapply rtc_l; [left; by apply l_enter|]. eapply rtc_l; [right; apply (o_push _ 1%nat)|].
  eapply rtc_once. right.
  exact (@o_wake flag_eventfd nat
    (@mkState flag_eventfd nat true false false [1%nat] false Poll [QWake] [1%nat] [] false)
    [] [] eq_refl).
Qed.

Lemma no_lost_wakeup_witness : @will_wake flag_eventfd nat QWake demo_state ∨ early demo_state = true.
Proof.
  apply (@no_lost_wakeup flag_eventfd flag_laws nat demo_behaviour demo_state demo_reachable eq_refl).
  discriminate.
Defined.

Lemma functors_fifo_witness : queued demo_state = [] ++ [] ++ [1%nat].
Proof. exact (@functors_fifo flag_eventfd flag_laws nat demo_behaviour demo_state demo_reachable). Defined.

Lemma woken_loop_progress_witness : ∃ s' : @state flag_eventfd nat,
  rtc (@prompt flag_eventfd nat demo_behaviour) demo_state s' ∧ executed s' = [1%nat] ∧ at_ s' = Test.
Proof.
  exact (@woken_loop_progress flag_eventfd flag_laws nat demo_behaviour demo_state demo_reachable
    eq_refl eq_refl).
Defined.

Lemma early_quit_lost_witness : ∃ s' : @state flag_eventfd nat,
  at_ s' = Poll ∧ quit_ s' = false ∧ wakeupFd_ s' = false.
Proof.
  destruct (@early_quit_lost flag_eventfd flag_laws nat demo_behaviour init (rtc_refl _ _)
    (or_introl eq_refl)) as (s' & _ & _ & Ha & Hq & _ & Hw).
  exists s'. split; [exact Ha|]. split; [exact Hq|]. exact (Hw eq_refl).
Defined.

Lemma early_functor_waits_witness : ∃ s : @state flag_eventfd nat,
  @reachable flag_eventfd nat demo_behaviour s ∧ at_ s = Poll ∧ wakeupFd_ s = false.
Proof.
  destruct (@early_functor_waits flag_eventfd flag_laws nat demo_behaviour 1%nat)
    as (s & Hr & Ha & _ & Hw & _).
  exists s. split; [exact Hr|]. split; [exact Ha|exact Hw].
Defined.
