(* ===== verification/EventLoopThread.v ===== *)
(** * EventLoopThread: a thread with a loop, and its owner
    (EventLoopThread.h, EventLoopThread.cc)

    The owner's [startLoop] and destructor against the thread's [threadFunc], as
    a transition system.  The loop is the one of [LoopThreads.v]: [loop.loop()]
    is its [loop_step]s, the destructor's [loop_->quit()] is the [quit] of another
    thread there.  A step is one access to a shared variable, one operation on the
    mutex or the condition, or one step of the loop.

    [MutexLock], [Condition] and [Thread] belong to the submodule Base; they are
    taken as the POSIX objects they wrap: a mutex has one holder, [wait] releases
    it and may return without a reason, [notify] wakes the waiting thread. *)

From Stdlib Require Import ZArith Lia.
From stdpp Require Import list relations.
From S2P Require Import Prelude LoopThreads.

Inductive who := Owner | Worker.

#[export] Instance who_eq_dec : EqDecision who.
Proof. solve_decision. Defined.

(** Where [threadFunc] is. *)
Inductive worker_pc :=
  | WNone        (** the thread is not started *)
  | WCallback    (** [loop] is constructed, [callback_(&loop)] runs *)
  | WLock        (** about to take the mutex *)
  | WPublish     (** holding it, about to set [loop_] and notify *)
  | WEnter       (** about to call [loop.loop()] *)
  | WLoop        (** in [loop.loop()] *)
  | WEnd         (** about to take the mutex again *)
  | WClear       (** holding it, about to clear [loop_] *)
  | WGone.       (** [loop] is destroyed *)

(** Where the owner is. *)
Inductive owner_pc :=
  | ONew                     (** the object is constructed *)
  | OLock                    (** in [startLoop], about to take the mutex *)
  | OTest                    (** holding it, at [while (loop_ == nullptr)] *)
  | OWait                    (** in [cond_.wait()] *)
  | OWoken                   (** woken, about to take the mutex again *)
  | OReturned                (** [startLoop] has returned a loop *)
  | ODtor                    (** in the destructor, [exiting_] is set *)
  | OQuit                    (** at [loop_->quit()] *)
  | OCalling (c : call)      (** in [quit()] *)
  | OJoin                    (** in [thread_.join()] *)
  | ODone                    (** destroyed *)
  | OCrash.                  (** used a loop that is null or destroyed *)

#[export] Instance owner_pc_eq_dec : EqDecision owner_pc.
Proof. solve_decision. Defined.

Section threads.
Context {EF : Eventfd} {F : Type} (behaviour : F -> list (act F)).

Record tstate := mkT {
  loop_ : bool;              (** [loop_ != nullptr] *)
  exiting_ : bool;
  mutex_ : option who;
  worker : worker_pc;
  owner : owner_pc;
  lp : state F;              (** the thread's [EventLoop] *)
  selfquit : bool;           (** history: the loop's own code set [quit_] *)
}.

Definition tinit : tstate := mkT false false None WNone ONew init false.

(** [loop] is a living object. *)
Definition alive (s : tstate) : bool :=
  match worker s with WNone | WGone => false | _ => true end.

Definition owner_at (p : owner_pc) (s : tstate) : tstate := {| s with owner := p |}.
Definition worker_at (p : worker_pc) (s : tstate) : tstate := {| s with worker := p |}.
Definition set_lp (l : state F) (s : tstate) : tstate := {| s with lp := l |}.
Definition hold (h : option who) (s : tstate) : tstate := {| s with mutex_ := h |}.

(** [cond_.notify()]. *)
Definition notify (s : tstate) : tstate :=
  match owner s with OWait => owner_at OWoken s | _ => s end.

(** [startLoop()] and the destructor. *)
Inductive owner_step : tstate -> tstate -> Prop :=
  | os_start s : owner s = ONew -> worker s = WNone ->
      owner_step s (owner_at OLock (worker_at WCallback s))
  | os_lock s : owner s = OLock -> mutex_ s = None ->
      owner_step s (owner_at OTest (hold (Some Owner) s))
  | os_wait s : owner s = OTest -> loop_ s = false ->
      owner_step s (owner_at OWait (hold None s))
  | os_spurious s : owner s = OWait -> owner_step s (owner_at OWoken s)
  | os_relock s : owner s = OWoken -> mutex_ s = None ->
      owner_step s (owner_at OTest (hold (Some Owner) s))
  | os_return s : owner s = OTest -> loop_ s = true ->
      owner_step s (owner_at OReturned (hold None s))
  | os_dtor s : owner s = ONew ∨ owner s = OReturned ->
      owner_step s (owner_at ODtor {| s with exiting_ := true |})
  | os_nothing s : owner s = ODtor -> loop_ s = false -> owner_step s (owner_at ODone s)
  | os_something s : owner s = ODtor -> loop_ s = true -> owner_step s (owner_at OQuit s)
  (** [loop_->quit()] reads [loop_] again; [quit] reads [looping_] first. *)
  | os_quit s : owner s = OQuit -> loop_ s = true ->
      let c := if looping_ (lp s) then QuitSet else QuitClear in
      owner_step s (owner_at (OCalling c) (set_lp {| (lp s) with calls := c :: calls (lp s) |} s))
  | os_quit_null s : owner s = OQuit -> loop_ s = false -> owner_step s (owner_at OCrash s)
  | os_quit_clear s c1 c2 : owner s = OCalling QuitClear -> alive s = true ->
      calls (lp s) = c1 ++ QuitClear :: c2 ->
      owner_step s (owner_at OJoin (set_lp {| (lp s) with quit_ := false; calls := c1 ++ c2 |} s))
  | os_quit_set s c1 c2 : owner s = OCalling QuitSet -> alive s = true ->
      calls (lp s) = c1 ++ QuitSet :: c2 ->
      owner_step s (owner_at (OCalling QuitWake)
        (set_lp {| (lp s) with quit_ := true; calls := c1 ++ QuitWake :: c2 |} s))
  | os_quit_wake s c1 c2 : owner s = OCalling QuitWake -> alive s = true ->
      calls (lp s) = c1 ++ QuitWake :: c2 ->
      owner_step s (owner_at OJoin (set_lp {| (wakeup (lp s)) with calls := c1 ++ c2 |} s))
  | os_quit_dead s c : owner s = OCalling c -> alive s = false -> owner_step s (owner_at OCrash s)
  | os_join s : owner s = OJoin -> worker s = WGone -> owner_step s (owner_at ODone s).

(** [threadFunc()]. *)
Inductive worker_step : tstate -> tstate -> Prop :=
  | ws_callback s a : worker s = WCallback -> worker_step s (set_lp (own a (lp s)) s)
  | ws_called s : worker s = WCallback -> worker_step s (worker_at WLock s)
  | ws_lock s : worker s = WLock -> mutex_ s = None ->
      worker_step s (worker_at WPublish (hold (Some Worker) s))
  | ws_publish s : worker s = WPublish ->
      worker_step s (worker_at WEnter (hold None (notify {| s with loop_ := true |})))
  | ws_enter s : worker s = WEnter ->
      worker_step s (worker_at WLoop (set_lp (go Started {| (lp s) with looping_ := true |}) s))
  | ws_loop s l : worker s = WLoop -> loop_step behaviour (lp s) l ->
      worker_step s (worker_at (match at_ l with Idle => WEnd | _ => WLoop end)
        {| s with lp := l; selfquit := selfquit s || (quit_ l && negb (quit_ (lp s))) |})
  | ws_lock_again s : worker s = WEnd -> mutex_ s = None ->
      worker_step s (worker_at WClear (hold (Some Worker) s))
  | ws_clear s : worker s = WClear ->
      worker_step s (worker_at WGone (hold None {| s with loop_ := false |})).

(** Other threads queue functors in the loop that [startLoop] returned. *)
Inductive client_step : tstate -> tstate -> Prop :=
  | cs_push s f : alive s = true ->
      client_step s (set_lp {| (push f (lp s)) with calls := QWake :: calls (lp s) |} s)
  | cs_wake s c1 c2 : alive s = true -> calls (lp s) = c1 ++ QWake :: c2 ->
      client_step s (set_lp {| (wakeup (lp s)) with calls := c1 ++ c2 |} s).

Definition tstep (s s' : tstate) : Prop := owner_step s s' ∨ worker_step s s' ∨ client_step s s'.

(** Steps of the two threads of this class that have a reason: [wait] returns only
    after a [notify], and [poll] only when there is a wake-up to read. *)
Definition own_step (s s' : tstate) : Prop :=
  owner_step s s' ∧ owner s ≠ OWait
  ∨ worker_step s s' ∧ (worker s = WLoop -> at_ (lp s) = Poll -> ev_readable (wakeupFd_ (lp s)) = true).

Definition treachable (s : tstate) : Prop := rtc tstep tinit s.
End threads.

Arguments tstate {EF} F.

(** ** The invariant *)
Definition published (p : worker_pc) : bool :=
  match p with WEnter | WLoop | WEnd | WClear => true | _ => false end.
Definition past (p : worker_pc) : bool := match p with WEnd | WClear | WGone => true | _ => false end.

Definition running (p : worker_pc) : bool := match p with WLoop => true | _ => false end.

(** The owner's [quit()] has set [quit_]. *)
Definition quit_done (p : owner_pc) : bool :=
  match p with OCalling QuitWake | OJoin | ODone | OCrash => true | _ => false end.

(** The thread has been started and not been joined. *)
Definition started (p : owner_pc) : bool :=
  match p with ONew | ODtor | ODone => false | _ => true end.

Definition critical (p : worker_pc) : bool := match p with WPublish | WClear => true | _ => false end.

Definition holder (o : owner_pc) (p : worker_pc) : option who :=
  match o with OTest => Some Owner | _ => if critical p then Some Worker else None end.

Definition is_quit_call (c : call) : bool := match c with QWake => false | _ => true end.
Definition quit_calls (cs : list call) : list call := filter (λ c, is_quit_call c = true) cs.
Arguments quit_calls : simpl never.

Section invariant.
#[local] Set Default Proof Using "Type*".
Context {EF : Eventfd} {EL : EventfdLaws EF} {F : Type} (behaviour : F -> list (act F)).
Implicit Types (s : tstate F) (l : state F).

Record tinv s : Prop := {
  ti_reach : reachable behaviour (lp s);
  ti_at : running (worker s) = true ↔ at_ (lp s) ≠ Idle;
  ti_loop : loop_ s = published (worker s);
  ti_mutex : mutex_ s = holder (owner s) (worker s);
  ti_excl : owner s = OTest -> critical (worker s) = false;
  ti_new : owner s = ONew -> worker s = WNone;
  ti_started : started (owner s) = true -> worker s ≠ WNone;
  ti_wait : owner s = OWait -> loop_ s = false;
  ti_past : past (worker s) = true -> selfquit s = true ∨ quit_done (owner s) = true;
  ti_quit : worker s = WLoop -> at_ (lp s) ≠ Started -> quit_ (lp s) = true ->
    selfquit s = true ∨ quit_done (owner s) = true;
  ti_calls : owner s ≠ OCrash ->
    quit_calls (calls (lp s)) = match owner s with OCalling c => [c] | _ => [] end;
}.

Lemma tinit_inv : tinv tinit.
Proof. split; try done. apply rtc_refl. Qed.

Lemma quit_calls_app c1 c2 : quit_calls (c1 ++ c2) = quit_calls c1 ++ quit_calls c2.
Proof. apply filter_app. Qed.

(** A pending [quit] call is the owner's and the only one. *)
Lemma one_call c c1 c2 : is_quit_call c = true -> quit_calls (c1 ++ c :: c2) = [c] ->
  quit_calls c1 = [] ∧ quit_calls c2 = [].
Proof.
  intros Hc. rewrite quit_calls_app. unfold quit_calls at 2. rewrite filter_cons_True by done.
  fold (quit_calls c2). intros H. destruct (quit_calls c1) as [|d ds]; simplify_eq/=; [done|].
  by destruct ds.
Qed.

Lemma reach_step l l' : reachable behaviour l -> step behaviour l l' -> reachable behaviour l'.
Proof. intros Hr Hs. by eapply rtc_r. Qed.

(** The owner moves on. *)
Lemma tinv_owner s s' : tinv s -> worker s' = worker s -> loop_ s' = loop_ s -> selfquit s' = selfquit s ->
  reachable behaviour (lp s') -> at_ (lp s') = at_ (lp s) ->
  mutex_ s' = holder (owner s') (worker s) -> (owner s' = OTest -> critical (worker s) = false) ->
  owner s' ≠ ONew -> (started (owner s') = true -> worker s ≠ WNone) ->
  (owner s' = OWait -> loop_ s = false) ->
  (quit_done (owner s) = true -> quit_done (owner s') = true) ->
  (quit_ (lp s') = true -> quit_ (lp s) = true ∨ quit_done (owner s') = true) ->
  (owner s' ≠ OCrash ->
    quit_calls (calls (lp s')) = match owner s' with OCalling c => [c] | _ => [] end) ->
  tinv s'.
Proof.
  intros [] Hw Hl Hsq Hr Ha ????? Hd Hq ?. split; rewrite ?Hw, ?Hl, ?Hsq, ?Ha; try done.
  - intros Hp. destruct (ti_past0 Hp); auto.
  - intros Hwl Hs Hqt. destruct (Hq Hqt) as [Hqs|?]; [|by right].
    destruct (ti_quit0 Hwl Hs Hqs); auto.
Qed.

Lemma quit_call_other c cs : is_quit_call c = false -> quit_calls (c :: cs) = quit_calls cs.
Proof. intros Hc. unfold quit_calls. by rewrite filter_cons_False by by rewrite Hc. Qed.

Lemma quit_call_here c cs : is_quit_call c = true -> quit_calls (c :: cs) = c :: quit_calls cs.
Proof. intros Hc. unfold quit_calls. by rewrite filter_cons_True by by rewrite Hc. Qed.

(** The mutex is free only outside the critical sections. *)
Lemma free_critical s : tinv s -> mutex_ s = None -> critical (worker s) = false.
Proof. intros [] Hm. rewrite Hm in ti_mutex0. unfold holder in *. by destruct (owner s), (critical (worker s)). Qed.

Lemma owner_step_inv s s' : tinv s -> owner_step s s' -> tinv s'.
Proof.
  intros H Hst. pose proof H as [].
  assert (Hcall : ∀ c c1 c2 q, owner s = OCalling c -> is_quit_call c = true -> calls (lp s) = c1 ++ c :: c2 ->
    q ≠ OCrash -> quit_calls c1 = [] ∧ quit_calls c2 = []).
  { intros c c1 c2 q Ho Hc Hcs _. rewrite Ho in ti_calls0. apply (one_call c); [done|]. rewrite <- Hcs. by apply ti_calls0. }
  destruct Hst as [s Ho Hw|s Ho Hm|s Ho Hl|s Ho|s Ho Hm|s Ho Hl|s Ho|s Ho Hl|s Ho Hl|s Ho Hl c|s Ho Hl
    |s c1 c2 Ho Hal Hc|s c1 c2 Ho Hal Hc|s c1 c2 Ho Hal Hc|s c Ho Hal|s Ho Hw].
  all: try (apply (tinv_owner s); cbn; rewrite ?Ho in *; try done; auto using free_critical; fail).
  - destruct s. cbn in *. subst. split; cbn; try done. intros _; by apply ti_calls0.
  - apply (tinv_owner s); cbn; rewrite ?Ho in *; try done; auto.
    by rewrite (ti_excl0 eq_refl).
  - apply (tinv_owner s); cbn; rewrite ?Ho in *; try done; auto.
    by rewrite (ti_excl0 eq_refl).
  - destruct Ho as [Ho|Ho]; apply (tinv_owner s); cbn; rewrite ?Ho in *; try done; auto.
  - apply (tinv_owner s); cbn; rewrite ?Ho in *; try done; auto.
    intros _ Hw. by rewrite Hw in ti_loop0; rewrite Hl in ti_loop0.
  - apply (tinv_owner s); cbn; rewrite ?Ho in *; try done; auto.
    + eapply reach_step; [exact ti_reach0|]. right. unfold c. apply o_quit.
    + intros _. rewrite quit_call_here by (unfold c; by destruct (looping_ _)). by rewrite ti_calls0.
  - destruct (Hcall _ _ _ OJoin Ho eq_refl Hc) as [H1 H2]; [done|].
    apply (tinv_owner s); cbn; rewrite ?Ho in *; try done; auto.
    + eapply reach_step; [exact ti_reach0|]. right. by apply o_quit_clear.
    + intros _. by rewrite quit_calls_app, H1, H2.
  - destruct (Hcall _ _ _ OJoin Ho eq_refl Hc) as [H1 H2]; [done|].
    apply (tinv_owner s); cbn; rewrite ?Ho in *; try done; auto.
    + eapply reach_step; [exact ti_reach0|]. right. by apply o_quit_set.
    + intros _. by rewrite quit_calls_app, quit_call_here, H1, H2.
  - destruct (Hcall _ _ _ OJoin Ho eq_refl Hc) as [H1 H2]; [done|].
    apply (tinv_owner s); cbn; rewrite ?Ho in *; try done; auto.
    + eapply reach_step; [exact ti_reach0|]. right. by apply o_quit_wake.
    + intros _. by rewrite quit_calls_app, H1, H2.
Qed.

Lemma own_same a l : at_ (own a l) = at_ l ∧ calls (own a l) = calls l.
Proof. destruct a; cbn; unfold queueInLoop_own, quit_own; by repeat case_match. Qed.

(** A step of the loop that is running. *)
Lemma loop_step_quit l l' : loop_step behaviour l l' -> at_ l ≠ Idle ->
  (at_ l' ≠ Started) ∧ (at_ l' = Idle -> at_ l = Test ∧ quit_ l = true)
  ∧ (at_ l = Started -> quit_ l' = false) ∧ calls l' = calls l.
Proof.
  intros Hst Ha. destruct Hst; cbn; rewrite ?(proj2 (own_same _ _)); split_and!; try done; congruence.
Qed.

Lemma not_running s : tinv s -> running (worker s) = false -> at_ (lp s) = Idle.
Proof. intros [] Hr. destruct (at_ (lp s)) eqn:E; [done|..]; assert (running (worker s) = true) by (by apply ti_at0); congruence. Qed.

(** The thread moves on, outside the loop. *)
Lemma tinv_worker s s' : tinv s ->
  owner s' = owner s ∨ owner s = OWait ∧ owner s' = OWoken -> selfquit s' = selfquit s -> lp s' = lp s ->
  running (worker s) = false -> running (worker s') = false -> worker s ≠ WNone -> worker s' ≠ WNone ->
  loop_ s' = published (worker s') -> (owner s' = OWait -> loop_ s' = false) ->
  mutex_ s' = holder (owner s') (worker s') -> (owner s' = OTest -> critical (worker s') = false) ->
  (past (worker s') = true -> past (worker s) = true) -> tinv s'.
Proof.
  intros H Ho Hs Hl Hr Hr' Hn Hn' Hlp Hwt Hm He Hp. pose proof (not_running s H Hr) as Hi. destruct H.
  assert (Hq : quit_done (owner s') = quit_done (owner s)) by (by destruct Ho as [-> |[-> ->]]).
  split; rewrite ?Hq, ?Hs, ?Hl, ?Hi, ?Hr'; try done; auto.
  - intros Hnew. destruct Hn. apply ti_new0. destruct Ho as [<- |[? ?]]; congruence.
  - intros Hwl. by rewrite Hwl in Hr'.
  - by destruct Ho as [-> |[Hx ->]]; [|rewrite Hx in ti_calls0; intros _; apply ti_calls0].
Qed.

(** The thread holds the mutex or does not touch it. *)
Lemma free_owner s : tinv s -> mutex_ s = None ∨ critical (worker s) = true -> owner s ≠ OTest.
Proof.
  intros [] [Hm|Hc] Ho; [by rewrite ti_mutex0, Ho in Hm|].
  rewrite (ti_excl0 Ho) in Hc. done.
Qed.

Lemma holder_worker o p : o ≠ OTest -> holder o p = if critical p then Some Worker else None.
Proof. by destruct o. Qed.

Lemma worker_step_inv s s' : tinv s -> worker_step behaviour s s' -> tinv s'.
Proof.
  intros H Hst. pose proof (free_owner s H) as Hfree. pose proof (not_running s H) as Hidle. pose proof H as [].
  destruct Hst as [s a Hw|s Hw|s Hw Hm|s Hw|s Hw|s l Hw Hl|s Hw Hm|s Hw]; rewrite Hw in *.
  - specialize (Hidle eq_refl). destruct (own_same a (lp s)) as [Ha Hc].
    split; cbn; rewrite ?Hw, ?Ha, ?Hc; try done.
    eapply reach_step; [exact ti_reach0|]. left. by apply l_outside.
  - apply (tinv_worker s); cbn; rewrite ?Hw; auto.
  - rewrite Hm in *. apply (tinv_worker s); cbn; rewrite ?Hw; auto.
    + by rewrite holder_worker by auto.
    + intros Ho. by destruct Hfree; [left|].
  - apply (tinv_worker s); unfold notify; cbn; destruct (owner s) eqn:Ho; cbn; rewrite ?Hw, ?Ho; auto;
      try done; by destruct Hfree; [right|].
  - specialize (Hidle eq_refl). split; cbn; rewrite ?Hw; try done; auto.
    + eapply reach_step; [exact ti_reach0|]. left. apply l_start; [done|].
      by rewrite (li_looping _ (reachable_inv behaviour _ ti_reach0)), Hidle.
    + intros Ho. discriminate (ti_new0 Ho).
  - assert (Hat : at_ (lp s) ≠ Idle) by by apply ti_at0.
    destruct (loop_step_quit _ _ Hl Hat) as (Hns & Hid & Hst & Hcs).
    set (p := match at_ l with Idle => WEnd | _ => WLoop end).
    assert (Hp : p = WEnd ∧ at_ l = Idle ∨ p = WLoop ∧ at_ l ≠ Idle) by (unfold p; destruct (at_ l); auto).
    assert (Hqd : quit_ l = true -> at_ (lp s) ≠ Started ->
      selfquit s || quit_ l && negb (quit_ (lp s)) = true ∨ quit_done (owner s) = true).
    { intros Hq Hn. rewrite Hq. destruct (quit_ (lp s)) eqn:Hq0; [|left; by rewrite orb_true_r].
      destruct (ti_quit0 eq_refl Hn eq_refl) as [-> |?]; auto. }
    split; cbn; fold p; rewrite ?Hcs; auto.
    + eapply reach_step; [exact ti_reach0|by left].
    + by destruct Hp as [[-> ->]|[-> ?]].
    + by destruct Hp as [[-> ?]|[-> ?]].
    + by destruct Hp as [[-> ?]|[-> ?]].
    + by destruct Hp as [[-> ?]|[-> ?]].
    + intros Ho. discriminate (ti_new0 Ho).
    + by destruct Hp as [[-> ?]|[-> ?]].
    + intros Hpast. destruct Hp as [[_ Hi]|[-> ?]]; [|done]. destruct (Hid Hi) as [Ht Hq].
      destruct (ti_quit0 eq_refl) as [-> |?]; auto. by rewrite Ht.
    + intros _ Hn Hq. apply Hqd; [done|]. intros Hs. by rewrite Hst in Hq.
  - rewrite Hm in *. apply (tinv_worker s); cbn; rewrite ?Hw; auto.
    + by rewrite holder_worker by auto.
    + intros Ho. by destruct Hfree; [left|].
  - apply (tinv_worker s); cbn; rewrite ?Hw; auto.
    by rewrite holder_worker by auto.
Qed.

Lemma client_step_inv s s' : tinv s -> client_step s s' -> tinv s'.
Proof.
  intros [] Hst. destruct Hst as [s f Ha|s c1 c2 Ha Hc]; split; cbn; try done.
  - eapply reach_step; [exact ti_reach0|]. right. apply o_push.
  - eapply reach_step; [exact ti_reach0|]. right. by apply o_wake.
  - intros Ho. rewrite <- ti_calls0, Hc, !quit_calls_app by done. by rewrite quit_call_other.
Qed.

Lemma tstep_inv s s' : tinv s -> tstep behaviour s s' -> tinv s'.
Proof.
  intros H [Hs|[Hs|Hs]];
    [by eapply owner_step_inv|by eapply worker_step_inv|by eapply client_step_inv].
Qed.

Lemma treachable_inv s : treachable behaviour s -> tinv s.
Proof.
  intros Hr. refine (rtc_ind_r (λ x, tinv x) tinit _ _ s Hr); [apply tinit_inv|].
  intros x y _ Hxy Hx. by eapply tstep_inv.
Qed.

Lemma own_tstep s s' : rtc (own_step behaviour) s s' -> rtc (tstep behaviour) s s'.
Proof. apply rtc_subrel. intros x y [[? _]|[? _]]; [by left|by right; left]. Qed.

Lemma by_owner s s' : owner_step s s' -> owner s ≠ OWait -> own_step behaviour s s'.
Proof. by left. Qed.

Lemma by_worker s s' : worker_step behaviour s s' -> worker s ≠ WLoop -> own_step behaviour s s'.
Proof. right. by split. Qed.

Lemma rtc_inv s s' : tinv s -> rtc (tstep behaviour) s s' -> tinv s'.
Proof. intros H Hr. induction Hr as [|x y z Hxy _ IH]; [done|]. by eapply IH, tstep_inv. Qed.

Tactic Notation "by_os" uconstr(c) := apply by_owner; [by apply c|by cbn; congruence].
Tactic Notation "by_ws" uconstr(c) := apply by_worker; [by apply c|by cbn; congruence].

(** ** startLoop *)
Definition starting (p : owner_pc) : bool :=
  match p with OLock | OTest | OWait | OWoken => true | _ => false end.

(** The thread up to the point where [loop_] is set. *)
Lemma thread_publishes s : tinv s -> selfquit s = false -> starting (owner s) = true -> owner s ≠ OTest ->
  loop_ s = false -> ∃ s', rtc (own_step behaviour) s s' ∧ starting (owner s') = true
    ∧ loop_ s' = true ∧ worker s' = WEnter ∧ mutex_ s' = None.
Proof.
  intros H Hsq Ho Hnt Hl.
  assert (Hpub : ∀ x, worker x = WPublish -> starting (owner x) = true ->
    ∃ s', rtc (own_step behaviour) x s' ∧ starting (owner s') = true ∧ loop_ s' = true
      ∧ worker s' = WEnter ∧ mutex_ s' = None).
  { intros x Hw Hx. eexists. split; [eapply rtc_once; by_ws ws_publish|].
    split_and!; [|by unfold notify; cbn; destruct (owner x)|done|done].
    unfold notify. cbn. by destruct (owner x). }
  assert (Hlock : ∀ x, worker x = WLock -> mutex_ x = None -> starting (owner x) = true ->
    ∃ s', rtc (own_step behaviour) x s' ∧ starting (owner s') = true ∧ loop_ s' = true
      ∧ worker s' = WEnter ∧ mutex_ s' = None).
  { intros x Hw Hm Hx. destruct (Hpub (worker_at WPublish (hold (Some Worker) x)) eq_refl Hx) as (s' & Hr & ?).
    exists s'. split; [|done]. eapply rtc_l; [by_ws ws_lock|exact Hr]. }
  destruct H. assert (Hm : critical (worker s) = false -> mutex_ s = None).
  { intros Hc. by rewrite ti_mutex0, holder_worker, Hc by done. }
  assert (Hp : past (worker s) = false).
  { destruct (past (worker s)) eqn:Hp; [|done]. destruct (ti_past0 eq_refl) as [?|Hq]; [congruence|].
    by destruct (owner s) as [| | | | | | | |[]| | |]. }
  rewrite Hl in ti_loop0. destruct (worker s) eqn:Hw; try done; try congruence.
  - destruct (ti_started0); [|done]. by destruct (owner s).
  - destruct (Hlock (worker_at WLock s) eq_refl) as (s' & Hr & ?); [by apply Hm|done|].
    exists s'. split; [|done]. eapply rtc_l; [by_ws ws_called|exact Hr].
  - by apply Hlock; [|apply Hm|].
  - by apply Hpub.
Qed.

(** The owner, once [loop_] is set. *)
Lemma owner_returns s : tinv s -> loop_ s = true -> mutex_ s = None ∨ owner s = OTest ->
  starting (owner s) = true -> ∃ s', rtc (own_step behaviour) s s' ∧ owner s' = OReturned
    ∧ loop_ s' = true ∧ worker s' = worker s.
Proof.
  intros H Hl Hm Ho.
  assert (Htest : ∀ x, owner x = OTest -> loop_ x = true -> ∃ s', rtc (own_step behaviour) x s'
    ∧ owner s' = OReturned ∧ loop_ s' = true ∧ worker s' = worker x).
  { intros x Hx Hlx. eexists. by split; [eapply rtc_once; by_os os_return|]. }
  assert (Hlock : mutex_ s = None -> ∃ s', rtc (own_step behaviour) (owner_at OTest (hold (Some Owner) s)) s'
    ∧ owner s' = OReturned ∧ loop_ s' = true ∧ worker s' = worker s)
    by (intros _; exact (Htest (owner_at OTest (hold (Some Owner) s)) eq_refl Hl)).
  destruct (owner s) eqn:Hw; try done; try destruct Hm as [Hm|Hm]; try done.
  - destruct (Hlock Hm) as (s' & Hr & ?). exists s'. split; [|done].
    eapply rtc_l; [by_os os_lock|exact Hr].
  - by apply Htest.
  - by apply Htest.
  - by rewrite (ti_wait _ H Hw) in Hl.
  - destruct (Hlock Hm) as (s' & Hr & ?). exists s'. split; [|done].
    eapply rtc_l; [by_os os_relock|exact Hr].
Qed.

Lemma start_returns s : tinv s -> selfquit s = false -> starting (owner s) = true ->
  ∃ s', rtc (own_step behaviour) s s' ∧ owner s' = OReturned ∧ loop_ s' = true ∧ alive s' = true.
Proof.
  intros H Hsq Ho. destruct (loop_ s) eqn:Hl.
  - assert (Hp : worker s = WEnter ∨ worker s = WLoop).
    { destruct H. rewrite Hl in ti_loop0. destruct (worker s); try done; auto;
        destruct (ti_past0 eq_refl); try congruence; by destruct (owner s) as [| | | | | | | |[]| | |]. }
    destruct (owner_returns s H Hl) as (s' & ? & ? & ? & Hw); [|done|].
    + destruct (decide (owner s = OTest)); [by right|left].
      rewrite (ti_mutex _ H), holder_worker by done. by destruct Hp as [-> | ->].
    + exists s'. split_and!; try done. unfold alive. rewrite Hw. by destruct Hp as [-> | ->].
  - assert (Hout : ∃ s1, rtc (own_step behaviour) s s1 ∧ tinv s1 ∧ selfquit s1 = false
      ∧ starting (owner s1) = true ∧ owner s1 ≠ OTest ∧ loop_ s1 = false).
    { destruct (decide (owner s = OTest)) as [Ht|]; [|by exists s].
      assert (Hst : owner_step s (owner_at OWait (hold None s))) by by apply os_wait.
      eexists. split_and!; [apply rtc_once, by_owner; [exact Hst|by rewrite Ht]|by eapply owner_step_inv|done..]. }
    destruct Hout as (s1 & Hr1 & H1 & Hsq1 & Ho1 & Hnt & Hl1).
    destruct (thread_publishes s1 H1 Hsq1 Ho1 Hnt Hl1) as (s2 & Hr2 & Ho2 & Hl2 & Hw2 & Hm2).
    assert (H2 : tinv s2) by (eapply rtc_inv; [exact H1|by apply own_tstep]).
    destruct (owner_returns s2 H2 Hl2 (or_introl Hm2) Ho2) as (s3 & Hr3 & Ho3 & Hl3 & Hw3).
    exists s3. split_and!; [by etrans; [|etrans]|done|done|]. unfold alive. by rewrite Hw3, Hw2.
Qed.

(** ** The destructor *)

(** The loop has entered [while (!quit_)] and not left it. *)
Definition looping s : Prop := worker s = WLoop ∧ at_ (lp s) ≠ Started.

(** A destructor that runs then, with the [quit()] of the loop's own code out of
    the picture. *)
Definition leaving s : Prop :=
  match owner s with
  | OReturned | ODtor | OQuit | OCalling QuitSet => looping s
  | OCalling QuitWake | OJoin => (looping s ∧ quit_ (lp s) = true) ∨ past (worker s) = true
  | OCrash => worker s = WGone
  | ODone => True
  | _ => False
  end.

Lemma looping_step s s' : tinv s -> worker_step behaviour s s' -> looping s ->
  quit_ (lp s) = true ∨ selfquit s' = false ∧ quit_done (owner s) = false ->
  owner s' = owner s ∧ (looping s' ∧ (quit_ (lp s) = true -> quit_ (lp s') = true)
    ∨ quit_ (lp s) = true ∧ past (worker s') = true).
Proof.
  intros H Hst [Hw Hs] Hq. pose proof H as [].
  destruct Hst as [s a Hx|s Hx|s Hx Hm|s Hx|s Hx|s l Hx Hl|s Hx Hm|s Hx]; rewrite Hx in Hw; try done.
  split; [done|]. assert (Ha : at_ (lp s) ≠ Idle) by (apply ti_at0; by rewrite Hx).
  destruct (loop_step_quit _ _ Hl Ha) as (Hns & Hid & _ & _). cbn.
  destruct (quit_ (lp s)) eqn:Hqt.
  - destruct (at_ l) eqn:Hat; [by right|..]; left; (split; [by split; [|cbn; rewrite Hat]|]); intros _;
      eapply (step_keeps_quit behaviour (lp s)); try done;
      rewrite (li_looping _ (reachable_inv behaviour _ ti_reach0)); by destruct (at_ (lp s)).
  - left. split; [|done]. split; cbn; [|done].
    destruct (at_ l) eqn:Hat; try done. destruct (Hid eq_refl). congruence.
Qed.

Lemma selfquit_mono s s' : tstep behaviour s s' -> selfquit s' = false -> selfquit s = false.
Proof.
  intros [Hst|[Hst|Hst]]; destruct Hst; try done; cbn.
  - unfold notify. cbn. by destruct (owner s).
  - by intros [? _]%orb_false_elim.
Qed.

Lemma leaving_worker s s' : tinv s -> worker_step behaviour s s' -> selfquit s' = false ->
  leaving s -> leaving s'.
Proof.
  intros H Hst Hsq Hl.
  assert (Hpast : past (worker s) = true -> owner s' = owner s ∧ past (worker s') = true).
  { intros Hp. destruct Hst as [s a Hw|s Hw|s Hw Hm|s Hw|s Hw|s l Hw _|s Hw Hm|s Hw]; by rewrite Hw in Hp. }
  assert (Hgone : worker s = WGone -> False)
    by (intros Hg; destruct Hst as [s a Hw|s Hw|s Hw Hm|s Hw|s Hw|s l Hw _|s Hw Hm|s Hw]; congruence).
  assert (Hsq0 : selfquit s = false) by (apply (selfquit_mono s s'); [by right; left|done]).
  assert (Hnot : looping s -> quit_done (owner s) = false -> owner s' = owner s ∧ looping s').
  { intros Hlp Hq. destruct (looping_step s s' H Hst Hlp (or_intror (conj Hsq Hq))) as [Ho [[? _]|[Hqt _]]]; [done|].
    destruct (ti_quit _ H (proj1 Hlp) (proj2 Hlp) Hqt); congruence. }
  assert (Hset : looping s ∧ quit_ (lp s) = true ∨ past (worker s) = true -> owner s' = owner s ∧
    (looping s' ∧ quit_ (lp s') = true ∨ past (worker s') = true)).
  { intros [[Hlp Hq]|Hp]; [|by destruct (Hpast Hp); auto].
    destruct (looping_step s s' H Hst Hlp (or_introl Hq)) as [? [[? ?]|[_ ?]]]; auto 10. }
  unfold leaving in *. destruct (owner s) as [| | | | | | | |[]| | |] eqn:Ho; try done;
    try (by destruct (Hnot Hl eq_refl) as [-> ?]); try (by destruct (Hset Hl) as [-> ?]).
  - destruct Hst; cbn; by rewrite ?Ho.
Qed.

Lemma leaving_owner s s' : tinv s -> owner_step s s' -> selfquit s = false -> leaving s -> leaving s'.
Proof.
  intros H Hst Hsq Hl. unfold leaving in Hl.
  assert (Hloop : looping s -> loop_ s = true ∧ alive s = true ∧ looping_ (lp s) = true).
  { intros [Hw Hs]. unfold alive. destruct H. rewrite ti_loop0, Hw in *. split_and!; try done.
    rewrite (li_looping _ (reachable_inv behaviour _ ti_reach0)).
    assert (at_ (lp s) ≠ Idle) by (by apply ti_at0). by destruct (at_ (lp s)). }
  destruct Hst as [s Ho Hw|s Ho Hm|s Ho Hlp|s Ho|s Ho Hm|s Ho Hlp|s Ho|s Ho Hlp|s Ho Hlp|s Ho Hlp c|s Ho Hlp
    |s c1 c2 Ho Hal Hc|s c1 c2 Ho Hal Hc|s c1 c2 Ho Hal Hc|s c Ho Hal|s Ho Hw]; try rewrite Ho in Hl; try done.
  all: unfold leaving; cbn.
  - destruct Ho as [Ho|Ho]; by rewrite Ho in Hl.
  - unfold c. by destruct (Hloop Hl) as (_ & _ & ->).
  - destruct (Hloop Hl) as (? & ? & ?). congruence.
  - left. by destruct Hl.
  - destruct c; try done; [destruct (Hloop Hl) as (? & ? & ?); congruence|].
    unfold alive in Hal. destruct Hl as [[[Hw _] _]|Hp]; [by rewrite Hw in Hal|]. by destruct (worker s).
Qed.

Lemma leaving_client s s' : client_step s s' -> leaving s -> leaving s'.
Proof. intros Hst. by destruct Hst. Qed.

Lemma leaving_rtc s s' : tinv s -> rtc (tstep behaviour) s s' -> selfquit s' = false ->
  leaving s -> tinv s' ∧ leaving s'.
Proof.
  intros H Hr Hsq. refine (rtc_ind_r (λ x, selfquit x = false -> leaving s -> tinv x ∧ leaving x) s _ _ s' Hr Hsq).
  - done.
  - intros x y _ Hxy IH Hy Hs. pose proof (selfquit_mono x y Hxy Hy) as Hx. destruct (IH Hx Hs) as [Hi Hl].
    split; [by eapply tstep_inv|].
    destruct Hxy as [Ho|[Hw|Hc]]; [by eapply leaving_owner|by eapply leaving_worker|by eapply leaving_client].
Qed.

Lemma lift_loop l s : rtc (prompt behaviour) (lp s) l -> worker s = WLoop -> at_ (lp s) ≠ Idle ->
  at_ l = Idle -> ∃ s', rtc (own_step behaviour) s s' ∧ worker s' = WEnd ∧ owner s' = owner s ∧ mutex_ s' = mutex_ s.
Proof.
  intros Hr. remember (lp s) as l0 eqn:Hl0. revert s Hl0.
  induction Hr as [l0|l0 l1 l2 Hst Hr IH]; intros s -> Hw Ha Hi; [done|].
  destruct Hst as [Hst Hpoll].
  assert (Hs : own_step behaviour s (worker_at (match at_ l1 with Idle => WEnd | _ => WLoop end)
    {| s with lp := l1; selfquit := selfquit s || (quit_ l1 && negb (quit_ (lp s))) |}))
    by (right; split; [by apply ws_loop|done]).
  set (s1 := worker_at _ _) in Hs.
  assert (Hcase : at_ l1 = Idle ∧ worker s1 = WEnd ∨ at_ l1 ≠ Idle ∧ worker s1 = WLoop)
    by (unfold s1; cbn; destruct (at_ l1); auto).
  destruct Hcase as [[H1 Hw1]|[H1 Hw1]].
  - exists s1. split_and!; [|done..]. by apply rtc_once.
  - destruct (IH s1 eq_refl Hw1 H1 Hi) as (s' & Hr' & ? & ? & ?). exists s'.
    split_and!; [|done..]. by eapply rtc_l.
Qed.

(** Whoever waits in [join] gets out. *)
Lemma join_returns s : tinv s -> owner s = OJoin -> leaving s ->
  ∃ s', rtc (own_step behaviour) s s' ∧ owner s' = ODone.
Proof.
  intros H Ho Hl. pose proof H as []. unfold leaving in Hl. rewrite Ho in *.
  assert (Hgone : ∀ x, worker x = WGone -> owner x = OJoin ->
    ∃ s', rtc (own_step behaviour) x s' ∧ owner s' = ODone).
  { intros x Hw Hx. eexists. split; [eapply rtc_once; by_os os_join|done]. }
  assert (Hclear : ∀ x, worker x = WClear -> owner x = OJoin ->
    ∃ s', rtc (own_step behaviour) x s' ∧ owner s' = ODone).
  { intros x Hw Hx. destruct (Hgone (worker_at WGone (hold None {| x with loop_ := false |})) eq_refl Hx) as (s' & ? & ?).
    exists s'. split; [|done]. eapply rtc_l; [by_ws ws_clear|done]. }
  assert (Hend : ∀ x, worker x = WEnd -> owner x = OJoin -> mutex_ x = None ->
    ∃ s', rtc (own_step behaviour) x s' ∧ owner s' = ODone).
  { intros x Hw Hx Hm. destruct (Hclear (worker_at WClear (hold (Some Worker) x)) eq_refl Hx) as (s' & ? & ?).
    exists s'. split; [|done]. eapply rtc_l; [by_ws ws_lock_again|done]. }
  destruct Hl as [[[Hw Hns] Hq]|Hp].
  - assert (Ha : at_ (lp s) ≠ Idle) by (apply ti_at0; by rewrite Hw).
    destruct (leaves_loop behaviour (lp s) ti_reach0 Ha Hns Hq) as (l & Hr & Hi).
    { intros Hin. assert (Hc : QuitWake ∈ quit_calls (calls (lp s))) by by apply list_elem_of_filter.
      rewrite ti_calls0 in Hc by done. by apply elem_of_nil in Hc. }
    destruct (lift_loop l s Hr Hw Ha Hi) as (s1 & Hr1 & Hw1 & Ho1 & Hm1).
    destruct (Hend s1 Hw1) as (s2 & Hr2 & Ho2); [congruence|by rewrite Hm1, ti_mutex0, Hw|].
    exists s2. split; [by etrans|done].
  - destruct (worker s) eqn:Hw; try done; [by apply Hend|by apply Hclear|by apply Hgone].
Qed.

(** One step of the owner towards [join]. *)
Lemma owner_moves s s1 : tinv s -> leaving s -> selfquit s = false -> owner_step s s1 ->
  (tinv s1 -> leaving s1 -> ∃ s', rtc (own_step behaviour) s1 s' ∧ owner s' = ODone) ->
  ∃ s', rtc (own_step behaviour) s s' ∧ owner s' = ODone.
Proof.
  intros H Hl Hsq Hst Hk. destruct Hk as (s' & Hr & Ho); [by eapply owner_step_inv|by eapply leaving_owner|].
  exists s'. split; [|done]. eapply rtc_l; [apply by_owner; [done|]|done].
  intros Hw. unfold leaving in Hl. by rewrite Hw in Hl.
Qed.

Lemma a_call s c : tinv s -> owner s = OCalling c -> ∃ c1 c2, calls (lp s) = c1 ++ c :: c2.
Proof.
  intros [] Ho. apply list_elem_of_split. assert (Hc : c ∈ quit_calls (calls (lp s))).
  { rewrite ti_calls0, Ho by by rewrite Ho. by left. }
  by apply list_elem_of_filter in Hc as [_ ?].
Qed.

Lemma wake_returns s : tinv s -> leaving s -> selfquit s = false -> owner s = OCalling QuitWake ->
  alive s = true -> ∃ s', rtc (own_step behaviour) s s' ∧ owner s' = ODone.
Proof.
  intros H Hl Hsq Ho Ha. destruct (a_call s _ H Ho) as (c1 & c2 & Hc).
  eapply (owner_moves s); [done..|by apply os_quit_wake|]. intros. by apply join_returns.
Qed.

Lemma set_returns s : tinv s -> leaving s -> selfquit s = false -> owner s = OCalling QuitSet ->
  ∃ s', rtc (own_step behaviour) s s' ∧ owner s' = ODone.
Proof.
  intros H Hl Hsq Ho. destruct (a_call s _ H Ho) as (c1 & c2 & Hc).
  assert (Ha : alive s = true).
  { unfold leaving in Hl. rewrite Ho in Hl. destruct Hl as [Hw _]. unfold alive. by rewrite Hw. }
  eapply (owner_moves s); [done..|by apply os_quit_set|]. intros. by apply wake_returns.
Qed.

Lemma leaving_returns s : tinv s -> leaving s -> selfquit s = false ->
  worker s = WGone ∧ (owner s = OCalling QuitWake ∨ owner s = OCrash)
  ∨ ∃ s', rtc (own_step behaviour) s s' ∧ owner s' = ODone.
Proof.
  intros H Hl Hsq.
  assert (Hloop : looping s -> loop_ s = true ∧ looping_ (lp s) = true).
  { intros [Hw Hs]. destruct H. rewrite ti_loop0, Hw in *. split; [done|].
    rewrite (li_looping _ (reachable_inv behaviour _ ti_reach0)).
    assert (at_ (lp s) ≠ Idle) by (by apply ti_at0). by destruct (at_ (lp s)). }
  assert (Hquit : ∀ x, tinv x -> leaving x -> selfquit x = false -> owner x = OQuit -> loop_ x = true ->
    looping_ (lp x) = true -> ∃ s', rtc (own_step behaviour) x s' ∧ owner s' = ODone).
  { intros x Hx Hlx Hsx Ho Hlo Hlg. eapply (owner_moves x); [done..|by apply os_quit|].
    rewrite Hlg. intros. by apply set_returns. }
  assert (Hdtor : ∀ x, tinv x -> leaving x -> selfquit x = false -> owner x = ODtor -> loop_ x = true ->
    looping_ (lp x) = true -> ∃ s', rtc (own_step behaviour) x s' ∧ owner s' = ODone).
  { intros x Hx Hlx Hsx Ho Hlo Hlg. eapply (owner_moves x); [done..|by apply os_something|].
    intros. by apply Hquit. }
  destruct (owner s) as [| | | | | | | |[]| | |] eqn:Ho;
    unfold leaving in Hl; rewrite Ho in Hl; try done.
  - right. destruct (Hloop Hl). eapply (owner_moves s); [done|by unfold leaving; rewrite Ho|done|apply os_dtor; by right|].
    intros. by apply Hdtor.
  - right. destruct (Hloop Hl). apply Hdtor; try done. by unfold leaving; rewrite Ho.
  - right. destruct (Hloop Hl). apply Hquit; try done. by unfold leaving; rewrite Ho.
  - right. apply set_returns; try done. by unfold leaving; rewrite Ho.
  - destruct (alive s) eqn:Ha.
    + right. apply wake_returns; try done. by unfold leaving; rewrite Ho.
    + left. split; [|by left]. unfold alive in Ha. destruct H. destruct (worker s); try done.
      destruct ti_started0; [by rewrite Ho|done].
  - right. apply join_returns; try done. by unfold leaving; rewrite Ho.
  - right. by exists s.
  - left. auto.
Qed.

(** ** A destructor that comes too early *)

(** The loop never hears of the [quit()]. *)
Definition stuck s : Prop :=
  owner s = OJoin ∧ (worker s = WEnter ∨ worker s = WLoop)
  ∧ (worker s = WLoop -> at_ (lp s) ≠ Started -> quit_ (lp s) = false).

Lemma stuck_step s s' : tinv s -> tstep behaviour s s' -> selfquit s' = false -> stuck s -> stuck s'.
Proof.
  intros H [Hst|[Hst|Hst]] Hsq (Ho & Hw & Hq).
  - destruct Hst; try congruence; naive_solver congruence.
  - destruct Hst as [s a Hx|s Hx|s Hx Hm|s Hx|s Hx|s l Hx Hl|s Hx Hm|s Hx]; try (destruct Hw; congruence).
    + split_and!; [done|by right|done].
    + assert (Ha : at_ (lp s) ≠ Idle) by (destruct H; apply ti_at0; by rewrite Hx).
      destruct (loop_step_quit _ _ Hl Ha) as (_ & Hid & Hs & _).
      assert (Hql : quit_ l = false).
      { destruct (at_ (lp s)) eqn:Hat; [done|by apply Hs|..];
          (destruct (quit_ l) eqn:Hl1; [|done]; cbn in Hsq; rewrite Hq, orb_true_r in Hsq by done; done). }
      assert (Hni : at_ l ≠ Idle).
      { intros Hi. destruct (Hid Hi) as [Ht Hqt]. rewrite Hq in Hqt; [done..|by rewrite Ht]. }
      split_and!; [done|right; cbn; by destruct (at_ l)|done].
  - destruct Hst; by split_and!.
Qed.

Lemma stuck_forever s s' : tinv s -> rtc (tstep behaviour) s s' -> selfquit s' = false -> stuck s -> stuck s'.
Proof.
  intros H Hr Hsq Hs.
  refine (proj2 (rtc_ind_r (λ x, selfquit x = false -> tinv x ∧ stuck x) s _ _ s' Hr Hsq)); [done|].
  intros x y _ Hxy IH Hy. destruct (IH (selfquit_mono x y Hxy Hy)) as [Hi Hx].
  split; [by eapply tstep_inv|by eapply stuck_step].
Qed.
End invariant.

(** ** The properties *)

(** C16: startLoop() returns the loop.  Take any moment of startLoop(), whatever the
    init callback and other threads have done and however often [wait] has returned
    without a reason.  From then on the owner and the thread can by themselves reach
    the point where startLoop() has returned the address of the loop, which is
    alive, and need no unreasoned return of [wait] for it: no notification is lost
    and the mutex is never held for good.  The one exception is a loop that its own
    callbacks or functors told to quit. *)
Theorem startLoop_returns {EF : Eventfd} {EL : EventfdLaws EF} {F : Type}
    (behaviour : F -> list (act F)) (s : tstate F) :
  treachable behaviour s -> selfquit s = false -> starting (owner s) = true ->
  ∃ s', rtc (own_step behaviour) s s' ∧ owner s' = OReturned ∧ loop_ s' = true ∧ alive s' = true.
Proof. intros Hr. by apply start_returns, treachable_inv. Qed.

(** C36: The destructor stops the loop.  The thread is inside the while loop of
    loop() when the owner destroys the object, and the loop's own code does not tell
    it to quit.  Then at every later moment the two threads can by themselves bring
    the destructor to its end, without a time-out of [poll] or any event but the
    wake-up that quit() writes; except when the loop is destroyed between the
    destructor's writing of quit_ and its wake-up, a use of a destroyed object the
    source admits. *)
Theorem destructor_joins {EF : Eventfd} {EL : EventfdLaws EF} {F : Type}
    (behaviour : F -> list (act F)) (s s' : tstate F) :
  treachable behaviour s -> owner s = OReturned -> worker s = WLoop -> at_ (lp s) ≠ Started ->
  rtc (tstep behaviour) s s' -> selfquit s' = false ->
  worker s' = WGone ∧ (owner s' = OCalling QuitWake ∨ owner s' = OCrash)
  ∨ ∃ s'', rtc (own_step behaviour) s' s'' ∧ owner s'' = ODone.
Proof.
  intros Hr Ho Hw Ha Hss Hsq.
  assert (Hl : leaving s) by (unfold leaving; rewrite Ho; by split).
  destruct (leaving_rtc behaviour s s' (treachable_inv behaviour s Hr) Hss Hsq Hl).
  by apply leaving_returns.
Qed.

(** The owner alone, from a returned [startLoop] to [join]. *)
Lemma destructor_early {EF : Eventfd} {EL : EventfdLaws EF} {F : Type} (behaviour : F -> list (act F)) (s : tstate F) :
  tinv behaviour s -> owner s = OReturned -> worker s = WEnter ->
  ∃ s1, rtc owner_step s s1 ∧ owner s1 = OJoin ∧ worker s1 = WEnter ∧ tinv behaviour s1.
Proof.
  intros H Ho Hw. pose proof H as [].
  assert (Hlp : loop_ s = true) by (by rewrite ti_loop0, Hw).
  assert (Hlg : looping_ (lp s) = false).
  { rewrite (li_looping _ (reachable_inv behaviour _ ti_reach0)), (not_running behaviour s H); [done|by rewrite Hw]. }
  set (s1 := owner_at ODtor {| s with exiting_ := true |}). set (s2 := owner_at OQuit s1).
  assert (S1 : owner_step s s1) by (apply os_dtor; by right). assert (S2 : owner_step s1 s2) by by apply os_something.
  pose proof (os_quit s2 eq_refl Hlp) as S3. cbv zeta in S3. change (looping_ (lp s2)) with (looping_ (lp s)) in S3.
  rewrite Hlg in S3. set (s3 := owner_at (OCalling QuitClear) _) in S3.
  assert (S4 := os_quit_clear s3 [] (calls (lp s2)) eq_refl).
  assert (Ha : alive s3 = true) by (unfold alive; cbn; by rewrite Hw). specialize (S4 Ha eq_refl).
  eexists. split; [eapply rtc_l; [exact S1|]; eapply rtc_l; [exact S2|]; eapply rtc_l; [exact S3|]; by apply rtc_once|].
  split_and!; [done|done|]. by do 4 (eapply owner_step_inv; [|eassumption]).
Qed.

(** C37: A destructor that runs right after startLoop() may hang.  startLoop() has
    returned and the thread has not called loop() yet.  If the destructor runs now,
    its quit() does nothing, and from then on it waits in join(), whatever the
    threads do and other threads queue: only the loop's own code could still call
    quit().  If the thread enters the while loop first, the destructor can end; so
    which of the two happens is a race. *)
Theorem early_destructor_hangs {EF : Eventfd} {EL : EventfdLaws EF} {F : Type}
    (behaviour : F -> list (act F)) (s : tstate F) :
  treachable behaviour s -> owner s = OReturned -> worker s = WEnter -> selfquit s = false ->
  (∃ s1, rtc owner_step s s1 ∧ owner s1 = OJoin ∧ worker s1 = WEnter
     ∧ ∀ s', rtc (tstep behaviour) s1 s' -> selfquit s' = false -> owner s' = OJoin ∧ worker s' ≠ WGone)
  ∧ (∃ s2, rtc (own_step behaviour) s s2 ∧ owner s2 = ODone).
Proof.
  intros Hr Ho Hw Hsq. pose proof (treachable_inv behaviour s Hr) as H. split.
  - destruct (destructor_early behaviour s H Ho Hw) as (s1 & Hr1 & Ho1 & Hw1 & H1).
    exists s1. split_and!; [done..|]. intros s' Hs Hq.
    destruct (stuck_forever behaviour s1 s' H1 Hs Hq) as (? & Hws & _).
    + split_and!; [done|by left|by rewrite Hw1].
    + split; [done|]. by destruct Hws as [-> | ->].
  - set (s1 := worker_at WLoop (set_lp (go Started {| (lp s) with looping_ := true |}) s)).
    assert (S1 : own_step behaviour s s1) by (apply by_worker; [by apply ws_enter|by rewrite Hw]).
    pose proof (ws_loop behaviour s1 _ eq_refl (l_clear behaviour (lp s1) eq_refl)) as S2. cbn in S2.
    set (s2 := worker_at WLoop _) in S2.
    assert (S2' : own_step behaviour s1 s2) by by right.
    assert (H2 : tinv behaviour s2) by (eapply worker_step_inv; [eapply worker_step_inv; [exact H|by apply ws_enter]|exact S2]).
    destruct (leaving_returns behaviour s2 H2) as [[? _]|(s3 & Hr3 & Ho3)]; [|by cbn; rewrite Hsq|done|].
    + unfold leaving. cbn. rewrite Ho. by split.
    + exists s3. split; [|done]. by do 2 (eapply rtc_l; [eassumption|]).
Qed.

(** ** Witnesses *)
Definition demo_thread (w : worker_pc) (l : @state flag_eventfd nat) (o : owner_pc) : @tstate flag_eventfd nat :=
  mkT (published w) false None w o l false.

Definition entering : @state flag_eventfd nat :=
  @mkState flag_eventfd nat true false false [] false Started [] [] [] false.
Definition polling : @state flag_eventfd nat :=
  @mkState flag_eventfd nat true false false [] false Test [] [] [] false.

Lemma demo_starting : treachable demo_behaviour (demo_thread WCallback (@init flag_eventfd nat) OLock).
Proof. apply rtc_once. left. by apply (os_start tinit). Qed.

Lemma demo_running : treachable demo_behaviour (demo_thread WLoop polling OReturned).
Proof.
  unfold treachable. etrans; [exact demo_starting|].
  eapply rtc_l; [right; left; by apply ws_called|]. eapply rtc_l; [right; left; by apply ws_lock|].
  eapply rtc_l; [right; left; by apply ws_publish|]. eapply rtc_l; [left; by apply os_lock|].
  eapply rtc_l; [left; by apply os_return|]. eapply rtc_l; [right; left; by apply ws_enter|].
  eapply rtc_once. right. left.
  exact (ws_loop demo_behaviour (demo_thread WLoop entering OReturned) polling eq_refl
    (l_clear demo_behaviour entering eq_refl)).
Qed.

Lemma startLoop_returns_witness : ∃ s' : @tstate flag_eventfd nat, owner s' = OReturned ∧ loop_ s' = true.
Proof.
  destruct (startLoop_returns demo_behaviour _ demo_starting eq_refl eq_refl) as (s' & _ & Ho & Hl & _).
  exists s'. split; [exact Ho|exact Hl].
Defined.

Lemma destructor_joins_witness : ∃ s' : @tstate flag_eventfd nat, owner s' = ODone.
Proof.
  destruct (destructor_joins demo_behaviour _ _ demo_running eq_refl eq_refl ltac:(discriminate)
    (rtc_refl _ _) eq_refl) as [[Hw _]|(s' & _ & Ho)].
  - discriminate Hw.
  - exists s'. exact Ho.
Defined.

Lemma demo_returned : treachable demo_behaviour (demo_thread WEnter (@init flag_eventfd nat) OReturned).
Proof.
  unfold treachable. etrans; [exact demo_starting|].
  eapply rtc_l; [right; left; by apply ws_called|]. eapply rtc_l; [right; left; by apply ws_lock|].
  eapply rtc_l; [right; left; by apply ws_publish|]. eapply rtc_l; [left; by apply os_lock|].
  eapply rtc_once. left. exact (os_return (@mkT flag_eventfd nat true false (Some Owner) WEnter OTest init false) eq_refl eq_refl).
Qed.

Lemma early_destructor_hangs_witness : ∃ s1 : @tstate flag_eventfd nat, owner s1 = OJoin
  ∧ ∀ s', rtc (tstep demo_behaviour) s1 s' -> selfquit s' = false -> owner s' = OJoin.
Proof.
  destruct (@early_destructor_hangs flag_eventfd flag_laws nat demo_behaviour _ demo_returned eq_refl eq_refl eq_refl)
    as [(s1 & _ & Ho & _ & H) _].
  exists s1. split; [exact Ho|]. intros s' Hr Hq. exact (proj1 (H s' Hr Hq)).
Defined.
