(* ===== verification/EventLoop.v ===== *)
(** * EventLoop: the loop of one thread over the poller (EventLoop.h, EventLoop.cc)

    The loop as its own thread sees it: [loop()] polls, hands the events to the
    channels and runs the functors that were queued.  It is built on the poller
    and implements the interface [LoopOps] that channels and connections use.
    What other threads can do to it in between is the subject of LoopThreads.v.

    The channels of a world belong to one loop, so [assert(channel->ownerLoop()
    == this)] holds by construction.  The timers have their own model
    (TimerQueue.v); [called] and [queued] are history, for the theorems. *)

From Stdlib Require Import ZArith Lia.
From stdpp Require Import gmap list.
From S2P Require Import Prelude Bytes Base Channel EPollPoller LoopThreads.

Local Open Scope Z_scope.

Definition kPollTimeMs : Z := 10000.

(** [std::bind(&EventLoop::handleRead, this)], or a callback of somebody else. *)
Inductive loop_closure (C : Type) := CWakeup | CUser (c : C).
Arguments CWakeup {C}.
Arguments CUser {C} c.

Section event_loop.
Context {BT : BaseTime} {C : Type}.
#[export] Instance loop_closures : Closures := {| Closure := loop_closure C |}.
Context {EP : Epoll} {EF : Eventfd} {AL : Allocator} {F U : Type}.

Record EventLoop := mkEventLoop {
  looping_ : bool;
  quit_ : bool;
  eventHandling_ : bool;
  callingPendingFunctors_ : bool;
  iteration_ : Z;
  pollReturnTime_ : Timestamp;
  wakeupFd_ : Z;
  wakeupChannel_ : addr;
  activeChannels_ : list addr;
  currentActiveChannel_ : option addr;
  pendingFunctors_ : list F;
}.

Record LoopWorld := mkLoopWorld {
  this_loop : EventLoop;
  pw : PollerWorld;
  eventfd : EV;
  (** [t_loopInThisThread != nullptr]. *)
  t_loopInThisThread : bool;
  user : U;
  called : list (addr + F);
  queued : list F;
}.

Definition pwL : lens LoopWorld PollerWorld := Lens pw (λ x w, {| w with pw := x |}).

#[export] Instance eventloop_heap : ChannelHeap LoopWorld :=
  {| heapL := Lens (λ w, heap (pw w)) (λ h w, {| w with pw := {| (pw w) with heap := h |} |}) |}.

Definition on_loop (f : EventLoop -> EventLoop) : M LoopWorld unit :=
  modify (λ w, {| w with this_loop := f (this_loop w) |}).

Definition isInLoopThread (w : LoopWorld) : bool := in_loop (pw w).
Definition assertInLoopThread : M LoopWorld unit :=
  ok ← gets isInLoopThread; if ok : bool then mret tt else failM FatalLog.

(** ** Channels *)
Definition updateChannel (p : addr) : M LoopWorld unit :=
  assertInLoopThread ;;; zoom pwL (poller_updateChannel p).

Definition removeChannel (p : addr) : M LoopWorld unit :=
  assertInLoopThread ;;;
  l ← gets this_loop;
  whenM (eventHandling_ l)
    (assert_ (bool_decide (currentActiveChannel_ l = Some p)
              || negb (bool_decide (p ∈ activeChannels_ l)))) ;;;
  zoom pwL (poller_removeChannel p).

Definition hasChannel (p : addr) (w : LoopWorld) : bool :=
  match chan p w with
  | Some c => bool_decide (channels_ (poller (pw w)) !! fd_ c = Some p)
  | None => false
  end.

#[export] Instance eventloop_ops : LoopOps LoopWorld := {|
  loop_updateChannel := updateChannel;
  loop_removeChannel := removeChannel;
  loop_hasChannel := hasChannel;
  loop_isInLoopThread := isInLoopThread;
|}.

(** ** Construction and destruction *)

(** The members, before the body of the constructor: [evtfd] is what
    [eventfd()] returned, [p] the new wake-up channel. *)
Definition new_loop (evtfd : Z) (p : addr) : EventLoop :=
  mkEventLoop false false false false 0 ts_invalid evtfd p [] None [].

Definition EventLoop_ctor (evtfd : Z) : M LoopWorld unit :=
  whenM (evtfd <? 0) (failM FatalLog) ;;;
  p ← gets (λ w, malloc (dom (heap (pw w))));
  modify (put_chan (W := LoopWorld) p (Channel_ctor evtfd)) ;;;
  on_loop (λ _, new_loop evtfd p) ;;;
  another ← gets t_loopInThisThread;
  whenM another (failM FatalLog) ;;;
  modify (λ w, {| w with t_loopInThisThread := true |}) ;;;
  on_chan (W := LoopWorld) p (setReadCallback CWakeup) ;;;
  enableReading (W := LoopWorld) p.

(** The destructor, with that of [wakeupChannel_]. *)
Definition EventLoop_dtor : M LoopWorld unit :=
  p ← gets (λ w, wakeupChannel_ (this_loop w));
  disableAll (W := LoopWorld) p ;;;
  remove (W := LoopWorld) p ;;;
  modify (λ w, {| w with t_loopInThisThread := false |}) ;;;
  Channel_dtor (W := LoopWorld) p.

(** ** Functors and wake-ups *)
Definition wakeup : M LoopWorld unit := modify (λ w, {| w with eventfd := ev_write (eventfd w) |}).
Definition handleRead : M LoopWorld unit := modify (λ w, {| w with eventfd := ev_read (eventfd w) |}).

Definition queueInLoop (cb : F) : M LoopWorld unit :=
  modify (λ w, {| w with this_loop := {| (this_loop w) with pendingFunctors_ := pendingFunctors_ (this_loop w) ++ [cb] |};
                         queued := queued w ++ [cb] |}) ;;;
  w ← getS;
  whenM (negb (isInLoopThread w) || callingPendingFunctors_ (this_loop w)) wakeup.

Definition queueSize (w : LoopWorld) : Z := zlength (pendingFunctors_ (this_loop w)).

Definition quit : M LoopWorld unit :=
  w ← getS;
  if negb (looping_ (this_loop w)) then on_loop (λ l, {| l with quit_ := false |})
  else
    on_loop (λ l, {| l with quit_ := true |}) ;;;
    whenM (negb (isInLoopThread w)) wakeup.

(** What the callbacks and the functors do, and [tie_.lock()]. *)
Context (runUser : C -> Timestamp -> M LoopWorld unit) (runFunctor : F -> M LoopWorld unit).
Context (lock : option addr -> M LoopWorld bool) (unlock : option addr -> M LoopWorld unit).

Definition run_loop_closure (f : Closure) (t : Timestamp) : M LoopWorld unit :=
  match f with CWakeup => handleRead | CUser c => runUser c t end.

Definition runInLoop (cb : F) : M LoopWorld unit :=
  here ← gets isInLoopThread; if here : bool then runFunctor cb else queueInLoop cb.

(** ** The loop *)
Definition note (x : addr + F) : M LoopWorld unit := modify (λ w, {| w with called := called w ++ [x] |}).

Definition doPendingFunctors : M LoopWorld unit :=
  on_loop (λ l, {| l with callingPendingFunctors_ := true |}) ;;;
  functors ← gets (λ w, pendingFunctors_ (this_loop w));
  on_loop (λ l, {| l with pendingFunctors_ := [] |}) ;;;
  for_each functors (λ functor, note (inr functor) ;;; runFunctor functor) ;;;
  on_loop (λ l, {| l with callingPendingFunctors_ := false |}).

(** The body of the loop up to [doPendingFunctors()]. *)
Definition handleEvents : M LoopWorld unit :=
  on_loop (λ l, {| l with activeChannels_ := [] |}) ;;;
  '(t, active) ← zoom pwL (poll kPollTimeMs);
  on_loop (λ l, {| l with pollReturnTime_ := t; activeChannels_ := active |}) ;;;
  on_loop (λ l, {| l with iteration_ := s64 (iteration_ l + 1) |}) ;;;
  on_loop (λ l, {| l with eventHandling_ := true |}) ;;;
  for_each active (λ channel,
    on_loop (λ l, {| l with currentActiveChannel_ := Some channel |}) ;;;
    note (inl channel) ;;;
    handleEvent run_loop_closure lock unlock channel t) ;;;
  on_loop (λ l, {| l with currentActiveChannel_ := None |}) ;;;
  on_loop (λ l, {| l with eventHandling_ := false |}).

Definition iteration : M LoopWorld unit := handleEvents ;;; doPendingFunctors.

(** [while (!quit_)], with fuel. *)
Fixpoint loop_while (fuel : nat) : M LoopWorld unit :=
  match fuel with
  | O => failM OutOfFuel
  | S fuel' =>
      stop ← gets (λ w, quit_ (this_loop w));
      if stop : bool then mret tt else iteration ;;; loop_while fuel'
  end.

Definition loop (fuel : nat) : M LoopWorld unit :=
  assertS (λ w, negb (looping_ (this_loop w))) ;;;
  assertInLoopThread ;;;
  on_loop (λ l, {| l with looping_ := true; quit_ := false |}) ;;;
  loop_while fuel ;;;
  on_loop (λ l, {| l with looping_ := false |}).
End event_loop.

Arguments EventLoop {BT} F.
Arguments LoopWorld {BT C EP EF} F U.

(** ** The loop keeps the promises of [LoopSpec] *)
Section spec.
#[local] Set Default Proof Using "Type*".
Context {BT : BaseTime} {C : Type} {EP : Epoll} {EL : EpollLaws EP} {EF : Eventfd} {AL : Allocator}
  {F U : Type}.
Implicit Types (w : LoopWorld (C := C) F U) (p : addr).

#[export] Instance eventloop_heap_laws : LensLaws (@heapL (@loop_closures C) (LoopWorld F U) eventloop_heap).
Proof. by constructor; intros; destruct s as [? [] ? ? ? ? ?]. Qed.

Lemma wp_pw (m : M PollerWorld unit) (Q : unit -> LoopWorld F U -> Prop) w :
  wp m (λ _ x, Q tt {| w with pw := x |}) (pw w) -> wp (zoom pwL m) Q w.
Proof using Type. intros H. apply wp_zoom. eapply wp_mono; [exact H|]. by intros []. Qed.

Lemma wp_loop_thread (Q : unit -> LoopWorld F U -> Prop) w : in_loop (pw w) = true -> Q tt w ->
  wp assertInLoopThread Q w.
Proof using Type. intros H HQ. unfold assertInLoopThread, isInLoopThread. wp_simpl. by rewrite H. Qed.

(** While events are handled, only the current channel and channels without
    events of this round may be removed. *)
Definition removable p w : Prop :=
  eventHandling_ (this_loop w) = true ->
  currentActiveChannel_ (this_loop w) = Some p ∨ p ∉ activeChannels_ (this_loop w).

Lemma removable_spec p w :
  removable p w ↔ eventHandling_ (this_loop w) = false
    ∨ bool_decide (currentActiveChannel_ (this_loop w) = Some p)
      || negb (bool_decide (p ∈ activeChannels_ (this_loop w))) = true.
Proof using Type.
  unfold removable. destruct (eventHandling_ (this_loop w)).
  - rewrite orb_true_iff, negb_true_iff, bool_decide_eq_true, bool_decide_eq_false. naive_solver.
  - naive_solver.
Qed.

#[export] Instance eventloop_spec : @LoopSpec (@loop_closures C) (LoopWorld F U) eventloop_ops.
Proof.
  unshelve esplit.
  - exact (λ w, poller_ok (pw w)).
  - exact (λ p w, poller_interest p (pw w)).
  - exact (λ fd w, is_open (kernel (pw w)) fd = true).
  - exact (λ fd w, channels_ (poller (pw w)) !! fd = None).
  - exact removable.
  - exact eventloop_heap_laws.
  - intros w. apply (law_thread (LoopSpec := poller_spec) (pw w)).
  - intros p w Hok Hc. exact (law_has (LoopSpec := poller_spec) p (pw w) Hok Hc).
  - intros p w c c' Hok Hc Hf Hi w'.
    destruct (law_put (LoopSpec := poller_spec) p (pw w) c c' Hok Hc Hf Hi) as (? & ? & ? & ? & _). by split_and!.
  - intros p w c Hok Hc Ho Hfree. cbn [loop_updateChannel eventloop_ops]. unfold updateChannel.
    rewrite wp_bind. apply wp_loop_thread; [by apply ok_loop|]. apply wp_pw.
    eapply wp_mono; [by apply (law_update (LoopSpec := poller_spec) p (pw w) c)|].
    intros [] x (? & ? & ? & ? & ? & ? & _). by split_and!.
  - intros p w c Hok Hc Hint Hev Hcan. cbn [loop_removeChannel eventloop_ops]. unfold removeChannel.
    rewrite wp_bind. apply wp_loop_thread; [by apply ok_loop|].
    rewrite wp_bind, wp_gets, wp_bind, wp_when.
    assert (H : wp (zoom pwL (poller_removeChannel p)) (λ _ w', poller_ok (pw w')
        ∧ poller_interest p (pw w') = None ∧ (∃ i, chan p w' = Some (set_index i c))
        ∧ frame_chan (LO := eventloop_ops) p w w' ∧ (∀ q, q ≠ p -> poller_interest q (pw w') = poller_interest q (pw w))
        ∧ (∀ fd, is_open (kernel (pw w')) fd = true ↔ is_open (kernel (pw w)) fd = true)
        ∧ channels_ (poller (pw w')) !! fd_ c = None) w).
    { apply wp_pw. eapply wp_mono; [by apply (law_remove (LoopSpec := poller_spec) p (pw w) c)|]. by intros []. }
    apply removable_spec in Hcan as [->|Hcan]; [exact H|].
    destruct (eventHandling_ (this_loop w)); [|exact H]. by rewrite wp_assert.
  - intros p w c Hok Hc Ho Hfree. cbn [loop_updateChannel eventloop_ops]. unfold updateChannel.
    rewrite wp_bind. apply wp_loop_thread; [by apply ok_loop|]. apply wp_pw.
    exact (law_update_free (LoopSpec := poller_spec) p (pw w) c Hok Hc Ho Hfree).
  - intros p w c Hok Hc Hint Hev Hcan. cbn [loop_removeChannel eventloop_ops]. unfold removeChannel.
    rewrite wp_bind. apply wp_loop_thread; [by apply ok_loop|].
    rewrite wp_bind, wp_gets, wp_bind, wp_when.
    assert (H : wp (zoom pwL (poller_removeChannel p)) (λ _ w', ∀ fd,
        channels_ (poller (pw w)) !! fd = None -> channels_ (poller (pw w')) !! fd = None) w).
    { apply wp_pw. exact (law_remove_free (LoopSpec := poller_spec) p (pw w) c Hok Hc Hint Hev I). }
    apply removable_spec in Hcan as [->|Hcan]; [exact H|].
    destruct (eventHandling_ (this_loop w)); [|exact H]. by rewrite wp_assert.
  - intros p w Hn. exact (law_absent (LoopSpec := poller_spec) p (pw w) Hn).
  - intros p w c Hok Hn Hi w'. exact (law_new (LoopSpec := poller_spec) p (pw w) c Hok Hn Hi).
  - intros p w Hok Hn w'. exact (law_delete (LoopSpec := poller_spec) p (pw w) Hok Hn).
Defined.
End spec.

(** ** What callbacks and functors may do *)
Section turns.
#[local] Set Default Proof Using "Type*".
Context {BT : BaseTime} {C : Type} {EP : Epoll} {EL : EpollLaws EP} {EF : Eventfd} {AL : Allocator}
  {F U : Type}.
Implicit Types (w : LoopWorld (C := C) F U) (p : addr) (f : F).
#[local] Abbreviation chan := (Channel.chan (CH := eventloop_heap)).

(** The poller is in order and its event vector can still grow: there are fewer
    than 2^30 channels. *)
Record loop_inv w : Prop := {
  li_ok : poller_ok (pw w);
  li_vector : zlength (pevents_ (poller (pw w))) < 2 ^ 31;
  li_few : Z.of_nat (size (channels_ (poller (pw w)))) < 2 ^ 30;
}.

(** From [w] to [w'] the loop has called [log]; otherwise functors may have been
    queued and [quit()] called, and no active channel was destroyed while events
    were handled. *)
Record progress (log : list (addr + F)) w w' : Prop := {
  pg_loop : ∃ q cur fs,
    this_loop w' = {| (this_loop w) with quit_ := q; currentActiveChannel_ := cur;
                        pendingFunctors_ := pendingFunctors_ (this_loop w) ++ fs |}
    ∧ queued w' = queued w ++ fs ∧ (quit_ (this_loop w) = true -> q = true);
  pg_called : called w' = called w ++ log;
  pg_alive : eventHandling_ (this_loop w) = true -> ∀ p, p ∈ activeChannels_ (this_loop w) ->
    is_Some (chan p w) -> is_Some (chan p w');
}.

Lemma progress_refl w : progress [] w w.
Proof using Type.
  split; [|by rewrite app_nil_r|done].
  exists (quit_ (this_loop w)), (currentActiveChannel_ (this_loop w)), [].
  rewrite !app_nil_r. by destruct (this_loop w).
Qed.

Lemma progress_trans l1 l2 w w1 w2 :
  progress l1 w w1 -> progress l2 w1 w2 -> progress (l1 ++ l2) w w2.
Proof using Type.
  intros [(q1 & c1 & fs1 & E1 & Q1 & K1) C1 A1] [(q2 & c2 & fs2 & E2 & Q2 & K2) C2 A2].
  rewrite E1 in *. cbn in *. split.
  - exists q2, c2, (fs1 ++ fs2). rewrite !app_assoc, E2, Q2, Q1. split_and!; [done..|]. auto.
  - by rewrite C2, C1, app_assoc.
  - intros He p Hp Hs. auto.
Qed.

Lemma progress_then w w1 w2 l : progress [] w w1 -> progress l w1 w2 -> progress l w w2.
Proof using Type. intros H1 H2. exact (progress_trans [] l w w1 w2 H1 H2). Qed.

(** A call from a callback or a functor. *)
Definition respects {A} (m : M (LoopWorld (C := C) F U) A) : Prop := ∀ w,
  loop_inv w -> looping_ (this_loop w) = true ->
  wp m (λ _ w', loop_inv w' ∧ progress [] w w') w.

(** The same while the events of [p] are handled. *)
Definition handling p w : Prop :=
  looping_ (this_loop w) = true ∧ eventHandling_ (this_loop w) = true
  ∧ p ∈ activeChannels_ (this_loop w) ∧ is_Some (chan p w).

Definition respects_at p {A} (m : M (LoopWorld (C := C) F U) A) : Prop := ∀ w,
  loop_inv w -> handling p w -> wp m (λ _ w', loop_inv w' ∧ progress [] w w') w.

Lemma progress_looping l w w' : progress l w w' -> looping_ (this_loop w') = looping_ (this_loop w).
Proof using Type. by intros [(q & c & fs & -> & _) _ _]. Qed.

Lemma progress_handling p l w w' : progress l w w' -> handling p w -> handling p w'.
Proof using Type.
  intros [(q & c & fs & E & _) _ Ha] (? & He & Hp & Hs). unfold handling. rewrite E. cbn.
  split_and!; [done..|]. by apply Ha.
Qed.

Lemma respects_ret {A} (a : A) : respects (mret a).
Proof using Type. intros w Hi _. split; [done|apply progress_refl]. Qed.

Lemma respects_bind {A B} (m : M (LoopWorld F U) A) (k : A -> M (LoopWorld F U) B) :
  respects m -> (∀ a, respects (k a)) -> respects (m ≫= k).
Proof using Type.
  intros Hm Hk w Hi Hl. rewrite wp_bind. eapply wp_mono; [by apply Hm|].
  intros a w1 [Hi1 H1]. eapply wp_mono; [apply Hk; [done|by rewrite (progress_looping [] w)]|].
  intros b w2 [Hi2 H2]. split; [done|]. by eapply progress_then.
Qed.

Lemma respects_at_bind p {A B} (m : M (LoopWorld F U) A) (k : A -> M (LoopWorld F U) B) :
  respects_at p m -> (∀ a, respects_at p (k a)) -> respects_at p (m ≫= k).
Proof using Type.
  intros Hm Hk w Hi Hl. rewrite wp_bind. eapply wp_mono; [by apply Hm|].
  intros a w1 [Hi1 H1]. eapply wp_mono; [apply Hk; [done|by eapply progress_handling]|].
  intros b w2 [Hi2 H2]. split; [done|]. by eapply progress_then.
Qed.

Lemma respects_respects_at p {A} (m : M (LoopWorld F U) A) : respects m -> respects_at p m.
Proof using Type. intros H w Hi [Hl _]. by apply H. Qed.

Lemma respects_when (b : bool) (m : M (LoopWorld F U) unit) : respects m -> respects (whenM b m).
Proof using Type. destruct b; [done|]. intros _. apply respects_ret. Qed.

Lemma respects_at_when p (b : bool) (m : M (LoopWorld F U) unit) :
  respects_at p m -> respects_at p (whenM b m).
Proof using Type. destruct b; [done|]. intros _. apply respects_respects_at, respects_ret. Qed.

(** The loop's own operations are such calls. *)
Lemma respects_modify (g : LoopWorld F U -> LoopWorld F U) :
  (∀ w, loop_inv w -> looping_ (this_loop w) = true -> loop_inv (g w) ∧ progress [] w (g w)) ->
  respects (modify g).
Proof using Type. intros H w. apply H. Qed.

Lemma respects_gets {A} (g : LoopWorld F U -> A) : respects (gets g).
Proof using Type. intros w Hi _. split; [done|apply progress_refl]. Qed.

Lemma progress_eventfd w e : progress [] w {| w with eventfd := e |}.
Proof using Type. by destruct (progress_refl w). Qed.

Lemma respects_wakeup : respects wakeup.
Proof using Type. apply respects_modify. intros w [] _. split; [done|apply progress_eventfd]. Qed.

Lemma respects_handleRead : respects handleRead.
Proof using Type. apply respects_modify. intros w [] _. split; [done|apply progress_eventfd]. Qed.

Lemma respects_queueInLoop f : respects (queueInLoop f).
Proof using Type.
  apply respects_bind; [|intros _; apply (respects_bind getS)].
  - apply respects_modify. intros w [] _. split; [done|]. split; [|by rewrite app_nil_r|done].
    exists (quit_ (this_loop w)), (currentActiveChannel_ (this_loop w)), [f]. by split_and!.
  - intros w Hi _. split; [done|apply progress_refl].
  - intros w. apply respects_when, respects_wakeup.
Qed.

Lemma respects_quit : respects quit.
Proof using Type.
  intros w Hi Hl. unfold quit. rewrite wp_bind, wp_getS, Hl. cbn [negb].
  rewrite wp_bind. unfold on_loop. rewrite wp_modify.
  set (w1 := {| w with this_loop := _ |}). assert (H1 : progress [] w w1).
  { split; [|by rewrite app_nil_r|done]. exists true, (currentActiveChannel_ (this_loop w)), [].
    subst w1. cbn. by rewrite !app_nil_r. }
  eapply wp_mono; [apply respects_when; [apply respects_wakeup|by destruct Hi|done]|].
  intros [] w2 [Hi2 H2]. split; [done|]. by eapply progress_then.
Qed.

(** [quit()] in a functor or a callback is not lost. *)
Lemma quit_quits w : looping_ (this_loop w) = true ->
  wp quit (λ _ w', quit_ (this_loop w') = true) w.
Proof using Type.
  intros Hl. unfold quit. rewrite wp_bind, wp_getS, Hl. cbn [negb]. unfold on_loop.
  rewrite wp_bind, wp_modify, wp_when. by destruct (negb _).
Qed.
End turns.

(** ** One turn of the loop *)
Section handlers.
#[local] Set Default Proof Using "Type*".
Context {BT : BaseTime} {C : Type} {EP : Epoll} {EL : EpollLaws EP} {EF : Eventfd} {AL : Allocator}
  {F U : Type}.
Implicit Types (w : LoopWorld (C := C) F U) (p : addr) (f : F).
#[local] Abbreviation chan := (Channel.chan (CH := eventloop_heap)).
Context (runUser : C -> Timestamp -> M (LoopWorld (C := C) F U) unit)
  (runFunctor : F -> M (LoopWorld (C := C) F U) unit)
  (lock : option addr -> M (LoopWorld (C := C) F U) bool)
  (unlock : option addr -> M (LoopWorld (C := C) F U) unit).
Context (user_respects : ∀ c t, respects (runUser c t)) (functor_respects : ∀ f, respects (runFunctor f))
  (lock_respects : ∀ o, respects (lock o)) (unlock_respects : ∀ o, respects (unlock o)).

#[local] Abbreviation run := (run_loop_closure runUser).
#[local] Abbreviation handleEvents := (handleEvents runUser lock unlock).
#[local] Abbreviation doPendingFunctors := (doPendingFunctors runFunctor).
#[local] Abbreviation iteration := (iteration runUser runFunctor lock unlock).
#[local] Abbreviation loop := (loop runUser runFunctor lock unlock).
#[local] Abbreviation loop_while := (loop_while runUser runFunctor lock unlock).

Lemma respects_runInLoop f : respects (runInLoop runFunctor f).
Proof.
  apply respects_bind; [apply respects_gets|]. intros []; [apply functor_respects|apply respects_queueInLoop].
Qed.

Lemma respects_at_deref p : respects_at p (deref (W := LoopWorld (C := C) F U) (CH := eventloop_heap) p).
Proof using EL.
  intros w Hi (_ & _ & _ & c & Hc). apply wp_deref with (c := c); [done|].
  split; [done|apply progress_refl].
Qed.

Lemma respects_at_on_chan p g : (∀ c, fd_ (g c) = fd_ c ∧ index_ (g c) = index_ c) ->
  respects_at p (on_chan (W := LoopWorld (C := C) F U) (CH := eventloop_heap) p g).
Proof.
  intros Hg w [Hok Hv Hn] (_ & _ & _ & c & Hc). apply wp_on_chan with (c := c); [done|].
  destruct (Hg c) as [Hf Hi]. destruct (law_put (LoopSpec := eventloop_spec) p w c (g c) Hok Hc Hf Hi) as [Hok' _].
  split; [by split|]. split; [apply (progress_refl w)|by rewrite app_nil_r|].
  intros _ q _ Hs. rewrite chan_put. case_decide; [done|exact Hs].
Qed.

Lemma respects_at_call p o t : respects_at p (Channel.call run t o).
Proof.
  apply respects_respects_at. destruct o as [[|c]|]; [apply respects_handleRead|apply user_respects|].
  apply respects_ret.
Qed.

Lemma handleEventWithGuard_respects p t : respects_at p (handleEventWithGuard (LO := eventloop_ops) run p t).
Proof.
  unfold handleEventWithGuard.
  repeat first [apply respects_at_deref|apply respects_at_call|by apply respects_at_on_chan
    |apply respects_at_when|apply respects_at_bind; [|intros ?]].
Qed.

Lemma handleEvent_respects p t : respects_at p (handleEvent (LO := eventloop_ops) run lock unlock p t).
Proof.
  unfold handleEvent. apply respects_at_bind; [apply respects_at_deref|]. intros c.
  destruct (tied_ c); [|apply handleEventWithGuard_respects].
  apply respects_at_bind; [by apply respects_respects_at|]. intros []; [|by apply respects_respects_at, respects_ret].
  apply respects_at_bind; [apply handleEventWithGuard_respects|]. intros _. by apply respects_respects_at.
Qed.

(** Polling: the active channels exist. *)
Lemma poll_turn w : loop_inv w ->
  ∃ t active x, poll kPollTimeMs (pw w) = Ok ((t, active), x)
    ∧ loop_inv {| w with pw := x |} ∧ ∀ p, p ∈ active -> is_Some (heap x !! p).
Proof.
  intros [Hok Hv Hn].
  destruct (epoll_wait (zlength (pevents_ (poller (pw w)))) kPollTimeMs (kernel (pw w)))
    as [[[n evs] e] k'] eqn:Hwait.
  pose proof (wait_waited _ _ _ _ _ _ Hok Hwait) as Hwt.
  pose proof (waited_size _ _ _ _ Hok Hwt) as Hfew.
  pose proof (poll_wp _ _ _ _ _ _ Hok Hv Hwait) as Hpoll.
  apply wp_ok in Hpoll as ([t active] & x & Hpoll & [Hok' _ Ha Hh Hc _ _] & Hl).
  exists t, active, x. split; [done|]. split.
  - split; cbn; [done| |by rewrite Hc]. rewrite Hl. destruct (n =? _) eqn:E; bool_to_Z; [|done].
    rewrite <- E. lia.
  - intros p Hp. assert (Hin : Some p ∈ ev_data <$> evs) by (rewrite <- Ha; by apply list_elem_of_fmap_2).
    apply list_elem_of_fmap in Hin as (ev & Hd & Hin).
    destruct (deliver_given _ _ _ _ ev p Hwt Hin (eq_sym Hd)) as (c & mask & _ & Hp' & _).
    rewrite Hh. eauto.
Qed.

(** The loop over the active channels. *)
Lemma handle_all_wp t w active : loop_inv w -> looping_ (this_loop w) = true ->
  eventHandling_ (this_loop w) = true -> activeChannels_ (this_loop w) = active ->
  (∀ p, p ∈ active -> is_Some (chan p w)) ->
  wp (for_each active (λ channel,
      on_loop (λ l, {| l with currentActiveChannel_ := Some channel |}) ;;;
      note (inl channel) ;;;
      handleEvent (LO := eventloop_ops) run lock unlock channel t))
    (λ _ w', loop_inv w' ∧ progress (inl <$> active) w w') w.
Proof.
  intros Hi Hl He Ha Hal.
  apply (wp_for_each (λ pre w', loop_inv w' ∧ progress (inl <$> pre) w w')).
  { split; [done|apply progress_refl]. }
  intros pre p post w1 Heq [Hi1 H1]. unfold on_loop, note.
  rewrite wp_bind, wp_modify, wp_bind, wp_modify.
  match goal with |- wp _ _ ?x => set (w2 := x) end.
  assert (H2 : progress (inl <$> (pre ++ [p])) w w2).
  { rewrite fmap_app. apply (progress_trans _ _ w w1); [done|]. split; [|done|done].
    exists (quit_ (this_loop w1)), (Some p), []. cbn. by rewrite !app_nil_r. }
  eapply wp_mono; [apply (handleEvent_respects p)|].
  - by destruct Hi1.
  - apply (progress_handling p _ w w2 H2). split_and!; try done.
    + rewrite Ha, Heq. set_solver.
    + apply Hal. rewrite Heq. set_solver.
  - intros [] w3 [Hi3 H3]. split; [done|].
    pose proof (progress_trans _ _ _ _ _ H2 H3) as H23. by rewrite app_nil_r in H23.
Qed.
(** Polling and handling the events. *)
Record events_turn w (t : Timestamp) (active : list addr) w' : Prop := {
  et_inv : loop_inv w';
  et_loop : ∃ q cur fs, this_loop w' =
      {| (this_loop w) with quit_ := q; eventHandling_ := false; pollReturnTime_ := t;
           iteration_ := s64 (iteration_ (this_loop w) + 1); activeChannels_ := active;
           currentActiveChannel_ := cur;
           pendingFunctors_ := pendingFunctors_ (this_loop w) ++ fs |}
    ∧ queued w' = queued w ++ fs ∧ (quit_ (this_loop w) = true -> q = true);
  et_called : called w' = called w ++ (inl <$> active);
}.

Lemma handleEvents_turn w : loop_inv w -> looping_ (this_loop w) = true ->
  ∃ t active x, poll kPollTimeMs (pw w) = Ok ((t, active), x)
    ∧ wp handleEvents (λ _ w', events_turn w t active w') w.
Proof.
  intros Hi Hl. destruct (poll_turn w Hi) as (t & active & x & Hpoll & Hi' & Hal).
  exists t, active, x. split; [done|]. unfold EventLoop.handleEvents, on_loop.
  rewrite wp_bind, wp_modify, wp_bind. apply wp_zoom.
  eapply wp_intro; [exact Hpoll|]. do 3 rewrite wp_bind, wp_modify.
  match goal with |- wp _ _ ?x => set (w1 := x) end. rewrite wp_bind.
  eapply wp_mono; [apply (handle_all_wp t w1 active); [by destruct Hi'|done..]|].
  intros [] w2 [Hi2 [(q & cur & fs & Eloop & Eq & Kq) Hc2 _]].
  rewrite wp_bind, !wp_modify. split; [by destruct Hi2| |exact Hc2].
  exists q, None, fs. by rewrite Eloop.
Qed.

(** Running the functors that are pending: [functors] are all run. *)
Record functors_turn w (functors : list F) w' : Prop := {
  ft_inv : loop_inv w';
  ft_loop : ∃ q cur fs, this_loop w' =
      {| (this_loop w) with quit_ := q; callingPendingFunctors_ := false;
           currentActiveChannel_ := cur; pendingFunctors_ := fs |}
    ∧ queued w' = queued w ++ fs ∧ (quit_ (this_loop w) = true -> q = true);
  ft_called : called w' = called w ++ (inr <$> functors);
}.

(** A functor that calls [quit()]. *)
Definition quits f : Prop := ∀ w, looping_ (this_loop w) = true ->
  wp (runFunctor f) (λ _ w', quit_ (this_loop w') = true) w.

Lemma run_functors_wp w fs : loop_inv w -> looping_ (this_loop w) = true ->
  wp (for_each fs (λ functor, note (inr functor) ;;; runFunctor functor))
    (λ _ w', loop_inv w' ∧ progress (inr <$> fs) w w'
      ∧ ∀ f, f ∈ fs -> quits f -> quit_ (this_loop w') = true) w.
Proof.
  intros Hi Hl. apply (wp_for_each (λ pre w', loop_inv w' ∧ progress (inr <$> pre) w w'
    ∧ ∀ f, f ∈ pre -> quits f -> quit_ (this_loop w') = true)).
  { split_and!; [done|apply progress_refl|]. intros f Hf. by apply elem_of_nil in Hf. }
  intros pre f post w1 _ (Hi1 & H1 & Hq1). unfold note. rewrite wp_bind, wp_modify.
  match goal with |- wp _ _ ?x => set (w2 := x) end.
  assert (Hl2 : looping_ (this_loop w2) = true) by (etrans; [by apply (progress_looping (inr <$> pre) w w1)|done]).
  assert (Hkeep : wp (runFunctor f) (λ _ w', loop_inv w' ∧ progress [] w2 w') w2)
    by (apply functor_respects; [by destruct Hi1|done]).
  apply wp_ok in Hkeep as ([] & w3 & Erun & Hi3 & H3).
  eapply wp_intro; [exact Erun|]. split_and!; [done| |].
  - rewrite fmap_app. apply (progress_trans _ _ w w1); [done|].
    destruct H3 as [(q & cur & fs' & E3 & Q3 & K3) C3 A3]. split; [by exists q, cur, fs'| |exact A3].
    rewrite C3. cbn. by rewrite app_nil_r.
  - intros g Hg Hqg. apply elem_of_app in Hg as [Hg|Hg]; [|apply list_elem_of_singleton in Hg as ->].
    + destruct H3 as [(q & cur & fs' & E3 & _ & K3) _ _]. rewrite E3. apply K3. by apply (Hq1 g).
    + exact (wp_elim _ _ _ _ _ (Hqg w2 Hl2) Erun).
Qed.

Lemma doPendingFunctors_turn w : loop_inv w -> looping_ (this_loop w) = true ->
  wp doPendingFunctors (λ _ w', functors_turn w (pendingFunctors_ (this_loop w)) w'
    ∧ ∀ f, f ∈ pendingFunctors_ (this_loop w) -> quits f -> quit_ (this_loop w') = true) w.
Proof.
  intros Hi Hl. unfold EventLoop.doPendingFunctors, on_loop.
  rewrite wp_bind, wp_modify, wp_bind, wp_gets, wp_bind, wp_modify, wp_bind. cbn [this_loop pendingFunctors_].
  match goal with |- wp _ _ ?x => set (w1 := x) end.
  eapply wp_mono; [apply (run_functors_wp w1); [by destruct Hi|done]|].
  intros [] w2 (Hi2 & [(q & cur & fs & E2 & Q2 & K2) C2 _] & Hq). rewrite wp_modify.
  split; [|by intros f; apply Hq]. split; [by destruct Hi2| |done].
  exists q, cur, fs. by rewrite E2.
Qed.

(** The loop between two iterations. *)
Record between w : Prop := {
  bt_inv : loop_inv w;
  bt_looping : looping_ (this_loop w) = true;
  bt_events : eventHandling_ (this_loop w) = false;
  bt_calling : callingPendingFunctors_ (this_loop w) = false;
}.

(** The functors the loop has run. *)
Definition functors_run w : list F := omap (λ x : addr + F, match x with inr f => Some f | inl _ => None end) (called w).

Definition fifo w : Prop := functors_run w ++ pendingFunctors_ (this_loop w) = queued w.

Lemma functors_run_app w w' (l : list addr) (fs : list F) : called w' = called w ++ (inl <$> l) ++ (inr <$> fs) ->
  functors_run w' = functors_run w ++ fs.
Proof using Type.
  unfold functors_run. intros ->. rewrite !omap_app. f_equal.
  assert (Hl : omap (λ x : addr + F, match x with inr f => Some f | inl _ => None end) (inl <$> l) = [])
    by by induction l.
  assert (Hf : omap (λ x : addr + F, match x with inr f => Some f | inl _ => None end) (inr <$> fs) = fs)
    by (induction fs as [|f fs IH]; [done|by apply (f_equal (cons f))]).
  by rewrite Hl, Hf.
Qed.

Lemma iteration_turn w : between w ->
  ∃ t active x w1 w2, poll kPollTimeMs (pw w) = Ok ((t, active), x)
    ∧ handleEvents w = Ok (tt, w1) ∧ events_turn w t active w1
    ∧ iteration w = Ok (tt, w2) ∧ functors_turn w1 (pendingFunctors_ (this_loop w1)) w2
    ∧ between w2 ∧ (fifo w -> fifo w2) ∧ (quit_ (this_loop w) = true -> quit_ (this_loop w2) = true)
    ∧ ∀ f, f ∈ pendingFunctors_ (this_loop w1) -> quits f -> quit_ (this_loop w2) = true.
Proof.
  intros [Hi Hl He Hc]. destruct (handleEvents_turn w Hi Hl) as (t & active & x & Hpoll & Hev).
  apply wp_ok in Hev as ([] & w1 & E1 & T1).
  destruct (T1) as [Hi1 (q1 & cur1 & fs1 & L1 & Q1 & K1) C1].
  assert (Hl1 : looping_ (this_loop w1) = true) by by rewrite L1.
  pose proof (doPendingFunctors_turn w1 Hi1 Hl1) as Hdo. apply wp_ok in Hdo as ([] & w2 & E2 & T2 & Hq).
  destruct (T2) as [Hi2 (q2 & cur2 & fs2 & L2 & Q2 & K2) C2].
  exists t, active, x, w1, w2. split_and!; try done.
  - unfold EventLoop.iteration. by rewrite (bind_ok _ _ _ _ _ E1).
  - by split; rewrite ?L2, ?L1.
  - unfold fifo. intros Hf. rewrite (functors_run_app w w2 active (pendingFunctors_ (this_loop w1)))
      by by rewrite C2, C1, app_assoc.
    rewrite Q2, Q1, <- Hf, L2, L1. cbn. by rewrite !app_assoc.
  - intros Hquit. rewrite L2. apply K2. rewrite L1. by apply K1.
Qed.
End handlers.

(** ** The theorems *)

(** Callbacks, functors and the locking of owners that go through the loop's
    interface. *)
Record well_behaved {BT : BaseTime} {C : Type} {EP : Epoll} {EF : Eventfd} {F U : Type}
    (runUser : C -> Timestamp -> M (LoopWorld (C := C) F U) unit)
    (runFunctor : F -> M (LoopWorld (C := C) F U) unit)
    (lock : option addr -> M (LoopWorld (C := C) F U) bool)
    (unlock : option addr -> M (LoopWorld (C := C) F U) unit) : Prop := {
  wb_user : ∀ c t, respects (runUser c t);
  wb_functor : ∀ f, respects (runFunctor f);
  wb_lock : ∀ o, respects (lock o);
  wb_unlock : ∀ o, respects (unlock o);
}.

(** The calls [call x] for the elements of a list, each made on the state that the one
    before has left; before a call the loop only sets [currentActiveChannel_] and
    writes its history. *)
Definition noted {BT : BaseTime} {C : Type} {EP : Epoll} {EF : Eventfd} {F U : Type}
    (w w0 : LoopWorld (C := C) F U) : Prop :=
  ∃ c log, w0 = {| w with this_loop := {| (this_loop w) with currentActiveChannel_ := c |}; called := log |}.

Inductive in_turn {BT : BaseTime} {C : Type} {EP : Epoll} {EF : Eventfd} {F U X : Type}
    (call : X -> M (LoopWorld (C := C) F U) unit) : list X -> LoopWorld F U -> LoopWorld F U -> Prop :=
  | turn_end w : in_turn call [] w w
  | turn_call x xs w w0 w1 w2 : noted w w0 -> call x w0 = Ok (tt, w1) -> in_turn call xs w1 w2 ->
      in_turn call (x :: xs) w w2.

Lemma for_each_in_turn {BT : BaseTime} {C : Type} {EP : Epoll} {EF : Eventfd} {F U X : Type}
    (call m : X -> M (LoopWorld (C := C) F U) unit) xs w w' :
  (∀ x w, ∃ w0, noted w w0 ∧ m x w = call x w0) ->
  for_each xs m w = Ok (tt, w') -> in_turn call xs w w'.
Proof.
  intros Hm. revert w. induction xs as [|x xs IH]; intros w E; cbn in E.
  - injection E as <-. constructor.
  - apply bind_inv in E as ([] & w1 & E1 & E2). destruct (Hm x w) as (w0 & Hn & Heq).
    eapply turn_call; [exact Hn| |by apply IH]. by rewrite <- Heq.
Qed.

(** What [handleEvents] and [doPendingFunctors] call. *)
Lemma handleEvents_calls {BT : BaseTime} {C : Type} {EP : Epoll} {EF : Eventfd} {F U : Type}
    (runUser : C -> Timestamp -> M (LoopWorld (C := C) F U) unit) lock unlock w t active x w1 :
  poll kPollTimeMs (pw w) = Ok ((t, active), x) -> handleEvents runUser lock unlock w = Ok (tt, w1) ->
  ∃ wb, in_turn (λ p, handleEvent (LO := eventloop_ops) (run_loop_closure runUser) lock unlock p t) active
      {| w with pw := x;
         this_loop := {| (this_loop w) with activeChannels_ := active; pollReturnTime_ := t;
                           iteration_ := s64 (iteration_ (this_loop w) + 1); eventHandling_ := true |} |} wb
    ∧ w1 = {| wb with this_loop := {| (this_loop wb) with currentActiveChannel_ := None; eventHandling_ := false |} |}.
Proof.
  intros Hpoll E. unfold handleEvents in E. apply bind_inv in E as ([] & ? & [= <-] & E).
  apply bind_inv in E as ([t' active'] & wp & Ep & E). unfold zoom in Ep. cbn [view pwL pw] in Ep.
  rewrite Hpoll in Ep. injection Ep as <- <- <-.
  do 3 (apply bind_inv in E as ([] & ? & [= <-] & E)). apply bind_inv in E as ([] & wb & Eb & E).
  apply bind_inv in E as ([] & ? & [= <-] & E). injection E as <-.
  exists wb. split; [|done]. eapply for_each_in_turn; [|exact Eb]. intros p v. eexists. split; [|reflexivity].
  eexists _, _. reflexivity.
Qed.

Lemma doPendingFunctors_calls {BT : BaseTime} {C : Type} {EP : Epoll} {EF : Eventfd} {F U : Type}
    (runFunctor : F -> M (LoopWorld (C := C) F U) unit) w w' :
  doPendingFunctors runFunctor w = Ok (tt, w') ->
  ∃ wb, in_turn runFunctor (pendingFunctors_ (this_loop w))
      {| w with this_loop := {| (this_loop w) with callingPendingFunctors_ := true; pendingFunctors_ := [] |} |} wb
    ∧ w' = {| wb with this_loop := {| (this_loop wb) with callingPendingFunctors_ := false |} |}.
Proof.
  intros E. unfold doPendingFunctors in E. apply bind_inv in E as ([] & ? & [= <-] & E).
  apply bind_inv in E as (fs & ? & [= <- <-] & E). apply bind_inv in E as ([] & ? & [= <-] & E).
  apply bind_inv in E as ([] & wb & Eb & E). injection E as <-.
  exists wb. split; [|done]. eapply for_each_in_turn; [|exact Eb]. intros f v. eexists. split; [|reflexivity].
  exists (currentActiveChannel_ (this_loop v)). eexists. by destruct v as [[]].
Qed.

(** C15: One turn of the loop.  Let the callbacks and functors never fail by themselves,
    whatever the state of the loop, and keep the poller in order and the active
    channels alive ([well_behaved]).  Then one iteration of loop() fails no assertion,
    whatever poll reports.  It calls handleEvent on exactly the channels that this
    poll reported, in that order, each in the state the one before has left, with
    eventHandling_ set; then it runs exactly the functors that were pending at the
    start followed by those queued while events were handled, in the order of
    queueing, with callingPendingFunctors_ set; what functors queue themselves is
    left, in order, for the next iteration.  A quit() in between is not lost. *)
Theorem event_loop_turn {BT : BaseTime} {C : Type} {EP : Epoll} {EL : EpollLaws EP} {EF : Eventfd}
    {F U : Type} runUser runFunctor lock unlock (w : LoopWorld (C := C) F U) :
  well_behaved runUser runFunctor lock unlock -> between w ->
  ∃ t active x w1 w2,
    poll kPollTimeMs (pw w) = Ok ((t, active), x)
    ∧ handleEvents runUser lock unlock w = Ok (tt, w1)
    ∧ iteration runUser runFunctor lock unlock w = Ok (tt, w2)
    ∧ (∃ wb, in_turn (λ p, handleEvent (LO := eventloop_ops) (run_loop_closure runUser) lock unlock p t) active
           {| w with pw := x;
              this_loop := {| (this_loop w) with activeChannels_ := active; pollReturnTime_ := t;
                                iteration_ := s64 (iteration_ (this_loop w) + 1); eventHandling_ := true |} |} wb
         ∧ w1 = {| wb with this_loop := {| (this_loop wb) with currentActiveChannel_ := None; eventHandling_ := false |} |})
    ∧ (∃ wb, in_turn runFunctor (pendingFunctors_ (this_loop w1))
           {| w1 with this_loop := {| (this_loop w1) with callingPendingFunctors_ := true; pendingFunctors_ := [] |} |} wb
         ∧ w2 = {| wb with this_loop := {| (this_loop wb) with callingPendingFunctors_ := false |} |})
    ∧ (∃ during, queued w1 = queued w ++ during
         ∧ pendingFunctors_ (this_loop w1) = pendingFunctors_ (this_loop w) ++ during)
    ∧ (∃ after, queued w2 = queued w1 ++ after ∧ pendingFunctors_ (this_loop w2) = after)
    ∧ between w2 ∧ (quit_ (this_loop w) = true -> quit_ (this_loop w2) = true).
Proof.
  intros [Hu Hf Hlk Hun] Hb.
  destruct (iteration_turn runUser runFunctor lock unlock Hu Hf Hlk Hun w Hb)
    as (t & active & x & w1 & w2 & Hpoll & E1 & [_ (q1 & c1 & fs1 & L1 & Q1 & _) C1] & E2
        & [_ (q2 & c2 & fs2 & L2 & Q2 & _) C2] & Hb2 & _ & Hq & _).
  exists t, active, x, w1, w2. split_and!; try done.
  - by apply handleEvents_calls.
  - apply doPendingFunctors_calls. apply bind_inv in E2 as ([] & w1' & E1' & E2).
    rewrite E1 in E1'. by injection E1' as <-.
  - exists fs1. by rewrite L1.
  - exists fs2. by rewrite L2.
Qed.

(** ** loop() *)
Fixpoint iterate {S} (body : M S unit) (k : nat) : M S unit :=
  match k with O => mret tt | S k' => iterate body k' ;;; body end.

Definition started {BT : BaseTime} {C : Type} {EP : Epoll} {EF : Eventfd} {F U : Type}
    (w : LoopWorld (C := C) F U) : LoopWorld (C := C) F U :=
  {| w with this_loop := {| (this_loop w) with looping_ := true; quit_ := false |} |}.
Definition stopped {BT : BaseTime} {C : Type} {EP : Epoll} {EF : Eventfd} {F U : Type}
    (w : LoopWorld (C := C) F U) : LoopWorld (C := C) F U :=
  {| w with this_loop := {| (this_loop w) with looping_ := false |} |}.

(** A loop that is not running. *)
Record at_rest {BT : BaseTime} {C : Type} {EP : Epoll} {EF : Eventfd} {F U : Type}
    (w : LoopWorld (C := C) F U) : Prop := {
  ar_inv : loop_inv w;
  ar_looping : looping_ (this_loop w) = false;
  ar_events : eventHandling_ (this_loop w) = false;
  ar_calling : callingPendingFunctors_ (this_loop w) = false;
  ar_fifo : fifo w;
}.

Section looping.
#[local] Set Default Proof Using "Type*".
Context {BT : BaseTime} {C : Type} {EP : Epoll} {EL : EpollLaws EP} {EF : Eventfd} {F U : Type}.
Implicit Types (w : LoopWorld (C := C) F U).
Context (runUser : C -> Timestamp -> M (LoopWorld (C := C) F U) unit)
  (runFunctor : F -> M (LoopWorld (C := C) F U) unit)
  (lock : option addr -> M (LoopWorld (C := C) F U) bool)
  (unlock : option addr -> M (LoopWorld (C := C) F U) unit).
Context (good : well_behaved runUser runFunctor lock unlock).
#[local] Abbreviation turn := (iteration runUser runFunctor lock unlock).

Lemma iterate_between w k : between w -> fifo w ->
  ∃ wk, iterate turn k w = Ok (tt, wk) ∧ between wk ∧ fifo wk
    ∧ ((0 < k)%nat -> ∀ f, f ∈ pendingFunctors_ (this_loop w) -> quits runFunctor f ->
         quit_ (this_loop wk) = true).
Proof.
  destruct good as [Hu Hf Hlk Hun]. intros Hb Hff. induction k as [|k (wk & E & Hbk & Hfk & Hqk)].
  { exists w. split_and!; try done. lia. }
  destruct (iteration_turn runUser runFunctor lock unlock Hu Hf Hlk Hun wk Hbk)
    as (t & active & x & w1 & w2 & _ & _ & [_ (q1 & c1 & fs1 & L1 & _) _] & E2 & _ & Hb2 & Hf2 & Hq & Hq2).
  exists w2. cbn [iterate]. rewrite (bind_ok _ _ _ _ _ E). split_and!; [done..|by apply Hf2|].
  intros _ f Hin Hquits. destruct k as [|k].
  - apply (Hq2 f); [|done]. injection E as <-. rewrite L1. cbn. apply elem_of_app. by left.
  - apply Hq, (Hqk ltac:(lia) f); done.
Qed.

(** As long as [quit_] is not set, [loop_while] is [iterate]. *)
Lemma loop_while_iterate w k fuel wk :
  (∀ j wj, (j < k)%nat -> iterate turn j w = Ok (tt, wj) -> quit_ (this_loop wj) = false) ->
  iterate turn k w = Ok (tt, wk) ->
  loop_while runUser runFunctor lock unlock (k + fuel) w = loop_while runUser runFunctor lock unlock fuel wk.
Proof.
  revert fuel wk. induction k as [|k IH]; intros fuel wk Hno E; [by injection E as <-|].
  apply bind_inv in E as ([] & w1 & E1 & E2).
  rewrite Nat.add_succ_comm, (IH (S fuel) w1); [|by intros j wj ?; apply Hno; lia|done].
  cbn [loop_while]. rewrite (bind_ok (gets _) _ _ _ _ eq_refl), (Hno k w1) by (lia || done).
  by rewrite (bind_ok _ _ _ _ _ E2).
Qed.

Lemma started_between w : at_rest w -> between (started w) ∧ fifo (started w).
Proof using Type. intros [[] ? ? ? ?]. by split. Qed.
End looping.

(** C32: loop() runs until quit() and then returns.  Let callbacks and functors never
    fail by themselves and keep the poller in order and the active channels alive
    ([well_behaved]).  Then no iteration fails, whatever poll reports, and after each
    one the loop is between two iterations again.  As soon as quit_ is set at the end
    of an iteration, loop() returns, having run that iteration to its end: the state
    it leaves is that of the [k] iterations so far with looping_ cleared, and any
    larger fuel gives the same.  A pending functor that calls quit() sets quit_ in
    the first iteration.  By the history the functors that were run, followed by
    those that wait, are all functors ever queued. *)
Theorem loop_until_quit {BT : BaseTime} {C : Type} {EP : Epoll} {EL : EpollLaws EP} {EF : Eventfd}
    {F U : Type} runUser runFunctor lock unlock (w : LoopWorld (C := C) F U) k :
  well_behaved runUser runFunctor lock unlock -> at_rest w ->
  let turn := iteration runUser runFunctor lock unlock in
  (∀ j wj, (j < k)%nat -> iterate turn j (started w) = Ok (tt, wj) -> quit_ (this_loop wj) = false) ->
  ∃ wk, iterate turn k (started w) = Ok (tt, wk) ∧ between wk
    ∧ functors_run wk ++ pendingFunctors_ (this_loop wk) = queued wk
    ∧ (quit_ (this_loop wk) = true -> ∀ fuel, (k < fuel)%nat ->
         loop runUser runFunctor lock unlock fuel w = Ok (tt, stopped wk) ∧ at_rest (stopped wk))
    ∧ ((0 < k)%nat -> ∀ f, f ∈ pendingFunctors_ (this_loop w) -> quits runFunctor f ->
         quit_ (this_loop wk) = true).
Proof.
  intros Hgood Hrest turn Hno. destruct (started_between w Hrest) as [Hb Hf].
  destruct (iterate_between _ _ _ _ Hgood (started w) k Hb Hf) as (wk & E & Hbk & Hfk & Hqk).
  exists wk. split_and!; try done. intros Hquit fuel Hfuel. split.
  - destruct Hrest as [[Hok _ _] Hl _ _ _]. unfold loop.
    rewrite (bind_ok _ _ w tt w) by by unfold assertS; rewrite Hl.
    rewrite (bind_ok assertInLoopThread _ w tt w)
      by by unfold assertInLoopThread, isInLoopThread, gets, mbind, M_bind; rewrite (ok_loop _ Hok).
    rewrite (bind_ok (on_loop _) _ w tt (started w) eq_refl).
    rewrite (bind_ok _ _ _ tt wk); [done|].
    replace fuel with (k + S (fuel - S k))%nat by lia.
    rewrite (loop_while_iterate _ _ _ _ Hgood (started w) k _ wk) by done.
    cbn [loop_while]. by rewrite (bind_ok (gets _) _ _ _ _ eq_refl), Hquit.
  - destruct Hbk as [[] ? ? ?]. by split.
Qed.

(** Removing channels while events are handled.  Take a registered channel
    without events.  removeChannel unregisters it, and touches nothing else,
    when no events are being handled, when it is the channel whose events are
    handled, or when it is not among the active channels of this round; on
    another active channel -- its events are still to come, or have been handled
    already -- the assertion stops the program. *)
Theorem removeChannel_guard {BT : BaseTime} {C : Type} {EP : Epoll} {EL : EpollLaws EP} {EF : Eventfd}
    {F U : Type} (w : LoopWorld (C := C) F U) p c :
  poller_ok (pw w) -> heap (pw w) !! p = Some c -> is_Some (poller_interest p (pw w)) ->
  events_ c = kNoneEvent ->
  (eventHandling_ (this_loop w) = false ∨ currentActiveChannel_ (this_loop w) = Some p
     ∨ p ∉ activeChannels_ (this_loop w) ->
   wp (removeChannel p) (λ _ w', poller_ok (pw w') ∧ poller_interest p (pw w') = None
     ∧ (∀ q, q ≠ p -> poller_interest q (pw w') = poller_interest q (pw w))
     ∧ w' = {| w with pw := pw w' |}) w)
  ∧ (eventHandling_ (this_loop w) = true -> currentActiveChannel_ (this_loop w) ≠ Some p ->
     p ∈ activeChannels_ (this_loop w) -> removeChannel p w = Fault AssertFailed).
Proof.
  intros Hok Hc Hint Hev. split.
  - intros Hrm. unfold removeChannel. rewrite wp_bind. apply wp_loop_thread; [by apply ok_loop|].
    rewrite wp_bind, wp_gets, wp_bind, wp_when.
    assert (H : wp (zoom pwL (poller_removeChannel p)) (λ _ w', poller_ok (pw w')
        ∧ poller_interest p (pw w') = None
        ∧ (∀ q, q ≠ p -> poller_interest q (pw w') = poller_interest q (pw w))
        ∧ w' = {| w with pw := pw w' |}) w).
    { apply wp_pw. eapply wp_mono; [by apply (law_remove (LoopSpec := poller_spec) p (pw w) c)|].
      by intros [] x (? & ? & _ & _ & ? & _). }
    destruct (eventHandling_ (this_loop w)) eqn:He; [|exact H].
    rewrite wp_assert. split; [|exact H].
    rewrite orb_true_iff, negb_true_iff, bool_decide_eq_true, bool_decide_eq_false. naive_solver.
  - intros He Hcur Hact. unfold removeChannel.
    rewrite (bind_ok assertInLoopThread _ w tt w)
      by by unfold assertInLoopThread, isInLoopThread, gets, mbind, M_bind; rewrite (ok_loop _ Hok).
    rewrite (bind_ok (gets _) _ _ _ _ eq_refl), He. cbn [whenM].
    by rewrite bool_decide_eq_false_2, bool_decide_eq_true_2.
Qed.

(** ** A small loop

    Two channels over the tiny kernel: the wake-up channel, descriptor 6, and
    descriptor 5 whose callback queues functor 2.  Functor n + 1 queues functor
    n, functor 0 calls [quit()]. *)
Abbreviation small_world := (@LoopWorld micros nat tiny_epoll flag_eventfd nat unit).

Definition small_user (c : nat) (t : @Timestamp micros) : M small_world unit := queueInLoop c.
Definition small_functor (f : nat) : M small_world unit :=
  match f with O => quit | S f' => queueInLoop f' end.
Definition small_lock (o : option addr) : M small_world bool := mret true.
Definition small_unlock (o : option addr) : M small_world unit := mret tt.

Definition small_channel (fd : Z) (f : loop_closure nat) : @Channel (@loop_closures nat) :=
  set_index kAdded (set_events 3 (setReadCallback (CL := @loop_closures nat) f (@Channel_ctor (@loop_closures nat) fd))).

Definition small_loop (looping : bool) (pending : list nat) : small_world :=
  @mkLoopWorld micros nat tiny_epoll flag_eventfd nat unit
    {| (new_loop (BT := micros) (F := nat) 6 2%positive) with looping_ := looping; pendingFunctors_ := pending |}
    (@mkPollerWorld micros (@loop_closures nat) tiny_epoll
      (<[1%positive := small_channel 5 (CUser 2%nat)]> {[2%positive := small_channel 6 CWakeup]})
      (mkPoller (<[5 := 1%positive]> {[6 := 2%positive]}) [zero_event; zero_event])
      (mkTiny (<[5 := mkEvent 3 (Some 1%positive)]> {[6 := mkEvent 3 (Some 2%positive)]})
              [5; 6] (<[5 := 1]> {[6 := 1]}) 100)
      true)
    false true tt [] pending.

Lemma small_inv looping pending : loop_inv (small_loop looping pending).
Proof.
  split; [|done|done]. split; cbn; try done; try lia.
  - intros p c Hp. apply lookup_insert_Some in Hp as [[_ <-]|[_ Hp]]; [by right; left|].
    apply lookup_singleton_Some in Hp as [_ <-]. by right; left.
  - intros fd p. rewrite lookup_insert_Some, lookup_singleton_Some. split.
    + intros [[<- <-]|[? [<- <-]]]; eexists; (split; [reflexivity|by split]).
    + intros (c & Hp & <- & _). apply lookup_insert_Some in Hp as [[<- <-]|[_ Hp]]; [by left|].
      apply lookup_singleton_Some in Hp as [<- <-]. by right.
  - intros fd ev. case_bool_decide; [|done]. rewrite lookup_insert_Some, lookup_singleton_Some.
    intros [[<- <-]|[? [<- <-]]]; [exists 1%positive|exists 2%positive];
      eexists; (split; [reflexivity|by split_and!]).
  - intros p c. rewrite lookup_insert_Some, lookup_singleton_Some.
    intros [[<- <-]|[? [<- <-]]] _; eexists; (split; [reflexivity|done]).
Qed.

Lemma small_behaved : well_behaved small_user small_functor small_lock small_unlock.
Proof.
  split; [intros c t|intros [|f]|intros o|intros o].
  - apply respects_queueInLoop.
  - apply respects_quit.
  - apply respects_queueInLoop.
  - apply respects_ret.
  - apply respects_ret.
Qed.

Lemma event_loop_turn_witness :
  ∃ w2, iteration small_user small_functor small_lock small_unlock (small_loop true [0%nat]) = Ok (tt, w2)
    ∧ called w2 = [inl 1%positive; inl 2%positive; inr 0%nat; inr 2%nat]
    ∧ pendingFunctors_ (this_loop w2) = [1%nat] ∧ quit_ (this_loop w2) = true.
Proof.
  destruct (event_loop_turn small_user small_functor small_lock small_unlock (small_loop true [0%nat])
    small_behaved ltac:(split; [apply small_inv|done..]))
    as (t & active & x & w1 & w2 & _ & _ & E & _).
  assert (Hv : (λ '(_, w), (called w, pendingFunctors_ (this_loop w), quit_ (this_loop w))) <$>
      match iteration small_user small_functor small_lock small_unlock (small_loop true [0%nat]) with
      | Ok r => Some r | Fault _ => None end
    = Some ([inl 1%positive; inl 2%positive; inr 0%nat; inr 2%nat], [1%nat], true))
    by (vm_compute; reflexivity).
  rewrite E in Hv. injection Hv as H1 H2 H3. exists w2. by split_and!.
Defined.

Lemma loop_until_quit_witness :
  ∃ wk, loop small_user small_functor small_lock small_unlock 2 (small_loop false [0%nat]) = Ok (tt, stopped wk)
    ∧ at_rest (stopped wk).
Proof.
  destruct (loop_until_quit small_user small_functor small_lock small_unlock (small_loop false [0%nat]) 1
    small_behaved ltac:(split; [apply small_inv|done..]))
    as (wk & _ & _ & _ & H & Hq).
  - intros [|j] wj Hj E; [by injection E as <-|lia].
  - exists wk. apply H; [|lia]. apply (Hq ltac:(lia) 0%nat); [by left|].
    intros w. apply quit_quits.
Defined.

Lemma removeChannel_guard_witness :
  let w := small_loop true [] in
  let idle c := set_events (CL := @loop_closures nat) kNoneEvent c in
  let w' := {| w with this_loop := {| (this_loop w) with eventHandling_ := true;
                 activeChannels_ := [1%positive; 2%positive]; currentActiveChannel_ := Some 2%positive |};
               pw := {| (pw w) with heap := idle <$> heap (pw w) |} |} in
  removeChannel 1%positive w' = Fault AssertFailed.
Proof.
  intros w idle w'. apply (removeChannel_guard w' 1%positive (idle (small_channel 5 (CUser 2%nat)))).
  - pose proof (small_inv true []) as [Hok _ _]. destruct Hok as [? ? Hix Hmap Hw Had].
    refine (proj1 (ok_rekey (pw w) (pw w') (li_ok _ (small_inv true [])) _ eq_refl _ (λ _, eq_refl) eq_refl)).
    + intros q. cbn. rewrite lookup_fmap. by destruct (_ !! q).
    + cbn. lia.
  - by vm_compute.
  - eexists. by vm_compute.
  - done.
  - done.
  - done.
  - by left.
Defined.
