(* ===== verification/EventLoopThreadPool.v ===== *)
(** * EventLoopThreadPool: one loop per thread
    (EventLoopThreadPool.h, EventLoopThreadPool.cc)

    Loops are named by numbers.  The operations run in some loop's thread, which
    is part of the state because they assert that it is the base loop's.  A new
    thread's [startLoop] waits until the loop of the thread is there, after the
    init callback has run on it: it is used by its result, which [EventLoopThread.v]
    shows it has.

    Not modelled: the names of the threads. *)

From Stdlib Require Import ZArith Lia.
From stdpp Require Import gmap list.
From S2P Require Import Prelude Bytes Base.

Local Open Scope Z_scope.

Abbreviation loop_id := nat.

Record EventLoopThreadPool := mkPool {
  baseLoop_ : loop_id;
  started_ : bool;
  numThreads_ : Z;
  next_ : Z;
  loops_ : list loop_id;
}.

(** The thread that runs, how many loops there are, and on which loops the init
    callback has run. *)
Record Threads := mkThreads { running : loop_id; nloops : nat; initialised : list loop_id }.

Abbreviation PoolWorld := (EventLoopThreadPool * Threads)%type.

Definition EventLoopThreadPool_ctor (baseLoop : loop_id) : EventLoopThreadPool :=
  mkPool baseLoop false 0 0 [].

Definition on_pool (f : EventLoopThreadPool -> EventLoopThreadPool) : M PoolWorld unit :=
  modify (λ w, (f (fst w), snd w)).
Definition on_threads (f : Threads -> Threads) : M PoolWorld unit :=
  modify (λ w, (fst w, f (snd w))).

Definition setThreadNum (numThreads : Z) : M PoolWorld unit :=
  on_pool (λ p, {| p with numThreads_ := numThreads |}).

(** [loop->assertInLoopThread()]. *)
Definition assertInLoopThread (loop : loop_id) : M PoolWorld unit :=
  ok ← gets (λ w, bool_decide (running (snd w) = loop)); if ok : bool then mret tt else failM FatalLog.

(** [cb(loop)] for a callback that may be empty. *)
Definition init (cb : bool) (loop : loop_id) : M PoolWorld unit :=
  whenM cb (on_threads (λ t, {| t with initialised := initialised t ++ [loop] |})).

(** [EventLoopThread(cb, name)] and [startLoop()]. *)
Definition startLoop (cb : bool) : M PoolWorld loop_id :=
  loop ← gets (λ w, nloops (snd w));
  on_threads (λ t, {| t with nloops := S (nloops t) |}) ;;;
  init cb loop ;;;
  mret loop.

Definition start (cb : bool) : M PoolWorld unit :=
  assertS (λ w, negb (started_ (fst w))) ;;;
  base ← gets (λ w, baseLoop_ (fst w));
  assertInLoopThread base ;;;
  on_pool (λ p, {| p with started_ := true |}) ;;;
  n ← gets (λ w, numThreads_ (fst w));
  for_each (seq 0 (Z.to_nat n)) (λ _,
    l ← startLoop cb; on_pool (λ p, {| p with loops_ := loops_ p ++ [l] |})) ;;;
  whenM (n =? 0) (init cb base).

(** [loops_[i]]; out of range is a fault. *)
Definition loop_at (i : Z) : M PoolWorld loop_id := liftR (λ w,
  match loops_ (fst w) !! Z.to_nat i with
  | Some l => if 0 <=? i then Ok l else Fault OutOfBounds
  | None => Fault OutOfBounds
  end).

Definition getNextLoop : M PoolWorld loop_id :=
  p ← gets fst;
  assertInLoopThread (baseLoop_ p) ;;;
  assert_ (started_ p) ;;;
  if bool_decide (loops_ p = []) then mret (baseLoop_ p)
  else
    loop ← loop_at (next_ p);
    on_pool (λ p, {| p with next_ := s32 (next_ p + 1) |}) ;;;
    n ← gets (λ w, next_ (fst w));
    whenM (zlength (loops_ p) <=? u64 n) (on_pool (λ p, {| p with next_ := 0 |})) ;;;
    mret loop.

Definition getLoopForHash (hashCode : Z) : M PoolWorld loop_id :=
  p ← gets fst;
  assertInLoopThread (baseLoop_ p) ;;;
  if bool_decide (loops_ p = []) then mret (baseLoop_ p)
  else loop_at (hashCode `mod` zlength (loops_ p)).

Definition getAllLoops : M PoolWorld (list loop_id) :=
  p ← gets fst;
  assertInLoopThread (baseLoop_ p) ;;;
  assert_ (started_ p) ;;;
  mret (if bool_decide (loops_ p = []) then [baseLoop_ p] else loops_ p).

(** ** What the pool promises *)

(** The loop of the [i]-th call of [getNextLoop]. *)
Definition nth_loop (p : EventLoopThreadPool) (i : nat) : loop_id :=
  match loops_ p with
  | [] => baseLoop_ p
  | _ => default (baseLoop_ p) (loops_ p !! (i `mod` length (loops_ p))%nat)
  end.

(** A started pool that has given out [i] loops. *)
Record pool_ok (i : nat) (p : EventLoopThreadPool) : Prop := {
  po_started : started_ p = true;
  po_next : next_ p = if bool_decide (loops_ p = []) then 0 else Z.of_nat i `mod` zlength (loops_ p);
  po_few : zlength (loops_ p) < 2 ^ 31;
}.

Lemma wp_pool_assertInLoop loop Q (w : PoolWorld) : running (snd w) = loop -> Q tt w ->
  wp (assertInLoopThread loop) Q w.
Proof.
  intros Hr HQ. unfold assertInLoopThread. by rewrite wp_bind, wp_gets, bool_decide_eq_true_2.
Qed.

Lemma getNextLoop_wp i p t : pool_ok i p -> running t = baseLoop_ p ->
  wp getNextLoop (λ l w', l = nth_loop p i ∧ snd w' = t ∧ pool_ok (S i) (fst w')
    ∧ baseLoop_ (fst w') = baseLoop_ p ∧ loops_ (fst w') = loops_ p) (p, t).
Proof.
  intros [Hs Hn Hf] Hr. unfold getNextLoop, on_pool. rewrite wp_bind, wp_gets, wp_bind.
  apply wp_pool_assertInLoop; [done|]. rewrite wp_bind, wp_assert. split; [done|]. rewrite wp_if.
  unfold nth_loop.
  destruct (decide (loops_ p = [])) as [He|He];
    [rewrite bool_decide_eq_true_2 in Hn |- * by done|rewrite bool_decide_eq_false_2 in Hn |- * by done].
  - rewrite He. split_and!; try done. split; cbn [fst]; [done| |done]. by rewrite bool_decide_eq_true_2.
  - destruct (loops_ p) as [|l0 ls] eqn:El; [done|]. rewrite <- El in *.
    set (n := length (loops_ p)) in *. assert (Hpos : (0 < n)%nat) by (unfold n; rewrite El; simpl; lia).
    pose proof (Z.mod_pos_bound (Z.of_nat i) (Z.of_nat n) ltac:(lia)) as Hb. rewrite <- Hn in Hb.
    assert (Hi : Z.to_nat (next_ p) = (i `mod` n)%nat) by (rewrite Hn, <- Nat2Z.inj_mod; lia).
    destruct (lookup_lt_is_Some_2 (loops_ p) (i `mod` n)) as [l Hl].
    { fold n. by apply Nat.mod_upper_bound; lia. }
    rewrite wp_bind. apply wp_liftR. cbn [fst].
    rewrite Hi, Hl, (proj2 (Z.leb_le _ _)) by lia.
    rewrite wp_bind, wp_modify, wp_bind, wp_gets, wp_bind, wp_when. cbn [fst next_ loops_].
    rewrite wrap_s_id by (cbn; lia). rewrite wrap_u_id by lia.
    assert (Hnext : ∀ z, z = Z.of_nat (S i) `mod` Z.of_nat n ->
      pool_ok (S i) {| baseLoop_ := baseLoop_ p; started_ := started_ p; numThreads_ := numThreads_ p;
                       next_ := z; loops_ := loops_ p |}).
    { intros z ->. split; [done| |done]. cbn. by rewrite bool_decide_eq_false_2 by done. }
    assert (Hdef : default (baseLoop_ p) (Some l) = l) by done.
    fold n. destruct (Z.of_nat n <=? next_ p + 1) eqn:E; bool_to_Z.
    all: try apply wp_modify; apply wp_ret; split_and!; [done..| |done|done]; apply Hnext.
    + rewrite Nat2Z.inj_succ, <- Z.add_1_r, <- Z.add_mod_idemp_l, <- Hn by lia.
      by replace (next_ p + 1) with (Z.of_nat n) by lia; rewrite Z.mod_same by lia.
    + rewrite Nat2Z.inj_succ, <- Z.add_1_r, <- Z.add_mod_idemp_l, <- Hn by lia.
      by rewrite Z.mod_small by lia.
Qed.

(** Starting makes as many new loops as threads were asked for. *)
Lemma pool_start_wp cb n p t : started_ p = false -> loops_ p = [] -> numThreads_ p = n -> 0 <= n < 2 ^ 31 ->
  next_ p = 0 -> running t = baseLoop_ p ->
  wp (start cb) (λ _ w', pool_ok 0 (fst w') ∧ baseLoop_ (fst w') = baseLoop_ p
    ∧ loops_ (fst w') = seq (nloops t) (Z.to_nat n) ∧ running (snd w') = running t
    ∧ initialised (snd w') = initialised t
        ++ (if cb then if n =? 0 then [baseLoop_ p] else seq (nloops t) (Z.to_nat n) else [])) (p, t).
Proof.
  intros Hs Hl Hn Hb Hx Hr. unfold start. rewrite wp_bind, wp_assertS. cbn [fst]. rewrite Hs. split; [done|].
  rewrite wp_bind, wp_gets, wp_bind. apply wp_pool_assertInLoop; [done|].
  unfold on_pool. rewrite wp_bind, wp_modify, wp_bind, wp_gets, wp_bind. cbn [fst snd numThreads_]. rewrite Hn.
  eapply wp_mono; [apply (wp_for_each (λ l (w : PoolWorld),
    started_ (fst w) = true ∧ baseLoop_ (fst w) = baseLoop_ p ∧ next_ (fst w) = 0
    ∧ loops_ (fst w) = seq (nloops t) (length l) ∧ nloops (snd w) = (nloops t + length l)%nat
    ∧ running (snd w) = running t
    ∧ initialised (snd w) = initialised t ++ (if cb then seq (nloops t) (length l) else [])))|].
  - cbn. rewrite Hl. split_and!; try done; try lia. by destruct cb; rewrite app_nil_r.
  - intros pre i post w Heq (? & ? & ? & Hls & Hnl & ? & Hi). unfold startLoop, init, on_threads.
    rewrite !wp_bind, wp_gets, wp_bind, wp_modify, wp_bind, wp_when, length_app, Nat.add_1_r, seq_S.
    destruct cb; rewrite ?wp_modify, wp_ret, wp_modify; cbn [fst snd started_ baseLoop_ next_ loops_ nloops running initialised];
      split_and!; rewrite ?Hls, ?Hnl, ?Hi; try done; try lia. by rewrite app_assoc.
  - intros [] w (Hs' & Hb' & Hx' & Hls & _ & Hr' & Hi). rewrite length_seq in *.
    assert (Hok : pool_ok 0 (fst w)).
    { split; [done| |rewrite Hls, length_seq; lia]. rewrite Hx'. case_bool_decide; [done|].
      by rewrite Z.mod_0_l by (destruct (loops_ (fst w)); simpl; [done|lia]). }
    destruct (n =? 0) eqn:E; bool_to_Z; cbn [whenM]; [|by destruct cb; split_and!].
    rewrite E in *. unfold init. destruct cb; cbn [whenM]; [unfold on_threads; apply wp_modify|];
      split_and!; try done; cbn [fst snd initialised]; by rewrite Hi, ?app_nil_r.
Qed.

(** The loops of a pool that was started with [n] threads. *)
Lemma nth_loop_seq p n base k c : loops_ p = seq k (Z.to_nat n) -> baseLoop_ p = base -> 0 <= n ->
  nth_loop p c = if n =? 0 then base else (k + c `mod` Z.to_nat n)%nat.
Proof.
  intros Hl Hb Hn. unfold nth_loop. rewrite Hl, Hb. destruct (n =? 0) eqn:E; bool_to_Z; [by subst|].
  destruct (Z.to_nat n) as [|n'] eqn:En; [lia|]. cbn [seq length]. rewrite length_seq.
  change (k :: seq (S k) n') with (seq k (S n')).
  by rewrite lookup_seq_lt by (apply Nat.mod_upper_bound; lia).
Qed.

(** [m] calls in a row. *)
Fixpoint next_loops (m : nat) : M PoolWorld (list loop_id) :=
  match m with
  | O => mret []
  | S m' => l ← getNextLoop; ls ← next_loops m'; mret (l :: ls)
  end.

Lemma next_loops_wp m i p t : pool_ok i p -> running t = baseLoop_ p ->
  wp (next_loops m) (λ ls _, ls = nth_loop p <$> seq i m) (p, t).
Proof.
  revert i p t. induction m as [|m IH]; intros i p t Hok Hr; cbn [next_loops]; [done|].
  rewrite wp_bind. eapply wp_mono; [by apply (getNextLoop_wp i)|].
  intros l [p1 t1] (-> & Ht & Hok1 & Hb1 & Hl1). cbn [fst snd] in *. subst t1.
  rewrite wp_bind. eapply wp_mono; [apply (IH (S i)); [done|congruence]|].
  intros ls w' ->. rewrite wp_ret. cbn [seq fmap list_fmap]. f_equal.
  apply list_fmap_ext. intros j x _. unfold nth_loop. by rewrite Hl1, Hb1.
Qed.

(** C33: Round robin.  A pool that is started with n threads makes n loops, runs the
    init callback on each of them (on the base loop when there is no thread), and
    call number i of getNextLoop returns loop i mod n; without threads it always
    returns the base loop. *)
Theorem pool_round_robin cb n m base k : 0 <= n < 2 ^ 31 ->
  wp (setThreadNum n ;;; start cb ;;; w ← gets (λ w, initialised (snd w)); ls ← next_loops m; mret (w, ls))
    (λ '(inits, ls) _,
      ls = (λ i, if n =? 0 then base else (k + i `mod` Z.to_nat n)%nat) <$> seq 0 m
      ∧ inits = if cb then if n =? 0 then [base] else seq k (Z.to_nat n) else [])
    (EventLoopThreadPool_ctor base, mkThreads base k []).
Proof.
  intros Hn. unfold setThreadNum, on_pool. rewrite wp_bind, wp_modify, wp_bind.
  eapply wp_mono; [by apply (pool_start_wp cb n)|].
  intros [] [p t] (Hok & Hb & Hl & Hr & Hi). cbn [fst snd baseLoop_ nloops running initialised] in *.
  rewrite wp_bind, wp_gets, wp_bind. cbn [snd]. eapply wp_mono; [apply (next_loops_wp m 0); [done|by rewrite Hr, Hb]|].
  intros ls w ->. rewrite wp_ret. split; [|exact Hi].
  apply list_fmap_ext. intros j i Hj. apply (nth_loop_seq p n); [done..|lia].
Qed.

Lemma pool_round_robin_witness :
  wp (setThreadNum 3 ;;; start true ;;; w ← gets (λ w, initialised (snd w)); ls ← next_loops 5; mret (w, ls))
    (λ '(inits, ls) _, ls = [1; 2; 3; 1; 2]%nat ∧ inits = [1; 2; 3]%nat)
    (EventLoopThreadPool_ctor 0, mkThreads 0 1 []).
Proof. apply (pool_round_robin true 3 5 0 1). lia. Defined.
