(* ===== verification/TCPConnection.v ===== *)
(** * TCPConnection: buffered, event-driven connections (TCPConnection.h, TCPConnection.cc)

    A connection owns a channel and two buffers.  The loop it lives in is the
    interface [LoopOps]; the socket system calls are the class [SocketNet]; the
    user's callbacks are parameters.  Functors handed to the loop are data, so
    that the queue can be inspected; [run_functor] says what each one does.

    Not modelled: name, addresses and context, which are stored and returned
    only, and the socket options. *)

From Stdlib Require Import ZArith Lia.
From stdpp Require Import gmap list.
From S2P Require Import Prelude Bytes Base Buffer Channel.

Local Open Scope Z_scope.

Inductive StateE := kDisconnected | kConnecting | kConnected | kDisconnecting.

#[export] Instance StateE_eq_dec : EqDecision StateE.
Proof. solve_decision. Defined.

Definition EWOULDBLOCK : Z := 11.
Definition EPIPE : Z := 32.
Definition ECONNRESET : Z := 104.

(** The system calls on a connected socket. *)
Class SocketNet := {
  Net : Type;
  (** [write(fd, data, len)]: the value returned and [errno]. *)
  net_write : Z -> bytes -> Net -> (Z * Z) * Net;
  (** [readv(fd, iov, n)] for vectors of these lengths. *)
  net_readv : Z -> list Z -> Net -> read_result * Net;
  (** [shutdown(fd, SHUT_WR)]; a failure is only logged. *)
  net_shutdownWrite : Z -> Net -> Net;
  (** [getsockopt(fd, SOL_SOCKET, SO_ERROR)]. *)
  net_getSocketError : Z -> Net -> Z * Net;
  (** For the laws: the bytes accepted for transmission so far, and whether
      the sending side was shut down. *)
  wire : Net -> Z -> bytes;
  fin_sent : Net -> Z -> bool;
}.

Class SocketNetLaws (SN : SocketNet) := {
  (** write(2): a prefix of the data is accepted, or nothing on an error; after
      shutdown(SHUT_WR) it fails with EPIPE. *)
  write_law : ∀ fd d n r e n', net_write fd d n = (r, e, n') ->
    r <= zlength d ∧ fin_sent n' fd = fin_sent n fd
    ∧ wire n' fd = wire n fd ++ take (Z.to_nat r) d
    ∧ (fin_sent n fd = true -> r < 0 ∧ e = EPIPE);
  (** readv(2): at most what fits into the vectors. *)
  readv_law : ∀ fd iov n r n', net_readv fd iov n = (r, n') ->
    wire n' fd = wire n fd ∧ fin_sent n' fd = fin_sent n fd
    ∧ (∀ d, r = ReadBytes d -> Forall (λ n, 0 <= n) iov -> zlength d <= foldr Z.add 0 iov);
  shutdown_law : ∀ fd n, fin_sent (net_shutdownWrite fd n) fd = true
    ∧ wire (net_shutdownWrite fd n) fd = wire n fd;
  error_law : ∀ fd n r n', net_getSocketError fd n = (r, n') ->
    wire n' fd = wire n fd ∧ fin_sent n' fd = fin_sent n fd;
}.

(** What a connection hands to [queueInLoop] and [runInLoop]. *)
Inductive functor :=
  | FWriteComplete
  | FHighWater (len : Z)
  | FSendInLoop (message : bytes)
  | FShutdownInLoop
  | FForceCloseInLoop
  | FStartReadInLoop
  | FStopReadInLoop.

#[export] Instance functor_eq_dec : EqDecision functor.
Proof. solve_decision. Defined.

Record TCPConnection := mkConn {
  state_ : StateE;
  reading_ : bool;
  sockfd_ : Z;
  channel_ : addr;
  writeCompleteCallback_ : bool;
  highWaterMarkCallback_ : bool;
  highWaterMark_ : Z;
  inputBuffer_ : Buffer;
  outputBuffer_ : Buffer;
}.

(** The four [std::bind]s of the constructor. *)
Inductive conn_closure := CHandleRead | CHandleWrite | CHandleClose | CHandleError.
#[export] Instance conn_closures : Closures := {| Closure := conn_closure |}.

Section connection.
Context {BT : BaseTime} {W : Type} {LO : LoopOps W} {SN : SocketNet} {U : Type}.

(** The world of one connection: its loop, the network, the connection, the
    functors it has queued and the timers it has set ([forceCloseWithDelay]),
    whether the caller runs in the loop thread, and the user's own data.
    [offered] is a history: the messages [sendInLoop] was called with. *)
Record ConnWorld := mkConnWorld {
  lw : W;
  net : Net;
  conn : TCPConnection;
  queue : list functor;
  delayed : list double;
  in_thread : bool;
  user : U;
  offered : list bytes;
}.

(** The user's callbacks; [std::function]s that must be set before use. *)
Record Callbacks := mkCallbacks {
  connectionCallback : M ConnWorld unit;
  messageCallback : Timestamp -> M ConnWorld unit;
  closeCallback : M ConnWorld unit;
  writeComplete : M ConnWorld unit;
  highWater : Z -> M ConnWorld unit;
}.

Definition lwL : lens ConnWorld W := Lens lw (λ x w, {| w with lw := x |}).
Definition outL : lens ConnWorld Buffer :=
  Lens (λ w, outputBuffer_ (conn w))
       (λ b w, {| w with conn := {| (conn w) with outputBuffer_ := b |} |}).
Definition inL : lens ConnWorld Buffer :=
  Lens (λ w, inputBuffer_ (conn w))
       (λ b w, {| w with conn := {| (conn w) with inputBuffer_ := b |} |}).

Definition on_conn (f : TCPConnection -> TCPConnection) : M ConnWorld unit :=
  modify (λ w, {| w with conn := f (conn w) |}).

Definition on_net {A} (f : Net -> A * Net) : M ConnWorld A := λ w,
  let '(a, n) := f (net w) in Ok (a, {| w with net := n |}).

Definition setState (s : StateE) : M ConnWorld unit := on_conn (λ c, {| c with state_ := s |}).

Definition assertInLoopThread : M ConnWorld unit :=
  ok ← gets in_thread; if ok : bool then mret tt else failM FatalLog.

(** [loop_->queueInLoop(f)]. *)
Definition queueInLoop (f : functor) : M ConnWorld unit :=
  modify (λ w, {| w with queue := queue w ++ [f] |}).

(** [loop_->runInLoop(f)], where running [f] is [m]. *)
Definition runInLoop (f : functor) (m : M ConnWorld unit) : M ConnWorld unit :=
  here ← gets in_thread; if here : bool then m else queueInLoop f.

(** The channel behind [channel_]. *)
Definition the_channel : M ConnWorld Channel :=
  c ← gets conn; zoom lwL (deref (channel_ c)).
Definition on_channel (m : addr -> M W unit) : M ConnWorld unit :=
  c ← gets conn; zoom lwL (m (channel_ c)).

(** [TCPConnection(loop, name, sockfd, ...)]: the channel object is allocated
    at [p]; the callbacks are bound. *)
Definition Conn_channel (sockfd : Z) : Channel :=
  setErrorCallback CHandleError (setCloseCallback CHandleClose
    (setWriteCallback CHandleWrite (setReadCallback CHandleRead (Channel_ctor sockfd)))).

Definition TCPConnection_ctor (sockfd : Z) (p : addr) : result TCPConnection :=
  match Buffer_ctor kInitialSize with
  | Ok b => Ok (mkConn kConnecting false sockfd p false false (64 * 1024 * 1024) b b)
  | Fault f => Fault f
  end.

(** [~TCPConnection()]. *)
Definition TCPConnection_dtor : M ConnWorld unit :=
  assertS (λ w, bool_decide (state_ (conn w) = kDisconnected)) ;;;
  on_channel Channel_dtor.

Definition sendInLoop (message : bytes) : M ConnWorld unit :=
  assertInLoopThread ;;;
  modify (λ w, {| w with offered := offered w ++ [message] |}) ;;;
  let len := zlength message in
  c ← gets conn;
  if bool_decide (state_ c = kDisconnected) then mret tt
  else
    ch ← the_channel;
    '(nwrote, remaining, faultError) ←
      (if negb (isWriting ch) && (readableBytes (outputBuffer_ c) =? 0) then
         '(nwrote, errno) ← on_net (net_write (fd_ ch) message);
         if 0 <=? nwrote then
           let remaining := u64 (len - nwrote) in
           whenM ((remaining =? 0) && writeCompleteCallback_ c) (queueInLoop FWriteComplete) ;;;
           mret (nwrote, remaining, false)
         else mret (0, len, negb (errno =? EWOULDBLOCK)
                            && ((errno =? EPIPE) || (errno =? ECONNRESET)))
       else mret (0, len, false));
    assert_ (remaining <=? len) ;;;
    if negb faultError && (0 <? remaining) then
      let oldLen := readableBytes (outputBuffer_ c) in
      whenM ((highWaterMark_ c <=? u64 (oldLen + remaining)) && (oldLen <? highWaterMark_ c)
             && highWaterMarkCallback_ c)
        (queueInLoop (FHighWater (u64 (oldLen + remaining)))) ;;;
      zoom outL (append (take (Z.to_nat remaining) (drop (Z.to_nat nwrote) message))) ;;;
      ch ← the_channel;
      whenM (negb (isWriting ch)) (on_channel enableWriting)
    else mret tt.

(** [send(message)] and [send(message, len)]. *)
Definition send (message : bytes) : M ConnWorld unit :=
  c ← gets conn;
  whenM (bool_decide (state_ c = kConnected)) (runInLoop (FSendInLoop message) (sendInLoop message)).

(** [send(buffer)]: the caller's buffer afterwards. *)
Definition send_buffer (buffer : Buffer) : M ConnWorld Buffer :=
  c ← gets conn;
  if bool_decide (state_ c = kConnected) then
    here ← gets in_thread;
    if here : bool then
      message ← liftR (λ _, read_mem (peek buffer) (readableBytes buffer) buffer);
      sendInLoop message ;;;
      '(_, b) ← liftR (λ _, retrieveAll buffer);
      mret b
    else
      '(message, b) ← liftR (λ _, retrieveAllAsString buffer);
      runInLoop (FSendInLoop message) (sendInLoop message) ;;;
      mret b
  else mret buffer.

Definition shutdownInLoop : M ConnWorld unit :=
  assertInLoopThread ;;;
  ch ← the_channel;
  whenM (negb (isWriting ch))
    (c ← gets conn; on_net (λ n, (tt, net_shutdownWrite (sockfd_ c) n))).

Definition shutdown : M ConnWorld unit :=
  c ← gets conn;
  whenM (bool_decide (state_ c = kConnected))
    (setState kDisconnecting ;;; runInLoop FShutdownInLoop shutdownInLoop).

Definition closable (c : TCPConnection) : bool :=
  bool_decide (state_ c = kConnected) || bool_decide (state_ c = kDisconnecting).

Definition handleClose (cb : Callbacks) : M ConnWorld unit :=
  assertInLoopThread ;;;
  assertS (λ w, closable (conn w)) ;;;
  setState kDisconnected ;;;
  on_channel disableAll ;;;
  connectionCallback cb ;;;
  closeCallback cb.

Definition forceCloseInLoop (cb : Callbacks) : M ConnWorld unit :=
  assertInLoopThread ;;;
  c ← gets conn; whenM (closable c) (handleClose cb).

Definition forceClose : M ConnWorld unit :=
  c ← gets conn;
  whenM (closable c) (setState kDisconnecting ;;; queueInLoop FForceCloseInLoop).

(** The timer's callback is [forceClose], guarded by a weak pointer. *)
Definition forceCloseWithDelay (seconds : double) : M ConnWorld unit :=
  c ← gets conn;
  whenM (closable c)
    (setState kDisconnecting ;;; modify (λ w, {| w with delayed := delayed w ++ [seconds] |})).

Definition stateToString (c : TCPConnection) : bytes :=
  match state_ c with
  | kDisconnected => str "kDisconnected"
  | kConnecting => str "kConnecting"
  | kConnected => str "kConnected"
  | kDisconnecting => str "kDisconnecting"
  end.

(** Accessors and settings; a callback is set or not. *)
Definition connected (c : TCPConnection) : bool := bool_decide (state_ c = kConnected).
Definition disconnected (c : TCPConnection) : bool := bool_decide (state_ c = kDisconnected).
Definition conn_isReading (c : TCPConnection) : bool := reading_ c.
Definition setWriteCompleteCallback (cb : bool) : M ConnWorld unit :=
  on_conn (λ c, {| c with writeCompleteCallback_ := cb |}).
Definition setHighWaterMarkCallback (cb : bool) (mark : Z) : M ConnWorld unit :=
  on_conn (λ c, {| c with highWaterMarkCallback_ := cb; highWaterMark_ := mark |}).

(** The callbacks used when the user sets none. *)
Definition defaultConnectionCallback : M ConnWorld unit := mret tt.
Definition defaultMessageCallback (receiveTime : Timestamp) : M ConnWorld unit :=
  zoom inL retrieveAll.

Definition startReadInLoop : M ConnWorld unit :=
  assertInLoopThread ;;;
  c ← gets conn;
  ch ← the_channel;
  whenM (negb (reading_ c) || negb (isReading ch))
    (on_channel enableReading ;;; on_conn (λ c, {| c with reading_ := true |})).
Definition startRead : M ConnWorld unit := runInLoop FStartReadInLoop startReadInLoop.

Definition stopReadInLoop : M ConnWorld unit :=
  assertInLoopThread ;;;
  c ← gets conn;
  ch ← the_channel;
  whenM (reading_ c || isReading ch)
    (on_channel disableReading ;;; on_conn (λ c, {| c with reading_ := false |})).
Definition stopRead : M ConnWorld unit := runInLoop FStopReadInLoop stopReadInLoop.

(** [self] stands for [shared_from_this()]. *)
Definition connectEstablished (cb : Callbacks) (self : addr) : M ConnWorld unit :=
  assertInLoopThread ;;;
  assertS (λ w, bool_decide (state_ (conn w) = kConnecting)) ;;;
  setState kConnected ;;;
  on_channel (λ p, on_chan p (tie self)) ;;;
  on_channel enableReading ;;;
  connectionCallback cb.

Definition connectDestroyed (cb : Callbacks) : M ConnWorld unit :=
  assertInLoopThread ;;;
  c ← gets conn;
  whenM (bool_decide (state_ c = kConnected))
    (setState kDisconnected ;;; on_channel disableAll ;;; connectionCallback cb) ;;;
  on_channel remove.

(** [getSocketError] and a log line. *)
Definition handleError : M ConnWorld unit :=
  ch ← the_channel; _ ← on_net (net_getSocketError (fd_ ch)); mret tt.

Definition handleRead (cb : Callbacks) (receiveTime : Timestamp) : M ConnWorld unit :=
  assertInLoopThread ;;;
  ch ← the_channel;
  w ← getS;
  let iov := readFd_iov (inputBuffer_ (conn w)) in
  let '(r, net') := net_readv (fd_ ch) iov (net w) in
  modify (λ w, {| w with net := net' |}) ;;;
  '(n, _) ← zoom inL (readFd (λ _, r));
  if 0 <? n then messageCallback cb receiveTime
  else if n =? 0 then handleClose cb
  else handleError.

Definition handleWrite : M ConnWorld unit :=
  assertInLoopThread ;;;
  ch ← the_channel;
  if isWriting ch then
    c ← gets conn;
    let out := outputBuffer_ c in
    data ← liftR (λ _, read_mem (peek out) (readableBytes out) out);
    '(n, _) ← on_net (net_write (fd_ ch) data);
    if 0 <? n then
      zoom outL (retrieve n) ;;;
      c ← gets conn;
      if readableBytes (outputBuffer_ c) =? 0 then
        on_channel disableWriting ;;;
        whenM (writeCompleteCallback_ c) (queueInLoop FWriteComplete) ;;;
        whenM (bool_decide (state_ c = kDisconnecting)) shutdownInLoop
      else mret tt
    else mret tt
  else mret tt.

(** What the loop does with a queued functor. *)
Definition run_functor (cb : Callbacks) (f : functor) : M ConnWorld unit :=
  match f with
  | FWriteComplete => writeComplete cb
  | FHighWater len => highWater cb len
  | FSendInLoop message => sendInLoop message
  | FShutdownInLoop => shutdownInLoop
  | FForceCloseInLoop => forceCloseInLoop cb
  | FStartReadInLoop => startReadInLoop
  | FStopReadInLoop => stopReadInLoop
  end.

(** ** A session: what happens to a connection after it is established

    The loop reports events, runs queued functors and fires the timers of
    [forceCloseWithDelay]; other threads call the thread-safe methods.  The
    code of one step runs without interruption by other steps. *)
Definition conn_heap : ChannelHeap ConnWorld :=
  {| heapL := Lens (λ w, view heapL (lw w)) (λ h w, {| w with lw := upd heapL h (lw w) |}) |}.

#[local] Instance conn_loop : LoopOps ConnWorld := {|
  loop_heap := conn_heap;
  loop_updateChannel := λ p, zoom lwL (loop_updateChannel p);
  loop_removeChannel := λ p, zoom lwL (loop_removeChannel p);
  loop_hasChannel := λ p w, loop_hasChannel p (lw w);
  loop_isInLoopThread := λ w, loop_isInLoopThread (lw w);
|}.

(** The member functions the constructor binds to the channel. *)
Definition run_closure (cb : Callbacks) (f : Closure) (t : Timestamp) : M ConnWorld unit :=
  match f : conn_closure with
  | CHandleRead => handleRead cb t
  | CHandleWrite => handleWrite
  | CHandleClose => handleClose cb
  | CHandleError => handleError
  end.

(** The poller stores the events, then the loop calls [handleEvent], whose
    guard is alive as long as the connection is. *)
Definition ready (cb : Callbacks) (revents : Z) (t : Timestamp) : M ConnWorld unit :=
  c ← gets conn;
  on_channel (λ p, on_chan p (set_revents revents)) ;;;
  handleEventWithGuard (run_closure cb) (channel_ c) t.

Inductive event :=
  | EvReady (revents : Z) (t : Timestamp)
  | EvFunctor
  | EvTimer (i : nat)
  | EvSend (message : bytes)
  | EvShutdown
  | EvForceClose.

(** A call from another thread. *)
Definition elsewhere (m : M ConnWorld unit) : M ConnWorld unit :=
  modify (λ w, {| w with in_thread := false |}) ;;; m ;;;
  modify (λ w, {| w with in_thread := true |}).

Definition step (cb : Callbacks) (e : event) : M ConnWorld unit :=
  match e with
  | EvReady revents t => ready cb revents t
  | EvFunctor =>
      q ← gets queue;
      match q with
      | [] => mret tt
      | f :: q' => modify (λ w, {| w with queue := q' |}) ;;; run_functor cb f
      end
  | EvTimer i =>
      ds ← gets delayed;
      match ds !! i with
      | Some _ => modify (λ w, {| w with delayed := delete i ds |}) ;;; forceClose
      | None => mret tt
      end
  | EvSend message => elsewhere (send message)
  | EvShutdown => elsewhere shutdown
  | EvForceClose => elsewhere forceClose
  end.
(** The step can happen and is allowed: events are reported for registered
    channels, and not for a connection that is closed; POLLPRI and POLLRDHUP
    do not come with a hang-up without POLLIN; a queued [startRead] or
    [stopRead] is not run after the connection was closed. *)
Definition plausible (revents : Z) : bool :=
  negb (has_bits revents POLLHUP && negb (has_bits revents POLLIN)
        && has_bits revents (Z.lor (Z.lor POLLIN POLLPRI) POLLRDHUP)).

Definition enabled (e : event) (w : ConnWorld) : bool :=
  match e with
  | EvReady revents _ => closable (conn w) && plausible revents
  | EvFunctor =>
      match queue w with
      | FStartReadInLoop :: _ | FStopReadInLoop :: _ => closable (conn w)
      | _ => true
      end
  | EvSend message => zlength message <=? vector_max_size
  | _ => true
  end.

Definition session (cb : Callbacks) (es : list event) : M ConnWorld unit :=
  for_each es (λ e, w ← getS; whenM (enabled e w) (step cb e)).
End connection.
