(* ===== verification/ConnLife.v ===== *)
(** * ConnLife: a connection as its owner sees it

    [TCPServer] and [TCPClient] do four things to a connection, or are told of
    them: it is established, shut down, closed and destroyed.  What they and the
    loops can tell apart afterwards is its state and what its channel is known for
    in the poller.  [TCPConnection.v] has the whole of a connection;
    [ConnLifeProps.v] shows that it behaves as described here. *)

From Stdlib Require Import ZArith Lia.
From stdpp Require Import list relations.
From S2P Require Import Prelude Bytes Base Channel TCPConnection.

Local Open Scope Z_scope.

Abbreviation conn_id := nat (only parsing).

Record Conn := mkConn {
  conn_name : bytes;
  conn_loop : nat;      (** the number of its loop *)
  conn_state : StateE;
  registered : bool;   (** the poller has the channel in its table *)
  watching : bool;     (** established and not closed *)
  idle : bool;         (** while watching: reading is stopped and no output waits,
                           so that no event is set *)
}.

(** [connectEstablished()]. *)
Definition established (i : Conn) : result Conn :=
  if bool_decide (conn_state i = kConnecting)
  then Ok {| i with conn_state := kConnected; registered := true; watching := true; idle := false |}
  else Fault AssertFailed.

(** [shutdown()] and [forceClose()], as far as they change the state. *)
Definition shut (i : Conn) : Conn :=
  if bool_decide (conn_state i = kConnected) then {| i with conn_state := kDisconnecting |} else i.

(** [handleClose()] before its callbacks. *)
Definition closed (i : Conn) : result Conn :=
  if bool_decide (conn_state i = kConnected ∨ conn_state i = kDisconnecting)
  then Ok {| i with conn_state := kDisconnected; watching := false |}
  else Fault AssertFailed.

(** [connectDestroyed()]: [Channel::remove] asserts that no events are set. *)
Definition destroyed (i : Conn) : result Conn :=
  let i := if bool_decide (conn_state i = kConnected)
           then {| i with conn_state := kDisconnected; watching := false |} else i in
  if registered i && (negb (watching i) || idle i) then Ok {| i with registered := false |}
  else Fault AssertFailed.

(** Reading is stopped or started, or output comes or goes. *)
Definition set_idle (b : bool) (i : Conn) : Conn :=
  if watching i then {| i with idle := b |} else i.

(** What happens between the first and the last. *)
Inductive life : Conn -> Conn -> Prop :=
  | life_shut i : life i (shut i)
  | life_closed i i' : closed i = Ok i' -> life i i'
  | life_idle b i : life i (set_idle b i).

Definition new_conn (name : bytes) (loop : nat) : Conn := mkConn name loop kConnecting false false false.
