(* ===== verification/TCPServer.v ===== *)
(** * TCPServer: the life of the connections of a server (TCPServer.h, TCPServer.cc)

    The server accepts in its base loop, gives every connection a loop of the
    pool, and keeps the connections in a map by their names.  What it does to a
    connection and what a connection tells it travels between the loops as
    functors.

    A connection is what [ConnLife.v] makes of it: its functions
    [connectEstablished], [shutdown], [handleClose] and [connectDestroyed] appear
    here with their assertions, the state they leave and whether the channel is
    registered and watched.  A use of the server after its destruction is a fault.

    Not modelled: the acceptor's socket, addresses and callbacks of the user. *)

From Stdlib Require Import ZArith Lia.
From stdpp Require Import gmap list.
From S2P Require Import Prelude Bytes Base Channel TCPConnection EventLoopThreadPool ConnLife.

Local Open Scope Z_scope.

(** [std::bind] objects in the queues of the loops. *)
Inductive sfunctor :=
  | FEstablish (c : conn_id)   (** [TCPConnection::connectEstablished] *)
  | FRemove (c : conn_id)      (** [TCPServer::removeConnectionInLoop] *)
  | FDestroy (c : conn_id).    (** [TCPConnection::connectDestroyed] *)

#[export] Instance sfunctor_eq_dec : EqDecision sfunctor.
Proof. solve_decision. Defined.

Record TCPServer := mkServer {
  loop_ : loop_id;
  ipPort_ : bytes;
  name_ : bytes;
  server_started_ : bool;
  nextConnId_ : Z;
  connections_ : gmap bytes conn_id;
  listenning_ : bool;
}.

(** The server (until it is destroyed), its pool and the threads, the
    connections that were made, and the functors queued in each loop. *)
Record ServerWorld := mkServerWorld {
  server : option TCPServer;
  pool : PoolWorld;
  conns : list Conn;
  queues : gmap loop_id (list sfunctor);
}.

Definition poolL : lens ServerWorld PoolWorld := Lens pool (λ p w, {| w with pool := p |}).
Definition thread (w : ServerWorld) : loop_id := running (snd (pool w)).
Definition queue (l : loop_id) (w : ServerWorld) : list sfunctor := default [] (queues w !! l).

Definition TCPServer_ctor (base : loop_id) (ipPort name : bytes) : TCPServer :=
  mkServer base ipPort name false 1 ∅ false.

(** [this] of the server. *)
Definition this : M ServerWorld TCPServer :=
  liftR (λ w, match server w with Some s => Ok s | None => Fault OutOfBounds end).
Definition on_server (f : TCPServer -> TCPServer) : M ServerWorld unit :=
  s ← this; modify (λ w, {| w with server := Some (f s) |}).

Definition the_conn (c : conn_id) : M ServerWorld Conn :=
  liftR (λ w, match conns w !! c with Some i => Ok i | None => Fault OutOfBounds end).
Definition assertIn (l : loop_id) : M ServerWorld unit :=
  zoom poolL (assertInLoopThread l).

Definition queueInLoop (l : loop_id) (f : sfunctor) : M ServerWorld unit :=
  modify (λ w, {| w with queues := <[l := queue l w ++ [f]]> (queues w) |}).

(** ** The connections *)
Definition conn_does (c : conn_id) (f : Conn -> result Conn) : M ServerWorld unit :=
  i ← the_conn c;
  i' ← liftR (λ _, f i);
  modify (λ w, {| w with conns := <[c := i']> (conns w) |}).

Definition connectEstablished (c : conn_id) : M ServerWorld unit :=
  i ← the_conn c; assertIn (conn_loop i) ;;; conn_does c established.

Definition connectDestroyed (c : conn_id) : M ServerWorld unit :=
  i ← the_conn c; assertIn (conn_loop i) ;;; conn_does c destroyed.

Definition shutdown (c : conn_id) : M ServerWorld unit := conn_does c (λ i, Ok (shut i)).

(** ** The server *)
Definition removeConnectionInLoop (c : conn_id) : M ServerWorld unit :=
  s ← this;
  assertIn (loop_ s) ;;;
  i ← the_conn c;
  assert_ (bool_decide (is_Some (connections_ s !! conn_name i))) ;;;
  on_server (λ s, {| s with connections_ := delete (conn_name i) (connections_ s) |}) ;;;
  queueInLoop (conn_loop i) (FDestroy c).

Definition run_sfunctor (f : sfunctor) : M ServerWorld unit :=
  match f with
  | FEstablish c => connectEstablished c
  | FRemove c => removeConnectionInLoop c
  | FDestroy c => connectDestroyed c
  end.

Definition runInLoop (l : loop_id) (f : sfunctor) : M ServerWorld unit :=
  here ← gets (λ w, bool_decide (thread w = l));
  if here : bool then run_sfunctor f else queueInLoop l f.

Definition removeConnection (c : conn_id) : M ServerWorld unit :=
  s ← this; runInLoop (loop_ s) (FRemove c).

(** [handleClose()] of the connection, with its [closeCallback_]. *)
Definition handleClose (c : conn_id) : M ServerWorld unit :=
  i ← the_conn c;
  assertIn (conn_loop i) ;;;
  conn_does c closed ;;;
  removeConnection c.

(** The name of a connection; [buf] has 64 characters. *)
Definition connection_name (s : TCPServer) (id : Z) : bytes :=
  name_ s ++ snprintf 64 (str "-" ++ ipPort_ s ++ str "#" ++ print_d id).

(** [connections_[connName] = conn;] *)
Definition newConnection : M ServerWorld unit :=
  s ← this;
  assertIn (loop_ s) ;;;
  ioLoop ← zoom poolL getNextLoop;
  (let connName := connection_name s (nextConnId_ s) in
   on_server (λ s, {| s with nextConnId_ := s32 (nextConnId_ s + 1) |}) ;;;
   c ← gets (λ w, length (conns w));
   modify (λ w, {| w with conns := conns w ++ [new_conn connName ioLoop] |}) ;;;
   on_server (λ s, {| s with connections_ := <[connName := c]> (connections_ s) |}) ;;;
   runInLoop ioLoop (FEstablish c)).

Definition server_setThreadNum (numThreads : Z) : M ServerWorld unit :=
  assert_ (0 <=? numThreads) ;;; zoom poolL (setThreadNum numThreads).

(** [acceptor_->listen()] runs in the base loop; [start()] is called there. *)
Definition server_start (cb : bool) : M ServerWorld unit :=
  s ← this;
  if server_started_ s then mret tt
  else
    on_server (λ s, {| s with server_started_ := true |}) ;;;
    zoom poolL (start cb) ;;;
    assert_ (negb (listenning_ s)) ;;;
    assertIn (loop_ s) ;;;
    on_server (λ s, {| s with listenning_ := true |}).

(** [~TCPServer()]; the order in which the map is walked does not matter. *)
Definition TCPServer_dtor : M ServerWorld unit :=
  s ← this;
  assertIn (loop_ s) ;;;
  for_each ((map_to_list (connections_ s)).*2) (λ c, i ← the_conn c; runInLoop (conn_loop i) (FDestroy c)) ;;;
  modify (λ w, {| w with server := None |}).

(** ** What happens in the loops *)
Inductive sevent :=
  | SAccept                     (** the base loop accepts a connection *)
  | SFunctor (l : loop_id)      (** a loop runs its first functor *)
  | SClose (c : conn_id)        (** the peer's close is noticed, or [forceClose] runs *)
  | SShutdown (c : conn_id)     (** the user calls [shutdown()] *)
  | SIdle (c : conn_id) (b : bool).   (** its channel has no event set any more, or has again *)

(** The step runs in the thread of the loop [l]. *)
Definition switch_to (l : loop_id) : M ServerWorld unit :=
  modify (λ w, {| w with pool := (fst (pool w), {| (snd (pool w)) with running := l |}) |}).

Definition sstep (e : sevent) : M ServerWorld unit :=
  match e with
  | SAccept => s ← this; switch_to (loop_ s) ;;; newConnection
  | SFunctor l =>
      q ← gets (queue l);
      match q with
      | [] => mret tt
      | f :: q' =>
          switch_to l ;;;
          modify (λ w, {| w with queues := <[l := q']> (queues w) |}) ;;;
          run_sfunctor f
      end
  | SClose c => i ← the_conn c; switch_to (conn_loop i) ;;; handleClose c
  | SShutdown c => shutdown c
  | SIdle c b => conn_does c (λ i, Ok (set_idle b i))
  end.

(** Events happen to channels that are watched. *)
Definition senabled (e : sevent) (w : ServerWorld) : bool :=
  match e with
  | SAccept | SFunctor _ => true
  | SClose c | SShutdown c | SIdle c _ => match conns w !! c with Some i => watching i | None => false end
  end.

Definition ssession (es : list sevent) : M ServerWorld unit :=
  for_each es (λ e, w ← getS; whenM (senabled e w) (sstep e)).
