(* ===== verification/TCPServerProps.v ===== *)
(** * What a server promises about its connections

    Every connection goes through six stages; the invariant says in which stage
    it is, which functor is on its way, and that the map of the server has
    exactly the connections that were not removed. *)

From Stdlib Require Import ZArith Lia.
From stdpp Require Import gmap list.
From S2P Require Import Prelude Bytes Base Channel TCPConnection EventLoopThreadPool ConnLife TCPServer.

Local Open Scope Z_scope.

(** ** Functors in the queues *)
Definition fconn (f : sfunctor) : conn_id :=
  match f with FEstablish c | FRemove c | FDestroy c => c end.

(** The loop a functor runs in. *)
Definition home (s : TCPServer) (i : Conn) (f : sfunctor) : loop_id :=
  match f with FRemove _ => loop_ s | _ => conn_loop i end.

Definition occ (f : sfunctor) (l : loop_id) (w : ServerWorld) : nat :=
  length (filter (λ g, g = f) (queue l w)).

Definition set_queue (l : loop_id) (q : list sfunctor) (w : ServerWorld) : ServerWorld :=
  {| w with queues := <[l := q]> (queues w) |}.

Definition queued (f : sfunctor) (l : loop_id) (w : ServerWorld) : ServerWorld :=
  set_queue l (queue l w ++ [f]) w.

Lemma queue_set l l' q w : queue l (set_queue l' q w) = if decide (l = l') then q else queue l w.
Proof.
  unfold queue, set_queue. cbn. case_decide; subst; [by rewrite lookup_insert_eq|].
  by rewrite lookup_insert_ne.
Qed.

Lemma occ_queued f l g l' w :
  occ f l (queued g l' w) = (occ f l w + if decide (f = g ∧ l = l') then 1 else 0)%nat.
Proof.
  unfold occ, queued. rewrite queue_set. destruct (decide (l = l')) as [->|Hl].
  - rewrite filter_app, length_app. f_equal. cbn. destruct (decide (g = f)) as [->|Hg].
    + by rewrite decide_True.
    + rewrite decide_False by naive_solver. done.
  - rewrite (decide_False (P := f = g ∧ l = l')) by naive_solver. lia.
Qed.

Lemma occ_same f l w : occ f l (queued f l w) = S (occ f l w).
Proof. rewrite occ_queued, decide_True by done. lia. Qed.

Lemma occ_other f g l l' w : f ≠ g -> occ f l (queued g l' w) = occ f l w.
Proof. intros. rewrite occ_queued, decide_False by naive_solver. lia. Qed.

Lemma occ_elem f l w : f ∈ queue l w ↔ (0 < occ f l w)%nat.
Proof.
  unfold occ. split.
  - intros H. assert (Hf : f ∈ filter (λ g, g = f) (queue l w)) by by apply list_elem_of_filter.
    destruct (filter _ _); [by apply elem_of_nil in Hf|simpl; lia].
  - destruct (filter (λ g, g = f) (queue l w)) as [|g fs] eqn:E; simpl; [lia|]. intros _.
    assert (Hg : g ∈ filter (λ g, g = f) (queue l w)) by (rewrite E; by left).
    by apply list_elem_of_filter in Hg as [-> ?].
Qed.

(** ** The stages of a connection

    Its state, whether its channel is registered and watched, how many
    [connectEstablished], [removeConnectionInLoop] and [connectDestroyed] are
    queued for it, and whether it is in the map. *)
Inductive stage : StateE -> bool -> bool -> nat -> nat -> nat -> bool -> Prop :=
  | st_opening : stage kConnecting false false 1 0 0 true
  | st_open : stage kConnected true true 0 0 0 true
  | st_half : stage kDisconnecting true true 0 0 0 true
  | st_closing : stage kDisconnected true false 0 1 0 true
  | st_removed : stage kDisconnected true false 0 0 1 false
  | st_gone : stage kDisconnected false false 0 0 0 false.

Record conn_ok (s : TCPServer) (w : ServerWorld) (c : conn_id) (i : Conn) : Prop := {
  ck_name : conn_name i = connection_name s (Z.of_nat c + 1);
  ck_loop : conn_loop i = nth_loop (fst (pool w)) c;
  ck_stage : stage (conn_state i) (registered i) (watching i)
    (occ (FEstablish c) (conn_loop i) w) (occ (FRemove c) (loop_ s) w) (occ (FDestroy c) (conn_loop i) w)
    (bool_decide (connections_ s !! conn_name i = Some c));
}.

(** [INET6_ADDRSTRLEN], a colon and a port: [ipPort_] has at most 51 characters. *)
Definition max_ip_port : nat := 51.
Definition max_conns : Z := 2 ^ 31 - 1.

Section server.
#[local] Set Default Proof Using "Type*".
(** The loops of the pool, and what never changes about the server. *)
Context (ls : list loop_id) (base : loop_id) (ipPort name : bytes).

Record sinv (s : TCPServer) (w : ServerWorld) : Prop := {
  si_server : server w = Some s;
  si_pool : pool_ok (length (conns w)) (fst (pool w));
  si_base : baseLoop_ (fst (pool w)) = loop_ s;
  si_loops : loops_ (fst (pool w)) = ls;
  si_same : loop_ s = base ∧ ipPort_ s = ipPort ∧ name_ s = name;
  si_next : nextConnId_ s = Z.of_nat (length (conns w)) + 1;
  si_few : Z.of_nat (length (conns w)) < max_conns;
  si_ip : (length (ipPort_ s) <= max_ip_port)%nat;
  si_conns : ∀ c i, conns w !! c = Some i -> conn_ok s w c i;
  si_map : ∀ n c, connections_ s !! n = Some c -> ∃ i, conns w !! c = Some i ∧ conn_name i = n;
  si_home : ∀ l f, f ∈ queue l w -> ∃ i, conns w !! fconn f = Some i ∧ l = home s i f;
}.

(** Names are never cut and never repeat. *)
Lemma connection_name_full s id : (length (ipPort_ s) <= max_ip_port)%nat -> 0 <= id < 2 ^ 31 ->
  connection_name s id = name_ s ++ str "-" ++ ipPort_ s ++ str "#" ++ print_d id.
Proof.
  intros Hip Hid. unfold connection_name. rewrite snprintf_fits; [done|].
  assert (Hl : (length (print_d id) <= 10)%nat).
  { unfold print_d. rewrite (proj2 (Z.ltb_ge _ _)) by lia. apply print_u_length; lia. }
  rewrite !length_app. unfold max_ip_port in Hip. simpl. lia.
Qed.

Lemma connection_name_inj s n m : (length (ipPort_ s) <= max_ip_port)%nat ->
  0 <= n < 2 ^ 31 -> 0 <= m < 2 ^ 31 -> connection_name s n = connection_name s m -> n = m.
Proof.
  intros Hip Hn Hm. rewrite !connection_name_full by done.
  intros H%app_inv_head%app_inv_head%app_inv_head%app_inv_head.
  unfold print_d in H. rewrite !(proj2 (Z.ltb_ge _ _)) in H by lia.
  apply print_u_inj; [lia..|done].
Qed.

Lemma names_differ s w c i c' i' : sinv s w -> conns w !! c = Some i -> conns w !! c' = Some i' ->
  c' ≠ c -> conn_name i' ≠ conn_name i.
Proof.
  intros [] Hc Hc' Hne. rewrite (ck_name _ _ _ _ (si_conns0 _ _ Hc)), (ck_name _ _ _ _ (si_conns0 _ _ Hc')).
  apply lookup_lt_Some in Hc, Hc'. unfold max_conns in *.
  intros H%connection_name_inj; [lia|done|lia..].
Qed.

(** One connection changes. *)
Lemma sinv_change s wa s' w' c i i' : sinv s wa -> conns wa !! c = Some i ->
  server w' = Some s' ->
  (loop_ s' = loop_ s ∧ ipPort_ s' = ipPort_ s ∧ name_ s' = name_ s ∧ nextConnId_ s' = nextConnId_ s) ->
  fst (pool w') = fst (pool wa) -> conns w' = <[c := i']> (conns wa) ->
  conn_name i' = conn_name i -> conn_loop i' = conn_loop i ->
  (∀ n, n ≠ conn_name i -> connections_ s' !! n = connections_ s !! n) ->
  (∀ c', connections_ s' !! conn_name i = Some c' -> c' = c) ->
  (∀ g l, fconn g ≠ c -> occ g l w' = occ g l wa) ->
  (∀ g l, fconn g = c -> g ∈ queue l w' -> l = home s i g) ->
  conn_ok s' w' c i' -> sinv s' w'.
Proof.
  intros H Hc Hsv (Hlp & Hip & Hnm & Hnx) Hp Hcs Hn Hl Hmap Hown Hocc Hhome Hok.
  pose proof (names_differ s wa c i) as Hdiff. destruct H.
  assert (Hlen : length (conns w') = length (conns wa)) by by rewrite Hcs, length_insert.
  assert (Hother : ∀ c' j, c' ≠ c -> conns w' !! c' = Some j -> conns wa !! c' = Some j)
    by (intros c' j Hne; by rewrite Hcs, list_lookup_insert_ne).
  split; rewrite ?Hlen, ?Hp, ?Hlp, ?Hip, ?Hnx, ?Hnm; try done.
  - intros c' j Hj. destruct (decide (c' = c)) as [->|Hne].
    + rewrite Hcs, list_lookup_insert_eq in Hj by (by eapply lookup_lt_Some). by injection Hj as <-.
    + apply Hother in Hj; [|done]. destruct (si_conns0 _ _ Hj). split.
      * rewrite ck_name0. unfold connection_name. by rewrite Hnm, Hip.
      * by rewrite Hp.
      * rewrite Hlp, !Hocc by done. rewrite Hmap; [done|]. by eapply (Hdiff c').
  - intros n c' Hm. destruct (decide (n = conn_name i)) as [->|Hne].
    + rewrite (Hown c' Hm). exists i'. rewrite Hcs, list_lookup_insert_eq by (by eapply lookup_lt_Some). done.
    + rewrite Hmap in Hm by done. destruct (si_map0 _ _ Hm) as (j & Hj & <-).
      exists j. split; [|done]. rewrite Hcs, list_lookup_insert_ne; [done|]. intros ->. congruence.
  - intros l f Hf. destruct (decide (fconn f = c)) as [Hfc|Hfc].
    + exists i'. rewrite (Hhome f l Hfc Hf), Hfc. split.
      * rewrite Hcs, list_lookup_insert_eq; [done|by eapply lookup_lt_Some].
      * unfold home. by rewrite Hlp, Hl.
    + apply occ_elem in Hf. rewrite Hocc in Hf by done. apply occ_elem, si_home0 in Hf as (j & Hj & ->).
      exists j. split; [by rewrite Hcs, list_lookup_insert_ne|]. unfold home. by rewrite Hlp.
Qed.

(** ** Running a functor *)
Lemma wp_the_conn c i Q w : conns w !! c = Some i -> Q i w -> wp (the_conn c) Q w.
Proof. intros Hc HQ. apply wp_liftR. by rewrite Hc. Qed.

Lemma wp_conn_does c f i i' Q w : conns w !! c = Some i -> f i = Ok i' ->
  Q tt {| w with conns := <[c := i']> (conns w) |} -> wp (conn_does c f) Q w.
Proof.
  intros Hc Hf HQ. unfold conn_does. rewrite wp_bind. eapply wp_the_conn; [exact Hc|].
  rewrite wp_bind, wp_liftR, Hf. done.
Qed.

Lemma wp_this s Q w : server w = Some s -> Q s w -> wp this Q w.
Proof. intros Hs HQ. apply wp_liftR. by rewrite Hs. Qed.

Lemma wp_on_server s f Q w : server w = Some s -> Q tt {| w with server := Some (f s) |} ->
  wp (on_server f) Q w.
Proof. intros Hs HQ. unfold on_server. rewrite wp_bind. by eapply wp_this. Qed.

Lemma wp_assertIn l Q w : thread w = l -> Q tt w -> wp (assertIn l) Q w.
Proof.
  intros Ht HQ. unfold assertIn. apply wp_zoom, wp_pool_assertInLoop; [done|]. by destruct w.
Qed.

(** The server is in order and has made [n] connections. *)
Definition in_order (n : nat) (w : ServerWorld) : Prop := ∃ s, sinv s w ∧ length (conns w) = n.

(** The connection a queued functor is for, in the loop that runs it. *)
Lemma queued_conn s f l w : sinv s (queued f l w) ->
  ∃ i, conns w !! fconn f = Some i ∧ l = home s i f ∧ conn_ok s (queued f l w) (fconn f) i.
Proof.
  intros H. destruct (si_home _ _ H l f) as (i & Hi & Hl).
  { unfold queued. rewrite queue_set, decide_True by done. apply elem_of_app. right. by left. }
  exists i. split_and!; [done|done|]. by apply H.
Qed.

(** What is queued for the others and in the other loops is not touched. *)
Lemma queued_others s f l w w' : sinv s (queued f l w) -> queues w' = queues w ->
  (∀ g l', fconn g ≠ fconn f -> occ g l' w' = occ g l' (queued f l w))
  ∧ (∀ g l' i, conns w !! fconn f = Some i -> fconn g = fconn f -> g ∈ queue l' w' -> l' = home s i g).
Proof.
  intros H Hq. assert (Hqq : ∀ l', queue l' w' = queue l' w) by (intros; unfold queue; by rewrite Hq).
  split.
  - intros g l' Hg. rewrite occ_queued, decide_False by naive_solver.
    unfold occ. rewrite Hqq. lia.
  - intros g l' i Hi Hg Hin. destruct (si_home _ _ H l' g) as (j & Hj & ->).
    + rewrite Hqq in Hin. unfold queued. rewrite queue_set. case_decide; [|done]. subst.
      apply elem_of_app. by left.
    + rewrite Hg in Hj. change (conns (queued f l w)) with (conns w) in Hj. congruence.
Qed.

Lemma connectEstablished_wp s c l w : sinv s (queued (FEstablish c) l w) -> thread w = l ->
  wp (connectEstablished c) (λ _ w', in_order (length (conns w)) w') w.
Proof.
  intros H Ht. destruct (queued_conn _ _ _ _ H) as (i & Hi & Hl & [Hn Hlp Hst]). cbn [fconn home] in *.
  rewrite <- Hl, occ_same, !occ_other in Hst by done.
  unfold connectEstablished. rewrite wp_bind. eapply wp_the_conn; [exact Hi|].
  rewrite wp_bind. apply wp_assertIn; [by rewrite Ht|].
  inversion Hst as [Hk Hr Hw He Hrm Hd Hm| | | | |].
  eapply wp_conn_does; [exact Hi|unfold established; by rewrite <- Hk|]. set (w' := mkServerWorld _ _ _ _).
  destruct (queued_others s _ l w w' H eq_refl) as [Ho1 Ho2].
  exists s. split; [|by apply length_insert].
  refine (sinv_change s _ s w' c i _ H Hi (si_server _ _ H) _ eq_refl eq_refl eq_refl eq_refl
    _ _ Ho1 _ _); [done|done| | |].
  - intros c' Hc'. symmetry in Hm. apply bool_decide_eq_true in Hm. congruence.
  - intros g l' Hg. by apply Ho2.
  - split; [done|done|]. cbn [conn_state registered watching conn_loop conn_name].
    change (occ ?f ?l w') with (occ f l w). rewrite <- Hl, <- He, <- Hrm, <- Hd, <- Hm. constructor.
Qed.

Lemma connectDestroyed_wp s c l w : sinv s (queued (FDestroy c) l w) -> thread w = l ->
  wp (connectDestroyed c) (λ _ w', in_order (length (conns w)) w') w.
Proof.
  intros H Ht. destruct (queued_conn _ _ _ _ H) as (i & Hi & Hl & [Hn Hlp Hst]). cbn [fconn home] in *.
  rewrite <- Hl, occ_same, !occ_other in Hst by done.
  unfold connectDestroyed. rewrite wp_bind. eapply wp_the_conn; [exact Hi|].
  rewrite wp_bind. apply wp_assertIn; [by rewrite Ht|].
  inversion Hst as [| | | |Hk Hr Hw He Hrm Hd Hm|].
  eapply wp_conn_does; [exact Hi|unfold destroyed; rewrite bool_decide_eq_false_2 by congruence; by rewrite <- Hr, <- Hw|].
  set (w' := mkServerWorld _ _ _ _).
  destruct (queued_others s _ l w w' H eq_refl) as [Ho1 Ho2].
  exists s. split; [|by apply length_insert].
  refine (sinv_change s _ s w' c i _ H Hi (si_server _ _ H) _ eq_refl eq_refl eq_refl eq_refl
    _ _ Ho1 _ _); [done|done| | |].
  - intros c' Hc'. destruct (si_map _ _ H _ _ Hc') as (j & Hj & Hname).
    destruct (decide (c' = c)) as [|Hne]; [done|]. by destruct (names_differ _ _ c i c' j H Hi Hj Hne).
  - intros g l' Hg. by apply Ho2.
  - split; [done|done|]. cbn [conn_state registered watching conn_loop conn_name].
    change (occ ?f ?l w') with (occ f l w). rewrite <- Hl, <- Hk, <- He, <- Hrm, <- Hd, <- Hm.
    constructor.
Qed.

Lemma removeConnectionInLoop_wp s c l w : sinv s (queued (FRemove c) l w) -> thread w = l ->
  wp (removeConnectionInLoop c) (λ _ w', in_order (length (conns w)) w') w.
Proof.
  intros H Ht. destruct (queued_conn _ _ _ _ H) as (i & Hi & Hl & [Hn Hlp Hst]). cbn [fconn home] in *.
  rewrite <- Hl, occ_same, !occ_other in Hst by done.
  inversion Hst as [| | |Hk Hr Hw He Hrm Hd Hm| |]. symmetry in Hm. apply bool_decide_eq_true in Hm.
  pose proof (si_server _ _ H) as Hs. change (server w = Some s) in Hs.
  unfold removeConnectionInLoop. rewrite wp_bind. eapply wp_this; [exact Hs|].
  rewrite wp_bind. apply wp_assertIn; [by rewrite Ht|]. rewrite wp_bind. eapply wp_the_conn; [exact Hi|].
  rewrite wp_bind, wp_assert. split; [apply bool_decide_eq_true; by exists c|].
  rewrite wp_bind. eapply wp_on_server; [exact Hs|]. unfold queueInLoop. rewrite wp_modify.
  set (s' := mkServer _ _ _ _ _ _ _).
  set (w1 := {| server := Some s'; pool := pool w; conns := conns w; queues := queues w |}).
  change (in_order (length (conns w)) (queued (FDestroy c) (conn_loop i) w1)).
  destruct (queued_others s _ l w w1 H eq_refl) as [Ho1 Ho2].
  exists s'. split; [|done].
  refine (sinv_change s _ s' (queued (FDestroy c) (conn_loop i) w1) c i i H Hi eq_refl _ eq_refl _ eq_refl eq_refl
    _ _ _ _ _); [done| | | | | |].
  - symmetry. by apply list_insert_id.
  - intros n Hne. by apply lookup_delete_ne.
  - intros c'. cbn. by rewrite lookup_delete_eq.
  - intros g l' Hg. rewrite occ_other by (intros ->; by apply Hg). by apply Ho1.
  - intros g l' Hg Hin. apply occ_elem in Hin. rewrite occ_queued in Hin.
    destruct (decide (g = FDestroy c ∧ l' = conn_loop i)) as [[-> ->]|]; [done|].
    apply (Ho2 g l' i Hi Hg). apply occ_elem. lia.
  - split; [done|done|]. cbn [conn_state registered watching conn_loop conn_name connections_ loop_ s'].
    rewrite occ_same, !occ_other by done. change (occ ?f ?l w1) with (occ f l w).
    rewrite lookup_delete_eq, bool_decide_eq_false_2 by done.
    rewrite <- Hl, <- Hk, <- Hr, <- Hw, <- He, <- Hrm, <- Hd. constructor.
Qed.

Lemma sfunctor_wp s f l w : sinv s (queued f l w) -> thread w = l ->
  wp (run_sfunctor f) (λ _ w', in_order (length (conns w)) w') w.
Proof.
  intros H Ht. destruct f; [by eapply connectEstablished_wp|by eapply removeConnectionInLoop_wp|].
  by eapply connectDestroyed_wp.
Qed.

Lemma runInLoop_wp s f l w : sinv s (queued f l w) ->
  wp (runInLoop l f) (λ _ w', in_order (length (conns w)) w') w.
Proof.
  intros H. unfold runInLoop. rewrite wp_bind, wp_gets, wp_if. case_bool_decide.
  - by eapply sfunctor_wp.
  - unfold queueInLoop. rewrite wp_modify. by exists s.
Qed.

(** Neither the running thread nor the order of the functors matters. *)
Lemma sinv_ext s w w' : sinv s w -> server w' = server w -> fst (pool w') = fst (pool w) ->
  conns w' = conns w -> (∀ l, queue l w' ≡ₚ queue l w) -> sinv s w'.
Proof.
  intros [] Hs Hp Hc Hq.
  assert (Hocc : ∀ f l, occ f l w' = occ f l w) by (intros f l; unfold occ; by rewrite Hq).
  split; rewrite ?Hs, ?Hp, ?Hc; try done.
  - intros c i Hi. destruct (si_conns0 c i Hi). split; [done|by rewrite Hp|by rewrite !Hocc].
  - intros l f. rewrite Hq. apply si_home0.
Qed.

(** ** The steps *)
Lemma handleClose_wp s w c i : sinv s w -> conns w !! c = Some i -> thread w = conn_loop i ->
  watching i = true -> wp (handleClose c) (λ _ w', in_order (length (conns w)) w') w.
Proof.
  intros H Hi Ht Hw. destruct (si_conns _ _ H c i Hi) as [Hn Hlp Hst].
  assert (Hcase : (conn_state i = kConnected ∨ conn_state i = kDisconnecting) ∧ registered i = true
    ∧ occ (FEstablish c) (conn_loop i) w = 0%nat ∧ occ (FRemove c) (loop_ s) w = 0%nat
    ∧ occ (FDestroy c) (conn_loop i) w = 0%nat ∧ connections_ s !! conn_name i = Some c).
  { rewrite Hw in Hst. inversion Hst as [|Hk Hr Hx He Hrm Hd Hm|Hk Hr Hx He Hrm Hd Hm| | |];
      symmetry in Hm; apply bool_decide_eq_true in Hm; split_and!; auto. }
  destruct Hcase as (Hk & Hr & He & Hrm & Hd & Hm).
  unfold handleClose. rewrite wp_bind. eapply wp_the_conn; [exact Hi|].
  rewrite wp_bind. apply wp_assertIn; [done|]. rewrite wp_bind.
  eapply wp_conn_does; [exact Hi|unfold closed; by rewrite bool_decide_eq_true_2|].
  set (i' := mkConn _ _ _ _ _ _).
  set (w1 := {| server := server w; pool := pool w; conns := <[c := i']> (conns w); queues := queues w |}).
  unfold removeConnection. rewrite wp_bind. eapply wp_this; [exact (si_server _ _ H)|].
  replace (length (conns w)) with (length (conns w1)) by apply length_insert.
  apply (runInLoop_wp s). 
  refine (sinv_change s w s (queued (FRemove c) (loop_ s) w1) c i i' H Hi (si_server _ _ H) _ eq_refl
    eq_refl eq_refl eq_refl _ _ _ _ _); [done|done| | | |].
  - intros c' Hc'. congruence.
  - intros g l' Hg. by rewrite occ_other by (intros ->; by apply Hg).
  - intros g l' Hg Hin. apply occ_elem in Hin. rewrite occ_queued in Hin.
    destruct (decide (g = FRemove c ∧ l' = loop_ s)) as [[-> ->]|]; [done|].
    destruct (si_home _ _ H l' g) as (j & Hj & ->); [apply occ_elem; change (occ g l' w1) with (occ g l' w) in Hin; lia|].
    rewrite Hg in Hj. congruence.
  - split; [done|done|]. cbn [conn_state registered watching conn_loop conn_name i'].
    rewrite occ_same, !occ_other by done. change (occ ?f ?l w1) with (occ f l w).
    rewrite He, Hrm, Hd, Hr, bool_decide_eq_true_2 by done. constructor.
Qed.

(** What only concerns an open connection itself. *)
Lemma open_wp s w c i f : sinv s w -> conns w !! c = Some i -> watching i = true ->
  conn_name (f i) = conn_name i -> conn_loop (f i) = conn_loop i -> registered (f i) = registered i ->
  watching (f i) = true -> conn_state (f i) = conn_state i ∨ conn_state (f i) = kDisconnecting ->
  wp (conn_does c (λ i, Ok (f i))) (λ _ w', in_order (length (conns w)) w') w.
Proof.
  intros H Hi Hw Hn' Hl' Hr' Hw' Hs'. eapply wp_conn_does; [exact Hi|done|].
  set (w' := mkServerWorld _ _ _ _). destruct (si_conns _ _ H c i Hi) as [Hn Hlp Hst].
  assert (Hm : connections_ s !! conn_name i = Some c).
  { rewrite Hw in Hst. inversion Hst as [|Hx Hr Hy He Hrm Hd Hm|Hx Hr Hy He Hrm Hd Hm| | |];
      symmetry in Hm; by apply bool_decide_eq_true in Hm. }
  exists s. split; [|by apply length_insert].
  refine (sinv_change s w s w' c i _ H Hi (si_server _ _ H) _ eq_refl eq_refl Hn' Hl' _ _ _ _ _);
    [done|done| |done| |].
  - intros c' Hc'. congruence.
  - intros g l' Hg Hin. destruct (si_home _ _ H l' g Hin) as (j & Hj & ->). rewrite Hg in Hj. congruence.
  - split; [by rewrite Hn'|by rewrite Hl'|]. rewrite Hl', Hn', Hr', Hw'.
    change (occ ?f ?l w') with (occ f l w). rewrite Hw in Hst.
    destruct Hs' as [-> | ->]; [done|]. inversion Hst; congruence || constructor.
Qed.

(** No functor is queued for a connection that does not exist. *)
Lemma occ_new s w f l : sinv s w -> fconn f = length (conns w) -> occ f l w = 0%nat.
Proof.
  intros H Hf. destruct (occ f l w) as [|n] eqn:E; [done|].
  destruct (si_home _ _ H l f) as (i & Hi & _); [apply occ_elem; lia|].
  apply lookup_lt_Some in Hi. lia.
Qed.

(** The world after the connection is made and its [connectEstablished] queued. *)
Lemma sinv_new s w p' s' wq l : sinv s w -> Z.of_nat (length (conns w)) + 1 < max_conns ->
  let n := length (conns w) in
  let nm := connection_name s (nextConnId_ s) in
  pool_ok (S n) p' -> baseLoop_ p' = loop_ s -> loops_ p' = loops_ (fst (pool w)) ->
  l = nth_loop (fst (pool w)) n ->
  s' = mkServer (loop_ s) (ipPort_ s) (name_ s) (server_started_ s) (nextConnId_ s + 1)
         (<[nm := n]> (connections_ s)) (listenning_ s) ->
  fst (pool wq) = p' -> server wq = Some s' ->
  conns wq = conns w ++ [mkConn nm l kConnecting false false false] ->
  (∀ l', queue l' wq = queue l' (queued (FEstablish n) l w)) -> sinv s' wq.
Proof.
  intros H Hfew n nm Hpool Hbase Hloops Hl -> Hp Hs Hc Hq.
  assert (Hlen : length (conns wq) = S n) by (rewrite Hc, length_app; simpl; unfold n; lia).
  assert (Hocc : ∀ f l', occ f l' wq = occ f l' (queued (FEstablish n) l w))
    by (intros f l'; unfold occ; by rewrite Hq).
  assert (Hname : nm = connection_name s (Z.of_nat n + 1)) by (unfold nm; by rewrite (si_next _ _ H)).
  assert (Hold : ∀ c i, conns w !! c = Some i -> conn_name i ≠ nm).
  { intros c i Hi. rewrite (ck_name _ _ _ _ (si_conns _ _ H c i Hi)), Hname.
    apply lookup_lt_Some in Hi. unfold max_conns in *.
    intros Heq%connection_name_inj; [lia|apply H|lia|lia]. }
  assert (Hnth : ∀ c, nth_loop p' c = nth_loop (fst (pool w)) c)
    by (intros c; unfold nth_loop; by rewrite Hloops, Hbase, (si_base _ _ H)).
  assert (Hat : ∀ c i, conns wq !! c = Some i -> conns w !! c = Some i
    ∨ c = n ∧ i = mkConn nm l kConnecting false false false).
  { intros c i. rewrite Hc. intros [?|[Hge ?]]%lookup_app_Some; [by left|right].
    destruct (c - length (conns w))%nat eqn:E; [|done]. split; [unfold n; lia|naive_solver]. }
  assert (Hnew : conns wq !! n = Some (mkConn nm l kConnecting false false false))
    by (rewrite Hc; by apply list_lookup_middle).
  split; cbn [loop_ ipPort_ nextConnId_ connections_]; rewrite ?Hlen, ?Hp; try done.
  - rewrite Hloops. apply H.
  - apply H.
  - by rewrite (si_next _ _ H); unfold n; lia.
  - unfold n. lia.
  - apply H.
  - intros c i [Hi|[-> ->]]%Hat.
    + destruct (si_conns _ _ H c i Hi). pose proof (Hold c i Hi) as Hne.
      pose proof (lookup_lt_Some _ _ _ Hi) as Hlt.
      split; [done|by rewrite Hp, Hnth|]. cbn [loop_ connections_].
      rewrite !Hocc, !occ_other by (intros [=]; unfold n in *; lia).
      by rewrite lookup_insert_ne by done.
    + split; cbn [conn_name conn_loop conn_state registered watching loop_ connections_]; [exact Hname| |].
      { by rewrite Hp, Hnth. }
      rewrite !Hocc, occ_same, !occ_other by done. rewrite !(occ_new s w) by done.
      rewrite lookup_insert_eq, bool_decide_eq_true_2 by done. constructor.
  - intros nm' c Hm. apply lookup_insert_Some in Hm as [[<- <-]|[Hne Hm]]; [by eexists|].
    destruct (si_map _ _ H nm' c Hm) as (i & Hi & Hni). exists i. split; [|done].
    rewrite Hc. by apply lookup_app_l_Some.
  - intros l' f Hf. rewrite Hq in Hf. apply occ_elem in Hf. rewrite occ_queued in Hf.
    destruct (decide (f = FEstablish n ∧ l' = l)) as [[-> ->]|]; [by eexists|].
    destruct (si_home _ _ H l' f) as (i & Hi & ->); [apply occ_elem; lia|].
    exists i. split; [rewrite Hc; by apply lookup_app_l_Some|]. by destruct f.
Qed.

Lemma newConnection_wp s w : sinv s w -> thread w = loop_ s ->
  Z.of_nat (length (conns w)) + 1 < max_conns ->
  wp newConnection (λ _ w', in_order (S (length (conns w))) w') w.
Proof.
  intros H Ht Hfew. unfold newConnection. rewrite wp_bind. eapply wp_this; [apply H|].
  rewrite wp_bind. apply wp_assertIn; [done|]. rewrite wp_bind, wp_zoom. cbn [view poolL].
  destruct (pool w) as [p t] eqn:Hp.
  pose proof (si_pool _ _ H) as Hpool. pose proof (si_base _ _ H) as Hbase. rewrite Hp in Hpool, Hbase.
  eapply wp_mono.
  { apply (getNextLoop_wp (length (conns w)) p t Hpool). unfold thread in Ht. rewrite Hp in Ht. cbn in Ht, Hbase. congruence. }
  intros l [p' t'] (Hl & Ht' & Hpool' & Hb' & Hls'). cbn [fst snd] in *. cbn [upd poolL].
  rewrite wp_bind. eapply wp_on_server; [exact (si_server _ _ H)|].
  rewrite wp_bind, wp_gets, wp_bind, wp_modify, wp_bind. eapply wp_on_server; [reflexivity|].
  cbn [server pool conns queues nextConnId_ connections_ loop_ ipPort_ name_ server_started_ listenning_].
  assert (Hnext : s32 (nextConnId_ s + 1) = nextConnId_ s + 1).
  { rewrite (si_next _ _ H). unfold max_conns in *. apply wrap_s_id; [done|]. cbn. lia. }
  rewrite Hnext. set (n := length (conns w)) in *.
  set (w2 := mkServerWorld _ _ _ _).
  replace (S n) with (length (conns w2)) by (cbn; rewrite length_app; simpl; fold n; lia).
  eapply runInLoop_wp. apply (sinv_new s w p' _ _ l H Hfew Hpool'); try done; rewrite ?Hp; try done.
  by rewrite Hb'.
Qed.

(** The connections accepted in an event. *)
Definition adds (e : sevent) : nat := match e with SAccept => 1 | _ => 0 end.

Lemma sstep_wp s w e : sinv s w -> senabled e w = true ->
  Z.of_nat (length (conns w) + adds e) < max_conns ->
  wp (sstep e) (λ _ w', in_order (length (conns w) + adds e) w') w.
Proof.
  intros H He Hfew.
  assert (Hswitch : ∀ l, sinv s {| w with pool := (fst (pool w), {| (snd (pool w)) with running := l |}) |})
    by (intros l; by apply (sinv_ext s w)).
  destruct e as [|l|c|c|c b]; unfold sstep, switch_to; simpl in He, Hfew |- *;
    rewrite ?Nat.add_0_r, ?Nat.add_1_r.
  - rewrite wp_bind. eapply wp_this; [apply H|]. rewrite wp_bind, wp_modify.
    apply (newConnection_wp s _ (Hswitch _) eq_refl). cbn. lia.
  - rewrite wp_bind, wp_gets. destruct (queue l w) as [|f q] eqn:Hq; [by exists s|].
    rewrite wp_bind, wp_modify, wp_bind, wp_modify. cbn [queues pool conns server].
    set (w1 := mkServerWorld _ _ _ _). change (length (conns w)) with (length (conns w1)).
    apply (sfunctor_wp s f l w1); [|done].
    apply (sinv_ext s w); [done..|]. intros l'. unfold queued. rewrite queue_set. case_decide; subst.
    + rewrite Hq. change (queue l w1) with (queue l (set_queue l q w)). rewrite queue_set, decide_True by done.
      symmetry. apply Permutation_cons_append.
    + change (queue l' w1) with (queue l' (set_queue l q w)). by rewrite queue_set, decide_False.
  - destruct (conns w !! c) as [i|] eqn:Hi; [|done].
    rewrite wp_bind. eapply wp_the_conn; [exact Hi|]. rewrite wp_bind, wp_modify.
    exact (handleClose_wp s _ c i (Hswitch _) Hi eq_refl He).
  - destruct (conns w !! c) as [i|] eqn:Hi; [|done].
    apply (open_wp s w c i shut); unfold shut; try done; case_bool_decide; auto.
  - destruct (conns w !! c) as [i|] eqn:Hi; [|done].
    apply (open_wp s w c i (set_idle b)); unfold set_idle; try done; rewrite He; auto.
Qed.

Lemma ssession_wp es w : in_order (length (conns w)) w ->
  Z.of_nat (length (conns w) + sum_list_with adds es) < max_conns ->
  wp (ssession es) (λ _ w', ∃ n, in_order n w') w.
Proof.
  intros Hin Hfew. eapply wp_mono; [apply (wp_for_each (λ pre w', ∃ n, in_order n w'
    ∧ (n <= length (conns w) + sum_list_with adds pre)%nat))|].
  - exists (length (conns w)). split; [done|simpl; lia].
  - intros pre e post w1 -> (n & (s & Hs & <-) & Hle). rewrite !sum_list_with_app in *. simpl in *.
    rewrite wp_bind, wp_getS, wp_when. destruct (senabled e w1) eqn:He.
    + eapply wp_mono; [apply (sstep_wp s w1 e Hs He); lia|].
      intros [] w2 Hm. eexists. split; [exact Hm|lia].
    + exists (length (conns w1)). split; [by exists s|lia].
  - intros [] w' (n & Hn & _). by exists n.
Qed.
End server.

(** A server that has just been constructed, in its base loop; [k] loops exist. *)
Definition fresh_server (base : loop_id) (ipPort name : bytes) (k : nat) : ServerWorld :=
  mkServerWorld (Some (TCPServer_ctor base ipPort name))
    (EventLoopThreadPool_ctor base, mkThreads base k []) [] ∅.

Lemma server_start_wp cb n base ipPort name k : 0 <= n < 2 ^ 31 -> (length ipPort <= max_ip_port)%nat ->
  wp (server_setThreadNum n ;;; server_start cb)
    (λ _ w', in_order (seq k (Z.to_nat n)) base ipPort name 0 w' ∧ conns w' = [] ∧ baseLoop_ (fst (pool w')) = base)
    (fresh_server base ipPort name k).
Proof.
  intros Hn Hip. unfold server_setThreadNum, server_start.
  rewrite wp_bind, wp_bind, wp_assert. split; [apply Z.leb_le; lia|]. rewrite wp_zoom.
  unfold setThreadNum, EventLoopThreadPool.on_pool. rewrite wp_modify, wp_bind. cbn [upd poolL view].
  eapply wp_this; [done|]. rewrite wp_if. cbn [server_started_ TCPServer_ctor].
  rewrite wp_bind. eapply wp_on_server; [done|]. rewrite wp_bind, wp_zoom. cbn [view poolL pool].
  eapply wp_mono; [by apply (pool_start_wp cb n)|].
  intros [] [p t] (Hok & Hb & Hl & Hr & _). cbn [fst snd] in *.
  rewrite wp_bind, wp_assert. split; [done|]. rewrite wp_bind. apply wp_assertIn; [done|].
  eapply wp_on_server; [done|]. split_and!; [|done|done].
  eexists. split; [|done]. split; try done; cbn.
  - intros l f Hf. unfold queue in Hf. cbn in Hf. rewrite lookup_empty in Hf. by apply elem_of_nil in Hf.
Qed.

(** C5: The life of every connection of a server that is not destroyed.  Whatever
    the loops do and in whatever order -- up to 2^31 - 2 connections accepted, open
    ones closed or shut down, their channels enabled and disabled, functors run by
    any loop -- no assertion of the server fails, in particular
    removeConnectionInLoop finds its connection; names do not repeat and are not cut; connection number c
    lives in loop c mod n of the pool (the base loop without threads); it is in
    exactly one of six stages, which determines its state, the functor that is on
    its way for it and whether it is in the map: connectEstablished runs first,
    once, and connectDestroyed last, once.  When no functor is queued the map has
    exactly the connections whose channels are registered.

    Closing a connection is enabled while it is open ([watching]); the destructor
    is not among the events: it fails when a close or a shutdown is under way, see
    [destroyed_while_closing] and [destroyed_while_shut_down]. *)
Theorem server_connections cb n es base ipPort name k : 0 <= n < 2 ^ 31 ->
  (length ipPort <= max_ip_port)%nat -> Z.of_nat (sum_list_with adds es) < max_conns ->
  wp (server_setThreadNum n ;;; server_start cb ;;; ssession es) (λ _ w', ∃ s,
    server w' = Some s
    ∧ (∀ c i, conns w' !! c = Some i ->
         conn_name i = name ++ str "-" ++ ipPort ++ str "#" ++ print_d (Z.of_nat c + 1)
         ∧ conn_loop i = (if n =? 0 then base else (k + c `mod` Z.to_nat n)%nat)
         ∧ stage (conn_state i) (registered i) (watching i) (occ (FEstablish c) (conn_loop i) w')
             (occ (FRemove c) base w') (occ (FDestroy c) (conn_loop i) w')
             (bool_decide (connections_ s !! conn_name i = Some c)))
    ∧ ((∀ l, queue l w' = []) -> ∀ nm c, connections_ s !! nm = Some c ↔
         ∃ i, conns w' !! c = Some i ∧ conn_name i = nm ∧ registered i = true))
    (fresh_server base ipPort name k).
Proof.
  intros Hn Hip Hfew. pose proof (server_start_wp cb n base ipPort name k Hn Hip) as Hstart.
  rewrite wp_bind in Hstart |- *. eapply wp_mono; [exact Hstart|]. intros [] w1 Hstart1.
  rewrite wp_bind. eapply wp_mono; [exact Hstart1|]. intros [] w2 (Hin & Hc0 & _).
  eapply wp_mono; [apply (ssession_wp (seq k (Z.to_nat n)) base ipPort name); rewrite Hc0; [done|simpl; lia]|].
  intros [] w' (m & s & H & _). exists s. split; [apply H|].
  destruct (si_same _ _ _ _ _ _ H) as (Hb & Hi & Hnm).
  assert (Hconn : ∀ c i, conns w' !! c = Some i ->
    conn_name i = name ++ str "-" ++ ipPort ++ str "#" ++ print_d (Z.of_nat c + 1)
    ∧ conn_loop i = (if n =? 0 then base else (k + c `mod` Z.to_nat n)%nat)
    ∧ stage (conn_state i) (registered i) (watching i) (occ (FEstablish c) (conn_loop i) w')
        (occ (FRemove c) base w') (occ (FDestroy c) (conn_loop i) w')
        (bool_decide (connections_ s !! conn_name i = Some c))).
  { intros c i Hci. destruct (si_conns _ _ _ _ _ _ H c i Hci) as [Hname Hloop Hst]. rewrite Hb in Hst.
    split_and!; [|rewrite Hloop|done].
    - rewrite Hname, connection_name_full, Hi, Hnm; [done|apply H|].
      pose proof (si_few _ _ _ _ _ _ H). apply lookup_lt_Some in Hci. unfold max_conns in *. lia.
    - apply nth_loop_seq; [apply H|by rewrite (si_base _ _ _ _ _ _ H)|lia]. }
  split; [done|]. intros Hquiet nm c.
  assert (Hocc : ∀ f l, occ f l w' = 0%nat) by (intros f l; unfold occ; by rewrite Hquiet).
  split.
  - intros Hm. destruct (si_map _ _ _ _ _ _ H nm c Hm) as (i & Hci & <-). exists i. split_and!; [done..|].
    destruct (Hconn c i Hci) as (_ & _ & Hst). rewrite !Hocc, bool_decide_eq_true_2 in Hst by done.
    by inversion Hst.
  - intros (i & Hci & <- & Hr). destruct (Hconn c i Hci) as (_ & _ & Hst). rewrite !Hocc, Hr in Hst.
    apply (proj1 (bool_decide_eq_true _)). by inversion Hst.
Qed.

(** ** A run with two threads *)
Definition a_day : list sevent :=
  [SAccept; SAccept; SAccept; SFunctor 1; SFunctor 2; SFunctor 1; SShutdown 1; SClose 1; SFunctor 0;
   SFunctor 2; SAccept].

Definition day_start : M ServerWorld unit := server_setThreadNum 2 ;;; server_start false.

Lemma server_connections_witness :
  wp (server_setThreadNum 2 ;;; server_start false ;;; ssession a_day) (λ _ w', ∃ s,
    server w' = Some s ∧ ∀ c i, conns w' !! c = Some i -> conn_loop i = (1 + c `mod` 2)%nat)
    (fresh_server 0 (str "0.0.0.0:80") (str "web") 1).
Proof.
  eapply wp_mono.
  - apply (server_connections false 2 a_day 0%nat (str "0.0.0.0:80") (str "web") 1%nat);
      [lia|vm_compute; lia|vm_compute; reflexivity].
  - intros [] w' (s & Hs & Hc & _). exists s. split; [exact Hs|].
    intros c i Hi. destruct (Hc c i Hi) as (_ & Hl & _). exact Hl.
Defined.

(** The states of the connections at the end of that day. *)
Example a_day_ends :
  match (day_start ;;; ssession a_day) (fresh_server 0 (str "0.0.0.0:80") (str "web") 1) with
  | Ok (_, w) => Some ((λ i, (conn_loop i, conn_state i)) <$> conns w)
  | Fault _ => None
  end = Some [(1%nat, kConnected); (2%nat, kDisconnected); (1%nat, kConnected); (2%nat, kConnecting)].
Proof. vm_compute. reflexivity. Qed.

(** The server is destroyed while the removal of a connection that has just been
    closed in another thread is on its way: the functor uses the server. *)
Example destroyed_while_closing :
  (day_start ;;; ssession [SAccept; SFunctor 1; SClose 0] ;;; switch_to 0 ;;; TCPServer_dtor ;;;
   ssession [SFunctor 0]) (fresh_server 0 (str "0.0.0.0:80") (str "web") 1) = Fault OutOfBounds.
Proof. vm_compute. reflexivity. Qed.

(** A connection that was shut down is still open when the server is destroyed:
    [connectDestroyed] does not disable its channel. *)
Example destroyed_while_shut_down :
  (day_start ;;; ssession [SAccept; SFunctor 1; SShutdown 0] ;;; switch_to 0 ;;; TCPServer_dtor ;;;
   ssession [SFunctor 1]) (fresh_server 0 (str "0.0.0.0:80") (str "web") 1) = Fault AssertFailed.
Proof. vm_compute. reflexivity. Qed.
