(* ===== verification/TCPConnectionInv.v ===== *)
(** * The invariant of a connection and its sessions

    Proofs about [TCPConnection.v]: the invariant [conn_inv], that every method
    keeps it whatever the callbacks do with the public interface ([api]), and
    that it holds throughout a session. *)

From Stdlib Require Import ZArith Lia.
From stdpp Require Import gmap list.
From S2P Require Import Prelude Bytes Base Buffer Channel TCPConnection.

Local Open Scope Z_scope.

(** ** The invariant of an established connection *)
Section invariant.
#[local] Set Default Proof Using "Type*".
Context {BT : BaseTime} {W : Type} {LO : LoopOps W} {LS : LoopSpec W}
        {SN : SocketNet} {SL : SocketNetLaws SN} {U : Type}.
Implicit Types (w : ConnWorld (W := W) (U := U)).

Definition rank (s : StateE) : nat :=
  match s with kConnecting => 0 | kConnected => 1 | kDisconnecting => 2 | kDisconnected => 3 end.

Definition st w : StateE := state_ (conn w).
Definition pending w : bytes := content (outputBuffer_ (conn w)).
Definition sent w : bytes := wire (net w) (sockfd_ (conn w)).
Definition fin w : bool := fin_sent (net w) (sockfd_ (conn w)).
Definition watch w : option interest := interest_of (channel_ (conn w)) (lw w).
Definition conn_revents w : option Z := revents_ <$> chan (channel_ (conn w)) (lw w).

(** The callbacks the constructor binds. *)
Definition slots (ch : Channel) : Prop :=
  readCallback_ ch = Some CHandleRead ∧ writeCallback_ ch = Some CHandleWrite
  ∧ closeCallback_ ch = Some CHandleClose ∧ errorCallback_ ch = Some CHandleError.

(** [ch] is the connection's channel. *)
Record conn_chan w (ch : Channel) : Prop := {
  cc_ok : loop_ok (lw w);
  cc_at : chan (channel_ (conn w)) (lw w) = Some ch;
  cc_fd : fd_ ch = sockfd_ (conn w);
  cc_open : fd_open (fd_ ch) (lw w);
  cc_slots : slots ch;
}.

(** The values the event mask of a connection's channel takes. *)
Definition mask_ok (ev : Z) : Prop := ev = 0 ∨ ev = 3 ∨ ev = 4 ∨ ev = 7.

(** The channel [ch] of a connection in state [s] with output [out]. *)
Definition channel_ok (s : StateE) (out : bytes) (i : option interest) (ch : Channel) : Prop :=
  mask_ok (events_ ch) ∧
  match s with
  | kConnected | kDisconnecting => is_Some i ∧ (isWriting ch = true ↔ out ≠ [])
  | kDisconnected => events_ ch = 0
  | kConnecting => False
  end.

(** What will finish a connection in state [kDisconnecting]; [X] are functors
    taken from the queue and not yet run. *)
Definition finishing (X : list functor) w : Prop :=
  fin w = true ∨ pending w ≠ [] ∨ FShutdownInLoop ∈ X ++ queue w
  ∨ FForceCloseInLoop ∈ X ++ queue w ∨ delayed w ≠ [].

(** All that has been accepted for sending. *)
Definition stream w : bytes := sent w ++ pending w.

(** The network never resets the connection: before the FIN no write fails with
    EPIPE or ECONNRESET. *)
Definition no_reset : Prop := ∀ fd d n v e n', net_write fd d n = (v, e, n') ->
  fin_sent n fd = false -> v < 0 -> e ≠ EPIPE ∧ e ≠ ECONNRESET.

(** [d] is the rest of a message that is being sent. *)
Record conn_owing (X : list functor) (d : bytes) w : Prop := {
  co_thread : in_thread w = true;
  co_chan : ∃ ch, conn_chan w ch ∧ channel_ok (st w) (pending w) (watch w) ch;
  co_in : wf (inputBuffer_ (conn w));
  co_out : wf (outputBuffer_ (conn w));
  co_fin : st w ≠ kDisconnected -> fin w = true -> pending w = [];
  co_stream : ∃ kept, kept `sublist_of` offered w ∧ sent w ++ pending w ++ d = mjoin kept;
  co_finish : st w = kDisconnecting -> finishing X w;
  co_queue : ∀ m, FSendInLoop m ∈ X ++ queue w -> zlength m <= vector_max_size;
  co_early : st w = kConnected -> fin w = false ∧ (FShutdownInLoop ∉ X ++ queue w);
  co_whole : no_reset -> st w = kConnected -> sent w ++ pending w ++ d = mjoin (offered w);
}.

Definition conn_inv (X : list functor) w : Prop := conn_owing X [] w.

Definition conn_handling w : option bool := eventHandling_ <$> chan (channel_ (conn w)) (lw w).

(** What the connection's own code does not do to its channel. *)
Definition steady w w' : Prop :=
  conn_revents w' = conn_revents w ∧ conn_handling w' = conn_handling w
  ∧ (is_Some (watch w) -> is_Some (watch w'))
  ∧ (∀ q, can_remove q (lw w) -> can_remove q (lw w')).

Lemma steady_trans w1 w2 w3 : steady w1 w2 -> steady w2 w3 -> steady w1 w3.
Proof using Type.
  intros (R1 & H1 & W1 & C1) (R2 & H2 & W2 & C2).
  split_and!; [by rewrite R2|by rewrite H2|auto|auto].
Qed.

(** What never goes back. *)
Record forward w w' : Prop := {
  fw_rank : (rank (st w) <= rank (st w'))%nat;
  fw_fd : sockfd_ (conn w') = sockfd_ (conn w);
  fw_chan : channel_ (conn w') = channel_ (conn w);
  fw_steady : steady w w';
  fw_offered : offered w `prefix_of` offered w';
  fw_stream : stream w `prefix_of` stream w';
}.

Lemma forward_refl w : forward w w.
Proof using Type. by split. Qed.

Lemma forward_trans w1 w2 w3 : forward w1 w2 -> forward w2 w3 -> forward w1 w3.
Proof using Type.
  intros [R1 F1 C1 V1 O1 T1] [R2 F2 C2 V2 O2 T2].
  split; [lia|by rewrite F2|by rewrite C2|by eapply steady_trans|by transitivity (offered w2)
    |by transitivity (stream w2)].
Qed.

(** A method that keeps the invariant. *)
Definition keeps {A} (m : M (ConnWorld (W := W) (U := U)) A) : Prop := ∀ X w,
  conn_inv X w -> safe m (λ _ w', conn_inv X w' ∧ forward w w') w.

Lemma keeps_ret {A} (a : A) : keeps (mret a).
Proof using Type. intros X w H. split; [done|apply forward_refl]. Qed.

Lemma keeps_bind {A B} (m : M (ConnWorld (W := W) (U := U)) A) (k : A -> M ConnWorld B) :
  keeps m -> (∀ a, keeps (k a)) -> keeps (m ≫= k).
Proof using Type.
  intros Hm Hk X w H. rewrite safe_bind. eapply safe_mono; [by apply Hm|].
  intros a w1 [H1 F1]. eapply safe_mono; [by apply Hk|]. intros b w2 [H2 F2].
  split; [done|by eapply forward_trans].
Qed.

(** After a step that kept the invariant. *)
Lemma keeps_then {A} (m : M (ConnWorld (W := W) (U := U)) A) X w0 w :
  keeps m -> conn_inv X w -> forward w0 w -> safe m (λ _ w', conn_inv X w' ∧ forward w0 w') w.
Proof using Type.
  intros Hm H F. eapply safe_mono; [by apply Hm|]. intros a w1 [H1 F1].
  split; [done|by eapply forward_trans].
Qed.

(** Changes of the queues, the timers and the user's data. *)
Lemma owing_ext X d w w' : conn_owing X d w -> lw w' = lw w -> net w' = net w -> conn w' = conn w ->
  in_thread w' = in_thread w -> queue w ⊆ queue w' ->
  (∀ m, FSendInLoop m ∈ queue w' -> FSendInLoop m ∈ queue w ∨ zlength m <= vector_max_size) ->
  (FShutdownInLoop ∈ queue w' -> FShutdownInLoop ∈ queue w) ->
  (delayed w ≠ [] -> delayed w' ≠ []) -> offered w' = offered w -> conn_owing X d w'.
Proof.
  intros [] Hl Hn Hc Ht Hq Hqs Hsd Hd Ho.
  unfold finishing, st, pending, sent, fin, watch in *.
  assert (Hcc : ∀ ch, conn_chan w ch -> conn_chan w' ch) by (intros ch []; split; congruence).
  split; unfold finishing, st, pending, sent, fin, watch; rewrite ?Hl, ?Hn, ?Hc, ?Ht; try done.
  - destruct co_chan0 as (ch & ? & ?). eauto.
  - by rewrite Ho.
  - intros Hs. specialize (co_finish0 Hs). rewrite !elem_of_app in *. clear -co_finish0 Hq Hd.
    destruct co_finish0 as [?|[?|[[?|?%Hq]|[[?|?%Hq]|?%Hd]]]]; tauto.
  - intros m Hm. specialize (co_queue0 m). rewrite elem_of_app in *.
    destruct Hm as [Hm|Hm]; [auto|]. destruct (Hqs m Hm); auto.
  - intros Hs. destruct (co_early0 Hs) as [? Hno]. split; [done|]. rewrite elem_of_app in *. tauto.
  - intros Hr Hs. rewrite Ho. auto.
Qed.

Lemma forward_ext w w' : lw w' = lw w -> net w' = net w -> conn w' = conn w -> offered w `prefix_of` offered w' ->
  forward w w'.
Proof using Type.
  intros Hl Hn Hc Ho.
  by split; unfold steady, st, conn_revents, conn_handling, watch, stream, sent, pending; rewrite ?Hl, ?Hn, ?Hc.
Qed.

Lemma keeps_queue f : (∀ m, f = FSendInLoop m -> zlength m <= vector_max_size) -> f ≠ FShutdownInLoop ->
  keeps (queueInLoop f).
Proof.
  intros Hf Hsd X w H. split; [|by apply forward_ext].
  eapply owing_ext; try done; simpl; [set_solver| |].
  - intros m [Hm|Hm%list_elem_of_singleton]%elem_of_app; [by left|right]. by apply Hf.
  - intros [Hm|Hm%list_elem_of_singleton]%elem_of_app; [done|by destruct Hsd].
Qed.

(** ** The calls on the channel *)
Lemma safe_assertInLoopThread w Q : in_thread w = true -> Q tt w ->
  safe (assertInLoopThread (W := W) (U := U)) Q w.
Proof using Type. intros H HQ. unfold assertInLoopThread. safe_simpl. by rewrite H. Qed.

Lemma safe_the_channel w ch Q : conn_chan w ch -> Q ch w ->
  safe (the_channel (W := W) (U := U)) Q w.
Proof using Type.
  intros [] HQ. unfold the_channel. safe_simpl.
  apply wp_safe, wp_deref with (c := ch); [done|]. by destruct w.
Qed.

Lemma wp_toggle w ch (m : addr -> M W unit) (f : Channel -> Z) Q :
  (∀ p, m p = (on_chan p (λ c, set_events (f c) c) ;;; update p)) ->
  conn_chan w ch -> (watch w = None -> fd_free (fd_ ch) (lw w)) ->
  (∀ x ch', let w' := {| w with lw := x |} in
     conn_chan w' ch' -> events_ ch' = f ch -> steady w w' ->
     watch w' = Some (spec_update (watch w) (f ch)) -> Q tt w') ->
  wp (on_channel (W := W) (U := U) m) Q w.
Proof.
  intros Hm [] Hi HQ. unfold on_channel. wp_simpl. rewrite Hm.
  eapply toggle_wp; [done..| |].
  { intros Hn. rewrite cc_fd0 in *. by apply Hi. }
  intros x Htg. destruct (tg_chan _ _ _ _ _ Htg) as [i Hc].
  eapply HQ with (ch' := set_index i (set_added true (set_events (f ch) ch))).
  - split; [apply Htg|exact Hc|done| |done]. by apply (tg_open _ _ _ _ _ Htg).
  - done.
  - split_and!.
    + unfold conn_revents; simpl. by rewrite Hc, cc_at0.
    + unfold conn_handling; simpl. by rewrite Hc, cc_at0.
    + intros _. exact (mk_is_Some _ _ (tg_interest _ _ _ _ _ Htg)).
    + intros q. by apply (tg_can _ _ _ _ _ Htg).
  - exact (tg_interest _ _ _ _ _ Htg).
Qed.

Lemma safe_toggle w ch (m : addr -> M W unit) (f : Channel -> Z) Q :
  (∀ p, m p = (on_chan p (λ c, set_events (f c) c) ;;; update p)) ->
  conn_chan w ch -> is_Some (watch w) ->
  (∀ x ch', let w' := {| w with lw := x |} in
     conn_chan w' ch' -> events_ ch' = f ch -> steady w w' ->
     watch w' = Some (spec_update (watch w) (f ch)) -> Q tt w') ->
  safe (on_channel (W := W) (U := U) m) Q w.
Proof.
  intros Hm Hch [i Hi] HQ. by apply wp_safe, (wp_toggle w ch m f); [..|congruence|].
Qed.

(** The bits of the masks. *)
Lemma mask_enable_writing ev : mask_ok ev -> mask_ok (Z.lor ev kWriteEvent)
  ∧ has_bits (Z.lor ev kWriteEvent) kWriteEvent = true.
Proof using Type. unfold mask_ok. intros [-> |[-> |[-> | ->]]]; cbn; auto. Qed.

Lemma mask_disable_writing ev : mask_ok ev -> mask_ok (Z.land ev (Z.lnot kWriteEvent))
  ∧ has_bits (Z.land ev (Z.lnot kWriteEvent)) kWriteEvent = false.
Proof using Type. unfold mask_ok. intros [-> |[-> |[-> | ->]]]; cbn; auto. Qed.

Lemma mask_reading ev : mask_ok ev ->
  (mask_ok (Z.lor ev kReadEvent)
   ∧ has_bits (Z.lor ev kReadEvent) kWriteEvent = has_bits ev kWriteEvent)
  ∧ (mask_ok (Z.land ev (Z.lnot kReadEvent))
   ∧ has_bits (Z.land ev (Z.lnot kReadEvent)) kWriteEvent = has_bits ev kWriteEvent).
Proof using Type. unfold mask_ok. intros [-> |[-> |[-> | ->]]]; cbn; auto 10. Qed.

(** A closable connection's channel is registered, and it waits for POLLOUT
    exactly when there is something to write. *)
Lemma closable_channel X d w : conn_owing X d w -> closable (conn w) = true ->
  ∃ ch, conn_chan w ch ∧ mask_ok (events_ ch) ∧ is_Some (watch w)
    ∧ (isWriting ch = true ↔ pending w ≠ []).
Proof using Type.
  intros [] Hcl. destruct co_chan0 as (ch & Hch & Hm & Hok). exists ch.
  unfold closable, st in *. destruct (state_ (conn w)); try done; naive_solver.
Qed.

(** ** Sending *)
Lemma append_owed X d w : conn_owing X d w -> closable (conn w) = true -> fin w = false ->
  d ≠ [] -> zlength d <= vector_max_size ->
  safe (zoom outL (append d) ;;;
        ch ← the_channel; whenM (negb (isWriting ch)) (on_channel enableWriting))
    (λ _ w', conn_inv X w' ∧ forward w w') w.
Proof.
  intros H Hcl Hfin Hd Hlen. pose proof H as [Ht _ Hi Ho Hf Hst Hfi Hq He Hwh].
  destruct (closable_channel X d w H Hcl) as (ch & Hch & Hm & Hw & Hwr).
  rewrite safe_bind, safe_zoom. apply append_safe; [exact Ho|done|]. intros b Hb Hc.
  set (w1 := upd outL b w).
  assert (Hch1 : conn_chan w1 ch) by (destruct Hch; by split).
  assert (Hp1 : content b ≠ []) by (rewrite Hc; intros [??]%app_nil; done).
  assert (Hdone : ∀ x ch', let w' := {| w1 with lw := x |} in conn_chan w' ch' ->
            mask_ok (events_ ch') -> is_Some (watch w') -> isWriting ch' = true ->
            steady w w' -> conn_inv X w' ∧ forward w w').
  { intros x ch' w' Hch' Hm' Hw' Hwr' Hrev.
    assert (Hstr : stream w' = sent w ++ pending w ++ d)
      by (change (sent w ++ content b = sent w ++ pending w ++ d); by rewrite Hc).
    split; [|split; try done; rewrite Hstr, app_assoc; by exists d].
    split; try done.
    - exists ch'. split; [done|]. split; [done|]. unfold closable, w', w1, st in *; simpl in *.
      destruct (state_ (conn w)); try done.
    - intros _ Hfin'. change (fin w = true) in Hfin'. congruence.
    - destruct Hst as (kept & Hk & Hs). exists kept. split; [done|]. rewrite <- Hs, app_nil_r. exact Hstr.
    - intros _. right; left. exact Hp1.
    - intros Hr Hs. rewrite app_nil_r. etrans; [exact Hstr|by apply Hwh]. }
  rewrite safe_bind. apply (safe_the_channel w1 ch); [done|]. rewrite safe_when.
  destruct (isWriting ch) eqn:Ew; simpl.
  - by apply (Hdone (lw w) ch Hch1 Hm Hw Ew).
  - eapply (safe_toggle w1 ch _ _ _ (λ _, eq_refl)); [done|done|].
    intros x ch' w' Hch' Hev Hrev Hw'. destruct (mask_enable_writing _ Hm) as [Hm' Hb'].
    apply (Hdone x ch' Hch'); [by rewrite Hev|exact (mk_is_Some _ _ Hw')| |done].
    unfold isWriting. by rewrite Hev.
Qed.

Lemma live_closable X d w : conn_owing X d w -> st w ≠ kDisconnected -> closable (conn w) = true.
Proof using Type.
  intros [] Hs. destruct co_chan0 as (ch & _ & _ & Hok).
  unfold closable, st in *. by destruct (state_ (conn w)).
Qed.

Definition offer (message : bytes) w : ConnWorld :=
  {| w with offered := offered w ++ [message] |}.

(** The message may be sent, or given up when the connection is not connected or
    may be reset. *)
Lemma owing_offer X m w : conn_inv X w ->
  ((no_reset -> st w ≠ kConnected) -> conn_inv X (offer m w)) ∧ conn_owing X m (offer m w) ∧ forward w (offer m w).
Proof.
  intros H. pose proof H as []. destruct co_stream0 as (kept & Hk & Hs).
  assert (Hch : ∃ ch, conn_chan (offer m w) ch ∧ channel_ok (st (offer m w)) (pending (offer m w)) (watch (offer m w)) ch)
    by (destruct co_chan0 as (ch & [] & ?); exists ch; by split).
  split_and!.
  - intros Hdrop. split; try done.
    + exists kept. split; [by apply sublist_inserts_r|done].
    + intros Hr Hc. by destruct (Hdrop Hr).
  - split; try done.
    + exists (kept ++ [m]). split; [by apply sublist_app|].
      rewrite join_app, <- Hs, app_nil_r. simpl. by rewrite app_nil_r, <- app_assoc.
    + intros Hr Hc. simpl. rewrite join_app, <- co_whole0 by done. simpl.
      by rewrite !app_nil_r, <- app_assoc.
  - apply forward_ext; [done..|]. by exists [m].
Qed.

(** Only the network changed. *)
Lemma owing_net X d d' w n' : conn_owing X d w ->
  let w' := {| w with net := n' |} in
  fin w' = fin w -> sent w' ++ pending w ++ d' = sent w ++ pending w ++ d -> conn_owing X d' w'.
Proof.
  intros [] w' Hfin Hs. split; try done.
  - destruct co_chan0 as (ch & [] & ?). exists ch. by split.
  - rewrite Hfin. exact co_fin0.
  - destruct co_stream0 as (kept & Hk & Hs'). exists kept. split; [done|].
    change (pending w') with (pending w). congruence.
  - intros Hst. unfold finishing. rewrite Hfin. exact (co_finish0 Hst).
  - rewrite Hfin. exact co_early0.
  - intros Hr Hst. change (pending w') with (pending w). rewrite Hs. by apply co_whole0.
Qed.

(** The write that is tried first when nothing is waiting. *)
Lemma write_direct X m w r e n' : conn_inv X w -> pending w = [] ->
  net_write (sockfd_ (conn w)) m (net w) = (r, e, n') ->
  let w1 := {| (offer m w) with net := n' |} in
  r <= zlength m
  ∧ (0 <= r -> conn_owing X (drop (Z.to_nat r) m) w1 ∧ fin w1 = false)
  ∧ (r < 0 -> (e = EPIPE ∨ e = ECONNRESET -> conn_inv X w1) ∧ conn_owing X m w1
              ∧ (fin w1 = true -> e = EPIPE))
  ∧ forward w w1.
Proof.
  intros H Hp Hw w1. destruct (write_law _ _ _ _ _ _ Hw) as (Hr & Hfin & Hs & Hpipe).
  change (fin w1 = fin w) in Hfin. change (fin w = true -> r < 0 ∧ e = EPIPE) in Hpipe.
  change (sent w1 = sent w ++ take (Z.to_nat r) m) in Hs.
  destruct (owing_offer X m w H) as (H1 & H2 & F1).
  assert (Hp' : pending (offer m w) = []) by done.
  split_and!; [done|intros Hpos|intros Hneg|].
  - split; [|rewrite Hfin; destruct (fin w); [destruct Hpipe; [done|lia]|done]].
    apply (owing_net X m _ (offer m w) n' H2); [exact Hfin|].
    rewrite Hp'. fold w1. rewrite Hs. change (sent (offer m w)) with (sent w).
    rewrite <- app_assoc. simpl. by rewrite take_drop.
  - replace (Z.to_nat r) with 0%nat in Hs by lia. rewrite take_0, app_nil_r in Hs.
    split_and!.
    + intros He. apply (owing_net X [] _ (offer m w) n'); [apply H1|exact Hfin|fold w1; by rewrite Hs].
      intros Hnr Hc. destruct (co_early _ _ _ H Hc) as [Hf _].
      destruct (Hnr _ _ _ _ _ _ Hw Hf Hneg). by destruct He.
    + apply (owing_net X m _ (offer m w) n' H2); [exact Hfin|]. fold w1. by rewrite Hs.
    + rewrite Hfin. intros Hf. by apply Hpipe.
  - destruct F1 as [? ? ? ? ? _]. split; try done. unfold stream. change (pending w1) with (pending w).
    rewrite Hp, !app_nil_r, Hs. by eexists.
Qed.

(** Everything that was accepted for sending is on its way, if the network never
    resets the connection: true while it is connected, and from then on for as long
    as nothing more is accepted. *)
Definition whole w : Prop := no_reset -> stream w = mjoin (offered w).

Lemma whole_connected X w : conn_inv X w -> st w = kConnected -> whole w.
Proof using Type. intros [] Hs Hr. specialize (co_whole0 Hr Hs). by rewrite app_nil_r in co_whole0. Qed.

Lemma sublist_join (l k : list bytes) : l `sublist_of` k -> (length (mjoin l) <= length (mjoin k))%nat.
Proof using Type. induction 1; simpl; rewrite ?length_app; lia. Qed.

Lemma whole_later X w w' : whole w -> conn_inv X w' -> stream w `prefix_of` stream w' ->
  offered w' = offered w -> whole w'.
Proof using Type.
  intros Hw [] [more Hs] Ho Hr. specialize (Hw Hr). destruct co_stream0 as (kept & Hk & Hkept).
  rewrite app_nil_r in Hkept. change (stream w' = mjoin kept) in Hkept.
  apply sublist_join in Hk. rewrite <- Hkept, Hs, Hw, Ho, length_app in Hk.
  destruct more; [|simpl in Hk; lia]. by rewrite Hs, Hw, Ho, app_nil_r.
Qed.

Lemma safe_on_net {A} (f : Net -> A * Net) w Q :
  (∀ a n', f (net w) = (a, n') -> Q a {| w with net := n' |}) ->
  safe (on_net (W := W) (U := U) f) Q w.
Proof using Type.
  intros HQ. unfold safe, on_net. destruct (f (net w)) as [a n'] eqn:E. by apply HQ.
Qed.

(** A notification that may be queued. *)
Lemma owing_notify X d (b : bool) f w Q : (∀ m, f ≠ FSendInLoop m) -> f ≠ FShutdownInLoop ->
  conn_owing X d w ->
  (∀ q, let w' := {| w with queue := q |} in
     conn_owing X d w' -> forward w w' -> Q tt w') ->
  safe (whenM b (queueInLoop f)) Q w.
Proof.
  intros Hf Hsd H HQ. rewrite safe_when. destruct b.
  - apply (HQ (queue w ++ [f])); [|by apply forward_ext].
    eapply owing_ext; try done; simpl; [set_solver| |].
    + intros m [Hm|Hm%list_elem_of_singleton]%elem_of_app; [by left|]. by destruct (Hf m).
    + intros [Hm|Hm%list_elem_of_singleton]%elem_of_app; [done|]. by destruct Hsd.
  - destruct w. apply HQ; [done|apply forward_refl].
Qed.

(** The first half of [sendInLoop]: what was written directly. *)
Definition write_result X m w (x : Z * Z * bool) w1 : Prop :=
  let '(nwrote, remaining, faultError) := x in
  remaining = zlength (drop (Z.to_nat nwrote) m) ∧ remaining <= zlength m
  ∧ forward w w1 ∧ conn w1 = conn w
  ∧ conn_owing X (if faultError : bool then [] else drop (Z.to_nat nwrote) m) w1
  ∧ (faultError = false -> 0 < remaining -> fin w1 = false).

Lemma try_write_ok X m w ch : zlength m <= vector_max_size -> conn_inv X w ->
  fd_ ch = sockfd_ (conn w) -> (isWriting ch = true ↔ pending w ≠ []) ->
  st w ≠ kDisconnected ->
  safe (if negb (isWriting ch) && (readableBytes (outputBuffer_ (conn w)) =? 0) then
         '(nwrote, errno) ← on_net (net_write (fd_ ch) m);
         if 0 <=? nwrote then
           let remaining := u64 (zlength m - nwrote) in
           whenM ((remaining =? 0) && writeCompleteCallback_ (conn w)) (queueInLoop FWriteComplete) ;;;
           mret (nwrote, remaining, false)
         else mret (0, zlength m, negb (errno =? EWOULDBLOCK)
                            && ((errno =? EPIPE) || (errno =? ECONNRESET)))
       else mret (0, zlength m, false)) (write_result X m w) (offer m w).
Proof.
  intros Hlen H Hfd Hwr Hst. destruct (owing_offer X m w H) as (H1 & H2 & F1).
  pose proof vector_max_size_lt. pose proof (content_nil _ (co_out _ _ _ H)) as Hnil.
  change (content _) with (pending w) in Hnil.
  destruct (_ && _) eqn:E.
  - apply andb_prop in E as [E1 E2]. bool_to_Z. apply Hnil in E2 as Hp.
    rewrite Hfd, safe_bind. apply safe_on_net. intros [r e] n' Hw. cbn [offer net] in Hw.
    destruct (write_direct X m w r e n' H Hp Hw) as (Hr & Hpos & Hneg & F2).
    set (w1 := {| (offer m w) with net := n' |}) in *.
    destruct (0 <=? r) eqn:E3; bool_to_Z.
    + destruct (Hpos E3) as [Ho Hf]. rewrite safe_bind.
      eapply owing_notify; [done|done|exact Ho|]. intros q w2 Ho2 F3.
      rewrite u64_id by lia. apply safe_ret. unfold write_result. rewrite length_drop.
      split_and!; [lia|lia|by eapply forward_trans|done|done|done].
    + destruct (Hneg E3) as (Hi & Ho & Hf). apply safe_ret. unfold write_result.
      simpl. rewrite drop_0. split_and!; [done|lia|done|done| |].
      { destruct (_ && _) eqn:Ef; [|done]. apply andb_prop in Ef as [_ Ef].
        apply Hi. apply orb_prop in Ef as [Ef|Ef]; bool_to_Z; auto. }
      intros Hfe _. destruct (fin w1) eqn:Ef; [|done]. by rewrite (Hf eq_refl) in Hfe.
  - apply safe_ret. unfold write_result. simpl. rewrite drop_0.
    split_and!; [done|lia|done|done|done|]. intros _ _. change (fin w = false).
    destruct (fin w) eqn:Ef; [|done]. pose proof (co_fin _ _ _ H Hst Ef) as Hp.
    apply Hnil in Hp as Hr. rewrite Hr in E. destruct (isWriting ch) eqn:Ew; [|done].
    by destruct (proj1 Hwr eq_refl).
Qed.

Lemma sendInLoop_keeps m : zlength m <= vector_max_size -> keeps (sendInLoop m).
Proof.
  intros Hlen X w H. pose proof (co_thread _ _ _ H) as Ht.
  destruct (owing_offer X m w H) as (H1 & H2 & F1).
  unfold sendInLoop. rewrite safe_bind. apply safe_assertInLoopThread; [done|].
  rewrite safe_bind, safe_modify. fold (offer m w). rewrite safe_bind, safe_gets.
  case_bool_decide as Hs.
  { apply safe_ret. split; [|done]. apply H1. intros _ Hc. unfold st in Hc. simpl in Hs. congruence. }
  pose proof (live_closable X [] w H Hs) as Hcl.
  destruct (closable_channel X [] w H Hcl) as (ch & Hch & Hm & Hwa & Hwr).
  assert (Hch1 : conn_chan (offer m w) ch) by (destruct Hch; by split).
  rewrite safe_bind. apply (safe_the_channel _ ch); [done|]. rewrite safe_bind.
  eapply safe_mono; [by apply (try_write_ok X m w ch); try apply Hch|].
  intros [[nwrote remaining] faultError] w1 (Hrem & Hle & F & Hc & Ho & Hfin).
  rewrite safe_bind, safe_assert. split; [by apply Z.leb_le|].
  destruct faultError; simpl; [by apply safe_ret|].
  destruct (0 <? remaining) eqn:E; bool_to_Z.
  - rewrite safe_bind. eapply owing_notify; [done|done|exact Ho|]. intros q w2 Ho2 F2.
    rewrite take_ge by lia. eapply safe_mono.
    + apply append_owed with (X := X); [exact Ho2|by rewrite <- Hcl, <- Hc|by apply Hfin| |lia].
      intros Hn. rewrite Hn in Hrem. simpl in Hrem. lia.
    + intros _ w3 [H3 F3]. split; [done|]. eapply forward_trans; [exact F|].
      by eapply forward_trans.
  - apply safe_ret. split; [|done]. unfold conn_inv.
    by rewrite (nil_length_inv (drop (Z.to_nat nwrote) m)) in Ho by lia.
Qed.

(** ** Shutting down *)
Lemma inv_drop f X w : conn_inv (f :: X) w -> (st w = kDisconnecting -> finishing X w) ->
  conn_inv X w.
Proof using Type.
  intros [] Hf. split; try done.
  - intros m Hm. apply co_queue0. by right.
  - intros Hs. destruct (co_early0 Hs) as [? Hno]. split; [done|]. intros Hin. apply Hno. by right.
Qed.

Lemma finishing_shutdown X w : finishing (FShutdownInLoop :: X) w.
Proof using Type. do 2 right. left. by left. Qed.

Lemma shutdownInLoop_ok X w : conn_inv (FShutdownInLoop :: X) w ->
  safe shutdownInLoop (λ _ w', conn_inv X w' ∧ forward w w') w.
Proof.
  intros H. pose proof H as []. destruct co_chan0 as (ch & Hch & Hco). pose proof Hco as [Hm Hok].
  unfold shutdownInLoop. rewrite safe_bind. apply safe_assertInLoopThread; [done|].
  rewrite safe_bind. apply (safe_the_channel w ch); [done|]. rewrite safe_when.
  destruct (isWriting ch) eqn:Ew; simpl.
  - split; [|apply forward_refl]. apply (inv_drop _ _ _ H). intros Hs. right; left.
    rewrite Hs in Hok. by apply Hok.
  - rewrite safe_bind, safe_gets. apply safe_on_net. intros [] n' [= <-].
    destruct (shutdown_law (sockfd_ (conn w)) (net w)) as [Hfin Hs].
    assert (Hnc : st w ≠ kConnected) by (intros Hc; destruct (co_early0 Hc) as [_ Hno]; apply Hno; by left).
    set (w1 := {| w with net := net_shutdownWrite (sockfd_ (conn w)) (net w) |}).
    change (fin w1 = true) in Hfin. change (sent w1 = sent w) in Hs.
    split; [|split; try done; unfold stream; by rewrite Hs].
    split; try done.
    + exists ch. split; [by destruct Hch|done].
    + intros Hst _. change (st w ≠ kDisconnected) in Hst. change (pending w = []).
      unfold st in *. destruct (state_ (conn w)); try done;
        destruct (pending w); try done; exfalso; assert (false = true) by (by apply Hok); done.
    + by rewrite Hs.
    + intros _. by left.
    + intros m Hq. apply co_queue0. by right.
Qed.

Definition setst (s : StateE) w : ConnWorld := {| w with conn := {| (conn w) with state_ := s |} |}.

Lemma forward_setst s w : (rank (st w) <= rank s)%nat -> forward w (setst s w).
Proof using Type. by intros. Qed.

(** A closable connection begins to disconnect, and what will finish it is noted
    among the functors. *)
Lemma inv_requeue X Y q w : conn_inv X w -> closable (conn w) = true ->
  (∀ m, FSendInLoop m ∈ Y ++ q -> FSendInLoop m ∈ X ++ queue w) ->
  let w' := setst kDisconnecting {| w with queue := q |} in
  finishing Y w' -> conn_inv Y w' ∧ forward w w'.
Proof using Type.
  intros H Hcl Hq w' Hf. pose proof H as [].
  destruct (closable_channel X [] w H Hcl) as (ch & Hch & Hm & Hw & Hwr). split.
  - split; try done.
    + exists ch. split; [by destruct Hch|]. by split.
    + intros _. apply co_fin0. unfold closable, st in *. by destruct (state_ (conn w)).
    + auto.
  - split; try done. unfold closable, st, w', setst in *. simpl. destruct (state_ (conn w)); simpl; lia || done.
Qed.

Lemma inv_disconnecting X Y w : conn_inv X w -> closable (conn w) = true ->
  (∀ m, FSendInLoop m ∈ Y -> FSendInLoop m ∈ X) -> finishing Y w ->
  conn_inv Y (setst kDisconnecting w) ∧ forward w (setst kDisconnecting w).
Proof using Type.
  intros H Hcl HY Hf. destruct (inv_requeue X Y (queue w) w H Hcl) as [H1 F1].
  - intros m. rewrite !elem_of_app. intros [?|?]; auto.
  - by destruct w.
  - destruct w. by split.
Qed.

Lemma shutdown_keeps : keeps shutdown.
Proof.
  intros X w H. unfold shutdown. rewrite safe_bind, safe_gets, safe_when.
  case_bool_decide as Hs; [|by split; [|apply forward_refl]].
  rewrite safe_bind. unfold setState, on_conn. rewrite safe_modify. fold (setst kDisconnecting w).
  destruct (inv_disconnecting X (FShutdownInLoop :: X) w H) as [H1 F1].
  { unfold closable. by rewrite Hs. } { by intros m [|]%elem_of_cons. } { apply finishing_shutdown. }
  unfold runInLoop. rewrite safe_bind, safe_gets, (co_thread _ _ _ H1).
  eapply safe_mono; [by apply shutdownInLoop_ok|]. intros _ w2 [H2 F2].
  split; [done|by eapply forward_trans].
Qed.

Lemma forceClose_keeps : keeps forceClose.
Proof.
  intros X w H. unfold forceClose. rewrite safe_bind, safe_gets, safe_when.
  destruct (closable (conn w)) eqn:Hc; [|by split; [|apply forward_refl]].
  rewrite safe_bind. unfold setState, on_conn, queueInLoop. rewrite !safe_modify.
  fold (setst kDisconnecting w). set (w0 := {| w with queue := queue w ++ [FForceCloseInLoop] |}).
  change (λ w1, _) with (λ w1, conn_inv X w1 ∧ forward w w1).
  assert (H0 : conn_inv X w0 ∧ forward w w0) by (by apply (keeps_queue FForceCloseInLoop)).
  destruct H0 as [H0 F0]. destruct (inv_disconnecting X X w0 H0 Hc) as [H1 F1]; [done|..].
  { do 3 right. left. set_solver. }
  split; [exact H1|]. exact (forward_trans _ _ _ F0 F1).
Qed.

Lemma forceCloseWithDelay_keeps seconds : keeps (forceCloseWithDelay seconds).
Proof.
  intros X w H. unfold forceCloseWithDelay. rewrite safe_bind, safe_gets, safe_when.
  destruct (closable (conn w)) eqn:Hc; [|by split; [|apply forward_refl]].
  rewrite safe_bind. unfold setState, on_conn. rewrite !safe_modify.
  set (w0 := {| w with delayed := delayed w ++ [seconds] |}).
  assert (H0 : conn_inv X w0).
  { eapply owing_ext; try done; [by auto|]. intros _ Hn; by destruct (proj1 (app_nil _ _) Hn). }
  assert (F0 : forward w w0) by (by apply forward_ext).
  destruct (inv_disconnecting X X w0 H0 Hc) as [H1 F1]; [done|..].
  { do 4 right. intros Hn. by destruct (proj1 (app_nil _ _) Hn). }
  split; [exact H1|]. exact (forward_trans _ _ _ F0 F1).
Qed.

(** ** Reading on and off *)
Lemma safe_reading X w ch (m : addr -> M W unit) (f : Channel -> Z) b :
  (∀ p, m p = (on_chan p (λ c, set_events (f c) c) ;;; update p)) ->
  conn_inv X w -> closable (conn w) = true -> conn_chan w ch -> 
  mask_ok (f ch) -> has_bits (f ch) kWriteEvent = isWriting ch ->
  safe (on_channel m ;;; on_conn (λ c, {| c with reading_ := b |}))
    (λ _ w', conn_inv X w' ∧ forward w w') w.
Proof.
  intros Hm H Hcl Hch Hf Hb. pose proof H as [].
  destruct (closable_channel X [] w H Hcl) as (ch1 & Hch1 & _ & Hw & Hwr).
  assert (ch1 = ch) as -> by (destruct Hch, Hch1; congruence).
  rewrite safe_bind. apply (safe_toggle w ch m f _ Hm Hch Hw).
  intros x ch' w' Hch' Hev Hrev Hw'. unfold on_conn. rewrite safe_modify.
  split; [|by split]. split; try done. exists ch'. split; [by destruct Hch'|].
  split; [by rewrite Hev|]. unfold st in *. simpl. unfold closable in Hcl.
  assert (Hwr' : isWriting ch' = true ↔ pending w ≠ [])
    by (unfold isWriting; by rewrite Hev, Hb).
  destruct (state_ (conn w)); try done; by split; [exact (mk_is_Some _ _ Hw')|].
Qed.

Lemma startReadInLoop_ok X w : conn_inv X w -> closable (conn w) = true ->
  safe startReadInLoop (λ _ w', conn_inv X w' ∧ forward w w') w.
Proof.
  intros H Hcl. pose proof H as []. destruct co_chan0 as (ch & Hch & Hm & Hok).
  unfold startReadInLoop. rewrite safe_bind. apply safe_assertInLoopThread; [done|].
  rewrite safe_bind, safe_gets, safe_bind. apply (safe_the_channel w ch); [done|].
  rewrite safe_when. destruct (_ || _); [|by split; [|apply forward_refl]].
  destruct (mask_reading _ Hm) as [[? ?] _]. by eapply (safe_reading X w ch _ _ _ (λ _, eq_refl)).
Qed.

Lemma stopReadInLoop_ok X w : conn_inv X w -> closable (conn w) = true ->
  safe stopReadInLoop (λ _ w', conn_inv X w' ∧ forward w w') w.
Proof.
  intros H Hcl. pose proof H as []. destruct co_chan0 as (ch & Hch & Hm & Hok).
  unfold stopReadInLoop. rewrite safe_bind. apply safe_assertInLoopThread; [done|].
  rewrite safe_bind, safe_gets, safe_bind. apply (safe_the_channel w ch); [done|].
  rewrite safe_when. destruct (_ || _); [|by split; [|apply forward_refl]].
  destruct (mask_reading _ Hm) as [_ [? ?]]. by eapply (safe_reading X w ch _ _ _ (λ _, eq_refl)).
Qed.

(** ** Closing *)
Section callbacks.
Context (cb : Callbacks (W := W) (U := U)).
Context (keeps_connection : keeps (connectionCallback cb)).
Context (keeps_message : ∀ t, keeps (messageCallback cb t)).
Context (keeps_close : keeps (closeCallback cb)).
Context (keeps_write : keeps (writeComplete cb)).
Context (keeps_high : ∀ n, keeps (highWater cb n)).

Lemma forward_disconnected w w' : forward w w' -> st w = kDisconnected -> st w' = kDisconnected.
Proof using Type. intros [Hr _ _ _ _ _] Hs. rewrite Hs in Hr. destruct (st w'); simpl in Hr; done || lia. Qed.

(** Leaving the established states; the channel stays known to the poller. *)
Lemma safe_disconnect X w (rest : M (ConnWorld (W := W) (U := U)) unit) Q : conn_inv X w -> closable (conn w) = true ->
  (∀ w', conn_inv X w' -> forward w w' -> st w' = kDisconnected -> is_Some (watch w') ->
     safe rest Q w') ->
  safe (setState kDisconnected ;;; on_channel disableAll ;;; rest) Q w.
Proof using LS SL.
  intros H Hcl HQ. pose proof H as [].
  destruct (closable_channel X [] w H Hcl) as (ch & Hch & Hm & Hw & Hwr).
  rewrite safe_bind. unfold setState, on_conn. rewrite safe_modify, safe_bind.
  fold (setst kDisconnected w).
  assert (Hch1 : conn_chan (setst kDisconnected w) ch) by (by destruct Hch).
  eapply (safe_toggle _ ch disableAll (λ _, kNoneEvent) _ (λ _, eq_refl)); [done|done|].
  intros x ch' w' Hch' Hev Hrev Hw'. apply HQ; [|split; try done|done|by eauto].
  - split; try done. exists ch'. split; [done|]. unfold channel_ok. rewrite Hev. by split; [left|].
  - change (st w') with kDisconnected. destruct (st w); simpl; lia.
Qed.

Lemma handleClose_ok X w : conn_inv X w -> closable (conn w) = true ->
  safe (handleClose cb)
    (λ _ w', conn_inv X w' ∧ forward w w' ∧ st w' = kDisconnected) w.
Proof using All.
  intros H Hcl. unfold handleClose. rewrite safe_bind.
  apply safe_assertInLoopThread; [by apply H|]. rewrite safe_bind, safe_assertS. split; [done|].
  apply (safe_disconnect X); [done|done|]. intros w1 H1 F1 S1 _.
  eapply safe_mono; [by apply (keeps_bind _ (λ _, closeCallback cb))|].
  intros _ w2 [H2 F2]. split_and!; [done|by eapply forward_trans|by eapply forward_disconnected].
Qed.

Lemma forceCloseInLoop_ok X w : conn_inv (FForceCloseInLoop :: X) w ->
  safe (forceCloseInLoop cb) (λ _ w', conn_inv X w' ∧ forward w w' ∧ st w' = kDisconnected) w.
Proof using All.
  intros H. unfold forceCloseInLoop. rewrite safe_bind.
  apply safe_assertInLoopThread; [by apply H|]. rewrite safe_bind, safe_gets, safe_when.
  destruct (closable (conn w)) eqn:Hcl.
  - eapply safe_mono; [by apply (handleClose_ok (FForceCloseInLoop :: X))|].
    intros _ w1 (H1 & F1 & S1). split_and!; [|done|done].
    apply (inv_drop _ _ _ H1). by rewrite S1.
  - assert (S : st w = kDisconnected).
    { destruct (decide (st w = kDisconnected)) as [|Hs]; [done|].
      by rewrite (live_closable _ _ _ H Hs) in Hcl. }
    split_and!; [|apply forward_refl|done]. apply (inv_drop _ _ _ H). by rewrite S.
Qed.

(** ** The channel's callbacks *)
Lemma forward_net w n' : let w' := {| w with net := n' |} in sent w' = sent w -> forward w w'.
Proof using Type.
  intros w' Hs. split; try done. unfold stream. rewrite Hs. by change (pending w') with (pending w).
Qed.

Lemma handleError_ok X w : conn_inv X w ->
  safe handleError (λ _ w', conn_inv X w' ∧ forward w w' ∧ conn w' = conn w) w.
Proof using SL LS.
  intros H. pose proof H as []. destruct co_chan0 as (ch & Hch & _).
  unfold handleError. rewrite safe_bind. apply (safe_the_channel w ch); [done|].
  rewrite safe_bind. apply safe_on_net. intros e n' Hn. apply safe_ret.
  rewrite (cc_fd _ _ Hch) in Hn. destruct (error_law _ _ _ _ Hn) as [Hs Hf].
  set (w1 := {| w with net := n' |}). change (sent w1 = sent w) in Hs.
  split_and!; [|by apply forward_net|done]. by apply (owing_net X [] [] w n' H); [|fold w1; rewrite Hs].
Qed.

Lemma handleError_keeps : keeps handleError.
Proof using SL LS.
  intros X w H. eapply safe_mono; [by apply (handleError_ok X)|]. intros _ w1 (? & ? & _). done.
Qed.

Lemma handleRead_ok t X w : conn_inv X w -> closable (conn w) = true ->
  safe (handleRead cb t) (λ _ w', conn_inv X w' ∧ forward w w') w.
Proof using All.
  intros H Hcl. pose proof H as []. destruct co_chan0 as (ch & Hch & Hco).
  unfold handleRead. rewrite safe_bind. apply safe_assertInLoopThread; [done|].
  rewrite safe_bind. apply (safe_the_channel w ch); [done|]. rewrite safe_bind, safe_getS.
  destruct (net_readv _ _ _) as [r n'] eqn:Hr. rewrite (cc_fd _ _ Hch) in Hr.
  destruct (readv_law _ _ _ _ _ Hr) as (Hs & Hf & Hd). rewrite safe_bind, safe_modify.
  set (w1 := {| w with net := n' |}). change (sent w1 = sent w) in Hs. change (fin w1 = fin w) in Hf.
  assert (H1 : conn_inv X w1).
  { by apply (owing_net X [] [] w n' H); [|fold w1; rewrite Hs]. }
  assert (F1 : forward w w1) by by apply forward_net.
  rewrite safe_bind, safe_zoom. apply readFd_safe; [done| | |].
  { intros d ->. apply Hd; [done|]. apply readFd_iov_nonneg. }
  - intros e _. replace (upd inL (view inL w1) w1) with w1
      by (unfold w1; clear; by destruct w as [?? [] ?????]).
    by apply (keeps_then handleError X w); [apply handleError_keeps|..].
  - intros d b _ Hb _. set (w2 := upd inL b w1).
    assert (H2 : conn_inv X w2).
    { destruct H1. split; try done. destruct co_chan0 as (c & [] & ?). exists c. by split. }
    assert (F2 : forward w w2) by (by destruct F1).
    destruct (0 <? zlength d); [by apply keeps_then; [apply keeps_message|..]|].
    destruct (zlength d =? 0); [|by apply keeps_then; [apply handleError_keeps|..]].
    eapply safe_mono; [by apply (handleClose_ok X)|]. intros _ w3 (H3 & F3 & _).
    split; [done|by eapply forward_trans].
Qed.
(** What [handleWrite] does after a write of [n] bytes. *)
Lemma safe_drained X w n' ch n : let w1 := {| w with net := n' |} in conn_inv X w ->
  conn_chan w ch -> isWriting ch = true -> closable (conn w) = true ->
  fin w1 = false -> 0 < n <= zlength (pending w) ->
  sent w1 = sent w ++ take (Z.to_nat n) (pending w) ->
  safe (zoom outL (retrieve n) ;;;
        c ← gets conn;
        if readableBytes (outputBuffer_ c) =? 0 then
          on_channel disableWriting ;;;
          whenM (writeCompleteCallback_ c) (queueInLoop FWriteComplete) ;;;
          whenM (bool_decide (state_ c = kDisconnecting)) shutdownInLoop
        else mret tt)
    (λ _ w', conn_inv X w' ∧ forward w w') w1.
Proof using SL LS.
  intros w1 H Hch Ew Hcl Hfin Hn Hs. pose proof H as [].
  destruct (closable_channel X [] w H Hcl) as (ch1 & Hch1 & Hm & Hw & Hwr).
  assert (ch1 = ch) as -> by (destruct Hch, Hch1; congruence).
  rewrite safe_bind, safe_zoom. apply wp_safe.
  apply retrieve_wp; [done| |].
  { rewrite <- content_length by done. change (content _) with (pending w). lia. }
  intros b Hb Hc _ _. rewrite safe_bind, safe_gets.
  change (content b = drop (Z.to_nat n) (pending w)) in Hc.
  set (w2 := upd outL b w1).
  assert (Hsame : sent w2 ++ content b ++ [] = sent w ++ pending w ++ []).
  { change (sent w2) with (sent w1). rewrite Hs, Hc, <- app_assoc, !app_nil_r.
    by rewrite take_drop. }
  assert (Hfin2 : fin w2 = false) by exact Hfin.
  assert (Hch2 : conn_chan w2 ch) by (destruct Hch; by split).
  assert (F2 : forward w w2).
  { split; try done. unfold stream. change (pending w2) with (content b). rewrite !app_nil_r in Hsame. by rewrite Hsame. }
  pose proof (content_nil b Hb) as Hnil.
  destruct (readableBytes _ =? 0) eqn:Er; bool_to_Z.
  - rewrite safe_bind. eapply (safe_toggle w2 ch disableWriting _ _ (λ _, eq_refl)); [done|done|].
    intros x ch' w3 Hch3 Hev Hrev Hw3. destruct (mask_disable_writing _ Hm) as [Hm' Hb'].
    set (Y := if bool_decide (st w = kDisconnecting) then FShutdownInLoop :: X else X).
    assert (H3 : conn_inv Y w3).
    { split; try done.
      - exists ch'. split; [done|]. split; [by rewrite Hev|]. unfold closable, st in *.
        change (state_ (conn w3)) with (state_ (conn w)).
        assert (isWriting ch' = true ↔ content b ≠ []).
        { unfold isWriting. rewrite Hev, Hb', (proj2 Hnil Er). naive_solver. }
        destruct (state_ (conn w)); try done; (split; [exact (mk_is_Some _ _ Hw3)|done]).
      - intros _ _. by apply Hnil.
      - change (pending w3) with (content b). change (sent w3) with (sent w2). by rewrite Hsame.
      - intros Hd. change (st w = kDisconnecting) in Hd. subst Y. rewrite bool_decide_true by done.
        apply finishing_shutdown.
      - intros m. subst Y. case_bool_decide; [intros [Hm1|Hm1]%elem_of_cons; [done|]|]; by apply co_queue0.
      - intros Hd. change (st w = kConnected) in Hd. subst Y. rewrite Hd, bool_decide_false by done.
        split; [done|by apply co_early0].
      - intros Hr Hd. change (sent w3 ++ pending w3 ++ []) with (sent w2 ++ content b ++ []). rewrite Hsame. by apply co_whole0. }
    assert (F3 : forward w w3) by (by destruct F2; split).
    rewrite safe_bind. eapply owing_notify; [done|done|exact H3|]. intros q w4 H4 F4.
    assert (F4' : forward w w4) by (by eapply forward_trans).
    rewrite safe_when. change (state_ (conn w2)) with (st w). revert H4. subst Y. case_bool_decide as Hst; intros H4.
    + eapply safe_mono; [by apply shutdownInLoop_ok|]. intros _ w5 [H5 F5].
      split; [done|by eapply forward_trans].
    + by split.
  - apply safe_ret. split; [|done].
    assert (Hne : content b ≠ []) by (intros Hx; by apply Hnil in Hx).
    split; try done.
    + exists ch. split; [done|]. split; [done|]. change (st w2) with (st w).
      unfold closable, st in *. destruct (state_ (conn w)); done.
    + intros _ Hf. congruence.
    + change (pending w2) with (content b). by rewrite Hsame.
    + intros _. by right; left.
    + intros Hd. split; [done|by apply co_early0].
    + intros Hr Hd. change (sent w2 ++ pending w2 ++ []) with (sent w2 ++ content b ++ []). rewrite Hsame. by apply co_whole0.
Qed.

(** Writing what was buffered; a connection that waits for its output to drain
    is then shut down. *)
Lemma handleWrite_ok : keeps handleWrite.
Proof using SL LS.
  intros X w H. pose proof H as []. destruct co_chan0 as (ch & Hch & Hm & Hok).
  unfold handleWrite. rewrite safe_bind. apply safe_assertInLoopThread; [done|].
  rewrite safe_bind. apply (safe_the_channel w ch); [done|].
  destruct (isWriting ch) eqn:Ew; [|by split; [|apply forward_refl]].
  assert (Hcl : closable (conn w) = true).
  { apply (live_closable _ _ _ H). intros Hs. rewrite Hs in Hok.
    unfold isWriting in Ew. by rewrite Hok in Ew. }
  destruct (closable_channel X [] w H Hcl) as (ch1 & Hch1 & _ & Hw & Hwr).
  assert (ch1 = ch) as -> by (destruct Hch, Hch1; congruence).
  rewrite safe_bind, safe_gets, safe_bind. unfold liftR, safe at 1.
  rewrite (read_mem_all _ co_out0). fold (pending w).
  rewrite safe_bind. apply safe_on_net. intros [n e] n' Hn. rewrite (cc_fd _ _ Hch) in Hn.
  destruct (write_law _ _ _ _ _ _ Hn) as (Hle & Hfin & Hs & _).
  change (content (outputBuffer_ (conn w))) with (pending w) in *.
  set (w1 := {| w with net := n' |}). change (fin w1 = fin w) in Hfin.
  change (sent w1 = sent w ++ take (Z.to_nat n) (pending w)) in Hs.
  destruct (0 <? n) eqn:En; bool_to_Z.
  - apply (safe_drained X w n' ch n); try done. fold w1. rewrite Hfin.
    destruct (fin w) eqn:Ef; [|done]. destruct (proj1 Hwr Ew). apply co_fin0; [|done].
    intros Hst. unfold closable, st in *. by rewrite Hst in Hcl.
  - replace (Z.to_nat n) with 0%nat in Hs by lia. rewrite take_0, app_nil_r in Hs.
    apply safe_ret. split; [|by apply forward_net].
    apply (owing_net X [] [] w n' H); [done|]. fold w1. by rewrite Hs.
Qed.

(** ** Functors *)
Lemma run_functor_ok f X w : conn_inv (f :: X) w ->
  (f = FStartReadInLoop ∨ f = FStopReadInLoop -> closable (conn w) = true) ->
  safe (run_functor cb f) (λ _ w', conn_inv X w' ∧ forward w w') w.
Proof using All.
  intros H Hread.
  assert (Hother : f ≠ FShutdownInLoop -> f ≠ FForceCloseInLoop -> conn_inv X w).
  { intros Hf1 Hf2. apply (inv_drop _ _ _ H). intros Hs.
    pose proof (co_finish _ _ _ H Hs) as Hf. unfold finishing in *. simpl in Hf.
    rewrite !elem_of_cons in Hf. naive_solver. }
  destruct f as [|len|m| | | |]; simpl.
  - by apply keeps_write, Hother.
  - by apply keeps_high, Hother.
  - apply sendInLoop_keeps; [|by apply Hother]. apply (co_queue _ _ _ H). by left.
  - by apply shutdownInLoop_ok.
  - eapply safe_mono; [by apply forceCloseInLoop_ok|]. intros _ w1 (? & ? & _). done.
  - apply startReadInLoop_ok; [by apply Hother|auto].
  - apply stopReadInLoop_ok; [by apply Hother|auto].
Qed.

(** ** Events *)
Record within w w' : Prop := {
  wi_rank : (rank (st w) <= rank (st w'))%nat;
  wi_fd : sockfd_ (conn w') = sockfd_ (conn w);
  wi_chan : channel_ (conn w') = channel_ (conn w);
  wi_offered : offered w `prefix_of` offered w';
  wi_stream : stream w `prefix_of` stream w';
  wi_watch : is_Some (watch w) -> is_Some (watch w');
}.

(** Between two steps; the channel is not handling events. *)
Record later w w' : Prop := {
  lt_within : within w w';
  lt_idle : conn_handling w = Some false -> conn_handling w' = Some false;
}.

Lemma within_refl w : within w w.
Proof using Type. by split. Qed.

Lemma within_trans w1 w2 w3 : within w1 w2 -> within w2 w3 -> within w1 w3.
Proof using Type.
  intros [R1 F1 C1 O1 T1 W1] [R2 F2 C2 O2 T2 W2].
  split; [lia|by rewrite F2|by rewrite C2|by transitivity (offered w2)|by transitivity (stream w2)|auto].
Qed.

Lemma later_refl w : later w w.
Proof using Type. by split. Qed.

Lemma later_trans w1 w2 w3 : later w1 w2 -> later w2 w3 -> later w1 w3.
Proof using Type. intros [] []. split; [by eapply within_trans|auto]. Qed.

Lemma forward_within w w' : forward w w' -> within w w'.
Proof using Type. intros [R F C (_ & _ & W' & _) O T]. by split. Qed.

Lemma forward_later w w' : forward w w' -> later w w'.
Proof using Type.
  intros F. split; [by apply forward_within|]. destruct F as [_ _ _ (_ & Hh & _ & _) _ _]. congruence.
Qed.

(** Fields of the channel that are the loop's. *)
Lemma inv_put X w ch c : conn_inv X w -> conn_chan w ch ->
  fd_ c = fd_ ch -> index_ c = index_ ch -> events_ c = events_ ch -> slots c ->
  let w' := {| w with lw := put_chan (channel_ (conn w)) c (lw w) |} in
  conn_inv X w' ∧ within w w' ∧ conn_revents w' = Some (revents_ c)
  ∧ conn_handling w' = Some (eventHandling_ c).
Proof using LS.
  intros H Hch Hfd Hidx Hev Hsl w'. pose proof H as []. pose proof Hch as [].
  destruct (law_put (channel_ (conn w)) (lw w) ch c cc_ok0 cc_at0 Hfd Hidx)
    as (Hok1 & Hi1 & Ho1 & _ & _).
  assert (Hat : chan (channel_ (conn w)) (lw w') = Some c)
    by (unfold w'; simpl; by rewrite chan_put, decide_True).
  assert (Hw : watch w' = watch w) by exact (Hi1 _).
  split_and!; [|split; try done; by rewrite Hw|unfold conn_revents; simpl in *; by rewrite Hat
    |unfold conn_handling; simpl in *; by rewrite Hat].
  destruct co_chan0 as (ch1 & Hch1 & Hco).
  assert (ch1 = ch) as -> by (destruct Hch1; congruence).
  split; try done. exists c. split.
  - split; [done|exact Hat|by rewrite Hfd| |done]. rewrite Hfd. by apply Ho1.
  - rewrite Hw. unfold channel_ok, isWriting in *. rewrite Hev. exact Hco.
Qed.

(** While [handleEvent] runs for the events [rev]. *)
Definition during (X : list functor) w0 (rev : Z) w : Prop :=
  conn_inv X w ∧ within w0 w ∧ conn_revents w = Some rev.

Lemma during_deref {A} X w0 rev w (k : Channel -> M ConnWorld A) Q : during X w0 rev w ->
  (∀ ch, conn_chan w ch -> revents_ ch = rev -> safe (k ch) Q w) ->
  safe (c ← deref (CH := conn_heap) (channel_ (conn w0)); k c) Q w.
Proof using Type.
  intros (H & [_ _ Hp _ _ _] & Hrev) HQ. destruct (co_chan _ _ _ H) as (ch & Hch & _).
  rewrite safe_bind. rewrite <- Hp. unfold deref, liftR, chan, safe at 1; simpl.
  pose proof (cc_at _ _ Hch) as Hat. unfold chan in Hat. rewrite Hat.
  apply HQ; [done|]. unfold conn_revents in Hrev. rewrite (cc_at _ _ Hch) in Hrev.
  by injection Hrev.
Qed.

Lemma during_put X w0 rev w (f : Channel -> Channel) Q :
  during X w0 rev w ->
  (∀ c, fd_ (f c) = fd_ c ∧ index_ (f c) = index_ c ∧ events_ (f c) = events_ c
     ∧ revents_ (f c) = revents_ c ∧ (slots c -> slots (f c))) ->
  (∀ w' c x, during X w0 rev w' -> w' = {| w with lw := x |} ->
     conn_handling w' = Some (eventHandling_ (f c)) -> Q tt w') ->
  safe (on_chan (CH := conn_heap) (channel_ (conn w0)) f) Q w.
Proof using LS.
  intros Hd Hf HQ. unfold on_chan. eapply (during_deref X w0 rev); [done|].
  intros ch Hch Hr. rewrite safe_modify. destruct Hd as (H & Hl & Hrev).
  destruct (Hf ch) as (Hfd & Hidx & Hev & Hre & Hsl).
  destruct (inv_put X w ch (f ch) H Hch Hfd Hidx Hev) as (H' & L' & R' & Hh').
  { apply Hsl, Hch. }
  rewrite <- (wi_chan _ _ Hl).
  match goal with |- Q tt ?x => replace x with
    {| w with lw := put_chan (channel_ (conn w)) (f ch) (lw w) |} end.
  - eapply HQ; [|reflexivity|exact Hh']. split_and!; [done|by eapply within_trans|by rewrite R', Hre, Hr].
  - pose proof (on_chan_ok _ f _ _ (cc_at _ _ Hch)) as Heq.
    unfold on_chan in Heq. rewrite (bind_ok _ _ _ _ _ (deref_ok _ _ _ (cc_at _ _ Hch))) in Heq.
    injection Heq as Heq. simpl. by rewrite Heq.
Qed.

(** One guarded callback of [handleEvent]. *)
Lemma during_call X w0 rev w f t (b : bool) (P : ConnWorld -> Prop) Q : during X w0 rev w ->
  (b = true -> safe (run_closure cb f t) (λ _ w', conn_inv X w' ∧ forward w w' ∧ P w') w) ->
  (b = false -> P w) ->
  (∀ w', during X w0 rev w' -> P w' -> Q tt w') ->
  safe (whenM b (call (W := ConnWorld) (run_closure cb) t (Some f))) Q w.
Proof using Type.
  intros (H & L & R) Hrun Hskip HQ. rewrite safe_when. destruct b; simpl.
  - eapply safe_mono; [by apply Hrun|]. intros [] w1 (H1 & F1 & P1). apply HQ; [|done].
    split_and!; [done|eapply within_trans; [exact L|by apply forward_within]|].
    rewrite <- R. apply F1.
  - apply HQ; [done|auto].
Qed.

Lemma ready_ok X w rev t : conn_inv X w -> closable (conn w) = true -> plausible rev = true ->
  safe (ready cb rev t) (λ _ w', conn_inv X w' ∧ later w w') w.
Proof using All.
  intros H Hcl Hpl. destruct (co_chan _ _ _ H) as (ch & Hch & _).
  unfold ready. rewrite safe_bind, safe_gets, safe_bind.
  unfold on_channel. rewrite safe_bind, safe_gets, safe_zoom. apply wp_safe.
  apply wp_on_chan with (c := ch); [apply Hch|].
  destruct (inv_put X w ch (set_revents rev ch) H Hch) as (H1 & L1 & R1 & _); try done.
  { apply Hch. }
  set (w1 := upd lwL _ w). change (conn_inv X w1) in H1. change (within w w1) in L1.
  change (conn_revents w1 = Some rev) in R1.
  assert (D1 : during X w1 rev w1) by (split_and!; [done|apply within_refl|done]).
  assert (Hlater : ∀ w', within w1 w' -> conn_handling w' = Some false -> later w w')
    by (intros; split; [by eapply within_trans|done]).
  change (channel_ (conn w)) with (channel_ (conn w1)). change (closable (conn w1) = true) in Hcl.
  clearbody w1. clear H Hch. unfold handleEventWithGuard.
  rewrite safe_bind. apply (during_put X w1 rev w1); [done|done|]. intros w2 _ x D2 Hw2 _.
  change (closable (conn {| w1 with lw := x |}) = true) in Hcl. rewrite <- Hw2 in Hcl. clear Hw2 x.
  eapply (during_deref X w1 rev); [exact D2|]. intros c2 Hch2 ->.
  rewrite safe_bind. destruct (cc_slots _ _ Hch2) as (_ & _ & -> & _).
  apply (during_call X w1 rev w2 _ _ _ (λ w,
    has_bits rev (Z.lor (Z.lor POLLIN POLLPRI) POLLRDHUP) = true -> closable (conn w) = true));
    [done| |done|].
  { intros E. eapply safe_mono; [apply (handleClose_ok X); [apply D2|done]|].
    intros _ w3 (? & ? & _). split_and!; [done|done|]. intros E'. unfold plausible in Hpl.
    by rewrite E, E' in Hpl. }
  intros w3 D3 P3. eapply (during_deref X w1 rev); [exact D3|]. intros c3 Hch3 ->.
  rewrite safe_bind. destruct (cc_slots _ _ Hch3) as (_ & _ & _ & ->).
  apply (during_call X w1 rev w3 _ _ _ (λ w, conn w = conn w3)); [done| |done|].
  { intros _. apply handleError_ok, D3. }
  intros w4 D4 P4. rewrite <- P4 in P3. eapply (during_deref X w1 rev); [exact D4|]. intros c4 Hch4 ->.
  rewrite safe_bind. destruct (cc_slots _ _ Hch4) as (-> & _).
  apply (during_call X w1 rev w4 _ _ _ (λ w, True)); [done| |done|].
  { intros E. eapply safe_mono; [apply (handleRead_ok t X); [apply D4|auto]|]. naive_solver. }
  intros w5 D5 _. eapply (during_deref X w1 rev); [exact D5|]. intros c5 Hch5 ->.
  rewrite safe_bind. destruct (cc_slots _ _ Hch5) as (_ & -> & _).
  apply (during_call X w1 rev w5 _ _ _ (λ w, True)); [done| |done|].
  { intros E. eapply safe_mono; [apply (handleWrite_ok X), D5|]. naive_solver. }
  intros w6 D6 _. apply (during_put X w1 rev w6); [done|done|].
  intros w7 c x (H7 & L7 & _) _ Hh. auto.
Qed.

(** The channel is only readable, or only writable: the one handler is called, and
    around it nothing but the loop's world changes. *)
Lemma ready_calls f rev X w t (P Q : ConnWorld (W := W) (U := U) -> Prop) : conn_inv X w -> P w ->
  (rev = POLLIN ∧ f = CHandleRead ∨ rev = POLLOUT ∧ f = CHandleWrite) ->
  (∀ x w, P w -> P {| w with lw := x |}) -> (∀ x w, Q w -> Q {| w with lw := x |}) ->
  (∀ w1, conn_inv X w1 -> P w1 ->
     safe (run_closure cb f t) (λ _ w', conn_inv X w' ∧ forward w1 w' ∧ Q w') w1) ->
  safe (ready cb rev t) (λ _ w', conn_inv X w' ∧ Q w') w.
Proof using LS.
  intros H HP Hf HPlw HQlw Hrun. destruct (co_chan _ _ _ H) as (ch & Hch & _).
  unfold ready. rewrite safe_bind, safe_gets, safe_bind.
  unfold on_channel. rewrite safe_bind, safe_gets, safe_zoom. apply wp_safe.
  apply wp_on_chan with (c := ch); [apply Hch|].
  destruct (inv_put X w ch (set_revents rev ch) H Hch) as (H1 & L1 & R1 & _); try done.
  { apply Hch. }
  set (w1 := upd lwL _ w). assert (HP1 : P w1) by (by apply HPlw). change (conn_inv X w1) in H1.
  change (conn_revents w1 = Some rev) in R1.
  assert (D1 : during X w1 rev w1) by (split_and!; [done|apply within_refl|done]).
  change (channel_ (conn w)) with (channel_ (conn w1)). clearbody w1. clear H Hch.
  unfold handleEventWithGuard. rewrite safe_bind.
  apply (during_put X w1 rev w1); [done|done|]. intros w2 _ x D2 Hw2 _.
  assert (HP2 : P w2) by (rewrite Hw2; by apply HPlw). clear Hw2.
  eapply (during_deref X w1 rev); [exact D2|]. intros c2 Hch2 ->.
  rewrite safe_bind. destruct (cc_slots _ _ Hch2) as (_ & _ & -> & _).
  apply (during_call X w1 rev w2 _ _ _ P);
    [done|by destruct Hf as [[-> ->]|[-> ->]]|done|].
  intros w3 D3 P3. eapply (during_deref X w1 rev); [exact D3|]. intros c3 Hch3 ->.
  rewrite safe_bind. destruct (cc_slots _ _ Hch3) as (_ & _ & _ & ->).
  apply (during_call X w1 rev w3 _ _ _ P);
    [done|by destruct Hf as [[-> ->]|[-> ->]]|done|].
  intros w4 D4 P4. eapply (during_deref X w1 rev); [exact D4|]. intros c4 Hch4 ->.
  rewrite safe_bind. destruct (cc_slots _ _ Hch4) as (-> & _).
  apply (during_call X w1 rev w4 _ _ _ (λ w, if bool_decide (rev = POLLIN) then Q w else P w)).
  { done. }
  { destruct Hf as [[-> ->]|[-> ->]]; [|done]. intros _. apply Hrun; [apply D4|done]. }
  { by destruct Hf as [[-> ->]|[-> ->]]. }
  intros w5 D5 P5. eapply (during_deref X w1 rev); [exact D5|]. intros c5 Hch5 ->.
  rewrite safe_bind. destruct (cc_slots _ _ Hch5) as (_ & -> & _).
  apply (during_call X w1 rev w5 _ _ _ Q).
  { done. }
  { destruct Hf as [[-> ->]|[-> ->]]; [done|]. intros _. apply Hrun; [apply D5|done]. }
  { by destruct Hf as [[-> ->]|[-> ->]]. }
  intros w6 D6 Q6. apply (during_put X w1 rev w6); [done|done|].
  intros w7 c y (H7 & _) -> _. auto.
Qed.

Lemma queued (f : functor) X q : f ∈ X ++ q ++ [f].
Proof using Type. rewrite !elem_of_app. do 2 right. by left. Qed.

(** The world after a call from another thread is the one after the same
    changes made here. *)
Lemma elsewhere_ok X w (m : M ConnWorld unit) w' : conn_inv X w ->
  m {| w with in_thread := false |} = Ok (tt, {| w' with in_thread := false |}) ->
  conn_inv X w' -> later w w' -> safe (elsewhere m) (λ _ w', conn_inv X w' ∧ later w w') w.
Proof using Type.
  intros H Hm H' L. unfold elsewhere. rewrite safe_bind, safe_modify, safe_bind.
  unfold safe at 1. rewrite Hm, safe_modify. simpl.
  replace {| w' with in_thread := true |} with w'; [done|].
  pose proof (co_thread _ _ _ H'). by destruct w'; simpl in *; subst.
Qed.

Lemma send_elsewhere X w m : conn_inv X w -> zlength m <= vector_max_size ->
  safe (elsewhere (send m)) (λ _ w', conn_inv X w' ∧ later w w') w.
Proof using SL LS.
  intros H Hm.
  destruct (keeps_queue (FSendInLoop m) ltac:(by intros ? [= <-]) ltac:(done) X w H) as [H' F'].
  destruct (bool_decide (state_ (conn w) = kConnected)) eqn:Hs.
  - eapply elsewhere_ok; [done| |exact H'|by apply forward_later].
    unfold send. rewrite (bind_ok _ _ _ _ _ eq_refl). simpl. by rewrite Hs.
  - apply (elsewhere_ok X w _ w); [done| |done|apply later_refl].
    unfold send. rewrite (bind_ok _ _ _ _ _ eq_refl). simpl. by rewrite Hs.
Qed.

Lemma shutdown_elsewhere X w : conn_inv X w ->
  safe (elsewhere shutdown) (λ _ w', conn_inv X w' ∧ later w w') w.
Proof using SL LS.
  intros H. destruct (bool_decide (state_ (conn w) = kConnected)) eqn:Hs.
  - destruct (inv_requeue X X (queue w ++ [FShutdownInLoop]) w H) as [H2 F2].
    { apply bool_decide_eq_true in Hs. unfold closable. by rewrite Hs. }
    { intros m. rewrite !elem_of_app, list_elem_of_singleton. intros [?|[?|?]]; auto. done. }
    { do 2 right. left. apply queued. }
    eapply elsewhere_ok; [done| |exact H2|by apply forward_later].
    unfold shutdown. rewrite (bind_ok _ _ _ _ _ eq_refl). simpl. by rewrite Hs.
  - apply (elsewhere_ok X w _ w); [done| |done|apply later_refl].
    unfold shutdown. rewrite (bind_ok _ _ _ _ _ eq_refl). simpl. by rewrite Hs.
Qed.

Lemma forceClose_elsewhere X w : conn_inv X w ->
  safe (elsewhere forceClose) (λ _ w', conn_inv X w' ∧ later w w') w.
Proof using SL LS.
  intros H. destruct (keeps_queue FForceCloseInLoop ltac:(done) ltac:(done) X w H) as [H1 F1].
  destruct (closable (conn w)) eqn:Hs.
  - destruct (inv_disconnecting X X _ H1) as [H2 F2]; [done|done| |].
    { do 3 right. left. apply queued. }
    eapply elsewhere_ok; [done| |exact H2|apply forward_later; by eapply forward_trans].
    unfold forceClose. rewrite (bind_ok _ _ _ _ _ eq_refl). simpl. by rewrite Hs.
  - apply (elsewhere_ok X w _ w); [done| |done|apply later_refl].
    unfold forceClose. rewrite (bind_ok _ _ _ _ _ eq_refl). simpl. by rewrite Hs.
Qed.

(** A timer of [forceCloseWithDelay]. *)
Lemma timer_ok i w : conn_inv [] w ->
  safe (step cb (EvTimer i)) (λ _ w', conn_inv [] w' ∧ later w w') w.
Proof using All.
  intros H. unfold step. rewrite safe_bind, safe_gets.
  destruct (delayed w !! i) eqn:Hi; [|by split; [|apply later_refl]].
  rewrite safe_bind, safe_modify. set (w1 := {| w with delayed := _ |}).
  destruct (closable (conn w)) eqn:Hc.
  - (* the new functor finishes the connection instead of the timer *)
    set (w2 := {| w with queue := queue w ++ [FForceCloseInLoop] |}).
    destruct (keeps_queue FForceCloseInLoop ltac:(done) ltac:(done) [] w H) as [H2 F2]. fold w2 in H2, F2.
    set (w3 := {| w2 with delayed := delete i (delayed w) |}).
    assert (H3 : conn_inv [] w3).
    { destruct H2. split; try done.
      - destruct co_chan0 as (ch & [] & ?). exists ch. by split.
      - intros _. do 3 right. left. apply queued. }
    destruct (inv_disconnecting [] [] w3 H3 Hc) as [H4 F4]; [done|..].
    { do 3 right. left. apply queued. }
    unfold forceClose. rewrite safe_bind, safe_gets, safe_when.
    change (closable (conn w1)) with (closable (conn w)). rewrite Hc.
    rewrite safe_bind. unfold setState, on_conn, queueInLoop. rewrite !safe_modify.
    split; [exact H4|]. by destruct F4.
  - unfold forceClose. rewrite safe_bind, safe_gets, safe_when.
    change (closable (conn w1)) with (closable (conn w)). rewrite Hc. split; [|done].
    assert (Hs : st w = kDisconnected).
    { destruct (decide (st w = kDisconnected)) as [|Hs]; [done|].
      by rewrite (live_closable _ _ _ H Hs) in Hc. }
    destruct H. split; try done.
    + destruct co_chan0 as (ch & [] & ?). exists ch. by split.
    + intros Hd. change (st w = kDisconnecting) in Hd. congruence.
Qed.

Lemma functor_ok w : conn_inv [] w -> enabled EvFunctor w = true ->
  safe (step cb EvFunctor) (λ _ w', conn_inv [] w' ∧ later w w') w.
Proof using All.
  intros H He. unfold step. rewrite safe_bind, safe_gets. simpl in He.
  destruct (queue w) as [|f q] eqn:Hq; [by split; [|apply later_refl]|].
  rewrite safe_bind, safe_modify. set (w1 := {| w with queue := q |}).
  assert (H1 : conn_inv [f] w1).
  { destruct H. unfold finishing in *. rewrite Hq in *. split; try done.
    destruct co_chan0 as (ch & [] & ?). exists ch. by split. }
  eapply safe_mono; [apply run_functor_ok; [exact H1|]|].
  - by intros [-> | ->].
  - intros _ w2 [H2 F2]. split; [done|].
    by apply (later_trans w w1); [|apply forward_later].
Qed.

Lemma conn_step_ok e w : conn_inv [] w -> enabled e w = true ->
  safe (step cb e) (λ _ w', conn_inv [] w' ∧ later w w') w.
Proof using All.
  intros H He. destruct e as [rev t| |i|m| |].
  - apply andb_prop in He as [? ?]. by apply ready_ok.
  - by apply functor_ok.
  - by apply timer_ok.
  - apply send_elsewhere; [done|]. by apply Z.leb_le.
  - by apply shutdown_elsewhere.
  - by apply forceClose_elsewhere.
Qed.

Lemma session_ok es w : conn_inv [] w ->
  safe (session cb es) (λ _ w', conn_inv [] w' ∧ later w w') w.
Proof using All.
  intros H. unfold session.
  apply (safe_for_each (λ _ w', conn_inv [] w' ∧ later w w')).
  - split; [done|apply later_refl].
  - intros _ e _ w1 _ [H1 L1]. rewrite safe_bind, safe_getS, safe_when.
    destruct (enabled e w1) eqn:He; [|done].
    eapply safe_mono; [by apply conn_step_ok|]. intros _ w2 [H2 L2].
    split; [done|by eapply later_trans].
Qed.
End callbacks.

(** ** What users' callbacks may do

    The public interface of a connection, called in the loop thread; the
    user's own data, changed as [P] allows; and the input buffer, whose methods
    keep it well-formed. *)
Inductive api (P : (U -> U) -> Prop) : ∀ {A}, M (ConnWorld (W := W) (U := U)) A -> Prop :=
  | api_ret {A} (x : A) : api P (mret x)
  | api_bind {A B} (m : M (ConnWorld (W := W) (U := U)) A) (k : A -> M ConnWorld B) :
      api P m -> (∀ x, api P (k x)) -> api P (m ≫= k)
  | api_user (f : U -> U) : P f -> api P (modify (λ w, {| w with user := f (user w) |}))
  | api_read {A} (f : ConnWorld -> A) : api P (gets f)
  | api_send m : zlength m <= vector_max_size -> api P (send m)
  | api_shutdown : api P shutdown
  | api_forceClose : api P forceClose
  | api_delay seconds : api P (forceCloseWithDelay seconds)
  | api_startRead : api P (c ← gets conn; whenM (closable c) startRead)
  | api_stopRead : api P (c ← gets conn; whenM (closable c) stopRead)
  | api_input {A} (m : M Buffer A) :
      (∀ b, wf b -> safe m (λ _ b', wf b') b) -> api P (zoom inL m)
  | api_complete b : api P (setWriteCompleteCallback b)
  | api_high b mark : api P (setHighWaterMarkCallback b mark).

Lemma send_keeps m : zlength m <= vector_max_size -> keeps (send m).
Proof.
  intros Hm X w H. unfold send. rewrite safe_bind, safe_gets, safe_when.
  case_bool_decide; [|by split; [|apply forward_refl]].
  unfold runInLoop. rewrite safe_bind, safe_gets, (co_thread _ _ _ H).
  by apply sendInLoop_keeps.
Qed.

Lemma reading_keeps (m : M ConnWorld unit) f :
  (∀ X w, conn_inv X w -> closable (conn w) = true ->
     safe m (λ _ w', conn_inv X w' ∧ forward w w') w) ->
  keeps (c ← gets conn; whenM (closable c) (runInLoop f m)).
Proof.
  intros Hm X w H. rewrite safe_bind, safe_gets, safe_when.
  destruct (closable (conn w)) eqn:Hc; [|by split; [|apply forward_refl]].
  unfold runInLoop. rewrite safe_bind, safe_gets, (co_thread _ _ _ H). by apply Hm.
Qed.

(** Changes of the connection that only concern its input and its settings. *)
Lemma owing_conn X d w c : conn_owing X d w ->
  state_ c = state_ (conn w) -> sockfd_ c = sockfd_ (conn w) -> channel_ c = channel_ (conn w) ->
  outputBuffer_ c = outputBuffer_ (conn w) -> wf (inputBuffer_ c) ->
  let w' := {| w with conn := c |} in conn_owing X d w' ∧ forward w w'.
Proof.
  intros [] Hs Hf Hc Ho Hi w'.
  unfold finishing, st, pending, sent, fin, watch in *. split.
  - split; unfold finishing, st, pending, sent, fin, watch; simpl; rewrite ?Hs, ?Hf, ?Hc, ?Ho; try done.
    destruct co_chan0 as (ch & [] & ?). exists ch. split; [|done]. by split; simpl; rewrite ?Hc, ?Hf.
  - by split; unfold steady, st, conn_revents, conn_handling, watch, stream, sent, pending; simpl;
      rewrite ?Hs, ?Hc, ?Hf, ?Ho.
Qed.

Lemma api_keeps P {A} (m : M ConnWorld A) : api P m -> keeps m.
Proof.
  induction 1 as [| ? ? m k ? IHm ? IHk |f _| |m Hm| | |d| | |? m Hm|b|b mk].
  - apply keeps_ret.
  - by apply keeps_bind.
  - intros X w H. split; [|by apply forward_ext]. by eapply owing_ext; try done; auto.
  - intros X w H. split; [done|apply forward_refl].
  - by apply send_keeps.
  - apply shutdown_keeps.
  - apply forceClose_keeps.
  - apply forceCloseWithDelay_keeps.
  - apply reading_keeps, startReadInLoop_ok.
  - apply reading_keeps, stopReadInLoop_ok.
  - intros X w H. rewrite safe_zoom. eapply safe_mono; [apply Hm, H|]. intros a b Hb.
    by apply (owing_conn X []).
  - intros X w H. unfold setWriteCompleteCallback, on_conn. rewrite safe_modify.
    apply (owing_conn X []); try done. apply H.
  - intros X w H. unfold setHighWaterMarkCallback, on_conn. rewrite safe_modify.
    apply (owing_conn X []); try done. apply H.
Qed.

Definition anything (f : U -> U) : Prop := True.

Record harmless (cb : Callbacks (W := W) (U := U)) : Prop := {
  h_connection : api anything (connectionCallback cb);
  h_message : ∀ t, api anything (messageCallback cb t);
  h_close : api anything (closeCallback cb);
  h_write : api anything (writeComplete cb);
  h_high : ∀ n, api anything (highWater cb n);
}.

(** A connection that [TCPServer] or [TCPClient] has just made. *)
Record fresh_conn (sockfd : Z) (p : addr) w : Prop := {
  fr_conn : TCPConnection_ctor sockfd p = Ok (conn w);
  fr_loop : loop_ok (lw w);
  fr_chan : chan p (lw w) = Some (Conn_channel sockfd);
  fr_open : fd_open sockfd (lw w);
  fr_free : fd_free sockfd (lw w);
  fr_thread : in_thread w = true;
  fr_queue : queue w = [];
  fr_offered : offered w = [];
  fr_sent : wire (net w) sockfd = [];
  fr_fin : fin_sent (net w) sockfd = false;
}.

Lemma ctor_spec sockfd p c : TCPConnection_ctor sockfd p = Ok c ->
  state_ c = kConnecting ∧ sockfd_ c = sockfd ∧ channel_ c = p ∧ wf (inputBuffer_ c)
  ∧ wf (outputBuffer_ c) ∧ content (outputBuffer_ c) = [].
Proof using Type.
  unfold TCPConnection_ctor. destruct (Buffer_ctor kInitialSize) as [b|] eqn:Hb; [|done].
  intros [= <-]. simpl.
  destruct (Buffer_ctor_represents kInitialSize) as (b' & Hb' & Hrep & _); [done|by vm_compute|].
  rewrite Hb in Hb'. injection Hb' as <-. destruct Hrep. by split_and!.
Qed.

(** [connectEstablished] before the user's callback. *)
Definition quiet (cb : Callbacks (W := W) (U := U)) : Callbacks := {|
  connectionCallback := mret tt; messageCallback := messageCallback cb;
  closeCallback := closeCallback cb; writeComplete := writeComplete cb; highWater := highWater cb |}.

Record just_established w w' : Prop := {
  je_inv : conn_inv [] w';
  je_later : later w w';
  je_state : st w' = kConnected;
  je_reading : ∃ ch, conn_chan w' ch ∧ events_ ch = kReadEvent;
  je_watch : is_Some (watch w');
  je_idle : conn_handling w' = Some false;
}.

Lemma quiet_established cb self sockfd p w : fresh_conn sockfd p w ->
  wp (connectEstablished (quiet cb) self) (λ _ w', just_established w w') w.
Proof.
  intros []. destruct (ctor_spec _ _ _ fr_conn0) as (Hst & Hfd & Hp & Hwi & Hwo & Hc).
  assert (Hid : conn_handling w = Some false) by (unfold conn_handling; by rewrite Hp, fr_chan0).
  unfold connectEstablished, assertInLoopThread, setState, on_conn.
  rewrite !wp_bind, wp_gets, fr_thread0, wp_ret, wp_bind, wp_assertS, Hst. split; [done|].
  rewrite wp_bind, wp_modify. fold (setst kConnected w). set (w1 := setst kConnected w).
  rewrite wp_bind. unfold on_channel at 1. rewrite wp_bind, wp_gets, wp_zoom.
  change (channel_ (conn w1)) with (channel_ (conn w)). rewrite Hp.
  apply wp_on_chan with (c := Conn_channel sockfd); [done|].
  destruct (law_put p (lw w) _ (tie self (Conn_channel sockfd)) fr_loop0 fr_chan0 eq_refl eq_refl)
    as (Hok & Hi & Ho & Hf & _).
  set (x := put_chan p _ _). set (w2 := upd lwL x w1).
  assert (Hat : chan p (lw w2) = Some (tie self (Conn_channel sockfd)))
    by (unfold w2, x; simpl; by rewrite chan_put, decide_True).
  assert (Hch : conn_chan w2 (tie self (Conn_channel sockfd))).
  { split; try done; simpl; [by rewrite Hp|by apply Ho]. }
  rewrite wp_bind.
  eapply (wp_toggle w2 _ enableReading _ _ (λ _, eq_refl)); [done|by intros; apply Hf|].
  intros y ch w3 Hch3 Hev (_ & Hhand & _) Hw3. apply wp_ret.
  assert (Hid3 : conn_handling w3 = Some false).
  { rewrite Hhand. unfold conn_handling. change (channel_ (conn w2)) with (channel_ (conn w)).
    by rewrite Hp, Hat. }
  assert (Hpend : pending w3 = []) by exact Hc.
  split; [|split; [split|]|done|by exists ch|by rewrite Hw3|done]; try done.
  - split; try done.
    + exists ch. split; [done|]. unfold channel_ok. rewrite Hpend, Hev.
      change (st w3) with kConnected. split; [by right; left|].
      split; [by rewrite Hw3|]. unfold isWriting. by rewrite Hev.
    + exists []. split; [apply sublist_nil_l|]. rewrite Hpend, app_nil_r. unfold sent; simpl. by rewrite Hfd.
    + intros m. simpl. rewrite fr_queue0. by intros ?%elem_of_nil.
    + intros _. simpl. rewrite fr_queue0. split; [|by intros ?%elem_of_nil]. unfold fin; simpl. by rewrite Hfd.
    + intros _ _. rewrite Hpend. simpl. rewrite fr_offered0, app_nil_r. unfold sent; simpl. by rewrite Hfd.
  - unfold st. rewrite Hst. simpl. lia.
Qed.

Lemma established_split cb self w : connectEstablished cb self w =
  (connectEstablished (quiet cb) self ;;; connectionCallback cb) w.
Proof using Type.
  unfold connectEstablished. rewrite !bind_assoc. apply bind_ext. intros [] w1 _.
  rewrite !bind_assoc. apply bind_ext. intros [] w2 _.
  rewrite !bind_assoc. apply bind_ext. intros [] w3 _.
  rewrite !bind_assoc. apply bind_ext. intros [] w4 _.
  rewrite !bind_assoc. apply bind_ext. intros [] w5 _. done.
Qed.

Lemma established_ok cb self sockfd p w : harmless cb -> fresh_conn sockfd p w ->
  safe (connectEstablished cb self)
    (λ _ w', conn_inv [] w' ∧ later w w' ∧ is_Some (watch w') ∧ conn_handling w' = Some false) w.
Proof.
  intros Hcb Hf. unfold safe at 1. rewrite established_split.
  fold (safe (connectEstablished (quiet cb) self ;;; connectionCallback cb)
    (λ _ w', conn_inv [] w' ∧ later w w' ∧ is_Some (watch w') ∧ conn_handling w' = Some false) w).
  rewrite safe_bind. apply wp_safe. eapply wp_mono; [by eapply quiet_established|].
  intros _ w1 []. eapply safe_mono; [by apply (api_keeps _ _ (h_connection _ Hcb))|].
  intros _ w2 [H2 F2%forward_later]. split_and!; [done|by eapply later_trans|apply F2, je_watch0|by apply F2].
Qed.

Lemma harmless_session cb es w : harmless cb -> conn_inv [] w ->
  safe (session cb es) (λ _ w', conn_inv [] w' ∧ later w w') w.
Proof.
  intros [] H. by apply session_ok; try done; intros; eapply api_keeps.
Qed.

(** The whole life of a connection up to [connectDestroyed]. *)
Lemma life_ok cb self es sockfd p w : harmless cb -> fresh_conn sockfd p w ->
  safe (connectEstablished cb self ;;; session cb es)
    (λ _ w', conn_inv [] w' ∧ later w w' ∧ is_Some (watch w') ∧ conn_handling w' = Some false) w.
Proof.
  intros Hcb Hf. rewrite safe_bind. eapply safe_mono; [by eapply established_ok|].
  intros _ w1 (H1 & L1 & W1 & I1). eapply safe_mono; [by apply harmless_session|].
  intros _ w2 [H2 L2]. split_and!; [done|by eapply later_trans|by apply L2|by apply L2].
Qed.

(** [connectDestroyed()] once the connection is connected or closed. *)
Lemma destroyed_ok cb w : harmless cb -> conn_inv [] w -> st w ≠ kDisconnecting ->
  is_Some (watch w) -> can_remove (channel_ (conn w)) (lw w) -> conn_handling w = Some false ->
  safe (connectDestroyed cb ;;; TCPConnection_dtor)
    (λ _ w', loop_ok (lw w') ∧ chan (channel_ (conn w)) (lw w') = None ∧ st w' = kDisconnected) w.
Proof.
  intros Hcb H Hst Hw Hcan Hhand.
  assert (Hrm : ∀ w1, conn_inv [] w1 -> forward w w1 -> st w1 = kDisconnected ->
    safe (on_channel remove ;;; TCPConnection_dtor)
      (λ _ w', loop_ok (lw w') ∧ chan (channel_ (conn w)) (lw w') = None ∧ st w' = kDisconnected) w1).
  { intros w1 H1 [_ _ Hp (_ & Hh & Hwa & Hca) _ _] Hs1. destruct (co_chan _ _ _ H1) as (ch & Hch & _ & Hev).
    rewrite Hs1 in Hev. rewrite safe_bind. unfold on_channel at 1. rewrite safe_bind, safe_gets, safe_zoom.
    apply wp_safe. rewrite Hp. rewrite Hhand in Hh. unfold conn_handling in Hh. pose proof Hch as [].
    rewrite Hp in *. rewrite cc_at0 in Hh. injection Hh as Hh.
    apply remove_wp with (c := ch); [done|done| |done|by apply Hca|].
    { specialize (Hwa Hw). unfold watch in Hwa. by rewrite Hp in Hwa. }
    intros x [? ? [i Hx] _ _ _ _]. unfold TCPConnection_dtor. rewrite safe_bind, safe_assertS.
    cbn [upd lwL conn]. unfold st in Hs1. rewrite Hs1. split; [done|].
    unfold on_channel. rewrite safe_bind, safe_gets, safe_zoom. apply wp_safe. cbn [conn]. rewrite Hp.
    eapply Channel_dtor_wp; [done|exact Hx|done|done|done|]. intros Hok. split_and!; [done| |done].
    simpl. unfold chan. rewrite view_upd. apply lookup_delete_eq. }
  rewrite safe_bind. unfold connectDestroyed. rewrite safe_bind.
  apply safe_assertInLoopThread; [by apply H|].
  rewrite safe_bind, safe_gets, safe_bind, safe_when. case_bool_decide as Hs.
  - apply (safe_disconnect []); [done|unfold closable; by rewrite Hs|]. intros w1 H1 F1 S1 _.
    eapply safe_mono; [by apply (api_keeps _ _ (h_connection _ Hcb))|]. intros [] w2 [H2 F2].
    rewrite <- safe_bind. apply Hrm; [done|by eapply forward_trans|by eapply forward_disconnected].
  - rewrite <- safe_bind. apply Hrm; [done|apply forward_refl|].
    destruct (co_chan _ _ _ H) as (ch & _ & _ & Hev). unfold st in *. by destruct (state_ (conn w)).
Qed.

(** ** Three ways to lose the assertion of [Channel::remove] or [handleClose] *)
Lemma destroyed_watching cb w ch : in_thread w = true -> state_ (conn w) ≠ kConnected ->
  chan (channel_ (conn w)) (lw w) = Some ch -> events_ ch ≠ kNoneEvent ->
  connectDestroyed cb w = Fault AssertFailed.
Proof.
  intros Ht Hs Hc Hev. unfold connectDestroyed, assertInLoopThread.
  rewrite bind_assoc, (bind_ok _ _ _ _ _ eq_refl), Ht, (bind_ok _ _ _ _ _ eq_refl).
  rewrite (bind_ok _ _ _ _ _ eq_refl), bool_decide_eq_false_2 by done.
  rewrite (bind_ok _ _ _ _ _ eq_refl). unfold on_channel.
  rewrite (bind_ok _ _ _ _ _ eq_refl). unfold zoom; simpl.
  by rewrite (remove_watching _ ch).
Qed.
End invariant.
