(* ===== verification/TCPConnectionProps.v ===== *)
(** * What a connection guarantees

    The properties of [TCPConnection.v], over any loop that satisfies
    [LoopSpec] and any network that satisfies [SocketNetLaws]; the witnesses
    run connections on the epoll poller. *)

From Stdlib Require Import ZArith Lia.
From stdpp Require Import gmap list.
From S2P Require Import Prelude Bytes Base Buffer Channel EPollPoller TCPConnection TCPConnectionInv.

Local Open Scope Z_scope.

(** ** A loopback network for the witnesses

    Every write accepts at most [lb_room] bytes, every read delivers the next
    element of [lb_inbox]. *)
Record loopback := mkLoopback {
  lb_wire : bytes; lb_fin : bool; lb_room : Z; lb_inbox : list bytes
}.

Definition lb_write (fd : Z) (d : bytes) (n : loopback) : (Z * Z) * loopback :=
  if lb_fin n then ((-1, EPIPE), n)
  else if lb_room n <=? 0 then ((-1, EWOULDBLOCK), n)
  else let r := Z.min (lb_room n) (zlength d) in
       ((r, 0), {| n with lb_wire := lb_wire n ++ take (Z.to_nat r) d |}).

Definition lb_readv (fd : Z) (iov : list Z) (n : loopback) : read_result * loopback :=
  match lb_inbox n with
  | [] => (ReadBytes [], n)
  | d :: ds => (ReadBytes (take (Z.to_nat (foldr Z.add 0 iov)) d), {| n with lb_inbox := ds |})
  end.

Definition lb_net : SocketNet := {|
  Net := loopback;
  net_write := lb_write;
  net_readv := lb_readv;
  net_shutdownWrite := λ _ n, {| n with lb_fin := true |};
  net_getSocketError := λ _ n, (0, n);
  wire := λ n _, lb_wire n;
  fin_sent := λ n _, lb_fin n;
|}.

Lemma foldr_nonneg iov : Forall (λ n, 0 <= n) iov -> 0 <= foldr Z.add 0 iov.
Proof. induction 1; simpl; lia. Qed.

#[export] Instance lb_laws : SocketNetLaws lb_net.
Proof.
  split; simpl.
  - intros fd d n r e n'. unfold lb_write. destruct (lb_fin n) eqn:Hf.
    { intros [= <- <- <-]. simpl. rewrite app_nil_r. split_and!; [lia|done..|lia]. }
    destruct (_ <=? 0) eqn:Hr; bool_to_Z; intros [= <- <- <-]; simpl.
    + rewrite app_nil_r. by split_and!; [lia|..].
    + by split_and!; [lia|..].
  - intros fd iov n r n'. unfold lb_readv. destruct (lb_inbox n) as [|d ds]; intros [= <- <-].
    + split_and!; [done..|]. intros d [= <-] H. simpl. by apply foldr_nonneg.
    + split_and!; [done..|]. intros d' [= <-] H. apply foldr_nonneg in H. rewrite length_take. lia.
  - done.
  - by intros fd n r n' [= <- <-].
Qed.

(** It is never reset. *)
Lemma lb_no_reset : no_reset (SN := lb_net).
Proof.
  intros fd d n v e n' Hw Hfin Hv. change (lb_write fd d n = (v, e, n')) in Hw.
  change (lb_fin n = false) in Hfin. unfold lb_write in Hw. rewrite Hfin in Hw.
  destruct (_ <=? 0) eqn:Hr; bool_to_Z; injection Hw as <- <- <-; [by split|lia].
Qed.

(** ** The properties *)
Section properties.
#[local] Set Default Proof Using "Type*".
Context {BT : BaseTime} {W : Type} {LO : LoopOps W} {LS : LoopSpec W}
        {SN : SocketNet} {SL : SocketNetLaws SN} {U : Type}.
Implicit Types (w : ConnWorld (W := W) (U := U)) (cb : Callbacks (W := W) (U := U)).

(** The notifications of [sendInLoop] for [rest] bytes left over. *)
Definition high_note w (rest : bytes) : list functor :=
  let oldLen := zlength (content (outputBuffer_ (conn w))) in
  let newLen := oldLen + zlength rest in
  if (0 <? zlength rest) && (highWaterMark_ (conn w) <=? newLen)
     && (oldLen <? highWaterMark_ (conn w)) && highWaterMarkCallback_ (conn w)
  then [FHighWater newLen] else [].

(** What sending [m] should do: the bytes to buffer, the notifications to
    queue, and the network afterwards. *)
Definition send_spec w (m : bytes) : bytes * list functor * Net :=
  if bool_decide (content (outputBuffer_ (conn w)) = []) then
    let '((r, e), n') := net_write (sockfd_ (conn w)) m (net w) in
    if 0 <=? r then
      let rest := drop (Z.to_nat r) m in
      (rest, (if (zlength rest =? 0) && writeCompleteCallback_ (conn w)
              then [FWriteComplete] else []) ++ high_note w rest, n')
    else if (e =? EPIPE) || (e =? ECONNRESET) then ([], [], n')
    else (m, high_note w m, n')
  else (m, high_note w m, net w).

(** After [sendInLoop]: [rest] was buffered, [notes] were queued, and nothing
    else changed but the history. *)
Record sent_as w (m rest : bytes) (notes : list functor) (n' : Net) w' : Prop := {
  sa_net : net w' = n';
  sa_buffer : content (outputBuffer_ (conn w')) = content (outputBuffer_ (conn w)) ++ rest;
  sa_queue : queue w' = queue w ++ notes;
  sa_state : state_ (conn w') = state_ (conn w);
  sa_input : inputBuffer_ (conn w') = inputBuffer_ (conn w);
  sa_user : user w' = user w;
  sa_offered : offered w' = offered w ++ [m];
}.

(** [w1] is [w] after the message was offered, up to the network and the queue. *)
Definition offering m w w1 : Prop :=
  conn w1 = conn w ∧ user w1 = user w ∧ offered w1 = offered w ++ [m].

(** Buffering what is left over. *)
Lemma buffer_rest w w1 ch m n k : wf (outputBuffer_ (conn w)) -> zlength m <= vector_max_size ->
  conn_chan w1 ch -> is_Some (watch w1) -> offering m w w1 ->
  let rest := drop (Z.to_nat n) m in
  safe (assert_ (zlength rest <=? zlength m) ;;;
    if negb false && (0 <? zlength rest) then
      let oldLen := readableBytes (outputBuffer_ (conn w)) in
      whenM ((highWaterMark_ (conn w) <=? u64 (oldLen + zlength rest)) && (oldLen <? highWaterMark_ (conn w))
             && highWaterMarkCallback_ (conn w))
        (queueInLoop (FHighWater (u64 (oldLen + zlength rest)))) ;;;
      zoom outL (append (take (Z.to_nat (zlength rest)) (drop (Z.to_nat n) m))) ;;;
      ch ← the_channel;
      whenM (negb (isWriting ch)) (on_channel enableWriting)
    else mret tt)
    (λ _ w', net w1 = k -> ∀ q, queue w1 = queue w ++ q -> sent_as w m rest (q ++ high_note w rest) k w') w1.
Proof.
  intros Hwf Hlen Hch Hw (Hc & Hu & Hof) rest.
  assert (Hrest : zlength rest <= zlength m) by (unfold rest; rewrite length_drop; lia).
  rewrite safe_bind, safe_assert. split; [by apply Z.leb_le|].
  rewrite take_ge by (unfold rest; lia). fold rest. cbn [negb andb].
  pose proof (content_length _ Hwf) as Hcl. pose proof vector_max_size_lt as Hv.
  pose proof Hwf as []. pose proof (wf_readable _ Hwf) as Hr.
  unfold high_note. rewrite Hcl, u64_id by (unfold vector_max_size in *; lia).
  destruct (0 <? zlength rest) eqn:E; bool_to_Z; cbn [andb].
  - rewrite safe_bind, safe_when.
    assert (Htail : ∀ w2 notes, offering m w w2 -> conn_chan w2 ch -> is_Some (watch w2) ->
      net w2 = net w1 -> queue w2 = queue w1 ++ notes ->
      safe (zoom outL (append rest) ;;;
            ch ← the_channel; whenM (negb (isWriting ch)) (on_channel enableWriting))
        (λ _ w', net w1 = k -> ∀ q, queue w1 = queue w ++ q -> sent_as w m rest (q ++ notes) k w') w2).
    { intros w2 notes (Hc2 & Hu2 & Ho2) Hch2 Hw2 Hn2 Hq2. rewrite safe_bind, safe_zoom. cbn [view outL]. rewrite Hc2.
      apply append_safe; [done|lia|]. intros b Hb Hcb. set (w3 := upd outL b w2).
      assert (Hch3 : conn_chan w3 ch) by (destruct Hch2; by split).
      assert (Hsent : net w1 = k -> ∀ q, queue w1 = queue w ++ q -> sent_as w m rest (q ++ notes) k w3).
      { intros Hk q Hq. split; simpl; [congruence|done|by rewrite Hq2, Hq, app_assoc|by rewrite Hc2|by rewrite Hc2|done|done]. }
      rewrite safe_bind. apply (safe_the_channel w3 ch); [done|]. rewrite safe_when.
      destruct (isWriting ch); simpl; [done|].
      eapply (safe_toggle w3 ch enableWriting _ _ (λ _, eq_refl)); [done|done|].
      intros x ch' w' _ _ _ _ Hk q Hq. by destruct (Hsent Hk q Hq). }
    destruct (_ && _).
    + apply Htail; try done. by destruct Hch.
    + apply Htail; try done. by rewrite app_nil_r.
  - apply safe_ret. intros Hk q Hq. rewrite app_nil_r.
    assert (Hn : rest = []) by (apply nil_length_inv; lia).
    split; [done|by rewrite Hn, app_nil_r, Hc|done|by rewrite Hc|by rewrite Hc|done|done].
Qed.

(** After a successful write of [n] bytes. *)
Lemma sent_notified w w1 ch m n k : wf (outputBuffer_ (conn w)) -> zlength m <= vector_max_size ->
  conn_chan w1 ch -> is_Some (watch w1) -> offering m w w1 -> net w1 = k -> queue w1 = queue w ->
  let rest := drop (Z.to_nat n) m in
  safe (whenM ((zlength rest =? 0) && writeCompleteCallback_ (conn w)) (queueInLoop FWriteComplete))
    (λ _ w2, safe (mret (n, zlength rest, false)) (λ x w3, safe (
      let '(nwrote, remaining, faultError) := x in
      assert_ (remaining <=? zlength m) ;;;
      if negb faultError && (0 <? remaining) then
        let oldLen := readableBytes (outputBuffer_ (conn w)) in
        whenM ((highWaterMark_ (conn w) <=? u64 (oldLen + remaining)) && (oldLen <? highWaterMark_ (conn w))
               && highWaterMarkCallback_ (conn w))
          (queueInLoop (FHighWater (u64 (oldLen + remaining)))) ;;;
        zoom outL (append (take (Z.to_nat remaining) (drop (Z.to_nat nwrote) m))) ;;;
        ch ← the_channel;
        whenM (negb (isWriting ch)) (on_channel enableWriting)
      else mret tt)
      (λ _ w', sent_as w m rest ((if (zlength rest =? 0) && writeCompleteCallback_ (conn w)
              then [FWriteComplete] else []) ++ high_note w rest) k w') w3) w2) w1.
Proof.
  intros Hwf Hlen Hch Hw Hc Hk Hq rest. rewrite safe_when.
  destruct (_ && _).
  - unfold queueInLoop at 1. rewrite safe_modify, safe_ret. set (w2 := {| w1 with queue := _ |}). assert (Hch2 : conn_chan w2 ch) by (by destruct Hch).
    eapply safe_mono; [by apply (buffer_rest w w2 ch m n k)|].
    intros [] w' Hs. apply (Hs Hk [FWriteComplete]). unfold w2. simpl. by rewrite Hq.
  - rewrite safe_ret. eapply safe_mono; [by apply (buffer_rest w w1 ch m n k)|].
    intros [] w' Hs. apply (Hs Hk []). by rewrite app_nil_r.
Qed.

Lemma shutdownInLoop_frame w ch : in_thread w = true -> conn_chan w ch ->
  wp shutdownInLoop (λ _ w', lw w' = lw w ∧ conn w' = conn w ∧ in_thread w' = true
    ∧ user w' = user w ∧ offered w' = offered w) w.
Proof.
  intros Ht Hch. unfold shutdownInLoop, assertInLoopThread, the_channel.
  rewrite !wp_bind, wp_gets, Ht, wp_ret, !wp_bind, wp_gets, wp_zoom.
  apply wp_deref with (c := ch); [apply Hch|]. rewrite wp_when.
  destruct (isWriting ch); simpl; [done|]. rewrite wp_bind, wp_gets. done.
Qed.

(** [shutdown()] in the loop thread. *)
Lemma shutdown_frame w ch : in_thread w = true -> conn_chan w ch -> state_ (conn w) = kConnected ->
  wp shutdown (λ _ w', lw w' = lw w ∧ conn w' = {| (conn w) with state_ := kDisconnecting |}
    ∧ in_thread w' = true ∧ user w' = user w ∧ offered w' = offered w) w.
Proof.
  intros Ht Hch Hs. unfold shutdown, setState, on_conn, runInLoop.
  rewrite wp_bind, wp_gets, bool_decide_eq_true_2, wp_when, wp_bind, wp_modify, wp_bind, wp_gets by done.
  cbn [in_thread]. rewrite Ht. eapply wp_mono; [eapply (shutdownInLoop_frame _ ch); [done|]|].
  - by destruct Hch.
  - by intros [] w' (-> & -> & ? & -> & ->).
Qed.

#[local] Instance conn_heap_laws : LensLaws (@heapL _ _ (conn_heap (W := W) (U := U))).
Proof.
  split; intros; simpl; [apply view_upd| |by rewrite upd_upd].
  rewrite upd_view. by destruct s.
Qed.

(** A hang-up reported for a closed connection. *)
Lemma closed_hangup cb w ch t : conn_chan w ch -> in_thread w = true ->
  state_ (conn w) = kDisconnected -> ready cb POLLHUP t w = Fault AssertFailed.
Proof.
  intros Hch Ht Hs. unfold ready. rewrite (bind_ok _ _ _ _ _ eq_refl).
  set (p := channel_ (conn w)). pose proof (cc_at _ _ Hch : chan p (lw w) = Some ch) as Hat.
  set (c1 := set_revents POLLHUP ch). set (w1 := {| w with lw := put_chan p c1 (lw w) |}).
  assert (H1 : on_channel (λ p, on_chan p (set_revents POLLHUP)) w = Ok (tt, w1)).
  { unfold on_channel. rewrite (bind_ok _ _ _ _ _ eq_refl). unfold zoom.
    cbn [view lwL]. by rewrite (on_chan_ok p _ _ ch Hat). }
  rewrite (bind_ok _ _ _ _ _ H1). unfold handleEventWithGuard.
  assert (Hat1 : chan (CH := conn_heap) p w1 = Some c1).
  { change (chan p (put_chan p c1 (lw w)) = Some c1). by rewrite chan_put, decide_True. }
  rewrite (bind_ok _ _ _ _ _ (on_chan_ok p (set_handling true) w1 c1 Hat1)).
  set (w2 := put_chan p _ w1).
  assert (Hat2 : chan (CH := conn_heap) p w2 = Some (set_handling true c1)).
  { unfold w2. by rewrite chan_put, decide_True. }
  rewrite (bind_ok _ _ _ _ _ (deref_ok p w2 _ Hat2)).
  assert (Hcb : closeCallback_ (set_handling true c1) = Some CHandleClose) by apply Hch.
  rewrite Hcb. unfold mbind at 1, M_bind at 1. change (revents_ (set_handling true c1)) with POLLHUP.
  cbn [call]. change (has_bits POLLHUP POLLHUP && negb (has_bits POLLHUP POLLIN)) with true.
  cbn [whenM run_closure].
  assert (Hclose : handleClose cb w2 = Fault AssertFailed); [|by rewrite Hclose].
  unfold handleClose, assertInLoopThread. rewrite bind_assoc, (bind_ok _ _ _ _ _ eq_refl).
  change (in_thread w2) with (in_thread w). rewrite Ht, (bind_ok _ _ _ _ _ eq_refl).
  unfold mbind, M_bind, assertS, closable. change (conn w2) with (conn w). by rewrite Hs.
Qed.

Lemma sendInLoop_sent X w m : conn_inv X w -> closable (conn w) = true ->
  zlength m <= vector_max_size ->
  safe (sendInLoop m) (λ _ w',
    let '(rest, notes, n') := send_spec w m in sent_as w m rest notes n' w') w.
Proof.
  intros H Hcl Hlen. pose proof H as []. pose proof vector_max_size_lt.
  destruct (closable_channel X [] w H Hcl) as (ch & Hch & Hm & Hw & Hwr).
  pose proof (content_nil _ co_out) as Hnil. fold (pending w) in Hnil.
  unfold sendInLoop. rewrite safe_bind. apply safe_assertInLoopThread; [done|].
  rewrite safe_bind, safe_modify. fold (offer m w). rewrite safe_bind, safe_gets.
  change (conn (offer m w)) with (conn w). rewrite bool_decide_eq_false_2.
  2: { intros Hs. unfold closable in Hcl. by rewrite Hs in Hcl. }
  assert (Hch1 : conn_chan (offer m w) ch) by (destruct Hch; by split).
  rewrite safe_bind. apply (safe_the_channel _ ch); [done|].
  unfold send_spec. fold (pending w). case_bool_decide as Hp.
  - apply Hnil in Hp as Hr. rewrite (proj2 (Z.eqb_eq _ 0) Hr).
    destruct (isWriting ch) eqn:Ew; [by destruct (proj1 Hwr eq_refl)|]. cbn [negb andb].
    rewrite !safe_bind. apply safe_on_net. intros [r e] n' Hnet. rewrite (cc_fd _ _ Hch) in Hnet.
    cbn [offer net] in Hnet. rewrite Hnet. destruct (write_law _ _ _ _ _ _ Hnet) as [Hrm _].
    set (w1 := {| (offer m w) with net := n' |}).
    assert (Hc1 : conn_chan w1 ch) by (destruct Hch; by split).
    destruct (0 <=? r) eqn:E; bool_to_Z.
    + rewrite safe_bind, u64_id by lia.
      assert (Hrem : zlength m - r = zlength (drop (Z.to_nat r) m)) by (rewrite length_drop; lia).
      rewrite Hrem. by apply (sent_notified w w1 ch m r n').
    + apply safe_ret. destruct (_ || _) eqn:Ee.
      * rewrite safe_bind, safe_assert. split; [by apply Z.leb_le|].
        replace (negb (e =? EWOULDBLOCK)) with true
          by (symmetry; unfold EPIPE, ECONNRESET, EWOULDBLOCK in *; lia).
        apply safe_ret. by split; rewrite ?app_nil_r.
      * rewrite andb_false_r. eapply safe_mono; [by apply (buffer_rest w w1 ch m 0 n')|].
        intros [] w' Hs. by apply (Hs eq_refl []); rewrite app_nil_r.
  - assert (Hr : (readableBytes (outputBuffer_ (conn w)) =? 0) = false)
      by (apply Z.eqb_neq; tauto).
    rewrite Hr, andb_false_r, safe_bind. apply safe_ret.
    eapply safe_mono; [by apply (buffer_rest w (offer m w) ch m 0 (net w))|].
    intros [] w' Hs. by apply (Hs eq_refl []); rewrite app_nil_r.
Qed.

(** [shutdown()] in the loop thread, with what it leaves alone. *)
Lemma shutdown_done X w : conn_inv X w -> state_ (conn w) = kConnected ->
  safe shutdown (λ _ w', conn_inv X w' ∧ conn w' = {| (conn w) with state_ := kDisconnecting |}
    ∧ user w' = user w ∧ offered w' = offered w ∧ forward w w') w.
Proof.
  intros H Hs. destruct (co_chan _ _ _ H) as (ch & Hch & _).
  pose proof (shutdown_keeps X w H) as H1.
  pose proof (shutdown_frame w ch (co_thread _ _ _ H) Hch Hs) as H2.
  unfold safe, wp in *. destruct (shutdown w) as [[[] w']|]; naive_solver.
Qed.
End properties.

Section theorems.
#[local] Set Default Proof Using "Type*".
Context {BT : BaseTime} {W : Type} {LO : LoopOps W} {LS : LoopSpec W}
        {SN : SocketNet} {SL : SocketNetLaws SN} {U : Type}.
Implicit Types (w : ConnWorld (W := W) (U := U)) (cb : Callbacks (W := W) (U := U)).

(** C27: sendInLoop against its reference definition.  On an open connection
    [send_spec] says exactly what is buffered, which notifications are queued
    and what the network has seen: nothing is written while output is pending;
    otherwise the message is offered to write() once, what was not taken is
    buffered, unless the error is EPIPE or ECONNRESET, in which case the message
    is given up; "write complete" is queued when everything was taken, and the
    high-water mark callback exactly when the pending output crosses the mark. *)
Theorem sendInLoop_spec X w m : conn_inv X w -> closable (conn w) = true ->
  zlength m <= vector_max_size ->
  safe (sendInLoop m) (λ _ w',
    let '(rest, notes, n') := send_spec w m in sent_as w m rest notes n' w') w.
Proof. apply sendInLoop_sent. Qed.

(** What the connection owes its users about the socket [sockfd]: the bytes handed
    to the kernel and those in the output buffer are whole messages, in the order
    of the calls, none twice; and on a connected connection that no write found
    reset, they are all the messages. *)
Definition faithful (sockfd : Z) w : Prop :=
  (∃ kept, kept `sublist_of` offered w
     ∧ wire (net w) sockfd ++ content (outputBuffer_ (conn w)) = mjoin kept)
  ∧ (no_reset -> state_ (conn w) = kConnected ->
     wire (net w) sockfd ++ content (outputBuffer_ (conn w)) = mjoin (offered w)).

Lemma inv_faithful w : conn_inv [] w -> faithful (sockfd_ (conn w)) w.
Proof.
  intros []. split.
  - destruct co_stream as (kept & Hk & Hs). exists kept. by rewrite app_nil_r in Hs.
  - intros Hr Hs. specialize (co_whole Hr Hs). by rewrite app_nil_r in co_whole.
Qed.

(** C3: The stream is not corrupted.  Take a new connection, establish it, and
    let any sequence of events, queued functors, timers and calls from other
    threads happen, with callbacks that use the public interface as they like.
    No assertion fails, and at every point the bytes handed to the kernel followed
    by the bytes in the output buffer are the concatenation of a subsequence of
    the messages sent -- whole messages, in order, none twice -- and of all of them
    while the connection is connected, if no write is answered with EPIPE or
    ECONNRESET before the FIN.  From any point to any later one the state never
    goes back, and no byte accepted for sending is taken out or changed.

    The sequences are those of [enabled]: the poller reports events only for a
    connection that is not closed, and not a hang-up that comes with POLLPRI or
    POLLRDHUP but without POLLIN; a queued startRead() or stopRead() is not run
    after the close; a message is at most vector_max_size long.  Outside them
    assertions do fail, see [restarted_then_destroyed] and
    [parked_close_hangup]. *)
Theorem session_stream cb self es1 es2 sockfd p w : harmless cb -> fresh_conn sockfd p w ->
  safe (connectEstablished cb self ;;; session cb es1) (λ _ w1, faithful sockfd w1
    ∧ safe (session cb es2) (λ _ w2, faithful sockfd w2
        ∧ (rank (state_ (conn w1)) <= rank (state_ (conn w2)))%nat
        ∧ offered w1 `prefix_of` offered w2
        ∧ (wire (net w1) sockfd ++ content (outputBuffer_ (conn w1)))
            `prefix_of` (wire (net w2) sockfd ++ content (outputBuffer_ (conn w2)))) w1) w.
Proof.
  intros Hcb Hf. eapply safe_mono; [by eapply life_ok|].
  destruct (ctor_spec _ _ _ (fr_conn _ _ _ Hf)) as (_ & Hsock & _).
  intros _ w1 (H1 & [[_ Hfd1 _ _ _ _] _] & _). rewrite Hsock in Hfd1.
  split; [rewrite <- Hfd1; by apply inv_faithful|].
  eapply safe_mono; [by apply harmless_session|].
  intros _ w2 [H2 [[Hr Hfd2 _ Ho Hs _] _]]. rewrite Hfd1 in Hfd2.
  split; [rewrite <- Hfd2; by apply inv_faithful|].
  unfold stream, sent in Hs. by rewrite Hfd1, Hfd2 in Hs.
Qed.

(** C18: A connection does not stall.  At every point of such a session, the
    channel of an open connection waits for POLLOUT exactly when there is output
    to write; and a connection that is being closed has sent its FIN, or still
    has output, or has the shutdown, a forced close or a timer that forces the
    close ahead of it. *)
Theorem session_progress cb self es sockfd p w : harmless cb -> fresh_conn sockfd p w ->
  safe (connectEstablished cb self ;;; session cb es) (λ _ w',
    (closable (conn w') = true -> ∃ ch, chan p (lw w') = Some ch
       ∧ (isWriting ch = true ↔ content (outputBuffer_ (conn w')) ≠ []))
    ∧ (state_ (conn w') = kDisconnecting ->
       fin_sent (net w') sockfd = true ∨ content (outputBuffer_ (conn w')) ≠ []
       ∨ FShutdownInLoop ∈ queue w' ∨ FForceCloseInLoop ∈ queue w' ∨ delayed w' ≠ [])) w.
Proof.
  intros Hcb Hf. eapply safe_mono; [by eapply life_ok|].
  destruct (ctor_spec _ _ _ (fr_conn _ _ _ Hf)) as (_ & Hs & Hp & _).
  intros _ w' (H & [[_ Hfd Hch _ _ _] _] & _). rewrite Hs in Hfd. rewrite Hp in Hch. split.
  - intros Hcl. destruct (closable_channel _ _ _ H Hcl) as (ch & [] & _ & _ & Hw).
    exists ch. by rewrite Hch in cc_at.
  - intros Hst. pose proof (co_finish _ _ _ H Hst) as Hfin.
    unfold finishing, fin in Hfin. by rewrite Hfd in Hfin.
Qed.

(** Destruction.  At the end of a session, connectDestroyed() and then the
    destructor succeed on a connection that is connected or closed, once the
    loop is outside the handling of events: the channel is unregistered, its
    object is gone, the state is kDisconnected and the loop is in order. *)
Theorem session_destroyed cb self es sockfd p w w1 : harmless cb -> fresh_conn sockfd p w ->
  (connectEstablished cb self ;;; session cb es) w = Ok (tt, w1) ->
  state_ (conn w1) ≠ kDisconnecting -> can_remove p (lw w1) ->
  safe (connectDestroyed cb ;;; TCPConnection_dtor) (λ _ w2,
    state_ (conn w2) = kDisconnected ∧ loop_ok (lw w2) ∧ chan p (lw w2) = None) w1.
Proof.
  intros Hcb Hf Hrun Hst Hcan. pose proof (life_ok cb self es _ _ _ Hcb Hf) as Hlife.
  unfold safe in Hlife. rewrite Hrun in Hlife. destruct Hlife as (H & [[_ _ Hch _ _] _] & Hw & Hid).
  destruct (ctor_spec _ _ _ (fr_conn _ _ _ Hf)) as (_ & _ & Hp & _). rewrite Hp in Hch.
  eapply safe_mono; [apply destroyed_ok; try done; by rewrite Hch|].
  rewrite Hch. by intros _ w2 (? & ? & ?).
Qed.

(** connectDestroyed() on a connection that is being closed.  It clears the
    channel's events only in state kConnected, so on a connection on which
    shutdown() was called and that still reads -- what the destructor of
    TCPServer meets -- the assertion of Channel::remove() fails. *)
Theorem destroyed_while_disconnecting cb self sockfd p w :
  connectionCallback cb = mret tt -> fresh_conn sockfd p w ->
  (connectEstablished cb self ;;; shutdown ;;; connectDestroyed cb) w = Fault AssertFailed.
Proof.
  intros Hq Hf. assert (Hcb : quiet cb = cb) by (destruct cb; simpl in *; by rewrite Hq).
  pose proof (quiet_established cb self sockfd p w Hf) as He. rewrite Hcb in He.
  apply wp_ok in He as ([] & w1 & Hrun1 & [H _ Hs (ch & Hch & Hev) _ _]).
  rewrite (bind_ok _ _ _ _ _ Hrun1).
  pose proof (shutdown_frame w1 ch (co_thread _ _ _ H) Hch Hs) as Hsd.
  apply wp_ok in Hsd as ([] & w2 & Hrun2 & Hl & Hc & Ht & _).
  rewrite (bind_ok _ _ _ _ _ Hrun2).
  apply (destroyed_watching cb w2 ch); [done|by rewrite Hc|rewrite Hl, Hc; apply Hch|by rewrite Hev].
Qed.

(** startRead() on a closed connection.  It does not look at the state: run
    between the close and connectDestroyed() -- from a queued startRead() of
    another thread, say -- it registers the closed connection's channel again,
    and connectDestroyed() then fails the assertion of Channel::remove(). *)
Theorem restarted_then_destroyed cb w : conn_inv [] w -> state_ (conn w) = kDisconnected ->
  is_Some (watch w) ->
  (startReadInLoop ;;; connectDestroyed cb) w = Fault AssertFailed.
Proof.
  intros H Hs Hw. pose proof H as []. destruct co_chan as (ch & Hch & Hm & Hev).
  unfold st in Hev. rewrite Hs in Hev.
  assert (Hr : wp startReadInLoop (λ _ w', in_thread w' = true ∧ state_ (conn w') = kDisconnected
    ∧ ∃ ch', conn_chan w' ch' ∧ events_ ch' = kReadEvent) w).
  { unfold startReadInLoop, assertInLoopThread, the_channel.
    rewrite !wp_bind, wp_gets, co_thread, wp_ret, !wp_bind, wp_gets, !wp_bind, wp_gets, wp_zoom.
    apply wp_deref with (c := ch); [apply Hch|]. rewrite wp_when.
    assert (Hrd : isReading ch = false) by (unfold isReading; by rewrite Hev).
    rewrite Hrd, orb_true_r, wp_bind.
    eapply (wp_toggle _ ch enableReading _ _ (λ _, eq_refl)); [by destruct Hch| |].
    { intros Hn. exfalso. destruct Hw as [i Hi]. unfold watch in *. simpl in Hn. congruence. }
    intros x ch' w' Hch' Hev' _ _. unfold on_conn. rewrite wp_modify. split_and!; [done|done|].
    exists ch'. split; [by destruct Hch'|]. by rewrite Hev', Hev. }
  apply wp_ok in Hr as ([] & w1 & Hrun & Ht & Hs1 & ch1 & Hch1 & Hev1).
  rewrite (bind_ok _ _ _ _ _ Hrun).
  apply (destroyed_watching cb w1 ch1); [done|by rewrite Hs1|apply Hch1|by rewrite Hev1].
Qed.

(** Closing a connection that has stopped reading.  Its channel is not
    watched when nothing is to be written either; the disableAll() of
    handleClose() then registers the descriptor again, with an empty mask, so a
    hang-up that arrives before connectDestroyed() still reaches handleClose(),
    whose assertion on the state fails. *)
Theorem parked_close_hangup cb w t : conn_inv [] w -> closable (conn w) = true ->
  watch w = Some Parked -> connectionCallback cb = mret tt -> closeCallback cb = mret tt ->
  wp (handleClose cb) (λ _ w1, watch w1 = Some (Watched 0)
    ∧ ready cb POLLHUP t w1 = Fault AssertFailed) w.
Proof.
  intros H Hcl Hw Hc1 Hc2. pose proof H as [].
  destruct (closable_channel _ _ _ H Hcl) as (ch & Hch & _).
  unfold handleClose, assertInLoopThread, setState, on_conn.
  rewrite Hc1, Hc2, !wp_bind, wp_gets, co_thread, wp_ret, wp_bind, wp_assertS. split; [done|].
  rewrite wp_bind, wp_modify, wp_bind.
  eapply (wp_toggle _ ch disableAll (λ _, kNoneEvent) _ (λ _, eq_refl)); [by destruct Hch| |].
  { intros Hn. unfold watch in *. simpl in Hn. congruence. }
  intros x ch' w1 Hch1 Hev _ Hw1. rewrite wp_bind, !wp_ret. split.
  { rewrite Hw1. change (watch _) with (watch w). by rewrite Hw. }
  by apply (closed_hangup cb w1 ch' t).
Qed.
End theorems.

(** ** Witnesses: an echo connection on the epoll poller *)
#[local] Existing Instance tiny_epoll.
#[local] Existing Instance lb_net.

Definition echo_kernel : @Kernel micros tiny_epoll := mkTiny ∅ [5] ∅ 100.

Definition echo_loop : PollerWorld :=
  put_chan 1%positive (Conn_channel 5) (fresh_world echo_kernel).

Definition echo_conn : TCPConnection :=
  mkConn kConnecting false 5 1%positive false false (64 * 1024 * 1024)
    (mkBuffer (replicate 1032 Byte.x00) 8 8) (mkBuffer (replicate 1032 Byte.x00) 8 8).

Definition new_world {U} (u : U) (room : Z) (inbox : list bytes) : ConnWorld :=
  mkConnWorld echo_loop (mkLoopback [] false room inbox) echo_conn [] [] true u [].

Definition echo_world : Z -> list bytes -> ConnWorld := new_world tt.

Definition echo_callbacks : Callbacks (W := PollerWorld) (U := unit) := {|
  connectionCallback := mret tt;
  messageCallback := λ _, m ← zoom inL retrieveAllAsString; send (take 1000 m);
  closeCallback := mret tt;
  writeComplete := mret tt;
  highWater := λ _, forceClose;
|}.

Lemma new_fresh {U} (u : U) room inbox : fresh_conn 5 1 (new_world u room inbox).
Proof.
  assert (Hrep : represents (λ fd, bool_decide (fd ∈ [5])) (fresh_world echo_kernel) ∅).
  { apply fresh_represents; [|done].
    intros fd. cbn. by case_bool_decide. }
  destruct Hrep as [Hok _ _ _].
  destruct (@law_new _ _ _ (@poller_spec micros conn_closures tiny_epoll tiny_laws)
    1%positive (fresh_world echo_kernel) (Conn_channel 5) Hok eq_refl eq_refl)
    as (Hok' & _).
  by split.
Qed.

Lemma echo_fresh room inbox : fresh_conn 5 1 (echo_world room inbox).
Proof. apply new_fresh. Qed.

Lemma echo_harmless : harmless echo_callbacks.
Proof.
  split; intros; try apply api_ret; [|apply api_forceClose].
  apply api_bind.
  - apply api_input. intros b Hb. apply wp_safe, retrieveAllAsString_wp; [done|]. by intros.
  - intros m. apply api_send. rewrite length_take. unfold vector_max_size. lia.
Qed.

Definition echo_session : list event :=
  [EvReady POLLIN (tick 1); EvSend (str "later"); EvFunctor; EvReady POLLOUT (tick 2);
   EvReady (Z.lor POLLIN POLLOUT) (tick 3); EvShutdown; EvFunctor; EvReady POLLOUT (tick 4)].

(** What an observer of a run sees: the state, what is on the wire, what was
    sent, whether the FIN is out, and how much output is left. *)
Definition observe {A} (r : result (A * ConnWorld (W := PollerWorld) (U := unit)))
    : option (StateE * bytes * list bytes * bool * Z) :=
  match r with
  | Ok (_, w) => Some (state_ (conn w), lb_wire (net w), offered w, lb_fin (net w),
                       readableBytes (outputBuffer_ (conn w)))
  | Fault _ => None
  end.

Lemma session_stream_witness :
  let w := echo_world 4 [str "hello"; str "world"] in
  observe ((connectEstablished echo_callbacks 9%positive ;;; session echo_callbacks (take 2 echo_session)) w)
    = Some (kConnected, str "hell", [str "hello"], false, 1)
  ∧ observe ((connectEstablished echo_callbacks 9%positive ;;; session echo_callbacks echo_session) w)
    = Some (kDisconnecting, str "hellolaterworld",
            [str "hello"; str "later"; str "world"], true, 0)
  ∧ safe (connectEstablished echo_callbacks 9%positive ;;; session echo_callbacks (take 2 echo_session))
      (λ _ w1, (state_ (conn w1) = kConnected ->
         lb_wire (net w1) ++ content (outputBuffer_ (conn w1)) = mjoin (offered w1))
       ∧ safe (session echo_callbacks (drop 2 echo_session))
           (λ _ w2, faithful (SN := lb_net) 5 w2) w1) w.
Proof.
  split; [vm_compute; reflexivity|]. split; [vm_compute; reflexivity|].
  eapply safe_mono; [apply (session_stream echo_callbacks 9%positive (take 2 echo_session)
    (drop 2 echo_session) 5 1%positive); [exact echo_harmless|apply echo_fresh]|].
  intros _ w1 [[_ H1] H2]. split; [exact (H1 lb_no_reset)|].
  eapply safe_mono; [exact H2|]. intros _ w2 [H _]. exact H.
Defined.

Lemma session_progress_witness :
  safe (connectEstablished echo_callbacks 9%positive ;;; session echo_callbacks echo_session)
    (λ _ w', state_ (conn w') = kDisconnecting ->
       lb_fin (net w') = true ∨ content (outputBuffer_ (conn w')) ≠ []
       ∨ FShutdownInLoop ∈ queue w' ∨ FForceCloseInLoop ∈ queue w' ∨ delayed w' ≠ [])
    (echo_world 4 [str "hello"; str "world"]).
Proof.
  eapply safe_mono; [apply (session_progress echo_callbacks 9%positive echo_session 5 1%positive);
    [exact echo_harmless|apply echo_fresh]|].
  intros _ w' [_ H]. exact H.
Defined.

(** What the end of a session of a new connection looks like. *)
Lemma session_ends {U A} (cb : Callbacks (W := PollerWorld) (U := U)) es u room inbox
    (f : ConnWorld -> A) (a : A) : harmless cb ->
  let r := (connectEstablished cb 9%positive ;;; session cb es) (new_world u room inbox) in
  match r with Ok (_, w) => Some (f w) | Fault _ => None end = Some a ->
  ∃ w, r = Ok (tt, w) ∧ conn_inv [] w ∧ f w = a ∧ is_Some (watch w)
    ∧ channel_ (conn w) = 1%positive.
Proof.
  intros Hcb r Hs. pose proof (life_ok cb 9%positive es 5 1%positive _ Hcb (new_fresh u room inbox)) as H.
  unfold safe in H. fold r in H. destruct r as [[[] w]|]; [|done].
  destruct H as (H & [[_ _ Hp _ _ _] _] & Hw & _). injection Hs as Hs. by exists w.
Qed.

Lemma sendInLoop_spec_witness : ∃ w : ConnWorld (W := PollerWorld) (U := unit),
  state_ (conn w) = kConnected ∧ conn_inv [] w
  ∧ safe (sendInLoop (str "hello")) (λ _ w',
      let '(rest, notes, n') := send_spec w (str "hello") in sent_as w (str "hello") rest notes n' w') w.
Proof.
  destruct (session_ends echo_callbacks [] tt 4 [] (λ w, state_ (conn w)) kConnected echo_harmless) as (w & _ & H & Hs & _).
  { vm_compute. reflexivity. }
  exists w. split; [done|]. split; [done|]. apply (sendInLoop_spec []); [done| |done].
  unfold closable. by rewrite Hs.
Defined.

Lemma session_destroyed_witness : ∃ w1,
  (connectEstablished echo_callbacks 9%positive ;;; session echo_callbacks [EvReady POLLIN (tick 1)])
    (echo_world 4 []) = Ok (tt, w1)
  ∧ safe (connectDestroyed echo_callbacks ;;; TCPConnection_dtor)
      (λ _ w2, state_ (conn w2) = kDisconnected ∧ loop_ok (lw w2) ∧ chan 1%positive (lw w2) = None) w1.
Proof.
  destruct (session_ends echo_callbacks [EvReady POLLIN (tick 1)] tt 4 [] (λ w, state_ (conn w)) kDisconnected echo_harmless)
    as (w & Hr & H & Hs & _ & Hp).
  { vm_compute. reflexivity. }
  exists w. split; [exact Hr|].
  apply (session_destroyed (LO := poller_ops) (LS := poller_spec) echo_callbacks 9%positive [EvReady POLLIN (tick 1)] 5 1%positive
    (echo_world 4 []) w);
    [exact echo_harmless|apply echo_fresh|exact Hr|by rewrite Hs|exact I].
Defined.

Lemma destroyed_while_disconnecting_witness :
  (connectEstablished echo_callbacks 9%positive ;;; shutdown ;;; connectDestroyed echo_callbacks)
    (echo_world 4 []) = Fault AssertFailed.
Proof.
  by apply (destroyed_while_disconnecting echo_callbacks 9%positive 5 1%positive), echo_fresh.
Defined.

Lemma restarted_then_destroyed_witness : ∃ w : ConnWorld (W := PollerWorld) (U := unit), state_ (conn w) = kDisconnected ∧ conn_inv [] w
  ∧ (startReadInLoop ;;; connectDestroyed echo_callbacks) w = Fault AssertFailed.
Proof.
  destruct (session_ends echo_callbacks [EvForceClose; EvFunctor] tt 4 [] (λ w, state_ (conn w)) kDisconnected echo_harmless)
    as (w & _ & H & Hs & Hw & _).
  { vm_compute. reflexivity. }
  exists w. split; [done|]. split; [done|]. by apply restarted_then_destroyed.
Defined.

(** The same server, which stops reading as soon as a client is connected. *)
Definition deaf_callbacks : Callbacks (W := PollerWorld) (U := unit) := {|
  connectionCallback := c ← gets conn; whenM (closable c) stopRead;
  messageCallback := λ _, mret tt;
  closeCallback := mret tt;
  writeComplete := mret tt;
  highWater := λ _, mret tt;
|}.

Lemma deaf_harmless : harmless deaf_callbacks.
Proof. split; intros; try apply api_ret. apply api_stopRead. Qed.

Lemma deaf_parked : option_map (λ w, watch w)
  (match connectEstablished deaf_callbacks 9%positive (echo_world 4 []) with
   | Ok (_, w) => Some w | Fault _ => None end) = Some (Some Parked).
Proof. vm_compute. reflexivity. Qed.

Lemma parked_close_hangup_witness : ∃ w : ConnWorld (W := PollerWorld) (U := unit), conn_inv [] w ∧ watch w = Some Parked
  ∧ wp (handleClose echo_callbacks) (λ _ w1, watch w1 = Some (Watched 0)
      ∧ ready echo_callbacks POLLHUP (tick 7) w1 = Fault AssertFailed) w.
Proof.
  destruct (session_ends deaf_callbacks [] tt 4 [] (λ w, state_ (conn w)) kConnected deaf_harmless) as (w & Hr & H & Hs & _).
  { vm_compute. reflexivity. }
  assert (Hw : watch w = Some Parked).
  { pose proof deaf_parked as Hd. unfold echo_world in Hd. apply bind_inv in Hr as ([] & w1 & H1 & H2).
    injection H2 as <-. rewrite H1 in Hd. by injection Hd. }
  exists w. split; [done|]. split; [done|].
  apply parked_close_hangup; [done| |done|done|done]. unfold closable. by rewrite Hs.
Defined.

(** [connectEstablished] enables reading without setting [reading_], so
    isReading() says no on a connection that reads. *)
Example established_isReading :
  match connectEstablished echo_callbacks 9%positive (echo_world 4 []) with
  | Ok (_, w) => (conn_isReading (conn w), isReading <$> chan 1%positive (lw w))
  | Fault _ => (true, None)
  end = (false, Some true).
Proof. vm_compute. reflexivity. Qed.
