(* ===== verification/ConnLifeProps.v ===== *)
(** * A connection behaves as its owner sees it

    Two facts about [TCPConnection.v] that [TCPServer] and [TCPClient] rely on:
    [closeCallback_] is called exactly once for a connection that is closed, and
    never otherwise; and a connection implements the description of [ConnLife.v]. *)

From Stdlib Require Import ZArith Lia.
From stdpp Require Import gmap list relations.
From S2P Require Import Prelude Bytes Base Buffer Channel EPollPoller ConnLife TCPConnection.
From S2P Require Import TCPConnectionInv TCPConnectionProps.

Local Open Scope Z_scope.

(** ** Counting the calls of [closeCallback_] *)
Section counting.
Context {BT : BaseTime} {W : Type} {LO : LoopOps W} {SN : SocketNet} {U : Type}.
Implicit Types (w : ConnWorld (W := W) (U := U)).

(** The user's data has a counter. *)
Context (closes : U -> nat) (bump : U -> U).

Definition uncounted (f : U -> U) : Prop := ∀ u, closes (f u) = closes u.

Definition note_close : M (ConnWorld (W := W) (U := U)) unit :=
  modify (λ w, {| w with user := bump (user w) |}).

Record counted (cb : Callbacks (W := W) (U := U)) : Prop := {
  n_connection : api uncounted (connectionCallback cb);
  n_message : ∀ t, api uncounted (messageCallback cb t);
  n_close : ∃ m, closeCallback cb = (note_close ;;; m) ∧ api uncounted m;
  n_write : api uncounted (writeComplete cb);
  n_high : ∀ n, api uncounted (highWater cb n);
}.

(** What does not change: the calls counted, less [weight] for a closed
    connection. *)
Context (weight : Z).
Definition tally w : Z :=
  Z.of_nat (closes (user w)) - (if bool_decide (state_ (conn w) = kDisconnected) then weight else 0).

Definition level {A} (m : M (ConnWorld (W := W) (U := U)) A) : Prop :=
  ∀ w a w', m w = Ok (a, w') -> tally w' = tally w.

Lemma level_ret {A} (a : A) : level (mret a).
Proof. by intros w b w' [= _ <-]. Qed.

Lemma level_bind {A B} (m : M ConnWorld A) (k : A -> M ConnWorld B) :
  level m -> (∀ a, level (k a)) -> level (m ≫= k).
Proof.
  intros Hm Hk w b w' (a & w1 & H1 & H2)%bind_inv. by rewrite (Hk a _ _ _ H2), (Hm _ _ _ H1).
Qed.

Lemma level_if {A} (b : bool) (m1 m2 : M ConnWorld A) : level m1 -> level m2 -> level (if b then m1 else m2).
Proof. by destruct b. Qed.

Lemma level_when (b : bool) m : level m -> level (whenM b m).
Proof. intros Hm. destruct b; [done|apply level_ret]. Qed.

Lemma level_modify f : (∀ w, tally (f w) = tally w) -> level (modify f).
Proof. intros Hf w a w' [= _ <-]. apply Hf. Qed.

Lemma level_gets {A} (f : ConnWorld -> A) : level (gets f).
Proof. by intros w a w' [= _ <-]. Qed.

Lemma level_getS : level getS.
Proof. by intros w a w' [= _ <-]. Qed.

Lemma level_liftR {A} (f : ConnWorld -> result A) : level (liftR f).
Proof. intros w a w' H. unfold liftR in H. destruct (f w); [by injection H as _ <-|done]. Qed.

Lemma level_assertS f : level (assertS f).
Proof. intros w a w' H. unfold assertS in H. destruct (f w); [by injection H as _ <-|done]. Qed.

Lemma level_assert b : level (assert_ b).
Proof. intros w a w' H. destruct b; [by injection H as _ <-|done]. Qed.

Lemma level_fail {A} e : level (failM e : M ConnWorld A).
Proof. by intros w a w' [=]. Qed.

Lemma level_zoom {T A} (l : lens ConnWorld T) (m : M T A) :
  (∀ t w, tally (upd l t w) = tally w) -> level (zoom l m).
Proof.
  intros Hl w a w' H. unfold zoom in H. destruct (m (view l w)) as [[b t]|]; [|done].
  injection H as _ <-. apply Hl.
Qed.

Lemma level_on_net {A} (f : Net -> A * Net) : level (on_net f).
Proof. intros w a w' H. unfold on_net in H. destruct (f (net w)). by injection H as _ <-. Qed.

Lemma level_lw {A} (m : M W A) : level (zoom lwL m).
Proof. by apply level_zoom. Qed.

Lemma level_out {A} (m : M Buffer A) : level (zoom outL m).
Proof. by apply level_zoom. Qed.

Lemma level_in {A} (m : M Buffer A) : level (zoom inL m).
Proof. by apply level_zoom. Qed.

(** Changing the state under a guard that excludes closed connections. *)
Lemma level_leave (b : TCPConnection -> bool) s (m : M ConnWorld unit) :
  (∀ c, b c = true -> state_ c ≠ kDisconnected) -> s ≠ kDisconnected -> level m ->
  level (c ← gets conn; whenM (b c) (setState s ;;; m)).
Proof.
  intros Hb Hs Hm w a w' (c & w1 & [= <- <-] & H)%bind_inv. destruct (b (conn w)) eqn:E.
  - apply bind_inv in H as ([] & w2 & [= <-] & H). rewrite (Hm _ _ _ H). unfold tally. cbn.
    by rewrite !bool_decide_eq_false_2 by auto.
  - by injection H as _ <-.
Qed.

Lemma level_for_each {A} (l : list A) body : (∀ x, level (body x)) -> level (for_each l body).
Proof.
  intros Hb. induction l as [|x l IH]; simpl; [apply level_ret|]. apply level_bind; [apply Hb|by intros].
Qed.

Create HintDb level discriminated.
#[local] Hint Resolve level_ret level_bind level_if level_when level_gets level_getS level_liftR level_assertS
  level_assert level_fail level_on_net level_lw level_out level_in level_for_each : level.

Ltac level_tac :=
  repeat first [solve [auto with level]|by apply level_modify|apply level_when|apply level_if
               |apply level_bind; [|intros ?]|case_match].

Lemma level_thread : level assertInLoopThread.
Proof. unfold assertInLoopThread. level_tac. Qed.

Lemma level_run f m : level m -> level (runInLoop f m).
Proof. intros Hm. unfold runInLoop, queueInLoop. level_tac. Qed.

#[local] Hint Resolve level_thread level_run : level.

Lemma level_sendInLoop m : level (sendInLoop m).
Proof. unfold sendInLoop, the_channel, on_channel, queueInLoop. level_tac. Qed.

Lemma level_shutdownInLoop : level shutdownInLoop.
Proof. unfold shutdownInLoop, the_channel. level_tac. Qed.

Lemma level_startRead : level startReadInLoop.
Proof. unfold startReadInLoop, the_channel, on_channel, on_conn. level_tac. Qed.

Lemma level_stopRead : level stopReadInLoop.
Proof. unfold stopReadInLoop, the_channel, on_channel, on_conn. level_tac. Qed.

Lemma level_handleError : level handleError.
Proof. unfold handleError, the_channel. level_tac. Qed.

#[local] Hint Resolve level_sendInLoop level_shutdownInLoop level_startRead level_stopRead level_handleError : level.

Lemma level_handleWrite : level handleWrite.
Proof. unfold handleWrite, the_channel, on_channel, queueInLoop. level_tac. Qed.

Lemma level_send m : level (send m).
Proof. unfold send. level_tac. Qed.

Lemma level_shutdown : level shutdown.
Proof.
  unfold shutdown. apply level_leave; [|done|level_tac].
  intros c Hc%bool_decide_eq_true. by rewrite Hc.
Qed.

Lemma closable_open c : closable c = true -> state_ c ≠ kDisconnected.
Proof. unfold closable. intros H Hs. by rewrite Hs in H. Qed.

Lemma level_forceClose : level forceClose.
Proof. unfold forceClose, queueInLoop. apply level_leave; [apply closable_open|done|level_tac]. Qed.

Lemma level_delay seconds : level (forceCloseWithDelay seconds).
Proof. unfold forceCloseWithDelay. apply level_leave; [apply closable_open|done|level_tac]. Qed.

#[local] Hint Resolve level_handleWrite level_send level_shutdown level_forceClose level_delay : level.

Lemma level_api {A} (m : M ConnWorld A) : api uncounted m -> level m.
Proof.
  induction 1 as [| ? ? m k ? IHm ? IHk |f Hf| |m Hm| | |d| | |? m Hm|b|b mk];
    unfold setWriteCompleteCallback, setHighWaterMarkCallback, on_conn, startRead, stopRead;
    try solve [level_tac].
  apply level_modify. intros w. unfold tally. cbn. by rewrite Hf.
Qed.

(** With weight 0: [connectDestroyed()] calls [closeCallback_] in no case. *)
Lemma level_destroyed cb : weight = 0 -> counted cb -> level (connectDestroyed cb).
Proof.
  intros Hw Hcb. unfold connectDestroyed, on_channel, setState, on_conn.
  pose proof (level_api _ (n_connection _ Hcb)). level_tac.
  apply level_modify. intros w. unfold tally. rewrite Hw. by repeat case_bool_decide.
Qed.

Section callbacks.
Context (Hweight : weight = 1).
Context (Hbump : ∀ u, closes (bump u) = S (closes u)).
Context (cb : Callbacks (W := W) (U := U)) (Hcb : counted cb).

Lemma level_handleClose : level (handleClose cb).
Proof using All.
  unfold handleClose. apply level_bind; [level_tac|]. intros [].
  intros w a w' ([] & w1 & Ha & H)%bind_inv. unfold assertS in Ha.
  destruct (closable (conn w)) eqn:Hc; [|done]. injection Ha as <-.
  apply bind_inv in H as ([] & w2 & [= <-] & H). apply bind_inv in H as ([] & w3 & H3 & H).
  apply bind_inv in H as ([] & w4 & H4 & H). destruct (n_close cb Hcb) as (m & Hm & Hapi).
  rewrite Hm in H. apply bind_inv in H as ([] & w5 & [= <-] & H).
  pose proof (level_api _ Hapi _ _ _ H) as E5.
  pose proof (level_api _ (n_connection _ Hcb) _ _ _ H4) as E4.
  assert (E3 : user w3 = user w ∧ state_ (conn w3) = kDisconnected).
  { unfold on_channel in H3. apply bind_inv in H3 as (c & w0 & [= <- <-] & H3).
    unfold zoom in H3. destruct (disableAll _ _) as [[[] x]|]; [|done]. by injection H3 as <-. }
  destruct E3 as [Hu Hs3]. rewrite E5.
  transitivity (tally w4 + 1); [unfold tally; cbn; rewrite Hbump; lia|].
  rewrite E4. unfold tally. rewrite Hu, Hs3, bool_decide_eq_true_2, bool_decide_eq_false_2
    by (done || by apply closable_open). rewrite Hweight. lia.
Qed.

#[local] Hint Resolve level_handleClose : level.

Lemma level_message t : level (messageCallback cb t).
Proof using All. apply level_api, Hcb. Qed.

#[local] Hint Resolve level_message : level.

Lemma level_handleRead t : level (handleRead cb t).
Proof using All. unfold handleRead, the_channel. level_tac. Qed.

Lemma level_forceCloseInLoop : level (forceCloseInLoop cb).
Proof using All. unfold forceCloseInLoop. level_tac. Qed.

Lemma level_functor f : level (run_functor cb f).
Proof using All.
  destruct f; simpl; first [solve [level_tac]|apply level_api, Hcb|apply level_forceCloseInLoop].
Qed.

#[local] Hint Resolve level_handleRead level_functor : level.

Lemma level_closure f t : level (run_closure cb f t).
Proof using All. destruct f; simpl; level_tac. Qed.

#[local] Hint Resolve level_closure : level.

Lemma level_call t f : level (call (run_closure cb) t f).
Proof using All. unfold call. level_tac. Qed.

#[local] Hint Resolve level_call : level.

Lemma level_on_chan p f : level (on_chan (CH := conn_heap) p f).
Proof. unfold on_chan, deref. level_tac. Qed.

Lemma level_deref p : level (deref (CH := conn_heap) p).
Proof. unfold deref. level_tac. Qed.

#[local] Hint Resolve level_on_chan level_deref : level.

Lemma level_ready rev t : level (ready cb rev t).
Proof using All. unfold ready, on_channel, handleEventWithGuard. level_tac. Qed.

Lemma level_elsewhere m : level m -> level (elsewhere m).
Proof. intros Hm. unfold elsewhere. level_tac. Qed.

#[local] Hint Resolve level_ready level_elsewhere : level.

Lemma level_step e : level (step cb e).
Proof using All. destruct e; simpl; level_tac. Qed.

#[local] Hint Resolve level_step : level.

Lemma level_session es : level (session cb es).
Proof using All. unfold session. level_tac. Qed.

Lemma level_established self : level (connectEstablished cb self).
Proof using All.
  unfold connectEstablished. apply level_bind; [level_tac|]. intros [].
  intros w a w' ([] & w1 & Ha & H)%bind_inv. unfold assertS in Ha.
  destruct (bool_decide _) eqn:Hc; [|done]. injection Ha as <-. apply bool_decide_eq_true in Hc.
  apply bind_inv in H as ([] & w2 & [= <-] & H).
  assert (Hl : level (on_channel (λ p, on_chan p (tie self)) ;;; on_channel enableReading ;;; connectionCallback cb)).
  { unfold on_channel. pose proof (level_api _ (n_connection _ Hcb)). level_tac. }
  rewrite (Hl _ _ _ H). unfold tally. cbn. rewrite Hc. done.
Qed.

Lemma counted_harmless : harmless cb.
Proof using Hcb.
  assert (Hw : ∀ {A} (m : M ConnWorld A), api uncounted m -> api anything m)
    by (induction 1; try (by econstructor); by apply api_user).
  destruct Hcb as [H1 H2 (m & Hm & H3) H4 H5]. split; auto.
  rewrite Hm. apply api_bind; [by apply api_user|]. intros []. by apply Hw.
Qed.
End callbacks.
End counting.

(** ** The simulation *)
Section simulation.
#[local] Set Default Proof Using "Type*".
Context {BT : BaseTime} {W : Type} {LO : LoopOps W} {LS : LoopSpec W}
        {SN : SocketNet} {SL : SocketNetLaws SN} {U : Type}.
Implicit Types (w : ConnWorld (W := W) (U := U)) (cb : Callbacks (W := W) (U := U)) (i : Conn).

(** [i] is what the owner sees of a connection that is established. *)
Record linked w i : Prop := {
  lk_inv : conn_inv [] w;
  lk_state : conn_state i = state_ (conn w);
  lk_registered : registered i = true ∧ is_Some (watch w);
  lk_watching : watching i = negb (bool_decide (conn_state i = kDisconnected));
  lk_events : ∀ ch, chan (channel_ (conn w)) (lw w) = Some ch ->
    events_ ch = kNoneEvent ↔ watching i = false ∨ idle i = true;
  lk_idle : conn_handling w = Some false;
}.

Lemma safe_eq {A} (m m' : M (ConnWorld (W := W) (U := U)) A) Q w : m w = m' w -> safe m' Q w -> safe m Q w.
Proof using Type. unfold safe. by intros ->. Qed.

(** What the owner has been told when the state has moved on to [s]. *)
Lemma life_to i s : watching i = negb (bool_decide (conn_state i = kDisconnected)) -> conn_state i ≠ kConnecting ->
  (rank (conn_state i) <= rank s)%nat -> ∃ i', rtc life i i' ∧ conn_state i' = s
    ∧ registered i' = registered i ∧ watching i' = negb (bool_decide (conn_state i' = kDisconnected)).
Proof.
  intros Hw Hc Hr.
  assert (Hclosed : conn_state i = kConnected ∨ conn_state i = kDisconnecting -> s = kDisconnected ->
    ∃ i', rtc life i i' ∧ conn_state i' = s ∧ registered i' = registered i
      ∧ watching i' = negb (bool_decide (conn_state i' = kDisconnected))).
  { intros Ho ->. eexists. split; [apply rtc_once, life_closed; unfold closed; by rewrite bool_decide_eq_true_2|done]. }
  destruct (decide (conn_state i = s)) as [<-|Hne]; [by exists i|].
  destruct (conn_state i) eqn:E; try done.
  - destruct s; simpl in Hr; try lia; done.
  - destruct s; try done; [by apply Hclosed; [left|]|simpl in Hr; lia|].
    exists (shut i). unfold shut. split; [apply rtc_once, life_shut|].
    rewrite E. cbn. by rewrite Hw.
  - destruct s; try done; [by apply Hclosed; [right|]|simpl in Hr; lia|simpl in Hr; lia].
Qed.

Lemma linked_later w i w' : linked w i -> conn_inv [] w' -> later w w' ->
  ∃ i', rtc life i i' ∧ linked w' i'.
Proof.
  intros [] H' [[Hr _ _ _ Hw] Hi].
  assert (Hs : ∀ x : ConnWorld (W := W) (U := U), conn_inv [] x -> state_ (conn x) ≠ kConnecting).
  { intros x [] Hx. destruct co_chan as (ch & _ & _ & Hok). unfold st in Hok. by rewrite Hx in Hok. }
  unfold st in Hr. rewrite <- lk_state0 in Hr.
  destruct (life_to i (state_ (conn w')) lk_watching0) as (i' & Hl & Hst & Hreg & Hwt); [|done|].
  { rewrite lk_state0. by apply Hs. }
  destruct (co_chan _ _ _ H') as (ch & Hch & _ & Hok).
  exists (set_idle (bool_decide (events_ ch = kNoneEvent)) i').
  split; [by eapply rtc_r; [|apply life_idle]|]. destruct lk_registered0. unfold set_idle.
  destruct (watching i') eqn:Ew.
  - split; auto; try by destruct i'; simpl in *; subst.
    { split; [by etrans|auto]. }
    cbn [watching idle]. intros ch' Hc'. destruct Hch. assert (ch' = ch) as -> by congruence.
    rewrite bool_decide_eq_true. split; [by right|by intros [?|?]].
  - split; auto; try congruence; [by split; [etrans|auto]|].
    intros ch' Hc'. destruct Hch. assert (ch' = ch) as -> by congruence.
    case_bool_decide as Hd; [|done]. unfold st in Hok.
    rewrite <- Hst, Hd in Hok. split; [by left|done].
Qed.

Lemma established_linked cb self sockfd p w i i' : harmless cb -> fresh_conn sockfd p w ->
  conn_state i = kConnecting -> established i = Ok i' ->
  safe (connectEstablished cb self) (λ _ w', ∃ i2, rtc life i' i2 ∧ linked w' i2) w.
Proof.
  intros Hcb Hf Hs Hi.
  assert (Hi' : conn_state i' = kConnected ∧ registered i' = true ∧ watching i' = true ∧ idle i' = false).
  { unfold established in Hi. rewrite bool_decide_eq_true_2 in Hi by done. by injection Hi as <-. }
  destruct Hi' as (Hst & Hreg & Hw & Hidle).
  apply (safe_eq _ (connectEstablished (quiet cb) self ;;; connectionCallback cb)); [apply established_split|].
  rewrite safe_bind. apply wp_safe. eapply wp_mono; [by eapply quiet_established|].
  intros _ w1 []. eapply safe_mono; [by eapply (api_keeps _ _ (h_connection _ Hcb))|].
  intros _ w2 [H2 F2%forward_later]. eapply linked_later; [|exact H2|exact F2].
  split; try done; [by rewrite Hst|by rewrite Hst, Hw|].
  intros ch Hc. destruct je_reading as (ch1 & [] & Hev). assert (ch1 = ch) as -> by congruence.
  rewrite Hev, Hw, Hidle. by split; [|intros [?|?]].
Qed.

Lemma linked_live w i : linked w i -> conn_state i ≠ kConnecting.
Proof using Type.
  intros [] Hx. rewrite lk_state0 in Hx. destruct (co_chan _ _ _ lk_inv0) as (ch & _ & _ & Hok).
  unfold st in Hok. by rewrite Hx in Hok.
Qed.

(** What the description says of [connectDestroyed()]: it disconnects a connected
    connection and takes the channel out, unless a channel that is being shut
    down has an event set. *)
Lemma destroyed_cases w i : linked w i ->
  match destroyed i with
  | Ok i' => conn_state i' = kDisconnected ∧ conn_state i ≠ kDisconnecting
      ∨ conn_state i' = kDisconnecting ∧ conn_state i = kDisconnecting ∧ idle i = true
  | Fault e => e = AssertFailed ∧ conn_state i = kDisconnecting ∧ idle i = false
  end.
Proof using Type.
  intros Hl. pose proof (linked_live _ _ Hl) as Hc. destruct Hl as [_ _ [Hreg _] Hw _ _].
  unfold destroyed.
  destruct (decide (conn_state i = kConnected)) as [Hk|Hk];
    [rewrite bool_decide_true by done|rewrite bool_decide_false by done]; cbv zeta;
    cbn [registered watching idle]; rewrite Hreg.
  - simpl. left. by rewrite Hk.
  - rewrite Hw. case_bool_decide as Hd; simpl.
    + left. by rewrite Hd.
    + assert (conn_state i = kDisconnecting) as Hs by (by destruct (conn_state i)).
      destruct (idle i); simpl; [right|]; by rewrite ?Hs.
Qed.

(** The description succeeds. *)
Lemma destroyed_linked cb w i i' : harmless cb -> linked w i -> destroyed i = Ok i' ->
  can_remove (channel_ (conn w)) (lw w) -> conn_state i' = kDisconnected ->
  safe (connectDestroyed cb ;;; TCPConnection_dtor) (λ _ w', loop_ok (lw w')
    ∧ chan (channel_ (conn w)) (lw w') = None) w.
Proof.
  intros Hcb Hl Hd Hcan Hs. pose proof (destroyed_cases _ _ Hl) as H. rewrite Hd in H.
  destruct H as [[_ Hn]|(H & _)]; [|congruence]. destruct Hl as [? Hst [_ Hw] _ _ ?]. rewrite Hst in Hn.
  eapply safe_mono; [by apply destroyed_ok|]. by intros _ w' (? & ? & _).
Qed.

(** A connection that is being shut down, does not read and has no output. *)
Lemma destroyed_idle cb w i i' : linked w i -> destroyed i = Ok i' ->
  can_remove (channel_ (conn w)) (lw w) -> conn_state i' = kDisconnecting ->
  wp (connectDestroyed cb) (λ _ w', conn w' = conn w ∧ watch w' = None
    ∧ TCPConnection_dtor w' = Fault AssertFailed) w.
Proof.
  intros Hl Hd Hcan Hs. pose proof (destroyed_cases _ _ Hl) as H. rewrite Hd in H.
  destruct H as [[H _]|(_ & Hs0 & Hidle)]; [congruence|]. destruct Hl as [H Hst [_ Hw] _ Hev _].
  rewrite Hst in Hs0. destruct (co_chan _ _ _ H) as (ch & [] & _).
  unfold connectDestroyed, assertInLoopThread. rewrite !wp_bind, wp_gets, (co_thread _ _ _ H), wp_ret.
  rewrite wp_bind, wp_gets, wp_bind, wp_when, Hs0, bool_decide_eq_false_2 by done.
  unfold on_channel. rewrite wp_bind, wp_gets, wp_zoom.
  apply remove_wp with (c := ch); [done|done|done|apply Hev; [done|by right]|done|].
  intros x [_ Hx _ _ _ _ _]. split_and!; [done|exact Hx|].
  unfold TCPConnection_dtor, mbind, M_bind, assertS. cbn. by rewrite Hs0.
Qed.

(** The description fails. *)
Lemma destroyed_fails cb w i e : linked w i -> destroyed i = Fault e ->
  connectDestroyed cb w = Fault e.
Proof.
  intros Hl Hd. pose proof (destroyed_cases _ _ Hl) as H. rewrite Hd in H.
  destruct H as (-> & Hs & Hidle). destruct Hl as [H Hst _ Hw Hev _]. rewrite Hst in Hs.
  destruct (co_chan _ _ _ H) as (ch & [] & _).
  apply (destroyed_watching cb w ch); [apply H|by rewrite Hs|done|].
  intros [Hx|Hx]%Hev; [|congruence|done]. by rewrite Hw, Hst, Hs in Hx.
Qed.
End simulation.

Section theorems.
#[local] Set Default Proof Using "Type*".
Context {BT : BaseTime} {W : Type} {LO : LoopOps W} {LS : LoopSpec W}
        {SN : SocketNet} {SL : SocketNetLaws SN} {U : Type}.
Implicit Types (w : ConnWorld (W := W) (U := U)) (cb : Callbacks (W := W) (U := U)) (i : Conn).

(** C14: A connection is what its owner takes it for.  The description of
    ConnLife.v, on which the proofs about TCPServer and TCPClient rest, is
    implemented by TCPConnection.  connectEstablished() on a new connection leads
    to the described state.  Every enabled step of an established connection (as
    in C3: a poll event, a queued functor, a timer, a call of another thread, with
    the callbacks) is a sequence of shutdowns, closes and changes of [idle] of the
    description, which stays linked to the connection.  connectDestroyed(), outside
    the handling of events, does what the description says: where that ends in
    kDisconnected, it and the destructor succeed; where it ends in kDisconnecting
    -- reading is stopped and no output waits -- it succeeds but the destructor's
    assertion fails; and where the description fails, it fails the same way. *)
Theorem connection_implements_life cb self sockfd p w i : harmless cb ->
  (∀ i', fresh_conn sockfd p w -> conn_state i = kConnecting -> established i = Ok i' ->
     safe (connectEstablished cb self) (λ _ w', ∃ i2, rtc life i' i2 ∧ linked w' i2) w)
  ∧ (∀ e, linked w i -> enabled e w = true ->
     safe (step cb e) (λ _ w', ∃ i2, rtc life i i2 ∧ linked w' i2) w)
  ∧ (linked w i -> can_remove (channel_ (conn w)) (lw w) ->
     match destroyed i with
     | Ok i' =>
         if bool_decide (conn_state i' = kDisconnected)
         then safe (connectDestroyed cb ;;; TCPConnection_dtor) (λ _ w', loop_ok (lw w')
                ∧ chan (channel_ (conn w)) (lw w') = None) w
         else wp (connectDestroyed cb) (λ _ w', state_ (conn w') = conn_state i'
                ∧ watch w' = None ∧ TCPConnection_dtor w' = Fault AssertFailed) w
     | Fault f => connectDestroyed cb w = Fault f
     end).
Proof.
  intros Hcb. split_and!.
  - intros i'. by apply established_linked.
  - intros e Hl He. eapply safe_mono; [apply conn_step_ok; [..|apply Hl|exact He]; intros; eapply api_keeps, Hcb|].
    intros _ w' [H' L']. by eapply linked_later.
  - intros Hl Hcan. pose proof (destroyed_cases _ _ Hl) as H.
    destruct (destroyed i) as [i'|f] eqn:Hd; [|by eapply destroyed_fails].
    case_bool_decide as Hs; [by eapply destroyed_linked|].
    destruct H as [[? _]|(Hs' & Hs0 & _)]; [done|].
    eapply wp_mono; [by eapply destroyed_idle|]. intros _ w' (-> & ? & ?).
    by rewrite Hs', <- Hs0, (lk_state _ _ Hl).
Qed.

(** C38: closeCallback_ is called once.  Let the user's data count the calls of
    closeCallback_, which may then do what it likes, as the other callbacks may.
    Between connectEstablished() and connectDestroyed(), whatever happens (as in C3),
    a connection that is not closed has called closeCallback_ not at all, and a
    closed one exactly once: the server removes every connection that is closed,
    and none twice.  connectDestroyed() then never calls it, also
    where it makes a connected connection disconnected. *)
Theorem close_reported_once (closes : U -> nat) (bump : U -> U) cb self es sockfd p w :
  (∀ u, closes (bump u) = S (closes u)) -> counted closes bump cb -> fresh_conn sockfd p w ->
  closes (user w) = 0%nat ->
  safe (connectEstablished cb self ;;; session cb es) (λ _ w',
    closes (user w') = (if bool_decide (state_ (conn w') = kDisconnected) then 1%nat else 0%nat)
    ∧ ∀ w2, connectDestroyed cb w' = Ok (tt, w2) -> closes (user w2) = closes (user w')) w.
Proof.
  intros Hb Hc Hf H0. pose proof (counted_harmless closes bump cb Hc) as Hcb.
  pose proof (life_ok cb self es sockfd p w Hcb Hf) as Hs.
  unfold safe in *. destruct ((connectEstablished cb self ;;; session cb es) w) as [[[] w']|] eqn:E; [|done].
  assert (Hl : level closes 1 (connectEstablished cb self ;;; session cb es)).
  { apply level_bind; [by eapply level_established|]. intros. by eapply level_session. }
  pose proof (Hl _ _ _ E) as Ht. unfold tally in Ht.
  destruct (ctor_spec _ _ _ (fr_conn _ _ _ Hf)) as (Hst & _).
  rewrite H0, Hst in Ht. rewrite (bool_decide_eq_false_2 (kConnecting = _)) in Ht by done.
  split; [case_bool_decide; lia|]. intros w2 Hd.
  pose proof (level_destroyed closes bump 0 cb eq_refl Hc _ _ _ Hd) as Ht2.
  unfold tally in Ht2. repeat case_bool_decide; lia.
Qed.
End theorems.

(** ** Witnesses: an echo connection that counts *)
#[local] Existing Instance tiny_epoll.
#[local] Existing Instance lb_net.

Definition counting_callbacks : Callbacks (W := PollerWorld) (U := nat) := {|
  connectionCallback := mret tt;
  messageCallback := λ _, m ← zoom inL retrieveAllAsString; send (take 1000 m);
  closeCallback := note_close S ;;; mret tt;
  writeComplete := mret tt;
  highWater := λ _, forceClose;
|}.

Lemma counting_counted : counted (λ n, n) S counting_callbacks.
Proof.
  split; intros; try apply api_ret; [|by exists (mret tt); split; [|apply api_ret]|apply api_forceClose].
  apply api_bind.
  - apply api_input. intros b Hb. apply wp_safe, retrieveAllAsString_wp; [done|]. by intros.
  - intros m. apply api_send. rewrite length_take. unfold vector_max_size. lia.
Qed.

Definition closing_session : list event :=
  [EvReady POLLIN (tick 1); EvForceClose; EvForceClose; EvFunctor; EvFunctor].

Lemma close_reported_once_witness : ∃ w',
  (connectEstablished counting_callbacks 9%positive ;;; session counting_callbacks closing_session)
    (new_world 0%nat 4 [str "hello"]) = Ok (tt, w')
  ∧ state_ (conn w') = kDisconnected ∧ user w' = 1%nat
  ∧ ∀ w2, connectDestroyed counting_callbacks w' = Ok (tt, w2) -> user w2 = 1%nat.
Proof.
  destruct (session_ends counting_callbacks closing_session 0%nat 4 [str "hello"] (λ w, state_ (conn w)) kDisconnected
    (counted_harmless (λ n, n) S _ counting_counted)) as (w & Hr & _ & Hs & _).
  { vm_compute. reflexivity. }
  exists w. split; [exact Hr|]. split; [exact Hs|].
  pose proof (close_reported_once (λ n, n) S counting_callbacks 9%positive closing_session 5 1%positive
    (new_world 0%nat 4 [str "hello"]) (λ _, eq_refl) counting_counted (new_fresh 0%nat 4 [str "hello"]) eq_refl) as H.
  unfold safe in H. rewrite Hr, bool_decide_eq_true_2 in H by exact Hs.
  destruct H as [H1 H2]. split; [exact H1|]. intros w2 Hd. rewrite <- H1. exact (H2 w2 Hd).
Defined.

(** Established, shut down by another thread, closed by the peer, destroyed. *)
Lemma connection_implements_life_witness :
  let i := new_conn (str "c") 0 in
  safe (connectEstablished echo_callbacks 9%positive) (λ _ w1, ∃ i1,
    (∃ i', established i = Ok i' ∧ rtc life i' i1) ∧ linked w1 i1
    ∧ safe (step echo_callbacks EvShutdown) (λ _ w2, ∃ i2, rtc life i1 i2 ∧ linked w2 i2
        ∧ (destroyed i2 = Fault AssertFailed -> connectDestroyed echo_callbacks w2 = Fault AssertFailed)) w1)
    (echo_world 4 []).
Proof.
  pose proof (λ w i, connection_implements_life echo_callbacks 9%positive 5 1%positive w i echo_harmless) as H.
  intros i. destruct (H (echo_world 4 []) i) as (H1 & _).
  eapply safe_mono; [exact (H1 _ (echo_fresh 4 []) eq_refl eq_refl)|].
  intros _ w1 (i1 & Hl & Hk). exists i1. split; [by eexists|]. split; [exact Hk|].
  destruct (H w1 i1) as (_ & H2 & _). eapply safe_mono; [exact (H2 EvShutdown Hk eq_refl)|].
  intros _ w2 (i2 & Hl2 & Hk2). exists i2. split; [exact Hl2|]. split; [exact Hk2|].
  intros Hd. destruct (H w2 i2) as (_ & _ & H3). specialize (H3 Hk2 I). by rewrite Hd in H3.
Defined.
