(* ===== verification/HttpServer.v ===== *)
(** * HttpServer: answering requests on a connection (HttpServer.h, HttpServer.cc)

    The server's callbacks run on the connection model.  The user data of
    [ConnWorld] is the connection's context -- the parser of the request that is
    being received, once [onConnection] has put it there -- and the state [A] of
    the object that the user's callback belongs to. *)

From Stdlib Require Import ZArith Lia.
From stdpp Require Import gmap list.
From S2P Require Import Prelude Bytes Base Buffer HttpRequest HttpContext HttpResponse.
From S2P Require Import Channel EPollPoller TCPConnection TCPConnectionInv TCPConnectionProps.

Local Open Scope Z_scope.

(** [detail::defaultHttpCallback]. *)
Definition defaultHttpCallback {BT : BaseTime} (req : HttpRequest) : M HttpResponse unit :=
  setStatusCode k404NotFound ;;;
  setStatusMessage (str "Not Found") ;;;
  setCloseConnection true.

Section server.
Context {BT : BaseTime} {W : Type} {LO : LoopOps W} {SN : SocketNet}.
Context {A : Type} (httpCallback : HttpRequest -> M (A * HttpResponse) unit).

Abbreviation World := (ConnWorld (W := W) (U := option HttpContext * A)).

(** The context and the object behind the callback. *)
Definition put_context (c : option HttpContext) (w : World) : World := {| w with user := (c, snd (user w)) |}.
Definition put_object (a : A) (w : World) : World := {| w with user := (fst (user w), a) |}.

(** A computation on an object of its own. *)
Definition local_object {S B} (s : S) (m : M S B) : M World (B * S) := liftR (λ _, m s).

Definition onConnection : M World unit :=
  c ← gets conn;
  whenM (connected c) (modify (put_context (Some HttpContext_ctor))).

(** What the request asks for. *)
Definition wants_close (req : HttpRequest) : bool :=
  let connection := getHeader (str "Connection") req in
  bool_decide (connection = str "close")
  || (bool_decide (version_ req = kHttp10) && negb (bool_decide (connection = str "Keep-Alive"))).

Definition onRequest (req : HttpRequest) : M World unit :=
  a ← gets (λ w, snd (user w));
  '(_, (a, response)) ← local_object (a, HttpResponse_ctor (wants_close req)) (httpCallback req);
  modify (put_object a) ;;;
  buf ← liftR (λ _, Buffer_ctor kInitialSize);
  '(_, buf) ← local_object buf (appendToBuffer response);
  _ ← send_buffer buf;
  whenM (closeConnection response) shutdown.

(** The context and the input buffer, as the arguments of [parseRequest]. *)
Definition parserL : lens World (HttpContext * Buffer) :=
  Lens (λ w, (default HttpContext_ctor (fst (user w)), inputBuffer_ (conn w)))
       (λ s w, {| (put_context (Some (fst s)) w) with conn := {| (conn w) with inputBuffer_ := snd s |} |}).

(** [any_cast] gives a null pointer when there is no context. *)
Definition onMessage (receiveTime : Timestamp) : M World unit :=
  context ← gets (λ w, fst (user w));
  match context with
  | None => failM OutOfBounds
  | Some _ =>
      ok ← zoom parserL (parseRequest receiveTime);
      whenM (negb ok)
        (send (str "HTTP/1.1 400 Bad Request" ++ kCRLF ++ kCRLF) ;;; shutdown) ;;;
      '(context, _) ← gets (view parserL);
      whenM (gotAll context)
        (onRequest (request_ context) ;;;
         zoom parserL (zoom ctxL reset))
  end.

(** The callbacks [HttpServer] registers; the others are the defaults. *)
Definition http_callbacks : Callbacks (W := W) (U := option HttpContext * A) := {|
  connectionCallback := onConnection;
  messageCallback := onMessage;
  closeCallback := mret tt;
  writeComplete := mret tt;
  highWater := λ _, mret tt;
|}.
End server.

(** A callback that does not use the object. *)
Definition stateless {BT : BaseTime} {A : Type} (cb : HttpRequest -> M HttpResponse unit) (req : HttpRequest)
    : M (A * HttpResponse) unit :=
  zoom (Lens snd (λ r s, (fst s, r))) (cb req).

(** ** Sending one buffer *)
Section answers.
#[local] Set Default Proof Using "Type*".
Context {BT : BaseTime} {W : Type} {LO : LoopOps W} {LS : LoopSpec W}
        {SN : SocketNet} {SL : SocketNetLaws SN} {A : Type}.
Abbreviation World := (ConnWorld (W := W) (U := option HttpContext * A)).
Implicit Types w : World.

(** What an answer changes that can be seen from the outside. *)
Record answered X w (m : bytes) (s : StateE) w' : Prop := {
  an_inv : conn_inv X w';
  an_offered : offered w' = offered w ++ [m];
  an_state : TCPConnection.state_ (conn w') = s;
  an_input : inputBuffer_ (conn w') = inputBuffer_ (conn w);
  an_user : user w' = user w;
  an_forward : forward w w';
  an_whole : whole w';
}.

Lemma closable_connected w : TCPConnection.state_ (conn w) = kConnected -> closable (conn w) = true.
Proof using Type. intros H. unfold closable. by rewrite H. Qed.

Lemma sendInLoop_answer X w m : conn_inv X w -> TCPConnection.state_ (conn w) = kConnected ->
  zlength m <= vector_max_size ->
  safe (sendInLoop m) (λ _ w', answered X w m kConnected w') w.
Proof.
  intros H Hs Hm. eapply safe_mono.
  { apply safe_conj; [by apply sendInLoop_keeps|by apply (sendInLoop_sent X); [|apply closable_connected|]]. }
  intros [] w' [[H' F'] Hsent]. destruct (send_spec w m) as [[rest notes] n'].
  destruct Hsent. assert (Hs' : st w' = kConnected) by (unfold st; congruence).
  split; try done. by apply (whole_connected X).
Qed.

Lemma send_answer X w m : conn_inv X w -> TCPConnection.state_ (conn w) = kConnected ->
  zlength m <= vector_max_size ->
  safe (send m) (λ _ w', answered X w m kConnected w') w.
Proof.
  intros H Hs Hm. unfold send. rewrite safe_bind, safe_gets, bool_decide_eq_true_2 by done.
  cbn [whenM]. unfold runInLoop. rewrite safe_bind, safe_gets, (co_thread _ _ _ H).
  by apply sendInLoop_answer.
Qed.

Lemma send_buffer_answer X w b : conn_inv X w -> TCPConnection.state_ (conn w) = kConnected ->
  wf b -> safe (send_buffer b) (λ _ w', answered X w (content b) kConnected w') w.
Proof.
  intros H Hs Hb. unfold send_buffer. rewrite safe_bind, safe_gets, bool_decide_eq_true_2 by done.
  rewrite safe_bind, safe_gets, (co_thread _ _ _ H), safe_bind.
  unfold liftR at 1, safe at 1. rewrite read_mem_all by done. rewrite safe_bind.
  assert (Hlen : zlength (content b) <= vector_max_size).
  { rewrite content_length, wf_readable by done. destruct Hb; lia. }
  eapply safe_mono; [by apply sendInLoop_answer|]. intros [] w' Ha.
  rewrite safe_bind. unfold liftR, safe at 1.
  assert (Hr : wp retrieveAll (λ _ _, True) b) by (by apply retrieveAll_wp).
  unfold wp in Hr. by destruct (retrieveAll b) as [[[] b']|].
Qed.

Lemma parser_put X w c b : conn_inv X w -> wf b ->
  conn_inv X (upd parserL (c, b) w).
Proof.
  intros H Hb. destruct (owing_conn X [] w {| (conn w) with inputBuffer_ := b |} H) as [H1 _]; try done.
  by eapply owing_ext; try exact H1; try done; auto.
Qed.

(** ** Answering a request *)
Context (httpCallback : HttpRequest -> M (A * HttpResponse) unit).

Lemma put_object_inv X w a : conn_inv X w -> conn_inv X (put_object a w).
Proof. intros H. eapply owing_ext; try exact H; try done; auto. Qed.

(** The request object, the local buffer and the bytes printed into it. *)
Lemma onRequest_answer X w req a r : conn_inv X w -> TCPConnection.state_ (conn w) = kConnected ->
  httpCallback req (snd (user w), HttpResponse_ctor (wants_close req)) = Ok (tt, (a, r)) -> printable r ->
  safe (onRequest httpCallback req) (λ _ w', answered X (put_object a w) (response_bytes r)
    (if closeConnection r then kDisconnecting else kConnected) w') w.
Proof.
  intros H Hs Hcb Hp. unfold onRequest. rewrite safe_bind, safe_gets, safe_bind.
  unfold local_object at 1, liftR at 1, safe at 1. rewrite Hcb. rewrite safe_bind, safe_modify.
  apply (put_object_inv X w a) in H. set (w0 := put_object a w) in *.
  change (TCPConnection.state_ (conn w)) with (TCPConnection.state_ (conn w0)) in Hs.
  destruct (Buffer_ctor_represents kInitialSize) as (b & Hb & [Hwf Hc _] & _); [done|by vm_compute|].
  rewrite safe_bind. unfold liftR at 1, safe at 1. rewrite Hb, safe_bind.
  pose proof (appendToBuffer_prints r b Hwf Hp) as Ha.
  unfold local_object, liftR, safe at 1. unfold safe in Ha.
  destruct (appendToBuffer r b) as [[[] b1]|]; [|done].
  destruct Ha as [Hwf1 Hc1]. rewrite Hc in Hc1. simpl in Hc1.
  rewrite safe_bind. eapply safe_mono; [by apply (send_buffer_answer X)|]. rewrite Hc1.
  intros b2 w1 [H1 Ho Hs1 Hi Hu F1 Hw1]. rewrite safe_when.
  destruct (closeConnection r); [|done].
  eapply safe_mono; [by apply (shutdown_done X)|].
  intros [] w2 (H2 & Hc2 & Hu2 & Ho2 & F2).
  split; [done|congruence|by rewrite Hc2|by rewrite Hc2|congruence|by eapply forward_trans|].
  by eapply whole_later; [exact Hw1|done|apply F2|].
Qed.

(** [onMessage] when the buffer holds one whole request. *)
Lemma onMessage_answer X w t c b a r : conn_inv X w -> TCPConnection.state_ (conn w) = kConnected ->
  is_Some (fst (user w)) -> parseRequest t (view parserL w) = Ok (true, (c, b)) -> gotAll c = true ->
  httpCallback (request_ c) (snd (user w), HttpResponse_ctor (wants_close (request_ c))) = Ok (tt, (a, r)) ->
  printable r ->
  safe (onMessage httpCallback t) (λ _ w', conn_inv X w'
    ∧ offered w' = offered w ++ [response_bytes r]
    ∧ TCPConnection.state_ (conn w') = (if closeConnection r then kDisconnecting else kConnected)
    ∧ inputBuffer_ (conn w') = b ∧ user w' = (Some HttpContext_ctor, a) ∧ forward w w' ∧ whole w') w.
Proof.
  intros H Hs [c0 Hu] Hp Hg Hcb Hpr.
  assert (Hwb : wf b) by (eapply parseRequest_wf; [|exact Hp]; apply H).
  unfold onMessage. rewrite safe_bind, safe_gets, Hu, safe_bind.
  unfold safe at 1. rewrite (zoom_ok _ _ _ _ _ Hp). set (w1 := upd parserL (c, b) w).
  pose proof (parser_put X w c b H Hwb) as H1. fold w1 in H1.
  rewrite safe_bind, safe_when. cbn [negb]. rewrite safe_bind, safe_gets.
  change (view parserL w1) with (c, b). rewrite safe_when, Hg, safe_bind.
  eapply safe_mono; [by apply (onRequest_answer X w1 (request_ c) a r)|].
  intros [] w2 [H2 Ho Hs2 Hi Hu2 F2 Hw2]. rewrite safe_zoom. unfold safe.
  change (view parserL w2) with (default HttpContext_ctor (fst (user w2)), inputBuffer_ (conn w2)).
  rewrite Hu2, Hi. unfold zoom, reset. cbn. split_and!; try done.
  - apply parser_put; [done|]. exact Hwb.
  - by rewrite Hu2.
  - apply (forward_trans w (put_object a w1)); [done|]. by apply (forward_trans _ w2).
Qed.
End answers.








(** ** Properties *)

(** A request is answered.  When one complete request (of the grammar of
    [render]) is in the input buffer of a connected client whose context is a
    fresh parser, onMessage() sends exactly the bytes of the response that the
    callback made for exactly this request -- whose closing flag starts out set
    iff the request says "Connection: close", or is HTTP/1.0 without
    "Connection: Keep-Alive" -- then shuts the connection down iff the response
    says so, and leaves the buffer empty, the context a fresh parser and the
    connection's invariant intact. *)
Theorem http_answers {BT : BaseTime} {W} {LO : LoopOps W} {LS : LoopSpec W} {SN : SocketNet}
    {SL : SocketNetLaws SN} {A : Type} httpCallback X
    (w : ConnWorld (W := W) (U := option HttpContext * A)) t m path query v hs body a r :
  conn_inv X w -> TCPConnection.state_ (conn w) = kConnected -> fst (user w) = Some HttpContext_ctor ->
  m ≠ kInvalid -> v ≠ HttpRequest.kUnknown -> valid_target path query -> Forall valid_header hs ->
  content (inputBuffer_ (conn w)) = render m path query v hs body ->
  let req := mkRequest m v path query t (headers_of hs ∅) body in
  let connection := default [] (headers_of hs ∅ !! str "Connection") in
  let close := bool_decide (connection = str "close")
    || bool_decide (v = kHttp10) && negb (bool_decide (connection = str "Keep-Alive")) in
  httpCallback req (snd (user w), HttpResponse_ctor close) = Ok (tt, (a, r)) -> printable r ->
  safe (onMessage httpCallback t) (λ _ w', conn_inv X w'
    ∧ offered w' = offered w ++ [response_bytes r]
    ∧ TCPConnection.state_ (conn w') = (if closeConnection_ r then kDisconnecting else kConnected)
    ∧ content (inputBuffer_ (conn w')) = [] ∧ user w' = (Some HttpContext_ctor, a)) w.
Proof.
  intros H Hs Hu Hm Hv Ht Hh Hc req connection close Hcb Hr.
  destruct (parse_rendered t (inputBuffer_ (conn w)) m path query v hs body) as
    (c & b & Hp & Hg & Hb & Hreq); [apply H|done..|].
  eapply safe_mono.
  - apply (onMessage_answer httpCallback X w t c b a r); try done.
    + simpl. by rewrite Hu.
    + by rewrite Hreq.
  - by intros [] w' (? & ? & ? & -> & ? & _).
Qed.

(** A rejected request, and what comes after it.  When onMessage() rejects a
    request line that begins with a known method, it sends the 400 response and
    shuts the sending side down; but the line stays in the buffer and its method
    in the context, so the next bytes that arrive make onMessage() fail the
    assertion of HttpRequest::setMethod(): any client can stop a debug build. *)
Theorem rejected_request_aborts {BT : BaseTime} {W} {LO : LoopOps W} {LS : LoopSpec W}
    {SN : SocketNet} {SL : SocketNetLaws SN} {A : Type} httpCallback X
    (w : ConnWorld (W := W) (U := option HttpContext * A)) t c b :
  conn_inv X w -> TCPConnection.state_ (conn w) = kConnected -> fst (user w) = Some HttpContext_ctor ->
  parseRequest t (HttpContext_ctor, inputBuffer_ (conn w)) = Ok (false, (c, b)) ->
  method_ (request_ c) ≠ kInvalid ->
  safe (onMessage httpCallback t) (λ _ w1, conn_inv X w1
    ∧ offered w1 = offered w ++ [str "HTTP/1.1 400 Bad Request" ++ kCRLF ++ kCRLF]
    ∧ TCPConnection.state_ (conn w1) = kDisconnecting
    ∧ ∀ t2 b2 more, wf b2 -> content b2 = content (inputBuffer_ (conn w)) ++ more ->
        onMessage httpCallback t2 (upd inL b2 w1) = Fault AssertFailed) w.
Proof.
  intros H Hs Hu Hp Hm. pose proof (co_in _ _ _ H) as Hwf.
  destruct (parse_rejected t _ c b Hwf Hp) as (Hcb & Hst & Hagain).
  rewrite bool_decide_eq_false_2 in Hagain by done.
  assert (Hwb : wf b) by (by eapply parseRequest_wf).
  unfold onMessage at 1. rewrite safe_bind, safe_gets, Hu, safe_bind.
  assert (Hv : view parserL w = (HttpContext_ctor, inputBuffer_ (conn w))) by (simpl; by rewrite Hu).
  rewrite <- Hv in Hp. unfold safe at 1. rewrite (zoom_ok _ _ _ _ _ Hp).
  set (w1 := upd parserL (c, b) w). pose proof (parser_put X w c b H Hwb) as H1. fold w1 in H1.
  rewrite safe_bind, safe_when. cbn [negb]. rewrite safe_bind.
  eapply safe_mono; [by apply (send_answer X)|]. intros [] w2 [H2 Ho Hs2 Hi Hu2 _].
  eapply safe_mono; [by apply (shutdown_done X)|]. intros [] w3 (H3 & Hc3 & Hu3 & Ho3 & _).
  rewrite safe_bind, safe_gets.
  assert (Hv3 : view parserL w3 = (c, b)) by (simpl; by rewrite Hu3, Hu2, Hc3; simpl; rewrite Hi).
  rewrite Hv3, safe_when. unfold gotAll. rewrite Hst. cbn.
  split_and!; [done|by rewrite Ho3|by rewrite Hc3|].
  intros t2 b2 more Hb2 Hc2. unfold onMessage.
  assert (Hu4 : fst (user (upd inL b2 w3)) = Some c) by (simpl; by rewrite Hu3, Hu2).
  rewrite (bind_ok _ _ _ (Some c) (upd inL b2 w3)) by exact (f_equal (λ x, Ok (x, upd inL b2 w3)) Hu4).
  unfold mbind, M_bind, zoom.
  assert (Hv4 : view parserL (upd inL b2 w3) = (c, b2)) by (simpl in *; by rewrite Hu4).
  rewrite Hv4, (Hagain t2 b2 more); [done|done|by rewrite Hcb].
Qed.



(** ** Witnesses *)
#[local] Existing Instance tiny_epoll.
#[local] Existing Instance lb_net.

(** Callbacks that give a new connection its context and leave the input in the
    buffer, so that [onMessage] can be called on the result. *)
Definition waiting : Callbacks (W := PollerWorld) (U := option HttpContext * unit) := {|
  connectionCallback := modify (put_context (Some HttpContext_ctor));
  messageCallback := λ _, mret tt;
  closeCallback := mret tt;
  writeComplete := mret tt;
  highWater := λ _, mret tt;
|}.

Lemma waiting_harmless : harmless waiting.
Proof.
  split; intros; try apply api_ret.
  exact (api_user _ (λ u, (Some HttpContext_ctor, snd u)) I).
Qed.

(** A client's connection on which [input] has arrived. *)
Lemma arrived input s : 
  match (connectEstablished waiting 9%positive ;;; session waiting [EvReady POLLIN (tick 1)])
          (new_world (None, tt) 100 [input]) with
  | Ok (_, w) => Some (TCPConnection.state_ (conn w), user w, content (inputBuffer_ (conn w)))
  | Fault _ => None
  end = Some s ->
  ∃ w : ConnWorld (W := PollerWorld) (U := option HttpContext * unit), conn_inv [] w
    ∧ (TCPConnection.state_ (conn w), user w, content (inputBuffer_ (conn w))) = s.
Proof.
  intros Hs. destruct (session_ends waiting [EvReady POLLIN (tick 1)] (None, tt) 100 [input]
    (λ w, (TCPConnection.state_ (conn w), user w, content (inputBuffer_ (conn w)))) s waiting_harmless Hs)
    as (w & _ & H & Hf & _). by exists w.
Qed.

Lemma http_answers_witness :
  let hs := [HeaderLine (str "Connection") (str " ") (str "close") []] in
  let r := mkResponse [] k404NotFound (str "Not Found") true [] in
  ∃ w : ConnWorld (W := PollerWorld) (U := option HttpContext * unit),
    content (inputBuffer_ (conn w)) = render kGet (str "/x") [] kHttp11 hs []
    ∧ safe (onMessage (stateless defaultHttpCallback) (tick 3)) (λ _ w',
        offered w' = offered w ++ [response_bytes r]
        ∧ TCPConnection.state_ (conn w') = kDisconnecting
        ∧ content (inputBuffer_ (conn w')) = []) w.
Proof.
  intros hs r.
  destruct (arrived (render kGet (str "/x") [] kHttp11 hs [])
    (kConnected, (Some HttpContext_ctor, tt), render kGet (str "/x") [] kHttp11 hs [])) as (w & H & Hw).
  { vm_compute. reflexivity. }
  injection Hw as Hs Hu Hc. exists w. split; [exact Hc|].
  eapply safe_mono; [apply (http_answers (stateless defaultHttpCallback) [] w (tick 3) kGet (str "/x") [] kHttp11 hs [] tt r)|].
  - exact H.
  - exact Hs.
  - by rewrite Hu.
  - done.
  - done.
  - split_and!; try (apply memchr_None; reflexivity). by left.
  - repeat constructor; simpl; try (apply memchr_None; reflexivity); intros c [= <-]; reflexivity.
  - exact Hc.
  - rewrite Hu. vm_compute. reflexivity.
  - by split; [vm_compute|constructor|vm_compute].
  - intros [] w' (_ & ? & ? & ? & _). done.
Defined.

Lemma rejected_request_aborts_witness :
  let bad := str "GET /" ++ kCRLF in
  ∃ w : ConnWorld (W := PollerWorld) (U := option HttpContext * unit),
    content (inputBuffer_ (conn w)) = bad
    ∧ safe (onMessage (stateless defaultHttpCallback) (tick 3)) (λ _ w1,
        TCPConnection.state_ (conn w1) = kDisconnecting
        ∧ ∀ t2 b2 more, wf b2 -> content b2 = content (inputBuffer_ (conn w)) ++ more ->
          onMessage (stateless defaultHttpCallback) t2 (upd inL b2 w1) = Fault AssertFailed) w.
Proof.
  intros bad. destruct (arrived bad (kConnected, (Some HttpContext_ctor, tt), bad)) as (w & H & Hw).
  { vm_compute. reflexivity. }
  injection Hw as Hs Hu Hc. exists w. split; [exact Hc|].
  pose proof (parseRequest_pparse (tick 3) HttpContext_ctor (inputBuffer_ (conn w)) (co_in _ _ _ H)) as Hp.
  rewrite Hc in Hp.
  destruct (parseRequest (tick 3) (HttpContext_ctor, inputBuffer_ (conn w))) as [[ok [c b]]|f] eqn:E;
    [|vm_compute in Hp; discriminate].
  cbn [HttpContext.observe] in Hp.
  assert (ok = false ∧ method_ (request_ c) = kGet) as [-> Hm].
  { vm_compute in Hp. injection Hp as -> -> _. done. }
  eapply safe_mono; [apply (rejected_request_aborts (stateless defaultHttpCallback) [] w (tick 3) c b H Hs (f_equal fst Hu) E)|].
  - by rewrite Hm.
  - intros [] w1 (_ & _ & Hs1 & Hab). split; [exact Hs1|exact Hab].
Defined.

