(* ===== verification/HttpWellFormed.v ===== *)
(** * Requests are well formed

    What the application may take for granted about a request that the parser
    hands over, whatever bytes the client sent and in whatever portions. *)

From Stdlib Require Import ZArith Lia.
From stdpp Require Import gmap list.
From S2P Require Import Prelude Bytes Base HttpRequest Buffer HttpContext.

Local Open Scope Z_scope.

(** ** Lines *)
Definition one_line (l : bytes) : Prop := ∀ l1 l2, l ≠ l1 ++ kCRLF ++ l2.

Lemma one_line_infix a l b : one_line (a ++ l ++ b) -> one_line l.
Proof. intros H l1 l2 ->. apply (H (a ++ l1) (l2 ++ b)). by rewrite <- !app_assoc. Qed.

Lemma one_line_take n l : one_line l -> one_line (take n l).
Proof. intros H. apply (one_line_infix [] _ (drop n l)). simpl. by rewrite take_drop. Qed.

Lemma one_line_drop n l : one_line l -> one_line (drop n l).
Proof. intros H. apply (one_line_infix (take n l) _ []). by rewrite app_nil_r, take_drop. Qed.

Lemma line_one_line l i : memmem kCRLF l = Some i -> one_line (take i l).
Proof.
  intros Hi l1 l2 Heq. assert (Hlen : (length l1 < i)%nat).
  { pose proof (f_equal length Heq) as Hl. rewrite length_take, !length_app in Hl. simpl in Hl. lia. }
  pose proof (memmem_first _ _ _ _ Hi Hlen) as Hf.
  rewrite <- (take_drop i l), Heq, <- !app_assoc, drop_app_length in Hf. done.
Qed.

(** ** Trimming *)
Lemma rtrim_loop_split fuel v : (length v <= fuel)%nat ->
  (∃ ws, v = rtrim_loop fuel v ++ ws) ∧ ∀ c, last (rtrim_loop fuel v) = Some c -> isspace c = false.
Proof.
  revert v. induction fuel as [|fuel IH]; intros v Hl; simpl.
  - destruct v; [|simpl in Hl; lia]. split; [by exists []|done].
  - destruct (last v) as [c|] eqn:E.
    + apply last_Some in E as [v' ->]. rewrite length_app in *. simpl in *. replace (_ - 1)%nat with (length v') by lia.
      rewrite take_app_length. destruct (isspace c) eqn:Hc.
      * destruct (IH v') as [[ws Hws] Hlast]; [lia|]. split; [|done].
        exists (ws ++ [c]). by rewrite app_assoc, <- Hws.
      * split; [exists []; by rewrite app_nil_r|]. rewrite last_snoc. by intros d [= <-].
    + split; [exists []; by rewrite app_nil_r|]. by rewrite E.
Qed.

Lemma drop_while_split v : (∃ ws, v = ws ++ drop_while isspace v)
  ∧ ∀ c, head (drop_while isspace v) = Some c -> isspace c = false.
Proof.
  induction v as [|c v [[ws Hws] Hh]]; simpl; [by split; [exists []|]|].
  destruct (isspace c) eqn:Hc.
  - split; [|done]. exists (c :: ws). simpl. by rewrite <- Hws.
  - split; [by exists []|]. by intros d [= <-].
Qed.

Definition header_value (v : bytes) : bytes := rtrim (drop_while isspace v).

Lemma header_value_trimmed v : trimmed (header_value v).
Proof.
  destruct (rtrim_loop_split _ (drop_while isspace v) (le_n _)) as [[ws Hws] Hl]. split; [|exact Hl].
  intros c Hc. apply (proj2 (drop_while_split v)). unfold header_value, rtrim in Hc. rewrite Hws.
  by destruct (rtrim_loop _ _).
Qed.

Lemma header_value_one_line v : one_line v -> one_line (header_value v).
Proof.
  destruct (proj1 (drop_while_split v)) as [ws Hws].
  destruct (proj1 (rtrim_loop_split _ (drop_while isspace v) (le_n _))) as [ws' Hws'].
  intros H. rewrite Hws, Hws' in H. by eapply one_line_infix.
Qed.

(** ** Requests *)
Section well_formed.
#[local] Set Default Proof Using "Type".
Context {BT : BaseTime}.

Record request_ok (r : HttpRequest) : Prop := {
  rq_method : method_ r ≠ kInvalid;
  rq_version : version_ r ≠ kUnknown;
  rq_target : (ch_space ∉ path_ r ++ query_ r) ∧ one_line (path_ r ++ query_ r);
  rq_path : ch_question ∉ path_ r;
  rq_query : query_ r = [] ∨ head (query_ r) = Some ch_question;
  rq_names : ∀ k v, headers_ r !! k = Some v -> (ch_colon ∉ k) ∧ one_line k;
  rq_values : ∀ k v, headers_ r !! k = Some v -> trimmed v ∧ one_line v;
}.

(** Before the request line there are no headers, and no query unless a line was
    rejected after its method. *)
Definition context_ok (c : HttpContext) : Prop :=
  match state_ c with
  | kExpectRequestLine =>
      headers_ (request_ c) = ∅ ∧ (method_ (request_ c) = kInvalid -> query_ (request_ c) = [])
  | _ => request_ok (request_ c)
  end.

Lemma put_header_ok line c : request_ok (request_ c) -> one_line line ->
  (find_byte ch_colon line < length line)%nat -> request_ok (request_ (put_header line c)).
Proof.
  intros [] Hl Hc. destruct (find_byte_split ch_colon line Hc) as [_ Hn]. split; try done; simpl.
  - intros k v [[<- _]|[_ ?]]%lookup_insert_Some; [split; [done|by apply one_line_take]|eauto].
  - intros k v [[_ <-]|[_ ?]]%lookup_insert_Some; [|eauto]. fold (header_value (drop (S (find_byte ch_colon line)) line)).
    split; [apply header_value_trimmed|by apply header_value_one_line, one_line_drop].
Qed.

Lemma line_accepted line c c' : headers_ (request_ c) = ∅ -> query_ (request_ c) = [] -> one_line line ->
  line_result line c = (true, c') -> request_ok (request_ c').
Proof.
  intros Hh Hq Hl (m & path & query & v & -> & Hm & Hv & Hs & Hp & Hqu & ->)%line_result_grammar; [|done].
  split; simpl; try done; rewrite ?Hh; try (by intros k v0; rewrite lookup_empty).
  split; [done|].
  apply (one_line_infix (method_name m ++ [ch_space]) _ (ch_space :: version_name v)).
  by rewrite <- app_assoc.
Qed.

Lemma line_rejected line c c' : headers_ (request_ c) = ∅ -> query_ (request_ c) = [] ->
  line_result line c = (false, c') ->
  headers_ (request_ c') = ∅ ∧ (method_ (request_ c') = kInvalid -> query_ (request_ c') = []).
Proof.
  intros Hh Hq. unfold line_result. destruct (_ =? length line)%nat; [by intros [= <-]|].
  case_bool_decide as Hm; [by intros [= <-]|].
  destruct (_ =? length (drop _ line))%nat; [by intros [= <-]|].
  destruct (version_of _); [done|]. destruct (_ =? _)%nat; intros [= <-]; by split.
Qed.

Lemma request_line_ok line c ok c' : context_ok c -> state_ c = kExpectRequestLine -> one_line line ->
  processRequestLine line c = Ok (ok, c') ->
  if ok then request_ok (request_ c') else context_ok c'.
Proof.
  intros Hc Hs Hl. unfold context_ok in Hc. rewrite Hs in Hc. destruct Hc as [Hh Hq].
  rewrite processRequestLine_eq.
  destruct (_ =? _)%nat eqn:E; simpl.
  - unfold line_result. rewrite E. intros [= <- <-]. unfold context_ok. by rewrite Hs.
  - case_bool_decide as Hm; [|done]. intros [= Hr]. destruct ok.
    + eapply line_accepted; [done|by apply Hq|done|done].
    + pose proof (line_result_state line c) as Hst. rewrite Hr in Hst. simpl in Hst.
      unfold context_ok. rewrite Hst, Hs. by eapply line_rejected; [|apply Hq|].
Qed.

Lemma request_ok_put r r' : request_ok r -> method_ r' = method_ r -> version_ r' = version_ r ->
  path_ r' = path_ r -> query_ r' = query_ r -> headers_ r' = headers_ r -> request_ok r'.
Proof. intros [] Hm Hv Hp Hq Hh. split; rewrite ?Hm, ?Hv, ?Hp, ?Hq, ?Hh; done. Qed.

Lemma pparse_ok fuel t ok c l ok' c' l' : context_ok c -> pparse fuel t ok c l = Ok (ok', c', l') ->
  context_ok c'.
Proof.
  revert ok c l. induction fuel as [|fuel IH]; intros ok c l Hc; [done|]. simpl.
  destruct (state_ c) eqn:Hs.
  - destruct (memmem kCRLF l) as [i|] eqn:Hi; [|by intros [= _ <- _]].
    destruct (processRequestLine (take i l) c) as [[[] c1]|f] eqn:E; [| |done].
    + apply request_line_ok in E; [|done|done|by apply line_one_line]. apply IH.
      unfold context_ok. simpl. by apply (request_ok_put (request_ c1)).
    + intros [= _ <- _]. by apply request_line_ok in E; [| | |apply line_one_line].
  - destruct (memmem kCRLF l) as [i|] eqn:Hi; [|by intros [= _ <- _]].
    assert (Hr : request_ok (request_ c)) by (unfold context_ok in Hc; by rewrite Hs in Hc).
    destruct (negb _) eqn:E; apply IH.
    + unfold context_ok. simpl. rewrite Hs. apply put_header_ok; [done|by apply line_one_line|].
      apply negb_true_iff, Nat.eqb_neq in E. pose proof (find_byte_le ch_colon (take i l)). lia.
    + done.
  - intros [= _ <- _]. unfold context_ok in *. rewrite Hs in Hc. simpl. unfold put_body.
    case_bool_decide; [done|]. by apply (request_ok_put (request_ c)).
  - by apply IH.
Qed.

(** C21: Requests are well formed.  Whatever the bytes and however they are cut
    into portions, a request that the parser completes has one of the five
    methods and a known version; its target has no space and no line break, its
    path no question mark and its query starts with one; its header names have no
    colon and no line break, its header values no line break and no white space at
    their ends.  This is an invariant of the parser that a fresh parser and
    [reset] establish; a call stops at most at the assertion of setMethod. *)
Theorem parse_well_formed (t : Timestamp) (c : HttpContext) (b : Buffer) :
  context_ok HttpContext_ctor ∧ wp reset (λ _ c', context_ok c') c
  ∧ (wf b -> context_ok c -> gotAll c = false ->
     upto AssertFailed (parseRequest t) (λ _ s, wf (snd s) ∧ context_ok (fst s)
       ∧ (gotAll (fst s) = true -> request_ok (request_ (fst s)))) (c, b)).
Proof.
  split_and!; [done|done|]. intros Hwf Hc Hg%bool_decide_eq_false.
  pose proof (parseRequest_pparse t c b Hwf) as Hobs. unfold upto.
  destruct (parseRequest t (c, b)) as [[ok [c' b']]|f] eqn:E; simpl in Hobs; symmetry in Hobs.
  - pose proof (pparse_ok _ _ _ _ _ _ _ _ Hc Hobs) as Hc'. simpl.
    split_and!; [by eapply parseRequest_wf|done|]. intros Hg'%bool_decide_eq_true.
    unfold context_ok in Hc'. by rewrite Hg' in Hc'.
  - destruct (pparse_fault _ _ _ _ _ _ Hobs) as [-> | ->]; [|done].
    by apply pparse_terminates in Hobs; [| |apply rounds_le].
Qed.
End well_formed.

Lemma parse_well_formed_witness :
  let req := str "GET /a?b HTTP/1.1" ++ kCRLF ++ str "Host:  lute " ++ kCRLF ++ kCRLF ++ str "x" in
  let b := mkBuffer (replicate 8 (z2b 0) ++ req) 8 (8 + zlength req) in
  ∃ c b', parseRequest (tick 7) (HttpContext_ctor, b) = Ok (true, (c, b')) ∧ gotAll c = true
    ∧ request_ok (request_ c) ∧ headers_ (request_ c) !! str "Host" = Some (str "lute").
Proof.
  intros req b.
  assert (Hp : upto AssertFailed (parseRequest (tick 7)) (λ _ s, wf (snd s) ∧ context_ok (fst s)
      ∧ (gotAll (fst s) = true -> request_ok (request_ (fst s)))) (HttpContext_ctor, b)).
  { apply (proj2 (proj2 (parse_well_formed (tick 7) HttpContext_ctor b)));
      [constructor; vm_compute; intuition congruence|done|done]. }
  destruct (parseRequest (tick 7) (HttpContext_ctor, b)) as [[ok [c b']]|f] eqn:E;
    [|exfalso; vm_compute in E; discriminate].
  unfold upto in Hp. rewrite E in Hp. destruct Hp as (_ & _ & Hg).
  assert (ok = true ∧ gotAll c = true ∧ headers_ (request_ c) !! str "Host" = Some (str "lute")) as (-> & H1 & H2)
    by (vm_compute in E; injection E as <- <- <-; split_and!; vm_compute; reflexivity).
  exists c, b'. split_and!; [done|done|by apply Hg|done].
Defined.
