(* ===== verification/ConnectorSteps.v ===== *)
(** * What the steps of a connector leave alone

    For the owner of a connector: which steps hand over a descriptor, when the
    connector may become connecting, and that a stop is not forgotten. *)

From Stdlib Require Import ZArith Lia.
From stdpp Require Import gmap list.
From S2P Require Import Prelude Bytes Base Channel Connector ConnectorProps.

Local Open Scope Z_scope.

Section steps.
#[local] Set Default Proof Using "Type".
Context {BT : BaseTime} {W : Type} {LO : LoopOps W} {CO : ConnectOps W} {AL : Allocator}.
Implicit Types (w : KWorld (W := W)) (x : W).

(** The connector is as it was, but for functors that it queued. *)
Record unmoved w w' : Prop := {
  um_connector : connector w' = connector w;
  um_delivered : delivered w' = delivered w;
  um_queue : ∃ q, cqueue w' = cqueue w ++ q;
}.

#[local] Instance unmoved_preorder : PreOrder unmoved.
Proof.
  split.
  - intros w. split; [done..|exists []; by rewrite app_nil_r].
  - intros w1 w2 w3 [H1 H2 [q1 Hq1]] [H3 H4 [q2 Hq2]]. split; [congruence..|].
    exists (q1 ++ q2). by rewrite Hq2, Hq1, app_assoc.
Qed.

Lemma unmoved_lw x w : unmoved w {| w with lw := x |}.
Proof. split; [done..|exists []; by rewrite app_nil_r]. Qed.

Lemma unmoved_zoom {A} (m : M W A) : along unmoved (zoom lwL m).
Proof. apply along_zoom. intros. apply unmoved_lw. Qed.

Lemma unmoved_on_loop {A} (f : W -> A * W) : along unmoved (on_loop f).
Proof. intros w a w'. unfold on_loop. destruct (f _). intros [= _ <-]. apply unmoved_lw. Qed.

Lemma removeAndReset_unmoved : along unmoved removeAndResetChannel.
Proof.
  unfold removeAndResetChannel, the_channel_, queueInLoop.
  repeat first [apply along_bind; [..|intros ?]|apply along_liftR|apply unmoved_zoom|apply along_ret
               |apply along_modify]; try apply _.
  intros w. split; [done..|by eexists].
Qed.

(** A handler of the channel, a functor or a timer. *)
Record handled w w' : Prop := {
  hd_connect : connect_ (connector w') = connect_ (connector w);
  hd_connected : kstate w = kConnected -> kstate w' = kConnected;
  hd_connecting : kstate w' = kConnecting -> kstate w = kConnecting;
  hd_queue : ∃ q, cqueue w' = cqueue w ++ q;
  hd_delivered : delivered w' = delivered w
    ∨ (∃ fd, delivered w' = delivered w ++ [fd]) ∧ connect_ (connector w) = true
      ∧ kstate w = kConnecting ∧ kstate w' = kConnected;
}.

#[local] Instance handled_preorder : PreOrder handled.
Proof.
  split.
  - intros w. split; try done; [exists []; by rewrite app_nil_r|by left].
  - intros w1 w2 w3 [Hc1 Hk1 Hn1 [q1 Hq1] Hd1] [Hc2 Hk2 Hn2 [q2 Hq2] Hd2]. split; [congruence|auto..| |].
    + exists (q1 ++ q2). by rewrite Hq2, Hq1, app_assoc.
    + destruct Hd1 as [Hd1|([fd Hd1] & ? & ? & ?)], Hd2 as [Hd2|([fd' Hd2] & ? & ? & ?)].
      * left. congruence.
      * right. split_and!; [exists fd'; congruence|congruence|auto|done].
      * right. split_and!; [exists fd; congruence|done|done|auto].
      * congruence.
Qed.

Lemma unmoved_handled w w' : unmoved w w' -> handled w w'.
Proof.
  intros [Hc Hd Hq]. unfold kstate in *. split; rewrite ?Hc; try done; try by unfold kstate; rewrite Hc.
  by left.
Qed.

Lemma along_unmoved {A} (m : M KWorld A) : along unmoved m -> along handled m.
Proof. intros H w a w' Hm. by eapply unmoved_handled, H. Qed.

(** What the three outcomes of an attempt do to the state. *)
Record moved (s : States) w w' : Prop := {
  mv_connect : connect_ (connector w') = connect_ (connector w);
  mv_state : kstate w' = s;
  mv_delivered : delivered w' = delivered w;
  mv_queue : ∃ q, cqueue w' = cqueue w ++ q;
}.

Lemma unmoved_moved s w w1 w2 : unmoved w w1 -> moved s w1 w2 -> moved s w w2.
Proof.
  intros [Hc Hd [q Hq]] [H1 H2 H3 [q' Hq']]. split; [by rewrite H1, Hc|done|congruence|].
  exists (q ++ q'). by rewrite Hq', Hq, app_assoc.
Qed.

Lemma moved_unmoved s w w1 w2 : moved s w w1 -> unmoved w1 w2 -> moved s w w2.
Proof.
  intros [H1 H2 H3 [q' Hq']] [Hc Hd [q Hq]]. split; [by rewrite Hc|unfold kstate; by rewrite Hc|congruence|].
  exists (q' ++ q). by rewrite Hq, Hq', app_assoc.
Qed.

Lemma retry_moved fd w a w' : retry fd w = Ok (a, w') -> moved kDisconnected w w'.
Proof.
  unfold retry, setState, on_connector, whenM, on_loop, mbind, M_bind. cbn. intros H.
  destruct (connect_ (connector w)) eqn:Hc; cbn in H; injection H as _ <-;
    (split; [by rewrite ?Hc|done..|exists []; by rewrite app_nil_r]).
Qed.

Lemma moved_handled w w' : kstate w = kConnecting -> moved kDisconnected w w' -> handled w w'.
Proof. intros Hs [Hc Hd Hdl Hq]. split; [done|congruence..|done|by left]. Qed.

(** Removing the channel, reading the error, and going on. *)
Lemma failed_handled w a w' (k : Z -> Z -> M KWorld unit) :
  kstate w = kConnecting ->
  (sockfd ← removeAndResetChannel; err ← on_loop (sock_error sockfd); k sockfd err) w = Ok (a, w') ->
  (∀ fd e w1, kstate w1 = kConnecting -> k fd e w1 = Ok (a, w') -> handled w1 w') -> handled w w'.
Proof.
  intros Hs (fd & w1 & H1%removeAndReset_unmoved & (e & w2 & H2%unmoved_on_loop & H3)%bind_inv)%bind_inv Hk.
  assert (unmoved w w2) as Hum by by transitivity w1.
  transitivity w2; [by apply unmoved_handled|]. eapply Hk; [|exact H3].
  unfold kstate. by rewrite (um_connector _ _ Hum).
Qed.

Lemma handleError_handled : along handled handleError.
Proof.
  intros w a w' (c & w0 & [= <- <-] & H)%bind_inv. unfold whenM in H. case_bool_decide as Hs.
  - eapply (failed_handled w a w' (λ fd _, retry fd) Hs H).
    intros fd e w1 Hs1 Hr%retry_moved. by apply moved_handled.
  - by injection H as _ <-.
Qed.

Lemma handleWrite_handled : along handled handleWrite.
Proof.
  intros w a w' (c & w0 & [= <- <-] & H)%bind_inv. case_bool_decide as Hs.
  - eapply (failed_handled w a w' _ Hs H). clear H. intros fd e w1 Hs1 H.
    destruct (negb _); [by apply moved_handled; [|eapply retry_moved]|].
    apply bind_inv in H as (self & w2 & [= <- <-] & H).
    destruct (sock_self _ _); [by apply moved_handled; [|eapply retry_moved]|].
    apply bind_inv in H as ([] & w2 & [= <-] & (c & w3 & [= <- <-] & H)%bind_inv). cbn in H.
    destruct (connect_ (connector w1)) eqn:Hc; injection H as _ <-.
    + split; try done; [exists []; by rewrite app_nil_r|]. right. eauto.
    + split; try done; [exists []; by rewrite app_nil_r|]. by left.
  - cbn in H. unfold assertS in H. case_bool_decide; by simplify_eq.
Qed.

#[local] Instance the_heap : ChannelHeap KWorld := k_heap.

Lemma call_handled (cb : option Closure) t : along handled (call (run_kclosure) t cb).
Proof.
  destruct cb as [[]|]; simpl; [apply handleWrite_handled|apply handleError_handled|apply along_ret, _].
Qed.

Lemma ready_handled revents t : along handled (cstep (CReady revents t)).
Proof.
  simpl. unfold the_channel_, handleEventWithGuard, on_chan, deref.
  repeat first [apply along_bind; [..|intros ?]|apply along_liftR|apply along_unmoved, unmoved_zoom
               |apply along_when|apply call_handled|apply along_modify]; try apply _;
    intros; apply unmoved_handled, unmoved_lw.
Qed.

Lemma assertInLoop_same w a w' : assertInLoopThread w = Ok (a, w') -> w' = w.
Proof.
  intros (b & w1 & [= <- <-] & H)%bind_inv. destruct (loop_isInLoopThread (lw w)); [by injection H|done].
Qed.

Lemma stopInLoop_handled w a w' : stopInLoop w = Ok (a, w') ->
  handled w w' ∧ kstate w' ≠ kConnecting ∧ delivered w' = delivered w.
Proof.
  intros ([] & w0 & ->%assertInLoop_same & (c & w1 & [= <- <-] & H)%bind_inv)%bind_inv.
  unfold whenM in H. case_bool_decide as Hs; [|injection H as _ <-; split_and!; [reflexivity|done..]].
  apply bind_inv in H as ([] & w1 & [= <-] & (fd & w2 & H2%removeAndReset_unmoved & H3%retry_moved)%bind_inv).
  pose proof (unmoved_moved _ _ _ _ H2 H3) as [H4 H5 H6 [q H7]]. rewrite H5.
  split_and!; [|done|done]. split; [exact H4|unfold kstate; congruence|congruence|by exists q|by left].
Qed.

Lemma resetChannel_handled w a w' : resetChannel w = Ok (a, w') -> handled w w' ∧ kstate w' = kstate w.
Proof.
  intros (c & w0 & [= <- <-] & H)%bind_inv. destruct (channel_ (connector w)); [|by injection H as _ <-].
  apply bind_inv in H as ([] & w1 & [= <-] & H%unmoved_zoom). destruct H as [Hc Hd Hq].
  assert (kstate w' = kstate w) as Hs by (unfold kstate; by rewrite Hc).
  split; [|done]. split; rewrite ?Hs; try done; [by rewrite Hc|by left].
Qed.

(** Running the first functor of the queue. *)
Record functor_run w w' : Prop := {
  fr_connect : connect_ (connector w') = connect_ (connector w);
  fr_connected : kstate w = kConnected -> kstate w' = kConnected;
  fr_connecting : kstate w' = kConnecting -> kstate w = kConnecting;
  fr_delivered : delivered w' = delivered w;
  fr_stop : KStopInLoop ∈ cqueue w -> KStopInLoop ∈ cqueue w' ∨ kstate w' ≠ kConnecting;
}.

Lemma functor_ran w f q a w' : cqueue w = f :: q -> f ≠ KStartInLoop ->
  cstep CFunctor w = Ok (a, w') -> functor_run w w'.
Proof.
  intros Hq Hf (q0 & w0 & [= <- <-] & H)%bind_inv. rewrite Hq in H.
  apply bind_inv in H as ([] & w1 & [= <-] & H). set (w1 := {| w with cqueue := q |}) in *.
  assert (kstate w1 = kstate w ∧ delivered w1 = delivered w
    ∧ connect_ (connector w1) = connect_ (connector w)) as (Hs1 & Hd1 & Hc1) by done.
  destruct f; [done| |]; simpl in H.
  - apply stopInLoop_handled in H as ([Hc Hk Hn _ _] & Hs & Hd).
    split; rewrite <- ?Hs1, <- ?Hd1, <- ?Hc1; try done. by right.
  - apply resetChannel_handled in H as [[Hc Hk Hn [q' Hq'] Hd] Hs].
    split; rewrite <- ?Hs1, <- ?Hd1, <- ?Hc1; try done.
    + destruct Hd as [?|(_ & _ & ? & ?)]; [done|congruence].
    + rewrite Hq, Hq'. intros [?|?]%elem_of_cons; [done|]. left. apply elem_of_app. by left.
Qed.

(** An attempt, or none. *)
Record started w w' : Prop := {
  sd_connect : connect_ (connector w') = connect_ (connector w);
  sd_state : kstate w' ≠ kConnected;
  sd_delivered : delivered w' = delivered w;
  sd_idle : connect_ (connector w) = false -> w' = w;
}.

Lemma connecting_moved fd w a w' : connecting fd w = Ok (a, w') -> moved kConnecting w w'.
Proof.
  unfold connecting, setState, on_connector. intros H.
  apply bind_inv in H as ([] & w1 & [= <-] & ([] & w2 & H2 & H)%bind_inv).
  unfold assertS in H2. destruct (bool_decide _); [|done]. injection H2 as <-.
  apply bind_inv in H as (p & w2 & [= <- <-] & ([] & w3 & H3%unmoved_zoom & H)%bind_inv).
  apply bind_inv in H as ([] & w4 & [= <-] & H5%unmoved_zoom).
  eapply moved_unmoved; [|exact H5]. destruct H3 as [Hc Hd Hq]. split; [..|exact Hq].
  - simpl. by rewrite Hc.
  - unfold kstate. simpl. by rewrite Hc.
  - exact Hd.
Qed.

Lemma startInLoop_started w a w' : startInLoop w = Ok (a, w') -> started w w'.
Proof.
  intros ([] & w0 & ->%assertInLoop_same & ([] & w1 & H1 & H)%bind_inv)%bind_inv.
  unfold assertS in H1. case_bool_decide as Hs; [|done]. injection H1 as <-.
  apply bind_inv in H as (c & w1 & [= <- <-] & H).
  destruct (connect_ (connector w)) eqn:Hc; simpl in H.
  - apply bind_inv in H as (fd & w1 & H1%unmoved_on_loop & (e & w2 & H2%unmoved_on_loop & H)%bind_inv).
    assert (H12 : unmoved w w2) by by transitivity w1.
    assert (moved kConnecting w w' ∨ moved kDisconnected w w') as [[Hc' Hs' Hd _]|[Hc' Hs' Hd _]].
    { destruct (bool_decide _); [|destruct (bool_decide _)].
      - left. eapply unmoved_moved; [done|by eapply connecting_moved].
      - right. eapply unmoved_moved; [done|by eapply retry_moved].
      - right. apply unmoved_on_loop in H. assert (unmoved w w') as [Hc' Hd Hq] by by transitivity w2.
        split; [by rewrite Hc'|unfold kstate; by rewrite Hc'|done|done]. }
    all: split; [done|by rewrite Hs'|done|congruence].
  - injection H as _ <-. split; [done|unfold kstate; by rewrite Hs|done..].
Qed.

Lemma start_started w a w' : loop_isInLoopThread (lw w) = true -> start w = Ok (a, w') ->
  connect_ (connector w') = true ∧ kstate w' ≠ kConnected ∧ delivered w' = delivered w.
Proof.
  intros Ht ([] & w1 & [= <-] & (b & w2 & [= <- <-] & H)%bind_inv)%bind_inv. cbn [lw] in H.
  rewrite Ht in H. by apply startInLoop_started in H as [Hc Hs Hd _].
Qed.

Lemma restart_started w a w' : restart w = Ok (a, w') ->
  connect_ (connector w') = true ∧ kstate w' ≠ kConnected ∧ delivered w' = delivered w.
Proof.
  intros ([] & w0 & ->%assertInLoop_same & ([] & w1 & [= <-] & H)%bind_inv)%bind_inv.
  apply bind_inv in H as ([] & w1 & [= <-] & ([] & w2 & [= <-] & H)%bind_inv).
  by apply startInLoop_started in H as [Hc Hs Hd _].
Qed.

Lemma timer_started w i d a w' : ctimers w !! i = Some d -> cstep (CTimer i) w = Ok (a, w') ->
  started {| w with ctimers := delete i (ctimers w) |} w'.
Proof.
  intros Hi (ds & w0 & [= <- <-] & H)%bind_inv. rewrite Hi in H.
  apply bind_inv in H as ([] & w1 & [= <-] & H). by eapply startInLoop_started.
Qed.
End steps.
