(* ===== verification/TCPClient.v ===== *)
(** * TCPClient: a client and its connection (TCPClient.h, TCPClient.cc)

    A client owns a connector, which it starts and stops, and the connection it
    makes of a socket that the connector hands over.  The connector is the whole
    of [Connector.v] in its loop; a connection is what [ConnLife.v] makes of it,
    together with its socket and with those who hold it: the client, the user of
    the library, and functors in the queue of the loop.  A connection that nobody
    holds is destroyed and its socket closed.

    Everything happens in the thread of the loop.  The loop has one queue; the
    functors of the connector and those of the connections are kept apart here
    and [uenabled] says what of their order matters.  A use of the client or of
    the connector after its destruction is a fault.

    Not modelled: the callbacks of the user, which are only passed on, and the
    local address of a connection. *)

From Stdlib Require Import ZArith Lia.
From stdpp Require Import gmap list.
From S2P Require Import Prelude Bytes Base Channel TCPConnection ConnLife Connector.

Local Open Scope Z_scope.

(** [closeCallback_] of a connection: [TCPClient::removeConnection] or
    [detail::removeConnection]. *)
Inductive closer := ToClient | Detached.

#[export] Instance closer_eq_dec : EqDecision closer.
Proof. solve_decision. Defined.

(** Functors that hold a connection. *)
Inductive task :=
  | TDestroy (c : conn_id)      (** [TCPConnection::connectDestroyed] *)
  | TForceClose (c : conn_id).  (** [TCPConnection::forceCloseInLoop] *)

#[export] Instance task_eq_dec : EqDecision task.
Proof. solve_decision. Defined.

Definition task_conn (t : task) : conn_id := match t with TDestroy c | TForceClose c => c end.

Record ClientConn := mkClientConn {
  the_life : Conn;
  cc_fd : Z;
  cc_close : closer;
  cc_user : bool;     (** the user holds the connection *)
  cc_alive : bool;    (** [~TCPConnection()] has not run *)
}.

Record TCPClient := mkClient {
  name_ : bytes;
  retry_ : bool;
  client_connect_ : bool;
  nextConnId_ : Z;
  connection_ : option conn_id;
}.

(** [new TCPConnection(...)], held by the caller. *)
Definition new_client_conn (name : bytes) (sockfd : Z) : ClientConn :=
  mkClientConn (new_conn name 0) sockfd ToClient false true.

(** The name of a connection; [buf] has 32 characters. *)
Definition client_conn_name (s : TCPClient) (peer : bytes) : bytes :=
  name_ s ++ snprintf 32 (str ":" ++ peer ++ str "#" ++ print_d (nextConnId_ s)).

Section client.
Context {BT : BaseTime} {W : Type} {LO : LoopOps W} {CO : ConnectOps W} {AL : Allocator}.
(** [getPeerAddr(sockfd)].[toIpPort()]. *)
Context (peer : Z -> W -> bytes).

(** The client until it is destroyed; the connector, whether somebody other
    than the timer of a retry holds it, and whether it exists; the connections
    that were made and the functors queued for them. *)
Record ClientWorld := mkClientWorld {
  client : option TCPClient;
  kw : KWorld (W := W);
  kref : bool;
  kalive : bool;
  cconns : list ClientConn;
  tasks : list task;
}.

Definition kwL : lens ClientWorld KWorld := Lens kw (λ k w, {| w with kw := k |}).

(** [TCPClient::TCPClient]. *)
Definition new_client (name : bytes) (x : W) : ClientWorld :=
  mkClientWorld (Some (mkClient name false true 1 None)) (new_connector x) true true [] [].

(** [this] of the client, and of the connector. *)
Definition this : M ClientWorld TCPClient :=
  liftR (λ w, match client w with Some s => Ok s | None => Fault OutOfBounds end).
Definition on_client (f : TCPClient -> TCPClient) : M ClientWorld unit :=
  s ← this; modify (λ w, {| w with client := Some (f s) |}).
Definition on_k {A} (m : M KWorld A) : M ClientWorld A :=
  ok ← gets kalive; if ok : bool then zoom kwL m else failM OutOfBounds.

Definition client_assertInLoop : M ClientWorld unit :=
  ok ← gets (λ w, loop_isInLoopThread (lw (kw w))); if ok : bool then mret tt else failM FatalLog.

Definition connection (w : ClientWorld) : option conn_id := client w ≫= connection_.

(** ** The connections *)
Definition the_cc (c : conn_id) : M ClientWorld ClientConn :=
  liftR (λ w, match cconns w !! c with Some i => Ok i | None => Fault OutOfBounds end).
Definition put_cc (c : conn_id) (i : ClientConn) : M ClientWorld unit :=
  modify (λ w, {| w with cconns := <[c := i]> (cconns w) |}).
Definition cc_does (c : conn_id) (f : Conn -> result Conn) : M ClientWorld unit :=
  i ← the_cc c; l ← liftR (λ _, f (the_life i)); put_cc c {| i with the_life := l |}.
Definition queueTask (t : task) : M ClientWorld unit :=
  modify (λ w, {| w with tasks := tasks w ++ [t] |}).

Definition mentions (c : conn_id) (ts : list task) : bool := bool_decide (c ∈ task_conn <$> ts).

(** Somebody other than the client holds the connection. *)
Definition shared (c : conn_id) (w : ClientWorld) : bool :=
  default false (cc_user <$> cconns w !! c) || mentions c (tasks w).
Definition held_by (c : conn_id) (w : ClientWorld) : bool :=
  bool_decide (connection w = Some c) || shared c w.

(** A [shared_ptr] to the connection is gone: the last one runs
    [~TCPConnection()], whose socket closes its descriptor, and [~Channel()]. *)
Definition collect (c : conn_id) : M ClientWorld unit :=
  i ← the_cc c;
  h ← gets (held_by c);
  whenM (cc_alive i && negb h)
    (assert_ (bool_decide (conn_state (the_life i) = TCPConnection.kDisconnected)) ;;;
     assert_ (negb (registered (the_life i))) ;;;
     modify (λ w, {| w with kw := {| (kw w) with
       lw := sock_close (cc_fd i) (lw (kw w));
       delivered := filter (λ fd, fd ≠ cc_fd i) (delivered (kw w)) |} |}) ;;;
     put_cc c {| i with cc_alive := false |}).

Definition closable (i : ClientConn) : bool :=
  bool_decide (conn_state (the_life i) = TCPConnection.kConnected
               ∨ conn_state (the_life i) = TCPConnection.kDisconnecting).

(** [TCPConnection::forceClose()]. *)
Definition client_forceClose (c : conn_id) : M ClientWorld unit :=
  i ← the_cc c;
  whenM (closable i) (cc_does c (λ l, Ok (shut l)) ;;; queueTask (TForceClose c)).

(** ** The client *)
Definition removeConnection (c : conn_id) : M ClientWorld unit :=
  client_assertInLoop ;;;
  s ← this;
  assert_ (bool_decide (connection_ s = Some c)) ;;;
  on_client (λ s, {| s with connection_ := None |}) ;;;
  queueTask (TDestroy c) ;;;
  s ← this;
  whenM (retry_ s && client_connect_ s) (on_k restart).

(** [handleClose()] of the connection, with its [closeCallback_]. *)
Definition handleClose (c : conn_id) : M ClientWorld unit :=
  client_assertInLoop ;;;
  cc_does c closed ;;;
  i ← the_cc c;
  match cc_close i with
  | ToClient => removeConnection c
  | Detached => queueTask (TDestroy c)
  end.

Definition newConnection (sockfd : Z) : M ClientWorld unit :=
  client_assertInLoop ;;;
  s ← this;
  text ← gets (λ w, peer sockfd (lw (kw w)));
  (let connName := client_conn_name s text in
   on_client (λ s, {| s with nextConnId_ := s32 (nextConnId_ s + 1) |}) ;;;
   c ← gets (λ w, length (cconns w));
   modify (λ w, {| w with cconns := cconns w ++ [new_client_conn connName sockfd] |}) ;;;
   on_client (λ s, {| s with connection_ := Some c |}) ;;;
   from_option collect (mret tt) (connection_ s) ;;;
   cc_does c established).

Definition client_connect : M ClientWorld unit :=
  on_client (λ s, {| s with client_connect_ := true |}) ;;; on_k start.

Definition disconnect : M ClientWorld unit :=
  on_client (λ s, {| s with client_connect_ := false |}) ;;;
  s ← this;
  from_option (λ c, cc_does c (λ l, Ok (shut l))) (mret tt) (connection_ s).

Definition client_stop : M ClientWorld unit :=
  on_client (λ s, {| s with client_connect_ := false |}) ;;; on_k stop.

Definition enableRetry : M ClientWorld unit := on_client (λ s, {| s with retry_ := true |}).

(** A [shared_ptr] to the connector is gone. *)
Definition drop_connector : M ClientWorld unit :=
  w ← getS;
  whenM (kalive w && negb (kref w) && bool_decide (ctimers (kw w) = []))
    (on_k Connector_dtor ;;; modify (λ w, {| w with kalive := false |})).

(** [~TCPClient()].  Without a connection a timer of one second holds the
    connector: [removeConnector] does nothing but that. *)
Definition TCPClient_dtor : M ClientWorld unit :=
  s ← this;
  match connection_ s with
  | Some c =>
      unique ← gets (λ w, negb (shared c w));
      i ← the_cc c;
      put_cc c {| i with cc_close := Detached |} ;;;
      whenM unique (client_forceClose c)
  | None => on_k stop
  end ;;;
  modify (λ w, {| w with client := None; kref := bool_decide (connection_ s = None) |}) ;;;
  from_option collect (mret tt) (connection_ s) ;;;
  drop_connector.

(** ** What happens in the loop *)
Definition run_task (t : task) : M ClientWorld unit :=
  match t with
  | TDestroy c => client_assertInLoop ;;; cc_does c destroyed
  | TForceClose c => client_assertInLoop ;;; i ← the_cc c; whenM (closable i) (handleClose c)
  end.

(** [newConnectionCallback_] is the last thing [Connector::handleWrite] does. *)
Definition on_ready (revents : Z) (t : Timestamp) : M ClientWorld unit :=
  n ← gets (λ w, length (delivered (kw w)));
  on_k (cstep (CReady revents t)) ;;;
  fds ← gets (λ w, drop n (delivered (kw w)));
  for_each fds newConnection.

(** Calls of the user: on the client, and on a connection that the user has. *)
Inductive uevent :=
  | UConnect | UDisconnect | UStop | UEnableRetry | UDestroy
  | UHold (c : conn_id) | URelease (c : conn_id)
  | UShutdown (c : conn_id) | UForceClose (c : conn_id)
  | UIdle (c : conn_id) (b : bool)
  (** Events, timers and functors of the loop; the peer's close of a connection. *)
  | UReady (revents : Z) (t : Timestamp)
  | UTimer (i : nat)
  | UFunctor
  | UGrace
  | UClose (c : conn_id)
  | UTask.

Definition ustep (e : uevent) : M ClientWorld unit :=
  match e with
  | UConnect => client_connect
  | UDisconnect => disconnect
  | UStop => client_stop
  | UEnableRetry => enableRetry
  | UDestroy => TCPClient_dtor
  | UHold c => i ← the_cc c; put_cc c {| i with cc_user := true |}
  | URelease c => i ← the_cc c; put_cc c {| i with cc_user := false |} ;;; collect c
  | UShutdown c => cc_does c (λ l, Ok (shut l))
  | UForceClose c => client_forceClose c
  | UIdle c b => cc_does c (λ l, Ok (set_idle b l))
  | UReady revents t => on_ready revents t
  | UTimer i => on_k (cstep (CTimer i)) ;;; drop_connector
  | UFunctor => on_k (cstep CFunctor)
  | UGrace => modify (λ w, {| w with kref := false |}) ;;; drop_connector
  | UClose c => handleClose c ;;; collect c
  | UTask =>
      ts ← gets tasks;
      match ts with
      | [] => mret tt
      | t :: ts' =>
          modify (λ w, {| w with tasks := ts' |}) ;;; run_task t ;;; collect (task_conn t)
      end
  end.

Definition user_has (c : conn_id) (w : ClientWorld) : bool :=
  bool_decide (connection w = Some c) || default false (cc_user <$> cconns w !! c).

(** The functor that resets the channel of the connector is not pending: it
    was queued before [newConnection] and runs in the same iteration of the
    loop, so before the events of the connection and before its functors. *)
Definition reset_done (w : ClientWorld) : bool := bool_decide (KResetChannel ∉ cqueue (kw w)).

(** The client is connected when its connector is idle and disconnected.  It is
    destroyed, when it has a connection, after the functors of the connector.
    The last reference to a connection that is open and whose client is gone is
    not released.  The rest says when the loop does what. *)
Definition uenabled (e : uevent) (w : ClientWorld) : bool :=
  match e with
  | UConnect => bool_decide (is_Some (client w)) && cenabled CStart (kw w)
  | UDisconnect | UStop | UEnableRetry => bool_decide (is_Some (client w))
  | UDestroy => bool_decide (is_Some (client w))
      && (bool_decide (connection w = None) || bool_decide (cqueue (kw w) = []))
  | UHold c | UShutdown c | UForceClose c | UIdle c _ => user_has c w
  | URelease c =>
      match cconns w !! c with
      | Some i => cc_user i && (negb (watching (the_life i)) || bool_decide (cc_close i = ToClient))
      | None => false
      end
  | UReady revents t => cenabled (CReady revents t) (kw w)
  | UTimer i => cenabled (CTimer i) (kw w) && bool_decide (is_Some (ctimers (kw w) !! i))
  | UFunctor => negb (bool_decide (cqueue (kw w) = []))
  | UGrace => bool_decide (client w = None) && kref w && bool_decide (cqueue (kw w) = [])
  | UClose c =>
      match cconns w !! c with
      | Some i => cc_alive i && watching (the_life i) && reset_done w
      | None => false
      end
  | UTask =>
      reset_done w ||
      match tasks w with
      | TForceClose c :: _ => negb (default false (closable <$> cconns w !! c))
      | _ => true
      end
  end.

Definition usession (es : list uevent) : M ClientWorld unit :=
  for_each es (λ e, w ← getS; whenM (uenabled e w) (ustep e)).
End client.
