(* ===== verification/TCPClientInv.v ===== *)
(** * The invariant of a client

    In which stage every connection of [TCPClient.v] is and who holds it, which
    descriptors are open, and what is left of a client that was destroyed; every
    step keeps it. *)

From Stdlib Require Import ZArith Lia.
From stdpp Require Import gmap list.
From S2P Require Import Prelude Bytes Base Channel TCPConnection ConnLife.
From S2P Require Import Connector ConnectorProps ConnectorSteps TCPClient.

Local Open Scope Z_scope.

(** ** Functors in the queue *)
Definition destroys (c : conn_id) (ts : list task) : nat := length (filter (λ t, t = TDestroy c) ts).

Lemma destroys_app c ts ts' : destroys c (ts ++ ts') = (destroys c ts + destroys c ts')%nat.
Proof. unfold destroys. by rewrite filter_app, length_app. Qed.

Lemma destroys_cons c t ts : destroys c (t :: ts) = (destroys c [t] + destroys c ts)%nat.
Proof. apply (destroys_app c [t]). Qed.

Lemma destroys_one c t : destroys c [t] = if decide (t = TDestroy c) then 1%nat else 0%nat.
Proof. unfold destroys. cbn. by destruct (decide _). Qed.

Lemma destroys_mentions c ts : (0 < destroys c ts)%nat -> mentions c ts = true.
Proof.
  unfold destroys, mentions. destruct (filter _ ts) as [|t l] eqn:E; simpl; [lia|]. intros _.
  assert (t ∈ filter (λ t, t = TDestroy c) ts) as [-> ?]%list_elem_of_filter by (rewrite E; by left).
  apply bool_decide_eq_true, list_elem_of_fmap. by exists (TDestroy c).
Qed.

Lemma mentions_app c ts ts' : mentions c (ts ++ ts') = mentions c ts || mentions c ts'.
Proof.
  unfold mentions. rewrite fmap_app. apply eq_true_iff_eq.
  by rewrite orb_true_iff, !bool_decide_eq_true, elem_of_app.
Qed.

Lemma mentions_cons c t ts : mentions c (t :: ts) = mentions c [t] || mentions c ts.
Proof. apply (mentions_app c [t]). Qed.

Lemma mentions_one c t : mentions c [t] = bool_decide (task_conn t = c).
Proof. apply bool_decide_ext. simpl. rewrite list_elem_of_singleton. naive_solver. Qed.

Lemma mentions_self t : mentions (task_conn t) [t] = true.
Proof. rewrite mentions_one. by apply bool_decide_eq_true. Qed.

Lemma mentions_force c : mentions c [TForceClose c] = true.
Proof. apply (mentions_self (TForceClose c)). Qed.

(** Functors of other connections. *)
Lemma other_destroys c c' t : c' ≠ c -> task_conn t = c -> destroys c' [t] = 0%nat.
Proof. intros Hne Ht. rewrite destroys_one, decide_False; [done|]. by intros ->. Qed.

Lemma other_mentions c c' t : c' ≠ c -> task_conn t = c -> mentions c' [t] = false.
Proof. intros Hne Ht. rewrite mentions_one, Ht. by apply bool_decide_eq_false_2. Qed.

(** ** Descriptors of the connections *)
Definition live_fd (i : ClientConn) : option Z := if cc_alive i then Some (cc_fd i) else None.

Lemma omap_middle {A B} (f : A -> option B) l1 a l2 :
  omap f (l1 ++ a :: l2) = omap f l1 ++ option_list (f a) ++ omap f l2.
Proof. rewrite omap_app. cbn. by destruct (f a). Qed.

Lemma omap_insert {A B} (f : A -> option B) (l : list A) c i i' : l !! c = Some i -> f i' = f i ->
  omap f (<[c := i']> l) = omap f l.
Proof.
  intros Hc Hf. rewrite <- (take_drop_middle l c i Hc) at 2.
  rewrite insert_take_drop by (by eapply lookup_lt_Some). by rewrite !omap_middle, Hf.
Qed.

Lemma filter_without {B} `{EqDecision B} (b : B) (l : list B) : b ∉ l -> filter (λ x, x ≠ b) l = l.
Proof.
  induction l as [|a l IH]; intros Hn; [done|]. apply not_elem_of_cons in Hn as [Hne Hn].
  rewrite filter_cons_True by done. by rewrite IH.
Qed.

Lemma omap_remove {A B} `{EqDecision B} (f : A -> option B) (l : list A) c i i' b :
  NoDup (omap f l) -> l !! c = Some i -> f i = Some b -> f i' = None ->
  filter (λ x, x ≠ b) (omap f l) = omap f (<[c := i']> l).
Proof.
  intros Hnd Hc Hf Hf'. rewrite insert_take_drop, omap_middle, Hf' by (by eapply lookup_lt_Some).
  rewrite <- (take_drop_middle l c i Hc), omap_middle, Hf in Hnd.
  rewrite <- (take_drop_middle l c i Hc) at 1. rewrite omap_middle, Hf. simpl in *.
  apply NoDup_app in Hnd as (_ & Hn1 & [Hn2 _]%NoDup_cons).
  rewrite filter_app, filter_cons_False by naive_solver. f_equal; apply filter_without.
  - intros Hx. apply (Hn1 b Hx). by left.
  - done.
Qed.

(** ** The stages of a connection

    Its state, whether its channel is registered and watched, how many
    [connectDestroyed] are queued for it, its close callback, and whether it is
    the connection of the client. *)
Inductive cstage : StateE -> bool -> bool -> nat -> closer -> bool -> Prop :=
  | cs_open : cstage TCPConnection.kConnected true true 0 ToClient true
  | cs_half : cstage TCPConnection.kDisconnecting true true 0 ToClient true
  | cs_left_open : cstage TCPConnection.kConnected true true 0 Detached false
  | cs_left_half : cstage TCPConnection.kDisconnecting true true 0 Detached false
  | cs_closing cb : cstage TCPConnection.kDisconnected true false 1 cb false
  | cs_gone cb : cstage TCPConnection.kDisconnected false false 0 cb false.

Lemma cstage_cases s r wt n cb h : cstage s r wt n cb h ->
  (wt = true ∧ (s = TCPConnection.kConnected ∨ s = TCPConnection.kDisconnecting) ∧ r = true ∧ n = 0%nat
   ∧ (h = true ∧ cb = ToClient ∨ h = false ∧ cb = Detached))
  ∨ (wt = false ∧ s = TCPConnection.kDisconnected ∧ h = false
     ∧ (r = true ∧ n = 1%nat ∨ r = false ∧ n = 0%nat)).
Proof. destruct 1; naive_solver. Qed.

Section invariant.
#[local] Set Default Proof Using "All - removable".
Context {BT : BaseTime} {W : Type} {LO : LoopOps W} {LS : LoopSpec W} {CO : ConnectOps W}
        {KL : ConnectLaws W} {AL : Allocator}.
Context (peer : Z -> W -> bytes).
Context (removable : ∀ p x, loop_ok x -> can_remove p x).
Implicit Types (w : ClientWorld (W := W)) (k : KWorld (W := W)) (x : option conn_id) (d : bool).

Definition fds w : list Z := omap live_fd (cconns w).

(** [x] is a connection that the running step still holds. *)
Record cc_ok x w (c : conn_id) (i : ClientConn) : Prop := {
  ck_stage : cstage (conn_state (the_life i)) (registered (the_life i)) (watching (the_life i))
    (destroys c (tasks w)) (cc_close i) (bool_decide (connection w = Some c));
  ck_alive : cc_alive i = bool_decide (x = Some c) || held_by c w;
  ck_watch : watching (the_life i) = true -> x = Some c ∨ held_by c w = true;
}.

(** Who holds the connector; [d] says that a reference is being dropped. *)
Record owner_ok d w : Prop := {
  ow_client : is_Some (client w) -> kref w = true;
  ow_ref : kref w = true -> kalive w = true;
  ow_stopped : client w = None -> kref w = true -> connect_ (connector (kw w)) = false
    ∧ (kstate (kw w) = kConnecting -> KStopInLoop ∈ cqueue (kw w));
  ow_left : kref w = false -> cqueue (kw w) = [] ∧ kstate (kw w) ≠ kConnecting
    ∧ (ctimers (kw w) ≠ [] -> connect_ (connector (kw w)) = false);
  ow_timer : kref w = false -> d = false -> kalive w = true -> ctimers (kw w) ≠ [];
  ow_dead : kalive w = false -> ctimers (kw w) = [];
}.

Record clinv x d w : Prop := {
  cl_k : kinv false (kw w);
  cl_fds : delivered (kw w) = fds w;
  cl_conns : ∀ c i, cconns w !! c = Some i -> cc_ok x w c i;
  cl_tasks : ∀ t, t ∈ tasks w -> is_Some (cconns w !! task_conn t);
  cl_conn : ∀ c, connection w = Some c -> is_Some (cconns w !! c) ∧ kstate (kw w) = kConnected;
  cl_owner : owner_ok d w;
}.

Lemma new_clinv name y : loop_ok y -> socks y = ∅ -> clinv None false (new_client name y).
Proof.
  intros Hok Hs. split; try done.
  - by apply new_kinv.
  - by intros t ?%elem_of_nil.
Qed.

(** The connector or the client changes, and no connection. *)
Lemma clinv_owner x d d' w w' : clinv x d w -> cconns w' = cconns w -> tasks w' = tasks w ->
  connection w' = connection w -> kinv false (kw w') -> delivered (kw w') = delivered (kw w) ->
  (is_Some (connection w) -> kstate (kw w) = kConnected -> kstate (kw w') = kConnected) ->
  owner_ok d' w' -> clinv x d' w'.
Proof using Type.
  intros [] Hc Ht Hn Hk Hd Hs Ho. unfold fds in *. split; unfold fds; rewrite ?Hc, ?Ht, ?Hn; try done.
  - by rewrite Hd.
  - intros c i Hi. destruct (cl_conns0 c i Hi). split.
    + by rewrite Ht, Hn.
    + unfold held_by, shared. by rewrite Hn, Hc, Ht.
    + unfold held_by, shared. by rewrite Hn, Hc, Ht.
  - intros c Hcn. destruct (cl_conn0 c Hcn). split; [done|]. apply Hs; [by rewrite Hcn|done].
Qed.

(** One connection changes. *)
Lemma clinv_change x x' d d' w w' c i i' : clinv x d w -> cconns w !! c = Some i ->
  cconns w' = <[c := i']> (cconns w) -> cc_fd i' = cc_fd i -> cc_alive i' = cc_alive i ->
  kw w' = kw w ->
  (∀ c', c' ≠ c -> destroys c' (tasks w') = destroys c' (tasks w)
    ∧ mentions c' (tasks w') = mentions c' (tasks w)) ->
  (∀ t, t ∈ tasks w' -> t ∈ tasks w ∨ task_conn t = c) ->
  (connection w' = connection w ∨ connection w = Some c ∧ connection w' = None) ->
  (x = None ∨ x = Some c) -> (x' = None ∨ x' = Some c) ->
  owner_ok d' w' -> cc_ok x' w' c i' -> clinv x' d' w'.
Proof using Type.
  intros [] Hi Hcs Hfd Hal Hk Hts Hin Hcn Hx Hx' Ho Hok.
  assert (Hother : ∀ c', c' ≠ c -> cconns w' !! c' = cconns w !! c')
    by (intros; rewrite Hcs; by apply list_lookup_insert_ne).
  assert (Hsome : ∀ c', is_Some (cconns w !! c') -> is_Some (cconns w' !! c')).
  { intros c' H. destruct (decide (c' = c)) as [->|Hne]; [|by rewrite Hother].
    rewrite Hcs, list_lookup_insert_eq by (by eapply lookup_lt_Some). done. }
  assert (Hholds : ∀ c', c' ≠ c -> bool_decide (connection w' = Some c') = bool_decide (connection w = Some c')).
  { intros c' Hne. apply bool_decide_ext. destruct Hcn as [->|[-> ->]]; naive_solver. }
  assert (Hheld : ∀ c', c' ≠ c -> held_by c' w' = held_by c' w).
  { intros c' Hne. unfold held_by, shared. rewrite Hholds, Hother by done. by destruct (Hts c' Hne) as [_ ->]. }
  split; rewrite ?Hk; try done.
  - rewrite cl_fds0. unfold fds. rewrite Hcs. symmetry. eapply omap_insert; [done|].
    unfold live_fd. by rewrite Hfd, Hal.
  - intros c' j Hj. destruct (decide (c' = c)) as [->|Hne].
    + rewrite Hcs, list_lookup_insert_eq in Hj by (by eapply lookup_lt_Some). by injection Hj as <-.
    + rewrite Hother in Hj by done. destruct (cl_conns0 c' j Hj).
      assert (Hb : bool_decide (x' = Some c') = bool_decide (x = Some c')).
      { apply bool_decide_ext. naive_solver. }
      split.
      * rewrite Hholds by done. by destruct (Hts c' Hne) as [-> _].
      * by rewrite Hheld, Hb.
      * rewrite Hheld by done. intros Hw. apply ck_watch0 in Hw. naive_solver.
  - intros t [Ht| <-]%Hin; [by apply Hsome, cl_tasks0|]. apply Hsome. by rewrite Hi.
  - intros c' Hc'. destruct Hcn as [Heq|[_ Heq]]; [|congruence]. rewrite Heq in Hc'.
    destruct (cl_conn0 c' Hc'). split; [by apply Hsome|done].
Qed.

Lemma owner_weaken d w : owner_ok false w -> owner_ok d w.
Proof using Type. intros []. split; auto. Qed.

(** The owner's part speaks of the client, the connector and nothing else. *)
Lemma owner_same d w w' : owner_ok d w -> kw w' = kw w -> kref w' = kref w -> kalive w' = kalive w ->
  (is_Some (client w') ↔ is_Some (client w)) -> owner_ok d w'.
Proof using Type.
  intros [] Hk Hr Ha Hc. split; rewrite ?Hk, ?Hr, ?Ha; try done.
  - by rewrite Hc.
  - intros Hn. apply ow_stopped0. apply eq_None_not_Some. rewrite <- Hc. by rewrite Hn; intros [? [=]].
Qed.

(** ** Running the operations *)
Lemma wp_the_cc c i Q w : cconns w !! c = Some i -> Q i w -> wp (the_cc c) Q w.
Proof using Type. intros Hc HQ. apply wp_liftR. by rewrite Hc. Qed.

Lemma wp_the_client s Q w : client w = Some s -> Q s w -> wp this Q w.
Proof using Type. intros Hc HQ. apply wp_liftR. by rewrite Hc. Qed.

Lemma wp_on_client s f Q w : client w = Some s -> Q tt {| w with client := Some (f s) |} ->
  wp (on_client f) Q w.
Proof using Type. intros Hc HQ. unfold on_client. rewrite wp_bind. by eapply wp_the_client. Qed.

Lemma wp_on_k {A} (m : M KWorld A) Q w : kalive w = true ->
  wp m (λ a k, Q a {| w with kw := k |}) (kw w) -> wp (on_k m) Q w.
Proof using Type. intros Ha HQ. unfold on_k. rewrite wp_bind, wp_gets, Ha. by apply wp_zoom. Qed.

Lemma wp_in_loop Q w : kinv false (kw w) -> Q tt w -> wp client_assertInLoop Q w.
Proof.
  intros Hk HQ. unfold client_assertInLoop. rewrite wp_bind, wp_gets, law_thread by apply Hk. done.
Qed.

Lemma wp_cc_does c f i l Q w : cconns w !! c = Some i -> f (the_life i) = Ok l ->
  Q tt {| w with cconns := <[c := {| i with the_life := l |}]> (cconns w) |} -> wp (cc_does c f) Q w.
Proof using Type.
  intros Hc Hf HQ. unfold cc_does. rewrite wp_bind. eapply wp_the_cc; [exact Hc|].
  rewrite wp_bind, wp_liftR, Hf. done.
Qed.

(** A fact about every result of a computation that returns. *)
Lemma wp_fact {S A} (m : M S A) (Q : A -> S -> Prop) (P : S -> Prop) s :
  wp m Q s -> (∀ a s', m s = Ok (a, s') -> P s') -> wp m (λ a s', Q a s' ∧ P s') s.
Proof using Type. unfold wp. destruct (m s) as [[a s']|]; [eauto|done]. Qed.

(** ** Releasing references *)
Definition settled (c : conn_id) w : Prop :=
  ∀ i, cconns w !! c = Some i -> watching (the_life i) = true -> held_by c w = true.

Definition destroyed_conn (c : conn_id) (i : ClientConn) w : ClientWorld :=
  {| w with kw := {| (kw w) with lw := sock_close (cc_fd i) (lw (kw w));
                                 delivered := filter (λ fd, fd ≠ cc_fd i) (delivered (kw w)) |};
            cconns := <[c := {| i with cc_alive := false |}]> (cconns w) |}.

Lemma clinv_destroyed c d w i : clinv (Some c) d w -> cconns w !! c = Some i -> cc_alive i = true ->
  held_by c w = false -> watching (the_life i) = false -> clinv None d (destroyed_conn c i w).
Proof.
  intros [] Hi Hal Hh Hw. set (i' := {| i with cc_alive := false |}). set (w' := destroyed_conn c i w).
  assert (Hcs : cconns w' = <[c := i']> (cconns w)) by done.
  assert (Hsome : ∀ c', is_Some (cconns w !! c') -> is_Some (cconns w' !! c')).
  { intros c'. by rewrite Hcs, !lookup_lt_is_Some, length_insert. }
  assert (Hheld : ∀ c', held_by c' w' = held_by c' w).
  { intros c'. unfold held_by, shared. change (connection w') with (connection w).
    do 2 f_equal. rewrite Hcs. destruct (decide (c' = c)) as [->|Hne].
    - rewrite list_lookup_insert_eq by (by eapply lookup_lt_Some). by rewrite Hi.
    - by rewrite list_lookup_insert_ne. }
  assert (Hlive : live_fd i = Some (cc_fd i)) by (unfold live_fd; by rewrite Hal).
  assert (Hin : cc_fd i ∈ delivered (kw w)).
  { rewrite cl_fds0. apply list_elem_of_omap. exists i. split; [by eapply list_elem_of_lookup_2|done]. }
  split; try done.
  - by apply kinv_release.
  - change (filter (λ fd, fd ≠ cc_fd i) (delivered (kw w)) = omap live_fd (<[c := i']> (cconns w))).
    rewrite cl_fds0. apply (omap_remove live_fd _ c i i'); try done.
    unfold fds in cl_fds0. rewrite <- cl_fds0. apply cl_k0.
  - intros c' j Hj. rewrite Hcs in Hj. destruct (decide (c' = c)) as [->|Hne].
    + rewrite list_lookup_insert_eq in Hj by (by eapply lookup_lt_Some). injection Hj as <-.
      destruct (cl_conns0 c i Hi). split; [done|by rewrite Hheld, Hh|]. simpl. congruence.
    + rewrite list_lookup_insert_ne in Hj by done. destruct (cl_conns0 c' j Hj) as [H1 H2 H3].
      rewrite bool_decide_eq_false_2 in H2 by congruence.
      split; [done|by rewrite Hheld|]. rewrite Hheld. intros []%H3; [congruence|by right].
  - intros t Ht. by apply Hsome, cl_tasks0.
  - intros c' Hc'. destruct (cl_conn0 c' Hc'). split; [by apply Hsome|done].
  - by destruct cl_owner0.
Qed.

Lemma collect_wp c d w : clinv (Some c) d w -> is_Some (cconns w !! c) -> settled c w ->
  wp (collect c) (λ _ w', clinv None d w') w.
Proof.
  intros H [i Hi] Hset. pose proof H as []. destruct (cl_conns0 c i Hi) as [Hst Hal _].
  rewrite bool_decide_eq_true_2 in Hal by done. simpl in Hal.
  unfold collect. rewrite wp_bind. eapply wp_the_cc; [exact Hi|].
  rewrite wp_bind, wp_gets, wp_when, Hal. simpl. destruct (held_by c w) eqn:Hh; simpl.
  - eapply (clinv_change (Some c) None d d w w c i i); try done; [|by left|auto..|].
    + by rewrite list_insert_id.
    + split; [done|by rewrite Hh, Hal|by right].
  - pose proof Hh as [Hh1 [_ Hh2]%orb_false_elim]%orb_false_elim.
    destruct (cstage_cases _ _ _ _ _ _ Hst) as [(Hw & _)|(Hw & Hs & _ & Hr)].
    { apply Hset in Hw; [congruence|done]. }
    destruct Hr as [[_ Hn]|[Hr Hn]].
    { rewrite (destroys_mentions c (tasks w)) in Hh2 by lia. done. }
    rewrite wp_bind, wp_assert. split; [by apply bool_decide_eq_true|].
    rewrite wp_bind, wp_assert, Hr. split; [done|]. rewrite wp_bind, wp_modify. unfold put_cc.
    rewrite wp_modify. cbn [cconns kw client kref kalive tasks]. apply (clinv_destroyed c d w i); try done.
Qed.

Lemma owner_client d w : is_Some (client w) -> kref w = true -> kalive w = true -> owner_ok d w.
Proof using Type. intros Hc Hr Ha. split; try congruence. intros Hn. by rewrite Hn in Hc; destruct Hc. Qed.

Lemma clinv_client x d w : clinv x d w -> is_Some (client w) -> kref w = true ∧ kalive w = true.
Proof using Type. intros [] Hc. destruct cl_owner0. auto. Qed.

(** No channel is left when the functors have run. *)
Lemma channel_gone k : kinv false k -> kstate k ≠ kConnecting -> (KResetChannel ∉ cqueue k) ->
  channel_ (connector k) = None.
Proof using Type.
  intros H Hs Hq. pose proof (k_chan _ _ H) as Hc. destruct (channel_ (connector k)) as [p|]; [|done].
  destruct Hc as [ch Hci]. destruct (ci_dead _ _ _ _ Hci Hs) as (_ & _ & q1 & q2 & Heq & _).
  destruct Hq. rewrite Heq. apply elem_of_app. right. by left.
Qed.

Lemma timers_idle k : kinv false k -> kstate k ≠ kDisconnected -> ctimers k = [].
Proof using Type. intros H Hs. by destruct (k_timers _ _ H) as [?|[_ ?]]. Qed.

Lemma clinv_settle x w : clinv x true w ->
  (kalive w = true -> kref w = true ∨ ctimers (kw w) ≠ []) -> clinv x false w.
Proof.
  intros H Ht. eapply clinv_owner; [exact H|done..|apply H|done|auto|].
  destruct (cl_owner _ _ _ H). split; try done. intros Hr _ Ha. destruct (Ht Ha); [congruence|done].
Qed.

Lemma drop_connector_wp w : clinv None true w -> wp drop_connector (λ _ w', clinv None false w') w.
Proof.
  intros H. unfold drop_connector. rewrite wp_bind, wp_getS, wp_when.
  destruct (kalive w && negb (kref w) && bool_decide (ctimers (kw w) = [])) eqn:E.
  - apply andb_prop in E as [[Ha Hr%negb_true_iff]%andb_prop Ht%bool_decide_eq_true].
    destruct (ow_left _ _ (cl_owner _ _ _ H) Hr) as (Hq & Hs & Hst).
    rewrite wp_bind. apply wp_on_k; [done|]. unfold Connector_dtor. rewrite wp_assertS. split.
    { apply bool_decide_eq_true, channel_gone; [apply H|done|]. rewrite Hq. by apply not_elem_of_nil. }
    rewrite wp_modify. eapply clinv_owner; [exact H|done..|apply H|done|auto|].
    destruct (cl_owner _ _ _ H). split; simpl; try done; congruence.
  - apply clinv_settle; [done|]. intros Ha. rewrite Ha in E. simpl in E.
    destruct (kref w); [by left|]. right. by apply bool_decide_eq_false in E.
Qed.

(** ** The close of a connection *)
Lemma on_restart_wp x w : clinv x false w -> is_Some (client w) -> connection w = None ->
  kstate (kw w) = kConnected -> (KResetChannel ∉ cqueue (kw w)) ->
  wp (on_k restart) (λ _ w', clinv x false w' ∧ cconns w' = cconns w) w.
Proof.
  intros H Hc Hn Hs Hq. destruct (clinv_client x false w H Hc) as [Hr Ha].
  pose proof (cl_k _ _ _ H) as Hk. apply wp_on_k; [done|]. eapply wp_mono.
  { eapply wp_fact; [apply restart_wp|intros a k'; apply restart_started]; [done|].
    unfold idle. rewrite channel_gone, timers_idle by (rewrite ?Hs; done). done. }
  intros [] k' (Hk' & _ & _ & Hd). split; [|done].
  eapply clinv_owner; [exact H|done..|rewrite Hn; by intros []|by apply owner_client].
Qed.

Lemma closed_open l : conn_state l = TCPConnection.kConnected ∨ conn_state l = TCPConnection.kDisconnecting ->
  closed l = Ok {| l with conn_state := TCPConnection.kDisconnected; watching := false |}.
Proof using Type. intros H. unfold closed. by rewrite bool_decide_eq_true_2. Qed.

Lemma task_added ts t c : c ≠ task_conn t -> destroys c (ts ++ [t]) = destroys c ts
  ∧ mentions c (ts ++ [t]) = mentions c ts.
Proof using Type.
  intros Hne. rewrite destroys_app, mentions_app, (other_destroys (task_conn t)),
    (other_mentions (task_conn t)) by done. rewrite orb_false_r. split; [lia|done].
Qed.

Lemma client_handleClose_wp c x w i : clinv x false w -> (x = None ∨ x = Some c) -> cconns w !! c = Some i ->
  watching (the_life i) = true -> cc_alive i = true -> (KResetChannel ∉ cqueue (kw w)) ->
  wp (handleClose c) (λ _ w', clinv (Some c) false w' ∧ is_Some (cconns w' !! c) ∧ settled c w') w.
Proof.
  intros H Hx Hi Hw Hal Hq. pose proof H as []. destruct (cl_conns0 c i Hi) as [Hst Hal' _].
  destruct (cstage_cases _ _ _ _ _ _ Hst) as [(_ & Hs & Hreg & Hn & Hcb)|(? & _)]; [|congruence].
  unfold handleClose. rewrite wp_bind. apply wp_in_loop; [done|]. rewrite wp_bind.
  eapply wp_cc_does; [exact Hi|by apply closed_open|]. set (l := {| (the_life i) with conn_state := _; watching := _ |}).
  set (i' := {| i with the_life := l |}). rewrite wp_bind.
  assert (Hi' : <[c := i']> (cconns w) !! c = Some i')
    by (apply list_lookup_insert_eq; by eapply lookup_lt_Some).
  eapply wp_the_cc; [exact Hi'|].
  assert (Hchange : ∀ w', cconns w' = <[c := i']> (cconns w) -> kw w' = kw w ->
    tasks w' = tasks w ++ [TDestroy c] -> connection w' ≠ Some c ->
    (connection w' = connection w ∨ connection w = Some c ∧ connection w' = None) ->
    owner_ok false w' ->
    clinv (Some c) false w' ∧ is_Some (cconns w' !! c) ∧ settled c w').
  { intros w' Hcs Hkw Hts Hne Hcn Ho. split_and!.
    - eapply (clinv_change x (Some c) false false w w' c i i'); try done; [| |by right|].
      + intros c' Hc'. rewrite Hts. by apply task_added.
      + intros t. rewrite Hts. intros [?| ->%list_elem_of_singleton]%elem_of_app; [by left|by right].
      + split; [|by rewrite bool_decide_eq_true_2|done].
        rewrite Hts, destroys_app, Hn, destroys_one, decide_True, bool_decide_eq_false_2 by done.
        simpl. rewrite Hreg. constructor.
    - by rewrite Hcs, Hi'.
    - intros j. rewrite Hcs, Hi'. intros [= <-]. done. }
  destruct Hcb as [[Hh Hcb]|[Hh Hcb]]; simpl; rewrite Hcb.
  - apply bool_decide_eq_true in Hh. destruct (cl_conn0 c Hh) as [_ Hks].
    unfold connection in Hh. destruct (client w) as [s|] eqn:Hcl; [|done]. simpl in Hh.
    destruct (clinv_client x false w H ltac:(by rewrite Hcl)) as [Hr Ha].
    unfold removeConnection. rewrite wp_bind. apply wp_in_loop; [done|]. rewrite wp_bind.
    eapply wp_the_client; [reflexivity|]. rewrite wp_bind, wp_assert. split; [by apply bool_decide_eq_true|].
    rewrite wp_bind. eapply wp_on_client; [reflexivity|]. unfold queueTask. rewrite wp_bind, wp_modify.
    rewrite wp_bind. eapply wp_the_client; [done|]. set (w1 := mkClientWorld _ _ _ _ _ _).
    destruct (Hchange w1) as (H1 & H2 & H3); try done.
    { right. unfold connection. by rewrite Hcl. }
    { by apply owner_client. }
    rewrite wp_when. destruct (retry_ _ && _); [|done].
    eapply wp_mono; [apply (on_restart_wp (Some c)); try done|].
    intros _ w' [H' Hcs]. unfold settled in *. rewrite Hcs. split_and!; [done..|].
    intros j Hj Hwj. change (cconns w1) with (<[c := i']> (cconns w)) in Hj. rewrite Hi' in Hj. by injection Hj as <-.
  - unfold queueTask. rewrite wp_modify. apply Hchange; try done.
    + change (connection w ≠ Some c). by apply bool_decide_eq_false in Hh.
    + by left.
    + by eapply owner_same.
Qed.

(** ** What the user does to a connection *)
Lemma cstage_shut l n cb h : cstage (conn_state l) (registered l) (watching l) n cb h ->
  cstage (conn_state (shut l)) (registered (shut l)) (watching (shut l)) n cb h.
Proof using Type.
  unfold shut. case_bool_decide as Hs; [|done]. simpl. rewrite Hs. inversion 1; constructor.
Qed.

Lemma watching_shut l : watching (shut l) = watching l.
Proof using Type. unfold shut. by case_bool_decide. Qed.

Lemma clinv_stage x d w c i : clinv x d w -> cconns w !! c = Some i ->
  cstage (conn_state (the_life i)) (registered (the_life i)) (watching (the_life i))
    (destroys c (tasks w)) (cc_close i) (bool_decide (connection w = Some c)).
Proof using Type. intros [] Hi. by destruct (cl_conns0 c i Hi). Qed.

Lemma clinv_held d w c i : clinv None d w -> cconns w !! c = Some i -> cc_alive i = held_by c w.
Proof using Type. intros [] Hi. by destruct (cl_conns0 c i Hi). Qed.

Lemma closable_watching x w c i : cc_ok x w c i -> closable i = watching (the_life i).
Proof using Type.
  intros [Hst _ _]. unfold closable. apply cstage_cases in Hst as [(-> & Hs & _)|(-> & -> & _)].
  - by apply bool_decide_eq_true.
  - apply bool_decide_eq_false. intros [[=]|[=]].
Qed.

(** The state of a connection moves on, its close callback, its user and what is queued for it
    in step. *)
Lemma clinv_conn d d' w w' c i i' : clinv None d w -> cconns w !! c = Some i ->
  cconns w' = <[c := i']> (cconns w) -> cc_fd i' = cc_fd i -> cc_alive i' = cc_alive i ->
  kw w' = kw w -> (tasks w' = tasks w ∨ tasks w' = tasks w ++ [TForceClose c]) ->
  (connection w' = connection w ∨ connection w = Some c ∧ connection w' = None) ->
  owner_ok d' w' -> watching (the_life i') = watching (the_life i) ->
  cstage (conn_state (the_life i')) (registered (the_life i')) (watching (the_life i'))
    (destroys c (tasks w)) (cc_close i') (bool_decide (connection w' = Some c)) ->
  held_by c w' = held_by c w -> clinv None d' w'.
Proof using Type.
  intros H Hi Hcs Hfd Hal Hk Hts Hcn Ho Hw Hst Hh.
  eapply (clinv_change None None d d' w w' c i i'); try done; [| |by left..|].
  - intros c' Hc'. destruct Hts as [->| ->]; [done|]. by apply task_added.
  - intros t. destruct Hts as [->| ->]; [by left|].
    intros [?| ->%list_elem_of_singleton]%elem_of_app; [by left|by right].
  - destruct (cl_conns _ _ _ H c i Hi) as [_ Hal' Hw']. split; rewrite ?Hh, ?Hw, ?Hal; try done.
    rewrite <- Hw. destruct Hts as [->| ->]; [done|]. by rewrite destroys_app, destroys_one, decide_False, Nat.add_0_r.
Qed.

Lemma does_wp w c f : clinv None false w -> is_Some (cconns w !! c) ->
  (∀ l, watching (f l) = watching l) ->
  (∀ l n cb h, cstage (conn_state l) (registered l) (watching l) n cb h ->
     cstage (conn_state (f l)) (registered (f l)) (watching (f l)) n cb h) ->
  wp (cc_does c (λ l, Ok (f l))) (λ _ w', clinv None false w') w.
Proof.
  intros H [i Hi] Hfw Hfs. eapply wp_cc_does; [exact Hi|done|].
  eapply (clinv_conn false false w _ c i); try done; [by left|by left| |apply Hfw| |].
  - by eapply owner_same; [apply H|..].
  - apply Hfs. exact (clinv_stage _ _ _ _ _ H Hi).
  - unfold held_by, shared. cbn [cconns]. rewrite list_lookup_insert_eq by (by eapply lookup_lt_Some).
    by rewrite Hi.
Qed.

Lemma shut_wp w c : clinv None false w -> is_Some (cconns w !! c) ->
  wp (cc_does c (λ l, Ok (shut l))) (λ _ w', clinv None false w') w.
Proof. intros. apply does_wp; [done..|apply watching_shut|apply cstage_shut]. Qed.

Lemma idle_wp w c b : clinv None false w -> is_Some (cconns w !! c) ->
  wp (cc_does c (λ l, Ok (set_idle b l))) (λ _ w', clinv None false w') w.
Proof. intros. apply does_wp; [done..| |]; intros l; unfold set_idle; by destruct (watching l) eqn:E; rewrite ?E. Qed.

Lemma forceClose_wp w c : clinv None false w -> is_Some (cconns w !! c) ->
  wp (client_forceClose c) (λ _ w', clinv None false w') w.
Proof.
  intros H [i Hi]. unfold client_forceClose. rewrite wp_bind. eapply wp_the_cc; [exact Hi|].
  rewrite wp_when. pose proof (cl_conns _ _ _ H c i Hi) as Hok.
  rewrite (closable_watching _ _ _ _ Hok). destruct (watching (the_life i)) eqn:Hw; [|done].
  rewrite wp_bind. eapply wp_cc_does; [exact Hi|done|]. unfold queueTask. rewrite wp_modify.
  eapply (clinv_conn false false w _ c i); try done; [by right|by left| |apply watching_shut| |].
  - by eapply owner_same; [apply H|..].
  - apply cstage_shut. exact (clinv_stage _ _ _ _ _ H Hi).
  - destruct (ck_watch _ _ _ _ Hok Hw) as [?| ->]; [done|].
    unfold held_by, shared. cbn [tasks]. rewrite mentions_app, mentions_force.
    by rewrite !orb_true_r.
Qed.

Lemma hold_wp w c : clinv None false w -> is_Some (cconns w !! c) -> user_has c w = true ->
  wp (ustep peer (UHold c)) (λ _ w', clinv None false w') w.
Proof.
  intros H [i Hi] Hu. simpl. rewrite wp_bind. eapply wp_the_cc; [exact Hi|]. unfold put_cc. rewrite wp_modify.
  eapply (clinv_conn false false w _ c i); try done; [by left|by left| |exact (clinv_stage _ _ _ _ _ H Hi)|].
  - by eapply owner_same; [apply H|..].
  - assert (held_by c w = true) as ->.
    { unfold held_by, shared, user_has in *. by apply orb_true_iff in Hu as [->| ->]; rewrite ?orb_true_r. }
    unfold held_by, shared. cbn [cconns]. rewrite list_lookup_insert_eq by (by eapply lookup_lt_Some).
    simpl. by rewrite orb_true_r.
Qed.

Lemma release_wp w c i : clinv None false w -> cconns w !! c = Some i -> cc_user i = true ->
  (watching (the_life i) = false ∨ cc_close i = ToClient) ->
  wp (ustep peer (URelease c)) (λ _ w', clinv None false w') w.
Proof.
  intros H Hi Hu Hsafe. simpl. rewrite wp_bind. eapply wp_the_cc; [exact Hi|].
  rewrite wp_bind. unfold put_cc. rewrite wp_modify. set (w1 := mkClientWorld _ _ _ _ _ _).
  set (i' := {| i with cc_user := false |}).
  pose proof (cl_conns _ _ _ H c i Hi) as [Hst Hal Hw]. simpl in Hal.
  assert (Hi' : cconns w1 !! c = Some i') by (apply list_lookup_insert_eq; by eapply lookup_lt_Some).
  apply collect_wp.
  - eapply (clinv_change None (Some c) false false w w1 c i i'); try done; [by left..|by right| |].
    + by eapply owner_same; [apply H|..].
    + split; [done| |by left]. rewrite bool_decide_eq_true_2 by done. simpl. rewrite Hal.
      unfold held_by, shared. by rewrite Hi; simpl; rewrite Hu, orb_true_r.
  - by rewrite Hi'.
  - intros j Hj Hwj. rewrite Hi' in Hj. injection Hj as <-. simpl in Hwj.
    apply cstage_cases in Hst as [(_ & _ & _ & _ & Hcb)|(? & _)]; [|congruence].
    destruct Hsafe; [congruence|]. destruct Hcb as [[Hb _]|[_ ?]]; [|congruence].
    unfold held_by. change (connection w1) with (connection w). by rewrite Hb.
Qed.

(** ** Functors of connections *)
Lemma task_popped t ts c : c ≠ task_conn t -> destroys c ts = destroys c (t :: ts)
  ∧ mentions c ts = mentions c (t :: ts).
Proof using Type.
  intros Hne. rewrite destroys_cons, mentions_cons, (other_destroys (task_conn t)),
    (other_mentions (task_conn t)) by done. done.
Qed.

(** The functor has been taken from the queue, and the connection may have changed. *)
Lemma clinv_popped w w' t ts i i' : clinv None false w -> tasks w = t :: ts ->
  cconns w !! task_conn t = Some i -> tasks w' = ts -> cconns w' = <[task_conn t := i']> (cconns w) ->
  cc_fd i' = cc_fd i -> cc_alive i' = cc_alive i -> kw w' = kw w -> client w' = client w ->
  kref w' = kref w -> kalive w' = kalive w ->
  cstage (conn_state (the_life i')) (registered (the_life i')) (watching (the_life i'))
    (destroys (task_conn t) ts) (cc_close i') (bool_decide (connection w = Some (task_conn t))) ->
  clinv (Some (task_conn t)) false w'.
Proof using Type.
  intros H Hts Hi Hts' Hcs Hfd Hal Hk Hcl Hr Ha Hst.
  assert (Hcn : connection w' = connection w) by (unfold connection; by rewrite Hcl).
  eapply (clinv_change None _ false false w w' (task_conn t) i i'); try done; [| |by left|by left|by right| |].
  - intros c' Hc'. rewrite Hts, Hts'. by apply task_popped.
  - intros t'. rewrite Hts, Hts'. left. by apply elem_of_cons; right.
  - eapply owner_same; [apply H|done..|by rewrite Hcl].
  - split; [by rewrite Hcn, Hts'| |by left]. rewrite bool_decide_eq_true_2, Hal by done.
    rewrite (clinv_held _ _ _ _ H Hi). unfold held_by, shared.
    rewrite Hts, mentions_cons, mentions_self. by rewrite !orb_true_r.
Qed.

Lemma task_wp w t ts : clinv None false w -> tasks w = t :: ts ->
  (KResetChannel ∉ cqueue (kw w) ∨ ∀ c i, t = TForceClose c -> cconns w !! c = Some i -> closable i = false) ->
  wp (modify (λ w, {| w with tasks := ts |}) ;;; run_task t ;;; collect (task_conn t))
    (λ _ w', clinv None false w') w.
Proof.
  intros H Hts Hen. rewrite wp_bind, wp_modify, wp_bind. set (w1 := mkClientWorld _ _ _ _ _ _).
  destruct (cl_tasks _ _ _ H t) as [i Hi]; [rewrite Hts; by left|].
  pose proof (cl_conns _ _ _ H _ _ Hi) as Hok. pose proof Hok as [Hst _ _].
  rewrite Hts, destroys_cons, destroys_one in Hst.
  destruct t as [c|c]; simpl; simpl in Hi, Hst, Hok; rewrite wp_bind; (apply wp_in_loop; [apply H|]).
  - rewrite decide_True in Hst by done.
    apply cstage_cases in Hst as [(_ & _ & _ & ? & _)|(Hw & Hs & Hh & [[Hr Hn]|[_ ?]])]; [lia| |lia].
    eapply wp_cc_does; [exact Hi| |].
    { unfold destroyed. rewrite Hs, bool_decide_eq_false_2 by done. rewrite Hr, Hw. done. }
    set (i' := {| i with the_life := _ |}). apply collect_wp.
    + eapply (clinv_popped w _ (TDestroy c) ts i i'); try done. simpl. rewrite ?Hs, ?Hw, ?Hh.
      assert (destroys c ts = 0)%nat as -> by lia. constructor.
    + cbn [cconns]. rewrite list_lookup_insert_eq by (by eapply lookup_lt_Some). done.
    + intros j. cbn [cconns]. rewrite list_lookup_insert_eq by (by eapply lookup_lt_Some).
      intros [= <-]. simpl. congruence.
  - assert (H1 : clinv (Some c) false w1).
    { eapply (clinv_popped w w1 (TForceClose c) ts i i); try done. by rewrite list_insert_id. }
    rewrite wp_bind. eapply wp_the_cc; [exact Hi|]. rewrite wp_when.
    destruct (closable i) eqn:Hc.
    + destruct Hen as [Hq|Hen]; [|by rewrite (Hen c i) in Hc].
      rewrite (closable_watching _ _ _ _ Hok) in Hc.
      eapply wp_mono; [apply (client_handleClose_wp c (Some c) w1 i); try done; [by right|]|].
      { rewrite (clinv_held _ _ _ _ H Hi). unfold held_by, shared.
        rewrite Hts, mentions_cons, mentions_force. by rewrite !orb_true_r. }
      intros [] w2 (H2 & Hi2 & Hs2). by apply collect_wp.
    + apply collect_wp; [done|by exists i|]. intros j Hj. change (cconns w !! c = Some j) in Hj.
      rewrite Hi in Hj. injection Hj as <-.
      rewrite <- (closable_watching _ _ _ _ Hok). congruence.
Qed.

(** ** A new connection *)
Lemma client_newConnection_wp fd w k : clinv None false w -> is_Some (client w) -> connection w = None ->
  kinv false k -> delivered k = delivered (kw w) ++ [fd] -> kstate k = kConnected ->
  wp (newConnection peer fd) (λ _ w', clinv None false w') {| w with kw := k |}.
Proof.
  intros H Hcl Hn Hk Hd Hs. destruct (clinv_client _ _ _ H Hcl) as [Hr Ha].
  destruct Hcl as [s Hcl]. unfold connection in Hn. rewrite Hcl in Hn. simpl in Hn.
  unfold newConnection. rewrite wp_bind. apply wp_in_loop; [done|]. rewrite wp_bind.
  eapply wp_the_client; [exact Hcl|]. rewrite wp_bind, wp_gets, wp_bind.
  eapply wp_on_client; [exact Hcl|]. rewrite wp_bind, wp_gets, wp_bind, wp_modify, wp_bind.
  eapply wp_on_client; [reflexivity|]. rewrite wp_bind, Hn. simpl. rewrite wp_ret.
  set (n := length (cconns w)). set (i := new_client_conn _ fd).
  eapply (wp_cc_does n _ i); [apply list_lookup_middle; done|reflexivity|].
  cbn [cconns client kw kref kalive tasks].
  set (i' := {| i with the_life := _ |}).
  assert (<[n := i']> (cconns w ++ [i]) = cconns w ++ [i']) as ->.
  { rewrite <- (Nat.add_0_r n). unfold n. by rewrite insert_app_r. }
  set (w' := mkClientWorld _ _ _ _ _ _).
  assert (Hold : ∀ c, (c < n)%nat -> cconns w' !! c = cconns w !! c)
    by (intros; by apply lookup_app_l).
  assert (Hnew : cconns w' !! n = Some i') by by apply list_lookup_middle.
  assert (Hcn : ∀ c, connection w' = Some c ↔ c = n) by (intros c; unfold connection; simpl; naive_solver).
  assert (Hout : ∀ t, t ∈ tasks w -> task_conn t ≠ n).
  { intros t [j Hj%lookup_lt_Some]%(cl_tasks _ _ _ H). unfold n. lia. }
  pose proof H as []. split; try done.
  - change (delivered k = omap live_fd (cconns w ++ [i'])). rewrite omap_app, Hd, cl_fds0. done.
  - intros c j Hj. destruct (decide (c < n)%nat) as [Hlt|Hge].
    + rewrite Hold in Hj by done. destruct (cl_conns0 c j Hj) as [H1 H2 H3].
      assert (Hb : bool_decide (connection w' = Some c) = bool_decide (connection w = Some c)).
      { apply bool_decide_ext. rewrite Hcn. unfold connection. rewrite Hcl. simpl. rewrite Hn.
        split; [lia|done]. }
      assert (Hh : held_by c w' = held_by c w) by (unfold held_by, shared; by rewrite Hb, Hold).
      by split; rewrite ?Hb, ?Hh.
    + assert (c = n) as ->.
      { apply lookup_lt_Some in Hj. simpl in Hj. rewrite length_app in Hj. simpl in Hj. unfold n in *. lia. }
      assert (j = i') as -> by congruence.
      assert (Hb : bool_decide (connection w' = Some n) = true) by by apply bool_decide_eq_true, Hcn.
      split.
      * rewrite Hb. assert (destroys n (tasks w') = 0%nat) as ->; [|constructor].
        unfold destroys. destruct (filter _ (tasks w')) as [|t ts] eqn:E; [done|].
        assert (t ∈ filter (λ t, t = TDestroy n) (tasks w')) as [Ht Hin]%list_elem_of_filter
          by (rewrite E; by left).
        apply Hout in Hin. by rewrite Ht in Hin.
      * unfold held_by. by rewrite Hb.
      * right. unfold held_by. by rewrite Hb.
  - intros t Ht. destruct (cl_tasks0 t Ht) as [j Hj]. rewrite Hold; [by rewrite Hj|].
    by apply lookup_lt_Some in Hj.
  - intros c ->%Hcn. by rewrite Hnew.
  - by apply owner_client.
Qed.

(** ** Steps of the connector *)
Lemma client_calls f w : clinv None false w -> (∀ s, connection_ (f s) = connection_ s) ->
  is_Some (client w) -> wp (on_client f) (λ _ w', clinv None false w' ∧ kw w' = kw w
    ∧ is_Some (client w')) w.
Proof.
  intros H Hf [s Hs]. eapply wp_on_client; [exact Hs|]. split_and!; [|done..].
  assert (Hcn : option_bind _ _ connection_ (Some (f s)) = client w ≫= connection_)
    by (rewrite Hs; simpl; by rewrite Hf).
  eapply clinv_owner; [exact H|done|done|exact Hcn|apply H|done|done|].
  eapply owner_same; [apply H|done..|by rewrite Hs].
Qed.

Lemma client_connect_wp w : clinv None false w -> is_Some (client w) -> cenabled CStart (kw w) = true ->
  wp client_connect (λ _ w', clinv None false w') w.
Proof using All.
  intros H Hcl He. unfold client_connect. rewrite wp_bind.
  eapply wp_mono; [apply client_calls; [done..]|]. intros [] w1 (H1 & Hk & Hcl1).
  destruct (clinv_client _ _ _ H1 Hcl1) as [Hr Ha]. rewrite <- Hk in He.
  pose proof (cl_k _ _ _ H1) as Hkinv.
  apply wp_on_k; [done|]. eapply wp_mono.
  { eapply wp_fact; [by apply (step_wp removable (kw w1) CStart)|].
    intros a k'. apply start_started, law_thread, Hkinv. }
  intros [] k' (Hk' & _ & _ & Hd).
  eapply clinv_owner; [exact H1|done..| |by apply owner_client].
  intros _ Hs. simpl in He. apply andb_prop in He as [_ ?%bool_decide_eq_true]. unfold kstate in Hs. congruence.
Qed.

Lemma stop_ok k : kinv false k -> stop k = Ok (tt, {| k with connector := {| (connector k) with connect_ := false |};
  cqueue := cqueue k ++ [KStopInLoop] |}).
Proof using Type. done. Qed.

Lemma on_stop_wp w (Q : () -> ClientWorld -> Prop) : clinv None false w -> is_Some (client w) ->
  (∀ k', kinv false k' -> delivered k' = delivered (kw w) -> kstate k' = kstate (kw w) ->
    connect_ (connector k') = false -> KStopInLoop ∈ cqueue k' -> Q tt {| w with kw := k' |}) ->
  wp (on_k stop) Q w.
Proof.
  intros H Hcl HQ. destruct (clinv_client _ _ _ H Hcl) as [Hr Ha]. apply wp_on_k; [done|].
  pose proof (stop_wp (kw w) (cl_k _ _ _ H)) as Hst. unfold wp in *. rewrite stop_ok in * by apply H.
  apply HQ; try done. simpl. apply elem_of_app. right. by left.
Qed.

Lemma client_stop_wp w : clinv None false w -> is_Some (client w) ->
  wp client_stop (λ _ w', clinv None false w') w.
Proof.
  intros H Hcl. unfold client_stop. rewrite wp_bind.
  eapply wp_mono; [apply client_calls; [done..]|]. intros [] w1 (H1 & Hk & Hcl1).
  destruct (clinv_client _ _ _ H1 Hcl1) as [Hr Ha].
  apply on_stop_wp; [done..|]. intros k' Hk' Hd Hs _ _.
  eapply clinv_owner; [exact H1|done..|simpl; by rewrite Hs|by apply owner_client].
Qed.

Lemma disconnect_wp w : clinv None false w -> is_Some (client w) ->
  wp disconnect (λ _ w', clinv None false w') w.
Proof.
  intros H Hcl. unfold disconnect. rewrite wp_bind.
  eapply wp_mono; [apply client_calls; [done..]|]. intros [] w1 (H1 & Hk & [s Hs]).
  rewrite wp_bind. eapply wp_the_client; [exact Hs|]. destruct (connection_ s) as [c|] eqn:Hc; [|done].
  apply shut_wp; [done|]. apply (cl_conn _ _ _ H1). unfold connection. by rewrite Hs.
Qed.

Lemma functor_step_wp w : clinv None false w -> cqueue (kw w) ≠ [] ->
  wp (on_k (cstep CFunctor)) (λ _ w', clinv None false w') w.
Proof using All.
  intros H Hq. pose proof (cl_owner _ _ _ H) as []. pose proof (cl_k _ _ _ H) as Hk.
  assert (Hr : kref w = true) by (destruct (kref w) eqn:Hr; [done|]; by destruct (ow_left0 eq_refl)).
  pose proof (ow_ref0 Hr) as Ha. destruct (cqueue (kw w)) as [|f q] eqn:Hqe; [done|].
  apply wp_on_k; [done|]. eapply wp_mono.
  { eapply wp_fact; [by apply (step_wp removable (kw w) CFunctor)|]. intros a k'. apply (functor_ran _ f q); [done|].
    intros ->. apply (k_queue _ _ Hk). rewrite Hqe. by left. }
  intros [] k' (Hk' & [Hc Hcd Hcg Hd Hst]).
  eapply clinv_owner; [exact H|done..|]. split; simpl; try congruence; auto.
  intros Hcl _. destruct (ow_stopped0 Hcl Hr) as [Hf Hin]. split; [congruence|].
  intros Hs. rewrite Hqe in Hst. destruct (Hst (Hin (Hcg Hs))); [done|congruence].
Qed.

Lemma timer_step_wp w i : clinv None false w -> channel_ (connector (kw w)) = None ->
  is_Some (ctimers (kw w) !! i) -> wp (ustep peer (UTimer i)) (λ _ w', clinv None false w') w.
Proof using All.
  intros H Hch [t Ht]. pose proof (cl_owner _ _ _ H) as []. pose proof (cl_k _ _ _ H) as Hk.
  assert (Hne : ctimers (kw w) ≠ []) by (intros E; by rewrite E in Ht).
  assert (Ha : kalive w = true) by (destruct (kalive w); [done|by specialize (ow_dead0 eq_refl)]).
  simpl. rewrite wp_bind. apply wp_on_k; [done|]. eapply wp_mono.
  { eapply wp_fact; [apply (step_wp removable (kw w) (CTimer i)); [done|by apply bool_decide_eq_true]|].
    intros a k'. by eapply timer_started. }
  intros [] k' (Hk' & [Hc Hs Hd Hidle]). simpl in *. apply drop_connector_wp.
  eapply clinv_owner; [exact H|done..| |].
  - intros _ Hcd. destruct (k_timers _ _ Hk) as [?|[_ ?]]; [done|congruence].
  - split; simpl; try congruence; auto.
    + intros Hcl Hr. destruct (ow_stopped0 Hcl Hr) as [Hf Hin]. by rewrite (Hidle Hf).
    + intros Hr. destruct (ow_left0 Hr) as (Hq & Hsk & Hf). by rewrite (Hidle (Hf Hne)); auto.
Qed.

Lemma ready_step_wp w revents t : clinv None false w -> kstate (kw w) = kConnecting ->
  wp (on_ready peer revents t) (λ _ w', clinv None false w') w.
Proof using All.
  intros H Hs. pose proof (cl_owner _ _ _ H) as []. pose proof (cl_k _ _ _ H) as Hk.
  assert (Hr : kref w = true) by (destruct (kref w) eqn:Hr; [done|]; by destruct (ow_left0 eq_refl) as (_ & ? & _)).
  assert (Hn : connection w = None).
  { destruct (connection w) as [c|] eqn:Hc; [|done]. destruct (cl_conn _ _ _ H c Hc). congruence. }
  pose proof (ow_ref0 Hr) as Ha.
  unfold on_ready. rewrite wp_bind, wp_gets, wp_bind. apply wp_on_k; [done|]. eapply wp_mono.
  { eapply wp_fact; [apply (step_wp removable (kw w) (CReady revents t)); [done|by apply bool_decide_eq_true]|].
    intros a k'. apply ready_handled. }
  intros [] k' (Hk' & [Hc Hcd Hcg [q Hq] Hd]). rewrite wp_bind, wp_gets. cbn [kw].
  destruct Hd as [Hd|([fd Hd] & Hcn & _ & Hs')].
  - rewrite Hd, drop_all. simpl. rewrite wp_ret.
    eapply clinv_owner; [exact H|done..|]. split; simpl; try congruence; auto.
    intros Hcl _. destruct (ow_stopped0 Hcl Hr) as [Hf Hin]. split; [congruence|].
    intros Hs1. rewrite Hq. apply elem_of_app. left. auto.
  - rewrite Hd, drop_app_length. simpl. rewrite wp_bind.
    eapply wp_mono; [apply client_newConnection_wp; try done|by intros [] w' ?].
    destruct (client w) eqn:Hcl; [done|]. destruct (ow_stopped0 eq_refl Hr). congruence.
Qed.

(** ** The destructor *)
Lemma client_dtor_wp w : clinv None false w -> is_Some (client w) ->
  (connection w = None ∨ cqueue (kw w) = []) -> wp TCPClient_dtor (λ _ w', clinv None false w') w.
Proof.
  intros H Hcl Hen. destruct (clinv_client _ _ _ H Hcl) as [Hr Ha]. pose proof Hcl as [s Hs].
  unfold TCPClient_dtor. rewrite wp_bind. eapply wp_the_client; [exact Hs|]. rewrite wp_bind.
  destruct (connection_ s) as [c|] eqn:Hc.
  - assert (Hcn : connection w = Some c) by (unfold connection; by rewrite Hs).
    destruct Hen as [?|Hq]; [congruence|]. destruct (cl_conn _ _ _ H c Hcn) as [[i Hi] Hks].
    pose proof (cl_conns _ _ _ H c i Hi) as Hok. pose proof Hok as [Hst _ _].
    rewrite bool_decide_eq_true_2 in Hst by done.
    apply cstage_cases in Hst as [(Hw & Hcs & Hreg & Hdn & _)|(_ & _ & [=] & _)].
    assert (Hclos : closable i = true) by by apply bool_decide_eq_true.
    rewrite wp_bind, wp_gets, wp_bind. eapply wp_the_cc; [exact Hi|].
    rewrite wp_bind. unfold put_cc. rewrite wp_modify.
    set (i1 := {| i with cc_close := Detached |}). set (w1 := mkClientWorld _ _ _ _ _ _).
    assert (Hi1 : cconns w1 !! c = Some i1) by (apply list_lookup_insert_eq; by eapply lookup_lt_Some).
    assert (Hend : ∀ w2 i2, cconns w2 = <[c := i2]> (cconns w) -> cc_fd i2 = cc_fd i ->
      cc_alive i2 = cc_alive i -> cc_close i2 = Detached -> kw w2 = kw w -> kalive w2 = true ->
      cstage (conn_state (the_life i2)) (registered (the_life i2)) (watching (the_life i2)) 0 Detached false ->
      (tasks w2 = tasks w ∨ tasks w2 = tasks w ++ [TForceClose c]) -> shared c w2 = true ->
      wp (modify (λ w, {| w with client := None; kref := bool_decide (Some c = @None conn_id) |}) ;;;
          from_option collect (mret tt) (Some c) ;;; drop_connector) (λ _ w', clinv None false w') w2).
    { intros w2 i2 Hcs2 Hfd Hal Hcb Hkw Ha2 Hst2 Hts Hsh. rewrite wp_bind, wp_modify, wp_bind. simpl.
      set (w3 := mkClientWorld _ _ _ _ _ _).
      assert (Hh : held_by c w3 = true) by (unfold held_by; by change (shared c w3) with (shared c w2); rewrite Hsh, orb_true_r).
      eapply wp_mono; [apply (collect_wp c true)|intros a w4 H4; by apply drop_connector_wp].
      - eapply (clinv_change None (Some c) false true w w3 c i i2); try done; [| |by right|by left|by right| |].
        + intros c' Hc'. simpl. destruct Hts as [->| ->]; [done|]. by apply task_added.
        + intros t. simpl. destruct Hts as [->| ->]; [by left|].
          intros [?| ->%list_elem_of_singleton]%elem_of_app; [by left|by right].
        + split; simpl; rewrite ?Hkw; try done; try congruence.
          intros _. split_and!; [done|congruence|]. rewrite (timers_idle (kw w)); [done|apply H|congruence].
        + split; [|rewrite Hh, Hal|by right].
          * simpl. rewrite Hcb. destruct Hts as [->| ->]; [by rewrite Hdn|].
            by rewrite destroys_app, destroys_one, Hdn.
          * rewrite (clinv_held _ _ _ _ H Hi). unfold held_by. rewrite Hcn, bool_decide_eq_true_2 by done.
            done.
      - simpl. rewrite Hcs2, list_lookup_insert_eq by (by eapply lookup_lt_Some). done.
      - by intros j _ _. }
    rewrite wp_when. destruct (shared c w) eqn:Hsh; simpl.
    + apply (Hend w1 i1); try done; [|by left|].
      * simpl. rewrite Hreg, Hw. destruct Hcs as [->| ->]; constructor.
      * unfold shared in *. rewrite Hi1. rewrite Hi in Hsh. exact Hsh.
    + unfold client_forceClose. rewrite wp_bind. eapply wp_the_cc; [exact Hi1|]. rewrite wp_when.
      change (closable i1) with (closable i). rewrite Hclos, wp_bind.
      eapply wp_cc_does; [exact Hi1|done|]. unfold queueTask. rewrite wp_modify.
      cbn [cconns tasks kw client kref kalive]. set (i2 := {| i1 with the_life := _ |}).
      change (cconns w1) with (<[c := i1]> (cconns w)). rewrite list_insert_insert_eq.
      eapply (Hend _ i2); try done; [|by right|].
      * apply cstage_shut. simpl. rewrite Hreg, Hw. destruct Hcs as [->| ->]; constructor.
      * unfold shared. cbn [tasks]. by rewrite mentions_app, mentions_force, !orb_true_r.
  - apply on_stop_wp; [done..|]. intros k' Hk' Hd Hks Hcf Hst.
    rewrite wp_bind, wp_modify, wp_bind. simpl. rewrite wp_ret. apply drop_connector_wp.
    eapply clinv_owner; [exact H|done|done| |done|done| |].
    + unfold connection. by rewrite Hs; simpl.
    + simpl. by rewrite Hks.
    + split; simpl; try done; try congruence; auto.
Qed.

(** ** Every step *)
Lemma user_has_some x d c w : clinv x d w -> user_has c w = true -> is_Some (cconns w !! c).
Proof using Type.
  intros H Hu. unfold user_has in Hu. apply orb_true_iff in Hu as [Hc%bool_decide_eq_true|Hu].
  - by destruct (cl_conn _ _ _ H c Hc).
  - destruct (cconns w !! c); [done|discriminate].
Qed.

Lemma grace_wp w : clinv None false w -> client w = None -> kref w = true -> cqueue (kw w) = [] ->
  wp (ustep peer UGrace) (λ _ w', clinv None false w') w.
Proof.
  intros H Hcl Hr Hq. simpl. rewrite wp_bind, wp_modify. apply drop_connector_wp.
  pose proof (cl_owner _ _ _ H) as []. destruct (ow_stopped0 Hcl Hr) as [Hf Hs]. rewrite Hq in Hs.
  eapply clinv_owner; [exact H|done..|apply H|done|auto|]. split; simpl; try done; try congruence; auto.
  - by rewrite Hcl; intros [? [=]].
  - intros _. split_and!; [done| |done]. intros Hk. by apply Hs, elem_of_nil in Hk.
Qed.

Lemma close_wp w c i : clinv None false w -> cconns w !! c = Some i -> cc_alive i = true ->
  watching (the_life i) = true -> reset_done w = true ->
  wp (ustep peer (UClose c)) (λ _ w', clinv None false w') w.
Proof.
  intros H Hi Hal Hw Hq%bool_decide_eq_true. simpl. rewrite wp_bind.
  eapply wp_mono; [apply (client_handleClose_wp c None w i); try done; by left|].
  intros [] w1 (H1 & Hi1 & Hs1). by apply collect_wp.
Qed.

Lemma ustep_wp w e : clinv None false w -> uenabled e w = true ->
  wp (ustep peer e) (λ _ w', clinv None false w') w.
Proof using All.
  intros H He. destruct e; cbn [uenabled] in He.
  - apply andb_prop in He as [?%bool_decide_eq_true ?]. by apply client_connect_wp.
  - apply bool_decide_eq_true in He. by apply disconnect_wp.
  - apply bool_decide_eq_true in He. by apply client_stop_wp.
  - apply bool_decide_eq_true in He. simpl. unfold enableRetry.
    eapply wp_mono; [by apply client_calls|]. by intros [] w' [? _].
  - apply andb_prop in He as [?%bool_decide_eq_true Hq]. apply client_dtor_wp; [done..|].
    by apply orb_true_iff in Hq as [?%bool_decide_eq_true|?%bool_decide_eq_true]; [left|right].
  - apply hold_wp; [done|by eapply user_has_some|done].
  - destruct (cconns w !! c) as [i|] eqn:Hi; [|done]. apply andb_prop in He as [Hu Hs].
    eapply release_wp; [done|exact Hi|done|].
    by apply orb_true_iff in Hs as [?%negb_true_iff|?%bool_decide_eq_true]; [left|right].
  - apply shut_wp; [done|by eapply user_has_some].
  - apply forceClose_wp; [done|by eapply user_has_some].
  - apply idle_wp; [done|by eapply user_has_some].
  - apply bool_decide_eq_true in He. by apply ready_step_wp.
  - apply andb_prop in He as [?%bool_decide_eq_true ?%bool_decide_eq_true]. by apply timer_step_wp.
  - apply functor_step_wp; [done|]. intros Hq. by rewrite Hq in He.
  - apply andb_prop in He as [[?%bool_decide_eq_true ?]%andb_prop ?%bool_decide_eq_true]. by apply grace_wp.
  - destruct (cconns w !! c) as [i|] eqn:Hi; [|done].
    apply andb_prop in He as [[? ?]%andb_prop ?]. by eapply close_wp.
  - simpl. rewrite wp_bind, wp_gets. destruct (tasks w) as [|t ts] eqn:Ht; [done|].
    apply task_wp; [done..|]. apply orb_true_iff in He as [?%bool_decide_eq_true|He]; [by left|].
    right. intros c i -> Hi. rewrite Hi in He. by apply negb_true_iff in He.
Qed.

Lemma usession_wp es w : clinv None false w ->
  wp (usession peer es) (λ _ w', clinv None false w') w.
Proof using All.
  intros H. apply (wp_for_each (λ _ w, clinv None false w)); [done|].
  intros _ e _ w1 _ H1. rewrite wp_bind, wp_getS, wp_when.
  destruct (uenabled e w1) eqn:He; [by apply ustep_wp|done].
Qed.
End invariant.
