(* ===== verification/TCPClientProps.v ===== *)
(** * What a client promises

    That nothing goes wrong as long as a client is used as [TCPClient.v] says,
    how it reconnects, why it cannot be told to connect again, and how it ends. *)

From Stdlib Require Import ZArith Lia.
From stdpp Require Import gmap list.
From S2P Require Import Prelude Bytes Base Channel EPollPoller TinySockets TCPConnection ConnLife.
From S2P Require Import Connector ConnectorProps ConnectorSteps TCPClient TCPClientInv.

Local Open Scope Z_scope.

(** ** The properties *)
Section properties.
#[local] Set Default Proof Using "All".
Context {BT : BaseTime} {W : Type} {LO : LoopOps W} {LS : LoopSpec W} {CO : ConnectOps W}
        {KL : ConnectLaws W} {AL : Allocator}.
Context (peer : Z -> W -> bytes).
Implicit Types (w : ClientWorld (W := W)) (y : W).

(** C8: A client and its connections.  Whatever the outcomes of the socket calls,
    whatever the user calls of what [uenabled] admits, and in whatever order the
    loop runs events, timers and functors, no assertion fails and nothing that was
    destroyed is used.  The
    connection of the client is open, registered with the poller and the only
    open one that reports to the client, and its connector is at rest; the sockets
    that are open are the one being connected and those of the connections that
    somebody holds; a connection is destroyed exactly when nobody holds it.

    Left out are the calls that do go wrong: connect() of a client whose connector
    is not idle and disconnected, which includes every client that has been
    connected ([connect_again_fails]); the destructor of a client that has a
    connection while functors of its connector are queued; and, when the client is
    gone, the release of the user's reference to a connection that is still open
    and was left to the user.  The calls are made in the loop's thread. *)
Theorem client_safe es name y : loop_ok y -> socks y = ∅ -> (∀ p x, loop_ok x -> can_remove p x) ->
  wp (usession peer es) (λ _ w,
    (∀ c, connection w = Some c -> ∃ i, cconns w !! c = Some i ∧ closable i = true
       ∧ registered (the_life i) = true ∧ watching (the_life i) = true ∧ kstate (kw w) = kConnected)
    ∧ (∀ c i, cconns w !! c = Some i -> watching (the_life i) = true -> cc_close i = ToClient ->
         connection w = Some c)
    ∧ socks (lw (kw w)) = held (kw w) ∪ list_to_set (omap live_fd (cconns w))
    ∧ NoDup (omap live_fd (cconns w)) ∧ (∀ fd, fd ∈ held (kw w) -> fd ∉ omap live_fd (cconns w))
    ∧ (∀ c i, cconns w !! c = Some i -> cc_alive i = held_by c w)
    ∧ (kalive w = false -> client w = None ∧ channel_ (connector (kw w)) = None))
    (new_client name y).
Proof.
  intros Hok Hs Hr. eapply wp_mono; [by apply usession_wp, new_clinv|].
  intros [] w H. pose proof H as [Hk Hf Hc _ Hcn Ho]. fold (fds w). rewrite <- Hf. split_and!; try apply Hk.
  - intros c Hwc. destruct (Hcn c Hwc) as [[i Hi] Hks]. exists i.
    pose proof (Hc c i Hi) as Hi'. pose proof (ck_stage _ _ _ _ Hi') as Hst.
    rewrite bool_decide_eq_true_2 in Hst by done.
    apply cstage_cases in Hst as [(Hw & _ & Hreg & _)|(_ & _ & [=] & _)].
    by rewrite (closable_watching _ _ _ _ Hi').
  - intros c i Hi Hw Hcb. pose proof (ck_stage _ _ _ _ (Hc c i Hi)) as Hst.
    apply cstage_cases in Hst as [(_ & _ & _ & _ & [[Hb _]|[_ ?]])|(? & _)]; [|congruence..].
    by apply bool_decide_eq_true in Hb.
  - intros c i Hi. by eapply clinv_held.
  - intros Ha. destruct Ho as [Hoc Hor _ Hol _ _].
    destruct (kref w) eqn:Hkr; [by rewrite Hor in Ha|]. destruct (Hol eq_refl) as (Hq & Hks & _). split.
    + apply eq_None_not_Some. intros Hcl. by apply Hoc in Hcl.
    + apply channel_gone; [done..|]. rewrite Hq. by apply not_elem_of_nil.
Qed.

(** Something a client may come to. *)
Definition reached name y w : Prop := ∃ es, usession peer es (new_client name y) = Ok (tt, w).

Lemma reached_clinv name y w : loop_ok y -> socks y = ∅ -> (∀ p x, loop_ok x -> can_remove p x) ->
  reached name y w -> clinv None false w.
Proof.
  intros Hok Hs Hr [es Hes].
  refine (wp_elim (usession peer es) (λ _ w', clinv None false w') _ tt w _ Hes).
  by apply usession_wp, new_clinv.
Qed.

(** What is left when the connection of the client has closed, before the
    connector is restarted. *)
Definition after_close (c : conn_id) (i : ClientConn) (s : TCPClient) w : ClientWorld :=
  {| w with client := Some {| s with connection_ := None |};
            cconns := <[c := {| i with the_life := {| (the_life i) with
               conn_state := TCPConnection.kDisconnected; watching := false |} |}]> (cconns w);
            tasks := tasks w ++ [TDestroy c] |}.

Lemma handleClose_client c s i w : clinv None false w -> client w = Some s -> connection_ s = Some c ->
  cconns w !! c = Some i ->
  handleClose c w = (whenM (retry_ s && client_connect_ s) (on_k restart)) (after_close c i s w).
Proof.
  intros H Hs Hc Hi. assert (Hcn : connection w = Some c) by (unfold connection; by rewrite Hs).
  pose proof (ck_stage _ _ _ _ (cl_conns _ _ _ H c i Hi)) as Hst.
  rewrite bool_decide_eq_true_2 in Hst by done.
  apply cstage_cases in Hst as [(_ & Hcs & _ & _ & [[_ Hcb]|[[=] _]])|(_ & _ & [=] & _)].
  assert (Hin : ∀ w', kw w' = kw w -> client_assertInLoop w' = Ok (tt, w')).
  { intros w' Hw'. unfold client_assertInLoop. erewrite (bind_ok (gets _)) by reflexivity.
    by rewrite Hw', law_thread by apply H. }
  unfold handleClose. rewrite (bind_ok _ _ _ _ _ (Hin w eq_refl)).
  unfold cc_does, the_cc. erewrite bind_ok.
  2:{ erewrite bind_ok by (unfold liftR; by rewrite Hi).
      erewrite bind_ok by (unfold liftR; by rewrite closed_open by done). reflexivity. }
  erewrite bind_ok.
  2:{ unfold liftR. cbn [cconns]. rewrite list_lookup_insert_eq by (by eapply lookup_lt_Some). reflexivity. }
  cbn [cc_close]. rewrite Hcb. cbn match. unfold removeConnection.
  erewrite bind_ok by (by apply Hin).
  unfold this, on_client, queueTask. cbn [client].
  erewrite bind_ok by (unfold liftR; cbn [client]; by rewrite Hs).
  erewrite bind_ok by (by rewrite Hc, bool_decide_eq_true_2).
  erewrite bind_ok.
  2:{ erewrite bind_ok by reflexivity. reflexivity. }
  erewrite bind_ok by reflexivity. erewrite bind_ok by reflexivity. unfold after_close. by rewrite Hcb.
Qed.

Lemma collect_held c i w : cconns w !! c = Some i -> held_by c w = true -> collect c w = Ok (tt, w).
Proof using Type.
  intros Hi Hh. unfold collect, the_cc. erewrite bind_ok by (unfold liftR; by rewrite Hi).
  erewrite bind_ok by reflexivity. by rewrite Hh, andb_false_r.
Qed.

(** The functor that will destroy a closed connection holds it. *)
Lemma collect_closed c i s w k : cconns w !! c = Some i ->
  let w' := {| (after_close c i s w) with kw := k |} in collect c w' = Ok (tt, w').
Proof using Type.
  intros Hi w'. eapply collect_held.
  - simpl. by rewrite list_lookup_insert_eq by (by eapply lookup_lt_Some).
  - unfold held_by, shared. simpl. rewrite mentions_app, (mentions_one c (TDestroy c)).
    rewrite (bool_decide_eq_true_2 (task_conn (TDestroy c) = c)) by done. by rewrite !orb_true_r.
Qed.

Lemma restart_ok k fd x1 e x2 : loop_isInLoopThread (lw k) = true ->
  sock_create (lw k) = (fd, x1) -> sock_connect fd x1 = (e, x2) ->
  restart k = (if bool_decide (e ∈ under_way) then connecting fd
               else if bool_decide (e ∈ try_again) then retry fd
               else on_loop (λ x, (tt, sock_close fd x)))
    {| k with lw := x2; connector := {| connect_ := true; state_ := kDisconnected;
         channel_ := channel_ (connector k); retryDelayMs_ := kInitRetryDelayMs |} |}.
Proof using Type.
  intros Ht H1 H2. unfold restart. erewrite (bind_ok assertInLoopThread) by (by apply assertInLoop_ok).
  do 3 erewrite bind_ok by reflexivity. unfold startInLoop.
  erewrite (bind_ok assertInLoopThread) by (by apply assertInLoop_ok).
  erewrite (bind_ok (assertS _)) by (by apply assertS_ok, bool_decide_eq_true).
  erewrite bind_ok by reflexivity. cbn [connector connect_ whenM]. unfold connect.
  erewrite (bind_ok (on_loop _)) by (by apply on_loop_ok).
  by erewrite (bind_ok (on_loop _)) by (by apply on_loop_ok).
Qed.

(** The outcome of an attempt: under way, to be tried again, or given up. *)
Definition attempted (e : Z) (k : KWorld (W := W)) : Prop :=
  if bool_decide (e ∈ under_way) then kstate k = kConnecting ∧ ctimers k = []
  else kstate k = kDisconnected
       ∧ ctimers k = if bool_decide (e ∈ try_again) then [kInitRetryDelayMs] else [].

Lemma restart_attempts k fd x1 e x2 : kinv false k -> kstate k = kConnected -> (KResetChannel ∉ cqueue k) ->
  sock_create (lw k) = (fd, x1) -> sock_connect fd x1 = (e, x2) ->
  wp restart (λ _ k', attempted e k') k.
Proof.
  intros Hk Hs Hq H1 H2. destruct (create_law _ _ _ (k_ok _ _ Hk) H1) as (Hs1 & _ & _ & Ho1 & Hf1 & _).
  destruct (connect_law _ _ _ _ (sl_ok _ _ Hs1) H2) as (Hs2 & _ & Ho2 & Hf2).
  assert (Ht : ctimers k = []) by (apply timers_idle; [done|congruence]).
  assert (Hch : channel_ (connector k) = None) by (apply channel_gone; [done|congruence|done]).
  unfold wp. erewrite restart_ok; [|by apply law_thread, Hk|exact H1|exact H2]. rewrite Hch.
  unfold attempted. case_bool_decide as He; [|case_bool_decide as He'].
  - eapply (wp_mono (connecting fd)); [by apply connecting_state; [apply Hs2|done|apply Ho2|apply Hf2]|].
    cbn [ctimers]. rewrite Ht. by intros [] k' (_ & ? & ?).
  - rewrite retry_ok by done. simpl. by rewrite Ht.
  - simpl. by rewrite Ht.
Qed.

Lemma uclose_reset c w : uenabled (UClose c) w = true ->
  (∃ i, cconns w !! c = Some i ∧ cc_alive i = true ∧ watching (the_life i) = true) ∧ reset_done w = true.
Proof using Type.
  simpl. destruct (cconns w !! c) as [i|]; [|done]. intros [[? ?]%andb_prop ?]%andb_prop. eauto.
Qed.

(** C39: Reconnecting.  When the connection of a client that is to reconnect
    closes, it is queued for destruction, is no longer the client's, and the
    next attempt is made at once: it is under way, or is tried again after 500 ms
    -- unless its error is none of those, in which case nothing is left that
    could make another attempt. *)
Theorem client_reconnects name y w c s fd x1 e x2 :
  loop_ok y -> socks y = ∅ -> (∀ p x, loop_ok x -> can_remove p x) -> reached name y w ->
  client w = Some s -> connection_ s = Some c -> uenabled (UClose c) w = true ->
  retry_ s = true -> client_connect_ s = true ->
  sock_create (lw (kw w)) = (fd, x1) -> sock_connect fd x1 = (e, x2) ->
  wp (ustep peer (UClose c)) (λ _ w', connection w' = None ∧ is_Some (client w')
    ∧ tasks w' = tasks w ++ [TDestroy c] ∧ attempted e (kw w')) w.
Proof.
  intros Hok Hsk Hr Hre Hs Hc ((i & Hi & Hal & Hw) & Hq%bool_decide_eq_true)%uclose_reset Hrt Hcn H1 H2.
  pose proof (reached_clinv name y w Hok Hsk Hr Hre) as H.
  assert (Hcw : connection w = Some c) by (unfold connection; by rewrite Hs).
  destruct (cl_conn _ _ _ H c Hcw) as [_ Hks].
  destruct (clinv_client _ _ _ H ltac:(by rewrite Hs)) as [_ Ha].
  simpl. rewrite wp_bind. unfold wp at 1. rewrite (handleClose_client c s i) by done. rewrite Hrt, Hcn.
  simpl. set (w1 := after_close c i s w).
  apply (wp_on_k restart (λ _ w2, wp (collect c) _ w2) w1); [done|].
  eapply wp_mono; [apply (restart_attempts _ fd x1 e x2); [apply H|done..]|]. intros [] k' Hatt.
  by apply (wp_intro _ _ _ tt _ (collect_closed c i s w k' Hi)).
Qed.

(** A client cannot connect twice.  After the connection of a client has closed
    and was not to be reconnected -- after [disconnect()] for example --, [connect()]
    fails: the connector still counts as connected and [startInLoop] asserts that
    it is disconnected. *)
Theorem connect_again_fails name y w c s :
  loop_ok y -> socks y = ∅ -> (∀ p x, loop_ok x -> can_remove p x) -> reached name y w ->
  client w = Some s -> connection_ s = Some c -> uenabled (UClose c) w = true ->
  retry_ s && client_connect_ s = false ->
  (ustep peer (UClose c) ;;; ustep peer UConnect) w = Fault AssertFailed.
Proof.
  intros Hok Hsk Hr Hre Hs Hc ((i & Hi & Hal & Hw) & Hq)%uclose_reset Hrt.
  pose proof (reached_clinv name y w Hok Hsk Hr Hre) as H.
  assert (Hcw : connection w = Some c) by (unfold connection; by rewrite Hs).
  destruct (cl_conn _ _ _ H c Hcw) as [_ Hks].
  destruct (clinv_client _ _ _ H ltac:(by rewrite Hs)) as [_ Ha].
  erewrite bind_ok.
  2:{ simpl. erewrite bind_ok by (rewrite (handleClose_client c s i) by done; rewrite Hrt; reflexivity).
      exact (collect_closed c i s w (kw w) Hi). }
  simpl. unfold client_connect, on_client. erewrite bind_ok by reflexivity.
  unfold on_k. erewrite bind_ok by reflexivity. cbn [kalive after_close]. rewrite Ha. unfold zoom. simpl.
  unfold start. erewrite bind_ok by reflexivity. erewrite bind_ok by reflexivity. cbn [lw].
  rewrite law_thread by apply H. unfold startInLoop.
  erewrite bind_ok by (apply assertInLoop_ok, law_thread, H). unfold mbind, M_bind, assertS. simpl.
  unfold kstate in Hks. by rewrite Hks.
Qed.

(** ** The end of a client *)
Record bystander w w' : Prop := {
  by_client : client w' = client w;
  by_alive : kalive w' = kalive w;
  by_ref : kref w' = kref w;
  by_timers : ctimers (kw w') = ctimers (kw w);
  by_tasks : tasks w' = tasks w;
  by_users : cc_user <$> cconns w' = cc_user <$> cconns w;
}.

#[local] Instance bystander_preorder : PreOrder bystander.
Proof using Type. split; [by split|]. intros w1 w2 w3 [] []. split; congruence. Qed.

Lemma put_cc_bystander c i j w : cconns w !! c = Some i -> cc_user j = cc_user i ->
  bystander w {| w with cconns := <[c := j]> (cconns w) |}.
Proof using Type.
  intros Hi Hu. split; try done. simpl. rewrite list_fmap_insert. apply list_insert_id.
  by rewrite list_lookup_fmap, Hi, Hu.
Qed.

Lemma the_cc_inv c w i w' : the_cc c w = Ok (i, w') -> w' = w ∧ cconns w !! c = Some i.
Proof using Type. unfold the_cc, liftR. destruct (cconns w !! c); [by intros [= -> ->]|done]. Qed.

Lemma assertIn_inv w a w' : client_assertInLoop w = Ok (a, w') -> w' = w.
Proof using Type.
  intros (b & w1 & [= <- <-] & H)%bind_inv. destruct (loop_isInLoopThread _); [by injection H|done].
Qed.

Lemma cc_does_inv c f w a w' : cc_does c f w = Ok (a, w') -> ∃ i l, cconns w !! c = Some i
  ∧ w' = {| w with cconns := <[c := {| i with the_life := l |}]> (cconns w) |}.
Proof using Type.
  intros (i & w1 & (-> & Hi)%the_cc_inv & (l & w2 & H2 & [= _ <-])%bind_inv)%bind_inv.
  unfold liftR in H2. destruct (f _) as [l0|]; [|done]. injection H2 as <- <-. by exists i, l0.
Qed.

Lemma cc_does_bystander c f : along bystander (cc_does c f).
Proof using Type. intros w a w' (i & l & Hi & ->)%cc_does_inv. by eapply put_cc_bystander. Qed.

Lemma collect_bystander c : along bystander (collect c).
Proof using Type.
  intros w a w' (i & w1 & (-> & Hi)%the_cc_inv & (h & w2 & [= <- <-] & H)%bind_inv)%bind_inv.
  unfold whenM in H. destruct (_ && _); [|by injection H as _ <-].
  destruct (bool_decide _); [|done]. destruct (negb _); [|done]. simpl in H.
  apply bind_inv in H as ([] & w1 & [= <-] & [= _ <-]).
  set (w1 := mkClientWorld _ _ _ _ _ _).
  assert (bystander w {| w with cconns := cconns w1 |}) as []; [|by split].
  by apply (put_cc_bystander c i).
Qed.

(** Nobody else holds a connection. *)
Definition users_gone w : Prop := ∀ b, b ∈ cc_user <$> cconns w -> b = false.

Lemma destroy_winds c w a w' : tasks w = [TDestroy c] -> ustep peer UTask w = Ok (a, w') ->
  bystander {| w with tasks := [] |} w'.
Proof using Type.
  intros Ht (ts & w1 & [= <- <-] & H)%bind_inv. rewrite Ht in H.
  apply bind_inv in H as ([] & w1 & [= <-] & ([] & w2 & H1 & H2%collect_bystander)%bind_inv).
  apply bind_inv in H1 as ([] & w3 & ->%assertIn_inv & H1%cc_does_bystander). by transitivity w2.
Qed.

(** An open connection that reports to nobody has a forced close queued. *)
Lemma forceClose_winds c i w a w' : tasks w = [TForceClose c] -> cconns w !! c = Some i ->
  cc_close i = Detached -> closable i = true -> ustep peer UTask w = Ok (a, w') ->
  bystander {| w with tasks := [TDestroy c] |} w'.
Proof using Type.
  intros Ht Hi Hcb Hcl (ts & w1 & [= <- <-] & H)%bind_inv. rewrite Ht in H.
  apply bind_inv in H as ([] & w1 & [= <-] & ([] & w2 & H1 & H2%collect_bystander)%bind_inv).
  apply bind_inv in H1 as ([] & w3 & ->%assertIn_inv & (j & w3 & (-> & Hj)%the_cc_inv & H1)%bind_inv).
  assert (j = i) as -> by (simpl in Hj; congruence). rewrite Hcl in H1. simpl in H1.
  apply bind_inv in H1 as ([] & w3 & ->%assertIn_inv & ([] & w3 & H3 & H1)%bind_inv).
  apply cc_does_inv in H3 as (j & l & Hj' & ->).
  assert (j = i) as -> by (simpl in Hj'; congruence).
  apply bind_inv in H1 as (j & w3 & (-> & Hj2)%the_cc_inv & H1). simpl in Hj2.
  rewrite list_lookup_insert_eq in Hj2 by (by eapply lookup_lt_Some). injection Hj2 as <-.
  simpl in H1. rewrite Hcb in H1. injection H1 as <-. etransitivity; [|exact H2].
  by apply (put_cc_bystander c i _ {| w with tasks := [TDestroy c] |}).
Qed.

Lemma forceClose_nothing c i w a w' : tasks w = [TForceClose c] -> cconns w !! c = Some i ->
  closable i = false -> ustep peer UTask w = Ok (a, w') -> bystander {| w with tasks := [] |} w'.
Proof using Type.
  intros Ht Hi Hcl (ts & w1 & [= <- <-] & H)%bind_inv. rewrite Ht in H.
  apply bind_inv in H as ([] & w1 & [= <-] & ([] & w2 & H1 & H2%collect_bystander)%bind_inv).
  apply bind_inv in H1 as ([] & w3 & ->%assertIn_inv & (j & w3 & (-> & Hj)%the_cc_inv & H1)%bind_inv).
  assert (j = i) as -> by (simpl in Hj; congruence). rewrite Hcl in H1. by injection H1 as <-.
Qed.

(** [~TCPClient()] when nobody else holds the connection. *)
Lemma dtor_winds c s i w a w' : client w = Some s -> connection_ s = Some c -> cconns w !! c = Some i ->
  closable i = true -> shared c w = false -> ctimers (kw w) = [] ->
  TCPClient_dtor w = Ok (a, w') ->
  client w' = None ∧ kalive w' = false ∧ tasks w' = tasks w ++ [TForceClose c]
  ∧ cc_user <$> cconns w' = cc_user <$> cconns w.
Proof using Type.
  intros Hs Hc Hi Hcl Hsh Ht (s0 & w1 & H1 & H)%bind_inv.
  unfold this, liftR in H1. rewrite Hs in H1. injection H1 as <- <-. rewrite Hc in H.
  apply bind_inv in H as ([] & w2 & H2 & H).
  apply bind_inv in H2 as (u & w1 & [= <- <-] & (j & w1 & (-> & Hj)%the_cc_inv & H2)%bind_inv).
  assert (j = i) as -> by congruence. rewrite Hsh in H2.
  apply bind_inv in H2 as ([] & w1 & [= <-] & (j & w1 & (-> & Hj')%the_cc_inv & H2)%bind_inv).
  simpl in Hj'. rewrite list_lookup_insert_eq in Hj' by (by eapply lookup_lt_Some). injection Hj' as <-.
  change (closable {| i with cc_close := Detached |}) with (closable i) in H2. rewrite Hcl in H2.
  apply bind_inv in H2 as ([] & w1 & H1%cc_does_bystander & [= <-]).
  pose proof (put_cc_bystander c i {| i with cc_close := Detached |} w Hi eq_refl) as Hb.
  assert (Hby : bystander w w1) by by (etransitivity; [exact Hb|exact H1]).
  apply bind_inv in H as ([] & w2 & [= <-] & ([] & w2 & H2%collect_bystander & H)%bind_inv).
  apply bind_inv in H as (w3 & w3' & [= <- <-] & H).
  destruct Hby as [? ? _ Hti Hta Hu], H2 as [Hcl2 ? Hr2 Hti2 Hta2 Hu2]. simpl in *.
  rewrite Hr2, Hti2, Hti, Ht in H. simpl in H. rewrite andb_true_r in H.
  destruct (kalive w2) eqn:Ha; simpl in H.
  - apply bind_inv in H as (b & w3 & H & [= _ <-]). simpl. unfold on_k in H.
    apply bind_inv in H as (k & w4 & [= <- <-] & H). rewrite Ha in H. unfold zoom in H.
    destruct (Connector_dtor _) as [[]|]; [|done]. injection H as _ <-. simpl.
    rewrite Hta2, Hta. split_and!; try done; congruence.
  - injection H as _ <-. rewrite Hta2, Hta. split_and!; try done; congruence.
Qed.

Lemma dead_connector x d w : clinv x d w -> kalive w = false ->
  cqueue (kw w) = [] ∧ kstate (kw w) ≠ kConnecting.
Proof using Type.
  intros H Ha. destruct (cl_owner _ _ _ H) as [_ Hor _ Hol _ _].
  destruct (kref w) eqn:Hr; [by rewrite Hor in Ha|]. by destruct (Hol eq_refl) as (? & ? & _).
Qed.

Lemma omap_none {A B} (f : A -> option B) l : (∀ a, a ∈ l -> f a = None) -> omap f l = [].
Proof using Type.
  induction l as [|a l IH]; intros Hf; [done|]. cbn. rewrite (Hf a) by by left.
  apply IH. intros b Hb. apply Hf. by right.
Qed.

(** A client that is gone, with what is left to do. *)
Definition wound (us : list bool) (P : list task -> Prop) w : Prop :=
  clinv None false w ∧ client w = None ∧ kalive w = false ∧ P (tasks w) ∧ cc_user <$> cconns w = us.

Lemma task_enabled x d w : clinv x d w -> kalive w = false -> uenabled UTask w = true.
Proof using Type.
  intros H Ha. simpl. unfold reset_done. rewrite (proj1 (dead_connector _ _ _ H Ha)). done.
Qed.

Lemma last_wp (Hr : ∀ p x, loop_ok x -> can_remove p x) c w : clinv None false w -> client w = None ->
  kalive w = false -> (tasks w = [] ∨ tasks w = [TDestroy c]) ->
  wp (ustep peer UTask) (λ _ w', wound (cc_user <$> cconns w) (λ ts, ts = []) w') w.
Proof.
  intros H Hc Ha [Ht|Ht].
  - simpl. by rewrite wp_bind, wp_gets, Ht.
  - eapply wp_mono; [eapply wp_fact; [apply (ustep_wp peer Hr w UTask H); by eapply task_enabled|]|].
    + intros a w'. by apply (destroy_winds c).
    + intros [] w' (H' & [Hc' Ha' _ _ Ht' Hu']). simpl in *. split_and!; [done|congruence..].
Qed.

Lemma forced_wp (Hr : ∀ p x, loop_ok x -> can_remove p x) c w : clinv None false w -> client w = None ->
  kalive w = false -> tasks w = [TForceClose c] ->
  wp (ustep peer UTask)
    (λ _ w', wound (cc_user <$> cconns w) (λ ts, ts = [] ∨ ts = [TDestroy c]) w') w.
Proof.
  intros H Hc Ha Ht. destruct (cl_tasks _ _ _ H (TForceClose c)) as [i Hi]; [rewrite Ht; by left|]. simpl in Hi.
  pose proof (cl_conns _ _ _ H c i Hi) as Hok. pose proof (ck_stage _ _ _ _ Hok) as Hst.
  eapply wp_mono; [eapply (wp_fact _ _ (λ w', bystander {| w with tasks := [TDestroy c] |} w'
    ∨ bystander {| w with tasks := [] |} w')); [apply (ustep_wp peer Hr w UTask H); by eapply task_enabled|]|].
  - intros a w' H'. destruct (closable i) eqn:Hcl; [left|right].
    + eapply (forceClose_winds c i); try done. rewrite (closable_watching _ _ _ _ Hok) in Hcl.
      apply cstage_cases in Hst as [(_ & _ & _ & _ & [[Hb _]|[_ ?]])|(? & _)]; [|done|congruence].
      apply bool_decide_eq_true in Hb. unfold connection in Hb. by rewrite Hc in Hb.
    + by eapply (forceClose_nothing c i).
  - intros [] w' (H' & [[Hc' Ha' _ _ Ht' Hu']|[Hc' Ha' _ _ Ht' Hu']]); simpl in *.
    + split_and!; [done|congruence..|by right|done].
    + split_and!; [done|congruence..|by left|done].
Qed.

(** C40: The end of a client.  Take a client that has a connection, when the
    functors of its connector have run, no task of a connection is queued and no
    user holds any connection.  When it is destroyed, two runs of the loop's
    functors close the connection and destroy it: no connection and no connector is left, and no socket is open. *)
Theorem client_ends name y w s c :
  loop_ok y -> socks y = ∅ -> (∀ p x, loop_ok x -> can_remove p x) -> reached name y w ->
  client w = Some s -> connection_ s = Some c -> cqueue (kw w) = [] ->
  tasks w = [] -> users_gone w ->
  wp (for_each [UDestroy; UTask; UTask] (ustep peer)) (λ _ w',
    client w' = None ∧ kalive w' = false ∧ tasks w' = []
    ∧ (∀ i, i ∈ cconns w' -> cc_alive i = false) ∧ socks (lw (kw w')) = ∅) w.
Proof.
  intros Hok Hsk Hr Hre Hs Hc Hq Ht Hu.
  pose proof (reached_clinv name y w Hok Hsk Hr Hre) as H. unfold users_gone in Hu.
  assert (Hcw : connection w = Some c) by (unfold connection; by rewrite Hs).
  destruct (cl_conn _ _ _ H c Hcw) as [[i Hi] Hks]. pose proof (cl_conns _ _ _ H c i Hi) as Hok1.
  pose proof (ck_stage _ _ _ _ Hok1) as Hst. rewrite bool_decide_eq_true_2 in Hst by done.
  apply cstage_cases in Hst as [(Hw & _)|(_ & _ & [=] & _)].
  simpl. rewrite wp_bind. eapply wp_mono.
  { eapply wp_fact; [apply (client_dtor_wp peer w H); [by rewrite Hs|by right]|].
    intros a w'. apply (dtor_winds c s i); try done.
    - by rewrite (closable_watching _ _ _ _ Hok1).
    - unfold shared, mentions. rewrite Hi, Ht. simpl. rewrite orb_false_r. apply Hu, list_elem_of_fmap.
      exists i. split; [done|by eapply list_elem_of_lookup_2].
    - apply timers_idle; [apply H|congruence]. }
  intros [] w1 (H1 & Hc1 & Ha1 & Ht1 & Hu1). rewrite Ht in Ht1. simpl in Ht1.
  rewrite wp_bind. eapply wp_mono; [by apply (forced_wp Hr c w1)|].
  intros [] w2 (H2 & Hc2 & Ha2 & Ht2 & Hu2). rewrite wp_bind.
  eapply wp_mono; [by apply (last_wp Hr c w2)|]. intros [] w3 (H3 & Hc3 & Ha3 & Ht3 & Hu3).
  rewrite wp_ret. assert (Hdead : ∀ i, i ∈ cconns w3 -> cc_alive i = false).
  { intros j [n Hj]%list_elem_of_lookup. rewrite (clinv_held _ _ _ _ H3 Hj).
    unfold held_by, shared, connection, mentions. rewrite Hc3, Ht3, Hj. simpl. rewrite orb_false_r.
    apply Hu. rewrite <- Hu1, <- Hu2, <- Hu3. apply list_elem_of_fmap. exists j.
    split; [done|by eapply list_elem_of_lookup_2]. }
  split_and!; try done. rewrite (k_socks _ _ (cl_k _ _ _ H3)), (cl_fds _ _ _ H3).
  destruct (dead_connector _ _ _ H3 Ha3) as [_ Hks3]. unfold held, fds.
  rewrite (omap_none live_fd (cconns w3)).
  - destruct (channel_ _); [|set_solver]. rewrite bool_decide_eq_false_2 by done. set_solver.
  - intros j Hj. unfold live_fd. by rewrite Hdead.
Qed.
End properties.

Section witnesses.
#[local] Existing Instance tiny_epoll.

#[local] Instance any_alloc : Allocator := {| malloc := fresh; malloc_fresh := is_fresh |}.

(** The first attempt gets under way, the others are refused. *)
Definition once_accepted (t : Z) : Z := if t =? 0 then EINPROGRESS else ECONNREFUSED.

#[local] Instance client_ops : ConnectOps PollerWorld := tiny_connect once_accepted.
#[local] Instance client_laws : ConnectLaws PollerWorld := tiny_connect_laws once_accepted.

Definition the_peer (fd : Z) (x : PollerWorld) : bytes := str "10.0.0.1:80".

(** Connected, with the functor of the connector run. *)
Definition connects : list uevent := [UConnect; UReady POLLOUT (tick 5); UFunctor].

Definition client_after (es : list uevent) : ClientWorld (W := PollerWorld) :=
  match usession the_peer es (new_client (str "c") quiet_loop) with
  | Ok (_, w) => w
  | Fault _ => new_client (str "c") quiet_loop
  end.

Definition returns {A} (r : result A) : bool := match r with Ok _ => true | Fault _ => false end.

Lemma reached_after es : returns (usession the_peer es (new_client (str "c") quiet_loop)) = true ->
  reached the_peer (str "c") quiet_loop (client_after es).
Proof.
  intros H. exists es. unfold client_after. by destruct (usession _ _ _) as [[[] w]|].
Qed.

Example first_name : conn_name ∘ the_life <$> cconns (client_after connects) = [str "c:10.0.0.1:80#1"].
Proof. vm_compute. reflexivity. Qed.

(** Closed by the peer, tried again, refused, and destroyed. *)
Definition a_life : list uevent :=
  UEnableRetry :: connects ++ [UClose 0; UTask; UDestroy; UFunctor; UTimer 0; UGrace].

Example a_life_ends :
  (λ w, (tasks w, kalive w, cc_alive <$> cconns w)) (client_after a_life) = ([], false, [false]).
Proof. vm_compute. reflexivity. Qed.

Lemma client_safe_witness :
  wp (usession the_peer a_life) (λ _ w, NoDup (omap live_fd (cconns w))) (new_client (str "c") quiet_loop).
Proof.
  eapply wp_mono.
  - apply (client_safe the_peer a_life (str "c") quiet_loop); [exact quiet_ok|reflexivity|].
    intros p x _. exact I.
  - intros _ w (_ & _ & _ & H & _). exact H.
Defined.

Lemma quiet_socks : socks quiet_loop = ∅.
Proof. reflexivity. Qed.

(** A client that has its first connection. *)
Definition one_connection (retry connect : bool) : TCPClient := mkClient (str "c") retry connect 2 (Some 0%nat).

Definition retrying : ClientWorld := client_after (UEnableRetry :: connects).
Definition leaving : ClientWorld := client_after (connects ++ [UDisconnect]).
Definition connected_client : ClientWorld := client_after connects.

Lemma reached_all : reached the_peer (str "c") quiet_loop retrying
  ∧ reached the_peer (str "c") quiet_loop leaving ∧ reached the_peer (str "c") quiet_loop connected_client.
Proof. split_and!; apply reached_after; vm_compute; reflexivity. Qed.

Lemma clients_all : client retrying = Some (one_connection true true)
  ∧ client leaving = Some (one_connection false false)
  ∧ client connected_client = Some (one_connection false true).
Proof. split_and!; vm_compute; reflexivity. Qed.

Lemma closes_all : uenabled (UClose 0) retrying = true ∧ uenabled (UClose 0) leaving = true.
Proof. split_and!; vm_compute; reflexivity. Qed.

Lemma alone : cqueue (kw connected_client) = [] ∧ tasks connected_client = []
  ∧ cc_user <$> cconns connected_client = [false].
Proof. split_and!; vm_compute; reflexivity. Qed.

Lemma client_reconnects_witness :
  wp (ustep the_peer (UClose 0)) (λ _ w, connection w = None) retrying.
Proof.
  eapply wp_mono.
  - apply (client_reconnects the_peer (str "c") quiet_loop retrying 0 (one_connection true true) _ _ _ _
      quiet_ok quiet_socks (λ p x _, I) (proj1 reached_all) (proj1 clients_all) eq_refl (proj1 closes_all)
      eq_refl eq_refl (surjective_pairing _) (surjective_pairing _)).
  - intros _ w (H & _). exact H.
Defined.

Lemma connect_again_fails_witness :
  (ustep the_peer (UClose 0) ;;; ustep the_peer UConnect) leaving = Fault AssertFailed.
Proof.
  exact (connect_again_fails the_peer (str "c") quiet_loop leaving 0 (one_connection false false)
    quiet_ok quiet_socks (λ p x _, I) (proj1 (proj2 reached_all)) (proj1 (proj2 clients_all)) eq_refl
    (proj2 closes_all) eq_refl).
Defined.

Lemma client_ends_witness :
  wp (for_each [UDestroy; UTask; UTask] (ustep the_peer)) (λ _ w, socks (lw (kw w)) = ∅) connected_client.
Proof.
  destruct alone as (Hq & Ht & Hu). eapply wp_mono.
  - apply (client_ends the_peer (str "c") quiet_loop connected_client (one_connection false true) 0
      quiet_ok quiet_socks (λ p x _, I) (proj2 (proj2 reached_all)) (proj2 (proj2 clients_all)) eq_refl Hq Ht).
    intros b Hb. rewrite Hu in Hb. by apply list_elem_of_singleton in Hb.
  - intros _ w (_ & _ & _ & _ & H). exact H.
Defined.
End witnesses.
