(* ===== verification/CDN.v ===== *)
(** * CDN: the second application (app/CDN/src/main.cc)

    Every connection is greeted with three bytes; of every two bytes that a client
    sends one is written to a file that all connections share.  The callbacks run
    on the connection model, with the contents of the file as the user's data;
    [AppendFile] appends to it.  The lines on standard output are not modelled. *)

From Stdlib Require Import ZArith Lia.
From stdpp Require Import gmap list.
From coqutil Require Import Word.LittleEndianList.
From S2P Require Import Prelude Bytes Base Buffer Channel TCPConnection.

Local Open Scope Z_scope.

Section cdn.
Context {BT : BaseTime} {W : Type} {LO : LoopOps W} {SN : SocketNet} {HE : HostEndian}.
Abbreviation World := (ConnWorld (W := W) (U := bytes)).

Definition shakeHand : bytes := z2b <$> [223; 239; 255].

Definition onConnection : M World unit :=
  c ← gets conn; whenM (connected c) (send shakeHand).

(** One round of the loop: [c] is a [uint16_t] of which the first byte in
    memory is written. *)
Definition receive : M World unit :=
  c ← zoom inL readUint16;
  modify (λ w, {| w with user := user w ++ take 1 (mem_of_int 2 c) |}).

Definition onMessage (receiveTime : Timestamp) : M World unit :=
  c ← gets conn;
  whenM (connected c)
    (len ← gets (λ w, readableBytes (inputBuffer_ (conn w)));
     for_each (seq 0 (Z.to_nat (len / 2))) (λ _, receive)).

Definition cdn_callbacks : Callbacks (W := W) (U := bytes) := {|
  connectionCallback := onConnection;
  messageCallback := onMessage;
  closeCallback := mret tt;
  writeComplete := mret tt;
  highWater := λ _, mret tt;
|}.

(** ** What ends up in the file *)

(** On a little-endian host the second byte of a pair, for the bytes come in
    network order. *)
Fixpoint kept (l : bytes) : bytes :=
  match l with
  | a :: b :: l' => (if host_little then b else a) :: kept l'
  | _ => []
  end.

(** The last byte of an odd number waits for the next one. *)
Fixpoint left_over (l : bytes) : bytes :=
  match l with a :: b :: l' => left_over l' | _ => l end.

Lemma pairs_ind (P : bytes -> Prop) :
  P [] -> (∀ a, P [a]) -> (∀ a b l, P l -> P (a :: b :: l)) -> ∀ l, P l.
Proof.
  intros H0 H1 H2. fix IH 1. intros [|a [|b l]]; [exact H0|exact (H1 a)|exact (H2 a b l (IH l))].
Qed.

Lemma kept_app l1 l2 : kept (l1 ++ l2) = kept l1 ++ kept (left_over l1 ++ l2)
  ∧ left_over (l1 ++ l2) = left_over (left_over l1 ++ l2).
Proof.
  induction l1 as [|a|a b l1 [IH1 IH2]] using pairs_ind; [done..|].
  split; simpl; [by rewrite IH1|exact IH2].
Qed.

Lemma left_over_short l : (length (left_over l) <= 1)%nat.
Proof. induction l using pairs_ind; simpl; lia. Qed.

Lemma first_byte a b : take 1 (mem_of_int 2 (be_decode [a; b])) = [if host_little then b else a].
Proof.
  unfold mem_of_int, be_decode. rewrite (split_le_combine' (rev [a; b])) by done. by destruct host_little.
Qed.

(** A connection with [l] in its input buffer and [f] in the file. *)
Record receiving (l f : bytes) (w : World) : Prop := {
  rc_wf : wf (inputBuffer_ (conn w));
  rc_content : content (inputBuffer_ (conn w)) = l;
  rc_file : user w = f;
  rc_connected : connected (conn w) = true;
}.

Lemma receive_wp a b l f w : receiving (a :: b :: l) f w ->
  wp receive (λ _ w', receiving l (f ++ [if host_little then b else a]) w'
    ∧ size (inputBuffer_ (conn w')) = size (inputBuffer_ (conn w))) w.
Proof.
  intros [Hwf Hc Hf Hcn]. pose proof (content_length _ Hwf) as Hl. rewrite Hc in Hl. simpl in Hl.
  unfold receive. rewrite wp_bind, wp_zoom. change readUint16 with (read_int U16).
  apply read_int_wp; [done|simpl; unfold inL; simpl; lia|]. intros b' Hwf' Hc' Hs. rewrite wp_modify.
  split; [|exact Hs]. split; cbn [conn inL upd view inputBuffer_ user] in *; try done.
  - by rewrite Hc', Hc.
  - rewrite Hc. change (int_value U16 ?u) with u. cbn [width take]. by rewrite Hf, first_byte.
Qed.

Lemma pairs_count (a b : Byte.byte) l : (length (a :: b :: l) / 2 = S (length l / 2))%nat.
Proof. exact (Nat.div_add_l 1 2 (length l) ltac:(lia)). Qed.

Lemma receive_all n k l f w : (length l / 2 = k)%nat -> receiving l f w ->
  wp (for_each (seq n k) (λ _, receive)) (λ _ w', receiving (left_over l) (f ++ kept l) w'
    ∧ size (inputBuffer_ (conn w')) = size (inputBuffer_ (conn w))) w.
Proof.
  revert n l f w. induction k as [|k IH]; intros n l f w Hk H.
  - destruct l as [|a [|b l]]; [by rewrite app_nil_r..|]. by rewrite pairs_count in Hk.
  - destruct l as [|a [|b l]]; [done..|]. rewrite pairs_count in Hk.
    simpl. rewrite wp_bind. eapply wp_mono; [by apply receive_wp|]. intros [] w1 [H1 Hs1].
    eapply wp_mono; [eapply (IH (S n) l); [lia|exact H1]|]. intros [] w2 [H2 Hs2].
    rewrite <- app_assoc in H2. split; [exact H2|congruence].
Qed.

Lemma onMessage_wp t l f w : receiving l f w ->
  wp (onMessage t) (λ _ w', receiving (left_over l) (f ++ kept l) w'
    ∧ size (inputBuffer_ (conn w')) = size (inputBuffer_ (conn w))) w.
Proof.
  intros H. pose proof H as [Hwf Hc _ Hcn]. unfold onMessage. rewrite wp_bind, wp_gets, wp_when, Hcn.
  rewrite wp_bind, wp_gets. apply receive_all; [|done].
  rewrite <- (content_length _ Hwf), Hc. rewrite <- (Nat2Z.id (length l / 2)), Nat2Z.inj_div. done.
Qed.

(** A buffer with at most one byte in it does not grow beyond what arrives. *)
Lemma grown_small b len : wf b -> readableBytes b <= 1 -> 0 <= len <= 65536 -> size b <= 2 ^ 18 ->
  grown b len <= 2 ^ 18.
Proof.
  intros Hwf Hr Hl Hs. unfold grown. rewrite wf_writable by done.
  destruct (_ && _) eqn:E; [|done]. bool_to_Z. rewrite wf_readable in Hr by done.
  unfold prependableBytes, kCheapPrepend in *. destruct Hwf. lia.
Qed.

(** Bytes arrive in the input buffer, and the connection is told. *)
Definition arrive (t : Timestamp) (data : bytes) : M World unit := zoom inL (append data) ;;; onMessage t.

(** Segmentation does not matter.  In whatever portions of up to 64 kB the bytes of
    a client arrive, the file gets the same of them: one of every two. *)
Theorem received_segments t (chunks : list bytes) w : receiving [] [] w ->
  Forall (λ d, zlength d <= 65536) chunks -> size (inputBuffer_ (conn w)) <= 2 ^ 18 ->
  wp (for_each chunks (arrive t)) (λ _ w', user w' = kept (concat chunks)) w.
Proof.
  intros H Hd Hs. rewrite Forall_forall in Hd.
  eapply wp_mono; [apply (wp_for_each (λ ds w, receiving (left_over (concat ds)) (kept (concat ds)) w
    ∧ size (inputBuffer_ (conn w)) <= 2 ^ 18))|].
  - done.
  - intros ds d rest w1 Hcs [[Hwf Hc Hf Hcn] Hs1]. unfold arrive. rewrite wp_bind, wp_zoom.
    assert (Hdl : zlength d <= 65536) by (apply Hd; rewrite Hcs; apply elem_of_app; right; by left).
    assert (Hgrown : grown (inputBuffer_ (conn w1)) (zlength d) <= 2 ^ 18).
    { pose proof (content_length _ Hwf) as Hl. rewrite Hc in Hl.
      pose proof (left_over_short (concat ds)). apply grown_small; [done|lia..]. }
    apply append_wp; [done|unfold vector_max_size; cbn; lia|unfold vector_max_size; cbn in *; lia|].
    intros b' Hwf' Hc' Hs' _. eapply wp_mono.
    { apply (onMessage_wp t (left_over (concat ds) ++ d) (kept (concat ds))). split; try done.
      cbn in *. by rewrite Hc', Hc. }
    intros [] w2 [H2 Hs2].
    rewrite concat_app. simpl. rewrite app_nil_r. destruct (kept_app (concat ds) d) as [-> ->].
    split; [done|]. rewrite Hs2. cbn in *. lia.
  - intros [] w' [[_ _ Hf _] _]. exact Hf.
Qed.
End cdn.
