(* ===== verification/HttpService.v ===== *)
(** * HttpServer as a service: the server behind the callbacks (HttpServer.h, HttpServer.cc)

    [HttpServer.v] has the callbacks, on one connection; here is the object that
    registers them: it owns a [TCPServer] ([TCPServer.v]) and the callback of the
    user, which the registered functions read through [this] whenever they run. *)

From Stdlib Require Import ZArith Lia.
From stdpp Require Import gmap list.
From S2P Require Import Prelude Bytes Base HttpRequest HttpContext HttpResponse.
From S2P Require Import Channel TCPConnection EventLoopThreadPool ConnLife TCPServer TCPServerProps HttpServer.

Local Open Scope Z_scope.

Section service.
Context {BT : BaseTime} {W : Type} {LO : LoopOps W} {SN : SocketNet} {A : Type}.

Definition HttpCallback : Type := HttpRequest -> M (A * HttpResponse) unit.

(** [server_] stands with its pool and the threads of the program. *)
Record HttpServer := mkHttpServer {
  server_ : ServerWorld;
  httpCallback_ : HttpCallback;
}.

Definition serverL : lens HttpServer ServerWorld := Lens server_ (λ v s, {| s with server_ := v |}).

(** [ipPort] is the text of the address the server listens on, [k] the number of
    loops the program has made so far. *)
Definition HttpServer_ctor (base : loop_id) (ipPort name : bytes) (k : nat) : HttpServer :=
  mkHttpServer (mkServerWorld (Some (TCPServer_ctor base ipPort name))
    (EventLoopThreadPool_ctor base, mkThreads base k []) [] ∅) (stateless defaultHttpCallback).

Definition getLoop : M HttpServer loop_id := s ← zoom serverL this; mret (loop_ s).

Definition setHttpCallback (cb : HttpCallback) : M HttpServer unit :=
  modify (λ s, {| s with httpCallback_ := cb |}).

Definition setThreadNum (numThreads : Z) : M HttpServer unit := zoom serverL (server_setThreadNum numThreads).

Definition start : M HttpServer unit := zoom serverL (server_start false).

(** What the connections of the server call. *)
Definition callbacks (s : HttpServer) : Callbacks (W := W) (U := option HttpContext * A) :=
  http_callbacks (httpCallback_ s).

(** The service is up: the server listens, has its loops, and its connections are
    answered by [cb]. *)
Record serving (loops : list loop_id) base ipPort name cb (s : HttpServer) : Prop := {
  sv_order : in_order loops base ipPort name 0 (server_ s);
  sv_empty : conns (server_ s) = [];
  sv_callbacks : callbacks s = http_callbacks cb;
}.

Lemma serving_starts base ipPort name k cb n : 0 <= n < 2 ^ 31 -> (length ipPort <= max_ip_port)%nat ->
  wp (setHttpCallback cb ;;; setThreadNum n ;;; start) (λ _ s, serving (seq k (Z.to_nat n)) base ipPort name cb s)
    (HttpServer_ctor base ipPort name k).
Proof.
  intros Hn Hip. unfold setHttpCallback, setThreadNum, start. rewrite wp_bind, wp_modify, wp_bind, wp_zoom.
  pose proof (server_start_wp false n base ipPort name k Hn Hip) as Hs. rewrite wp_bind in Hs.
  eapply wp_mono; [exact Hs|]. intros [] w1 H1. rewrite wp_zoom. eapply wp_mono; [exact H1|].
  intros [] w2 (Hin & Hc & _). by split.
Qed.

End service.
