(* ===== verification/Startup.v ===== *)
(** * Startup: what main() makes of its command line (app.cc)

    The HTTP application takes nine arguments.  [main()] looks only whether there
    are any, and reads all nine: past the end of [argv] there is a null pointer and
    then nothing.  The members of [Application] that start the server are here too;
    its constructor and its requests are in [Application.v].  The banner and the
    usage text are not modelled. *)

From Stdlib Require Import ZArith Lia Init.Byte.
From stdpp Require Import list.
From S2P Require Import Prelude Bytes Base.
From S2P Require Import Channel TCPConnection HttpService.

Local Open Scope Z_scope.

(** ** [atoi]

    A value that is not an [int] is undefined behaviour. *)
Fixpoint take_while (p : Byte.byte -> bool) (l : bytes) : bytes :=
  match l with
  | b :: l' => if p b then b :: take_while p l' else []
  | [] => []
  end.

Definition atoi (s : bytes) : result Z :=
  let s := drop_while isspace s in
  let '(sign, s) := match s with
                    | b :: s' => if bool_decide (b = "-"%byte) then (-1, s')
                                 else if bool_decide (b = "+"%byte) then (1, s') else (1, s)
                    | [] => (1, [])
                    end in
  let v := sign * dec_value (take_while is_digit s) in
  if (- 2 ^ 31 <=? v) && (v <? 2 ^ 31) then Ok v else Fault OutOfBounds.

(** ** The local variables of [main()] *)
Record Config := mkConfig {
  dbIp : bytes;
  dbPort : Z;
  user : bytes;
  passwd : bytes;
  db : bytes;
  serverName : bytes;
  staticSrcPrefix : bytes;
  serverPort : Z;
  numThreads : Z;
}.

Definition defaults : Config :=
  mkConfig (str "192.168.1.108") 3306 (str "lutianen") (str "lutianen") (str "LuxDatabase")
    (str "LuxPolaris") (str "/home/lux/Lux/app/HTML") 5836 8.

Section main.
Context (argv : list bytes).

(** [argv[i]] as a C string. *)
Definition arg (i : nat) : M Config bytes :=
  liftR (λ _, match argv !! i with Some s => Ok s | None => Fault OutOfBounds end).

Definition int_arg (i : nat) : M Config Z := s ← arg i; liftR (λ _, atoi s).

(** [true] when the server is to be started with the variables as they are now. *)
Definition main_config : M Config bool :=
  if (1 <? length argv)%nat then
    serverName ← arg 1; modify (λ c, {| c with serverName := serverName |}) ;;;
    prefix ← arg 2; modify (λ c, {| c with staticSrcPrefix := prefix |}) ;;;
    port ← int_arg 3; modify (λ c, {| c with serverPort := wrap_u 16 port |}) ;;;
    threads ← int_arg 4; modify (λ c, {| c with numThreads := threads |}) ;;;
    ip ← arg 5; modify (λ c, {| c with dbIp := ip |}) ;;;
    dbport ← int_arg 6; modify (λ c, {| c with dbPort := wrap_u 16 dbport |}) ;;;
    user ← arg 7; modify (λ c, {| c with user := user |}) ;;;
    passwd ← arg 8; modify (λ c, {| c with passwd := passwd |}) ;;;
    db ← arg 9; modify (λ c, {| c with db := db |}) ;;;
    mret true
  else mret false.
End main.

(** ** Starting the application's server *)
Section start.
Context {BT : BaseTime} {W : Type} {LO : LoopOps W} {SN : SocketNet} {A : Type}.
Definition setNumThreads (num : Z) : M (HttpServer (A := A)) unit := setThreadNum num.
Definition app_start : M (HttpServer (A := A)) unit := start.
End start.

(** ** Numbers as a shell passes them *)
Lemma take_while_all p l rest : Forall (λ b, p b = true) l ->
  match rest with b :: _ => p b = false | [] => True end -> take_while p (l ++ rest) = l.
Proof.
  intros Hl Hr. induction Hl as [|b l Hb _ IH]; simpl.
  - destruct rest; [done|]. simpl. by rewrite Hr.
  - by rewrite Hb, IH.
Qed.

Lemma digit_plain b : is_digit b = true -> isspace b = false ∧ b ≠ "-"%byte ∧ b ≠ "+"%byte.
Proof. by destruct b. Qed.

Lemma print_u_head n : 0 <= n -> ∃ b l, print_u n = b :: l.
Proof.
  intros Hn. unfold print_u. change (dec_digits 20 n) with (if n <? 10 then [digit n] else dec_digits 19 (n / 10) ++ [digit (n `mod` 10)]).
  destruct (n <? 10); [by eexists _, _|]. by destruct (dec_digits 19 (n / 10)); simpl; eexists _, _.
Qed.

(** Leading spaces do not matter, nor what follows the digits. *)
Lemma atoi_number pad n rest : 0 <= n < 2 ^ 31 -> Forall (λ b, isspace b = true) pad ->
  match rest with b :: _ => is_digit b = false | [] => True end ->
  atoi (pad ++ print_u n ++ rest) = Ok n.
Proof.
  intros Hn Hpad Hrest. unfold atoi.
  destruct (print_u_head n) as (b & l & Hp); [lia|].
  pose proof (dec_digits_digit 20 n ltac:(lia)) as Hd. fold (print_u n) in Hd.
  assert (Hb : is_digit b = true) by (rewrite Hp in Hd; by inversion Hd).
  destruct (digit_plain b Hb) as (Hsp & Hm & Hpl).
  assert (Hdrop : drop_while isspace (pad ++ print_u n ++ rest) = print_u n ++ rest).
  { clear - Hpad Hp Hsp. induction Hpad as [|x pad Hx _ IH]; simpl; [rewrite Hp; simpl; by rewrite Hsp|].
    by rewrite Hx. }
  rewrite Hdrop, Hp. simpl. rewrite !bool_decide_eq_false_2 by done.
  change (b :: l ++ rest) with ((b :: l) ++ rest). rewrite <- Hp, take_while_all by done.
  unfold print_u. rewrite dec_digits_value by (cbn; lia).
  destruct (_ && _) eqn:E; [f_equal; lia|]. apply andb_false_iff in E as [?|?]; bool_to_Z; lia.
Qed.

Corollary atoi_print n : 0 <= n < 2 ^ 31 -> atoi (print_u n) = Ok n.
Proof. intros. rewrite <- (app_nil_r (print_u n)). by apply (atoi_number []). Qed.

(** ** The command line *)
Section command_line.
Context (argv : list bytes).

Lemma arg_wp i s Q c : argv !! i = Some s -> Q s c -> wp (arg argv i) Q c.
Proof. intros Hs HQ. unfold wp, arg, liftR. by rewrite Hs. Qed.

Lemma int_arg_wp i n Q c : argv !! i = Some (print_u n) -> 0 <= n < 2 ^ 31 -> Q n c -> wp (int_arg argv i) Q c.
Proof.
  intros Hs Hn HQ. unfold int_arg. rewrite wp_bind. eapply arg_wp; [exact Hs|].
  unfold wp, liftR. by rewrite atoi_print.
Qed.
End command_line.

(** An assignment, with the record of the variables kept small. *)
Ltac next_variable :=
  rewrite wp_bind, wp_modify;
  cbn [dbIp dbPort user passwd db serverName staticSrcPrefix serverPort numThreads defaults].

(** With its nine arguments the application is configured by them; port numbers
    are cut to 16 bits. *)
Theorem main_configured cmd name prefix port threads ip dbport user passwd db more :
  0 <= port < 2 ^ 31 -> 0 <= threads < 2 ^ 31 -> 0 <= dbport < 2 ^ 31 ->
  wp (main_config ([cmd; name; prefix; print_u port; print_u threads; ip; print_u dbport; user; passwd; db] ++ more))
    (λ b c, b = true ∧ c = mkConfig ip (wrap_u 16 dbport) user passwd db name prefix (wrap_u 16 port) threads)
    defaults.
Proof.
  intros Hp Ht Hd. unfold main_config. rewrite (proj2 (Nat.ltb_lt 1 _)) by (simpl; lia).
  rewrite wp_bind. eapply arg_wp; [reflexivity|]. next_variable.
  rewrite wp_bind. eapply arg_wp; [reflexivity|]. next_variable.
  rewrite wp_bind. eapply int_arg_wp; [reflexivity|exact Hp|]. next_variable.
  rewrite wp_bind. eapply int_arg_wp; [reflexivity|exact Ht|]. next_variable.
  rewrite wp_bind. eapply arg_wp; [reflexivity|]. next_variable.
  rewrite wp_bind. eapply int_arg_wp; [reflexivity|exact Hd|]. next_variable.
  do 3 (rewrite wp_bind; eapply arg_wp; [reflexivity|]; next_variable).
  by rewrite wp_ret.
Qed.

(** With some of them missing [main()] reads past the end of [argv], unless a
    number is out of range before. *)
Theorem main_missing_arguments argv c : (1 < length argv < 10)%nat ->
  main_config argv c = Fault OutOfBounds.
Proof.
  intros H. destruct argv as [|a0 [|a1 l]]; simpl in H; [lia..|].
  assert (Hno : ∀ s v, atoi s = v -> v = Fault OutOfBounds ∨ ∃ n, v = Ok n).
  { intros s v <-. destruct (atoi s) as [n|f] eqn:E; [eauto|left]. unfold atoi in E.
    destruct (match drop_while isspace s with [] => _ | _ => _ end). destruct (_ && _); congruence. }
  do 8 (destruct l as [|? l]; [unfold main_config, int_arg, arg, liftR, mbind, M_bind; simpl;
    repeat (match goal with |- context [atoi ?s] => destruct (Hno s _ eq_refl) as [->|[? ->]]; simpl end); done|]).
  simpl in H. lia.
Qed.

(** A negative number of threads fails the assertion of [TCPServer::setThreadNum]. *)
Lemma negative_threads {BT : BaseTime} {W : Type} {LO : LoopOps W} {SN : SocketNet} {A : Type} n s : n < 0 ->
  setNumThreads (A := A) n s = Fault AssertFailed.
Proof.
  intros Hn. unfold setNumThreads, setThreadNum, zoom, TCPServer.server_setThreadNum, mbind, M_bind, assert_.
  by rewrite (proj2 (Z.leb_gt 0 n)).
Qed.
