(* ===== verification/HttpConversation.v ===== *)
(** * HttpConversation: a client and the HTTP server, byte by byte

    The whole way of a request: the client's bytes arrive in the socket in any
    pieces, the loop reports the channel readable, [handleRead] takes as many as
    the kernel gives it, [HttpServer::onMessage] parses what is there, and when the
    request is complete its response is sent.  Composes [TCPConnection.v],
    [HttpContext.v] and [HttpServer.v]. *)

From Stdlib Require Import ZArith Lia.
From stdpp Require Import gmap list.
From S2P Require Import Prelude Bytes Base Buffer HttpResponse.
From S2P Require Import Channel EPollPoller TCPConnection TCPConnectionInv TCPConnectionProps HttpServer.
From S2P Require Import HttpRequest HttpContext.

Local Open Scope Z_scope.

(** ** Requests that are not complete yet *)
Section partial.
Context {BT : BaseTime}.

Lemma memmem_incomplete (line p d : bytes) : ch_cr ∉ line -> p ++ d = line ++ kCRLF -> d ≠ [] ->
  memmem kCRLF p = None.
Proof.
  revert p. induction line as [|b line IH]; intros p Hcr Heq Hd.
  - destruct p as [|x [|y p]]; [done| |].
    + by injection Heq as -> _.
    + injection Heq as -> -> Hp. apply app_nil in Hp as [-> ->]. done.
  - rewrite not_elem_of_cons in Hcr. destruct Hcr as [Hb Hl].
    destruct p as [|x p]; [done|]. injection Heq as -> Heq. cbn [memmem].
    assert (is_prefix kCRLF (b :: p) = false) as ->.
    { cbn. by rewrite bool_decide_false by congruence. }
    by rewrite (IH p Hl Heq Hd).
Qed.

(** A part of a text that begins with a line: of the line, or beyond it. *)
Lemma part_of_line (line rest p d : bytes) : ch_cr ∉ line -> p ++ d = line ++ kCRLF ++ rest ->
  memmem kCRLF p = None ∨ ∃ p', p = line ++ kCRLF ++ p' ∧ p' ++ d = rest.
Proof.
  intros Hcr Heq. rewrite app_assoc in Heq.
  apply app_eq_inv in Heq as [(k & -> & ->)|(k & Heq & ->)].
  - right. exists k. by rewrite <- app_assoc.
  - destruct k as [|x k].
    + right. exists []. rewrite app_nil_r in Heq. by rewrite <- Heq, app_nil_r.
    + left. by apply (memmem_incomplete line p (x :: k)).
Qed.

Lemma headers_cons h hs rest : headers_bytes (h :: hs) ++ rest = header_bytes h ++ kCRLF ++ headers_bytes hs ++ rest.
Proof. unfold headers_bytes. simpl. by rewrite <- !app_assoc. Qed.

Lemma pparse_partial_headers t hs c p d : state_ c = kExpectHeaders -> Forall valid_header hs ->
  p ++ d = headers_bytes hs ++ kCRLF -> d ≠ [] ->
  ∃ F c' l', pparse F t true c p = Ok (true, c', l') ∧ state_ c' = kExpectHeaders.
Proof.
  intros Hst Hv. revert c p Hst. induction Hv as [|h hs Hh Hv IH]; intros c p Hst Heq Hd.
  - assert (memmem kCRLF p = None) as Hp by (apply (memmem_incomplete [] p d); [apply not_elem_of_nil|done..]).
    exists 1%nat, c, p. split; [|done]. cbn [pparse]. by rewrite Hst, Hp.
  - rewrite headers_cons in Heq. pose proof Hh as (_ & Hcr & _).
    destruct (part_of_line _ _ _ _ Hcr Heq) as [Hp|(p' & -> & Hp')].
    { exists 1%nat, c, p. split; [|done]. cbn [pparse]. by rewrite Hst, Hp. }
    destruct (put_header_line h c Hh) as [Hcol Hput].
    destruct (IH (put_header (header_bytes h) c) p') as (F & c' & l' & Hr & Hs'); [by rewrite Hput|done..|].
    exists (S F), c', l'. split; [|done]. cbn [pparse]. rewrite Hst, memmem_line by done.
    destruct (line_rest (header_bytes h) p') as [-> ->]. by rewrite Hcol.
Qed.

(** The parser has seen [p] of a request that needs more. *)
Definition midway (p : bytes) (c : HttpContext) (l : bytes) : Prop :=
  state_ c ≠ kGotAll ∧ ∃ t F, pparse F t true HttpContext_ctor p = Ok (true, c, l).

Lemma midway_start : midway [] HttpContext_ctor [].
Proof. split; [done|]. by exists ts_invalid, 1%nat. Qed.

Lemma pparse_partial t m path query v hs p d :
  m ≠ kInvalid -> v ≠ kUnknown -> valid_target path query -> Forall valid_header hs ->
  p ++ d = render m path query v hs [] -> d ≠ [] ->
  ∃ F c l, pparse F t true HttpContext_ctor p = Ok (true, c, l) ∧ state_ c ≠ kGotAll.
Proof.
  intros Hm Hv Ht Hh Heq Hd. unfold render in Heq. rewrite app_nil_r in Heq.
  destruct (part_of_line _ _ _ _ (request_line_no_cr m path query v Ht) Heq) as [Hp|(p' & -> & Hp')].
  { exists 1%nat, HttpContext_ctor, p. split; [|done]. cbn [pparse]. by rewrite Hp. }
  set (c := put_state kExpectHeaders (put_time t (line_result (request_line m path query v) HttpContext_ctor).2)).
  destruct (pparse_partial_headers t hs c p' d) as (F & c' & l' & Hr & Hs'); [done..|].
  exists (S F), c', l'. split; [|by rewrite Hs'].
  cbn [pparse HttpContext_ctor state_]. rewrite memmem_line by (by apply request_line_no_cr).
  destruct (line_rest (request_line m path query v) p') as [-> ->].
  rewrite processRequestLine_eq. cbn [request_ method_ HttpRequest_ctor].
  rewrite bool_decide_true, orb_true_r by done. unfold c in Hr.
  by rewrite line_result_render in Hr |- * by done.
Qed.

(** One more call of [parseRequest], with more bytes in the buffer. *)
Lemma parse_more p c l t2 b d : midway p c l -> wf b -> content b = l ++ d ->
  ∃ t F, observe (parseRequest t2 (c, b)) = pparse F t true HttpContext_ctor (p ++ d)
    ∧ (pparse F t true HttpContext_ctor (p ++ d) ≠ Fault OutOfFuel).
Proof.
  intros (Hs & t1 & F & Hp) Hwf Hc.
  set (t := if decide (state_ c = kExpectRequestLine) then t2 else t1).
  assert (Hend : ∀ t c l, state_ c ≠ kGotAll -> pparse (length l + 3) t true c l ≠ Fault OutOfFuel).
  { intros t' c' l' Hng. apply pparse_terminates; [done|]. apply rounds_le. }
  exists t, (length (p ++ d) + 3)%nat. split; [|by apply Hend].
  rewrite parseRequest_pparse, Hc by done.
  by apply (pparse_app F t1 t2 t HttpContext_ctor p d c l); [..|apply Hend|apply Hend].
Qed.
End partial.

(** ** The client's side of the connection

    What has arrived in a socket and was not read yet; [PeerLaws] is what recv(2)
    and tcp(7) say: bytes are read in order, as many as the kernel likes but at
    least one when there are any, and sending does not touch them. *)
Class Peer (SN : SocketNet) := {
  peer_sends : Z -> bytes -> Net -> Net;
  unread : Net -> Z -> bytes;
}.

Class PeerLaws (SN : SocketNet) (PE : Peer SN) := {
  peer_law : ∀ fd d n, unread (peer_sends fd d n) fd = unread n fd ++ d
    ∧ wire (peer_sends fd d n) fd = wire n fd ∧ fin_sent (peer_sends fd d n) fd = fin_sent n fd;
  unread_law : ∀ fd iov n r n', net_readv fd iov n = (r, n') -> unread n fd ≠ [] ->
    Forall (λ n, 0 <= n) iov -> 0 < foldr Z.add 0 iov ->
    ∃ d, r = ReadBytes d ∧ d ≠ [] ∧ unread n fd = d ++ unread n' fd;
  unread_write : ∀ fd fd' d n r n', net_write fd d n = (r, n') -> unread n' fd' = unread n fd';
  unread_shutdown : ∀ fd fd' n, unread (net_shutdownWrite fd n) fd' = unread n fd';
}.

(** What a step leaves as it is. *)
Definition keeping {S X} (f : S -> X) (s s' : S) : Prop := f s' = f s.
#[export] Instance keeping_preorder {S X} (f : S -> X) : PreOrder (keeping f).
Proof. split; [by intros s|]. unfold keeping. by intros s1 s2 s3 -> ->. Qed.

Lemma safe_along {S A} (R : S -> S -> Prop) (m : M S A) Q s : along R m ->
  safe m (λ a s', R s s' -> Q a s') s -> safe m Q s.
Proof.
  intros Hm. unfold safe. destruct (m s) as [[a s']|f] eqn:E; [|done]. intros H. apply H. by eapply Hm.
Qed.

Section frames.
Context {BT : BaseTime} {W : Type} {LO : LoopOps W} {SN : SocketNet} {PE : Peer SN} {PL : PeerLaws SN PE}.
Context {U : Type} (fd : Z).
Abbreviation World := (ConnWorld (W := W) (U := U)).
Implicit Types w : World.

(** What arrives, and where. *)
Definition heard w : Z * bytes := (sockfd_ (conn w), unread (net w) fd).
(** All but the state and the output. *)
Definition calm w : (Z * bytes) * (U * list bytes * Buffer) :=
  (heard w, (user w, offered w, inputBuffer_ (conn w))).

Lemma calm_heard {A} (m : M World A) : along (keeping calm) m -> along (keeping heard) m.
Proof. intros H s a s' Hm. apply H in Hm. unfold keeping, calm in *. congruence. Qed.

Lemma along_fail {S A} (R : S -> S -> Prop) f : along R (failM f : M S A).
Proof. by intros s a s'. Qed.

Lemma net_calm {A} (f : Net -> A * Net) : (∀ n a n', f n = (a, n') -> unread n' fd = unread n fd) ->
  along (keeping calm) (on_net f : M World A).
Proof.
  intros Hf w a w'. unfold on_net. destruct (f (net w)) as [x n] eqn:E. intros [= _ <-].
  unfold keeping, calm, heard. simpl. by rewrite (Hf _ _ _ E).
Qed.

Lemma write_calm fd' d : along (keeping calm) (on_net (net_write fd' d) : M World _).
Proof using PL. apply net_calm. intros n a n' H. by eapply unread_write. Qed.

Lemma fin_calm fd' : along (keeping calm) (on_net (λ n, (tt, net_shutdownWrite fd' n)) : M World unit).
Proof using PL. apply net_calm. intros n a n' [= _ <-]. apply unread_shutdown. Qed.

Lemma net_st {A} (f : Net -> A * Net) : along (keeping st) (on_net f : M World A).
Proof. intros w a w'. unfold on_net. destruct (f (net w)). by intros [= _ <-]. Qed.
End frames.

Lemma safe_for_each_app {S A} (l1 l2 : list A) (body : A -> M S unit) Q s :
  safe (for_each l1 body) (λ _ s', safe (for_each l2 body) Q s') s -> safe (for_each (l1 ++ l2) body) Q s.
Proof. intros H. unfold safe at 1. rewrite for_each_app. by apply safe_bind in H. Qed.

(** Goes through the code of a method; [net] is for the system calls. *)
Ltac along_by net := repeat first
  [ match goal with |- forall x : _, _ => intros ? end | net
  | apply along_bind; [try apply _|..] | apply along_ret | apply along_gets | apply along_liftR
  | apply along_assertS | apply along_when | apply along_if | apply along_modify
  | apply along_zoom | apply along_fail | reflexivity | case_match | apply _ ].
Ltac along_tac := along_by ltac:(first [apply write_calm | apply fin_calm | apply net_st]).

Section frames2.
Context {BT : BaseTime} {W : Type} {LO : LoopOps W} {SN : SocketNet} {PE : Peer SN} {PL : PeerLaws SN PE}.
Context {U : Type} (fd : Z).
Abbreviation World := (ConnWorld (W := W) (U := U)).

Lemma shutdownInLoop_calm : along (keeping (calm (W := W) (U := U) fd)) shutdownInLoop.
Proof using PL. unfold shutdownInLoop, assertInLoopThread, the_channel. along_tac. Qed.

Lemma handleWrite_calm : along (keeping (calm (W := W) (U := U) fd)) handleWrite.
Proof using PL. unfold handleWrite, shutdownInLoop, assertInLoopThread, the_channel, on_channel, queueInLoop. along_tac. Qed.

Lemma handleWrite_st : along (keeping (st (W := W) (U := U))) handleWrite.
Proof. unfold handleWrite, shutdownInLoop, assertInLoopThread, the_channel, on_channel, queueInLoop. along_tac. Qed.

Lemma established_calm cb self : along (keeping (calm (W := W) (U := U) fd)) (connectEstablished (quiet cb) self).
Proof. unfold connectEstablished, assertInLoopThread, setState, on_conn, on_channel. along_tac. Qed.

Lemma write_heard fd' d : along (keeping (heard fd)) (on_net (net_write fd' d) : M World _).
Proof using PL. apply calm_heard, write_calm. Qed.
Lemma fin_heard fd' : along (keeping (heard fd)) (on_net (λ n, (tt, net_shutdownWrite fd' n)) : M World unit).
Proof using PL. apply calm_heard, fin_calm. Qed.

Lemma send_heard m : along (keeping (heard (W := W) (U := U) fd)) (send m).
Proof using PL.
  unfold send, runInLoop, sendInLoop, assertInLoopThread, the_channel, on_channel, queueInLoop.
  along_by ltac:(first [apply write_heard | apply fin_heard]).
Qed.

Lemma send_buffer_heard b : along (keeping (heard (W := W) (U := U) fd)) (send_buffer b).
Proof using PL.
  unfold send_buffer, runInLoop, sendInLoop, assertInLoopThread, the_channel, on_channel, queueInLoop.
  along_by ltac:(first [apply write_heard | apply fin_heard]).
Qed.

Lemma shutdown_heard : along (keeping (heard (W := W) (U := U) fd)) shutdown.
Proof using PL.
  unfold shutdown, runInLoop, shutdownInLoop, assertInLoopThread, the_channel, setState, on_conn, queueInLoop.
  along_by ltac:(first [apply write_heard | apply fin_heard]).
Qed.
End frames2.

(** ** One request *)
Section exchange.
Context {BT : BaseTime} {W : Type} {LO : LoopOps W} {LS : LoopSpec W}
        {SN : SocketNet} {SL : SocketNetLaws SN} {PE : Peer SN} {PL : PeerLaws SN PE}
        {A : Type}.
Abbreviation World := (ConnWorld (W := W) (U := option HttpContext * A)).
Implicit Types w : World.

(** What happens to a connection while a client uses it. *)
Inductive input :=
  | PeerSends (d : bytes)       (** bytes of the client arrive *)
  | Readable (t : Timestamp)    (** the loop reports the channel readable *)
  | Writable (t : Timestamp).   (** ... or writable *)

(** Level-triggered: a channel is readable when there is something to read. *)
Definition input_step (cb : Callbacks (W := W) (U := option HttpContext * A)) (i : input) : M World unit :=
  w ← getS;
  match i with
  | PeerSends d => on_net (λ n, (tt, peer_sends (sockfd_ (conn w)) d n))
  | Readable t =>
      whenM (closable (conn w) && negb (bool_decide (unread (net w) (sockfd_ (conn w)) = [])))
        (step cb (EvReady POLLIN t))
  | Writable t => whenM (closable (conn w)) (step cb (EvReady POLLOUT t))
  end.

Definition sends (l : list input) : bytes := mjoin ((λ i, match i with PeerSends d => d | _ => [] end) <$> l).

(** Bytes that the kernel delivers end up in the input buffer. *)
Lemma handleRead_delivers cb t X w d n' Q : conn_inv X w ->
  net_readv (sockfd_ (conn w)) (readFd_iov (inputBuffer_ (conn w))) (net w) = (ReadBytes d, n') -> d ≠ [] ->
  (∀ b, let w2 := upd inL b {| w with net := n' |} in wf b -> content b = content (inputBuffer_ (conn w)) ++ d ->
     conn_inv X w2 -> safe (messageCallback cb t) Q w2) ->
  safe (handleRead cb t) Q w.
Proof using LS SL.
  intros H Hr Hd HQ. pose proof H as []. destruct co_chan as (ch & Hch & Hco).
  unfold handleRead. rewrite safe_bind. apply safe_assertInLoopThread; [done|].
  rewrite safe_bind. apply (safe_the_channel w ch); [done|]. rewrite safe_bind, safe_getS.
  rewrite (cc_fd _ _ Hch), Hr. destruct (readv_law _ _ _ _ _ Hr) as (Hs & Hf & Hlen).
  rewrite safe_bind, safe_modify. set (w1 := {| w with net := n' |}).
  change (sent w1 = sent w) in Hs. change (fin w1 = fin w) in Hf.
  assert (H1 : conn_inv X w1) by (by apply (owing_net X [] [] w n' H); [|fold w1; rewrite Hs]).
  rewrite safe_bind, safe_zoom. apply readFd_safe; [done| |done|].
  { intros d' [= <-]. apply Hlen; [done|]. apply readFd_iov_nonneg. }
  intros d' b [= <-] Hb Hc. set (w2 := upd inL b w1).
  assert (H2 : conn_inv X w2).
  { destruct H1. split; try done. destruct co_chan as (c & [] & ?). exists c. by split. }
  assert (Hpos : 0 <? zlength d = true) by (destruct d; [done|]; apply Z.ltb_lt; simpl; lia).
  rewrite Hpos. by apply HQ.
Qed.

Lemma readFd_iov_room b : wf b -> 0 < foldr Z.add 0 (readFd_iov b).
Proof.
  intros Hwf. rewrite readFd_iov_total by done. pose proof (wf_writable b Hwf). destruct Hwf.
  unfold extrabuf_size. case_match eqn:E; bool_to_Z; lia.
Qed.

Section one_request.
Context (httpCallback : HttpRequest -> M (A * HttpResponse) unit).
Context (m : Method) (path query : bytes) (v : Version) (hs : list header_line).
Context (a a' : A) (r : HttpResponse).

Definition request : bytes := render m path query v hs [].

(** The request can be sent, and [r] is what the handler answers when its object is
    [a], whenever the request arrives. *)
Record answerable : Prop := {
  aw_method : m ≠ kInvalid;
  aw_version : v ≠ kUnknown;
  aw_target : valid_target path query;
  aw_headers : Forall valid_header hs;
  aw_callback : ∀ t, let req := mkRequest m v path query t (headers_of hs ∅) [] in
    httpCallback req (a, HttpResponse_ctor (wants_close req)) = Ok (tt, (a', r));
  aw_printable : printable r;
}.

Context (Hok : answerable).
Context (fd : Z) (o : list bytes).

(** [p] of the request was read, and nothing was answered yet. *)
Record waiting (p : bytes) w : Prop := {
  wt_state : st w = kConnected;
  wt_context : ∃ c, user w = (Some c, a) ∧ midway p c (content (inputBuffer_ (conn w)));
  wt_offered : offered w = o;
}.

Record served w : Prop := {
  sv_state : st w = if closeConnection r then kDisconnecting else kConnected;
  sv_context : user w = (Some HttpContext_ctor, a');
  sv_input : content (inputBuffer_ (conn w)) = [];
  sv_offered : offered w = o ++ [response_bytes r];
  sv_whole : whole w;
}.

(** The client has sent [s]; [p] of it was read. *)
Record progress (s p : bytes) w : Prop := {
  pg_fd : sockfd_ (conn w) = fd;
  pg_read : s = p ++ unread (net w) fd;
  pg_state : if decide (p = request) then served w else waiting p w;
}.

Lemma onMessage_waits X w t c0 c b : conn_inv X w -> fst (user w) = Some c0 ->
  parseRequest t (view parserL w) = Ok (true, (c, b)) -> gotAll c = false ->
  safe (onMessage httpCallback t) (λ _ w', w' = upd parserL (c, b) w ∧ conn_inv X w' ∧ forward w w') w.
Proof using LS SL.
  intros H Hu Hp Hg. assert (Hwb : wf b) by (eapply parseRequest_wf; [|exact Hp]; apply H).
  unfold onMessage. rewrite safe_bind, safe_gets, Hu, safe_bind.
  unfold safe at 1. rewrite (zoom_ok _ _ _ _ _ Hp). rewrite safe_bind, safe_when. cbn [negb].
  rewrite safe_bind, safe_gets. change (view parserL (upd parserL (c, b) w)) with (c, b).
  rewrite safe_when, Hg. split_and!; [done|by apply parser_put|done].
Qed.

Lemma onMessage_heard t : along (keeping (heard (W := W) (U := option HttpContext * A) fd)) (onMessage httpCallback t).
Proof using PL.
  unfold onMessage, onRequest, local_object.
  along_by ltac:(first [apply send_heard | apply send_buffer_heard | apply shutdown_heard]).
Qed.

(** The handler is called when the last byte was read, and not before. *)
Lemma onMessage_progress s p t w d b : conn_inv [] w -> waiting p w -> sockfd_ (conn w) = fd ->
  wf b -> content b = content (inputBuffer_ (conn w)) ++ d ->
  s = (p ++ d) ++ unread (net w) fd -> s `prefix_of` request ->
  let w2 := upd inL b w in conn_inv [] w2 ->
  safe (onMessage httpCallback t) (λ _ w', conn_inv [] w' ∧ forward w2 w' ∧ progress s (p ++ d) w') w2.
Proof using All.
  intros H [Hst (c & Hu & Hmid) Ho] Hfd Hwf Hc Hs Hpre w2 H2.
  eapply safe_along; [apply onMessage_heard|].
  assert (Hheard : ∀ w', keeping (heard fd) w2 w' -> sockfd_ (conn w') = fd ∧ s = (p ++ d) ++ unread (net w') fd).
  { intros w' Hk. unfold keeping, heard in Hk. injection Hk as Hf Hn. split; [by rewrite Hf|by rewrite Hn]. }
  destruct (parse_more p c _ t b d Hmid Hwf Hc) as (t' & F & Hobs & Hfuel).
  assert (Hv : view parserL w2 = (c, b)) by (simpl; by rewrite Hu).
  destruct (decide (p ++ d = request)) as [Hall|Hpart].
  - pose proof (pparse_render t' m path query v hs [] (aw_method Hok) (aw_version Hok) (aw_target Hok) (aw_headers Hok)) as Hr.
    fold request in Hr. rewrite <- Hall in Hr. rewrite (pparse_fuel F (length hs + 3)) in Hobs by (try done; by rewrite Hr).
    rewrite Hr in Hobs. apply observe_ok in Hobs as (b' & Hp & Hb'). rewrite <- Hv in Hp.
    eapply safe_mono.
    { eapply (onMessage_answer httpCallback [] w2 t _ b' a' r); [done|exact Hst| |exact Hp|done| |apply Hok].
      - simpl. by rewrite Hu.
      - simpl. rewrite Hu. apply (aw_callback Hok t'). }
    intros [] w' (H' & Ho' & Hs' & Hi' & Hu' & F' & Hw') [Hf' Hn']%Hheard. split_and!; [done|done|].
    split; [done|done|]. rewrite decide_True by done.
    split; [done|done|by rewrite Hi'|by rewrite Ho', <- Ho|done].
  - destruct Hpre as [rest Hrest]. rewrite Hs in Hrest.
    destruct (pparse_partial t' m path query v hs (p ++ d) (unread (net w) fd ++ rest)) as (F' & c' & l' & Hr & Hs');
      [apply Hok..|rewrite app_assoc; by symmetry| |].
    { intros [Hn Hrst]%app_nil. rewrite Hn, Hrst, !app_nil_r in Hrest. by symmetry in Hrest. }
    rewrite (pparse_fuel F F') in Hobs by (try done; by rewrite Hr).
    rewrite Hr in Hobs. apply observe_ok in Hobs as (b' & Hp & Hb'). rewrite <- Hv in Hp.
    eapply safe_mono; [by apply (onMessage_waits [] w2 t c c' b'); [|simpl; rewrite Hu|..|by apply bool_decide_eq_false]|].
    intros [] w' (-> & H' & F2) [Hf' Hn']%Hheard. split_and!; [done|done|].
    split; [done|done|]. rewrite decide_False by done. split; [done| |done].
    exists c'. split; [simpl; by rewrite Hu|]. split; [done|]. simpl. rewrite Hb'. by exists t', F'.
Qed.

Lemma progress_lw s p x w : progress s p w -> progress s p {| w with lw := x |}.
Proof using Type.
  intros [Hf Hr Hs]. split; [done|done|]. destruct (decide _); destruct Hs; by split.
Qed.

Lemma progress_calm s p w w' : conn_inv [] w' -> forward w w' ->
  keeping (calm fd) w w' -> st w' = st w -> progress s p w -> progress s p w'.
Proof using Type.
  intros H' F' Hc Hst [Hf Hr Hs]. unfold keeping, calm, heard in Hc. injection Hc as Hfd Hn Hu Ho Hi.
  split; [congruence|by rewrite Hn|].
  destruct (decide _); destruct Hs.
  - split; [congruence|congruence|by rewrite Hi|congruence|].
    by eapply whole_later; [exact sv_whole0|done|apply F'|].
  - split; [congruence|by rewrite Hu, Hi|congruence].
Qed.

Lemma progress_open s p w : progress s p w -> closable (conn w) = true.
Proof using Type.
  intros [_ _ Hs]. unfold closable. change (TCPConnection.state_ (conn w)) with (st w). destruct (decide _); [|by rewrite (wt_state _ _ Hs)].
  rewrite (sv_state _ Hs). by destruct (closeConnection r).
Qed.

Lemma waits_for_rest s p w : s `prefix_of` request -> progress s p w -> unread (net w) fd ≠ [] -> p ≠ request.
Proof using Type.
  intros [rest Hpre] [_ Hr _] Hn ->. apply Hn. rewrite Hr, <- app_assoc in Hpre.
  rewrite <- (app_nil_r request) in Hpre at 1. apply app_inv_head in Hpre.
  symmetry in Hpre. by apply app_nil in Hpre as [-> _].
Qed.

Abbreviation cb := (http_callbacks httpCallback).

Lemma readable_step s p w t : s `prefix_of` request -> conn_inv [] w -> progress s p w ->
  safe (input_step cb (Readable t)) (λ _ w', ∃ p', conn_inv [] w' ∧ progress s p' w'
    ∧ (p' = s ∨ (length p < length p')%nat)) w.
Proof using All.
  intros Hpre H Hp. unfold input_step. rewrite safe_bind, safe_getS, safe_when.
  rewrite (progress_open s p w Hp), (pg_fd _ _ _ Hp). case_bool_decide as Hn; cbn [negb andb].
  { exists p. split_and!; [done|done|]. left. by rewrite (pg_read _ _ _ Hp), Hn, app_nil_r. }
  cbn [step]. eapply safe_mono.
  { apply (ready_calls cb CHandleRead POLLIN [] w t (λ w, progress s p w ∧ unread (net w) fd ≠ [])
      (λ w', ∃ p', progress s p' w' ∧ (length p < length p')%nat)); [done|done|by left| | |].
    - intros x w1 [Hp1 Hn1]. split; [by apply progress_lw|done].
    - intros x w1 (p' & Hp1 & Hl). exists p'. split; [by apply progress_lw|done].
    - intros w1 H1 [Hp1 Hn1]. cbn [run_closure]. pose proof Hp1 as [Hf Hr Hs].
      rewrite decide_False in Hs by (by eapply waits_for_rest).
      destruct (net_readv fd (readFd_iov (inputBuffer_ (conn w1))) (net w1)) as [res n'] eqn:Hread.
      destruct (unread_law fd _ _ _ _ Hread Hn1) as (d & -> & Hd & Hun);
        [apply readFd_iov_nonneg|apply readFd_iov_room, H1|].
      eapply (handleRead_delivers cb t [] w1 d n'); [done|by rewrite Hf|done|].
      intros b w2 Hwf Hc H2. set (wn := {| w1 with net := n' |}).
      assert (Hw1 : forward w1 w2).
      { destruct (readv_law _ _ _ _ _ Hread) as (Hsn & _).
        destruct (forward_net w1 n'); [unfold sent; simpl; by rewrite Hf|]. by split. }
      eapply safe_mono.
      { apply (onMessage_progress s p t wn d b); try done.
        - destruct H2. split; try done.
          + destruct co_chan as (c & [] & ?). exists c. by split.
          + apply H1.
        - destruct Hs; by split.
        - by rewrite Hr, Hun, <- app_assoc. }
      intros [] w3 (H3 & F3 & P3). split_and!; [done|by apply (forward_trans w1 w2)|].
      exists (p ++ d). split; [done|]. rewrite length_app. destruct d; [done|simpl; lia]. }
  intros [] w' (H' & p' & Hp' & Hl). exists p'. split_and!; [done|done|by right].
Qed.

Lemma writable_step s p w t : conn_inv [] w -> progress s p w ->
  safe (input_step cb (Writable t)) (λ _ w', conn_inv [] w' ∧ progress s p w') w.
Proof using All.
  intros H Hp. unfold input_step. rewrite safe_bind, safe_getS, safe_when, (progress_open s p w Hp). cbn [step].
  apply (ready_calls cb CHandleWrite POLLOUT [] w t (progress s p) (progress s p)); [done|done|by right| | |].
  - intros x w1. apply progress_lw.
  - intros x w1. apply progress_lw.
  - intros w1 H1 Hp1. cbn [run_closure].
    eapply safe_along; [apply (handleWrite_calm fd)|]. eapply safe_along; [apply handleWrite_st|].
    eapply safe_mono; [by apply handleWrite_ok|]. intros [] w2 [H2 F2] Hst Hcalm.
    split_and!; [done|done|by eapply progress_calm].
Qed.

Lemma sends_step s p w d : s ++ d `prefix_of` request -> conn_inv [] w -> progress s p w ->
  safe (input_step cb (PeerSends d)) (λ _ w', conn_inv [] w' ∧ progress (s ++ d) p w') w.
Proof using All.
  intros Hpre H Hp. unfold input_step. rewrite safe_bind, safe_getS. apply safe_on_net.
  intros [] n' [= <-]. pose proof Hp as [Hf Hr Hs]. rewrite Hf.
  destruct (peer_law fd d (net w)) as (Hu & Hw & Hfin). split.
  - apply (owing_net [] [] [] w _ H); [unfold fin; simpl; by rewrite Hf|].
    unfold sent; simpl. by rewrite Hf, Hw.
  - split; [done|simpl; by rewrite Hu, Hr, <- app_assoc|].
    destruct (decide _); destruct Hs; split; try done.
    intros Hnr. etrans; [|exact (sv_whole0 Hnr)]. unfold stream, sent; simpl. by rewrite Hf, Hw.
Qed.

Lemma sends_cons i l : sends (i :: l) = sends [i] ++ sends l.
Proof using Type. unfold sends. simpl. by rewrite app_nil_r. Qed.

Lemma inputs_run l s p w : s ++ sends l `prefix_of` request -> conn_inv [] w -> progress s p w ->
  safe (for_each l (input_step cb)) (λ _ w', ∃ p', conn_inv [] w' ∧ progress (s ++ sends l) p' w') w.
Proof using All.
  revert s p w. induction l as [|i l IH]; intros s p w Hpre H Hp; cbn [for_each].
  { exists p. by rewrite app_nil_r. }
  rewrite sends_cons, app_assoc in Hpre |- *.
  assert (Hs : s ++ sends [i] `prefix_of` request) by (etransitivity; [|exact Hpre]; by eexists).
  rewrite safe_bind. eapply (safe_mono _ (λ _ w', ∃ p', conn_inv [] w' ∧ progress (s ++ sends [i]) p' w')).
  - destruct i as [d|t|t].
    + unfold sends in *; simpl in *. rewrite app_nil_r in *.
      eapply safe_mono; [by apply (sends_step s p w d)|]. intros [] w' []. by exists p.
    + change (sends [Readable t]) with (@nil Byte.byte) in *. rewrite app_nil_r in *.
      eapply safe_mono; [by apply (readable_step s p w t)|]. intros [] w' (p' & ? & ? & _). by exists p'.
    + change (sends [Writable t]) with (@nil Byte.byte) in *. rewrite app_nil_r in *.
      eapply safe_mono; [by apply (writable_step s p w t)|]. intros [] w' []. by exists p.
  - intros [] w' (p' & H' & Hp'). by apply (IH _ p').
Qed.

(** Every report of the loop makes progress. *)
Lemma all_read ts s p w : s `prefix_of` request -> conn_inv [] w -> progress s p w ->
  (length s <= length p + length ts)%nat ->
  safe (for_each (Readable <$> ts) (input_step cb)) (λ _ w', conn_inv [] w' ∧ progress s s w') w.
Proof using All.
  revert p w. induction ts as [|t ts IH]; intros p w Hpre H Hp Hlen; cbn [fmap list_fmap for_each].
  - assert (p = s) as ->; [|done]. pose proof (pg_read _ _ _ Hp) as Hr.
    rewrite Hr, length_app in Hlen. simpl in Hlen.
    destruct (unread (net w) fd); [by rewrite app_nil_r in Hr|simpl in Hlen; lia].
  - rewrite safe_bind. eapply safe_mono; [by apply (readable_step s p w t)|].
    intros [] w' (p' & H' & Hp' & Hl). apply (IH p'); [done..|]. simpl in Hlen. destruct Hl as [->|]; lia.
Qed.

Lemma request_served l ts w : sends l = request -> (length request <= length ts)%nat ->
  conn_inv [] w -> sockfd_ (conn w) = fd -> unread (net w) fd = [] ->
  st w = kConnected -> user w = (Some HttpContext_ctor, a) -> content (inputBuffer_ (conn w)) = [] -> offered w = o ->
  safe (for_each (l ++ (Readable <$> ts)) (input_step cb)) (λ _ w', conn_inv [] w' ∧ served w'
    ∧ sockfd_ (conn w') = fd ∧ unread (net w') fd = []) w.
Proof using All.
  intros Hl Hts H Hf Hn Hst Hu Hi Ho.
  assert (Hp : progress [] [] w).
  { split; [done|by rewrite Hn|]. rewrite decide_False.
    - split; [done| |done]. exists HttpContext_ctor. split; [done|]. rewrite Hi. apply midway_start.
    - unfold request, render, request_line. by destruct (method_name m). }
  apply safe_for_each_app. eapply safe_mono; [apply (inputs_run l [] [] w); [by rewrite Hl|done..]|].
  intros [] w1 (p & H1 & Hp1). rewrite Hl in Hp1.
  eapply safe_mono; [by apply (all_read ts request p w1); [..|simpl in *; lia]|].
  intros [] w2 [H2 [Hf2 Hr2 Hs2]]. rewrite decide_True in Hs2 by done. split_and!; [done..|].
  rewrite <- (app_nil_r request) in Hr2 at 1. by apply app_inv_head in Hr2.
Qed.
End one_request.

(** ** Conversations *)
Record exchange := mkExchange {
  x_method : Method; x_path : bytes; x_query : bytes; x_version : Version;
  x_headers : list header_line;
  x_response : HttpResponse;
  x_inputs : list input;       (** while the request is sent *)
  x_reads : list Timestamp;    (** and what of it is left is read *)
}.

Definition x_request (x : exchange) : bytes :=
  request (x_method x) (x_path x) (x_query x) (x_version x) (x_headers x).
Definition all_inputs (x : exchange) : list input := x_inputs x ++ (Readable <$> x_reads x).

(** The pieces in which the request is sent, the moments at which they are read, and
    how much the kernel gives at each are arbitrary; in the end all of it is read.
    The handler's object goes from [a] to [a']. *)
Record fair (httpCallback : HttpRequest -> M (A * HttpResponse) unit) (a : A) (x : exchange) (a' : A) : Prop := {
  fx_answer : answerable httpCallback (x_method x) (x_path x) (x_query x) (x_version x) (x_headers x)
    a a' (x_response x);
  fx_sends : sends (x_inputs x) = x_request x;
  fx_reads : (length (x_request x) <= length (x_reads x))%nat;
}.

Inductive chain (httpCallback : HttpRequest -> M (A * HttpResponse) unit) : A -> list exchange -> A -> Prop :=
  | chain_nil a : chain httpCallback a [] a
  | chain_cons a x a1 xs a2 : fair httpCallback a x a1 -> chain httpCallback a1 xs a2 ->
      chain httpCallback a (x :: xs) a2.

Definition keeps_open (x : exchange) : Prop := closeConnection (x_response x) = false.

(** Between two requests. *)
Record idle (fd : Z) (os : list bytes) (a : A) w : Prop := {
  id_inv : conn_inv [] w;
  id_fd : sockfd_ (conn w) = fd;
  id_unread : unread (net w) fd = [];
  id_context : user w = (Some HttpContext_ctor, a);
  id_input : content (inputBuffer_ (conn w)) = [];
  id_offered : offered w = os;
  id_whole : whole w;
}.

Section conversation.
Context (httpCallback : HttpRequest -> M (A * HttpResponse) unit).
Abbreviation cb := (http_callbacks httpCallback).

Lemma exchange_done a x a' fd os w : fair httpCallback a x a' -> idle fd os a w -> st w = kConnected ->
  safe (for_each (all_inputs x) (input_step cb)) (λ _ w', idle fd (os ++ [response_bytes (x_response x)]) a' w'
    ∧ st w' = if closeConnection (x_response x) then kDisconnecting else kConnected) w.
Proof using All.
  intros [Ha Hs Hr] [] Hst. eapply safe_mono.
  - by apply (request_served httpCallback _ _ _ _ _ _ _ _ Ha fd os (x_inputs x) (x_reads x)).
  - intros [] w' (H' & [] & Hf & Hn). by split.
Qed.

Definition responses (xs : list exchange) : list bytes := (λ x, response_bytes (x_response x)) <$> xs.

Lemma exchanges_done a xs a1 fd os w : chain httpCallback a xs a1 -> Forall keeps_open xs ->
  idle fd os a w -> st w = kConnected ->
  safe (for_each (concat (all_inputs <$> xs)) (input_step cb)) (λ _ w',
    idle fd (os ++ responses xs) a1 w' ∧ st w' = kConnected) w.
Proof using All.
  intros Hch. revert os w. induction Hch as [a|a x a2 xs a1 Hx _ IH]; intros os w Hopen Hid Hst.
  - cbn. by rewrite app_nil_r.
  - inversion Hopen as [|? ? Hox Hoxs]; subst. cbn [fmap list_fmap concat].
    apply safe_for_each_app. eapply safe_mono; [by apply (exchange_done a x a2 fd os)|].
    intros [] w1 [Hid1 Hst1]. rewrite Hox in Hst1.
    eapply safe_mono; [by apply (IH (os ++ [response_bytes (x_response x)]))|].
    intros [] w2 [Hid2 Hst2]. split; [|done]. unfold responses in *. cbn [fmap list_fmap].
    by rewrite <- app_assoc in Hid2.
Qed.

(** The server's callback gives a new connection its parser. *)
Lemma established_idle self sockfd p w : fresh_conn sockfd p w -> unread (net w) sockfd = [] ->
  safe (connectEstablished cb self) (λ _ w', idle sockfd [] (snd (user w)) w' ∧ st w' = kConnected) w.
Proof using All.
  intros Hf Hn. unfold safe at 1. rewrite established_split.
  fold (safe (connectEstablished (quiet cb) self ;;; connectionCallback cb)
    (λ _ w', idle sockfd [] (snd (user w)) w' ∧ st w' = kConnected) w).
  rewrite safe_bind. eapply safe_along; [apply (established_calm sockfd)|]. apply wp_safe.
  eapply wp_mono; [by eapply quiet_established|]. intros [] w1 [Hinv _ Hst _ _ _] Hc.
  unfold keeping, calm, heard in Hc. injection Hc as Hfd Hun Hu Ho Hi.
  destruct (ctor_spec _ _ _ (fr_conn _ _ _ Hf)) as (_ & Hsk & _ & _ & _ & Hout).
  assert (Hin : inputBuffer_ (conn w) = outputBuffer_ (conn w)).
  { pose proof (fr_conn _ _ _ Hf) as Hctor. unfold TCPConnection_ctor in Hctor.
    destruct (Buffer_ctor kInitialSize); [|done]. by injection Hctor as <-. }
  cbn [connectionCallback http_callbacks]. unfold onConnection. rewrite safe_bind, safe_gets, safe_when.
  unfold connected. rewrite bool_decide_eq_true_2 by exact Hst. rewrite safe_modify. split; [|done]. split; simpl.
  - eapply owing_ext; try exact Hinv; try done; auto.
  - by rewrite Hfd.
  - by rewrite Hun.
  - by rewrite Hu.
  - by rewrite Hi, Hin.
  - by rewrite Ho, (fr_offered _ _ _ Hf).
  - by apply (whole_connected [] w1).
Qed.

(** The whole of it. *)
Lemma conversation_runs self sockfd p w xs x a1 a2 : fresh_conn sockfd p w -> unread (net w) sockfd = [] ->
  chain httpCallback (snd (user w)) xs a1 -> Forall keeps_open xs -> fair httpCallback a1 x a2 ->
  safe (connectEstablished cb self ;;; for_each (concat (all_inputs <$> xs) ++ all_inputs x) (input_step cb))
    (λ _ w', offered w' = responses (xs ++ [x])
       ∧ st w' = (if closeConnection (x_response x) then kDisconnecting else kConnected)
       ∧ (∃ kept, kept `sublist_of` responses (xs ++ [x])
            ∧ wire (net w') sockfd ++ content (outputBuffer_ (conn w')) = mjoin kept)
       ∧ (no_reset -> wire (net w') sockfd ++ content (outputBuffer_ (conn w')) = mjoin (responses (xs ++ [x])))
       ∧ content (inputBuffer_ (conn w')) = [] ∧ unread (net w') sockfd = []
       ∧ user w' = (Some HttpContext_ctor, a2)) w.
Proof using All.
  intros Hf Hn Hch Hopen Hx. rewrite safe_bind. eapply safe_mono; [by eapply established_idle|].
  intros [] w1 [H1 Hst1]. apply safe_for_each_app.
  eapply safe_mono; [by apply (exchanges_done _ xs a1 sockfd [] w1 Hch)|].
  intros [] w2 [H2 Hst2]. eapply safe_mono; [by apply (exchange_done a1 x a2 sockfd (responses xs))|].
  intros [] w3 [[] Hst3].
  assert (Ho : offered w3 = responses (xs ++ [x])).
  { unfold responses in *. rewrite fmap_app. exact id_offered0. }
  split_and!; [done|exact Hst3| | |done..].
  - destruct (co_stream _ _ _ id_inv0) as (kept & Hk & Hs). exists kept.
    rewrite Ho in Hk. split; [done|]. rewrite app_nil_r in Hs. by rewrite <- Hs, <- id_fd0.
  - intros Hr. rewrite <- Ho, <- (id_whole0 Hr), <- id_fd0. done.
Qed.
End conversation.
End exchange.

(** C2: A conversation over one connection.  A client asks one request after the
    other -- requests without a body, each sent when the one before has been
    answered -- and its bytes arrive in any pieces and are read in any pieces, with
    the channel reported readable and writable at any moments.  From the accepted
    connection on nothing fails.  For every request exactly the printed response
    of the handler is sent, once, in order: the bytes given to the kernel followed
    by those in the output buffer are all the responses, one after the other, if no
    write before the FIN is answered with EPIPE or ECONNRESET, and some of the
    responses, each whole and in that order, in any case.  The connection stays
    open until a response says close, and is then shut down; the requests have been
    consumed. *)
Theorem http_conversation {BT : BaseTime} {W} {LO : LoopOps W} {LS : LoopSpec W}
    {SN : SocketNet} {SL : SocketNetLaws SN} {PE : Peer SN} {PL : PeerLaws SN PE} {A : Type}
    httpCallback self sockfd p (w : ConnWorld (W := W) (U := option HttpContext * A)) xs x a1 a2 :
  fresh_conn sockfd p w -> unread (net w) sockfd = [] ->
  chain httpCallback (snd (user w)) xs a1 -> Forall keeps_open xs -> fair httpCallback a1 x a2 ->
  safe (connectEstablished (http_callbacks httpCallback) self ;;;
        for_each (concat (all_inputs <$> xs) ++ all_inputs x) (input_step (http_callbacks httpCallback)))
    (λ _ w', offered w' = responses (xs ++ [x])
       ∧ TCPConnection.state_ (conn w') = (if closeConnection (x_response x) then kDisconnecting else kConnected)
       ∧ (∃ kept, kept `sublist_of` responses (xs ++ [x])
            ∧ wire (net w') sockfd ++ content (outputBuffer_ (conn w')) = mjoin kept)
       ∧ (no_reset -> wire (net w') sockfd ++ content (outputBuffer_ (conn w')) = mjoin (responses (xs ++ [x])))
       ∧ content (inputBuffer_ (conn w')) = [] ∧ unread (net w') sockfd = []
       ∧ user w' = (Some HttpContext_ctor, a2)) w.
Proof.
  intros Hf Hn Hch Hopen Hx. by apply (conversation_runs httpCallback self sockfd p w xs x a1 a2).
Qed.

(** ** A network for the witness

    Reading takes at most [bite] bytes, writing at most [room]. *)
Record chat := mkChat { ch_wire : bytes; ch_fin : bool; ch_inbox : bytes }.

Section chat.
Context (bite room : nat).

Definition chat_write (fd : Z) (d : bytes) (n : chat) : (Z * Z) * chat :=
  if ch_fin n then ((-1, EPIPE), n)
  else ((Z.min (Z.of_nat room) (zlength d), 0), {| n with ch_wire := ch_wire n ++ take room d |}).

Definition chat_readv (fd : Z) (iov : list Z) (n : chat) : read_result * chat :=
  match ch_inbox n with
  | [] => (ReadErr EWOULDBLOCK, n)
  | l => let k := Nat.min (S bite) (Z.to_nat (foldr Z.add 0 iov)) in
         (ReadBytes (take k l), {| n with ch_inbox := drop k l |})
  end.

Definition chat_net : SocketNet := {|
  Net := chat;
  net_write := chat_write;
  net_readv := chat_readv;
  net_shutdownWrite := λ _ n, {| n with ch_fin := true |};
  net_getSocketError := λ _ n, (0, n);
  wire := λ n _, ch_wire n;
  fin_sent := λ n _, ch_fin n;
|}.

Definition chat_sends (fd : Z) (d : bytes) (n : chat) : chat := {| n with ch_inbox := ch_inbox n ++ d |}.
Definition chat_peer : Peer chat_net := Build_Peer chat_net chat_sends (λ n _, ch_inbox n).

Lemma chat_laws : SocketNetLaws chat_net.
Proof.
  split; simpl.
  - intros fd d n r e n'. unfold chat_write. destruct (ch_fin n) eqn:Hf; intros [= <- <- <-]; simpl.
    + rewrite app_nil_r. by split_and!; [lia|..].
    + split_and!; [lia|done| |done]. f_equal.
      destruct (Nat.le_ge_cases room (length d)); [f_equal; lia|]. rewrite !take_ge by lia. done.
  - intros fd iov n r n'. unfold chat_readv. destruct (ch_inbox n) as [|b l]; intros [= <- <-]; [done|].
    split_and!; [done..|]. intros d [= <-] Hi. apply foldr_nonneg in Hi.
    change (zlength (take (Nat.min (S bite) (Z.to_nat (foldr Z.add 0 iov))) (b :: l)) <= foldr Z.add 0 iov).
    rewrite length_take. lia.
  - done.
  - by intros fd n r n' [= <- <-].
Qed.

Lemma chat_peer_laws : PeerLaws chat_net chat_peer.
Proof.
  split; simpl.
  - done.
  - intros fd iov n r n'. unfold chat_readv. destruct (ch_inbox n) as [|b l]; [done|].
    set (k := Nat.min (S bite) (Z.to_nat (foldr Z.add 0 iov))). intros [= <- <-] _ _ Hi.
    assert (Hk : (0 < k)%nat) by (unfold k; lia). clearbody k. exists (take k (b :: l)).
    split; [done|]. split; [|by cbn [ch_inbox]; rewrite take_drop]. by destruct k; [lia|].
  - intros fd fd' d n r n'. unfold chat_write. destruct (ch_fin n); by intros [= _ <-].
  - done.
Qed.
End chat.

(** ** A conversation on the epoll poller *)
#[local] Existing Instance tiny_epoll.
#[local] Instance small_net : SocketNet := chat_net 6 20.
#[local] Instance small_laws : SocketNetLaws small_net := chat_laws 6 20.
#[local] Instance small_peer : Peer small_net := chat_peer 6 20.
#[local] Instance small_peer_laws : PeerLaws small_net small_peer := chat_peer_laws 6 20.

Definition chat_world : ConnWorld (W := PollerWorld) (U := option HttpContext * unit) :=
  mkConnWorld echo_loop (mkChat [] false []) echo_conn [] [] true (None, tt) [].

Lemma chat_fresh : fresh_conn 5 1%positive chat_world.
Proof.
  pose proof (new_fresh (@None HttpContext, tt) 0 []) as []. by split.
Qed.

(** A handler that says which path was asked for. *)
Definition tell_path : HttpRequest -> M (unit * HttpResponse) unit := stateless (λ req,
  setStatusCode k200Ok ;;; setStatusMessage (str "OK") ;;; HttpResponse.setBody (path_ req)).

Definition ask (path : bytes) (hs : list header_line) (close : bool) (cut : nat) : exchange :=
  let req := request kGet path [] kHttp11 hs in
  mkExchange kGet path [] kHttp11 hs (mkResponse [] k200Ok (str "OK") close path)
    [PeerSends (take cut req); Readable (tick 1); Writable (tick 2); PeerSends (drop cut req); Readable (tick 3)]
    (replicate 60 (tick 4)).

Definition first_question : exchange := ask (str "/a") [] false 9.
Definition last_question : exchange := ask (str "/b") [HeaderLine (str "Connection") (str " ") (str "close") []] true 20.

Lemma ask_fair path hs close cut : valid_target path [] -> Forall valid_header hs ->
  wants_close (mkRequest kGet kHttp11 path [] (tick 0) (headers_of hs ∅) []) = close ->
  zlength path <= vector_max_size -> (length (request kGet path [] kHttp11 hs) <= 60)%nat ->
  printable (mkResponse [] k200Ok (str "OK") close path) ->
  fair tell_path tt (ask path hs close cut) tt.
Proof.
  intros Ht Hh Hc Hp Hl Hpr. split; [split; try done| |].
  - intros t req. unfold req. change (wants_close _) with
      (wants_close (mkRequest kGet kHttp11 path [] (tick 0) (headers_of hs ∅) [])). by rewrite Hc.
  - unfold sends, ask. cbn [x_inputs fmap list_fmap mjoin list_join app]. rewrite app_nil_r. apply take_drop.
  - done.
Qed.

Ltac fair_tac := apply ask_fair; first
  [ split_and!; try (apply memchr_None; reflexivity); by left
  | apply Forall_nil; done | split; [by vm_compute|by constructor|by vm_compute]
  | vm_compute; (reflexivity || lia || discriminate || congruence) | idtac ].

Lemma first_fair : fair tell_path tt first_question tt.
Proof. fair_tac. Qed.

Lemma last_fair : fair tell_path tt last_question tt.
Proof.
  fair_tac. repeat constructor; simpl; try (apply memchr_None; reflexivity); intros c [= <-]; reflexivity.
Qed.

Lemma chat_no_reset : no_reset (SN := small_net).
Proof.
  intros fd d n v e n' Hw Hfin Hv. change (chat_write 20 fd d n = (v, e, n')) in Hw.
  change (ch_fin n = false) in Hfin. unfold chat_write in Hw. rewrite Hfin in Hw.
  injection Hw as <- <- <-. lia.
Qed.

Lemma http_conversation_witness :
  safe (connectEstablished (http_callbacks tell_path) 9%positive ;;;
        for_each (all_inputs first_question ++ all_inputs last_question) (input_step (http_callbacks tell_path)))
    (λ _ w', offered w' = [response_bytes (x_response first_question); response_bytes (x_response last_question)]
       ∧ TCPConnection.state_ (conn w') = kDisconnecting
       ∧ ch_wire (net w') ++ content (outputBuffer_ (conn w'))
         = response_bytes (x_response first_question) ++ response_bytes (x_response last_question)) chat_world.
Proof.
  rewrite <- (app_nil_r (all_inputs first_question)).
  eapply safe_mono; [apply (http_conversation tell_path 9%positive 5 1%positive chat_world [first_question]
    last_question tt tt)|].
  - exact chat_fresh.
  - reflexivity.
  - econstructor; [exact first_fair|constructor].
  - by repeat constructor.
  - exact last_fair.
  - intros [] w' (Ho & Hs & _ & Hw & _). split; [exact Ho|]. split; [exact Hs|].
    etrans; [exact (Hw chat_no_reset)|].
    change (mjoin (responses ([first_question] ++ [last_question]))) with
      (response_bytes (x_response first_question) ++ response_bytes (x_response last_question) ++ []).
    by rewrite app_nil_r.
Defined.

(** What the client has received of the two answers, in portions of 20 bytes. *)
Example conversation_wire :
  match (connectEstablished (http_callbacks tell_path) 9%positive ;;;
         for_each (all_inputs first_question ++ all_inputs last_question ++ replicate 5 (Writable (tick 9)))
           (input_step (http_callbacks tell_path))) chat_world with
  | Ok (_, w) => Some (wire (net w) 5, fin_sent (net w) 5)
  | Fault _ => None
  end = Some (response_bytes (x_response first_question) ++ response_bytes (x_response last_question), true).
Proof. vm_compute. reflexivity. Qed.

(** A body that arrives in a segment of its own is not waited for: the request is
    answered without it, and it spoils the request that comes next. *)
Definition split_post : list input :=
  [PeerSends (render kPost (str "/login") [] kHttp11 [HeaderLine (str "Content-Length") (str " ") (str "3") []] []);
   PeerSends []] ++ replicate 12 (Readable (tick 1)) ++
  [PeerSends (str "a=1")] ++ replicate 2 (Readable (tick 2)) ++
  [PeerSends (render kGet (str "/b") [] kHttp11 [] [])] ++ replicate 12 (Readable (tick 3)).

Example split_body_lost :
  match (connectEstablished (http_callbacks tell_path) 9%positive ;;;
         for_each split_post (input_step (http_callbacks tell_path))) chat_world with
  | Ok (_, w) => Some (offered w, TCPConnection.state_ (conn w))
  | Fault _ => None
  end = Some ([response_bytes (mkResponse [] k200Ok (str "OK") false (str "/login"));
               str "HTTP/1.1 400 Bad Request" ++ kCRLF ++ kCRLF], kDisconnecting).
Proof. vm_compute. reflexivity. Qed.
