(* ===== verification/Website.v ===== *)
(** * Website: the application behind its server

    The two halves of the HTTP program together: [Application::onRequest] is the
    handler of an [HttpServer], and a client talks to it over a connection.  [site]
    is the reference: what a sequence of requests without bodies is answered, from the
    table [route] and the services alone. *)

From Stdlib Require Import ZArith Lia.
From stdpp Require Import gmap list.
From S2P Require Import Prelude Bytes Base Buffer HttpResponse.
From S2P Require Import Channel EPollPoller TCPConnection TCPConnectionInv TCPConnectionProps HttpServer.
From S2P Require Import HttpRequest HttpContext HttpConversation Application ApplicationProps.

Local Open Scope Z_scope.

(** A request of a client, and how it is sent and read. *)
Record visit {BT : BaseTime} := mkVisit {
  v_method : Method; v_path : bytes; v_query : bytes; v_version : Version;
  v_headers : list header_line;
  v_inputs : list input;
  v_reads : list Timestamp;
}.

Arguments mkVisit {BT}.

Section site.
Context {BT : BaseTime} {SV : Services}.
Implicit Types (x : visit) (w : AppWorld) (s : Svc) (f : bytes).

Definition asked x (t : Timestamp) : HttpRequest :=
  mkRequest (v_method x) (v_version x) (v_path x) (v_query x) t (headers_of (v_headers x) ∅) [].

(** The response, the file shown last and the services afterwards. *)
Definition site_step (root : bytes) x (f : bytes) s : HttpResponse * bytes * Svc :=
  let req := asked x ts_invalid in
  let '(rp, s', _) := route req s in
  let f' := match rp_file rp with Some g => root ++ g | None => f end in
  (respond rp f' s' (HttpResponse_ctor (wants_close req)), f', s').

Fixpoint site (root : bytes) (xs : list visit) (f : bytes) s : list HttpResponse * bytes * Svc :=
  match xs with
  | [] => ([], f, s)
  | x :: xs =>
      let '(r, f, s) := site_step root x f s in
      let '(rs, f, s) := site root xs f s in (r :: rs, f, s)
  end.

(** The request is one that a client can send, and the name of an image fits into
    [realFile_]. *)
Record proper (root : bytes) x : Prop := {
  pr_method : v_method x ≠ kInvalid;
  pr_version : v_version x ≠ HttpRequest.kUnknown;
  pr_target : valid_target (v_path x) (v_query x);
  pr_lines : Forall valid_header (v_headers x);
  pr_image : path_has (str ".jpg") (asked x ts_invalid) = true ->
    (length root + length (c_string (v_path x)) < FILENAME_LEN)%nat;
  pr_sends : sends (v_inputs x) = request (v_method x) (v_path x) (v_query x) (v_version x) (v_headers x);
  pr_reads : (length (sends (v_inputs x)) <= length (v_reads x))%nat;
}.

(** No file is longer than [appendToBuffer] can say. *)
Definition small_files : Prop :=
  ∀ f s d, FSUtil_openForRead f s = Some d ∨ ifs_open f s = Some d -> zlength d < 10 ^ 13.

Definition exchange_of x (r : HttpResponse) : exchange :=
  mkExchange (v_method x) (v_path x) (v_query x) (v_version x) (v_headers x) r (v_inputs x) (v_reads x).

(** The application in the middle of a conversation. *)
Record serving (root0 f : bytes) s w : Prop := {
  se_name : name_is f (app w);
  se_root : root w = root0;
  se_room : room 20 w;
  se_svc : svc w = s;
}.

Lemma fetch_small (open : bytes -> Svc -> option bytes) f s d :
  (∀ d, open f s = Some d -> zlength d < 10 ^ 13) -> fetch open f s = Some d -> zlength d < 10 ^ 13.
Proof.
  intros Hs. unfold fetch. destruct (fs_stat f s); [|done]. destruct (visible _); [|done]. intros [= <-].
  destruct (open f s) as [b|]; [by apply Hs|by vm_compute].
Qed.

Lemma route_short req s : let '(rp, _, _) := route req s in
  zlength (rp_message rp) <= vector_max_size ∧ zlength (rp_type rp) <= vector_max_size.
Proof. unfold route, register_reply, login_reply. repeat case_match; simplify_eq; by vm_compute. Qed.

Lemma respond_printable req s f b : small_files ->
  let '(rp, s', _) := route req s in printable (respond rp f s' (HttpResponse_ctor b)).
Proof.
  intros Hf. pose proof (route_short req s) as H. destruct (route req s) as [[rp s'] stmts]. destruct H as [Hm Ht].
  split; [done| |].
  - apply map_set_Forall; [by vm_compute| |].
    + apply map_set_Forall; [split; [by vm_compute|done]|constructor|]. by intros ?? [? _].
    + intros ?? [? _]. split; [done|by vm_compute].
  - cbn [respond HttpResponse.body_ HttpResponse_ctor]. destruct (rp_image rp).
    + destruct (fetch ifs_open f s') eqn:E; [|change (0 < 10 ^ 13); lia].
      eapply fetch_small; [|exact E]. intros d Hd. by eapply Hf; right.
    + destruct (fetch FSUtil_openForRead f s') eqn:E; [|change (0 < 10 ^ 13); lia]. eapply fetch_small; [|exact E].
      intros d Hd. by eapply Hf; left.
Qed.

Lemma site_step_ok root0 x f s w : small_files -> serving root0 f s w -> proper root0 x ->
  let '(r, f', s') := site_step root0 x f s in
  ∃ w', fair Application.onRequest w (exchange_of x r) w' ∧ serving root0 f' s' w'.
Proof.
  intros Hsmall [Hn Hr Hroom Hs] [Hm Hv Ht Hh Hi Hse Hre]. subst s root0.
  set (req := asked x ts_invalid). set (r0 := HttpResponse_ctor (wants_close req)).
  assert (Himg : path_has (str ".jpg") req = true -> room (length (c_string (path_ req))) w).
  { intros Hj. split; [apply Hroom|]. by apply Hi. }
  pose proof (onRequest_ok w f req r0 Hroom Hn Himg) as H.
  pose proof (respond_printable req (svc w)) as Hpr. unfold site_step. fold req r0.
  destruct (route req (svc w)) as [[rp s'] stmts] eqn:Hroute. unfold ApplicationProps.answered in H.
  change (match rp_file rp with Some g => root w ++ g | None => f end) with (file_of rp f w).
  destruct (proj1 (wp_ok _ _ _) H) as ([] & [w' r'] & Hrun & Hr' & [Hn' Hp' Hs' _]). cbn [fst snd] in *.
  exists w'. assert (Hroot : root w' = root w) by (unfold root; by rewrite Hp').
  split; [split; [split; try done|done|]|].
  - intros t req'. rewrite <- Hr'. exact Hrun.
  - by apply Hpr.
  - unfold x_request, exchange_of. cbn. rewrite <- Hse. done.
  - split; [done|done| |done]. split; [apply Hn'|]. rewrite Hroot. apply Hroom.
Qed.

Definition visit_inputs x : list input := v_inputs x ++ (Readable <$> v_reads x).

Lemma site_chain root0 xs f s w : small_files -> serving root0 f s w -> Forall (proper root0) xs ->
  let '(rs, f', s') := site root0 xs f s in
  ∃ w', chain Application.onRequest w (zip_with exchange_of xs rs) w' ∧ serving root0 f' s' w'
    ∧ length rs = length xs.
Proof.
  intros Hsmall Hw Hxs. revert f s w Hw. induction Hxs as [|x xs Hx _ IH]; intros f s w Hw; cbn [site].
  { exists w. split_and!; [constructor|done|done]. }
  pose proof (site_step_ok root0 x f s w Hsmall Hw Hx) as Hstep.
  destruct (site_step root0 x f s) as [[r f1] s1]. destruct Hstep as (w1 & Hfair & Hw1).
  pose proof (IH f1 s1 w1 Hw1) as Hrest. destruct (site root0 xs f1 s1) as [[rs f2] s2].
  destruct Hrest as (w2 & Hch & Hw2 & Hl). exists w2. split_and!; [by econstructor|done|by simpl; rewrite Hl].
Qed.

Lemma exchanges_of xs rs : length rs = length xs ->
  concat (all_inputs <$> zip_with exchange_of xs rs) = concat (visit_inputs <$> xs)
  ∧ responses (zip_with exchange_of xs rs) = response_bytes <$> rs
  ∧ (Forall (λ r, closeConnection r = false) rs -> Forall keeps_open (zip_with exchange_of xs rs)).
Proof.
  revert xs. induction rs as [|r rs IH]; intros [|x xs] Hl; [done..|]. injection Hl as Hl.
  destruct (IH xs Hl) as (H1 & H2 & H3). unfold responses in *. cbn. split_and!.
  - by rewrite H1.
  - by f_equal.
  - intros Hr. inversion Hr; subst. constructor; [done|by apply H3].
Qed.
End site.

(** C1: The HTTP program answers as its table of routes says.  A client of the
    application makes any requests without a body -- pages, images, paths that do not
    exist -- one after the other over one connection; its bytes arrive and are read
    in any pieces.  Nothing fails, and for each request exactly the response is sent
    that [site] gives it: what [route] chooses, made of the contents of the files
    below the root and of the services as the requests before have left them.  The
    bytes given to the kernel followed by those in the output buffer are all these
    responses, one after the other, if no write before the FIN is answered with
    EPIPE or ECONNRESET, and some of them, whole and in that order, in any case.  The
    connection is shut down after the first response that says so, such as a 404. *)
Theorem website_conversation {BT : BaseTime} {SV : Services} {W} {LO : LoopOps W} {LS : LoopSpec W}
    {SN : SocketNet} {SL : SocketNetLaws SN} {PE : Peer SN} {PL : PeerLaws SN PE}
    self sockfd p (w : ConnWorld (W := W) (U := option HttpContext * AppWorld)) xs x f0 :
  let w0 := snd (user w) in
  fresh_conn sockfd p w -> unread (net w) sockfd = [] -> small_files ->
  name_is f0 (app w0) -> room 20 w0 -> Forall (proper (root w0)) (xs ++ [x]) ->
  let '(rs, f, s) := site (root w0) xs f0 (svc w0) in
  let '(r, _, s') := site_step (root w0) x f s in
  Forall (λ r, closeConnection r = false) rs ->
  safe (connectEstablished (http_callbacks Application.onRequest) self ;;;
        for_each (concat (visit_inputs <$> xs) ++ visit_inputs x) (input_step (http_callbacks Application.onRequest)))
    (λ _ w', offered w' = response_bytes <$> (rs ++ [r])
       ∧ TCPConnection.state_ (conn w') = (if closeConnection r then kDisconnecting else kConnected)
       ∧ (∃ kept, kept `sublist_of` (response_bytes <$> (rs ++ [r]))
            ∧ wire (net w') sockfd ++ content (outputBuffer_ (conn w')) = mjoin kept)
       ∧ (no_reset -> wire (net w') sockfd ++ content (outputBuffer_ (conn w'))
            = mjoin (response_bytes <$> (rs ++ [r])))
       ∧ svc (snd (user w')) = s') w.
Proof.
  intros w0 Hf Hn Hsmall Hname Hroom Hall. apply Forall_app in Hall as [Hxs Hx]. rewrite Forall_singleton in Hx.
  assert (Hw0 : serving (root w0) f0 (svc w0) w0) by (by split).
  pose proof (site_chain _ xs _ _ _ Hsmall Hw0 Hxs) as Hch.
  destruct (site (root w0) xs f0 (svc w0)) as [[rs f] s]. destruct Hch as (w1 & Hch & Hw1 & Hl).
  pose proof (site_step_ok _ x f s w1 Hsmall Hw1 Hx) as Hlast.
  destruct (site_step (root w0) x f s) as [[r f'] s']. destruct Hlast as (w2 & Hfair & Hw2). intros Hopen.
  destruct (exchanges_of xs rs Hl) as (Hin & Hre & Hkeep). rewrite <- Hin.
  change (visit_inputs x) with (all_inputs (exchange_of x r)).
  eapply safe_mono; [by apply (conversation_runs Application.onRequest self sockfd p w _ (exchange_of x r) w1 w2); auto|].
  intros [] w3 (Ho & Hst & Hk & Hall & _ & _ & Hu).
  assert (Hre' : responses (zip_with exchange_of xs rs ++ [exchange_of x r]) = response_bytes <$> (rs ++ [r])).
  { unfold responses in *. rewrite !fmap_app, Hre. done. }
  rewrite Hre' in *. split_and!; [done|exact Hst|done|done|]. rewrite Hu. apply Hw2.
Qed.

(** ** A visit *)
#[local] Existing Instance tiny_epoll.
#[local] Existing Instance small_net.
#[local] Existing Instance small_laws.
#[local] Existing Instance small_peer.
#[local] Existing Instance small_peer_laws.

(** Services that keep everything in memory and read at most 1000 bytes of a file. *)
#[local] Instance shelf_services : Services := {|
  Svc := memory;
  redis_connectSvr := λ s, s;
  redis_hasHField := λ k f s, (if bool_decide (is_Some (mem_fields s !! (k, f))) then 1 else 0, s);
  redis_getHField := λ k f s, (default [] (mem_fields s !! (k, f)), s);
  redis_setHField := λ k f v s, (0, mkMemory (<[(k, f) := v]> (mem_fields s)) (mem_files s));
  mysql_init := λ s, s;
  mysql_execute := λ _ s, ((0, []), s);
  fs_stat := λ f s, fst <$> mem_files s !! f;
  ifs_open := λ f s, take 1000 ∘ snd <$> mem_files s !! f;
  FSUtil_openForRead := λ f s, take 1000 ∘ snd <$> mem_files s !! f;
|}.

Lemma shelf_small : small_files.
Proof.
  assert (H : ∀ (o : option (Z * bytes)) d, (take 1000 ∘ snd <$> o) = Some d -> zlength d < 10 ^ 13).
  { intros o d (p & _ & ->)%fmap_Some. apply Z.le_lt_trans with (Z.of_nat 1000); [|by vm_compute].
    apply inj_le. apply firstn_le_length. }
  intros f s d [Hd|Hd]; exact (H _ _ Hd).
Qed.

Definition shelf_app : AppWorld :=
  mkAppWorld (mkApplication (replicate FILENAME_LEN ch_nul) (str "/srv") 0) some_files [].

Definition site_world : ConnWorld (W := PollerWorld) (U := option HttpContext * AppWorld) :=
  mkConnWorld echo_loop (mkChat [] false []) echo_conn [] [] true (None, shelf_app) [].

Definition get (path : bytes) (cut : nat) : visit :=
  let req := request kGet path [] kHttp11 [] in
  mkVisit kGet path [] kHttp11 []
    [PeerSends (take cut req); Readable (tick 1); Writable (tick 2); PeerSends (drop cut req)]
    (replicate 30 (tick 3)).

(** A page, an image, and something that is not there. *)
Definition visits : list visit := [get (str "/welcome") 5; get (str "/a.jpg") 12].
Definition last_visit : visit := get (str "/nope") 7.

Definition site_headers (type : bytes) : list (bytes * bytes) :=
  [(str "Content-Type", type); (str "Server", str "Lux polaris")].
Definition visit_responses : list HttpResponse :=
  [mkResponse (site_headers (str "text/html")) k200Ok (str "OK") false (str "hello");
   mkResponse (site_headers (str "image/jpg")) k200Ok (str "OK") false (str "pixels")].
Definition last_response : HttpResponse :=
  mkResponse (site_headers (str "text/html")) k404NotFound (str "Not Found") true [].

Lemma site_visits : site (str "/srv") visits [] some_files = (visit_responses, str "/srv/a.jpg", some_files).
Proof. vm_compute. reflexivity. Qed.

Lemma site_last f : site_step (str "/srv") last_visit f some_files = (last_response, str "/srv/404.html", some_files).
Proof. vm_compute. reflexivity. Qed.

Lemma site_fresh : fresh_conn 5 1%positive site_world.
Proof. pose proof (new_fresh (@None HttpContext, shelf_app) 0 []) as []. by split. Qed.

Lemma get_proper path cut : valid_target path [] -> (length path <= 12)%nat -> proper (str "/srv") (get path cut).
Proof.
  intros Ht Hl.
  assert (Hs : sends (v_inputs (get path cut)) = request kGet path [] kHttp11 []).
  { unfold sends. cbn [get v_inputs fmap list_fmap mjoin list_join]. by rewrite !app_nil_l, app_nil_r, take_drop. }
  split; try done.
  - intros _. cbn [get v_path]. unfold c_string. rewrite length_take. change (length (str "/srv")) with 4%nat.
    unfold FILENAME_LEN. lia.
  - rewrite Hs. change (length (v_reads _)) with 30%nat. unfold request, render, request_line.
    repeat (rewrite length_app || rewrite length_cons). cbn. lia.
Qed.

Lemma visits_proper : Forall (proper (str "/srv")) (visits ++ [last_visit]).
Proof.
  repeat constructor; try (apply get_proper; [|cbn; lia]; split_and!; try (by apply memchr_None); by left).
Qed.

Lemma website_conversation_witness :
  safe (connectEstablished (http_callbacks Application.onRequest) 9%positive ;;;
        for_each (concat (visit_inputs <$> visits) ++ visit_inputs last_visit)
          (input_step (http_callbacks Application.onRequest)))
    (λ _ w', offered w' = response_bytes <$> (visit_responses ++ [last_response])
       ∧ TCPConnection.state_ (conn w') = kDisconnecting
       ∧ ch_wire (net w') ++ content (outputBuffer_ (conn w'))
         = mjoin (response_bytes <$> (visit_responses ++ [last_response]))) site_world.
Proof.
  pose proof (website_conversation 9%positive 5 1%positive site_world visits last_visit [] site_fresh eq_refl
    shelf_small) as H.
  change (root (snd (user site_world))) with (str "/srv") in H.
  change (svc (snd (user site_world))) with some_files in H. rewrite site_visits, site_last in H.
  eapply safe_mono; [apply H|].
  - split; [done|]. split; [apply not_elem_of_nil|]. by exists (replicate 199 ch_nul).
  - split; [done|]. apply (bool_decide_unpack _). vm_compute. exact I.
  - exact visits_proper.
  - by repeat constructor.
  - intros [] w' (Ho & Hs & _ & Hw & _). exact (conj Ho (conj Hs (Hw chat_no_reset))).
Defined.
